(* ===== verification/_CoqProject ===== *)
-Q . S2P
Prelude.v
SizeClass.v
Memory.v
Extents.v
AllocSpec.v
Page.v
Magazine.v
Treiber.v
Metadata.v
Metrics.v
Headers.v
AllocCore.v
SimpleCache.v
SimpleLists.v
SimpleSafe.v
SimpleAllocator.v
Global.v
GlobalInv.v
GlobalCache.v
GlobalSafe.v
Allocator.v
Abi.v
FreeList.v
Slab.v
Buddy.v
ThreadLocal.v
GlobalPool.v
RingBuffer.v
SupportCore.v
TagManager.v
HardwareTags.v
PageTable.v
Compactor.v
Text.v
Rounding.v
Exporter.v
Counting.v
Interleave.v
Process.v
Sharing.v
ProcessSafe.v
Threads.v
ThreadViews.v
ThreadActions.v
ThreadPools.v
ThreadNodes.v
ThreadSafe.v
Settling.v
Concurrent.v
Completion.v
Typing.v
ProcessCounts.v
ThreadCounts.v
SimpleThreads.v
SimpleViews.v
SimpleActions.v
SimpleGlobals.v
SimpleCalls.v
SimpleConcurrent.v
SimpleCounts.v
UnitTests.v
