(* ===== verification/Prelude.v ===== *)
(** * AethAlloc: a verification development

    AethAlloc is a memory allocator in Rust, built as a shared library that replaces
    the C allocation functions.  This development models its crates and proves what
    makes them correct.  It is a library of files, this one being shared by all.

    ** The program and its parts

    - aethalloc-core: pages from the kernel (page.rs), size classes (size_class.rs),
      magazines of free blocks with the global lock-free pools and the allocator of
      their nodes (magazine.rs), and four components beside them: slab.rs, buddy.rs,
      thread_local.rs and global_pool.rs.
    - aethalloc-abi: the global allocator (global.rs) and the C functions (lib.rs).
      [alloc] serves small requests from the calling thread's cache, then from the
      global pools, then by cutting a fresh page into blocks; large requests get pages
      of their own.  [dealloc] tells the kinds apart by the headers in front of the
      pointer.  Two modes are compiled from the same file: magazine-caching, the
      default, and simple-cache.
    - aethalloc-amo: a ring of commands for a support core.
    - aethalloc-hess: tags in pointers, in software and for three kinds of hardware.
    - aethalloc-vmpc: relocation of pages and a reader of the page tables.
    - aethalloc-metrics: an exporter of the allocator's counters over HTTP.

    ** Files, and what they model

    - [Prelude]: machine integers with their wrap-around (release builds have no
      overflow checks), the state monad [M] whose runs return, panic, fault or diverge,
      its weakest preconditions, the tactics and the hint database.
    - [Memory], [Extents]: the byte-addressed address space and arenas of pairwise
      disjoint mapped extents, the vocabulary of all safety statements.
    - [SizeClass] (size_class.rs, [size_to_class]), [Page] (page.rs over the system
      calls [Kernel], with [KernelSpec] what mmap and munmap document and the bump
      kernel as an instance), [Magazine] (magazine.rs), [Metadata]
      ([MetadataAllocator]), [Metrics] (the counters).
    - [AllocSpec]: the contract of an allocator as the classes [AllocOps] and
      [AllocLaws], clients as trees of calls, their reference heap, and the theorem that
      a client that keeps the rules runs on every implementation of the laws.
    - [Headers], [AllocCore]: what the two modes of global.rs share, on memory (the two
      headers, large allocations, what a pointer is, [get_alloc_size]) and above it
      (counters, hits, misses, release), with the classes [ModeOps], [ModeLaws] and
      [ModeCalls] by which a mode becomes an instance of the contract.
    - [Global], [GlobalInv], [GlobalCache], [GlobalSafe], [Allocator]: the
      magazine-caching mode: definitions, invariant, movement of blocks, the calls, the
      theorems.  [SimpleCache], [SimpleLists], [SimpleSafe], [SimpleAllocator]: the same
      for the simple-cache mode.
    - [Abi]: malloc, free, calloc, realloc, aligned_alloc and posix_memalign of lib.rs,
      against [AllocLaws] only.
    - [Treiber]: the compare-exchange loops of magazine.rs, global_pool.rs and global.rs
      access by access, for any number of threads and every interleaving.
    - [FreeList], [Slab], [Buddy], [ThreadLocal], [GlobalPool]: intrusive lists and the
      other components of aethalloc-core.
    - [RingBuffer], [SupportCore]: aethalloc-amo, the ring both call by call and access
      by access for one producer and one consumer; the support core's loop is that
      consumer, and its steps interleave with the producer's.
    - [TagManager], [HardwareTags]: aethalloc-hess; [TagAllocLaws] is what all managers
      promise.  CPUID, the MTE and the CHERI instructions are parameters, with what the
      manuals say of them as classes.
    - [PageTable], [Compactor]: aethalloc-vmpc over [ProcFs], [FixedKernel], [Remap] and
      [CrossProcess], the system calls it makes; what pagemap shows depends on the
      privilege of the process.
    - [Text], [Rounding], [Exporter]: strings of the standard library, bounds on
      floating-point rounding, and the two servers of aethalloc-metrics, from the bytes
      read to the bytes written.
    - [Counting]: what the calls of a client add to the counters in either mode, and
      what the exporter shows of them.
    - [Interleave]: programs of atomic actions, their steps, the program logic for
      threads that share a state (every thread has a view of what it owns, every action
      keeps the invariant all views share) and its soundness, termination of programs
      whose loops succeed in their second round when nobody interferes.
    - [Process]: the parts of [alloc] and [dealloc] that the modes share as such programs,
      and processes whose threads are inside the calls of a mode ([ModeProgs]).
      [Sharing]: what the invariant of a mode has to promise ([SharingLaws]) and the
      shared parts verified against it; [ProcessSafe]: for every mode whose calls are
      verified programs ([SharedCalls]) its processes refine the reference heap, do not
      fail and complete; [ProcessCounts]: the same for the counters ([CountProgs]).
    - The magazine-caching mode as an instance: [Threads] (its programs, and their
      equality with [Global] when one thread runs alone), [ThreadViews] (the invariant),
      [ThreadActions], [ThreadPools], [ThreadNodes], [ThreadSafe] (actions, loops of the
      stacks, [alloc_node], the two calls), [Settling] (the loops end); [Concurrent],
      [Completion], [Typing], [ThreadCounts] hold its theorems.
    - The simple-cache mode as an instance: [SimpleThreads], [SimpleViews],
      [SimpleActions], [SimpleGlobals], [SimpleCalls] in the same roles; its theorems are
      in [SimpleConcurrent] and [SimpleCounts].
    - [UnitTests]: the unit tests of the sources as computations on the model.

    Definitions keep the names of the code; a method is named after its type
    ([Magazine_push]), the state of a component is a record of its fields, [&mut self]
    is state passing in [M], a panic and an access to unmapped memory are outcomes.

    ** What the theorems show

    - Refinement of the reference heap: on both modes every well-behaved
      multi-threaded client runs without fault and sees a heap of disjoint allocations
      that keep their bytes ([aeth_client_refines], [simple_client_refines]); the
      per-call theorems of [Allocator], [SimpleAllocator] and [Abi] add alignment,
      exact sizes, what is unmapped, and the error codes.
    - Data structures as their abstractions: magazines, pools, free lists and rings are
      bounded stacks and queues, tag managers are sets of tags, for every sequence of
      calls.
    - Concurrency of whole calls: with any number of threads interleaved access by access
      inside [alloc] and [dealloc] the history of a process is one of the reference heap
      ([concurrent_refines]), every access succeeds and someone may always go on
      ([concurrent_safe]), a thread left to itself finishes its call ([call_completes]),
      and array bounds and machine words hold in every interleaving, races in
      [alloc_node] included ([process_well_typed]).  The first three assume that threads
      enter [alloc_node] one at a time; [alloc_node_race_duplicates] shows why.  That a
      node is never pushed on a full stack twice, which excludes ABA, is not assumed but
      part of the invariant proved: [alloc_node] gives every node once and emptied nodes
      are not reused.
      The simple-cache mode has the same theorems ([simple_concurrent_refines],
      [simple_calls_complete]) for threads that enter [GlobalFreeList::pop] one at a time,
      while others push batches; [global_pop_race] shows what happens otherwise.
    - Concurrency of the shared structures: the stacks are linearizable under the
      discipline that excludes ABA, the ring is a race-free queue; without the discipline
      a stack pops a node twice, and two threads can be given one metadata node.
    - The support core beside a producer handles what is pushed, in order, and never
      returns ([support_core_serves]).
    - Memory safety of slab, buddy, thread-local cache and relocation: blocks are
      disjoint, contents are kept, what is free is merged; with the inputs on which the
      code fails exhibited as runs.  The invariants say where the code is right: slots of a
      slab have 16 to 4096 bytes ([slab_8192_slot_too_short] is what a larger one gives) and
      regions of the buddy allocator are aligned to 2^18, which mmap does not promise
      ([buddy_misaligned_overlap]).
    - The exporter: every response is delimited by its length and carries the page of
      its path, the counters are read back from the text, the hit rate is a percentage;
      with the counts not flushed yet they are the calls that were made, for clients
      that call one at a time ([metrics_count_calls]) and in every interleaving, also of
      the [fetch_add]s of the flushes and of threads that race in [alloc_node] or [pop]
      ([concurrent_counters], [simple_concurrent_counters]).

    ** Bounds and fuel

    Recursions that the code bounds itself follow its counters ([pop_batch_loop] 128
    rounds, the tag loops 15, [clear_loop] 32, [full_depth] nine nodes, [walk_loop] the
    flush count); running out of fuel is [Diverge], which the theorems exclude:
    [remove_from_free_list] and [coalesce] need as many rounds as there are free blocks,
    [BuddyAllocator_alloc] two, the spinning [push] and [pop] of the ring take the number of
    rounds as an argument.  The loop of the support core has no fuel: [core_reach] are its
    runs of any length beside a producer, and [support_core_serves] bounds the accesses of a
    round.  [dec] has fuel for all digits by the logarithm
    of its argument; its lemmas prove that enough.  The loops of [Interleave] have no
    fuel: an execution may go round for ever, and [call_completes] and
    [simple_calls_complete] give the number of steps after which a thread that runs alone
    is done.

    ** Not modelled

    - Weak memory: interleavings are sequentially consistent.
    - In [Threads] and [SimpleThreads] work on memory of the calling thread alone is one
      action: an operation on its magazines or lists, the exchange with a node it has
      popped, the cut of a batch off its list, the headers of fresh pages, the reads of
      [dealloc] in front of the pointer it is given, and the increments of its own
      counters; so is [get_alloc_size], whose reads concern a live allocation.  Two
      threads are not inside [alloc_node], or [GlobalFreeList::pop], at once in the
      theorems that say so.
    - Inline assembly, system calls, sockets, threads, the dynamic loader: parameters
      with documented behaviour, instantiated in the witnesses.
    - Debug output, the padding of the ring's indices, the panic handler, the benchmarks,
      the stress and integration tests and the Nix packaging. *)

From Stdlib Require Export ZArith Lia.
From stdpp Require Export gmap numbers option prelude.

#[global] Open Scope Z_scope.

(** ** Machine integers

    A [usize]/[u64] is an integer of [Z] in [0, 2^64).  The release profile of
    Cargo.toml leaves overflow checks off, so [+], [-] and [*] wrap. *)

Definition USIZE_BITS : Z := 64.

Definition wrap64 (x : Z) : Z := x mod 2 ^ 64.

Definition wrap32 (x : Z) : Z := x mod 2 ^ 32.

Definition is_usize (x : Z) : Prop := 0 <= x < 2 ^ 64.

Declare Scope usize_scope.
Delimit Scope usize_scope with usize.
Notation "x +! y" := (wrap64 (x + y)) (at level 50, left associativity) : usize_scope.
Notation "x -! y" := (wrap64 (x - y)) (at level 50, left associativity) : usize_scope.
Notation "x *! y" := (wrap64 (x * y)) (at level 40, left associativity) : usize_scope.
#[global] Open Scope usize_scope.

(** [!x] on a [usize]. *)
Definition unot (x : Z) : Z := 2 ^ 64 - 1 - x.

(** [a << n]: the shift amount is taken modulo the width in a release build. *)
Definition shl64 (a n : Z) : Z := wrap64 (Z.shiftl a (n mod 64)).

(** [usize::saturating_sub]. *)
Definition saturating_sub (a b : Z) : Z := Z.max 0 (a - b).

(** [usize::checked_mul]. *)
Definition checked_mul (a b : Z) : option Z :=
  if a * b <? 2 ^ 64 then Some (a * b) else None.

(** [usize::div_ceil]. *)
Definition div_ceil (a b : Z) : Z :=
  if 0 <? a mod b then a / b + 1 else a / b.

Fixpoint pos_count_ones (p : positive) : Z :=
  match p with
  | xH => 1
  | xO q => pos_count_ones q
  | xI q => 1 + pos_count_ones q
  end.

(** [usize::count_ones]. *)
Definition count_ones (x : Z) : Z :=
  match x with
  | Zpos p => pos_count_ones p
  | _ => 0
  end.

(** [usize::is_power_of_two]: exactly one bit is set. *)
Definition is_power_of_two (x : Z) : bool := count_ones x =? 1.

Fixpoint pos_trailing_zeros (p : positive) : Z :=
  match p with
  | xO q => 1 + pos_trailing_zeros q
  | _ => 0
  end.

(** [usize::trailing_zeros]; 64 for zero. *)
Definition trailing_zeros (x : Z) : Z :=
  match x with
  | Zpos p => pos_trailing_zeros p
  | _ => 64
  end.

(** [usize::leading_zeros]; 64 for zero. *)
Definition leading_zeros (x : Z) : Z :=
  if x =? 0 then 64 else 63 - Z.log2 x.

(** ** Fixed-size arrays: an index out of range panics. *)

Definition arr_get {A} (l : list A) (i : Z) : option A :=
  if 0 <=? i then l !! Z.to_nat i else None.

Definition arr_set {A} (l : list A) (i : Z) (x : A) : option (list A) :=
  if (0 <=? i) && (i <? Z.of_nat (length l)) then Some (<[Z.to_nat i := x]> l) else None.

(** ** Effects: state passing with the ways a run can fail *)

Inductive outcome (A : Type) : Type :=
  | Ret (a : A)
  | Panic
  | Fault
  | Diverge.
Arguments Ret {A} _.
Arguments Panic {A}.
Arguments Fault {A}.
Arguments Diverge {A}.

Definition M (S A : Type) : Type := S -> outcome (A * S).

#[global] Instance M_ret {S} : MRet (M S) := fun A a s => Ret (a, s).

#[global] Instance M_bind {S} : MBind (M S) := fun A B k m s =>
  match m s with
  | Ret (a, s') => k a s'
  | Panic => Panic
  | Fault => Fault
  | Diverge => Diverge
  end.

Definition getS {S} : M S S := fun s => Ret (s, s).

Definition gets {S A} (f : S -> A) : M S A := fun s => Ret (f s, s).

Definition modifyS {S} (f : S -> S) : M S unit := fun s => Ret (tt, f s).

Definition panic {S A} : M S A := fun _ => Panic.

Definition fault {S A} : M S A := fun _ => Fault.

(** Index and bounds checks inside a computation. *)
Definition or_panic {S A} (o : option A) : M S A :=
  match o with Some a => mret a | None => panic end.

Definition or_fault {S A} (o : option A) : M S A :=
  match o with Some a => mret a | None => fault end.

(** Run a computation on a part of the state that may be missing. *)
Definition zoom {S T A} (get : S -> option T) (put : T -> S -> S) (m : M T A) : M S A := fun s =>
  match get s with
  | None => Panic
  | Some x =>
      match m x with
      | Ret (a, x') => Ret (a, put x' s)
      | Panic => Panic
      | Fault => Fault
      | Diverge => Diverge
      end
  end.

(** Unfold the monad's combinators and reduce, leaving the code's own definitions. *)
Ltac run_m :=
  unfold mbind, M_bind, mret, M_ret, getS, gets, modifyS, or_panic, or_fault, panic, fault;
  cbv beta iota zeta.

(** [wp m Q s]: the run of [m] from [s] returns, and its result satisfies [Q]. *)
Definition wp {S A} (m : M S A) (Q : A -> S -> Prop) (s : S) : Prop :=
  exists a s', m s = Ret (a, s') /\ Q a s'.

Create HintDb aeth discriminated.
#[export] Hint Constants Opaque : aeth.
#[export] Hint Variables Opaque : aeth.

Section wp_rules.
Context {S A B : Type}.
Implicit Types (m : M S A) (s : S).

Lemma wp_ret (a : A) (Q : A -> S -> Prop) s : Q a s -> wp (mret a) Q s.
Proof. intros H. exists a, s. done. Qed.

Lemma wp_bind m (k : A -> M S B) (Q : B -> S -> Prop) s :
  wp m (fun a s' => wp (k a) Q s') s -> wp (m ≫= k) Q s.
Proof.
  intros (a & s' & Hm & b & s'' & Hk & HQ). exists b, s''. split; [|done].
  unfold mbind, M_bind. by rewrite Hm.
Qed.

Lemma wp_mono m (P Q : A -> S -> Prop) s :
  wp m P s -> (forall a s', P a s' -> Q a s') -> wp m Q s.
Proof. intros (a & s' & Hm & HP) HPQ. exists a, s'. eauto. Qed.

Lemma wp_gets (f : S -> A) (Q : A -> S -> Prop) s : Q (f s) s -> wp (gets f) Q s.
Proof. intros H. exists (f s), s. done. Qed.

Lemma wp_modify (f : S -> S) (Q : unit -> S -> Prop) s : Q tt (f s) -> wp (modifyS f) Q s.
Proof. intros H. exists tt, (f s). done. Qed.

Lemma wp_or_panic (o : option A) a (Q : A -> S -> Prop) s :
  o = Some a -> Q a s -> wp (or_panic o) Q s.
Proof. intros ->. apply wp_ret. Qed.

Lemma wp_or_fault (o : option A) a (Q : A -> S -> Prop) s :
  o = Some a -> Q a s -> wp (or_fault o) Q s.
Proof. intros ->. apply wp_ret. Qed.

Lemma wp_zoom {T} (get : S -> option T) put (m : M T A) x (Q : A -> S -> Prop) s :
  get s = Some x -> wp m (fun a x' => Q a (put x' s)) x -> wp (zoom get put m) Q s.
Proof.
  intros Hg (a & x' & Hm & HQ). exists a, (put x' s). split; [|done].
  unfold zoom. by rewrite Hg, Hm.
Qed.
End wp_rules.

(** [lia] with the equations of [/] and [mod] by constants. *)
Ltac mlia := Z.div_mod_to_equations; lia.

(** Replace the integer [n] by each value of its range [H : a <= n <= b] in turn. *)
Ltac each_value n H :=
  lazymatch type of H with
  | ?a <= n <= ?b =>
      let a' := eval vm_compute in (a + 1) in
      let last := eval vm_compute in (a =? b) in
      lazymatch last with
      | true => assert (n = a) by lia; clear H; subst n
      | false =>
          destruct (decide (n = a));
          [clear H; subst n | assert (a' <= n <= b) as H' by lia; clear H; rename H' into H; each_value n H]
      end
  end.

(** ** Lemmas on machine integers *)

Lemma wrap64_small x : is_usize x -> wrap64 x = x.
Proof. unfold is_usize, wrap64. apply Z.mod_small. Qed.

Lemma wrap64_range x : is_usize (wrap64 x).
Proof. unfold is_usize, wrap64. apply Z.mod_pos_bound. lia. Qed.

Lemma wrap32_small x : 0 <= x < 2 ^ 32 -> wrap32 x = x.
Proof. unfold wrap32. apply Z.mod_small. Qed.

Lemma wrap32_range x : 0 <= wrap32 x < 2 ^ 32.
Proof. unfold wrap32. apply Z.mod_pos_bound. lia. Qed.

#[export] Hint Resolve wrap64_range wrap32_range : aeth.

Lemma pow2_pos n : 0 <= n -> 0 < 2 ^ n.
Proof. intros. apply Z.pow_pos_nonneg; lia. Qed.

Lemma pow2_le n m : 0 <= n <= m -> 2 ^ n <= 2 ^ m.
Proof. intros. apply Z.pow_le_mono_r; lia. Qed.

Lemma pow2_lt n m : 0 <= n < m -> 2 ^ n < 2 ^ m.
Proof. intros. apply Z.pow_lt_mono_r; lia. Qed.

Lemma pow2_lt_inv n m : 0 <= m -> 2 ^ n < 2 ^ m -> n < m.
Proof. intros Hm H. apply (Z.pow_lt_mono_r_iff 2); lia. Qed.

Lemma pow2_le_inv n m : 0 <= m -> 2 ^ n <= 2 ^ m -> n <= m.
Proof. intros Hm H. apply (Z.pow_le_mono_r_iff 2); lia. Qed.

Lemma pow2_split n m : 0 <= n <= m -> 2 ^ m = 2 ^ n * 2 ^ (m - n).
Proof. intros. rewrite <- Z.pow_add_r by lia. f_equal. lia. Qed.

Lemma pow2_mod n m : 0 <= n <= m -> 2 ^ m mod 2 ^ n = 0.
Proof.
  intros. rewrite (pow2_split n m) by lia. rewrite Z.mul_comm.
  apply Z.mod_mul. pose proof (pow2_pos n). lia.
Qed.

Lemma pos_count_ones_pos p : 1 <= pos_count_ones p.
Proof. induction p; simpl; lia. Qed.

Lemma pos_count_ones_one p : pos_count_ones p = 1 -> exists n, 0 <= n /\ Zpos p = 2 ^ n.
Proof.
  induction p as [p IH | p IH |]; simpl; intros H.
  - pose proof (pos_count_ones_pos p). lia.
  - destruct (IH H) as (n & Hn & Hp). exists (Z.succ n). split; [lia|].
    rewrite Z.pow_succ_r by lia. lia.
  - exists 0. split; [lia|]. done.
Qed.

Lemma count_ones_pow2 n : 0 <= n -> count_ones (2 ^ n) = 1.
Proof.
  intros Hn. revert n Hn. apply natlike_ind; [done|].
  intros n Hn IH. rewrite Z.pow_succ_r by lia.
  destruct (2 ^ n); done.
Qed.

(** [is_power_of_two] decides being a power of two. *)
Lemma is_power_of_two_iff x : is_power_of_two x = true <-> exists n, 0 <= n /\ x = 2 ^ n.
Proof.
  unfold is_power_of_two. rewrite Z.eqb_eq. split.
  - destruct x as [|p|p]; simpl; try lia. apply pos_count_ones_one.
  - intros (n & Hn & ->). by apply count_ones_pow2.
Qed.

Lemma trailing_zeros_pow2 n : 0 <= n -> trailing_zeros (2 ^ n) = n.
Proof.
  intros Hn. revert n Hn. apply natlike_ind; [done|].
  intros n Hn IH. rewrite Z.pow_succ_r by lia.
  pose proof (pow2_pos n Hn). destruct (2 ^ n) as [|p|p]; [lia| |lia].
  change (1 + trailing_zeros (Zpos p) = Z.succ n). lia.
Qed.

Lemma shl64_1 n : 0 <= n < 64 -> shl64 1 n = 2 ^ n.
Proof.
  intros Hn. unfold shl64. rewrite (Z.mod_small n 64) by lia.
  rewrite Z.shiftl_1_l. apply wrap64_small. split.
  - pose proof (pow2_pos n). lia.
  - apply pow2_lt. lia.
Qed.

Lemma shl64_pow2 k n : 0 <= k -> 0 <= n -> k + n < 64 -> shl64 (2 ^ k) n = 2 ^ (k + n).
Proof.
  intros Hk Hn Hkn. unfold shl64. rewrite (Z.mod_small n 64) by lia.
  rewrite Z.shiftl_mul_pow2, <- Z.pow_add_r by lia. apply wrap64_small. split.
  - pose proof (pow2_pos (k + n)). lia.
  - apply pow2_lt. lia.
Qed.

Lemma div_ceil_spec a b :
  0 < b -> a <= div_ceil a b * b < a + b.
Proof.
  intros Hb. unfold div_ceil.
  pose proof (Z.div_mod a b ltac:(lia)). pose proof (Z.mod_pos_bound a b Hb).
  destruct (Z.ltb_spec 0 (a mod b)); nia.
Qed.

Lemma div_ceil_pos a b : 0 < a -> 0 < b -> 0 < div_ceil a b.
Proof. intros Ha Hb. pose proof (div_ceil_spec a b Hb). nia. Qed.

Lemma div_ceil_le a b n : 0 < b -> a <= n * b -> div_ceil a b <= n.
Proof. intros Hb H. pose proof (div_ceil_spec a b Hb). nia. Qed.

(** Masking with [!(2^k - 1)] rounds down to a multiple of [2^k]. *)
Lemma land_unot_pow2 x k :
  is_usize x -> 0 <= k <= 63 -> Z.land x (unot (2 ^ k - 1)) = x - x mod 2 ^ k.
Proof.
  intros Hx Hk. unfold unot. unfold is_usize in Hx.
  replace (2 ^ 64 - 1 - (2 ^ k - 1)) with (Z.ldiff (Z.ones 64) (Z.ones k)).
  2:{ rewrite <- Z.sub_nocarry_ldiff.
      - rewrite !Z.ones_equiv. lia.
      - apply Z.bits_inj_iff'. intros i Hi. rewrite Z.ldiff_spec, Z.bits_0.
        destruct (decide (i < 64)).
        + rewrite (Z.ones_spec_low 64) by lia. apply andb_false_r.
        + rewrite (Z.ones_spec_high k) by lia. done. }
  transitivity (Z.ldiff x (Z.ones k)).
  - apply Z.bits_inj_iff'. intros i Hi. rewrite Z.land_spec, !Z.ldiff_spec.
    destruct (decide (i < 64)).
    + rewrite (Z.ones_spec_low 64) by lia. done.
    + rewrite (Z.ones_spec_high 64) by lia. simpl. rewrite andb_false_r.
      rewrite Z.bits_above_log2; [done|lia|].
      destruct (decide (x = 0)) as [->|]; [simpl; lia|].
      apply Z.lt_le_trans with 64; [|lia].
      apply Z.log2_lt_pow2; lia.
  - rewrite Z.ldiff_ones_r by lia. rewrite Z.shiftl_mul_pow2, Z.shiftr_div_pow2 by lia.
    pose proof (Z.div_mod x (2 ^ k)). pose proof (pow2_pos k). lia.
Qed.

(** ** Array lemmas *)

Section arrays.
Context {A : Type}.
Implicit Types (l : list A) (i : Z).

Lemma arr_get_lookup l i x :
  arr_get l i = Some x <-> 0 <= i /\ l !! Z.to_nat i = Some x.
Proof.
  unfold arr_get. destruct (Z.leb_spec 0 i) as [Hi|Hi].
  - split; [done | by intros [_ ?]].
  - split; [done | intros [? _]; lia].
Qed.

Lemma arr_get_range l i x : arr_get l i = Some x -> 0 <= i < Z.of_nat (length l).
Proof. rewrite arr_get_lookup. intros [? ?%lookup_lt_Some]. lia. Qed.

Lemma arr_get_total l i : 0 <= i < Z.of_nat (length l) -> exists x, arr_get l i = Some x.
Proof.
  intros Hi. destruct (lookup_lt_is_Some_2 l (Z.to_nat i)) as [x Hx]; [lia|].
  exists x. apply arr_get_lookup. split; [lia|done].
Qed.

Lemma arr_set_total l i x :
  0 <= i < Z.of_nat (length l) -> arr_set l i x = Some (<[Z.to_nat i := x]> l).
Proof.
  intros Hi. unfold arr_set.
  destruct (Z.leb_spec 0 i), (Z.ltb_spec i (Z.of_nat (length l))); simpl; done || lia.
Qed.

Lemma arr_set_Some l i x l' :
  arr_set l i x = Some l' -> 0 <= i < Z.of_nat (length l) /\ l' = <[Z.to_nat i := x]> l.
Proof.
  unfold arr_set. destruct (Z.leb_spec 0 i), (Z.ltb_spec i (Z.of_nat (length l)));
    simpl; intros; simplify_eq; split; (done || lia).
Qed.
End arrays.

(** ** Lists of lists *)

(** Replacing one list of a concatenation leaves the rest. *)
Lemma concat_focus {A} (l : list (list A)) i x :
  l !! i = Some x ->
  exists R, concat l ≡ₚ x ++ R /\ forall y, concat (<[i := y]> l) ≡ₚ y ++ R.
Proof.
  revert i. induction l as [|z l IH]; intros [|i] H; simplify_eq/=.
  - by exists (concat l).
  - destruct (IH i H) as (R & HR & Hy). exists (z ++ R). split.
    + rewrite HR. by rewrite !app_assoc, (Permutation_app_comm z x).
    + intros y. rewrite Hy. by rewrite !app_assoc, (Permutation_app_comm z y).
Qed.

Lemma imap_insert {A B} (f : nat -> A -> B) l i x :
  imap f (<[i := x]> l) = <[i := f i x]> (imap f l).
Proof.
  revert f i. induction l as [|y l IH]; intros f [|i]; simpl; [done..|].
  f_equal. apply (IH (f ∘ S)).
Qed.

Lemma concat_imap_focus {A B} (f : nat -> A -> list B) (l : list A) i x :
  l !! i = Some x ->
  exists R, concat (imap f l) ≡ₚ f i x ++ R /\
            forall y, concat (imap f (<[i := y]> l)) ≡ₚ f i y ++ R.
Proof.
  intros Hi. destruct (concat_focus (imap f l) i (f i x)) as (R & HR & Hy).
  { rewrite list_lookup_imap, Hi. done. }
  exists R. split; [done|]. intros y. rewrite imap_insert. apply Hy.
Qed.

Lemma elem_of_concat_lookup {A} (l : list (list A)) i x a : l !! i = Some x -> a ∈ x -> a ∈ concat l.
Proof.
  intros Hl Ha. apply list_elem_of_In, in_concat. exists x.
  split; apply list_elem_of_In; [by eapply list_elem_of_lookup_2|done].
Qed.

Lemma concat_fmap_focus {A B} (f : A -> list B) (l : list A) i x :
  l !! i = Some x ->
  exists R, concat (f <$> l) ≡ₚ f x ++ R /\
            forall y, concat (f <$> <[i := y]> l) ≡ₚ f y ++ R.
Proof.
  intros Hi. destruct (concat_focus (f <$> l) i (f x)) as (R & HR & Hy).
  { rewrite list_lookup_fmap, Hi. done. }
  exists R. split; [done|]. intros y. rewrite list_fmap_insert. apply Hy.
Qed.
