(* ===== verification/SizeClass.v ===== *)
(** * Size classes

    Models aethalloc-core/src/size_class.rs ([SizeClass], [round_up_pow2],
    [slab_index]) and [size_to_class] of aethalloc-abi/src/global.rs, with the
    theorems that tie a request to the class that serves it. *)

From S2P Require Import Prelude.

(** ** Definitions *)

Definition PAGE_SIZE : Z := 4096.

Inductive SizeClass : Type :=
  | Tiny
  | Small
  | Medium
  | Large.

#[global] Instance SizeClass_eq_dec : EqDecision SizeClass.
Proof. solve_decision. Defined.

Definition SizeClass_classify (size : Z) : SizeClass :=
  if size =? 0 then Tiny
  else if size <=? 128 then Tiny
  else if size <=? 8 * 1024 then Small
  else if size <=? 256 * 1024 then Medium
  else Large.

Definition round_up_pow2 (size : Z) : Z :=
  if size =? 0 then 1
  else if is_power_of_two size then size
  else shl64 1 (USIZE_BITS -! leading_zeros size).

Definition SizeClass_alloc_size (self : SizeClass) (requested : Z) : Z :=
  match self with
  | Tiny =>
      if requested =? 0 then 16
      else let pow2 := round_up_pow2 requested in
           if pow2 <? 16 then 16 else pow2
  | Small => round_up_pow2 requested
  | Medium => round_up_pow2 requested
  | Large => div_ceil requested PAGE_SIZE *! PAGE_SIZE
  end.

Definition slab_index (size : Z) : option Z :=
  if (size =? 0) || (8 * 1024 <? size) then None
  else let alloc_size := round_up_pow2 size in
       if alloc_size <? 16 then None
       else let idx := trailing_zeros alloc_size in
            if (4 <=? idx) && (idx <=? 13) then Some (idx -! 4) else None.

(** aethalloc-abi/src/global.rs, [size_to_class]: the [match] on the rounded size. *)
Definition size_to_class (size : Z) : option Z :=
  let rounded := Z.max (round_up_pow2 size) 16 in
  if rounded =? 16 then Some 0
  else if rounded =? 32 then Some 1
  else if rounded =? 64 then Some 2
  else if rounded =? 128 then Some 3
  else if rounded =? 256 then Some 4
  else if rounded =? 512 then Some 5
  else if rounded =? 1024 then Some 6
  else if rounded =? 2048 then Some 7
  else if rounded =? 4096 then Some 8
  else if rounded =? 8192 then Some 9
  else if rounded =? 16384 then Some 10
  else if rounded =? 32768 then Some 11
  else if rounded =? 65536 then Some 12
  else None.

(** ** Rounding *)

Lemma round_up_pow2_pow2 n : 0 <= n -> round_up_pow2 (2 ^ n) = 2 ^ n.
Proof.
  intros Hn. unfold round_up_pow2. pose proof (pow2_pos n Hn).
  destruct (Z.eqb_spec (2 ^ n) 0); [lia|].
  rewrite (proj2 (is_power_of_two_iff (2 ^ n))) by eauto. done.
Qed.

(** On a size that is not a power of two the shift gives the next one. *)
Lemma round_up_pow2_between size n :
  0 <= n <= 62 -> 2 ^ n < size < 2 ^ (n + 1) -> round_up_pow2 size = 2 ^ (n + 1).
Proof.
  intros Hn Hs. unfold round_up_pow2. pose proof (pow2_pos n).
  destruct (Z.eqb_spec size 0); [lia|].
  destruct (is_power_of_two size) eqn:Hp.
  { apply is_power_of_two_iff in Hp as (k & Hk & ->).
    destruct Hs as [H1%pow2_lt_inv H2%pow2_lt_inv]; lia. }
  assert (Hlog : Z.log2 size = n) by (apply Z.log2_unique; lia).
  unfold leading_zeros. destruct (Z.eqb_spec size 0); [lia|]. rewrite Hlog.
  unfold USIZE_BITS. rewrite wrap64_small by (unfold is_usize; lia).
  rewrite shl64_1 by lia. f_equal. lia.
Qed.

(** Every size up to [2^63] lies in one of the two situations above. *)
Lemma size_pow2_cases size :
  0 < size <= 2 ^ 63 ->
  (exists n, 0 <= n <= 63 /\ size = 2 ^ n) \/
  (exists n, 0 <= n <= 62 /\ 2 ^ n < size < 2 ^ (n + 1)).
Proof.
  intros Hs. pose proof (Z.log2_spec size ltac:(lia)) as [H1 H2].
  pose proof (Z.log2_nonneg size).
  assert (Z.log2 size <= 63) by (apply (pow2_le_inv _ 63); lia).
  destruct (decide (size = 2 ^ Z.log2 size)) as [He|Hne].
  - left. exists (Z.log2 size). done.
  - right. exists (Z.log2 size).
    assert (Z.log2 size <> 63).
    { intros He. rewrite He in *. lia. }
    rewrite <- Z.add_1_r in H2. lia.
Qed.

Lemma round_up_pow2_is_pow2 size :
  0 < size <= 2 ^ 63 ->
  exists n, 0 <= n <= 63 /\ round_up_pow2 size = 2 ^ n /\ 2 ^ n < 2 * size /\ size <= 2 ^ n.
Proof.
  intros Hs. destruct (size_pow2_cases size Hs) as [(n & Hn & ->)|(n & Hn & Hb)].
  - exists n. rewrite round_up_pow2_pow2 by lia. pose proof (pow2_pos n). lia.
  - exists (n + 1). rewrite (round_up_pow2_between size n) by lia.
    rewrite Z.pow_add_r in * by lia. lia.
Qed.

(** The rounded size is the least power of two above the request. *)
Lemma pow2_sandwich size n k :
  0 <= n -> 0 <= k -> 2 ^ n < 2 * size -> size <= 2 ^ k -> 2 ^ n <= 2 ^ k.
Proof.
  intros Hn Hk Hlt Hsk. apply pow2_le. split; [lia|].
  destruct (decide (n <= k)); [done|]. exfalso.
  pose proof (pow2_le (k + 1) n ltac:(lia)) as Hp. rewrite Z.pow_add_r in Hp by lia. lia.
Qed.

(** A size over [2^63] has no representable next power of two: the shift amount
    is 64, which a release build takes modulo 64. *)
Lemma round_up_pow2_wraps size : 2 ^ 63 < size < 2 ^ 64 -> round_up_pow2 size = 1.
Proof.
  intros Hs. unfold round_up_pow2. destruct (Z.eqb_spec size 0); [lia|].
  destruct (is_power_of_two size) eqn:Hp.
  { apply is_power_of_two_iff in Hp as (k & Hk & ->).
    destruct Hs as [H1%pow2_lt_inv H2%pow2_lt_inv]; lia. }
  assert (Hlog : Z.log2 size = 63) by (apply Z.log2_unique; lia).
  unfold leading_zeros. destruct (Z.eqb_spec size 0); [lia|]. rewrite Hlog. done.
Qed.

(** [round_up_pow2] of a non-zero [usize] is the least power of two that is
    not below it, for every size up to [2^63]; above [2^63] the release build's
    shift wraps and the result is 1, which is below the size. *)
Theorem round_up_pow2_least size :
  is_usize size -> 0 < size ->
  (size <= 2 ^ 63 ->
     size <= round_up_pow2 size /\
     (exists n, 0 <= n <= 63 /\ round_up_pow2 size = 2 ^ n) /\
     (forall k, 0 <= k -> size <= 2 ^ k -> round_up_pow2 size <= 2 ^ k)) /\
  (2 ^ 63 < size -> round_up_pow2 size = 1).
Proof.
  intros Hu Hpos. unfold is_usize in Hu. split; intros Hs.
  - destruct (round_up_pow2_is_pow2 size) as (n & Hn & -> & Hlt & Hle); [lia|].
    split; [done|]. split; [by exists n|]. intros k Hk Hsk.
    apply (pow2_sandwich size); lia.
  - apply round_up_pow2_wraps. lia.
Qed.

Lemma round_up_pow2_least_witness :
  48 <= round_up_pow2 48 /\
  (exists n, 0 <= n <= 63 /\ round_up_pow2 48 = 2 ^ n) /\
  (forall k, 0 <= k -> 48 <= 2 ^ k -> round_up_pow2 48 <= 2 ^ k).
Proof. apply (round_up_pow2_least 48); unfold is_usize; lia. Defined.

(** ** The cache classes of the global allocator *)

Lemma size_to_class_pow2 size c :
  0 <= c <= 12 -> Z.max (round_up_pow2 size) 16 = 16 * 2 ^ c -> size_to_class size = Some c.
Proof.
  intros Hc Hr. unfold size_to_class. rewrite Hr.
  assert (c = 0 \/ c = 1 \/ c = 2 \/ c = 3 \/ c = 4 \/ c = 5 \/ c = 6 \/ c = 7 \/ c = 8 \/
          c = 9 \/ c = 10 \/ c = 11 \/ c = 12) as Hcs by lia.
  repeat (destruct Hcs as [->|Hcs]; [done|]). by subst c.
Qed.

Lemma size_to_class_inv size c :
  size_to_class size = Some c ->
  0 <= c <= 12 /\ Z.max (round_up_pow2 size) 16 = 16 * 2 ^ c.
Proof.
  unfold size_to_class. intros H.
  repeat match type of H with
  | (if ?x =? ?y then _ else _) = _ => destruct (Z.eqb_spec x y) as [->|_]; [by simplify_eq|]
  end.
  done.
Qed.

(** The class's capacity, [16 << class]. *)
Definition class_size (c : Z) : Z := 16 * 2 ^ c.

Lemma class_size_pos c : 0 <= c -> 16 <= class_size c.
Proof. intros Hc. unfold class_size. pose proof (pow2_pos c Hc). lia. Qed.

Lemma class_size_le c : 0 <= c <= 12 -> class_size c <= 65536.
Proof. intros Hc. unfold class_size. pose proof (pow2_le c 12 Hc). lia. Qed.

Lemma class_size_mod16 c : class_size c mod 16 = 0.
Proof. unfold class_size. rewrite Z.mul_comm. apply Z.mod_mul. lia. Qed.

Lemma size_to_class_total size :
  0 < size <= 65536 ->
  exists c, size_to_class size = Some c /\ 0 <= c <= 12 /\
            Z.max (round_up_pow2 size) 16 = class_size c /\
            size <= class_size c < 2 * Z.max size 16.
Proof.
  intros Hs. destruct (round_up_pow2_is_pow2 size) as (n & Hn & Hr & Hlt & Hle); [lia|].
  assert (n <= 16).
  { destruct (decide (n <= 16)); [done|]. pose proof (pow2_le 17 n ltac:(lia)). lia. }
  destruct (decide (n <= 4)) as [Hn4|Hn4].
  - pose proof (pow2_le n 4 ltac:(lia)).
    assert (Hm : Z.max (round_up_pow2 size) 16 = 16 * 2 ^ 0) by lia.
    exists 0. unfold class_size.
    split; [by apply size_to_class_pow2|]. rewrite Hm. lia.
  - assert (Hn' : 2 ^ n = 16 * 2 ^ (n - 4)) by (rewrite (pow2_split 4 n) by lia; lia).
    pose proof (pow2_le 5 n ltac:(lia)).
    assert (Hm : Z.max (round_up_pow2 size) 16 = 16 * 2 ^ (n - 4)) by lia.
    exists (n - 4). unfold class_size.
    split; [apply size_to_class_pow2; [lia|done]|]. rewrite Hm. lia.
Qed.

(** Rounding the request first does not change its class: [alloc] looks the class
    of [cache_size] up, [dealloc] the class of the stored size. *)
Lemma size_to_class_rounded size c :
  size_to_class size = Some c -> size_to_class (Z.max (round_up_pow2 size) 16) = Some c.
Proof.
  intros [Hc Hr]%size_to_class_inv. apply size_to_class_pow2; [done|]. rewrite Hr.
  replace (16 * 2 ^ c) with (2 ^ (4 + c)) by (rewrite Z.pow_add_r; lia).
  rewrite round_up_pow2_pow2 by lia. pose proof (pow2_le 4 (4 + c)). lia.
Qed.

(** C18: every request of 1 to 65536 bytes has a class; the class's capacity covers
    the request and is under twice the request, except that requests of up to 8 bytes
    get the smallest class of 16 bytes; and looking the class up from the rounded size,
    as [alloc] does, or from the requested size, as [dealloc] does from the block header,
    gives the same class. *)
Theorem size_to_class_correct size :
  0 < size <= 65536 ->
  exists c, size_to_class size = Some c /\ 0 <= c <= 12 /\
            size_to_class (Z.max (round_up_pow2 size) 16) = Some c /\
            size <= class_size c /\
            (if 8 <? size then class_size c < 2 * size else class_size c = 16).
Proof.
  intros Hs. destruct (size_to_class_total size Hs) as (c & Hc & Hr & _ & Hb).
  exists c. split_and!; try lia; eauto using size_to_class_rounded.
  assert (Hmin : 16 <= class_size c /\ (class_size c < 32 -> class_size c = 16))
    by (assert (H : c = 0 \/ 1 <= c <= 12) by lia; clear - H; destruct H as [->|H]; [done|];
        each_value c H; by split).
  destruct (Z.ltb_spec 8 size); lia.
Qed.

Lemma size_to_class_correct_witness :
  exists c, size_to_class 100 = Some c /\ 0 <= c <= 12 /\
            size_to_class (Z.max (round_up_pow2 100) 16) = Some c /\
            100 <= class_size c /\ class_size c < 2 * 100.
Proof. apply (size_to_class_correct 100). lia. Defined.

(** ** [SizeClass] and [slab_index] *)

(** [slab_index] agrees with [size_to_class] on 9 to 8192 bytes, where its
    result is below 10, and is [None] on every other [usize]: sizes up to 8 bytes
    get no slab although [alloc_size] rounds them to the 16-byte class. *)
Theorem slab_index_is_class size :
  is_usize size ->
  (9 <= size <= 8192 ->
     slab_index size = size_to_class size /\ exists i, slab_index size = Some i /\ 0 <= i <= 9) /\
  (size < 9 \/ 8192 < size -> slab_index size = None).
Proof.
  intros Hu. unfold is_usize in Hu. split.
  - intros Hs. destruct (size_to_class_total size) as (c & Hc & Hr & Hm & Hb); [lia|].
    assert (Hround : round_up_pow2 size = 2 ^ (4 + c)).
    { destruct (round_up_pow2_is_pow2 size) as (n & Hn & He & ? & ?); [lia|].
      rewrite Z.pow_add_r by lia. unfold class_size in Hm.
      destruct (decide (4 <= n)) as [H4|H4].
      - pose proof (pow2_le 4 n). lia.
      - pose proof (pow2_le n 3 ltac:(lia)). lia. }
    assert (c <= 9).
    { destruct (decide (c <= 9)); [done|]. pose proof (pow2_le 10 c ltac:(lia)).
      unfold class_size in Hb. lia. }
    unfold slab_index. rewrite Hround, trailing_zeros_pow2 by lia.
    destruct (Z.eqb_spec size 0), (Z.ltb_spec (8 * 1024) size); try lia. simpl orb. cbv iota zeta.
    pose proof (pow2_le 4 (4 + c) ltac:(lia)).
    destruct (Z.ltb_spec (2 ^ (4 + c)) 16); [lia|].
    destruct (Z.leb_spec 4 (4 + c)), (Z.leb_spec (4 + c) 13); try lia. simpl andb. cbv iota.
    rewrite wrap64_small by (unfold is_usize; lia). rewrite Hc.
    replace (4 + c - 4) with c by lia. eauto with lia.
  - intros Hs. unfold slab_index.
    destruct (Z.eqb_spec size 0) as [|Hnz]; [done|].
    destruct (Z.ltb_spec (8 * 1024) size); [done|]. simpl orb. cbv iota zeta.
    destruct (round_up_pow2_is_pow2 size) as (n & Hn & -> & ? & ?); [lia|].
    destruct (decide (n <= 3)) as [H3|H3].
    + pose proof (pow2_le n 3 ltac:(lia)). destruct (Z.ltb_spec (2 ^ n) 16); [done|lia].
    + pose proof (pow2_le 4 n ltac:(lia)). lia.
Qed.

Lemma slab_index_is_class_witness :
  (9 <= 100 <= 8192 ->
     slab_index 100 = size_to_class 100 /\ exists i, slab_index 100 = Some i /\ 0 <= i <= 9) /\
  (100 < 9 \/ 8192 < 100 -> slab_index 100 = None).
Proof. apply (slab_index_is_class 100). unfold is_usize. lia. Defined.

(** Classifying a request and rounding it to its class never gives less than
    the request, and never leaves the class: at least 16 bytes and a power of two up
    to 256 KiB, a whole number of pages with less than a page to spare above. *)
Theorem alloc_size_covers size :
  0 <= size <= 2 ^ 64 - PAGE_SIZE ->
  let c := SizeClass_classify size in
  let n := SizeClass_alloc_size c size in
  size <= n /\
  match c with
  | Large => n mod PAGE_SIZE = 0 /\ n < size + PAGE_SIZE
  | _ => is_power_of_two n = true /\ SizeClass_classify n = c /\ 16 <= n
  end.
Proof.
  intros Hs. cbv zeta. unfold SizeClass_classify, SizeClass_alloc_size.
  destruct (Z.eqb_spec size 0) as [->|Hnz]; [simpl; split; [lia|]; split_and!; done|].
  assert (Hp : forall n, 0 <= n -> is_power_of_two (2 ^ n) = true).
  { intros n Hn. apply is_power_of_two_iff. eauto. }
  unfold PAGE_SIZE in *.
  destruct (Z.leb_spec size 128); [|destruct (Z.leb_spec size (8 * 1024));
    [|destruct (Z.leb_spec size (256 * 1024))]];
    try (destruct (round_up_pow2_is_pow2 size) as (n & Hn & -> & Hlt & Hle); [lia|]).
  - pose proof (pow2_sandwich size n 7). cbv zeta. destruct (Z.ltb_spec (2 ^ n) 16).
    + split; [lia|]. done.
    + split; [lia|]. split; [apply Hp; lia|]. split; [|lia].
      destruct (Z.eqb_spec (2 ^ n) 0), (Z.leb_spec (2 ^ n) 128); try done; lia.
  - pose proof (pow2_sandwich size n 13). cbv zeta. split; [lia|].
    split; [apply Hp; lia|]. split; [|lia].
    destruct (Z.eqb_spec (2 ^ n) 0), (Z.leb_spec (2 ^ n) 128),
      (Z.leb_spec (2 ^ n) (8 * 1024)); try done; lia.
  - pose proof (pow2_sandwich size n 18). cbv zeta. split; [lia|].
    split; [apply Hp; lia|]. split; [|lia].
    destruct (Z.eqb_spec (2 ^ n) 0), (Z.leb_spec (2 ^ n) 128),
      (Z.leb_spec (2 ^ n) (8 * 1024)), (Z.leb_spec (2 ^ n) (256 * 1024)); try done; lia.
  - cbv zeta. pose proof (div_ceil_spec size 4096 ltac:(lia)).
    assert (div_ceil size 4096 * 4096 < 2 ^ 64).
    { pose proof (div_ceil_le size 4096 (2 ^ 52 - 1) ltac:(lia) ltac:(lia)). lia. }
    rewrite wrap64_small by (unfold is_usize; lia). split; [lia|].
    split; [apply Z.mod_mul; lia | lia].
Qed.

Lemma alloc_size_covers_witness :
  let c := SizeClass_classify 300 in
  let n := SizeClass_alloc_size c 300 in
  300 <= n /\
  match c with
  | Large => n mod PAGE_SIZE = 0 /\ n < 300 + PAGE_SIZE
  | _ => is_power_of_two n = true /\ SizeClass_classify n = c /\ 16 <= n
  end.
Proof. apply (alloc_size_covers 300). unfold PAGE_SIZE. lia. Defined.
