(* ===== verification/Memory.v ===== *)
(** * Byte-addressed memory

    The address space the allocator works in: a set of mapped byte intervals and
    the bytes written so far.  An access outside the mapped intervals has no
    result.  Multi-byte accesses are little-endian, as on the x86_64 target, so
    that headers read at a different width than they were written alias as they
    do in the program. *)

From S2P Require Import Prelude.

(** ** Definitions *)

Record memory : Type := Memory {
  mem_regions : list (Z * Z);
  mem_bytes : gmap Z Z
}.

Definition in_region (a : Z) (r : Z * Z) : bool := (fst r <=? a) && (a <? snd r).

Definition mapped (m : memory) (a : Z) : bool := existsb (in_region a) (mem_regions m).

(** A mapped byte that was never written is zero. *)
Definition load8 (m : memory) (a : Z) : option Z :=
  if mapped m a then Some (default 0 (mem_bytes m !! a) mod 256) else None.

Definition store8 (m : memory) (a v : Z) : option memory :=
  if mapped m a then Some (Memory (mem_regions m) (<[a := v]> (mem_bytes m))) else None.

Fixpoint load_le (n : nat) (m : memory) (a : Z) : option Z :=
  match n with
  | O => Some 0
  | S n' => b ← load8 m a; r ← load_le n' m (a + 1); Some (b + 256 * r)
  end.

Fixpoint store_le (n : nat) (m : memory) (a v : Z) : option memory :=
  match n with
  | O => Some m
  | S n' => m' ← store8 m a v; store_le n' m' (a + 1) (v / 256)
  end.

Definition load32 := load_le 4.
Definition load64 := load_le 8.
Definition store32 := store_le 4.
Definition store64 := store_le 8.

(** [core::ptr::write_bytes(a, v, n)]. *)
Fixpoint fill (n : nat) (m : memory) (a v : Z) : option memory :=
  match n with
  | O => Some m
  | S n' => m' ← store8 m a v; fill n' m' (a + 1) v
  end.

(** [core::ptr::copy_nonoverlapping(src, dst, n)], byte by byte. *)
Fixpoint copy (n : nat) (m : memory) (src dst : Z) : option memory :=
  match n with
  | O => Some m
  | S n' => b ← load8 m src; m' ← store8 m dst b; copy n' m' (src + 1) (dst + 1)
  end.

(** Two memories are equivalent when every access gives the same result. *)
#[global] Instance memory_equiv : Equiv memory := fun m1 m2 => forall a, load8 m1 a = load8 m2 a.

#[global] Instance memory_equivalence : Equivalence (≡@{memory}).
Proof.
  split.
  - by intros m a.
  - by intros m1 m2 H a.
  - intros m1 m2 m3 H1 H2 a. by rewrite (H1 a), (H2 a).
Qed.

#[global] Instance load8_proper : Proper ((≡@{memory}) ==> (=) ==> (=)) load8.
Proof. by intros m1 m2 H a ? <-. Qed.

(** The bytes [a, a+n) are mapped. *)
Definition accessible (m : memory) (a n : Z) : Prop :=
  forall i, a <= i < a + n -> is_Some (load8 m i).

(** [m1] and [m2] agree on [a, a+n). *)
Definition agree_on (m1 m2 : memory) (a n : Z) : Prop :=
  forall i, a <= i < a + n -> load8 m1 i = load8 m2 i.

(** [m'] differs from [m] at most in the values of the bytes [a, a+n). *)
Definition changes_only (m m' : memory) (a n : Z) : Prop :=
  (forall i, ~ (a <= i < a + n) -> load8 m' i = load8 m i) /\
  (forall i, is_Some (load8 m i) -> is_Some (load8 m' i)).

(** A slice of bytes ([&[u8]], [&mut [u8]]) is its address and length. *)
Record slice : Type := { sl_ptr : Z; sl_len : Z }.

(** ** Single bytes *)

Lemma load8_mapped m a : is_Some (load8 m a) <-> mapped m a = true.
Proof. unfold load8. destruct (mapped m a); split; [eauto..| |done]. by intros []. Qed.

Lemma load8_byte m a b : load8 m a = Some b -> 0 <= b < 256.
Proof.
  unfold load8. destruct (mapped m a); intros; simplify_eq. apply Z.mod_pos_bound. lia.
Qed.

Lemma load8_store8 m a v m' b :
  store8 m a v = Some m' ->
  load8 m' b = if decide (b = a) then Some (v mod 256) else load8 m b.
Proof.
  unfold store8, load8. destruct (mapped m a) eqn:Ha; intros; simplify_eq.
  unfold mapped in *; simpl. case_decide as Hd.
  - subst. rewrite Ha, lookup_insert_eq. done.
  - rewrite lookup_insert_ne by congruence. done.
Qed.

Lemma store8_total m a v : is_Some (load8 m a) -> is_Some (store8 m a v).
Proof. rewrite load8_mapped. unfold store8. intros ->. eauto. Qed.

Lemma store8_changes m a v m' : store8 m a v = Some m' -> changes_only m m' a 1.
Proof.
  intros Hs. split; intros i Hi; rewrite (load8_store8 _ _ _ _ _ Hs).
  - destruct (decide (i = a)); [lia|done].
  - destruct (decide (i = a)); [eauto|done].
Qed.

(** ** Frames *)

Lemma changes_only_trans m1 m2 m3 a n :
  changes_only m1 m2 a n -> changes_only m2 m3 a n -> changes_only m1 m3 a n.
Proof.
  intros [H1 H1'] [H2 H2']. split; intros i Hi; [|by auto].
  rewrite H2, H1 by done. done.
Qed.

Lemma changes_only_weaken m m' a n b k :
  changes_only m m' a n -> b <= a -> a + n <= b + k -> changes_only m m' b k.
Proof. intros [H1 H2] ? ?. split; [|done]. intros i Hi. apply H1. lia. Qed.

Lemma changes_only_refl m a n : changes_only m m a n.
Proof. done. Qed.

Lemma changes_only_agree m m' a n b k :
  changes_only m m' a n -> b + k <= a \/ a + n <= b -> agree_on m m' b k.
Proof. intros [H _] Hd i Hi. symmetry. apply H. lia. Qed.

Lemma changes_only_accessible m m' a n b k :
  changes_only m m' a n -> accessible m b k -> accessible m' b k.
Proof. intros [_ H] Ha i Hi. auto. Qed.

Lemma accessible_sub m a n b k :
  accessible m a n -> a <= b -> b + k <= a + n -> accessible m b k.
Proof. intros H ? ? i Hi. apply H. lia. Qed.

#[export] Hint Resolve changes_only_refl : aeth.

(** ** Multi-byte accesses *)

Lemma load_le_agree n m m' a :
  agree_on m m' a (Z.of_nat n) -> load_le n m' a = load_le n m a.
Proof.
  revert a. induction n as [|n IH]; intros a Ha; simpl; [done|].
  rewrite (Ha a) by lia. destruct (load8 m' a); simpl; [|done].
  rewrite IH; [done|]. intros i Hi. apply Ha. lia.
Qed.

Lemma load_le_total n m a : accessible m a (Z.of_nat n) -> is_Some (load_le n m a).
Proof.
  revert a. induction n as [|n IH]; intros a Ha; simpl; [eauto|].
  destruct (Ha a ltac:(lia)) as [b ->]; simpl.
  destruct (IH (a + 1)) as [r ->]; [|simpl; eauto]. intros i Hi. apply Ha. lia.
Qed.

Lemma store_le_changes n m a v m' :
  store_le n m a v = Some m' -> changes_only m m' a (Z.of_nat n).
Proof.
  revert m a v. induction n as [|n IH]; intros m a v Hs; simpl in Hs.
  - simplify_eq. auto with aeth.
  - destruct (store8 m a v) as [m1|] eqn:H1; simplify_eq/=.
    apply changes_only_trans with m1.
    + eapply changes_only_weaken; [by eapply store8_changes|lia|lia].
    + eapply changes_only_weaken; [by eapply IH|lia|lia].
Qed.

Lemma store_le_total n m a v : accessible m a (Z.of_nat n) -> is_Some (store_le n m a v).
Proof.
  revert m a v. induction n as [|n IH]; intros m a v Ha; simpl; [eauto|].
  destruct (store8_total m a v) as [m1 H1]; [apply Ha; lia|]. rewrite H1; simpl.
  apply IH. eapply changes_only_accessible; [by eapply store8_changes|].
  eapply accessible_sub; [done|lia|lia].
Qed.

Lemma pow256_succ n : 256 ^ Z.of_nat (S n) = 256 * 256 ^ Z.of_nat n.
Proof. rewrite Nat2Z.inj_succ, Z.pow_succ_r by lia. done. Qed.

Lemma load_store_le n m a v m' :
  store_le n m a v = Some m' -> load_le n m' a = Some (v mod 256 ^ Z.of_nat n).
Proof.
  revert m a v. induction n as [|n IH]; intros m a v Hs.
  - simpl. by rewrite Z.mod_1_r.
  - rewrite pow256_succ. simpl in Hs. destruct (store8 m a v) as [m1|] eqn:H1; simplify_eq/=.
    pose proof (store_le_changes _ _ _ _ _ Hs) as [Hfr _].
    rewrite Hfr by lia. rewrite (load8_store8 _ _ _ _ _ H1), decide_True by done. simpl.
    rewrite (IH _ _ _ Hs). simpl. f_equal.
    rewrite Z.rem_mul_r; lia.
Qed.

Lemma load_store_64 m a v m' : store64 m a v = Some m' -> is_usize v -> load64 m' a = Some v.
Proof.
  unfold is_usize. intros Hs Hv. unfold load64. rewrite (load_store_le _ _ _ _ _ Hs).
  f_equal. apply Z.mod_small. done.
Qed.

Lemma load_store_32 m a v m' :
  store32 m a v = Some m' -> 0 <= v < 2 ^ 32 -> load32 m' a = Some v.
Proof.
  intros Hs Hv. unfold load32. rewrite (load_store_le _ _ _ _ _ Hs).
  f_equal. apply Z.mod_small. done.
Qed.

(** Reading the low bytes of a wider value: what the allocator does when it
    reads a [u32] magic number where a [usize] size may be stored. *)
Lemma load_le_low n k m a v :
  load_le (n + k) m a = Some v -> load_le n m a = Some (v mod 256 ^ Z.of_nat n).
Proof.
  revert a v. induction n as [|n IH]; intros a v H.
  - simpl. by rewrite Z.mod_1_r.
  - rewrite pow256_succ. simpl in *. destruct (load8 m a) as [b|] eqn:Hb; simplify_eq/=.
    destruct (load_le (n + k) m (a + 1)) as [r|] eqn:Hr; simplify_eq/=.
    rewrite (IH _ _ Hr). simpl. f_equal.
    pose proof (load8_byte _ _ _ Hb).
    rewrite Z.rem_mul_r by lia.
    replace ((b + 256 * r) mod 256) with b.
    2:{ rewrite Z.mul_comm, Z.mod_add by lia. symmetry. by apply Z.mod_small. }
    replace ((b + 256 * r) / 256) with r; [done|].
    rewrite Z.mul_comm, Z.div_add, (Z.div_small b) by lia. done.
Qed.

Lemma load64_low32 m a v : load64 m a = Some v -> load32 m a = Some (v mod 2 ^ 32).
Proof. apply (load_le_low 4 4). Qed.

(** ** Filling and copying *)

Lemma fill_spec n m a v :
  accessible m a (Z.of_nat n) ->
  exists m', fill n m a v = Some m' /\ changes_only m m' a (Z.of_nat n) /\
             forall i, a <= i < a + Z.of_nat n -> load8 m' i = Some (v mod 256).
Proof.
  revert m a. induction n as [|n IH]; intros m a Ha.
  - exists m. split; [done|]. split; [auto with aeth|]. intros. lia.
  - simpl. destruct (store8_total m a v) as [m1 H1]; [apply Ha; lia|]. rewrite H1; simpl.
    pose proof (store8_changes _ _ _ _ H1) as Hc1.
    destruct (IH m1 (a + 1)) as (m' & Hf & Hc & Hv).
    { eapply changes_only_accessible; [done|]. eapply accessible_sub; [done|lia|lia]. }
    exists m'. split; [done|]. split.
    + eapply changes_only_trans; eapply changes_only_weaken; [done|lia|lia|done|lia|lia].
    + intros i Hi. destruct (decide (i = a)) as [->|].
      * rewrite (proj1 Hc) by lia. by rewrite (load8_store8 _ _ _ _ _ H1), decide_True.
      * apply Hv. lia.
Qed.

Lemma copy_spec n m src dst :
  accessible m src (Z.of_nat n) -> accessible m dst (Z.of_nat n) ->
  src + Z.of_nat n <= dst \/ dst + Z.of_nat n <= src ->
  exists m', copy n m src dst = Some m' /\ changes_only m m' dst (Z.of_nat n) /\
             forall i, 0 <= i < Z.of_nat n -> load8 m' (dst + i) = load8 m (src + i).
Proof.
  revert m src dst. induction n as [|n IH]; intros m src dst Hs Hd Hdj.
  - exists m. split; [done|]. split; [auto with aeth|]. intros. lia.
  - simpl. destruct (Hs src) as [b Hb]; [lia|]. rewrite Hb; simpl.
    destruct (store8_total m dst b) as [m1 H1]; [apply Hd; lia|]. rewrite H1; simpl.
    pose proof (store8_changes _ _ _ _ H1) as Hc1.
    destruct (IH m1 (src + 1) (dst + 1)) as (m' & Hf & Hc & Hv); [| |lia|].
    { eapply changes_only_accessible; [done|]. apply (accessible_sub _ _ _ _ _ Hs); lia. }
    { eapply changes_only_accessible; [done|]. apply (accessible_sub _ _ _ _ _ Hd); lia. }
    exists m'. split; [done|]. split.
    + eapply changes_only_trans; eapply changes_only_weaken; [done|lia|lia|done|lia|lia].
    + intros i Hi. destruct (decide (i = 0)) as [->|].
      * rewrite (proj1 Hc) by lia. rewrite !Z.add_0_r, (load8_store8 _ _ _ _ _ H1).
        rewrite decide_True by done. rewrite Hb. f_equal. apply Z.mod_small.
        by eapply load8_byte.
      * replace (dst + i) with (dst + 1 + (i - 1)) by lia. rewrite Hv by lia.
        rewrite (proj1 Hc1) by lia. f_equal. lia.
Qed.
