(* ===== verification/Extents.v ===== *)
(** * Extents: pairwise disjoint pieces of mapped memory

    An extent is a start address and a length.  An arena is a list of extents
    that are pairwise disjoint, mapped, 16-byte aligned and inside the user
    address space.  The allocator's safety argument is that everything it hands
    out or keeps is one arena, and that its operations only permute, drop, split
    or freshly map extents. *)

From S2P Require Import Prelude Memory.

(** ** Definitions *)

Definition USER_TOP : Z := 2 ^ 47.

Definition in_ext (x : Z) (e : Z * Z) : Prop := e.1 <= x < e.1 + e.2.

#[global] Instance in_ext_dec x e : Decision (in_ext x e).
Proof. unfold in_ext. apply _. Defined.

Definition ext_disj (e1 e2 : Z * Z) : Prop := forall x, in_ext x e1 -> in_ext x e2 -> False.

Definition sub_ext (e1 e2 : Z * Z) : Prop := e2.1 <= e1.1 /\ e1.1 + e1.2 <= e2.1 + e2.2.

Fixpoint all_disjoint (l : list (Z * Z)) : Prop :=
  match l with
  | [] => True
  | e :: l' => Forall (ext_disj e) l' /\ all_disjoint l'
  end.

Definition ext_ok (m : memory) (e : Z * Z) : Prop :=
  0 < e.1 /\ e.1 mod 16 = 0 /\ 0 <= e.2 /\ e.1 + e.2 <= USER_TOP /\ accessible m e.1 e.2.

Definition arena (m : memory) (l : list (Z * Z)) : Prop :=
  all_disjoint l /\ Forall (ext_ok m) l.

(** [k] blocks of [bs] bytes laid out from [base]. *)
Definition carve (base bs : Z) (k : nat) : list (Z * Z) :=
  (fun i => (base + Z.of_nat i * bs, bs)) <$> seq 0 k.

(** ** Disjointness *)

#[global] Instance ext_disj_sym : Symmetric ext_disj.
Proof. intros e1 e2 H x H1 H2. eauto. Qed.

Lemma ext_disj_arith a n b k :
  0 < n -> 0 < k -> ext_disj (a, n) (b, k) -> a + n <= b \/ b + k <= a.
Proof.
  intros Hn Hk H. destruct (decide (a + n <= b)); [by left|].
  destruct (decide (b + k <= a)); [by right|].
  exfalso. apply (H (Z.max a b)); unfold in_ext; simpl; lia.
Qed.

Lemma ext_disj_intro a n b k : a + n <= b \/ b + k <= a -> ext_disj (a, n) (b, k).
Proof. unfold ext_disj, in_ext. simpl. intros H x H1 H2. lia. Qed.

Lemma ext_disj_sub e1 e2 e : sub_ext e1 e2 -> ext_disj e2 e -> ext_disj e1 e.
Proof. unfold ext_disj, in_ext, sub_ext. intros Hs H x H1 H2. apply (H x); lia. Qed.

Lemma all_disjoint_app l1 l2 :
  all_disjoint (l1 ++ l2) <->
  all_disjoint l1 /\ all_disjoint l2 /\ Forall (fun e => Forall (ext_disj e) l2) l1.
Proof.
  induction l1 as [|e l1 IH]; simpl.
  - split; [intros H; split_and!; done | by intros (_ & ? & _)].
  - rewrite IH, Forall_app, Forall_cons. tauto.
Qed.

#[global] Instance all_disjoint_perm : Proper ((≡ₚ) ==> iff) all_disjoint.
Proof.
  intros l1 l2 Hp. induction Hp as [|e l1 l2 Hp IH|e1 e2 l|l1 l2 l3 _ IH1 _ IH2]; simpl.
  - done.
  - by rewrite IH, Hp.
  - rewrite !Forall_cons. split; intros [[? ?] [? ?]]; split_and!; try done; by symmetry.
  - by rewrite IH1.
Qed.

#[global] Instance arena_perm m : Proper ((≡ₚ) ==> iff) (arena m).
Proof. intros l1 l2 Hp. unfold arena. by rewrite Hp. Qed.

(** ** Arenas *)

Lemma arena_drop m l1 l2 : arena m (l1 ++ l2) -> arena m l2.
Proof. unfold arena. rewrite all_disjoint_app, Forall_app. tauto. Qed.

Lemma arena_drop_r m l1 l2 : arena m (l1 ++ l2) -> arena m l1.
Proof. unfold arena. rewrite all_disjoint_app, Forall_app. tauto. Qed.

Lemma arena_disj m e l e' : arena m (e :: l) -> e' ∈ l -> ext_disj e e'.
Proof. intros [[H _] _] Hin. rewrite Forall_forall in H. auto. Qed.

Lemma arena_ok m l e : arena m l -> e ∈ l -> ext_ok m e.
Proof. intros [_ H] Hin. rewrite Forall_forall in H. auto. Qed.

Lemma arena_mem_mono m m' l :
  (forall e i, e ∈ l -> in_ext i e -> is_Some (load8 m i) -> is_Some (load8 m' i)) ->
  arena m l -> arena m' l.
Proof.
  intros Hm [Hd Hok]. split; [done|]. rewrite Forall_forall in *.
  intros e He. destruct (Hok e He) as (? & ? & ? & ? & Ha). split_and!; try done.
  intros i Hi. eapply Hm; eauto.
Qed.

Lemma arena_changes m m' a n l : changes_only m m' a n -> arena m l -> arena m' l.
Proof. intros [_ H]. apply arena_mem_mono. eauto. Qed.

(** Splitting an extent into disjoint parts. *)
Lemma arena_refine m e l ps :
  arena m (e :: l) -> all_disjoint ps ->
  Forall (fun p => sub_ext p e /\ p.1 mod 16 = 0 /\ 0 <= p.2) ps ->
  arena m (ps ++ l).
Proof.
  intros [[Hd Hl] Hok] Hps Hsub. apply Forall_cons in Hok as [He Hok].
  rewrite Forall_forall in *. split.
  - apply all_disjoint_app. split_and!; [done|done|]. rewrite Forall_forall. intros p Hp.
    rewrite Forall_forall. intros e' He'. eapply ext_disj_sub; [by apply Hsub|auto].
  - rewrite Forall_app, !Forall_forall. split; [|done].
    intros p Hp. destruct (Hsub p Hp) as ([H1 H2] & H3 & H4).
    destruct He as (E1 & E2 & E3 & E4 & E5). split_and!; try lia.
    apply (accessible_sub _ _ _ _ _ E5); lia.
Qed.

(** Joining two neighbours. *)
Lemma arena_merge m a n k l :
  0 <= n -> 0 <= k -> arena m ((a, n) :: (a + n, k) :: l) -> arena m ((a, n + k) :: l).
Proof.
  intros Hn Hk [[Hd1 [Hd2 Hd]] Hok]. apply Forall_cons in Hd1 as [_ Hd1].
  apply Forall_cons in Hok as [(A1 & A2 & A3 & A4 & A5) Hok].
  apply Forall_cons in Hok as [(B1 & B2 & B3 & B4 & B5) Hok]. simpl in *.
  split; [split; [|done]|constructor; [|done]].
  - rewrite Forall_forall in *. intros e He x Hx Hxe. unfold in_ext in Hx. simpl in Hx.
    destruct (decide (x < a + n)); [apply (Hd1 e He x)|apply (Hd2 e He x)]; try done;
      unfold in_ext; simpl; lia.
  - split_and!; simpl; try lia. intros i Hi. destruct (decide (i < a + n)); [apply A5|apply B5]; lia.
Qed.

(** A fresh mapping joins the arena. *)
Lemma arena_fresh m m' e l :
  arena m l -> ext_ok m' e ->
  (forall i, in_ext i e -> load8 m i = None) ->
  (forall i, ~ in_ext i e -> load8 m' i = load8 m i) ->
  arena m' (e :: l).
Proof.
  intros Ha He Hnew Hold.
  assert (Hout : forall e' i, e' ∈ l -> in_ext i e' -> ~ in_ext i e).
  { intros e' i He' Hi Hie. destruct (arena_ok _ _ _ Ha He') as (_ & _ & _ & _ & Hacc).
    destruct (Hacc i Hi) as [b Hb]. by rewrite Hnew in Hb. }
  assert (Ha' : arena m' l).
  { apply (arena_mem_mono m); [|done]. intros e' i He' Hi Hs. rewrite Hold; eauto. }
  destruct Ha' as [Hd Hok]. split.
  - split; [|done]. rewrite Forall_forall. intros e' He' x Hx Hx'. by eapply Hout.
  - by constructor.
Qed.

Lemma carve_elem base bs k e :
  e ∈ carve base bs k <-> exists i, 0 <= i < Z.of_nat k /\ e = (base + i * bs, bs).
Proof.
  unfold carve. rewrite list_elem_of_fmap. split.
  - intros (i & -> & Hi). rewrite elem_of_seq in Hi. exists (Z.of_nat i). split; [lia|done].
  - intros (i & Hi & ->). exists (Z.to_nat i). rewrite elem_of_seq.
    rewrite Z2Nat.id by lia. split; [done|lia].
Qed.

Lemma carve_S base bs k : carve base bs (S k) = (base, bs) :: carve (base + bs) bs k.
Proof.
  unfold carve. rewrite <- cons_seq, fmap_cons, <- fmap_S_seq, <- list_fmap_compose.
  f_equal; [f_equal; lia|]. apply list_fmap_ext. intros i x _. simpl. f_equal. lia.
Qed.

Lemma carve_disjoint base bs k : 0 < bs -> all_disjoint (carve base bs k).
Proof.
  intros Hbs. revert base. induction k as [|k IH]; intros base; [done|].
  rewrite carve_S. split; [|done]. rewrite Forall_forall. intros e He.
  apply carve_elem in He as (i & Hi & ->). apply ext_disj_intro. left. nia.
Qed.

Lemma carve_sub base bs k n e :
  0 < bs -> Z.of_nat k * bs <= n -> e ∈ carve base bs k -> sub_ext e (base, n).
Proof.
  intros Hbs Hn (i & Hi & ->)%carve_elem. unfold sub_ext. simpl. nia.
Qed.

Lemma carve_prefix base bs k n :
  (k <= n)%nat -> exists l, carve base bs n = carve base bs k ++ l.
Proof.
  intros Hk. unfold carve. replace n with (k + (n - k))%nat by lia.
  rewrite seq_app, fmap_app. eauto.
Qed.
