(* ===== verification/AllocSpec.v ===== *)
(** * The contract of an allocator

    [AllocOps] is what a client sees of an allocator, [AllocLaws] what it may rely
    on.  The two modes of the allocator of aethalloc-abi discharge the laws through
    AllocCore; the C functions of Abi are verified against them.  The second half turns the laws
    into a specification of whole programs: a client is a tree of calls, its
    reference semantics is a heap of disjoint allocations in which a byte keeps the
    value it was last given, and a client that respects the rules of that heap runs
    on any implementation of the laws with results the heap allows. *)

From S2P Require Import Prelude Memory Extents.

(** ** The interface *)

(** What [Layout] guarantees of a size and an alignment. *)
Definition layout_ok (size align : Z) : Prop :=
  0 <= size /\ is_power_of_two align = true /\ size <= 2 ^ 63 - align.

Class AllocOps (St : Type) : Type := {
  ao_alloc : nat -> Z -> Z -> M St Z;
  ao_dealloc : nat -> Z -> M St unit;
  ao_size : Z -> M St Z;
  ao_mem : St -> memory;
  ao_set_mem : memory -> St -> St;
  ao_threads : St -> nat
}.

(** The bytes of the extents [L] are the same in both memories. *)
Definition same_bytes (L : list (Z * Z)) (m m' : memory) : Prop :=
  forall e i, e ∈ L -> in_ext i e -> load8 m' i = load8 m i.

Lemma same_bytes_refl R m : same_bytes R m m.
Proof. done. Qed.

Lemma same_bytes_trans R m1 m2 m3 : same_bytes R m1 m2 -> same_bytes R m2 m3 -> same_bytes R m1 m3.
Proof. intros H1 H2 e i He Hi. rewrite (H2 e i He Hi). by apply (H1 e). Qed.

(** [al_inv s L]: the client owns exactly the pointers and sizes [L]. *)
Class AllocLaws (St : Type) `{O : AllocOps St} : Type := {
  al_inv : St -> list (Z * Z) -> Prop;
  al_perm s L L' : L ≡ₚ L' -> al_inv s L -> al_inv s L';
  al_arena s L : al_inv s L -> arena (ao_mem s) L /\ Forall (fun e => 0 < e.2) L;
  al_alloc t size align s L (Q : Z -> St -> Prop) :
    al_inv s L -> (t < ao_threads s)%nat -> layout_ok size align ->
    (forall s', ao_threads s' = ao_threads s -> same_bytes L (ao_mem s) (ao_mem s') ->
       al_inv s' L -> Q 0 s') ->
    (forall p s', ao_threads s' = ao_threads s -> same_bytes L (ao_mem s) (ao_mem s') ->
       0 < size -> p mod align = 0 -> al_inv s' ((p, size) :: L) -> Q p s') ->
    wp (ao_alloc t size align) Q s;
  al_alloc_zero t align s : ao_alloc t 0 align s = Ret (0, s);
  al_dealloc t p n s L (Q : unit -> St -> Prop) :
    al_inv s ((p, n) :: L) -> (t < ao_threads s)%nat ->
    (forall s', ao_threads s' = ao_threads s -> same_bytes L (ao_mem s) (ao_mem s') ->
       al_inv s' L -> Q tt s') ->
    wp (ao_dealloc t p) Q s;
  al_dealloc_null t s : ao_dealloc t 0 s = Ret (tt, s);
  al_size p n s L : al_inv s ((p, n) :: L) -> ao_size p s = Ret (n, s);
  al_size_null s : ao_size 0 s = Ret (0, s);
  al_write e a n m' s L :
    al_inv s (e :: L) -> changes_only (ao_mem s) m' a n -> sub_ext (a, n) e ->
    al_inv (ao_set_mem m' s) (e :: L);
  al_mem_set m s : ao_mem (ao_set_mem m s) = m;
  al_threads_set m s : ao_threads (ao_set_mem m s) = ao_threads s
}.

(** ** Clients and their reference semantics *)

Inductive call : Type :=
  | CallAlloc (t : nat) (size align : Z)
  | CallFree (t : nat) (p : Z)
  | CallSize (p : Z)
  | CallStore (a v : Z)
  | CallLoad (a : Z).

(** A client decides on the next call from the results so far. *)
Inductive client : Type :=
  | Finished
  | Then (c : call) (k : Z -> client).

(** The allocations in use and the bytes whose value is determined. *)
Record heap : Type := {
  h_live : list (Z * Z);
  h_known : gmap Z Z
}.

Definition heap_empty : heap := {| h_live := []; h_known := ∅ |}.

Definition forget (e : Z * Z) (k : gmap Z Z) : gmap Z Z := filter (fun kv => ~ in_ext kv.1 e) k.

Definition owns (h : heap) (a : Z) : Prop := exists e, e ∈ h_live h /\ in_ext a e.

(** The rules a client has to respect. *)
Definition allowed (nthr : nat) (h : heap) (c : call) : Prop :=
  match c with
  | CallAlloc t size align => (t < nthr)%nat /\ layout_ok size align
  | CallFree t p => (t < nthr)%nat /\ (p = 0 \/ exists n, (p, n) ∈ h_live h)
  | CallSize p => p = 0 \/ exists n, (p, n) ∈ h_live h
  | CallStore a _ | CallLoad a => owns h a
  end.

(** The result [r] of a call in [h], and the heap after it. *)
Definition heap_step (h : heap) (c : call) (r : Z) (h' : heap) : Prop :=
  match c with
  | CallAlloc t size align =>
      (r = 0 /\ h' = h) \/
      (0 < size /\ 0 < r /\ r mod align = 0 /\ r mod 16 = 0 /\ r + size <= USER_TOP /\
       Forall (ext_disj (r, size)) (h_live h) /\
       h' = {| h_live := (r, size) :: h_live h; h_known := forget (r, size) (h_known h) |})
  | CallFree t p =>
      r = 0 /\
      ((p = 0 /\ h' = h) \/
       exists n l, h_live h ≡ₚ (p, n) :: l /\
         h' = {| h_live := l; h_known := forget (p, n) (h_known h) |})
  | CallSize p => h' = h /\ (p = 0 -> r = 0) /\ forall n, (p, n) ∈ h_live h -> r = n
  | CallStore a v =>
      r = 0 /\ h' = {| h_live := h_live h; h_known := <[a := v mod 256]> (h_known h) |}
  | CallLoad a => h' = h /\ 0 <= r < 256 /\ forall w, h_known h !! a = Some w -> r = w
  end.

(** A client that respects the rules whatever results the heap allows. *)
Fixpoint well_behaved (nthr : nat) (h : heap) (c : client) : Prop :=
  match c with
  | Finished => True
  | Then c k => allowed nthr h c /\ forall r h', heap_step h c r h' -> well_behaved nthr h' (k r)
  end.

Fixpoint heap_run (h : heap) (c : client) (rs : list Z) (h' : heap) : Prop :=
  match c, rs with
  | Finished, [] => h' = h
  | Then c k, r :: rs => exists h1, heap_step h c r h1 /\ heap_run h1 (k r) rs h'
  | _, _ => False
  end.

Section run.
Context {St : Type} `{O : AllocOps St}.

Definition do_call (c : call) : M St Z :=
  match c with
  | CallAlloc t size align => ao_alloc t size align
  | CallFree t p => ao_dealloc t p ;; mret 0
  | CallSize p => ao_size p
  | CallStore a v =>
      s ← getS; m ← or_fault (store8 (ao_mem s) a v); modifyS (ao_set_mem m) ;; mret 0
  | CallLoad a => s ← getS; or_fault (load8 (ao_mem s) a)
  end.

Fixpoint run_client (c : client) : M St (list Z) :=
  match c with
  | Finished => mret []
  | Then c k => r ← do_call c; rs ← run_client (k r); mret (r :: rs)
  end.
End run.

(** ** Implementations refine the heap *)

Lemma lookup_forget e k a w : forget e k !! a = Some w <-> k !! a = Some w /\ ~ in_ext a e.
Proof. unfold forget. apply map_lookup_filter_Some. Qed.

Section refinement.
Context {St : Type} `{Laws : AllocLaws St}.

(** The implementation's state agrees with the heap. *)
Record represents (nthr : nat) (s : St) (h : heap) : Prop := {
  rp_threads : ao_threads s = nthr;
  rp_inv : al_inv s (h_live h);
  rp_known a w : h_known h !! a = Some w -> load8 (ao_mem s) a = Some w /\ owns h a
}.

Lemma al_unique s p n n' L : al_inv s L -> (p, n) ∈ L -> (p, n') ∈ L -> n = n'.
Proof.
  intros HI Hn Hn'. destruct (al_arena _ _ HI) as [Har Hpos]. rewrite Forall_forall in Hpos.
  apply elem_of_Permutation in Hn as [L' HL]. rewrite HL in Har, Hn'.
  apply elem_of_cons in Hn' as [?|Hn']; [congruence|]. exfalso.
  pose proof (Hpos (p, n)) as H1. pose proof (Hpos (p, n')) as H2. rewrite HL in H1, H2.
  specialize (H1 (list_elem_of_here _ _)). specialize (H2 (list_elem_of_further _ _ _ Hn')).
  apply (arena_disj _ _ _ _ Har Hn') with p; unfold in_ext; simpl in *; lia.
Qed.

Lemma represents_alloc nthr s h t size align :
  represents nthr s h -> (t < nthr)%nat -> layout_ok size align ->
  wp (ao_alloc t size align) (fun r s' => exists h', heap_step h (CallAlloc t size align) r h' /\
                                                   represents nthr s' h') s.
Proof.
  intros [<- HI Hk] Ht Hlay. apply (al_alloc _ _ _ _ _ _ HI Ht Hlay).
  - intros s' Hn Hb HI'. exists h. split; [by left|]. constructor; [done|done|].
    intros a w Hw. destruct (Hk a w Hw) as [Hld (e & He & Hi)]. split; [|by exists e].
    by rewrite (Hb e a He Hi).
  - intros p s' Hn Hb Hs Hal HI'. pose proof (al_arena _ _ HI') as [[[Hd _] Hok] _].
    pose proof (proj1 (Forall_cons _ _ _) Hok) as [(H0 & H16 & _ & Htop & _) _].
    eexists. split; [right; split_and!; done|]. constructor; [done|done|]. simpl.
    intros a w [Hw Hout]%lookup_forget. destruct (Hk a w Hw) as [Hld (e & He & Hi)].
    split; [by rewrite (Hb e a He Hi)|]. exists e. split; [by right|done].
Qed.

Lemma represents_free nthr s h t p n :
  represents nthr s h -> (t < nthr)%nat -> (p, n) ∈ h_live h ->
  wp (ao_dealloc t p) (fun _ s' => exists h', heap_step h (CallFree t p) 0 h' /\
                                            represents nthr s' h') s.
Proof.
  intros [<- HI Hk] Ht [l Hl]%elem_of_Permutation.
  apply (al_dealloc t p n s l); [by apply (al_perm s (h_live h))|done|].
  intros s' Hn Hb HI'. eexists. split; [split; [done|right; exists n, l; done]|].
  constructor; [done|done|]. simpl. intros a w [Hw Hout]%lookup_forget.
  destruct (Hk a w Hw) as [Hld (e & He & Hi)]. rewrite Hl in He.
  apply elem_of_cons in He as [->|He]; [done|].
  split; [by rewrite (Hb e a He Hi)|]. by exists e.
Qed.

Lemma represents_store nthr s h a v :
  represents nthr s h -> owns h a ->
  wp (do_call (CallStore a v)) (fun r s' => exists h', heap_step h (CallStore a v) r h' /\
                                                    represents nthr s' h') s.
Proof.
  intros [<- HI Hk] Hown. pose proof Hown as (e & [l Hl]%elem_of_Permutation & Hi).
  destruct (al_arena _ _ HI) as [Har _]. rewrite Hl in Har.
  pose proof (arena_ok _ _ _ Har (list_elem_of_here _ _)) as (_ & _ & _ & _ & Hacc).
  destruct (store8_total (ao_mem s) a v) as [m' Hm']; [by apply Hacc|].
  apply wp_bind, wp_gets. apply wp_bind. eapply wp_or_fault; [done|].
  apply wp_bind, wp_modify, wp_ret. eexists. split; [split; done|].
  constructor; simpl; [apply al_threads_set| |].
  - apply (al_perm _ (e :: l)); [by rewrite Hl|].
    eapply al_write; [by apply (al_perm s (h_live h))|by apply store8_changes in Hm'|].
    unfold sub_ext, in_ext in *. simpl. lia.
  - intros b w Hw. rewrite al_mem_set, (load8_store8 _ _ _ _ _ Hm').
    destruct (decide (b = a)) as [->|Hne].
    + rewrite lookup_insert_eq in Hw. by simplify_eq.
    + rewrite lookup_insert_ne in Hw by done. by apply Hk.
Qed.

Lemma represents_load nthr s h a :
  represents nthr s h -> owns h a ->
  wp (do_call (CallLoad a)) (fun r s' => exists h', heap_step h (CallLoad a) r h' /\
                                                 represents nthr s' h') s.
Proof.
  intros HR (e & He & Hi). pose proof HR as [<- HI Hk]. destruct (al_arena _ _ HI) as [Har _].
  pose proof (arena_ok _ _ _ Har He) as (_ & _ & _ & _ & Hacc).
  destruct (Hacc a Hi) as [b Hb]. apply wp_bind, wp_gets. eapply wp_or_fault; [done|].
  exists h. split; [|done]. split; [done|]. split; [by eapply load8_byte|].
  intros w Hw. destruct (Hk a w Hw) as [Hld _]. congruence.
Qed.

(** One allowed call: it returns, with a result and an effect the heap allows. *)
Lemma represents_call nthr s h c :
  represents nthr s h -> allowed nthr h c ->
  wp (do_call c) (fun r s' => exists h', heap_step h c r h' /\ represents nthr s' h') s.
Proof.
  intros HR. destruct c as [t size align|t p|p|a v|a]; simpl allowed.
  - intros [Ht Hl]. by apply represents_alloc.
  - intros [Ht [->|[n Hn]]]; apply wp_bind.
    + exists tt, s. split; [apply al_dealloc_null|]. apply wp_ret. exists h.
      split; [split; [done|by left]|done].
    + eapply wp_mono; [by eapply represents_free|]. intros [] s' H. by apply wp_ret.
  - intros Hp. pose proof HR as [_ HI _]. destruct Hp as [->|[n Hn]].
    + exists 0, s. split; [apply al_size_null|]. exists h. split; [|done]. split_and!; [done|done|].
      intros n Hn. pose proof (al_arena _ _ HI) as [Har _].
      destruct (arena_ok _ _ _ Har Hn) as [? _]. simpl in *. lia.
    + pose proof Hn as [l Hl]%elem_of_Permutation.
      exists n, s. split; [by apply (al_size p n s l), (al_perm s (h_live h))|].
      exists h. split; [|done]. split_and!; [done| |].
      * intros ->. pose proof (al_arena _ _ HI) as [Har _].
        destruct (arena_ok _ _ _ Har Hn) as [? _]. simpl in *. lia.
      * intros n' Hn'. by eapply al_unique.
  - by apply represents_store.
  - by apply represents_load.
Qed.

(** A client that is well behaved against the heap runs to its end on the
    implementation, and its results are results of the heap. *)
Lemma client_refines nthr c : forall s h,
  represents nthr s h -> well_behaved nthr h c ->
  exists rs s' h', run_client c s = Ret (rs, s') /\ heap_run h c rs h' /\ represents nthr s' h'.
Proof.
  induction c as [|c k IH]; intros s h HR Hwb.
  - by exists [], s, h.
  - destruct Hwb as [Hal Hk].
    destruct (represents_call nthr s h c HR Hal) as (r & s1 & Hr & h1 & Hst & HR1).
    destruct (IH r s1 h1 HR1 (Hk r h1 Hst)) as (rs & s2 & h2 & Hrs & Hrun & HR2).
    exists (r :: rs), s2, h2. split; [|split; [by exists h1|done]].
    simpl run_client. run_m. by rewrite Hr, Hrs.
Qed.
End refinement.
