(* ===== verification/Page.v ===== *)
(** * The kernel interface and the page allocator

    [Kernel] stands for the two system calls of libc the allocator makes,
    [KernelSpec] for what their documentation promises.  [PageAllocator_alloc]
    and [PageAllocator_dealloc] model aethalloc-core/src/page.rs.  The bump
    kernel is a concrete kernel that satisfies the specification. *)

From S2P Require Import Prelude SizeClass Memory Extents AllocSpec.

(** ** Definitions *)

(** [kernel_mmap m size] is [mmap(NULL, size, PROT_READ|PROT_WRITE,
    MAP_PRIVATE|MAP_ANONYMOUS, -1, 0)], [None] being [MAP_FAILED];
    [kernel_munmap m a size] is [munmap(a, size)] with its return code. *)
Class Kernel : Type := {
  kernel_mmap : memory -> Z -> option (Z * memory);
  kernel_munmap : memory -> Z -> Z -> Z * memory
}.

(** The documented behaviour of the two calls on page-multiple sizes: a new
    anonymous mapping is page-aligned, in the user address space, disjoint from
    every existing mapping and zero-filled; a successful [munmap] removes exactly
    its range, a failed one changes nothing. *)
Class KernelSpec (K : Kernel) : Prop := {
  mmap_spec m size p m' :
    0 < size -> size mod PAGE_SIZE = 0 -> kernel_mmap m size = Some (p, m') ->
    0 < p /\ p mod PAGE_SIZE = 0 /\ p + size <= USER_TOP /\
    (forall i, p <= i < p + size -> load8 m i = None /\ load8 m' i = Some 0) /\
    (forall i, ~ (p <= i < p + size) -> load8 m' i = load8 m i);
  munmap_spec m a size :
    0 < size -> size mod PAGE_SIZE = 0 -> a mod PAGE_SIZE = 0 ->
    (forall i, ~ (a <= i < a + size) ->
       load8 (kernel_munmap m a size).2 i = load8 m i) /\
    (forall i, a <= i < a + size ->
       load8 (kernel_munmap m a size).2 i =
       if (kernel_munmap m a size).1 =? 0 then None else load8 m i)
}.

Section page_allocator.
Context `{K : Kernel}.

(** [NonNull::<u8>::dangling()] is the address 1, [u8]'s alignment. *)
Definition PageAllocator_alloc (pages : Z) : M memory (option Z) :=
  if pages =? 0 then mret (Some 1)
  else
    let size := pages *! PAGE_SIZE in
    fun m =>
      match kernel_mmap m size with
      | None => Ret (None, m)
      | Some (p, m') => Ret (if p =? 0 then None else Some p, m')
      end.

(** The result of [munmap] is only looked at by a [debug_assert]. *)
Definition PageAllocator_dealloc (ptr pages : Z) : M memory unit :=
  if pages =? 0 then mret tt
  else
    let size := pages *! PAGE_SIZE in
    modifyS (fun m => (kernel_munmap m ptr size).2).
End page_allocator.

(** A kernel that maps above everything mapped so far. *)
Definition bump_base (m : memory) : Z :=
  div_ceil (foldr (fun r acc => Z.max (snd r) acc) 65536 (mem_regions m)) PAGE_SIZE * PAGE_SIZE.

(** What is left of a region on both sides of [a, a + size). *)
Definition cut_region (a size : Z) (r : Z * Z) : list (Z * Z) :=
  filter (fun r => fst r < snd r) [(fst r, Z.min (snd r) a); (Z.max (fst r) (a + size), snd r)].

Definition bump_mmap (m : memory) (size : Z) : option (Z * memory) :=
  let p := bump_base m in
  if (0 <? size) && (size mod PAGE_SIZE =? 0) && (p + size <=? USER_TOP) then
    Some (p, Memory ((p, p + size) :: mem_regions m)
                    (filter (fun kv => ~ (p <= kv.1 < p + size)) (mem_bytes m)))
  else None.

Definition bump_munmap (m : memory) (a size : Z) : Z * memory :=
  (0, Memory (flat_map (cut_region a size) (mem_regions m)) (mem_bytes m)).

#[global] Instance bump_kernel : Kernel := {|
  kernel_mmap := bump_mmap;
  kernel_munmap := bump_munmap
|}.

(** ** The bump kernel meets the specification *)

Lemma mapped_true m i :
  mapped m i = true <-> exists r, r ∈ mem_regions m /\ fst r <= i < snd r.
Proof.
  unfold mapped. rewrite existsb_exists. split; intros (r & Hin & Hr); exists r.
  - rewrite list_elem_of_In. split; [done|]. unfold in_region in Hr. lia.
  - rewrite <- list_elem_of_In. split; [done|]. unfold in_region. lia.
Qed.

Lemma bump_base_above m r : r ∈ mem_regions m -> snd r <= bump_base m.
Proof.
  intros Hr. unfold bump_base, PAGE_SIZE.
  set (f := fun (r : Z * Z) (acc : Z) => Z.max (snd r) acc).
  assert (snd r <= foldr f 65536 (mem_regions m)).
  { revert Hr. generalize (mem_regions m). intros l. induction l as [|r' l IH]; simpl.
    - by intros ?%elem_of_nil.
    - unfold f at 1. intros [->|Hr]%elem_of_cons; [|specialize (IH Hr)]; lia. }
  pose proof (div_ceil_spec (foldr f 65536 (mem_regions m)) 4096). lia.
Qed.

Lemma bump_base_pos m : 0 < bump_base m.
Proof.
  unfold bump_base, PAGE_SIZE.
  set (n := foldr _ 65536 _). assert (65536 <= n).
  { subst n. induction (mem_regions m); simpl; lia. }
  pose proof (div_ceil_spec n 4096). lia.
Qed.

Lemma bump_munmap_mapped m a size i :
  mapped (bump_munmap m a size).2 i = mapped m i && negb ((a <=? i) && (i <? a + size)).
Proof.
  apply eq_true_iff_eq. rewrite andb_true_iff, !mapped_true. simpl. split.
  - intros (r & Hr & Hi). apply list_elem_of_In, in_flat_map in Hr as (r' & Hr' & Hcut).
    apply list_elem_of_In in Hr'. apply list_elem_of_In, list_elem_of_filter in Hcut as [_ Hcut].
    apply list_elem_of_In in Hcut.
    destruct Hcut as [<-|[<-|[]]]; simpl in Hi; (split; [exists r'|]; lia || (split; [done|lia])).
  - intros [(r & Hr & Hi) Hn].
    destruct (decide (i < a)).
    + exists (fst r, Z.min (snd r) a). split; [|simpl; lia].
      apply list_elem_of_In, in_flat_map. exists r.
      rewrite <- !list_elem_of_In. split; [done|]. apply list_elem_of_filter. split; [simpl; lia|by left].
    + exists (Z.max (fst r) (a + size), snd r). split; [|simpl; lia].
      apply list_elem_of_In, in_flat_map. exists r.
      rewrite <- !list_elem_of_In. split; [done|]. apply list_elem_of_filter. split; [simpl; lia|right; by left].
Qed.

#[global] Instance bump_kernel_spec : KernelSpec bump_kernel.
Proof.
  constructor.
  - intros m size p m' Hs Hm. unfold kernel_mmap; simpl. unfold bump_mmap.
    destruct (_ && _) eqn:Hc; [|done]. intros; simplify_eq.
    pose proof (bump_base_pos m). split; [done|].
    split. { unfold bump_base. apply Z.mod_mul. done. }
    split; [lia|]. split.
    + intros i Hi. split.
      * destruct (load8 m i) eqn:Hl; [|done]. exfalso.
        assert (mapped m i = true) as (r & Hr & Hri)%mapped_true by (apply load8_mapped; eauto).
        pose proof (bump_base_above m r Hr). lia.
      * unfold load8, mapped. simpl.
        replace (in_region i _) with true by (unfold in_region; simpl; lia). simpl.
        rewrite map_lookup_filter_None_2; [done|]. right. intros v _ Hn. simpl in Hn. lia.
    + intros i Hi. unfold load8, mapped. simpl.
      replace (in_region i (bump_base m, _)) with false by (unfold in_region; simpl; lia).
      simpl. destruct (existsb _ _); [|done]. do 3 f_equal.
      apply option_eq. intros v. rewrite map_lookup_filter_Some. simpl. tauto.
  - intros m a size Hs Hm Ha. change (kernel_munmap m a size) with (bump_munmap m a size).
    split; intros i Hi; unfold load8; rewrite (bump_munmap_mapped m a size i).
    + replace (negb _) with true by lia. by rewrite andb_true_r.
    + replace (negb _) with false by lia. by rewrite andb_false_r.
Qed.

(** ** The page allocator's contract *)

Section contract.
Context `{K : Kernel} {KS : KernelSpec K}.

(** The mapping a successful allocation of [pages] pages adds. *)
Definition fresh_mapping (m m' : memory) (p n : Z) : Prop :=
  0 < p /\ p mod PAGE_SIZE = 0 /\ p + n <= USER_TOP /\
  (forall i, p <= i < p + n -> load8 m i = None /\ load8 m' i = Some 0) /\
  (forall i, ~ (p <= i < p + n) -> load8 m' i = load8 m i).

Lemma pages_size pages : 0 < pages < 2 ^ 52 -> pages *! PAGE_SIZE = pages * PAGE_SIZE.
Proof. intros Hp. apply wrap64_small. unfold is_usize, PAGE_SIZE. lia. Qed.

Lemma PageAllocator_alloc_wp pages m (Q : option Z -> memory -> Prop) :
  0 < pages < 2 ^ 52 ->
  (kernel_mmap m (pages * PAGE_SIZE) = None -> Q None m) ->
  (forall p m', fresh_mapping m m' p (pages * PAGE_SIZE) -> Q (Some p) m') ->
  wp (PageAllocator_alloc pages) Q m.
Proof.
  intros Hp Hnone Hsome. unfold PageAllocator_alloc.
  destruct (Z.eqb_spec pages 0); [lia|]. cbv zeta. rewrite pages_size by done.
  destruct (kernel_mmap m (pages * PAGE_SIZE)) as [[p m']|] eqn:Hk.
  - pose proof (mmap_spec m (pages * PAGE_SIZE) p m' ltac:(unfold PAGE_SIZE; lia)
                  ltac:(apply Z.mod_mul; done) Hk) as Hf.
    unfold wp. rewrite Hk. destruct (Z.eqb_spec p 0); [lia|].
    eexists _, _. split; [done|]. apply Hsome. done.
  - unfold wp. rewrite Hk. eauto.
Qed.

Lemma PageAllocator_dealloc_wp ptr pages m (Q : unit -> memory -> Prop) :
  0 < pages < 2 ^ 52 -> ptr mod PAGE_SIZE = 0 ->
  (forall m' r,
     (forall i, ~ (ptr <= i < ptr + pages * PAGE_SIZE) -> load8 m' i = load8 m i) ->
     (forall i, ptr <= i < ptr + pages * PAGE_SIZE ->
        load8 m' i = if r =? 0 then None else load8 m i) ->
     r = (kernel_munmap m ptr (pages * PAGE_SIZE)).1 ->
     Q tt m') ->
  wp (PageAllocator_dealloc ptr pages) Q m.
Proof.
  intros Hp Ha HQ. unfold PageAllocator_dealloc.
  destruct (Z.eqb_spec pages 0); [lia|]. cbv zeta. rewrite pages_size by done.
  apply wp_modify.
  destruct (munmap_spec m ptr (pages * PAGE_SIZE)) as [H1 H2];
    [unfold PAGE_SIZE; lia | by apply Z.mod_mul | done|].
  eapply HQ; eauto.
Qed.

(** C17: the page allocator on every number of pages.  No pages: the dangling address 1,
    and nothing is mapped or unmapped.  From 1 to below 2^52 pages: [alloc] returns [None]
    and changes nothing exactly when [mmap] refused these pages, or it returns a
    page-aligned address of zero-filled pages that were not mapped before, every other
    byte unchanged; [dealloc] of them then gives back the memory [alloc] started from when
    [munmap] succeeds, and changes nothing when it fails.  From 2^52 pages on the number of
    bytes overflows: unless nothing is left of it, [alloc] asks for [pages mod 2^52] pages
    only. *)
Theorem page_alloc_dealloc_roundtrip pages m :
  is_usize pages ->
  if pages =? 0 then
    PageAllocator_alloc pages m = Ret (Some 1, m) /\ PageAllocator_dealloc 1 pages m = Ret (tt, m)
  else if pages <? 2 ^ 52 then
    exists r m', PageAllocator_alloc pages m = Ret (r, m') /\
    match r with
    | None => kernel_mmap m (pages * PAGE_SIZE) = None /\ m' = m
    | Some p =>
        fresh_mapping m m' p (pages * PAGE_SIZE) /\
        exists m'', PageAllocator_dealloc p pages m' = Ret (tt, m'') /\
          m'' ≡ (if (kernel_munmap m' p (pages * PAGE_SIZE)).1 =? 0 then m else m')
    end
  else
    pages mod 2 ^ 52 <> 0 -> PageAllocator_alloc pages m = PageAllocator_alloc (pages mod 2 ^ 52) m.
Proof.
  intros Hu. destruct (Z.eqb_spec pages 0) as [->|H0]; [by split|].
  destruct (Z.ltb_spec pages (2 ^ 52)) as [Hlt|Hge].
  - assert (Hp : 0 < pages < 2 ^ 52) by (unfold is_usize in Hu; lia).
    apply PageAllocator_alloc_wp; [done|done|]. intros p m' Hf.
    split; [done|]. destruct Hf as (_ & Ha & _ & Hnew & Hold).
    assert (wp (PageAllocator_dealloc p pages) (fun _ m'' =>
      m'' ≡ (if (kernel_munmap m' p (pages * PAGE_SIZE)).1 =? 0 then m else m')) m') as ([] & m'' & ? & ?); [|eauto].
    apply PageAllocator_dealloc_wp; [done..|]. intros m'' r Hout Hin <-.
    destruct (r =? 0); intros i; destruct (decide (p <= i < p + pages * PAGE_SIZE)) as [Hi|Hi].
    + rewrite Hin by done. symmetry. by apply Hnew.
    + rewrite Hout, Hold by done. done.
    + by apply Hin.
    + by apply Hout.
  - intros Hne. unfold PageAllocator_alloc. destruct (Z.eqb_spec pages 0); [done|].
    destruct (Z.eqb_spec (pages mod 2 ^ 52) 0); [done|].
    assert (Hw : pages *! PAGE_SIZE = pages mod 2 ^ 52 *! PAGE_SIZE); [|by rewrite Hw].
    unfold wrap64, PAGE_SIZE. change (2 ^ 64) with (2 ^ 52 * 4096).
    rewrite !Z.mul_mod_distr_r by done. by rewrite Z.mod_mod.
Qed.
End contract.

(** ** Mappings and arenas *)

(** [m'] maps at least what [m] maps, with the same bytes. *)
Definition mem_extends (m m' : memory) : Prop :=
  forall i, is_Some (load8 m i) -> load8 m' i = load8 m i.

Lemma mem_extends_refl m : mem_extends m m.
Proof. by intros i _. Qed.

Lemma mem_extends_trans m1 m2 m3 : mem_extends m1 m2 -> mem_extends m2 m3 -> mem_extends m1 m3.
Proof. intros H1 H2 i Hi. rewrite H2; rewrite H1; done. Qed.

Lemma fresh_mapping_extends m m' p n : fresh_mapping m m' p n -> mem_extends m m'.
Proof.
  intros (_ & _ & _ & Hnew & Hold) i Hi. apply Hold. intros Hin.
  destruct (Hnew i Hin) as [Hn _]. rewrite Hn in Hi. by destruct Hi.
Qed.

Lemma fresh_mapping_arena m m' p n l :
  fresh_mapping m m' p n -> 0 <= n -> arena m l -> arena m' ((p, n) :: l).
Proof.
  intros (Hp & Ha & Ht & Hnew & Hold) Hn Hl. apply (arena_fresh m); [done| | |done].
  - split_and!; simpl; try done.
    + unfold PAGE_SIZE in Ha. mlia.
    + intros i Hi. rewrite (proj2 (Hnew i Hi)). eauto.
  - intros i Hi. by apply Hnew.
Qed.

Lemma same_bytes_extends E F m m' : arena m (E ++ F) -> mem_extends m m' -> same_bytes E m m'.
Proof.
  intros Har Hx e i He Hi. apply Hx.
  destruct (arena_ok _ _ e Har) as (_ & _ & _ & _ & Ha); [apply elem_of_app; by left|]. by apply Ha.
Qed.

Lemma page_alloc_dealloc_roundtrip_witness :
  exists r m', PageAllocator_alloc (K := bump_kernel) 3 (Memory [] ∅) = Ret (r, m') /\
  match r with
  | None => kernel_mmap (Memory [] ∅) (3 * PAGE_SIZE) = None /\ m' = Memory [] ∅
  | Some p =>
      fresh_mapping (Memory [] ∅) m' p (3 * PAGE_SIZE) /\
      exists m'', PageAllocator_dealloc p 3 m' = Ret (tt, m'') /\
        m'' ≡ (if (kernel_munmap m' p (3 * PAGE_SIZE)).1 =? 0 then Memory [] ∅ else m')
  end.
Proof. apply (page_alloc_dealloc_roundtrip 3). unfold is_usize. lia. Defined.
