(* ===== verification/Magazine.v ===== *)
(** * Magazines

    Models [Magazine] and [MagazineNode] of aethalloc-core/src/magazine.rs: a
    fixed array of 64 block pointers used as a stack, and its refinement of a
    bounded stack. *)

From S2P Require Import Prelude.

(** ** Definitions *)

Definition MAGAZINE_CAPACITY : Z := 64.
Definition MAX_GLOBAL_MAGAZINES_PER_CLASS : Z := 8.

Record Magazine : Type := {
  mag_blocks : list Z;
  mag_count : Z
}.

Definition Magazine_new : Magazine :=
  {| mag_blocks := replicate (Z.to_nat MAGAZINE_CAPACITY) 0; mag_count := 0 |}.

Definition Magazine_is_empty (self : Magazine) : bool := mag_count self =? 0.

Definition Magazine_is_full (self : Magazine) : bool := MAGAZINE_CAPACITY <=? mag_count self.

Definition Magazine_push (ptr : Z) : M Magazine bool :=
  self ← getS;
  if MAGAZINE_CAPACITY <=? mag_count self then mret false
  else
    blocks ← or_panic (arr_set (mag_blocks self) (mag_count self) ptr);
    modifyS (fun _ => {| mag_blocks := blocks; mag_count := mag_count self +! 1 |}) ;;
    mret true.

Definition Magazine_pop : M Magazine (option Z) :=
  self ← getS;
  if mag_count self =? 0 then mret None
  else
    let count := mag_count self -! 1 in
    modifyS (fun s => {| mag_blocks := mag_blocks s; mag_count := count |}) ;;
    b ← or_panic (arr_get (mag_blocks self) count);
    mret (Some b).

Definition Magazine_clear : M Magazine unit :=
  modifyS (fun s => {| mag_blocks := mag_blocks s; mag_count := 0 |}).

(** The [for i in 0..to_add] loop of [bulk_init], from [i] with [n] rounds left. *)
Fixpoint bulk_init_loop (n : nat) (i base block_size : Z) : M Magazine unit :=
  match n with
  | O => mret tt
  | S n' =>
      self ← getS;
      blocks ← or_panic (arr_set (mag_blocks self) (mag_count self +! i) (base + i * block_size));
      modifyS (fun s => {| mag_blocks := blocks; mag_count := mag_count s |}) ;;
      bulk_init_loop n' (i + 1) base block_size
  end.

Definition Magazine_bulk_init (base block_size count : Z) : M Magazine unit :=
  self ← getS;
  let to_add := Z.min count (MAGAZINE_CAPACITY -! mag_count self) in
  bulk_init_loop (Z.to_nat to_add) 0 base block_size ;;
  modifyS (fun s => {| mag_blocks := mag_blocks s; mag_count := mag_count s +! to_add |}).

Definition Magazine_len (self : Magazine) : Z := mag_count self.

Record MagazineNode : Type := {
  node_next : Z;
  node_magazine : Magazine
}.

Definition MagazineNode_new : MagazineNode :=
  {| node_next := 0; node_magazine := Magazine_new |}.

(** ** Well-formedness and abstraction *)

Record Magazine_wf (m : Magazine) : Prop := {
  wf_blocks : length (mag_blocks m) = Z.to_nat MAGAZINE_CAPACITY;
  wf_count : 0 <= mag_count m <= MAGAZINE_CAPACITY
}.

(** The pointers a magazine holds, the next one to pop last. *)
Definition contents (m : Magazine) : list Z := take (Z.to_nat (mag_count m)) (mag_blocks m).

Lemma contents_length m : Magazine_wf m -> length (contents m) = Z.to_nat (mag_count m).
Proof.
  intros [Hb Hc]. unfold contents, MAGAZINE_CAPACITY in *. rewrite length_take. lia.
Qed.

Lemma Magazine_new_wf : Magazine_wf Magazine_new.
Proof. split; [done|]. unfold MAGAZINE_CAPACITY. simpl. lia. Qed.

Lemma contents_new : contents Magazine_new = [].
Proof. done. Qed.

#[export] Hint Resolve Magazine_new_wf : aeth.

Lemma Magazine_push_full ptr m :
  Magazine_wf m -> mag_count m = MAGAZINE_CAPACITY -> Magazine_push ptr m = Ret (false, m).
Proof.
  intros _ Hc. unfold Magazine_push. run_m. rewrite Hc. done.
Qed.

Lemma Magazine_push_room ptr m :
  Magazine_wf m -> mag_count m < MAGAZINE_CAPACITY ->
  exists m', Magazine_push ptr m = Ret (true, m') /\ Magazine_wf m' /\
             contents m' = contents m ++ [ptr] /\ mag_count m' = mag_count m + 1.
Proof.
  intros [Hb Hc] Hlt. unfold MAGAZINE_CAPACITY in *.
  eexists. split; [|split; [|split]].
  - unfold Magazine_push, MAGAZINE_CAPACITY. run_m. destruct (Z.leb_spec 64 (mag_count m)); [lia|].
    rewrite arr_set_total by lia. rewrite wrap64_small by (unfold is_usize; lia). done.
  - split; simpl; [by rewrite length_insert | unfold MAGAZINE_CAPACITY; lia].
  - unfold contents. simpl. rewrite Z2Nat.inj_add by lia. rewrite Nat.add_1_r.
    rewrite (take_S_r _ _ ptr).
    + by rewrite take_insert_ge by lia.
    + apply list_lookup_insert_eq. lia.
  - done.
Qed.

Lemma Magazine_pop_empty m : mag_count m = 0 -> Magazine_pop m = Ret (None, m).
Proof. intros Hc. unfold Magazine_pop. run_m. by rewrite Hc. Qed.

Lemma Magazine_pop_some m :
  Magazine_wf m -> 0 < mag_count m ->
  exists b m', Magazine_pop m = Ret (Some b, m') /\ Magazine_wf m' /\
               contents m = contents m' ++ [b] /\ mag_count m' = mag_count m - 1.
Proof.
  intros [Hb Hc] Hlt. unfold MAGAZINE_CAPACITY in *.
  destruct (arr_get_total (mag_blocks m) (mag_count m - 1)) as [b Hg]; [lia|].
  exists b. eexists. split; [|split; [|split]].
  - unfold Magazine_pop. run_m. destruct (Z.eqb_spec (mag_count m) 0); [lia|].
    rewrite wrap64_small by (unfold is_usize; lia). rewrite Hg. done.
  - split; simpl; [done | unfold MAGAZINE_CAPACITY; lia].
  - unfold contents. simpl. apply arr_get_lookup in Hg as [_ Hg].
    rewrite <- (take_S_r _ _ _ Hg). f_equal. lia.
  - done.
Qed.

Lemma Magazine_clear_spec m :
  Magazine_wf m ->
  exists m', Magazine_clear m = Ret (tt, m') /\ Magazine_wf m' /\ contents m' = [].
Proof. intros [Hb Hc]. eexists. split; [done|]. split; [|done]. split; [done|]. simpl. lia. Qed.

Lemma bulk_init_loop_spec n : forall i base bs m,
  Magazine_wf m -> 0 <= i -> mag_count m + i + Z.of_nat n <= MAGAZINE_CAPACITY ->
  exists m', bulk_init_loop n i base bs m = Ret (tt, m') /\
    mag_count m' = mag_count m /\ length (mag_blocks m') = length (mag_blocks m) /\
    take (Z.to_nat (mag_count m + i) + n) (mag_blocks m') =
      take (Z.to_nat (mag_count m + i)) (mag_blocks m) ++
      ((fun j => base + (i + Z.of_nat j) * bs) <$> seq 0 n).
Proof.
  induction n as [|n IH]; intros i base bs m [Hb Hc] Hi Hn; unfold MAGAZINE_CAPACITY in *.
  - exists m. split; [done|]. rewrite Nat.add_0_r. simpl. by rewrite app_nil_r.
  - set (x := base + i * bs). set (k := Z.to_nat (mag_count m + i)).
    set (m1 := {| mag_blocks := <[k := x]> (mag_blocks m); mag_count := mag_count m |}).
    destruct (IH (i + 1) base bs m1) as (m' & Hr & Hc' & Hl' & Ht').
    { split; simpl; [by rewrite length_insert | unfold MAGAZINE_CAPACITY; lia]. }
    { lia. }
    { simpl. lia. }
    exists m'. split; [|split; [done|split]].
    + simpl bulk_init_loop. run_m. rewrite wrap64_small by (unfold is_usize; lia).
      rewrite arr_set_total by lia. exact Hr.
    + rewrite Hl'. simpl. by rewrite length_insert.
    + simpl mag_count in Ht'. simpl mag_blocks in Ht'.
      replace (Z.to_nat (mag_count m + (i + 1))) with (S k) in Ht' by lia.
      replace (k + S n)%nat with (S k + n)%nat by lia. rewrite Ht'.
      rewrite (take_S_r _ _ x) by (apply list_lookup_insert_eq; lia).
      rewrite take_insert_ge by lia. rewrite <- app_assoc. f_equal.
      rewrite <- cons_seq, fmap_cons, <- fmap_S_seq, <- list_fmap_compose. simpl. f_equal.
      * unfold x. lia.
      * apply list_fmap_ext. intros j y _. simpl. lia.
Qed.

(** Blocks laid out from [base], as many as were asked for and fit. *)
Lemma Magazine_bulk_init_spec base bs n m :
  Magazine_wf m -> 0 <= n ->
  let k := Z.to_nat (Z.min n (MAGAZINE_CAPACITY - mag_count m)) in
  exists m', Magazine_bulk_init base bs n m = Ret (tt, m') /\ Magazine_wf m' /\
             contents m' = contents m ++ ((fun j => base + Z.of_nat j * bs) <$> seq 0 k).
Proof.
  intros Hwf Hn k. destruct Hwf as [Hb Hc] eqn:Hw.
  destruct (bulk_init_loop_spec k 0 base bs m) as (m1 & Hr & Hc1 & Hl1 & Ht1);
    [done|lia|unfold MAGAZINE_CAPACITY in *; lia|].
  eexists. split; [|split].
  - unfold Magazine_bulk_init. run_m.
    rewrite (wrap64_small (MAGAZINE_CAPACITY - mag_count m))
      by (unfold is_usize, MAGAZINE_CAPACITY in *; lia).
    fold k. rewrite Hr. rewrite Hc1.
    rewrite wrap64_small by (unfold is_usize, MAGAZINE_CAPACITY in *; lia). done.
  - split; simpl; [by rewrite Hl1 | unfold MAGAZINE_CAPACITY in *; lia].
  - unfold contents. simpl. rewrite Z.add_0_r in Ht1.
    replace (Z.to_nat (mag_count m + _)) with (Z.to_nat (mag_count m) + k)%nat
      by (unfold MAGAZINE_CAPACITY in *; lia).
    rewrite Ht1. f_equal.
Qed.

(** ** Refinement of a bounded stack *)

Inductive mag_op : Type :=
  | OpPush (ptr : Z)
  | OpPop
  | OpClear
  | OpBulkInit (base block_size count : Z)
  | OpQuery.

Inductive mag_out : Type :=
  | OutPushed (ok : bool)
  | OutPopped (r : option Z)
  | OutDone
  | OutQuery (empty full : bool) (len : Z).

Definition mag_step (op : mag_op) : M Magazine mag_out :=
  match op with
  | OpPush ptr => b ← Magazine_push ptr; mret (OutPushed b)
  | OpPop => r ← Magazine_pop; mret (OutPopped r)
  | OpClear => Magazine_clear ;; mret OutDone
  | OpBulkInit base bs n => Magazine_bulk_init base bs n ;; mret OutDone
  | OpQuery =>
      self ← getS;
      mret (OutQuery (Magazine_is_empty self) (Magazine_is_full self) (Magazine_len self))
  end.

(** The specification: a stack of at most 64 pointers, newest first. *)
Definition stack_step (op : mag_op) (l : list Z) : mag_out * list Z :=
  match op with
  | OpPush ptr => if (length l <? 64)%nat then (OutPushed true, ptr :: l) else (OutPushed false, l)
  | OpPop => match l with [] => (OutPopped None, []) | x :: l' => (OutPopped (Some x), l') end
  | OpClear => (OutDone, [])
  | OpBulkInit base bs n =>
      (OutDone,
       rev ((fun j => base + Z.of_nat j * bs) <$> seq 0 (Z.to_nat n `min` (64 - length l))) ++ l)
  | OpQuery =>
      (OutQuery (length l =? 0)%nat (length l =? 64)%nat (Z.of_nat (length l)), l)
  end.

Fixpoint mag_run (ops : list mag_op) : M Magazine (list mag_out) :=
  match ops with
  | [] => mret []
  | op :: ops' => o ← mag_step op; os ← mag_run ops'; mret (o :: os)
  end.

Fixpoint stack_run (ops : list mag_op) (l : list Z) : list mag_out * list Z :=
  match ops with
  | [] => ([], l)
  | op :: ops' =>
      let '(o, l1) := stack_step op l in
      let '(os, l2) := stack_run ops' l1 in (o :: os, l2)
  end.

Definition op_ok (op : mag_op) : Prop :=
  match op with OpBulkInit _ _ n => 0 <= n | _ => True end.

Lemma mag_step_refines op m :
  op_ok op -> Magazine_wf m ->
  exists o m', mag_step op m = Ret (o, m') /\ Magazine_wf m' /\
               stack_step op (rev (contents m)) = (o, rev (contents m')).
Proof.
  intros Hop Hwf. pose proof (contents_length m Hwf) as Hlen.
  pose proof (wf_count m Hwf) as Hc. unfold MAGAZINE_CAPACITY in Hc.
  destruct op as [ptr| | |base bs n|]; unfold mag_step, stack_step; run_m.
  - rewrite length_rev, Hlen. destruct (decide (mag_count m = 64)) as [He|Hne].
    + rewrite Magazine_push_full by done. eexists _, _. split; [done|]. split; [done|].
      destruct (Nat.ltb_spec (Z.to_nat (mag_count m)) 64); [lia|done].
    + destruct (Magazine_push_room ptr m Hwf) as (m' & -> & Hwf' & Hct & _);
        [unfold MAGAZINE_CAPACITY; lia|].
      eexists _, _. split; [done|]. split; [done|]. rewrite Hct, rev_unit.
      destruct (Nat.ltb_spec (Z.to_nat (mag_count m)) 64); [done|lia].
  - destruct (decide (mag_count m = 0)) as [He|Hne].
    + rewrite Magazine_pop_empty by done. eexists _, _. split; [done|]. split; [done|].
      rewrite He in Hlen. by apply length_zero_iff_nil in Hlen as ->.
    + destruct (Magazine_pop_some m Hwf) as (b & m' & -> & Hwf' & Hct & _); [lia|].
      eexists _, _. split; [done|]. split; [done|]. by rewrite Hct, rev_unit.
  - destruct (Magazine_clear_spec m Hwf) as (m' & -> & Hwf' & Hct).
    eexists _, _. split; [done|]. split; [done|]. by rewrite Hct.
  - destruct (Magazine_bulk_init_spec base bs n m Hwf Hop) as (m' & -> & Hwf' & Hct).
    eexists _, _. split; [done|]. split; [done|]. rewrite Hct, rev_app_distr, length_rev, Hlen.
    unfold MAGAZINE_CAPACITY. do 5 f_equal. lia.
  - eexists _, _. split; [done|]. split; [done|]. rewrite length_rev, Hlen.
    unfold Magazine_is_empty, Magazine_is_full, Magazine_len, MAGAZINE_CAPACITY.
    f_equal. f_equal; [apply eq_true_iff_eq; rewrite Nat.eqb_eq, Z.eqb_eq; lia| |lia].
    apply eq_true_iff_eq. rewrite Nat.eqb_eq, Z.leb_le. lia.
Qed.

(** C16: a magazine is a bounded stack: any sequence of [push], [pop], [clear],
    [bulk_init] and queries on a new magazine runs without an out-of-range index and
    returns what a stack of at most 64 pointers returns, a [push] on a full magazine
    being refused and [bulk_init] keeping only the blocks that fit. *)
Theorem magazine_refines_stack ops :
  Forall op_ok ops ->
  exists os m, mag_run ops Magazine_new = Ret (os, m) /\
               Magazine_wf m /\ stack_run ops [] = (os, rev (contents m)).
Proof.
  change [] with (rev (contents Magazine_new)).
  generalize Magazine_new Magazine_new_wf.
  induction ops as [|op ops IH]; intros m Hwf Hops.
  - exists [], m. done.
  - apply Forall_cons in Hops as [Hop Hops].
    destruct (mag_step_refines op m Hop Hwf) as (o & m1 & H1 & Hwf1 & Hs1).
    destruct (IH m1 Hwf1 Hops) as (os & m2 & H2 & Hwf2 & Hs2).
    exists (o :: os), m2. split; [|split; [done|]].
    + simpl mag_run. run_m. by rewrite H1, H2.
    + simpl. by rewrite Hs1, Hs2.
Qed.

Lemma magazine_refines_stack_witness :
  exists os m,
    mag_run [OpBulkInit 4096 80 127; OpPush 7; OpPop; OpPop; OpPush 5; OpQuery] Magazine_new
      = Ret (os, m) /\
    Magazine_wf m /\
    stack_run [OpBulkInit 4096 80 127; OpPush 7; OpPop; OpPop; OpPush 5; OpQuery] []
      = (os, rev (contents m)).
Proof. apply magazine_refines_stack. repeat constructor; simpl; lia. Defined.
