(* ===== verification/Treiber.v ===== *)
(** * Lock-free stacks under concurrency

    The push and pop loops of the Treiber stacks of aethalloc-core/src/magazine.rs
    ([push_full], [pop_full], [push_empty], [pop_empty]),
    aethalloc-core/src/global_pool.rs ([GlobalSlabPool::push], [pop]) and
    aethalloc-abi/src/global.rs ([GlobalFreeList::push_batch], [pop]), one step per
    access to shared memory, any number of threads, every interleaving.  A push of
    one node is a batch of one.  A weak compare-exchange may fail at any time.

    The steps are interleaved sequentially consistently; weaker orderings are not
    modelled. *)

From S2P Require Import Prelude.

(** ** Definitions *)

(** Where a thread stands inside a push or a pop.  A push carries the nodes of
    its batch, first to last: [batch_head] is the first, [batch_tail] the last. *)
Inductive pc : Type :=
  | PushLoad (b : list Z)
  | PushWrite (b : list Z) (current : Z)
  | PushCas (b : list Z) (current : Z)
  | PopLoad
  | PopRead (current : Z)
  | PopCas (current next : Z).

(** The shared head pointer, the [next] field of every node, the nodes that exist,
    the nodes clients hold (in no stack and in no push), and the threads inside an
    operation. *)
Record config : Type := {
  c_head : Z;
  c_next : gmap Z Z;
  c_known : gset Z;
  c_owned : gset Z;
  c_thr : gmap nat pc
}.

Inductive label : Type :=
  | LPush (b : list Z)
  | LPop (n : Z)
  | LPopNone.

Definition batch_tail (b : list Z) : Z := default 0 (last b).
Definition batch_head (b : list Z) : Z := default 0 (head b).

(** Consecutive nodes of the batch are linked. *)
Fixpoint linked (next : gmap Z Z) (b : list Z) : Prop :=
  match b with
  | x :: ((y :: _) as b') => next !! x = Some y /\ linked next b'
  | _ => True
  end.

(** The list that starts at [h] and ends in null visits exactly [l]. *)
Fixpoint chain (next : gmap Z Z) (h : Z) (l : list Z) : Prop :=
  match l with
  | [] => h = 0
  | n :: l' => h = n /\ n <> 0 /\ exists nx, next !! n = Some nx /\ chain next nx l'
  end.

Definition set_thr (c : config) (t : nat) (p : pc) : config :=
  {| c_head := c_head c; c_next := c_next c; c_known := c_known c; c_owned := c_owned c;
     c_thr := <[t := p]> (c_thr c) |}.

Definition end_thr (c : config) (t : nat) : config :=
  {| c_head := c_head c; c_next := c_next c; c_known := c_known c; c_owned := c_owned c;
     c_thr := delete t (c_thr c) |}.

Definition set_head (c : config) (h : Z) : config :=
  {| c_head := h; c_next := c_next c; c_known := c_known c; c_owned := c_owned c;
     c_thr := c_thr c |}.

Definition set_next (c : config) (n v : Z) : config :=
  {| c_head := c_head c; c_next := <[n := v]> (c_next c); c_known := c_known c;
     c_owned := c_owned c; c_thr := c_thr c |}.

Definition set_owned (c : config) (o : gset Z) : config :=
  {| c_head := c_head c; c_next := c_next c; c_known := c_known c; c_owned := o;
     c_thr := c_thr c |}.

(** [treiber_step pol c o c']: one step; [pol c b] is the discipline under which
    clients may start to push the batch [b], over and above owning its nodes. *)
Inductive treiber_step (pol : config -> list Z -> Prop) (c : config) : option label -> config -> Prop :=
  | SAlloc n :
      n <> 0 -> n ∉ c_known c ->
      treiber_step pol c None
        {| c_head := c_head c; c_next := <[n := 0]> (c_next c); c_known := {[n]} ∪ c_known c;
           c_owned := {[n]} ∪ c_owned c; c_thr := c_thr c |}
  | SOwn n v : n ∈ c_owned c -> treiber_step pol c None (set_next c n v)
  | SPushStart t b :
      c_thr c !! t = None -> b <> [] -> NoDup b -> (forall n, n ∈ b -> n ∈ c_owned c) ->
      linked (c_next c) b -> pol c b ->
      treiber_step pol c None (set_thr (set_owned c (c_owned c ∖ list_to_set b)) t (PushLoad b))
  | SPushLoad t b :
      c_thr c !! t = Some (PushLoad b) ->
      treiber_step pol c None (set_thr c t (PushWrite b (c_head c)))
  | SPushWrite t b current :
      c_thr c !! t = Some (PushWrite b current) ->
      treiber_step pol c None (set_thr (set_next c (batch_tail b) current) t (PushCas b current))
  | SPushCasOk t b current :
      c_thr c !! t = Some (PushCas b current) -> c_head c = current ->
      treiber_step pol c (Some (LPush b)) (end_thr (set_head c (batch_head b)) t)
  | SPushCasErr t b current :
      c_thr c !! t = Some (PushCas b current) ->
      treiber_step pol c None (set_thr c t (PushWrite b (c_head c)))
  | SPushCasContinue t b current :
      c_thr c !! t = Some (PushCas b current) ->
      treiber_step pol c None (set_thr c t (PushLoad b))
  | SPopStart t :
      c_thr c !! t = None -> treiber_step pol c None (set_thr c t PopLoad)
  | SPopLoadNull t :
      c_thr c !! t = Some PopLoad -> c_head c = 0 ->
      treiber_step pol c (Some LPopNone) (end_thr c t)
  | SPopLoad t :
      c_thr c !! t = Some PopLoad -> c_head c <> 0 ->
      treiber_step pol c None (set_thr c t (PopRead (c_head c)))
  | SPopRead t current next :
      c_thr c !! t = Some (PopRead current) -> c_next c !! current = Some next ->
      treiber_step pol c None (set_thr c t (PopCas current next))
  | SPopCasOk t current next :
      c_thr c !! t = Some (PopCas current next) -> c_head c = current ->
      treiber_step pol c (Some (LPop current))
        (end_thr (set_owned (set_head c next) ({[current]} ∪ c_owned c)) t)
  | SPopCasErrNull t current next :
      c_thr c !! t = Some (PopCas current next) -> c_head c = 0 ->
      treiber_step pol c (Some LPopNone) (end_thr c t)
  | SPopCasErr t current next :
      c_thr c !! t = Some (PopCas current next) -> c_head c <> 0 ->
      treiber_step pol c None (set_thr c t (PopRead (c_head c)))
  | SPopCasContinue t current next :
      c_thr c !! t = Some (PopCas current next) ->
      treiber_step pol c None (set_thr c t PopLoad).

(** Executions from the empty pool, with the operations that took effect, in order. *)
Definition config_init : config :=
  {| c_head := 0; c_next := ∅; c_known := ∅; c_owned := ∅; c_thr := ∅ |}.

Inductive treiber_reach (pol : config -> list Z -> Prop) : list label -> config -> Prop :=
  | reach_init : treiber_reach pol [] config_init
  | reach_step tr c o c' :
      treiber_reach pol tr c -> treiber_step pol c o c' ->
      treiber_reach pol (tr ++ option_list o) c'.

(** The specification: the history is the history of a stack. *)
Inductive stack_history : list label -> list Z -> Prop :=
  | hist_nil : stack_history [] []
  | hist_push tr b stk : stack_history tr stk -> stack_history (tr ++ [LPush b]) (b ++ stk)
  | hist_pop tr n stk : stack_history tr (n :: stk) -> stack_history (tr ++ [LPop n]) stk
  | hist_none tr : stack_history tr [] -> stack_history (tr ++ [LPopNone]) [].

(** A thread is inside a pop and has loaded [n]. *)
Definition pop_holds (c : config) (n : Z) : Prop :=
  exists t, c_thr c !! t = Some (PopRead n) \/ exists nx, c_thr c !! t = Some (PopCas n nx).

(** The discipline that makes the loops correct: no node is pushed while some
    thread's pop has it loaded. *)
Definition hazard_free (c : config) (b : list Z) : Prop := forall n, n ∈ b -> ~ pop_holds c n.


Definition push_nodes (p : pc) : list Z :=
  match p with
  | PushLoad b | PushWrite b _ | PushCas b _ => b
  | _ => []
  end.

(** ** Chains *)

Lemma chain_ext next next' h l :
  (forall n, n ∈ l -> next' !! n = next !! n) -> chain next h l -> chain next' h l.
Proof.
  revert h. induction l as [|n l IH]; intros h Hn; simpl; [done|].
  intros (-> & H0 & nx & Hnx & Hc). split_and!; [done|done|]. exists nx.
  rewrite Hn by (left). split; [done|]. apply IH; [|done]. intros m Hm. apply Hn. by right.
Qed.

Lemma linked_ext next next' b :
  (forall n, n ∈ b -> n <> batch_tail b -> next' !! n = next !! n) -> NoDup b ->
  linked next b -> linked next' b.
Proof.
  induction b as [|x b IH]; intros Hn Hnd Hl; [done|]. destruct b as [|y b]; [done|].
  destruct Hl as [Hx Hl]. apply NoDup_cons in Hnd as [Hx' Hnd].
  assert (Hlast : batch_tail (x :: y :: b) = batch_tail (y :: b)) by done.
  split.
  - rewrite Hn; [done|left|]. rewrite Hlast. intros ->. apply Hx'.
    unfold batch_tail. destruct (last (y :: b)) eqn:He; [|by apply last_None in He].
    apply last_Some_elem_of in He. done.
  - apply IH; [|done|done]. intros n Hin Hne. apply Hn; [by right|]. by rewrite Hlast.
Qed.

(** Linking the last node of a batch to the head of a list pushes the batch. *)
Lemma chain_push next b h l :
  b <> [] -> (forall n, n ∈ b -> n <> 0) -> linked next b -> next !! batch_tail b = Some h ->
  chain next h l -> chain next (batch_head b) (b ++ l).
Proof.
  induction b as [|x b IH]; intros Hb Hz Hl Ht Hc; [done|]. destruct b as [|y b].
  - split; [done|]. split; [apply Hz; left|]. exists h. done.
  - destruct Hl as [Hx Hl]. split; [done|]. split; [apply Hz; left|]. exists y.
    split; [done|]. apply IH; [done| |done|done|done]. intros n Hn. apply Hz. by right.
Qed.

(** ** The invariant *)

Definition pc_ok (next : gmap Z Z) (stk : list Z) (p : pc) : Prop :=
  match p with
  | PushLoad b | PushWrite b _ => b <> []
  | PushCas b current => b <> [] /\ next !! batch_tail b = Some current
  | PopRead current => current <> 0
  | PopCas current nx => current <> 0 /\ (current ∈ stk -> next !! current = Some nx)
  | _ => True
  end.

Definition pc_holds (p : pc) (n : Z) : Prop :=
  match p with
  | PopRead m | PopCas m _ => m = n
  | _ => False
  end.

(** [stk] is what the stack holds; every node is in one place; a node some pop has
    loaded is in no push; the pc-local facts hold. *)
Record treiber_inv (c : config) (stk : list Z) : Prop := {
  ti_chain : chain (c_next c) (c_head c) stk;
  ti_nodup : NoDup stk;
  ti_stk n : n ∈ stk -> n <> 0 /\ n ∈ c_known c /\ n ∉ c_owned c;
  ti_owned n : n ∈ c_owned c -> n <> 0 /\ n ∈ c_known c;
  ti_push t p n :
    c_thr c !! t = Some p -> n ∈ push_nodes p ->
    n <> 0 /\ n ∈ c_known c /\ (n ∉ c_owned c) /\ (n ∉ stk) /\
    (forall t' p', c_thr c !! t' = Some p' -> n ∈ push_nodes p' -> t' = t);
  ti_batch t p :
    c_thr c !! t = Some p -> NoDup (push_nodes p) /\ linked (c_next c) (push_nodes p);
  ti_hold t p t' p' n :
    c_thr c !! t = Some p -> pc_holds p n -> c_thr c !! t' = Some p' -> n ∉ push_nodes p';
  ti_pc t p : c_thr c !! t = Some p -> pc_ok (c_next c) stk p
}.

Lemma pop_holds_pc c n : pop_holds c n <-> exists t p, c_thr c !! t = Some p /\ pc_holds p n.
Proof.
  split.
  - intros (t & [H|[nx H]]); eexists t, _; (split; [done|done]).
  - intros (t & p & H & Hp). exists t. destruct p; simpl in Hp; try done; subst; eauto.
Qed.

(** A thread moves inside its operation without touching shared memory. *)
Lemma treiber_inv_set_thr c stk t p :
  treiber_inv c stk ->
  push_nodes p = default [] (push_nodes <$> c_thr c !! t) ->
  pc_ok (c_next c) stk p ->
  (forall n, pc_holds p n -> n ∈ stk \/ exists p', c_thr c !! t = Some p' /\ pc_holds p' n) ->
  treiber_inv (set_thr c t p) stk.
Proof.
  intros [] Hpn Hpc Hh.
  assert (Hsame : forall t' p' n, <[t := p]> (c_thr c) !! t' = Some p' -> n ∈ push_nodes p' ->
            exists p'', c_thr c !! t' = Some p'' /\ push_nodes p'' = push_nodes p').
  { intros t' p' n [[<- <-]|[_ H]]%lookup_insert_Some Hn; [|eauto].
    destruct (c_thr c !! t) as [q|] eqn:Hq; simpl in Hpn; [eauto|].
    rewrite Hpn in Hn. by apply elem_of_nil in Hn. }
  constructor; simpl; try done.
  - intros t' p' n H Hn. destruct (Hsame t' p' n H Hn) as (q & Hq & Hqn).
    rewrite <- Hqn in Hn. destruct (ti_push0 t' q n Hq Hn) as (H1 & H2 & H3 & H4 & H5).
    split_and!; try done. intros t2 p2 H6 H7.
    destruct (Hsame t2 p2 n H6 H7) as (q2 & Hq2 & Hqn2). rewrite <- Hqn2 in H7. eauto.
  - intros t' p' [[<- <-]|[_ H]]%lookup_insert_Some; [|eauto].
    destruct (c_thr c !! t) as [q|] eqn:Hq; simpl in Hpn; rewrite Hpn; [eauto|].
    split; [constructor|done].
  - intros t1 p1 t2 p2 n H1 Hn H2 Hin.
    destruct (Hsame t2 p2 n H2 Hin) as (q & Hq & Hqn). rewrite <- Hqn in Hin.
    apply lookup_insert_Some in H1 as [[<- <-]|[_ H1]].
    + destruct (Hh n Hn) as [Hs|(p' & Hp' & Hh')].
      * by destruct (ti_push0 _ _ _ Hq Hin) as (_ & _ & _ & ? & _).
      * exact (ti_hold0 _ _ _ _ _ Hp' Hh' Hq Hin).
    + exact (ti_hold0 _ _ _ _ _ H1 Hn Hq Hin).
  - intros t' p' [[<- <-]|[_ H]]%lookup_insert_Some; eauto.
Qed.

Lemma treiber_inv_end_thr c stk t :
  treiber_inv c stk -> treiber_inv (end_thr c t) stk.
Proof.
  intros []. constructor; simpl; try done.
  - intros t' p n [_ H]%lookup_delete_Some Hn.
    destruct (ti_push0 t' p n H Hn) as (H1 & H2 & H3 & H4 & H5). split_and!; try done.
    intros t2 p2 [_ H6]%lookup_delete_Some. eauto.
  - intros t' p [_ H]%lookup_delete_Some. eauto.
  - intros t1 p1 t2 p2 n [_ H1]%lookup_delete_Some Hn [_ H2]%lookup_delete_Some. eauto.
  - intros t' p [_ H]%lookup_delete_Some. eauto.
Qed.

(** Writing the [next] field of a node outside the stack. *)
Lemma treiber_inv_set_next c stk n v :
  treiber_inv c stk -> n ∉ stk ->
  (forall t p, c_thr c !! t = Some p -> n ∈ push_nodes p ->
     n = batch_tail (push_nodes p) /\ forall b cur, p <> PushCas b cur) ->
  treiber_inv (set_next c n v) stk.
Proof.
  intros [] Hn Hp. constructor; simpl; try done.
  - apply (chain_ext (c_next c)); [|done]. intros m Hm. apply lookup_insert_ne. by intros ->.
  - intros t p H. destruct (ti_batch0 t p H) as [H1 H2]. split; [done|].
    apply (linked_ext (c_next c)); [|done|done]. intros m Hm Hne. apply lookup_insert_ne.
    intros ->. destruct (Hp t p H Hm). done.
  - intros t p H. specialize (ti_pc0 t p H).
    assert (Htl : forall b, b <> [] -> batch_tail b ∈ b).
    { intros b Hb. unfold batch_tail. destruct (last b) eqn:He; [|by apply last_None in He].
      by apply last_Some_elem_of. }
    destruct p as [b|b cur|b cur| |cur|cur nx]; simpl in *; try done.
    + destruct ti_pc0 as [Hb Ht]. split; [done|]. rewrite lookup_insert_ne; [done|].
      intros ->. destruct (Hp t (PushCas b cur) H) as [_ Hc]; [by apply Htl|].
      by eapply Hc.
    + destruct ti_pc0 as [Hz Hcur]. split; [done|]. intros Hin.
      rewrite lookup_insert_ne; [auto|]. by intros ->.
Qed.

(** ** Steps preserve the invariant *)

Lemma treiber_inv_alloc c stk n :
  n <> 0 -> n ∉ c_known c -> treiber_inv c stk ->
  treiber_inv {| c_head := c_head c; c_next := <[n := 0]> (c_next c);
                 c_known := {[n]} ∪ c_known c; c_owned := {[n]} ∪ c_owned c;
                 c_thr := c_thr c |} stk.
Proof.
  intros Hz Hk Hinv.
  assert (Hn : n ∉ stk) by (intros Hin; by apply (ti_stk _ _ Hinv) in Hin as (_ & ? & _)).
  assert (Hp : forall t p, c_thr c !! t = Some p -> n ∉ push_nodes p).
  { intros t p H Hin. by destruct (ti_push _ _ Hinv t p n H Hin) as (_ & ? & _). }
  destruct (treiber_inv_set_next c stk n 0 Hinv Hn) as [].
  { intros t p H Hin. by destruct (Hp t p H Hin). }
  constructor; simpl in *; try done.
  - intros m Hm. destruct (ti_stk0 m Hm) as (H1 & H2 & H3). set_solver.
  - intros m [->%elem_of_singleton|Hm]%elem_of_union; [set_solver|].
    destruct (ti_owned0 m Hm). set_solver.
  - intros t p m H Hm. destruct (ti_push0 t p m H Hm) as (H1 & H2 & H3 & H4 & H5).
    split_and!; [done|set_solver|set_solver|done|done].
Qed.

Lemma treiber_inv_push_start c stk t b :
  treiber_inv c stk -> c_thr c !! t = None -> b <> [] -> NoDup b ->
  (forall n, n ∈ b -> n ∈ c_owned c) -> linked (c_next c) b -> hazard_free c b ->
  treiber_inv (set_thr (set_owned c (c_owned c ∖ list_to_set b)) t (PushLoad b)) stk.
Proof.
  intros Hinv Ht Hb Hnd Hown Hlk Hhz. destruct Hinv.
  assert (Hfree : forall t' p' n, c_thr c !! t' = Some p' -> n ∈ b -> n ∉ push_nodes p').
  { intros t' p' n H Hn Hin. destruct (ti_push0 t' p' n H Hin) as (_ & _ & Ho & _).
    by apply Ho, Hown. }
  constructor; simpl; try done.
  - intros n Hn. destruct (ti_stk0 n Hn) as (? & ? & ?). set_solver.
  - intros n [Hn _]%elem_of_difference. auto.
  - intros t' p n [[<- <-]|[Hne H]]%lookup_insert_Some Hn; simpl in Hn.
    + destruct (ti_owned0 n (Hown n Hn)) as [Hn0 Hnk]. split_and!; [done|done|set_solver| |].
      * intros Hs. destruct (ti_stk0 n Hs) as (_ & _ & Ho). by apply Ho, Hown.
      * intros t2 p2 [[<- <-]|[_ H]]%lookup_insert_Some Hn2; [done|].
        by destruct (Hfree _ _ _ H Hn).
    + destruct (ti_push0 t' p n H Hn) as (H1 & H2 & H3 & H4 & H5).
      split_and!; [done|done|set_solver|done|].
      intros t2 p2 [[<- <-]|[_ H']]%lookup_insert_Some Hn2; [|eauto].
      simpl in Hn2. by destruct (Hfree _ _ _ H Hn2).
  - intros t' p [[<- <-]|[_ H]]%lookup_insert_Some; [done|eauto].
  - intros t1 p1 t2 p2 n [[<- <-]|[_ H1]]%lookup_insert_Some Hh; [done|].
    intros [[<- <-]|[_ H2]]%lookup_insert_Some; [|eauto].
    simpl. intros Hin. apply (Hhz n Hin), pop_holds_pc. eauto.
  - intros t' p [[<- <-]|[_ H]]%lookup_insert_Some; [done|eauto].
Qed.

Lemma treiber_inv_push_cas c stk t b :
  treiber_inv c stk -> c_thr c !! t = Some (PushCas b (c_head c)) ->
  treiber_inv (end_thr (set_head c (batch_head b)) t) (b ++ stk).
Proof.
  intros Hinv Ht. destruct Hinv.
  pose proof (ti_pc0 _ _ Ht) as [Hb Htl]. pose proof (ti_batch0 _ _ Ht) as [Hnd Hlk].
  assert (Hbn : forall n, n ∈ b -> _) by (intros n; apply (ti_push0 t _ n Ht)).
  constructor; simpl.
  - eapply chain_push; eauto. intros n Hn. by apply Hbn.
  - apply NoDup_app. split_and!; [done| |done]. intros n Hn. by apply Hbn.
  - intros n [Hn|Hn]%elem_of_app; [|auto]. by destruct (Hbn n Hn) as (? & ? & ? & _).
  - done.
  - intros t' p n [Hne H]%lookup_delete_Some Hn.
    destruct (ti_push0 t' p n H Hn) as (H1 & H2 & H3 & H4 & H5). split_and!; try done.
    + intros [Hin|Hin]%elem_of_app; [|done]. apply Hne. by apply (H5 t _ Ht).
    + intros t2 p2 [_ H6]%lookup_delete_Some. eauto.
  - intros t' p [_ H]%lookup_delete_Some. eauto.
  - intros t1 p1 t2 p2 n [_ H1]%lookup_delete_Some Hh [_ H2]%lookup_delete_Some. eauto.
  - intros t' p [_ H]%lookup_delete_Some. pose proof (ti_pc0 _ _ H) as Hp.
    destruct p as [| | | | |cur nx]; simpl in *; try done. destruct Hp as [Hz Hp].
    split; [done|]. intros [Hin|Hin]%elem_of_app; [|auto]. exfalso.
    exact (ti_hold0 _ _ _ _ cur H eq_refl Ht Hin).
Qed.

Lemma treiber_inv_pop_cas c stk t cur nx :
  treiber_inv c stk -> c_thr c !! t = Some (PopCas cur nx) -> c_head c = cur ->
  exists stk', stk = cur :: stk' /\
    treiber_inv (end_thr (set_owned (set_head c nx) ({[cur]} ∪ c_owned c)) t) stk'.
Proof.
  intros Hinv Ht Hh. destruct Hinv. pose proof (ti_pc0 _ _ Ht) as [Hz Hcur].
  destruct stk as [|n stk]; simpl in ti_chain0; [congruence|].
  destruct ti_chain0 as (He & Hn0 & nx' & Hnx & Hc). assert (n = cur) as -> by congruence.
  assert (nx' = nx) as ->.
  { rewrite Hcur in Hnx by left. congruence. }
  apply NoDup_cons in ti_nodup0 as [Hnot Hnd].
  exists stk. split; [done|]. constructor; simpl; try done.
  - intros m Hm. destruct (ti_stk0 m) as (? & ? & ?); [by right|].
    split_and!; [done|done|]. set_solver.
  - intros m [->%elem_of_singleton|Hm]%elem_of_union; [|auto].
    destruct (ti_stk0 cur) as (? & ? & _); [by left|done].
  - intros t' p m [_ H]%lookup_delete_Some Hm.
    destruct (ti_push0 t' p m H Hm) as (H1 & H2 & H3 & H4 & H5).
    rewrite not_elem_of_cons in H4. split_and!; [done|done|set_solver|tauto|].
    intros t2 p2 [_ H6]%lookup_delete_Some. eauto.
  - intros t' p [_ H]%lookup_delete_Some. eauto.
  - intros t1 p1 t2 p2 m [_ H1]%lookup_delete_Some Hp [_ H2]%lookup_delete_Some. eauto.
  - intros t' p [_ H]%lookup_delete_Some. pose proof (ti_pc0 _ _ H) as Hp.
    destruct p; simpl in *; try done. destruct Hp as [? Hp]. split; [done|].
    intros Hin. apply Hp. by right.
Qed.

(** ** Linearizability *)

Lemma stack_history_snoc o tr stk stk' :
  stack_history tr stk ->
  match o with
  | None => stk' = stk
  | Some (LPush b) => stk' = b ++ stk
  | Some (LPop n) => stk = n :: stk'
  | Some LPopNone => stk = [] /\ stk' = []
  end ->
  stack_history (tr ++ option_list o) stk'.
Proof.
  intros H Ho. destruct o as [[b|n|]|]; simpl.
  - subst. by constructor.
  - subst. by constructor.
  - destruct Ho as [-> ->]. by constructor.
  - subst. by rewrite app_nil_r.
Qed.

Lemma treiber_head_stk c stk : treiber_inv c stk -> c_head c <> 0 -> c_head c ∈ stk.
Proof.
  intros H Hz. pose proof (ti_chain _ _ H) as Hc.
  destruct stk; simpl in Hc; [done|]. destruct Hc as [-> _]. left.
Qed.

Lemma treiber_head_null c stk : treiber_inv c stk -> c_head c = 0 -> stk = [].
Proof.
  intros H Hz. pose proof (ti_chain _ _ H) as Hc.
  destruct stk; simpl in Hc; [done|]. destruct Hc as (? & ? & _). congruence.
Qed.

(** Every step either changes the abstract stack as its label says or leaves it. *)
Lemma treiber_step_simulates (pol : config -> list Z -> Prop) c stk o c' :
  (forall c b, pol c b -> hazard_free c b) ->
  treiber_inv c stk -> treiber_step pol c o c' ->
  exists stk', treiber_inv c' stk' /\
  match o with
  | None => stk' = stk
  | Some (LPush b) => stk' = b ++ stk
  | Some (LPop n) => stk = n :: stk'
  | Some LPopNone => stk = [] /\ stk' = []
  end.
Proof.
  intros Hpol Hinv Hstep.
  destruct Hstep as [n Hz Hk | n v Hn | t b Ht Hb Hnd Hown Hlk Hp | t b Ht | t b cur Ht
    | t b cur Ht Hh | t b cur Ht | t b cur Ht | t Ht | t Ht Hh | t Ht Hh | t cur nx Ht Hnx
    | t cur nx Ht Hh | t cur nx Ht Hh | t cur nx Ht Hh | t cur nx Ht];
    try (pose proof (ti_pc _ _ Hinv _ _ Ht) as Hpc).
  - exists stk. split; [by apply treiber_inv_alloc|done].
  - exists stk. split; [|done]. apply treiber_inv_set_next; [done| |].
    + intros Hs. by apply (ti_stk _ _ Hinv) in Hs as (_ & _ & ?).
    + intros t p H Hin. by destruct (ti_push _ _ Hinv _ _ _ H Hin) as (_ & _ & ? & _).
  - exists stk. split; [|done]. apply treiber_inv_push_start; auto.
  - exists stk. split; [|done]. apply treiber_inv_set_thr; [done|by rewrite Ht|done|done].
  - exists stk. split; [|done]. destruct (ti_batch _ _ Hinv _ _ Ht) as [Hnd Hlk].
    assert (Htl : batch_tail b ∈ b).
    { unfold batch_tail. destruct (last b) eqn:He; [|by apply last_None in He].
      by apply last_Some_elem_of. }
    destruct (ti_push _ _ Hinv _ _ _ Ht Htl) as (_ & _ & _ & Hns & Hone).
    apply treiber_inv_set_thr; simpl; [|by rewrite Ht|by rewrite lookup_insert_eq|done].
    apply treiber_inv_set_next; [done|done|]. intros t' p H Hin.
    assert (t' = t) as -> by eauto. assert (p = PushWrite b cur) as -> by congruence.
    done.
  - exists (b ++ stk). split; [|done]. subst cur. by apply treiber_inv_push_cas.
  - exists stk. split; [|done]. destruct Hpc.
    apply treiber_inv_set_thr; [done|by rewrite Ht|done|done].
  - exists stk. split; [|done]. destruct Hpc.
    apply treiber_inv_set_thr; [done|by rewrite Ht|done|done].
  - exists stk. split; [|done]. apply treiber_inv_set_thr; [done|by rewrite Ht|done|done].
  - pose proof (treiber_head_null c stk Hinv Hh) as ->. exists [].
    split; [by apply treiber_inv_end_thr|done].
  - exists stk. split; [|done]. apply treiber_inv_set_thr; [done|by rewrite Ht|done|].
    intros m <-. left. by apply treiber_head_stk.
  - exists stk. split; [|done]. apply treiber_inv_set_thr; [done|by rewrite Ht|done|].
    intros m <-. right. by exists (PopRead cur).
  - destruct (treiber_inv_pop_cas c stk t cur nx Hinv Ht Hh) as (stk' & -> & Hinv').
    exists stk'. done.
  - pose proof (treiber_head_null c stk Hinv Hh) as ->. exists [].
    split; [by apply treiber_inv_end_thr|done].
  - exists stk. split; [|done]. apply treiber_inv_set_thr; [done|by rewrite Ht|done|].
    intros m <-. left. by apply treiber_head_stk.
  - exists stk. split; [|done]. apply treiber_inv_set_thr; [done|by rewrite Ht|done|done].
Qed.

Lemma treiber_inv_init : treiber_inv config_init [].
Proof. constructor; simpl; try done; intros; (set_solver || constructor). Qed.

Lemma treiber_reach_inv (pol : config -> list Z -> Prop) tr c :
  (forall c b, pol c b -> hazard_free c b) ->
  treiber_reach pol tr c -> exists stk, stack_history tr stk /\ treiber_inv c stk.
Proof.
  intros Hpol. induction 1 as [|tr c o c' _ (stk & Hh & Hinv) Hs].
  - exists []. split; [constructor|apply treiber_inv_init].
  - destruct (treiber_step_simulates pol c stk o c' Hpol Hinv Hs) as (stk' & Hinv' & Ho).
    exists stk'. split; [by eapply stack_history_snoc|done].
Qed.

(** C4: under every interleaving of any number of pushers and poppers that never
    push a node some pop still has loaded, the pushes and pops that took effect form
    the history of a stack, and the list in memory from the head pointer is exactly
    that stack: no node is lost, duplicated or handed to two threads. *)
Theorem treiber_linearizable (pol : config -> list Z -> Prop) tr c :
  (forall c b, pol c b -> hazard_free c b) ->
  treiber_reach pol tr c ->
  exists stk, stack_history tr stk /\ chain (c_next c) (c_head c) stk /\ NoDup stk /\
              forall n, n ∈ stk -> n ∉ c_owned c.
Proof.
  intros Hpol Hr. destruct (treiber_reach_inv pol tr c Hpol Hr) as (stk & Hh & Hinv).
  exists stk. split_and!; [done|apply Hinv|apply Hinv|].
  intros n Hn. by apply (ti_stk _ _ Hinv).
Qed.

(** The node of a first push. *)
Lemma treiber_first_push :
  exists c, treiber_reach hazard_free [LPush [528]] c.
Proof.
  eexists.
  refine (reach_step _ [] _ (Some (LPush [528])) _ _ _).
  { refine (reach_step _ [] _ None _ _ _).
    { refine (reach_step _ [] _ None _ _ _).
      { refine (reach_step _ [] _ None _ _ _).
        { refine (reach_step _ [] _ None _ (reach_init _) _).
          apply (SAlloc _ _ 528); [done|set_solver]. }
        apply (SPushStart _ _ 0 [528]); [done|done|apply NoDup_singleton| |done|].
        - intros n ->%list_elem_of_singleton. set_solver.
        - intros n _ (t & [H|[nx H]]); done. }
      by apply (SPushLoad _ _ 0 [528]). }
    by apply (SPushWrite _ _ 0 [528] 0). }
  by apply (SPushCasOk _ _ 0 [528] 0).
Defined.

Lemma treiber_linearizable_witness :
  exists c stk, treiber_reach hazard_free [LPush [528]] c /\
    stack_history [LPush [528]] stk /\ chain (c_next c) (c_head c) stk.
Proof.
  destruct treiber_first_push as [c Hc].
  destruct (treiber_linearizable hazard_free [LPush [528]] c (fun _ _ H => H) Hc)
    as (stk & H1 & H2 & _).
  exists c, stk. done.
Defined.

(** ** Running the steps

    A schedule names who moves next: a fresh node, the start of a push of one node
    or of a pop, or the next step of a thread, its compare-exchange succeeding when
    the head still is what it loaded. *)










