(* ===== verification/Metadata.v ===== *)
(** * The metadata allocator

    Models [MetadataAllocator] of aethalloc-core/src/magazine.rs: a bump allocator
    of magazine nodes over mmapped pages.  First the calls one after another, then
    every access of [alloc_node] to the two shared atomics as a step of its own. *)

From S2P Require Import Prelude SizeClass Memory Extents AllocSpec Page Magazine.

(** ** Definitions *)

(** [size_of::<MagazineNode>()]: the next pointer, 64 block pointers, the count. *)
Definition NODE_SIZE : Z := 8 + 8 * MAGAZINE_CAPACITY + 8.
Definition NODE_ALIGN : Z := 8.

Record MetadataAllocator : Type := {
  ma_current_page : Z;
  ma_offset : Z
}.

Definition MetadataAllocator_new : MetadataAllocator :=
  {| ma_current_page := 0; ma_offset := PAGE_SIZE |}.

Definition node_aligned (offset : Z) : Z :=
  Z.land (offset +! NODE_ALIGN -! 1) (unot (NODE_ALIGN - 1)).

Section metadata.
Context `{K : Kernel}.

(** Built with the [magazine] feature, which aethalloc-abi turns on. *)
Definition alloc_metadata_page : M memory Z := fun m =>
  match kernel_mmap m PAGE_SIZE with
  | None => Ret (0, m)
  | Some (p, m') => Ret (p, m')
  end.

Definition dealloc_metadata_page (ptr : Z) : M memory unit :=
  modifyS (fun m => (kernel_munmap m ptr PAGE_SIZE).2).

(** One call with no other thread inside: each compare-exchange finds the value
    just loaded. *)
Definition MetadataAllocator_alloc_node : M (memory * MetadataAllocator) Z :=
  s ← getS;
  let offset := ma_offset s.2 in
  let aligned := node_aligned offset in
  if aligned +! NODE_SIZE <=? PAGE_SIZE then
    modifyS (fun s => (s.1, {| ma_current_page := ma_current_page s.2;
                               ma_offset := aligned +! NODE_SIZE |})) ;;
    page ← gets (fun s => ma_current_page s.2);
    mret (page + aligned)
  else
    new_page ← (fun s => match alloc_metadata_page s.1 with
                         | Ret (p, m') => Ret (p, (m', s.2))
                         | Panic => Panic | Fault => Fault | Diverge => Diverge
                         end);
    if new_page =? 0 then mret 0
    else
      modifyS (fun s => (s.1, {| ma_current_page := new_page; ma_offset := ma_offset s.2 |})) ;;
      modifyS (fun s => (s.1, {| ma_current_page := ma_current_page s.2;
                                 ma_offset := NODE_SIZE |})) ;;
      mret new_page.

(** [n] calls in a row. *)
Fixpoint alloc_nodes (n : nat) : M (memory * MetadataAllocator) (list Z) :=
  match n with
  | O => mret []
  | S n' => p ← MetadataAllocator_alloc_node; ps ← alloc_nodes n'; mret (p :: ps)
  end.
End metadata.

(** ** Calls one after another *)

Record meta_wf (ma : MetadataAllocator) : Prop := {
  mw_offset : 0 <= ma_offset ma <= PAGE_SIZE;
  mw_align : ma_offset ma mod 16 = 0
}.

(** What is left of the current page. *)
Definition meta_rest (ma : MetadataAllocator) : Z * Z :=
  (ma_current_page ma + ma_offset ma, PAGE_SIZE - ma_offset ma).

Lemma node_aligned_eq offset :
  0 <= offset <= PAGE_SIZE -> offset mod 16 = 0 -> node_aligned offset = offset.
Proof.
  unfold PAGE_SIZE. intros Ho Ha. unfold node_aligned, NODE_ALIGN.
  rewrite (wrap64_small (offset + 8)) by (unfold is_usize; lia).
  rewrite wrap64_small by (unfold is_usize; lia).
  change (8 - 1) with (2 ^ 3 - 1). rewrite land_unot_pow2 by (unfold is_usize; lia).
  change (2 ^ 3) with 8. mlia.
Qed.

Section sequential.
Context `{K : Kernel} {KS : KernelSpec K}.

(** A call returns null and changes nothing, or carves a node out of what is left
    of the page or out of a fresh one. *)
Lemma alloc_node_wp m ma l (Q : Z -> memory * MetadataAllocator -> Prop) :
  meta_wf ma -> arena m (meta_rest ma :: l) ->
  (PAGE_SIZE < node_aligned (ma_offset ma) +! NODE_SIZE -> kernel_mmap m PAGE_SIZE = None -> Q 0 (m, ma)) ->
  (forall p m' ma', 0 < p -> meta_wf ma' -> mem_extends m m' ->
     arena m' ((p, NODE_SIZE) :: meta_rest ma' :: l) -> Q p (m', ma')) ->
  wp MetadataAllocator_alloc_node Q (m, ma).
Proof.
  intros [Ho Ha] Har Hnull Hnode. unfold MetadataAllocator_alloc_node.
  unfold wp. run_m. cbn [fst snd]. rewrite node_aligned_eq in * by done.
  unfold PAGE_SIZE in Ho. change NODE_SIZE with 528 in *.
  rewrite (wrap64_small (ma_offset ma + 528)) in * by (unfold is_usize; lia).
  destruct (Z.leb_spec (ma_offset ma + 528) PAGE_SIZE) as [Hroom|Hfull].
  - eexists _, _. split; [done|]. unfold PAGE_SIZE in Hroom.
    assert (Hal : (ma_offset ma + 528) mod 16 = 0).
    { mlia. }
    pose proof (arena_ok _ _ _ Har (list_elem_of_here _ _)) as (Hp & Hp16 & _). simpl in Hp, Hp16.
    apply Hnode; [done| |apply mem_extends_refl|].
    + split; simpl; [unfold PAGE_SIZE; lia|done].
    + change ((_, 528) :: meta_rest ?x :: l) with ([(ma_current_page ma + ma_offset ma, 528);
        meta_rest x] ++ l).
      apply (arena_refine _ (meta_rest ma)); [done| |].
      * split; [|done]. constructor; [|done]. apply ext_disj_intro. simpl. lia.
      * unfold sub_ext, meta_rest, PAGE_SIZE. simpl. repeat constructor; simpl; try lia.
        mlia.
  - cbv beta. cbn [fst snd]. unfold alloc_metadata_page. destruct (kernel_mmap m PAGE_SIZE) as [[p m']|] eqn:Hk.
    + pose proof (mmap_spec m PAGE_SIZE p m' ltac:(done) ltac:(done) Hk) as Hf.
      destruct (Z.eqb_spec p 0); [lia|]. eexists _, _. split; [done|].
      apply Hnode; [apply Hf| |by eapply fresh_mapping_extends|].
      * split; simpl; [unfold PAGE_SIZE|]; done.
      * apply fresh_mapping_arena with (l := l) in Hf; [|done|by apply (arena_drop m [meta_rest ma])].
        change ((p, 528) :: meta_rest ?x :: l) with ([(p, 528); meta_rest x] ++ l).
        pose proof (arena_ok _ _ _ Hf (list_elem_of_here _ _)) as (_ & Hp16 & _). simpl in Hp16.
        apply (arena_refine _ (p, PAGE_SIZE)); [done| |].
        -- split; [|done]. constructor; [|done]. apply ext_disj_intro. simpl. lia.
        -- unfold sub_ext, meta_rest, PAGE_SIZE. simpl. repeat constructor; simpl; try lia.
           mlia.
    + simpl. eauto.
Qed.

(** Any number of consecutive [alloc_node] calls return; the nodes that are not
    null are pairwise disjoint 528-byte pieces of mapped memory, also disjoint from
    every extent in use before, whose bytes are unchanged. *)
Theorem alloc_nodes_disjoint n l m ma :
  meta_wf ma -> arena m (meta_rest ma :: l) ->
  exists ps m' ma', alloc_nodes n (m, ma) = Ret (ps, (m', ma')) /\ length ps = n /\
    mem_extends m m' /\
    arena m' (((fun p => (p, NODE_SIZE)) <$> filter (fun p => p <> 0) ps) ++ meta_rest ma' :: l).
Proof.
  revert l m ma. induction n as [|n IH]; intros l m ma Hwf Har.
  - exists [], m, ma. split_and!; try done.
  - assert (wp MetadataAllocator_alloc_node (fun p s =>
      meta_wf s.2 /\ mem_extends m s.1 /\
      arena s.1 (meta_rest s.2 :: (if decide (p <> 0) then [(p, NODE_SIZE)] else []) ++ l)) (m, ma))
      as (p & [m1 ma1] & Hp & Hwf1 & He1 & Har1).
    { apply alloc_node_wp with (l := l); [done..| |].
      - intros _ _. rewrite decide_False by lia. split_and!; try done.
      - intros p m' ma' Hp Hwf' He Har'. rewrite decide_True by lia.
        split_and!; [done|done|]. simpl. by rewrite perm_swap in Har'. }
    destruct (IH _ m1 ma1 Hwf1 Har1) as (ps & m2 & ma2 & Hps & Hlen & He2 & Har2).
    exists (p :: ps), m2, ma2. split_and!.
    + simpl alloc_nodes. run_m. rewrite Hp, Hps. done.
    + simpl. lia.
    + by eapply mem_extends_trans.
    + rewrite filter_cons. revert Har2. case_decide; simpl.
      * apply arena_perm. rewrite Permutation_middle. by rewrite (Permutation_swap).
      * done.
Qed.
End sequential.

Lemma alloc_nodes_disjoint_witness :
  exists ps m' ma',
    alloc_nodes (K := bump_kernel) 9 (Memory [] ∅, MetadataAllocator_new) = Ret (ps, (m', ma')) /\
    length ps = 9%nat /\ mem_extends (Memory [] ∅) m' /\
    arena m' (((fun p => (p, NODE_SIZE)) <$> filter (fun p => p <> 0) ps) ++ [meta_rest ma']).
Proof.
  apply (alloc_nodes_disjoint 9 []).
  - split; simpl; unfold PAGE_SIZE; [lia|done].
  - split; [by split|]. constructor; [|constructor]. split_and!; try done.
    intros i Hi. unfold PAGE_SIZE in Hi. simpl in Hi. lia.
Defined.

(** ** Concurrent calls

    A thread inside [alloc_node] stands before one of its accesses to the shared
    [offset] and [current_page], or before [mmap]. *)

Inductive mpc : Type :=
  | MLoadOffset
  | MCasOffset (offset : Z)
  | MLoadPage (aligned : Z)
  | MMap
  | MLoadCurrent (new_page : Z)
  | MCasPage (new_page current : Z)
  | MStoreOffset (new_page : Z).

(** The two atomics, the pages mapped so far, the threads inside a call and the
    nodes returned so far. *)
Record mconfig : Type := {
  mc_ma : MetadataAllocator;
  mc_mapped : gset Z;
  mc_thr : gmap nat mpc;
  mc_out : list (nat * Z)
}.

Definition mconfig_init : mconfig :=
  {| mc_ma := MetadataAllocator_new; mc_mapped := ∅; mc_thr := ∅; mc_out := [] |}.

Definition m_goto (c : mconfig) (t : nat) (p : mpc) : mconfig :=
  {| mc_ma := mc_ma c; mc_mapped := mc_mapped c; mc_thr := <[t := p]> (mc_thr c);
     mc_out := mc_out c |}.

Definition m_return (c : mconfig) (t : nat) (node : Z) : mconfig :=
  {| mc_ma := mc_ma c; mc_mapped := mc_mapped c; mc_thr := delete t (mc_thr c);
     mc_out := mc_out c ++ [(t, node)] |}.

Definition m_set (c : mconfig) (page offset : Z) : mconfig :=
  {| mc_ma := {| ma_current_page := page; ma_offset := offset |};
     mc_mapped := mc_mapped c; mc_thr := mc_thr c; mc_out := mc_out c |}.

(** Thread [t] makes its next access; [answer] is what [mmap] returns if it is the
    next access ([None] for [MAP_FAILED]).  A compare-exchange succeeds when it
    finds the expected value. *)
Definition meta_exec (c : mconfig) (t : nat) (answer : option Z) : option mconfig :=
  let ma := mc_ma c in
  match mc_thr c !! t with
  | None => Some (m_goto c t MLoadOffset)
  | Some MLoadOffset =>
      if node_aligned (ma_offset ma) +! NODE_SIZE <=? PAGE_SIZE
      then Some (m_goto c t (MCasOffset (ma_offset ma)))
      else Some (m_goto c t MMap)
  | Some (MCasOffset offset) =>
      if ma_offset ma =? offset
      then Some (m_goto (m_set c (ma_current_page ma) (node_aligned offset +! NODE_SIZE)) t
                        (MLoadPage (node_aligned offset)))
      else Some (m_goto c t MLoadOffset)
  | Some (MLoadPage aligned) => Some (m_return c t (ma_current_page ma + aligned))
  | Some MMap =>
      match answer with
      | None => Some (m_return c t 0)
      | Some p =>
          if decide (0 < p /\ p mod PAGE_SIZE = 0 /\ p ∉ mc_mapped c)
          then Some (m_goto {| mc_ma := ma; mc_mapped := {[p]} ∪ mc_mapped c;
                               mc_thr := mc_thr c; mc_out := mc_out c |} t (MLoadCurrent p))
          else None
      end
  | Some (MLoadCurrent np) => Some (m_goto c t (MCasPage np (ma_current_page ma)))
  | Some (MCasPage np current) =>
      if ma_current_page ma =? current
      then Some (m_goto (m_set c np (ma_offset ma)) t (MStoreOffset np))
      else Some (m_goto {| mc_ma := ma; mc_mapped := mc_mapped c ∖ {[np]};
                           mc_thr := mc_thr c; mc_out := mc_out c |} t MLoadOffset)
  | Some (MStoreOffset np) => Some (m_return (m_set c (ma_current_page ma) NODE_SIZE) t np)
  end.

Inductive meta_reach : mconfig -> Prop :=
  | meta_reach_init : meta_reach mconfig_init
  | meta_reach_step c t answer c' :
      meta_reach c -> meta_exec c t answer = Some c' -> meta_reach c'.

Fixpoint meta_schedule (c : mconfig) (l : list (nat * option Z)) : option mconfig :=
  match l with
  | [] => Some c
  | (t, answer) :: l' => c' ← meta_exec c t answer; meta_schedule c' l'
  end.

Lemma meta_schedule_reach l : forall c c',
  meta_reach c -> meta_schedule c l = Some c' -> meta_reach c'.
Proof.
  induction l as [|[t a] l IH]; intros c c' Hr Hs; simpl in Hs; [by simplify_eq|].
  destruct (meta_exec c t a) as [c1|] eqn:He; simplify_eq/=.
  eapply IH; [|done]. by eapply meta_reach_step.
Qed.

(** Thread 1 installs a page and is stopped before it resets the offset; thread 2,
    seeing the old offset, installs another page and resets it; thread 3 takes the
    second node of that page; thread 1 resets the offset again; thread 4 takes the
    second node of the same page. *)
Definition reset_race : list (nat * option Z) :=
  [(1%nat, None); (1%nat, None); (1%nat, Some 65536); (1%nat, None); (1%nat, None);
   (2%nat, None); (2%nat, None); (2%nat, Some 69632); (2%nat, None); (2%nat, None); (2%nat, None);
   (3%nat, None); (3%nat, None); (3%nat, None); (3%nat, None);
   (1%nat, None);
   (4%nat, None); (4%nat, None); (4%nat, None); (4%nat, None)].

(** C21: [alloc_node] is not safe under concurrency: changing the page and resetting
    the offset are two separate writes, and an interleaving of four threads that
    share a fresh allocator makes two of the calls return the same node. *)
Theorem alloc_node_race_duplicates :
  exists c t1 t2 node, meta_reach c /\ t1 <> t2 /\ node <> 0 /\
    (t1, node) ∈ mc_out c /\ (t2, node) ∈ mc_out c.
Proof.
  assert (exists c, meta_schedule mconfig_init reset_race = Some c /\
    mc_out c = [(2%nat, 69632); (3%nat, 70160); (1%nat, 65536); (4%nat, 70160)]) as (c & Hs & Ho).
  { eexists. split; [vm_compute; reflexivity|reflexivity]. }
  apply (meta_schedule_reach _ _ _ meta_reach_init) in Hs.
  exists c, 3%nat, 4%nat, 70160. rewrite Ho. split_and!; [done..|set_solver|set_solver].
Qed.
