(* ===== verification/Metrics.v ===== *)
(** * Metrics counters

    Models [GlobalMetrics], [MetricsSnapshot], [ThreadMetrics] and
    [flush_thread_metrics] of aethalloc-abi/src/global.rs: per-thread counters
    that are added to the global ones when enough operations have gathered. *)

From S2P Require Import Prelude.

(** ** Definitions *)

Definition METRICS_FLUSH_THRESHOLD : Z := 4096.

(** One record type for the per-thread [usize] counters, the global [AtomicU64]s
    and the snapshot, which have the same five fields. *)
Record Metrics : Type := {
  allocs : Z;
  frees : Z;
  cache_hits : Z;
  cache_misses : Z;
  direct_allocs : Z
}.

Definition GlobalMetrics_new : Metrics :=
  {| allocs := 0; frees := 0; cache_hits := 0; cache_misses := 0; direct_allocs := 0 |}.

Definition ThreadMetrics_new : Metrics :=
  {| allocs := 0; frees := 0; cache_hits := 0; cache_misses := 0; direct_allocs := 0 |}.

Definition GlobalMetrics_snapshot (g : Metrics) : Metrics :=
  {| allocs := allocs g; frees := frees g; cache_hits := cache_hits g;
     cache_misses := cache_misses g; direct_allocs := direct_allocs g |}.

(** The five [fetch_add]s, which wrap. *)
Definition fetch_add_all (g t : Metrics) : Metrics :=
  {| allocs := allocs g +! allocs t;
     frees := frees g +! frees t;
     cache_hits := cache_hits g +! cache_hits t;
     cache_misses := cache_misses g +! cache_misses t;
     direct_allocs := direct_allocs g +! direct_allocs t |}.

(** The state is the global and the calling thread's counters: the [fetch_add]s of a
    flush one by one. *)
Definition fetch_add_allocs (s : Metrics * Metrics) : Metrics * Metrics :=
  ({| allocs := allocs s.1 +! allocs s.2; frees := frees s.1; cache_hits := cache_hits s.1;
      cache_misses := cache_misses s.1; direct_allocs := direct_allocs s.1 |}, s.2).

Definition fetch_add_frees (s : Metrics * Metrics) : Metrics * Metrics :=
  ({| allocs := allocs s.1; frees := frees s.1 +! frees s.2; cache_hits := cache_hits s.1;
      cache_misses := cache_misses s.1; direct_allocs := direct_allocs s.1 |}, s.2).

Definition fetch_add_hits (s : Metrics * Metrics) : Metrics * Metrics :=
  ({| allocs := allocs s.1; frees := frees s.1; cache_hits := cache_hits s.1 +! cache_hits s.2;
      cache_misses := cache_misses s.1; direct_allocs := direct_allocs s.1 |}, s.2).

Definition fetch_add_misses (s : Metrics * Metrics) : Metrics * Metrics :=
  ({| allocs := allocs s.1; frees := frees s.1; cache_hits := cache_hits s.1;
      cache_misses := cache_misses s.1 +! cache_misses s.2; direct_allocs := direct_allocs s.1 |}, s.2).

Definition fetch_add_direct (s : Metrics * Metrics) : Metrics * Metrics :=
  ({| allocs := allocs s.1; frees := frees s.1; cache_hits := cache_hits s.1;
      cache_misses := cache_misses s.1; direct_allocs := direct_allocs s.1 +! direct_allocs s.2 |}, s.2).

Definition reset_counters (s : Metrics * Metrics) : Metrics * Metrics := (s.1, ThreadMetrics_new).

Definition ThreadMetrics_maybe_flush : M (Metrics * Metrics) unit :=
  s ← getS;
  if METRICS_FLUSH_THRESHOLD <=? allocs s.2 +! frees s.2 then
    modifyS (fun s => (fetch_add_all s.1 s.2, ThreadMetrics_new))
  else mret tt.

Definition flush_thread_metrics : M (Metrics * Metrics) unit :=
  modifyS (fun s => (fetch_add_all s.1 s.2, ThreadMetrics_new)).

(** What the allocator counts, one event per call that gets to it. *)
Inductive event : Type :=
  | EvHit
  | EvMiss
  | EvDirect
  | EvFree.

Definition count_event (e : event) (t : Metrics) : Metrics :=
  match e with
  | EvHit => {| allocs := allocs t +! 1; frees := frees t; cache_hits := cache_hits t +! 1;
                cache_misses := cache_misses t; direct_allocs := direct_allocs t |}
  | EvMiss => {| allocs := allocs t +! 1; frees := frees t; cache_hits := cache_hits t;
                 cache_misses := cache_misses t +! 1; direct_allocs := direct_allocs t |}
  | EvDirect => {| allocs := allocs t +! 1; frees := frees t; cache_hits := cache_hits t;
                   cache_misses := cache_misses t; direct_allocs := direct_allocs t +! 1 |}
  | EvFree => {| allocs := allocs t; frees := frees t +! 1; cache_hits := cache_hits t;
                 cache_misses := cache_misses t; direct_allocs := direct_allocs t |}
  end.

(** A thread counts an event and maybe flushes. *)
Definition record_event (e : event) : M (Metrics * Metrics) unit :=
  modifyS (fun s => (s.1, count_event e s.2)) ;; ThreadMetrics_maybe_flush.

(** Several threads, each with its own counters, in any order. *)
Fixpoint record_events (l : list (nat * event)) (g : Metrics) (ts : list Metrics)
    : outcome (Metrics * list Metrics) :=
  match l with
  | [] => Ret (g, ts)
  | (i, e) :: l' =>
      match ts !! i with
      | None => Panic
      | Some t =>
          match record_event e (g, t) with
          | Ret (_, (g', t')) => record_events l' g' (<[i := t']> ts)
          | Panic => Panic | Fault => Fault | Diverge => Diverge
          end
      end
  end.

(** ** Nothing is lost *)

(** The specification: five exact counts. *)
Definition tally (f : event -> Z) (l : list (nat * event)) : Z :=
  foldr (fun x acc => f x.2 + acc) 0 l.

Definition is_alloc (e : event) : Z := match e with EvFree => 0 | _ => 1 end.
Definition is_free (e : event) : Z := match e with EvFree => 1 | _ => 0 end.
Definition is_hit (e : event) : Z := match e with EvHit => 1 | _ => 0 end.
Definition is_miss (e : event) : Z := match e with EvMiss => 1 | _ => 0 end.
Definition is_direct (e : event) : Z := match e with EvDirect => 1 | _ => 0 end.

(** A field's total over the global counters and every thread's. *)
Definition total (f : Metrics -> Z) (g : Metrics) (ts : list Metrics) : Z :=
  f g + foldr (fun t acc => f t + acc) 0 ts.

(** The counters never fail. *)

Lemma maybe_flush_total x : wp ThreadMetrics_maybe_flush (fun _ _ => True) x.
Proof.
  unfold wp, ThreadMetrics_maybe_flush. run_m. destruct (_ <=? _); eauto.
Qed.

Lemma record_event_total e x : wp (record_event e) (fun _ _ => True) x.
Proof. apply wp_bind, wp_modify, maybe_flush_total. Qed.

Lemma count_event_total e x :
  wp (modifyS (fun s : Metrics * Metrics => (s.1, count_event e s.2))) (fun _ _ => True) x.
Proof. by apply wp_modify. Qed.

#[export] Hint Resolve maybe_flush_total record_event_total count_event_total : aeth.

Lemma total_insert f g g' ts i t t' :
  ts !! i = Some t -> total f g' (<[i := t']> ts) = total f g ts + (f g' - f g) + (f t' - f t).
Proof.
  unfold total. revert i. induction ts as [|t0 ts IH]; intros [|i] H; simplify_eq/=; [lia|].
  specialize (IH i H). lia.
Qed.

(** The fields a step touches, each paired with what the step adds to it. *)
Definition counters : list ((Metrics -> Z) * (event -> Z)) :=
  [(allocs, is_alloc); (frees, is_free); (cache_hits, is_hit); (cache_misses, is_miss);
   (direct_allocs, is_direct)].

(** A fact about every counter, one case per counter. *)
Lemma counters_case (P : (Metrics -> Z) -> (event -> Z) -> Prop) :
  P allocs is_alloc -> P frees is_free -> P cache_hits is_hit -> P cache_misses is_miss ->
  P direct_allocs is_direct -> forall f w, (f, w) ∈ counters -> P f w.
Proof.
  intros ????? f w Hf. unfold counters in Hf. rewrite !elem_of_cons, elem_of_nil in Hf.
  destruct Hf as [?|[?|[?|[?|[?|[]]]]]]; by simplify_eq.
Qed.

Lemma count_field f w e t : (f, w) ∈ counters -> f (count_event e t) mod 2 ^ 64 = (f t + w e) mod 2 ^ 64.
Proof.
  revert f w. apply counters_case; destruct e; simpl; unfold wrap64; by rewrite ?Zmod_mod, ?Z.add_0_r.
Qed.

(** A flush moves counts, it adds none. *)
Lemma flush_adds g c a g' c' f w :
  ThreadMetrics_maybe_flush (g, c) = Ret (a, (g', c')) -> (f, w) ∈ counters -> (f g' + f c') mod 2 ^ 64 = (f g + f c) mod 2 ^ 64.
Proof.
  unfold ThreadMetrics_maybe_flush. run_m. destruct (_ <=? _); intros [= <- <- <-]; [|done]. cbn [fst snd].
  revert f w. apply counters_case; simpl; unfold wrap64; by rewrite Z.add_0_r, Zmod_mod.
Qed.

Lemma record_event_adds e g t :
  exists g' t', record_event e (g, t) = Ret (tt, (g', t')) /\
  forall f w, (f, w) ∈ counters ->
    (f g' + f t') mod 2 ^ 64 = (f g + f t + w e) mod 2 ^ 64.
Proof.
  destruct (maybe_flush_total (g, count_event e t)) as ([] & [g' t'] & Hr & _). exists g', t'. split; [exact Hr|].
  intros f w Hf. rewrite (flush_adds _ _ _ _ _ _ _ Hr Hf).
  rewrite <- Z.add_mod_idemp_r, (count_field f w e t Hf), Z.add_mod_idemp_r by lia. f_equal. lia.
Qed.

(** Whatever the threads do and whenever they flush, no event is lost or
    counted twice: for each of the five counters, the global value plus every
    thread's unflushed value is the number of such events, modulo [2^64]. *)
Theorem metrics_conserved n l :
  Forall (fun x => (x.1 < n)%nat) l ->
  exists g ts, record_events l GlobalMetrics_new (replicate n ThreadMetrics_new) = Ret (g, ts) /\
  forall f w, (f, w) ∈ counters -> total f g ts mod 2 ^ 64 = tally w l mod 2 ^ 64.
Proof.
  assert (Hgen : forall l g ts, Forall (fun x => (x.1 < length ts)%nat) l ->
    exists g' ts', record_events l g ts = Ret (g', ts') /\
    forall f w, (f, w) ∈ counters ->
      total f g' ts' mod 2 ^ 64 = (total f g ts + tally w l) mod 2 ^ 64).
  { clear l. induction l as [|[i e] l IH]; intros g ts Hl.
    - exists g, ts. split; [done|]. intros. simpl. f_equal. lia.
    - apply Forall_cons in Hl as [Hi Hl]. simpl in Hi.
      destruct (lookup_lt_is_Some_2 ts i Hi) as [t Ht].
      destruct (record_event_adds e g t) as (g1 & t1 & Hr & Hadd).
      destruct (IH g1 (<[i := t1]> ts)) as (g' & ts' & Hrs & Htot).
      { by rewrite length_insert. }
      exists g', ts'. simpl. rewrite Ht, Hr. split; [done|]. intros f w Hf.
      rewrite (Htot f w Hf), (total_insert f g g1 ts i t t1 Ht). specialize (Hadd f w Hf).
      replace (total f g ts + (f g1 - f g) + (f t1 - f t) + tally w l)
        with ((f g1 + f t1) + (total f g ts - f g - f t + tally w l)) by lia.
      rewrite <- Z.add_mod_idemp_l, Hadd, Z.add_mod_idemp_l by lia. f_equal. lia. }
  intros Hl. destruct (Hgen l GlobalMetrics_new (replicate n ThreadMetrics_new))
    as (g & ts & Hr & Ht). { by rewrite length_replicate. }
  exists g, ts. split; [done|]. intros f w Hf. rewrite (Ht f w Hf). f_equal.
  assert (total f GlobalMetrics_new (replicate n ThreadMetrics_new) = 0); [|lia].
  unfold total. assert (f GlobalMetrics_new = 0) as Hz.
  { clear -Hf. revert f w Hf. by apply counters_case. }
  rewrite Hz. clear -Hz. change ThreadMetrics_new with GlobalMetrics_new.
  induction n as [|n IH]; simpl; lia.
Qed.

Lemma metrics_conserved_witness :
  exists g ts, record_events [(0%nat, EvHit); (1%nat, EvMiss); (0%nat, EvFree)]
                 GlobalMetrics_new (replicate 2 ThreadMetrics_new) = Ret (g, ts) /\
  forall f w, (f, w) ∈ counters ->
    total f g ts mod 2 ^ 64 = tally w [(0%nat, EvHit); (1%nat, EvMiss); (0%nat, EvFree)] mod 2 ^ 64.
Proof. apply (metrics_conserved 2). repeat constructor; simpl; lia. Defined.
