(* ===== verification/Headers.v ===== *)
(** * Headers and pages: what the two modes of the allocator share

    The part of aethalloc-abi/src/global.rs that works on memory alone: the two
    headers, [align_up], allocations with pages of their own, the reads by which
    [dealloc] and [get_alloc_size] tell what a pointer is, and [get_alloc_size].  The
    second half says when the headers of the live allocations are intact and that
    the arena they are part of survives the operations. *)

From S2P Require Import Prelude SizeClass Memory Extents AllocSpec Page.

(** ** Constants and data *)

Definition PAGE_MASK : Z := unot (PAGE_SIZE - 1).
Definition MAX_CACHE_SIZE : Z := 65536.
Definition NUM_SIZE_CLASSES : Z := 14.
Definition MAGIC : Z := 0xA7E8A110.
Definition LARGE_MAGIC : Z := 0xA7E8A11F.
Definition PAGE_HEADER_SIZE : Z := 16.
Definition CACHE_HEADER_SIZE : Z := 16.
Definition LARGE_HEADER_SIZE : Z := 16.

(** [#[repr(C)]]: [magic] at 0, [num_pages] at 4, [requested_size] at 8. *)
Record PageHeader : Type := {
  ph_magic : Z;
  ph_num_pages : Z;
  ph_requested_size : Z
}.

(** [#[repr(C)]]: [magic] at 0, [base_ptr] at 8. *)
Record LargeAllocHeader : Type := {
  lh_magic : Z;
  lh_base_ptr : Z
}.

(** ** Reading and writing *)

Definition load32_at (a : Z) : M memory Z := m ← getS; or_fault (load32 m a).
Definition load64_at (a : Z) : M memory Z := m ← getS; or_fault (load64 m a).

Definition store32_at (a v : Z) : M memory unit :=
  m ← getS; m' ← or_fault (store32 m a v); modifyS (fun _ => m').
Definition store64_at (a v : Z) : M memory unit :=
  m ← getS; m' ← or_fault (store64 m a v); modifyS (fun _ => m').

Definition read_page_header (a : Z) : M memory PageHeader :=
  magic ← load32_at a;
  num_pages ← load32_at (a + 4);
  requested_size ← load64_at (a + 8);
  mret {| ph_magic := magic; ph_num_pages := num_pages; ph_requested_size := requested_size |}.

Definition write_page_header (a : Z) (h : PageHeader) : M memory unit :=
  store32_at a (ph_magic h) ;;
  store32_at (a + 4) (ph_num_pages h) ;;
  store64_at (a + 8) (ph_requested_size h).

Definition read_large_header (a : Z) : M memory LargeAllocHeader :=
  magic ← load32_at a;
  base_ptr ← load64_at (a + 8);
  mret {| lh_magic := magic; lh_base_ptr := base_ptr |}.

Definition write_large_header (a : Z) (h : LargeAllocHeader) : M memory unit :=
  store32_at a (lh_magic h) ;;
  store64_at (a + 8) (lh_base_ptr h).

Definition align_up (addr align : Z) : Z := Z.land (addr +! align -! 1) (unot (align -! 1)).

Definition page_header_from_ptr (ptr : Z) : Z := Z.land ptr PAGE_MASK.

(** ** Large allocations *)

Section operations.
Context `{K : Kernel}.

(** The two headers of an allocation with the [pages] at [base]; the pointer to return. *)
Definition write_headers (size align pages base : Z) : M memory Z :=
  write_page_header base {| ph_magic := MAGIC; ph_num_pages := wrap32 pages;
                            ph_requested_size := size |} ;;
  let user_addr := align_up (base +! PAGE_HEADER_SIZE +! LARGE_HEADER_SIZE) align in
  write_large_header (user_addr - LARGE_HEADER_SIZE)
    {| lh_magic := LARGE_MAGIC; lh_base_ptr := base |} ;;
  mret user_addr.

(** An allocation with pages of its own: the code of [alloc] after the counters of a
    direct allocation. *)
Definition large_alloc (size align : Z) : M memory Z :=
  let min_size := PAGE_HEADER_SIZE +! LARGE_HEADER_SIZE +! size +! align in
  let pages := Z.max (div_ceil min_size PAGE_SIZE) 1 in
  r ← PageAllocator_alloc pages;
  match r with
  | Some base => write_headers size align pages base
  | None => mret 0
  end.

(** The pages a page header describes go back to the kernel. *)
Definition release_pages (base : Z) (h : PageHeader) : M memory unit :=
  if (ph_magic h =? MAGIC) && (0 <? ph_num_pages h)
  then PageAllocator_dealloc base (ph_num_pages h)
  else mret tt.
End operations.

(** ** What a pointer is *)

(** By the large header in front of it, by the size in front of it, or by the
    header of its page. *)
Inductive found : Type :=
  | FLarge (base : Z) (h : PageHeader)
  | FSmall (size_ptr maybe_size : Z)
  | FPage (header : Z) (h : PageHeader).

Definition find_by_page (ptr : Z) : M memory found :=
  let header := page_header_from_ptr ptr in
  h ← read_page_header header;
  mret (FPage header h).

(** The reads of [dealloc] and [get_alloc_size], in their order. *)
Definition find_alloc (ptr : Z) : M memory found :=
  lh ← read_large_header (ptr - LARGE_HEADER_SIZE);
  if lh_magic lh =? LARGE_MAGIC then
    h ← read_page_header (lh_base_ptr lh);
    mret (FLarge (lh_base_ptr lh) h)
  else
    let size_ptr := ptr - CACHE_HEADER_SIZE in
    maybe_size ← load64_at size_ptr;
    if (0 <? maybe_size) && (maybe_size <=? MAX_CACHE_SIZE) then
      h ← read_page_header size_ptr;
      if negb (ph_magic h =? MAGIC) then mret (FSmall size_ptr maybe_size) else find_by_page ptr
    else find_by_page ptr.

(** [get_alloc_size], which [realloc] uses. *)
Definition get_alloc_size (ptr : Z) : M memory Z :=
  if ptr =? 0 then mret 0
  else
    r ← find_alloc ptr;
    match r with
    | FLarge _ h | FPage _ h => mret (if ph_magic h =? MAGIC then ph_requested_size h else 0)
    | FSmall _ maybe_size => mret maybe_size
    end.

(** ** Live allocations *)

Definition block_size (c : Z) : Z := class_size c + CACHE_HEADER_SIZE.

(** A live allocation: one block of a class, or pages of its own. *)
Inductive alloc_kind : Type :=
  | ASmall (size : Z)
  | ALarge (base pages size : Z).

Definition kind_size (k : alloc_kind) : Z :=
  match k with ASmall size => size | ALarge _ _ size => size end.

(** The memory behind a user pointer, headers included. *)
Definition live_ext (x : Z * alloc_kind) : Z * Z :=
  match x.2 with
  | ASmall size => (x.1 - CACHE_HEADER_SIZE, block_size (default 0 (size_to_class size)))
  | ALarge base pages _ => (base, pages * PAGE_SIZE)
  end.

(** The bytes the client may use. *)
Definition user_ext (x : Z * alloc_kind) : Z * Z := (x.1, kind_size x.2).

(** What the headers of a live allocation hold. *)
Definition live_ok (m : memory) (x : Z * alloc_kind) : Prop :=
  let p := x.1 in
  match x.2 with
  | ASmall size => 0 < size <= MAX_CACHE_SIZE /\ load64 m (p - CACHE_HEADER_SIZE) = Some size
  | ALarge base pages size =>
      0 < pages < 2 ^ 52 /\ base mod PAGE_SIZE = 0 /\ 0 < base /\ 0 < size /\ p mod 16 = 0 /\
      base + PAGE_HEADER_SIZE + LARGE_HEADER_SIZE <= p /\ p + size <= base + pages * PAGE_SIZE /\
      load32 m (p - LARGE_HEADER_SIZE) = Some LARGE_MAGIC /\
      load64 m (p - LARGE_HEADER_SIZE + 8) = Some base /\
      load32 m base = Some MAGIC /\
      load32 m (base + 4) = Some (wrap32 pages) /\
      load64 m (base + 8) = Some size
  end.

(** The live allocations [L] and the extents [E] kept by the allocator are one
    arena, and the headers of the former are intact. *)
Definition Live (m : memory) (L : list (Z * alloc_kind)) (E : list (Z * Z)) : Prop :=
  arena m ((live_ext <$> L) ++ E) /\ Forall (live_ok m) L.

(** ** Blocks and headers *)

Lemma block_size_class c : 0 <= c <= 12 -> 32 <= block_size c <= 65552.
Proof.
  intros Hc. unfold block_size, CACHE_HEADER_SIZE.
  pose proof (class_size_pos c). pose proof (class_size_le c). lia.
Qed.

Lemma block_size_ge c : 0 <= c -> 32 <= block_size c.
Proof. intros Hc. unfold block_size, CACHE_HEADER_SIZE. pose proof (class_size_pos c Hc). lia. Qed.

(** The block size as the code computes it. *)
Lemma block_size_eq c : 0 <= c <= 12 -> class_size c +! CACHE_HEADER_SIZE = block_size c.
Proof.
  intros Hc. pose proof (block_size_class c Hc). apply wrap64_small. unfold is_usize.
  change (0 <= block_size c < 2 ^ 64). lia.
Qed.

Lemma block_size_mod16 c : block_size c mod 16 = 0.
Proof. unfold block_size, CACHE_HEADER_SIZE. pose proof (class_size_mod16 c). mlia. Qed.

Lemma small_class m p size :
  live_ok m (p, ASmall size) ->
  exists c, size_to_class size = Some c /\ 0 <= c <= 12 /\ size <= class_size c /\
            live_ext (p, ASmall size) = (p - CACHE_HEADER_SIZE, block_size c).
Proof.
  intros [Hs _]. destruct (size_to_class_total size) as (c & Hc & Hr & _ & Hle & _); [done|].
  exists c. split_and!; try done; try lia. unfold live_ext. simpl. by rewrite Hc.
Qed.

(** The client's bytes are part of the allocation. *)
Lemma user_ext_sub m x : live_ok m x -> sub_ext (user_ext x) (live_ext x).
Proof.
  destruct x as [p [size|base pages size]]; intros Hok.
  - destruct (small_class _ _ _ Hok) as (c & _ & Hc & Hle & ->).
    unfold sub_ext, user_ext, block_size, CACHE_HEADER_SIZE. cbn [fst snd kind_size]. lia.
  - destruct Hok as (? & ? & ? & ? & ? & ? & ? & _). unfold sub_ext, user_ext, live_ext,
      PAGE_HEADER_SIZE, LARGE_HEADER_SIZE in *. simpl in *. lia.
Qed.

(** The headers are what the invariant relies on: writes to the client's bytes, or
    outside the allocation, do not matter. *)
Lemma live_ok_agree m m' x :
  (forall i, in_ext i (live_ext x) -> ~ in_ext i (user_ext x) -> load8 m' i = load8 m i) ->
  live_ok m x -> live_ok m' x.
Proof.
  intros Hag Hok. pose proof (user_ext_sub m x Hok) as Hsub. destruct x as [p [size|base pages size]].
  - destruct (small_class _ _ _ Hok) as (c & _ & Hc & Hle & He). rewrite He in *.
    destruct Hok as [Hs Hl]. split; [done|]. rewrite <- Hl. apply load_le_agree.
    intros i Hi. symmetry. apply Hag; unfold in_ext, user_ext; cbn [fst snd kind_size] in *;
      pose proof (block_size_class c Hc); unfold CACHE_HEADER_SIZE in *; lia.
  - destruct Hok as (H1 & H2 & H3 & H4 & H7 & H5 & H6 & L1 & L2 & L3 & L4 & L5).
    unfold live_ok, in_ext, user_ext, live_ext, PAGE_SIZE, PAGE_HEADER_SIZE, LARGE_HEADER_SIZE in *.
    cbn [fst snd kind_size] in *. split_and!; try done; try lia; [rewrite <- L1|rewrite <- L2|rewrite <- L3|rewrite <- L4|
      rewrite <- L5]; apply load_le_agree; intros i Hi; symmetry; apply Hag; lia.
Qed.

Lemma load_le_changes n m m' a b k v :
  changes_only m m' b k -> a + Z.of_nat n <= b \/ b + k <= a ->
  load_le n m a = Some v -> load_le n m' a = Some v.
Proof.
  intros Hch Hd <-. apply load_le_agree. eapply changes_only_agree; [done|lia].
Qed.

Lemma store64_at_wp a v m (Q : unit -> memory -> Prop) :
  accessible m a 8 -> is_usize v ->
  (forall m', changes_only m m' a 8 -> load64 m' a = Some v -> Q tt m') ->
  wp (store64_at a v) Q m.
Proof.
  intros Ha Hv HQ. destruct (store_le_total 8 m a v Ha) as [m' Hm'].
  unfold store64_at. apply wp_bind, wp_gets. apply wp_bind. eapply wp_or_fault; [exact Hm'|].
  apply wp_modify. apply HQ; [by apply store_le_changes in Hm'|by apply load_store_64 in Hm'].
Qed.

Lemma store32_at_wp a v m (Q : unit -> memory -> Prop) :
  accessible m a 4 -> 0 <= v < 2 ^ 32 ->
  (forall m', changes_only m m' a 4 -> load32 m' a = Some v -> Q tt m') ->
  wp (store32_at a v) Q m.
Proof.
  intros Ha Hv HQ. destruct (store_le_total 4 m a v Ha) as [m' Hm'].
  unfold store32_at. apply wp_bind, wp_gets. apply wp_bind. eapply wp_or_fault; [exact Hm'|].
  apply wp_modify. apply HQ; [by apply store_le_changes in Hm'|by apply load_store_32 in Hm'].
Qed.

Lemma load32_at_wp a v m (Q : Z -> memory -> Prop) :
  load32 m a = Some v -> Q v m -> wp (load32_at a) Q m.
Proof. intros Hl HQ. apply wp_bind, wp_gets. by eapply wp_or_fault. Qed.

Lemma load64_at_wp a v m (Q : Z -> memory -> Prop) :
  load64 m a = Some v -> Q v m -> wp (load64_at a) Q m.
Proof. intros Hl HQ. apply wp_bind, wp_gets. by eapply wp_or_fault. Qed.

Lemma read_large_header_wp a magic base m (Q : LargeAllocHeader -> memory -> Prop) :
  load32 m a = Some magic -> load64 m (a + 8) = Some base ->
  Q {| lh_magic := magic; lh_base_ptr := base |} m -> wp (read_large_header a) Q m.
Proof.
  intros H1 H2 HQ. apply wp_bind. eapply load32_at_wp; [done|].
  apply wp_bind. eapply load64_at_wp; [done|]. by apply wp_ret.
Qed.

Lemma read_page_header_wp a magic pages size m (Q : PageHeader -> memory -> Prop) :
  load32 m a = Some magic -> load32 m (a + 4) = Some pages ->
  load64 m (a + 8) = Some size ->
  Q {| ph_magic := magic; ph_num_pages := pages; ph_requested_size := size |} m ->
  wp (read_page_header a) Q m.
Proof.
  intros H1 H2 H3 HQ. apply wp_bind. eapply load32_at_wp; [done|].
  apply wp_bind. eapply load32_at_wp; [done|].
  apply wp_bind. eapply load64_at_wp; [done|]. by apply wp_ret.
Qed.

Lemma write_page_header_wp a h m (Q : unit -> memory -> Prop) :
  accessible m a 16 -> 0 <= ph_magic h < 2 ^ 32 -> 0 <= ph_num_pages h < 2 ^ 32 ->
  is_usize (ph_requested_size h) ->
  (forall m', changes_only m m' a 16 -> load32 m' a = Some (ph_magic h) ->
     load32 m' (a + 4) = Some (ph_num_pages h) -> load64 m' (a + 8) = Some (ph_requested_size h) ->
     Q tt m') ->
  wp (write_page_header a h) Q m.
Proof.
  intros Ha H1 H2 H3 HQ. unfold write_page_header.
  apply wp_bind. apply store32_at_wp; [eapply accessible_sub; [done|lia|lia]|done|].
  intros m1 C1 L1. pose proof (changes_only_accessible _ _ _ _ _ _ C1 Ha) as Ha1.
  apply wp_bind. apply store32_at_wp; [eapply accessible_sub; [done|lia|lia]|done|].
  intros m2 C2 L2. pose proof (changes_only_accessible _ _ _ _ _ _ C2 Ha1) as Ha2.
  apply store64_at_wp; [eapply accessible_sub; [done|lia|lia]|done|]. simpl.
  intros m3 C3 L3. apply HQ.
  - eapply changes_only_trans; [eapply changes_only_trans|];
      (eapply changes_only_weaken; [done|lia|lia]).
  - eapply load_le_changes; [exact C3|simpl; lia|]. eapply load_le_changes; [exact C2|simpl; lia|done].
  - eapply load_le_changes; [exact C3|simpl; lia|done].
  - done.
Qed.

Lemma write_large_header_wp a h m (Q : unit -> memory -> Prop) :
  accessible m a 16 -> 0 <= lh_magic h < 2 ^ 32 -> is_usize (lh_base_ptr h) ->
  (forall m', changes_only m m' a 16 -> load32 m' a = Some (lh_magic h) ->
     load64 m' (a + 8) = Some (lh_base_ptr h) -> Q tt m') ->
  wp (write_large_header a h) Q m.
Proof.
  intros Ha H1 H2 HQ. unfold write_large_header.
  apply wp_bind. apply store32_at_wp; [eapply accessible_sub; [done|lia|lia]|done|].
  intros m1 C1 L1. pose proof (changes_only_accessible _ _ _ _ _ _ C1 Ha) as Ha1.
  apply store64_at_wp; [eapply accessible_sub; [done|lia|lia]|done|]. simpl.
  intros m2 C2 L2. apply HQ.
  - eapply changes_only_trans; (eapply changes_only_weaken; [done|lia|lia]).
  - eapply load_le_changes; [exact C2|simpl; lia|done].
  - done.
Qed.

Lemma page_blocks c base :
  0 <= c <= 12 -> base mod PAGE_SIZE = 0 -> 1 < PAGE_SIZE / block_size c ->
  let n := Z.to_nat (PAGE_SIZE / block_size c - 1) in
  all_disjoint (carve base (block_size c) (S n)) /\
  Forall (fun p => sub_ext p (base, 1 * PAGE_SIZE) /\ p.1 mod 16 = 0 /\ 0 <= p.2)
    (carve base (block_size c) (S n)).
Proof.
  intros Hc Hb H1 n. pose proof (block_size_class c Hc) as Hbs. split; [apply carve_disjoint; lia|].
  pose proof (Z.mul_div_le PAGE_SIZE (block_size c) ltac:(lia)).
  rewrite Forall_forall. intros e He. split.
  - eapply carve_sub; [| |done]; [lia|].
    replace (Z.of_nat (S n)) with (PAGE_SIZE / block_size c) by lia. lia.
  - apply carve_elem in He as (i & Hi & ->). cbn [fst snd]. split; [|lia].
    pose proof (block_size_mod16 c) as Hm. unfold PAGE_SIZE in Hb.
    apply Z.mod_divide in Hm as [q ->]; [|done]. mlia.
Qed.

(** [align_up] gives the least multiple of the alignment not below its argument. *)
Lemma align_up_spec addr k :
  0 <= k <= 63 -> 0 <= addr -> addr + 2 ^ k <= 2 ^ 64 ->
  align_up addr (2 ^ k) mod 2 ^ k = 0 /\ addr <= align_up addr (2 ^ k) < addr + 2 ^ k /\
  (addr mod 16 = 0 -> align_up addr (2 ^ k) mod 16 = 0).
Proof.
  intros Hk Ha Ht. pose proof (pow2_pos k ltac:(lia)) as Hp.
  pose proof (pow2_le k 63 ltac:(lia)) as Hle.
  assert (He : align_up addr (2 ^ k) =
    (addr + 2 ^ k - 1) - (addr + 2 ^ k - 1) mod 2 ^ k).
  { unfold align_up. rewrite (wrap64_small (2 ^ k - 1)) by (unfold is_usize; lia).
    replace (addr +! 2 ^ k -! 1) with (addr + 2 ^ k - 1).
    - apply land_unot_pow2; unfold is_usize; lia.
    - unfold wrap64. rewrite Zminus_mod_idemp_l. symmetry. apply Z.mod_small. lia. }
  pose proof (Z.mod_pos_bound (addr + 2 ^ k - 1) (2 ^ k) ltac:(lia)) as Hb.
  assert (Hal : align_up addr (2 ^ k) mod 2 ^ k = 0).
  { rewrite He, Zminus_mod, Z.mod_mod, Z.sub_diag by lia. apply Z.mod_0_l. lia. }
  split_and!; [done|lia|lia|]. intros H16. destruct (decide (k <= 4)) as [Hk4|Hk4].
  - (* the argument is a multiple of the alignment already *)
    assert (Hm : addr mod 2 ^ k = 0).
    { apply Z.mod_divide; [lia|]. apply Z.divide_trans with 16; [|by apply Z.mod_divide].
      change 16 with (2 ^ 4). exists (2 ^ (4 - k)). rewrite Z.mul_comm. apply pow2_split. lia. }
    assert (align_up addr (2 ^ k) = addr); [|congruence].
    rewrite He. replace (addr + 2 ^ k - 1) with (2 ^ k - 1 + addr) by lia.
    rewrite Zplus_mod, Hm, Z.add_0_r, Z.mod_mod by lia. rewrite Z.mod_small by lia. lia.
  - apply Z.mod_divide in Hal as [q Hq]; [|lia]. rewrite Hq.
    rewrite (pow2_split 4 k) by lia. change (2 ^ 4) with 16.
    replace (q * (16 * 2 ^ (k - 4))) with (q * 2 ^ (k - 4) * 16) by lia. by apply Z.mod_mul.
Qed.

(** The pages a large layout asks for, which no overflow can reach. *)
Definition large_page_count (size align : Z) : Z :=
  Z.max (div_ceil (PAGE_HEADER_SIZE +! LARGE_HEADER_SIZE +! size +! align) PAGE_SIZE) 1.

Lemma large_pages size align :
  layout_ok size align ->
  exists pages, pages = large_page_count size align /\ 0 < pages < 2 ^ 52 /\ 32 + size + align <= pages * PAGE_SIZE.
Proof.
  intros (Hs & (k & Hk & ->)%is_power_of_two_iff & Hle). eexists. split; [done|].
  pose proof (pow2_pos k Hk). unfold large_page_count, PAGE_HEADER_SIZE, LARGE_HEADER_SIZE.
  rewrite (wrap64_small (16 + 16)) by done.
  rewrite (wrap64_small (16 + 16 + size)) by (unfold is_usize; lia).
  rewrite wrap64_small by (unfold is_usize; lia).
  pose proof (div_ceil_spec (16 + 16 + size + 2 ^ k) PAGE_SIZE ltac:(done)).
  unfold PAGE_SIZE in *. lia.
Qed.

Lemma arena_live m L E x : arena m ((live_ext <$> L) ++ E) -> x ∈ L -> ext_ok m (live_ext x).
Proof.
  intros Har Hx. eapply arena_ok; [done|]. apply elem_of_app. left. apply list_elem_of_fmap. eauto.
Qed.

Lemma user_aligned m x : live_ok m x -> ext_ok m (live_ext x) -> x.1 mod 16 = 0.
Proof.
  destruct x as [p [size|base pages size]]; intros Hok He.
  - destruct He as (_ & Ha & _). unfold live_ext, CACHE_HEADER_SIZE in Ha. cbn [fst snd] in *. mlia.
  - by destruct Hok as (_ & _ & _ & _ & ? & _).
Qed.

(** ** Memories that agree on the extents in use *)

#[global] Instance same_bytes_perm : Proper ((≡ₚ) ==> (=) ==> (=) ==> iff) same_bytes.
Proof.
  intros R R' HR m ? <- m' ? <-. unfold same_bytes. split; intros H e i He; apply H; by rewrite HR in *.
Qed.

Lemma same_bytes_incl R R' m m' : R' ⊆ R -> same_bytes R m m' -> same_bytes R' m m'.
Proof. intros Hs H e i He Hi. apply (H e); [by apply Hs|done]. Qed.

Lemma same_bytes_app R1 R2 m m' :
  same_bytes (R1 ++ R2) m m' -> same_bytes R1 m m' /\ same_bytes R2 m m'.
Proof. intros H. split; (eapply same_bytes_incl; [|done]); set_solver. Qed.

Lemma same_bytes_arena R m m' : same_bytes R m m' -> arena m R -> arena m' R.
Proof. intros Hs. apply arena_mem_mono. intros e i He Hi H. by rewrite (Hs e i He Hi). Qed.

(** Writes inside an extent of the arena leave the others alone. *)
Lemma same_bytes_changes e R m m' a n :
  arena m (e :: R) -> changes_only m m' a n -> sub_ext (a, n) e -> same_bytes R m m'.
Proof.
  intros Har [Hch _] [Hs1 Hs2] e' i He' Hi. apply Hch. intros Hin. simpl in *.
  apply (arena_disj _ _ _ e' Har He') with i; [unfold in_ext; lia|done].
Qed.

#[export] Hint Resolve same_bytes_refl : aeth.

Lemma same_live_ok L m m' :
  same_bytes (live_ext <$> L) m m' -> Forall (live_ok m) L -> Forall (live_ok m') L.
Proof.
  intros Hp. rewrite !Forall_forall. intros Hf x Hx. eapply live_ok_agree; [|by apply Hf].
  intros i Hi _. apply (Hp (live_ext x)); [|done]. apply list_elem_of_fmap. eauto.
Qed.

#[global] Instance Live_perm m : Proper ((≡ₚ) ==> (≡ₚ) ==> iff) (Live m).
Proof. intros L L' HL E E' HE. unfold Live. by rewrite HL, HE. Qed.

(** ** Operations in an arena *)

Section arena_ops.
Context `{K : Kernel} {KS : KernelSpec K}.
Context (R : list (Z * Z)) (m : memory) (HR : arena m R).

(** New pages are outside everything in use. *)
Lemma pages_wp pages (Q : option Z -> memory -> Prop) :
  0 < pages < 2 ^ 52 ->
  (kernel_mmap m (pages * PAGE_SIZE) = None -> Q None m) ->
  (forall p m', arena m' ((p, pages * PAGE_SIZE) :: R) -> same_bytes R m m' ->
     p mod PAGE_SIZE = 0 -> 0 < p -> p + pages * PAGE_SIZE <= USER_TOP -> Q (Some p) m') ->
  wp (PageAllocator_alloc pages) Q m.
Proof.
  intros Hpg HN HS. apply PageAllocator_alloc_wp; [done|done|].
  intros p m' Hf. apply HS; try apply Hf.
  - apply (fresh_mapping_arena m); [done| |done]. unfold PAGE_SIZE. lia.
  - apply (same_bytes_extends _ []); [by rewrite app_nil_r|by eapply fresh_mapping_extends].
Qed.

Lemma write_headers_wp size align pages base m0 (Q : Z -> memory -> Prop) :
  0 < size -> layout_ok size align -> 0 < pages < 2 ^ 52 -> 32 + size + align <= pages * PAGE_SIZE ->
  arena m0 ((base, pages * PAGE_SIZE) :: R) -> base mod PAGE_SIZE = 0 -> 0 < base ->
  base + pages * PAGE_SIZE <= USER_TOP ->
  (forall p k m', kind_size k = size -> p mod align = 0 -> p mod 16 = 0 -> live_ok m' (p, k) ->
     arena m' (live_ext (p, k) :: R) -> same_bytes R m0 m' -> Q p m') ->
  wp (write_headers size align pages base) Q m0.
Proof.
  intros Hs0 (_ & (k & Hk & ->)%is_power_of_two_iff & Hle) Hpg Hfit Har Hpa Hb0 Htop HQ.
  unfold write_headers. cbv zeta. assert (Hk63 : k <= 63) by (apply pow2_le_inv; lia).
  pose proof (arena_ok _ _ _ Har (list_elem_of_here _ _)) as (_ & H16 & _ & _ & Hacc).
  cbn [fst snd] in Hacc, H16. pose proof (pow2_pos k Hk) as Hkp. unfold USER_TOP in Htop.
  destruct (align_up_spec (base + 32) k) as (Ual & Urng & U16); [lia|lia|lia|].
  assert (U16' : align_up (base + 32) (2 ^ k) mod 16 = 0) by (apply U16; mlia).
  replace (base +! PAGE_HEADER_SIZE +! LARGE_HEADER_SIZE) with (base + 32).
  2:{ unfold PAGE_HEADER_SIZE, LARGE_HEADER_SIZE.
      rewrite (wrap64_small (base + 16)) by (unfold is_usize; lia).
      rewrite wrap64_small by (unfold is_usize; lia). lia. }
  set (user := align_up (base + 32) (2 ^ k)) in *.
  apply wp_bind. apply write_page_header_wp; cbn [ph_magic ph_num_pages ph_requested_size].
  { eapply accessible_sub; [done|lia|lia]. }
  { done. }
  { apply wrap32_range. }
  { unfold is_usize. lia. }
  intros m1 C1 P1 P2 P3. apply wp_bind.
  apply write_large_header_wp; cbn [lh_magic lh_base_ptr]; unfold LARGE_HEADER_SIZE.
  { eapply changes_only_accessible; [done|]. eapply accessible_sub; [done|lia|lia]. }
  { done. }
  { unfold is_usize. lia. }
  intros m2 C2 Q1 Q2. apply wp_ret.
  assert (Hch : changes_only m0 m2 base (pages * PAGE_SIZE)).
  { eapply changes_only_trans; (eapply changes_only_weaken; [done|lia|lia]). }
  apply (HQ user (ALarge base pages size)); try done.
  - unfold live_ok, PAGE_HEADER_SIZE, LARGE_HEADER_SIZE. cbn [fst snd].
    split_and!; try done; try lia; (eapply load_le_changes; [exact C2|simpl; lia|done]).
  - by eapply arena_changes.
  - eapply same_bytes_changes; [done|done|]. unfold sub_ext. simpl. lia.
Qed.

Lemma large_alloc_wp size align (Q : Z -> memory -> Prop) :
  0 < size -> layout_ok size align ->
  (kernel_mmap m (large_page_count size align * PAGE_SIZE) = None -> Q 0 m) ->
  (forall p k m', kind_size k = size -> p mod align = 0 -> p mod 16 = 0 -> live_ok m' (p, k) ->
     arena m' (live_ext (p, k) :: R) -> same_bytes R m m' -> Q p m') ->
  wp (large_alloc size align) Q m.
Proof.
  intros Hs0 Hlay H0 HQ. unfold large_alloc. cbv zeta. fold (large_page_count size align).
  destruct (large_pages size align Hlay) as (pages & Hcount & Hpg & Hfit).
  rewrite <- Hcount in *. apply wp_bind, pages_wp; [done|intros Hn; by apply wp_ret, H0|].
  intros base m0 Har Hsame Hpa Hb0 Htop. apply write_headers_wp; try done.
  intros p k m' ? ? ? ? ? Hs. eapply HQ; try done. by eapply same_bytes_trans.
Qed.

Lemma release_pages_wp base pages size (Q : unit -> memory -> Prop) :
  0 < pages < 2 ^ 52 -> base mod PAGE_SIZE = 0 ->
  (forall m', (forall i, ~ in_ext i (base, pages * PAGE_SIZE) -> load8 m' i = load8 m i) ->
     (pages < 2 ^ 32 -> (kernel_munmap m base (pages * PAGE_SIZE)).1 = 0 ->
      forall i, in_ext i (base, pages * PAGE_SIZE) -> load8 m' i = None) ->
     Q tt m') ->
  wp (release_pages base {| ph_magic := MAGIC; ph_num_pages := wrap32 pages;
                            ph_requested_size := size |}) Q m.
Proof.
  intros Hpg Hb HQ. unfold release_pages. cbn [ph_magic ph_num_pages]. rewrite Z.eqb_refl. simpl andb.
  pose proof (wrap32_range pages) as Hw.
  assert (Hle : wrap32 pages <= pages) by (apply Z.mod_le; lia).
  destruct (Z.ltb_spec 0 (wrap32 pages)).
  - apply PageAllocator_dealloc_wp; [lia|done|].
    intros m' r Hout Hin Hr. apply HQ.
    + intros i Hi. apply Hout. unfold in_ext, PAGE_SIZE in *. simpl in Hi. lia.
    + intros H32 Hk i Hi. rewrite wrap32_small in Hr, Hin by lia. rewrite Hin by done.
      by rewrite Hr, Hk.
  - apply wp_ret. apply HQ; [done|]. intros H32 _ i Hi.
    rewrite wrap32_small in * by lia. lia.
Qed.
End arena_ops.

(** Storing the size into the header of a block makes it a live allocation. *)
Lemma finish_small_wp R m b size c (Q : unit -> memory -> Prop) :
  arena m ((b, block_size c) :: R) -> 0 < size <= MAX_CACHE_SIZE -> size_to_class size = Some c ->
  (forall m', arena m' (live_ext (b + CACHE_HEADER_SIZE, ASmall size) :: R) ->
     live_ok m' (b + CACHE_HEADER_SIZE, ASmall size) -> same_bytes R m m' -> Q tt m') ->
  wp (store64_at b size) Q m.
Proof.
  intros Har Hs Hc HQ.
  pose proof (size_to_class_inv _ _ Hc) as [Hcr _]. pose proof (block_size_class c Hcr) as Hbs.
  destruct (arena_ok _ _ _ Har (list_elem_of_here _ _)) as (_ & _ & _ & _ & Hacc).
  cbn [fst snd] in Hacc. unfold MAX_CACHE_SIZE in Hs.
  apply store64_at_wp; [eapply accessible_sub; [done|lia|lia]|unfold is_usize; lia|].
  intros m' Hch Hld.
  assert (He : live_ext (b + CACHE_HEADER_SIZE, ASmall size) = (b, block_size c)).
  { unfold live_ext. cbn [fst snd]. rewrite Hc. simpl. f_equal. lia. }
  apply HQ.
  - rewrite He. by eapply arena_changes.
  - unfold live_ok. cbn [fst snd]. rewrite Z.add_simpl_r. done.
  - eapply same_bytes_changes; [exact Har|exact Hch|]. unfold sub_ext. simpl. lia.
Qed.

(** ** Finding an allocation again *)

Section live.
Context (m : memory) (L : list (Z * alloc_kind)) (E : list (Z * Z)) (x : Z * alloc_kind).
Context (HL : Live m (x :: L) E).

Lemma live_ext_ok : ext_ok m (live_ext x).
Proof. destruct HL as [Har _]. eapply arena_live; [done|by left]. Qed.

Lemma live_pos : 0 < x.1 /\ 0 < kind_size x.2.
Proof.
  pose proof live_ext_ok as (Hp & _). destruct HL as [_ [Hok _]%Forall_cons].
  destruct x as [p [size|base pages size]]; cbn [fst snd kind_size] in *.
  - destruct Hok as [Hs _]. unfold live_ext, CACHE_HEADER_SIZE in *. cbn [fst snd] in *. lia.
  - destruct Hok as (? & ? & ? & ? & ? & ? & _). unfold PAGE_HEADER_SIZE, LARGE_HEADER_SIZE in *. cbn [fst snd] in *. lia.
Qed.

(** What [find_alloc] finds. *)
Definition found_of : found :=
  match x.2 with
  | ASmall size => FSmall (x.1 - CACHE_HEADER_SIZE) size
  | ALarge base pages size =>
      FLarge base {| ph_magic := MAGIC; ph_num_pages := wrap32 pages; ph_requested_size := size |}
  end.

Lemma find_alloc_wp (Q : found -> memory -> Prop) : Q found_of m -> wp (find_alloc x.1) Q m.
Proof.
  intros HQ. pose proof live_ext_ok as (_ & _ & _ & _ & Hacc). destruct HL as [_ [Hok _]%Forall_cons].
  unfold find_alloc, found_of in *. destruct x as [p [size|base pages size]]; cbn [fst snd] in *.
  - destruct (small_class _ _ _ Hok) as (c & Hc & Hcr & Hle & He). rewrite He in Hacc.
    cbn [fst snd] in Hacc. pose proof (block_size_class c Hcr). destruct Hok as [Hs H64].
    cbn [fst snd] in H64. pose proof (load64_low32 _ _ _ H64) as H32.
    unfold CACHE_HEADER_SIZE, LARGE_HEADER_SIZE, MAX_CACHE_SIZE in *. rewrite Z.mod_small in H32 by lia.
    destruct (load_le_total 4 m (p - 16 + 4)) as [n Hn]; [eapply accessible_sub; [done|simpl; lia..]|].
    destruct (load_le_total 8 m (p - 16 + 8)) as [b Hb]; [eapply accessible_sub; [done|simpl; lia..]|].
    apply wp_bind. eapply read_large_header_wp; [done|done|]. cbn [lh_magic lh_base_ptr].
    destruct (Z.eqb_spec size LARGE_MAGIC); [unfold LARGE_MAGIC in *; lia|]. cbv zeta.
    apply wp_bind. eapply load64_at_wp; [done|].
    destruct (Z.ltb_spec 0 size); [|lia]. destruct (Z.leb_spec size 65536); [|lia]. simpl andb.
    apply wp_bind. eapply read_page_header_wp; [done|done|done|]. cbn [ph_magic].
    destruct (Z.eqb_spec size MAGIC); [unfold MAGIC in *; lia|]. by apply wp_ret.
  - destruct Hok as (Hpg & Hal & Hb0 & Hs0 & Hpal & Hlo & Hhi & L1 & L2 & L3 & L4 & L5).
    unfold PAGE_HEADER_SIZE, LARGE_HEADER_SIZE in *. cbn [fst snd] in *.
    apply wp_bind. eapply read_large_header_wp; [done|done|]. cbn [lh_magic lh_base_ptr].
    rewrite Z.eqb_refl. apply wp_bind. eapply read_page_header_wp; [done|done|done|]. by apply wp_ret.
Qed.

Lemma get_alloc_size_live : get_alloc_size x.1 m = Ret (kind_size x.2, m).
Proof.
  assert (wp (get_alloc_size x.1) (fun r m' => r = kind_size x.2 /\ m' = m) m)
    as (r & s' & Hr & -> & ->); [|done].
  unfold get_alloc_size. pose proof live_pos. destruct (Z.eqb_spec x.1 0); [lia|].
  apply wp_bind, find_alloc_wp. unfold found_of. destruct (x.2); by apply wp_ret.
Qed.

(** What a client writes into its own bytes breaks nothing. *)
Lemma live_write a n m' :
  changes_only m m' a n -> sub_ext (a, n) (user_ext x) ->
  Live m' (x :: L) E /\ same_bytes E m m'.
Proof.
  intros Hch Hsub. destruct HL as [Har [Hok Hl]%Forall_cons].
  pose proof (user_ext_sub _ _ Hok) as Hsub2.
  assert (Hs : same_bytes ((live_ext <$> L) ++ E) m m').
  { eapply same_bytes_changes; [exact Har|exact Hch|]. unfold sub_ext in *. simpl in *. lia. }
  split; [split; [by eapply arena_changes|constructor]|].
  - eapply live_ok_agree; [|done]. intros i _ Hi. apply Hch. unfold sub_ext, in_ext in *. simpl in *. lia.
  - eapply same_live_ok; [|done]. eapply same_bytes_incl; [|done]. set_solver.
  - eapply same_bytes_incl; [|done]. set_solver.
Qed.
End live.

(** The client's bytes form an arena. *)
Lemma live_user_arena m L E : Live m L E -> arena m (user_ext <$> L).
Proof.
  intros [Har Hl]. apply arena_drop_r in Har.
  induction L as [|x L IH]; [done|]. apply Forall_cons in Hl as [Hok Hl].
  pose proof (arena_ok _ _ _ Har (list_elem_of_here _ _)) as He.
  pose proof (user_ext_sub _ _ Hok) as Hsub.
  rewrite fmap_cons in *. split.
  - split; [|apply IH; [by apply (arena_drop _ [_]) in Har|done]].
    rewrite Forall_fmap, Forall_forall. intros y Hy.
    rewrite Forall_forall in Hl. pose proof (user_ext_sub _ _ (Hl y Hy)) as Hsuby.
    eapply ext_disj_sub; [done|]. symmetry. eapply ext_disj_sub; [done|]. symmetry.
    eapply arena_disj; [done|]. apply list_elem_of_fmap. eauto.
  - constructor; [|apply IH; [by apply (arena_drop _ [_]) in Har|done]].
    pose proof (user_aligned _ _ Hok He) as Hal.
    destruct He as (E1 & E2 & E3 & E4 & E5), Hsub as [S1 S2].
    assert (0 < kind_size x.2).
    { destruct x as [p [size|base pages size]]; simpl; destruct Hok; lia. }
    split_and!; try done; simpl in *; try lia. eapply accessible_sub; [done|lia|lia].
Qed.

Lemma live_bounds m L E x :
  Live m L E -> x ∈ L -> 0 < kind_size x.2 /\ ext_ok m (live_ext x) /\ live_ok m x.
Proof.
  intros [Har Hl] Hx. pose proof (proj1 (Forall_forall _ _) Hl x Hx) as Hok.
  split_and!; [|by eapply arena_live|done].
  destruct x as [p [size|base pages size]]; simpl; destruct Hok; lia.
Qed.

Lemma live_users m L E :
  Live m L E -> arena m (user_ext <$> L) /\ Forall (fun e => 0 < e.2) (user_ext <$> L).
Proof.
  intros HL. split; [by eapply live_user_arena|]. rewrite Forall_fmap, Forall_forall.
  intros x Hx. by destruct (live_bounds _ _ _ x HL Hx).
Qed.

Lemma live_same_bytes m m' L E :
  Live m L E -> same_bytes (live_ext <$> L) m m' -> same_bytes (user_ext <$> L) m m'.
Proof.
  intros HL Hs e i He Hi. apply list_elem_of_fmap in He as (x & -> & Hx).
  apply (Hs (live_ext x)); [apply list_elem_of_fmap; eauto|].
  destruct (live_bounds _ _ _ x HL Hx) as (_ & _ & Hok).
  destruct (user_ext_sub _ _ Hok). unfold in_ext in *. lia.
Qed.
