(* ===== verification/AllocCore.v ===== *)
(** * What the two modes of the allocator share above memory

    [GlobalAlloc for AethAlloc] is written twice in aethalloc-abi/src/global.rs, once
    per mode.  The two texts differ in how blocks are cached and are the same around
    it: the counters, the block that gets pages of its own, the large allocation and
    the release of pages.  [ModeOps] is what this common code needs of the state,
    [ModeLaws] what its correctness needs of the blocks a mode keeps, [ModeCalls] the
    two entry points.  A mode that meets its specification implements AllocSpec. *)

From S2P Require Import Prelude SizeClass Memory Extents AllocSpec Page Metrics Headers.

(** ** The interface of a mode *)

Class ModeOps (St : Type) : Type := {
  md_mem : St -> memory;
  md_set : memory -> St -> St;
  md_threads : St -> nat;
  (** the global counters and those of [get_thread_cache()] of a thread *)
  md_metrics {A : Type} : nat -> M (Metrics * Metrics) A -> M St A
}.

Definition md_on_mem {St A} `{ModeOps St} (m : M memory A) : M St A :=
  zoom (fun s => Some (md_mem s)) md_set m.

(** [≡] holds of states that differ in their counters; [md_kept s E] when [E] is
    the memory the mode keeps for itself. *)
Class ModeLaws (St : Type) `{O : ModeOps St} `{Equiv St} : Type := {
  md_kept : St -> list (Z * Z) -> Prop;
  #[global] md_equivalence :: Equivalence (≡@{St});
  md_kept_perm s E E' : E ≡ₚ E' -> md_kept s E -> md_kept s E';
  md_mem_set m s : md_mem (md_set m s) = m;
  md_set_id s : md_set (md_mem s) s = s;
  md_threads_set m s : md_threads (md_set m s) = md_threads s;
  md_kept_frame s m' E :
    md_kept s E -> same_bytes E (md_mem s) m' -> md_kept (md_set m' s) E;
  md_equiv s s' : s ≡ s' ->
    md_mem s = md_mem s' /\ md_threads s = md_threads s' /\ forall E, md_kept s' E -> md_kept s E;
  md_metrics_wp {A} t (m : M (Metrics * Metrics) A) s (Q : A -> St -> Prop) :
    (forall x, wp m (fun _ _ => True) x) -> (t < md_threads s)%nat ->
    (forall a s', s' ≡ s -> Q a s') -> wp (md_metrics t m) Q s
}.

(** ** The common code *)

Section operations.
Context {St : Type} `{O : ModeOps St} `{K : Kernel}.

(** A hit: count it, write the size into the block header, return what follows it. *)
Definition cache_hit (t : nat) (block size : Z) : M St Z :=
  md_metrics t (record_event EvHit) ;;
  md_on_mem (store64_at block size) ;;
  mret (block + CACHE_HEADER_SIZE).

(** The end of a miss that has a block. *)
Definition miss_block (t : nat) (base size : Z) : M St Z :=
  md_on_mem (store64_at base size) ;;
  md_metrics t ThreadMetrics_maybe_flush ;;
  mret (base + CACHE_HEADER_SIZE).

(** The last resort of a miss: pages for this block alone. *)
Definition alloc_own_pages (t : nat) (size block_size : Z) : M St Z :=
  let pages := Z.max (div_ceil block_size PAGE_SIZE) 1 in
  r ← md_on_mem (PageAllocator_alloc pages);
  match r with
  | Some base => miss_block t base size
  | None => mret 0
  end.

(** An allocation with pages of its own. *)
Definition alloc_large (t : nat) (size align : Z) : M St Z :=
  md_metrics t (record_event EvDirect) ;;
  md_on_mem (large_alloc size align).

(** Pages go back to the kernel. *)
Definition dealloc_pages (t : nat) (base : Z) (h : PageHeader) : M St unit :=
  md_on_mem (release_pages base h) ;;
  md_metrics t (record_event EvFree).

(** The path for a pointer with neither header: the header of its page. *)
Definition dealloc_by_page (t : nat) (ptr : Z) : M St unit :=
  let header := page_header_from_ptr ptr in
  h ← md_on_mem (read_page_header header);
  dealloc_pages t header h.
End operations.

(** ** What the calls promise *)

Section spec.
Context {St : Type} `{LW : ModeLaws St} `{K : Kernel}.

(** The memory of the allocations [L] is as before, headers included. *)
Definition preserves (L : list (Z * alloc_kind)) (s s' : St) : Prop :=
  same_bytes (live_ext <$> L) (md_mem s) (md_mem s').

(** The invariant, for the live allocations [L]. *)
Definition Inv (s : St) (L : list (Z * alloc_kind)) : Prop :=
  exists E, md_kept s E /\ Live (md_mem s) L E.

(** The pages a request asks the kernel for when no cached block serves it. *)
Definition pages_for (size align : Z) : Z :=
  if (size <=? MAX_CACHE_SIZE) && (align <=? 8)
  then Z.max (div_ceil (Z.max (round_up_pow2 size) 16 +! CACHE_HEADER_SIZE) PAGE_SIZE) 1
  else large_page_count size align.

(** A call of [alloc] that returns [p]: null, when the size is 0 or the kernel refused
    the pages of this request, or an aligned pointer to a new allocation. *)
Definition alloc_post (s : St) (L : list (Z * alloc_kind)) (size align p : Z) (s' : St) : Prop :=
  md_threads s' = md_threads s /\ preserves L s s' /\
  ((p = 0 /\ Inv s' L /\
    (size = 0 \/ kernel_mmap (md_mem s) (pages_for size align * PAGE_SIZE) = None)) \/
   (0 < size /\ p mod align = 0 /\ p mod 16 = 0 /\
    exists k, kind_size k = size /\ Inv s' ((p, k) :: L))).

(** A call of [dealloc] on the allocation [x]: the other allocations are as before; a
    small block is kept for reuse unless it is [lost]; the pages of a large one are
    unmapped, and only they. *)
Definition dealloc_post (lost : Prop) (s : St) (x : Z * alloc_kind) (L : list (Z * alloc_kind))
    (s' : St) : Prop :=
  md_threads s' = md_threads s /\ preserves L s s' /\ Inv s' L /\
  match x.2 with
  | ASmall _ => exists E, md_kept s' E /\ Live (md_mem s') L E /\ (live_ext x ∈ E \/ lost)
  | ALarge base pages _ =>
      (forall i, ~ in_ext i (live_ext x) -> load8 (md_mem s') i = load8 (md_mem s) i) /\
      (pages < 2 ^ 32 -> (kernel_munmap (md_mem s) base (pages * PAGE_SIZE)).1 = 0 ->
       forall i, in_ext i (live_ext x) -> load8 (md_mem s') i = None)
  end.
End spec.

(** ** The common code meets its part *)

Section common.
Context {St : Type} `{LW : ModeLaws St} `{K : Kernel} {KS : KernelSpec K}.
Implicit Types (s : St) (L : list (Z * alloc_kind)).

#[global] Instance md_kept_proper s : Proper ((≡ₚ) ==> iff) (md_kept s).
Proof. intros E E' HE. split; by apply md_kept_perm. Qed.

#[global] Instance Inv_perm s : Proper ((≡ₚ) ==> iff) (Inv s).
Proof. intros L L' HL. unfold Inv. by setoid_rewrite HL. Qed.

Lemma preserves_refl L s : preserves L s s.
Proof. apply same_bytes_refl. Qed.

Lemma preserves_trans L s1 s2 s3 : preserves L s1 s2 -> preserves L s2 s3 -> preserves L s1 s3.
Proof. apply same_bytes_trans. Qed.

Lemma preserves_mem L s s' : md_mem s' = md_mem s -> preserves L s s'.
Proof. intros Hm e i _ _. by rewrite Hm. Qed.

Lemma preserves_live_ok L s s' :
  preserves L s s' -> Forall (live_ok (md_mem s)) L -> Forall (live_ok (md_mem s')) L.
Proof. apply same_live_ok. Qed.

Lemma md_on_mem_wp {A} (m : M memory A) s (Q : A -> St -> Prop) :
  wp m (fun a m' => Q a (md_set m' s)) (md_mem s) -> wp (md_on_mem m) Q s.
Proof. intros Hm. by eapply wp_zoom. Qed.

Lemma Inv_equiv s s' L : s' ≡ s -> Inv s L -> Inv s' L.
Proof.
  intros Heq (E & HK & HL). destruct (md_equiv _ _ Heq) as (Hm & _ & HE).
  exists E. split; [auto|]. by rewrite Hm.
Qed.

Context (t : nat).

(** The states between the start [s0] of a call and its end, in which the call owns
    the extents [F]. *)
Definition inside (s0 : St) L (F : list (Z * Z)) s : Prop :=
  (t < md_threads s0)%nat /\ md_threads s = md_threads s0 /\ preserves L s0 s /\
  Forall (live_ok (md_mem s)) L /\
  exists E, md_kept s E /\ arena (md_mem s) (F ++ (live_ext <$> L) ++ E).

Lemma inside_start s L : Inv s L -> (t < md_threads s)%nat -> inside s L [] s.
Proof.
  intros (E & HK & Har & Hl) Ht. split_and!; try done. by exists E.
Qed.

Lemma inside_Inv s0 s L : inside s0 L [] s -> Inv s L.
Proof. intros (_ & _ & _ & Hl & E & HK & Har). by exists E. Qed.

Lemma inside_equiv s0 L F s s' : s' ≡ s -> inside s0 L F s -> inside s0 L F s'.
Proof.
  intros Heq (Ht & Hn & Hp & Hl & E & HK & Har). destruct (md_equiv _ _ Heq) as (Hm & Hn' & HE).
  split_and!; [done|congruence| |by rewrite Hm|].
  - eapply preserves_trans; [done|by apply preserves_mem].
  - exists E. rewrite Hm. auto.
Qed.

Lemma inside_metrics_wp {A} (m : M (Metrics * Metrics) A) s0 L F s (Q : A -> St -> Prop) :
  (forall x, wp m (fun _ _ => True) x) -> inside s0 L F s ->
  (forall a s', inside s0 L F s' -> s' ≡ s -> Q a s') -> wp (md_metrics t m) Q s.
Proof.
  intros Hm Hin HQ. apply md_metrics_wp; [done|destruct Hin as (? & ? & _); lia|].
  intros a s' Heq. apply HQ; [by eapply inside_equiv|done].
Qed.

(** The memory changes, but not in what is live or kept. *)
Lemma inside_set s0 L E s m' F :
  (t < md_threads s0)%nat -> md_threads s = md_threads s0 -> preserves L s0 s ->
  Forall (live_ok (md_mem s)) L -> md_kept s E ->
  arena m' (F ++ (live_ext <$> L) ++ E) -> same_bytes ((live_ext <$> L) ++ E) (md_mem s) m' ->
  inside s0 L F (md_set m' s).
Proof.
  intros Ht Hn Hp Hl HK Har [Hs1 Hs2]%same_bytes_app.
  assert (Hp' : preserves L s (md_set m' s)) by (unfold preserves; by rewrite md_mem_set).
  split_and!; [done|by rewrite md_threads_set|by eapply preserves_trans|by eapply preserves_live_ok|].
  exists E. rewrite md_mem_set. split; [by apply md_kept_frame|done].
Qed.

(** The block [b] becomes a live allocation. *)
Lemma inside_finish_wp s0 L s b size c (Q : unit -> St -> Prop) :
  inside s0 L [(b, block_size c)] s -> 0 < size <= MAX_CACHE_SIZE -> size_to_class size = Some c ->
  (forall s', (t < md_threads s')%nat -> alloc_post s0 L size 1 (b + CACHE_HEADER_SIZE) s' -> Q tt s') ->
  wp (md_on_mem (store64_at b size)) Q s.
Proof.
  intros (Ht & Hn & Hp & Hl & E & HK & Har) Hs Hc HQ.
  pose proof (arena_ok _ _ _ Har (list_elem_of_here _ _)) as (_ & H16 & _). cbn [fst] in H16.
  apply md_on_mem_wp. eapply finish_small_wp; [exact Har|done|done|]. intros m' Har' Hok Hsame.
  destruct (inside_set s0 L E s m' [live_ext (b + CACHE_HEADER_SIZE, ASmall size)])
    as (_ & Hn' & Hp' & Hl' & _); try done.
  apply HQ; [by rewrite Hn'|]. split_and!; [done|done|]. right.
  split_and!; [lia|apply Z.mod_1_r|unfold CACHE_HEADER_SIZE; mlia|].
  exists (ASmall size). split; [done|]. exists E. apply same_bytes_app in Hsame as [_ HsE].
  split; [by apply md_kept_frame|]. rewrite md_mem_set in *. split; [done|by constructor].
Qed.

Lemma inside_pages_wp s0 L s pages (Q : option Z -> St -> Prop) :
  inside s0 L [] s -> 0 < pages < 2 ^ 52 ->
  (kernel_mmap (md_mem s) (pages * PAGE_SIZE) = None -> Q None s) ->
  (forall p m', inside s0 L [(p, pages * PAGE_SIZE)] (md_set m' s) -> p mod PAGE_SIZE = 0 -> 0 < p ->
     p + pages * PAGE_SIZE <= USER_TOP -> Q (Some p) (md_set m' s)) ->
  wp (md_on_mem (PageAllocator_alloc pages)) Q s.
Proof.
  intros (Ht & Hn & Hp & Hl & E & HK & Har) Hpg HN HS.
  apply md_on_mem_wp. eapply pages_wp; [exact Har|done|..].
  - intros Hk. rewrite md_set_id. by apply HN.
  - intros p m' Har' Hsame Hpa Hp0 Htop. apply HS; try done. by eapply inside_set.
Qed.

(** Cutting what a call owns. *)
Lemma inside_refine s0 L F G s e :
  inside s0 L (e :: F) s -> all_disjoint G ->
  Forall (fun p => sub_ext p e /\ p.1 mod 16 = 0 /\ 0 <= p.2) G -> inside s0 L (G ++ F) s.
Proof.
  intros (Ht & Hn & Hp & Hl & E & HK & Har) Hd Hf. split_and!; try done.
  exists E. split; [done|]. rewrite <- app_assoc. by eapply arena_refine.
Qed.

(** The blocks of a fresh page. *)
Lemma inside_page_blocks s0 L s c base :
  inside s0 L [(base, 1 * PAGE_SIZE)] s -> 0 <= c <= 12 -> base mod PAGE_SIZE = 0 ->
  1 < PAGE_SIZE / block_size c ->
  inside s0 L ((base, block_size c) ::
    carve (base + block_size c) (block_size c) (Z.to_nat (PAGE_SIZE / block_size c - 1))) s.
Proof.
  intros Hin Hc Hb H1. destruct (page_blocks c base Hc Hb H1) as [Hd Hf].
  pose proof (inside_refine _ _ _ _ _ _ Hin Hd Hf) as H'. by rewrite app_nil_r, carve_S in H'.
Qed.

Lemma alloc_post_equiv s L size align p s1 s2 :
  s2 ≡ s1 -> alloc_post s L size align p s1 -> alloc_post s L size align p s2.
Proof.
  intros Heq (Hn & Hp & Hpost). destruct (md_equiv _ _ Heq) as (Hm & Hn' & _).
  split_and!; [congruence|eapply preserves_trans; [done|by apply preserves_mem]|].
  destruct Hpost as [(-> & HI & Hw)|(Hs & Ha & H16 & k & Hk & HI)]; [left|right].
  - split_and!; [done|by eapply Inv_equiv|done].
  - split_and!; try done. exists k. split; [done|]. by eapply Inv_equiv.
Qed.

Lemma alloc_null s0 L s size align :
  inside s0 L [] s -> kernel_mmap (md_mem s) (pages_for size align * PAGE_SIZE) = None ->
  md_mem s = md_mem s0 -> alloc_post s0 L size align 0 s.
Proof.
  intros Hin Hk Hm. pose proof (inside_Inv _ _ _ Hin). destruct Hin as (_ & ? & ? & _).
  split_and!; [done|done|]. left. split_and!; [done|done|]. right. by rewrite <- Hm.
Qed.

Lemma pages_for_small size align c :
  0 < size <= MAX_CACHE_SIZE -> align <= 8 -> size_to_class size = Some c ->
  pages_for size align = Z.max (div_ceil (block_size c) PAGE_SIZE) 1.
Proof.
  intros Hs Ha Hc. unfold pages_for. destruct (Z.leb_spec size MAX_CACHE_SIZE), (Z.leb_spec align 8); try lia. simpl.
  destruct (size_to_class_total size) as (c' & Hc' & Hcr & Hround & _); [done|].
  rewrite Hc in Hc'. injection Hc' as <-. by rewrite Hround, block_size_eq.
Qed.

Lemma pages_for_large size align :
  (size <=? MAX_CACHE_SIZE) && (align <=? 8) = false -> pages_for size align = large_page_count size align.
Proof. unfold pages_for. by intros ->. Qed.

Lemma cache_hit_wp s0 L s b size c (Q : Z -> St -> Prop) :
  inside s0 L [(b, block_size c)] s -> 0 < size <= MAX_CACHE_SIZE -> size_to_class size = Some c ->
  (forall p s', alloc_post s0 L size 1 p s' -> Q p s') ->
  wp (cache_hit t b size) Q s.
Proof.
  intros Hin Hs Hc HQ. unfold cache_hit.
  apply wp_bind. eapply inside_metrics_wp; [apply record_event_total|done|]. intros _ s1 Hin1 _.
  apply wp_bind. eapply inside_finish_wp; [done|done|done|]. intros s2 _ Hpost.
  apply wp_ret. by apply HQ.
Qed.

Lemma miss_block_wp s0 L s b size c (Q : Z -> St -> Prop) :
  inside s0 L [(b, block_size c)] s -> 0 < size <= MAX_CACHE_SIZE -> size_to_class size = Some c ->
  (forall p s', alloc_post s0 L size 1 p s' -> Q p s') ->
  wp (miss_block t b size) Q s.
Proof.
  intros Hin Hs Hc HQ. unfold miss_block.
  apply wp_bind. eapply inside_finish_wp; [done|done|done|]. intros s1 Ht1 Hpost.
  apply wp_bind. apply md_metrics_wp; [apply maybe_flush_total|done|]. intros _ s2 Heq.
  apply wp_ret. apply HQ. by eapply alloc_post_equiv.
Qed.

Lemma alloc_own_pages_wp s0 L s size c (Q : Z -> St -> Prop) :
  inside s0 L [] s -> 0 < size <= MAX_CACHE_SIZE -> size_to_class size = Some c ->
  md_mem s = md_mem s0 ->
  (forall p s', alloc_post s0 L size 1 p s' -> Q p s') ->
  wp (alloc_own_pages t size (block_size c)) Q s.
Proof.
  intros Hin Hs Hc Hm HQ. pose proof (size_to_class_inv _ _ Hc) as [Hcr _].
  pose proof (block_size_class c Hcr) as Hbs. unfold alloc_own_pages. cbv zeta.
  pose proof (div_ceil_spec (block_size c) PAGE_SIZE ltac:(done)) as Hd.
  set (pages := Z.max (div_ceil (block_size c) PAGE_SIZE) 1).
  assert (Hpg : 0 < pages < 2 ^ 52) by (unfold PAGE_SIZE in *; lia).
  apply wp_bind. eapply inside_pages_wp; [done|done|..].
  - intros Hk. apply wp_ret. apply HQ. eapply alloc_null; [done| |done]. rewrite (pages_for_small _ _ c); [done|done|lia|done].
  - intros p m' Hin1 Hpa Hp0 Htop. eapply miss_block_wp; [|done|done|done].
    change [(p, block_size c)] with ([(p, block_size c)] ++ []). eapply inside_refine; [done|by split|].
    constructor; [|done]. unfold sub_ext. cbn [fst snd].
    unfold PAGE_SIZE in *. split_and!; try lia. mlia.
Qed.

Lemma alloc_large_wp s0 L s size align (Q : Z -> St -> Prop) :
  inside s0 L [] s -> 0 < size -> layout_ok size align -> md_mem s = md_mem s0 ->
  (size <=? MAX_CACHE_SIZE) && (align <=? 8) = false ->
  (forall p s', alloc_post s0 L size align p s' -> Q p s') ->
  wp (alloc_large t size align) Q s.
Proof.
  intros Hin Hs0 Hlay Hm Hbig HQ. unfold alloc_large.
  apply wp_bind. eapply inside_metrics_wp; [apply record_event_total|done|].
  intros _ s1 Hin1 Heq. destruct (md_equiv _ _ Heq) as (Hm1 & _).
  pose proof Hin1 as (Ht & Hn & Hp & Hl & E & HK & Har).
  apply md_on_mem_wp. eapply (large_alloc_wp ((live_ext <$> L) ++ E)); [exact Har|done|done|..].
  - intros Hk. rewrite md_set_id. apply HQ. eapply alloc_null; [done|by rewrite pages_for_large|congruence].
  - intros p k m' Hsz Hal H16 Hok Har' Hsame. apply HQ.
    destruct (inside_set s0 L E s1 m' [live_ext (p, k)]) as (_ & Hn' & Hp' & Hl' & _); try done.
    split_and!; [done|done|]. right. split_and!; [done|done|done|].
    exists k. split; [done|]. exists E. apply same_bytes_app in Hsame as [_ HsE].
    split; [by apply md_kept_frame|]. rewrite md_mem_set in *. split; [done|by constructor].
Qed.

(** Blocks are 16-byte aligned, which covers every alignment served from the cache. *)
Lemma alloc_post_align s L size p s' k :
  size <= MAX_CACHE_SIZE -> 0 <= k -> 2 ^ k <= 8 ->
  alloc_post s L size 1 p s' -> alloc_post s L size (2 ^ k) p s'.
Proof.
  intros Hsz Hk Hle (Hn & Hp & Hpost).
  assert (Hpf : pages_for size (2 ^ k) = pages_for size 1).
  { unfold pages_for. by destruct (Z.leb_spec size MAX_CACHE_SIZE), (Z.leb_spec (2 ^ k) 8); try lia. }
  split_and!; [done|done|]. rewrite Hpf. destruct Hpost as [H0|(Hs & _ & H16 & HI)]; [by left|right].
  split_and!; try done. apply (pow2_le_inv k 3) in Hle; [|done].
  apply Z.mod_divide in H16; [|done]. pose proof (pow2_pos k Hk).
  apply Z.mod_divide; [lia|]. eapply Z.divide_trans; [|done].
  exists (2 ^ (4 - k)). change 16 with (2 ^ 4). rewrite Z.mul_comm. apply pow2_split. lia.
Qed.

Lemma dealloc_pages_wp lost s base pages size p L (Q : unit -> St -> Prop) :
  Inv s ((p, ALarge base pages size) :: L) -> (t < md_threads s)%nat ->
  (forall s', dealloc_post lost s (p, ALarge base pages size) L s' -> Q tt s') ->
  wp (dealloc_pages t base {| ph_magic := MAGIC; ph_num_pages := wrap32 pages;
                              ph_requested_size := size |}) Q s.
Proof.
  intros (E & HK & Har & [(Hpg & Hal & _) Hl]%Forall_cons) Ht HQ.
  unfold dealloc_pages. apply wp_bind, md_on_mem_wp. apply release_pages_wp; [done|done|].
  intros m' Hout Hin.
  assert (Hsame : same_bytes ((live_ext <$> L) ++ E) (md_mem s) m').
  { intros e i He Hi. apply Hout. intros Hi'. by apply (arena_disj _ _ _ e Har He) with i. }
  apply (arena_drop _ [_]) in Har.
  assert (Hin1 : inside s L [] (md_set m' s)).
  { eapply inside_set; [done|done|apply preserves_refl|done|done| |done].
    by eapply same_bytes_arena. }
  eapply inside_metrics_wp; [apply record_event_total|done|]. intros [] s' Hin2 Heq. apply HQ.
  destruct (md_equiv _ _ Heq) as (Hm & _). rewrite md_mem_set in Hm.
  pose proof (inside_Inv _ _ _ Hin2). destruct Hin2 as (_ & ? & ? & _).
  split_and!; [done|done|done|]. simpl. rewrite Hm. done.
Qed.
End common.

(** ** A mode implements the allocator's contract *)

Class ModeCalls (St : Type) : Type := {
  mc_alloc : nat -> Z -> Z -> M St Z;
  mc_dealloc : nat -> Z -> M St unit
}.

(** [mc_lost t s x]: the call of [dealloc] on [x] by thread [t] in [s] may lose the block. *)
Class ModeCallsSpec (St : Type) `{LW : ModeLaws St} `{K : Kernel} {C : ModeCalls St} : Type := {
  mc_lost : nat -> St -> Z * alloc_kind -> Prop;
  mc_alloc_wp t s L size align (Q : Z -> St -> Prop) :
    Inv s L -> (t < md_threads s)%nat -> layout_ok size align ->
    (forall p s', alloc_post s L size align p s' -> Q p s') -> wp (mc_alloc t size align) Q s;
  mc_alloc_zero t align s : mc_alloc t 0 align s = Ret (0, s);
  mc_dealloc_wp t s x L (Q : unit -> St -> Prop) :
    Inv s (x :: L) -> (t < md_threads s)%nat ->
    (forall s', dealloc_post (mc_lost t s x) s x L s' -> Q tt s') -> wp (mc_dealloc t x.1) Q s;
  mc_dealloc_null t s : mc_dealloc t 0 s = Ret (tt, s)
}.

#[global] Instance mode_alloc_ops {St} `{O : ModeOps St} {C : ModeCalls St} : AllocOps St := {|
  ao_alloc := mc_alloc;
  ao_dealloc := mc_dealloc;
  ao_size p := md_on_mem (get_alloc_size p);
  ao_mem := md_mem;
  ao_set_mem := md_set;
  ao_threads := md_threads
|}.

Section contract.
Context {St : Type} `{CS : ModeCallsSpec St}.
Implicit Types (s : St) (L : list (Z * alloc_kind)).

(** The client's view of the live allocations. *)
Definition client_inv s (U : list (Z * Z)) : Prop := exists L, Inv s L /\ U ≡ₚ user_ext <$> L.

Lemma client_inv_uncons s p n U :
  client_inv s ((p, n) :: U) ->
  exists k L, kind_size k = n /\ Inv s ((p, k) :: L) /\ U ≡ₚ user_ext <$> L.
Proof.
  intros (L & HI & HU). symmetry in HU.
  assert ((p, n) ∈ user_ext <$> L) as Hin by (rewrite HU; by left).
  apply list_elem_of_fmap in Hin as ([p' k] & He & [L' HL]%elem_of_Permutation).
  unfold user_ext in He. simplify_eq/=. exists k, L'. split; [done|]. rewrite HL in HI, HU.
  split; [done|]. rewrite fmap_cons in HU. by apply Permutation_cons_inv in HU.
Qed.

Lemma client_inv_cons s p k L U :
  Inv s ((p, k) :: L) -> U ≡ₚ user_ext <$> L -> client_inv s ((p, kind_size k) :: U).
Proof. intros HI HU. exists ((p, k) :: L). split; [done|]. by rewrite HU. Qed.

Lemma preserves_same_bytes s s' L E U :
  Live (md_mem s) L E -> U ≡ₚ user_ext <$> L -> preserves L s s' ->
  same_bytes U (md_mem s) (md_mem s').
Proof. intros HL HU Hp. rewrite HU. by eapply live_same_bytes. Qed.

Lemma get_alloc_size_inv s x L :
  Inv s (x :: L) -> md_on_mem (get_alloc_size x.1) s = Ret (kind_size x.2, s).
Proof.
  intros (E & _ & HL). unfold md_on_mem, zoom.
  rewrite (get_alloc_size_live _ _ _ _ HL). by rewrite md_set_id.
Qed.

Lemma get_alloc_size_zero s : md_on_mem (get_alloc_size 0) s = Ret (0, s).
Proof. unfold md_on_mem, zoom. simpl. by rewrite md_set_id. Qed.

(** What a client writes into its own bytes breaks nothing. *)
Lemma client_write s x L a n m' :
  Inv s (x :: L) -> changes_only (md_mem s) m' a n -> sub_ext (a, n) (user_ext x) ->
  Inv (md_set m' s) (x :: L).
Proof.
  intros (E & HK & HL) Hch Hsub. destruct (live_write _ _ _ _ HL a n m' Hch Hsub) as [HL' Hs].
  exists E. rewrite md_mem_set. split; [by apply md_kept_frame|done].
Qed.

#[global] Instance mode_alloc_laws : AllocLaws St.
Proof.
  refine {| al_inv := client_inv |}.
  - intros s U U' HU (L & HI & HL). exists L. split; [done|]. by rewrite <- HU.
  - intros s U (L & (E & _ & HL) & ->). by eapply live_users.
  - intros t size align s U Q (L & HI & HU) Ht Hlay H0 H1. pose proof HI as (E & _ & HL).
    apply (mc_alloc_wp t s L); [done|done|done|].
    intros p s' (Hn & Hp & [(-> & HI' & _)|(Hs & Hal & _ & k & <- & HI')]).
    + apply H0; [done|by eapply preserves_same_bytes|by exists L].
    + apply H1; [done|by eapply preserves_same_bytes|done|done|by eapply client_inv_cons].
  - intros t align s. apply mc_alloc_zero.
  - intros t p n s U Q HC Ht HQ. destruct (client_inv_uncons _ _ _ _ HC) as (k & L & <- & HI & HU).
    pose proof HI as (E & _ & [Har [_ Hl]%Forall_cons]).
    apply (mc_dealloc_wp t s (p, k) L); [done|done|]. intros s' (Hn & Hp & HI' & _).
    apply HQ; [done| |by exists L]. eapply (preserves_same_bytes _ _ _ E); [|done|done].
    split; [by apply (arena_drop _ [_]) in Har|done].
  - intros t s. apply mc_dealloc_null.
  - intros p n s U HC. destruct (client_inv_uncons _ _ _ _ HC) as (k & L & <- & HI & HU).
    apply (get_alloc_size_inv s (p, k) L HI).
  - intros s. apply get_alloc_size_zero.
  - intros [p n] a j m' s U HC Hch Hsub.
    destruct (client_inv_uncons _ _ _ _ HC) as (k & L & <- & HI & HU).
    eapply client_inv_cons; [|done]. by eapply client_write.
  - intros m s. apply md_mem_set.
  - intros m s. apply md_threads_set.
Defined.

(** Clients of a mode, from a state without live allocations. *)
Lemma mode_client_refines s c :
  Inv s [] -> well_behaved (md_threads s) heap_empty c ->
  exists rs s' h', run_client c s = Ret (rs, s') /\ heap_run heap_empty c rs h' /\
    represents (md_threads s) s' h'.
Proof. intros HI Hwb. apply client_refines; [|done]. constructor; [done|by exists []|done]. Qed.
End contract.
