(* ===== verification/SimpleCache.v ===== *)
(** * The global allocator, simple-cache mode

    Models aethalloc-abi/src/global.rs built without its default feature: per size
    class a free list of the thread, linked through the blocks themselves, and one
    global list that takes half of a list that has grown too long.  The operations
    on the two lists of one class are computations on [class_store]; [alloc] and
    [dealloc] run them on the calling thread's part of the state.  A call runs
    without another thread's steps inside it, so each compare-exchange succeeds. *)

From S2P Require Import Prelude SizeClass Memory Extents AllocSpec Page Metrics Headers AllocCore.

(** ** Constants and data *)

Definition MAX_FREE_LIST_LENGTH : Z := 4096.
Definition GLOBAL_FREE_BATCH : Z := 128.

Record SimpleThreadCache : Type := {
  sc_heads : list Z;
  sc_counts : list Z;
  sc_metrics : Metrics
}.

(** The memory, the heads of [GLOBAL_FREE_LISTS], the global counters and one cache
    per thread. *)
Record sstate : Type := {
  ss_mem : memory;
  ss_lists : list Z;
  ss_gmetrics : Metrics;
  ss_caches : list SimpleThreadCache
}.

(** What the code for one class reaches: the memory, the global list's [head], and
    [heads[class]] and [counts[class]] of the thread. *)
Record class_store : Type := {
  cs_mem : memory;
  cs_global : Z;
  cs_head : Z;
  cs_count : Z
}.

(** A null pointer. *)
Definition GlobalFreeList_new : Z := 0.

Definition GLOBAL_FREE_LISTS : list Z := replicate (Z.to_nat NUM_SIZE_CLASSES) GlobalFreeList_new.

Definition SimpleThreadCache_new : SimpleThreadCache :=
  {| sc_heads := replicate (Z.to_nat NUM_SIZE_CLASSES) 0;
     sc_counts := replicate (Z.to_nat NUM_SIZE_CLASSES) 0;
     sc_metrics := ThreadMetrics_new |}.

(** ** The lists of one class *)

Definition set_cs_mem (m : memory) (x : class_store) : class_store :=
  {| cs_mem := m; cs_global := cs_global x; cs_head := cs_head x; cs_count := cs_count x |}.

Definition set_cs_global (g : Z) (x : class_store) : class_store :=
  {| cs_mem := cs_mem x; cs_global := g; cs_head := cs_head x; cs_count := cs_count x |}.

Definition set_cs_local (h n : Z) (x : class_store) : class_store :=
  {| cs_mem := cs_mem x; cs_global := cs_global x; cs_head := h; cs_count := n |}.

Definition cs_on_mem {A} (m : M memory A) : M class_store A :=
  zoom (fun x => Some (cs_mem x)) set_cs_mem m.

Definition GlobalFreeList_push_batch (batch_head batch_tail : Z) : M class_store unit :=
  current ← gets cs_global;
  cs_on_mem (store64_at batch_tail current) ;;
  modifyS (set_cs_global batch_head).

Definition GlobalFreeList_pop : M class_store (option Z) :=
  current ← gets cs_global;
  if current =? 0 then mret None
  else
    next ← cs_on_mem (load64_at current);
    modifyS (set_cs_global next) ;;
    mret (Some current).

(** [write(block, heads[class]); heads[class] = block; counts[class] += 1]. *)
Definition push_local (block : Z) : M class_store unit :=
  x ← getS;
  cs_on_mem (store64_at block (cs_head x)) ;;
  modifyS (set_cs_local block (cs_count x +! 1)).

(** [next = read(head); heads[class] = next; counts[class] -= 1]. *)
Definition take_local (head : Z) : M class_store unit :=
  next ← cs_on_mem (load64_at head);
  modifyS (fun x => set_cs_local next (cs_count x -! 1) x).

(** The [while] of [pop_batch], [n] rounds before [transferred] reaches [count]. *)
Fixpoint pop_batch_loop (n : nat) (transferred : Z) : M class_store Z :=
  match n with
  | O => mret transferred
  | S n' =>
      r ← GlobalFreeList_pop;
      match r with
      | Some block => push_local block ;; pop_batch_loop n' (transferred +! 1)
      | None => mret transferred
      end
  end.

Definition GlobalFreeList_pop_batch (count : Z) : M class_store Z :=
  pop_batch_loop (Z.to_nat count) 0.

(** The two places a cached block may come from, in order. *)
Definition take_cached_block : M class_store (option Z) :=
  head ← gets cs_head;
  if negb (head =? 0) then take_local head ;; mret (Some head)
  else
    global ← gets cs_global;
    if negb (global =? 0) then
      transferred ← GlobalFreeList_pop_batch GLOBAL_FREE_BATCH;
      if 0 <? transferred then
        block ← gets cs_head;
        take_local block ;;
        mret (Some block)
      else mret None
    else mret None.

(** The [for i in 1..blocks_per_page], with [n] rounds left. *)
Fixpoint refill_loop (n : nat) (i base_ptr block_size : Z) : M class_store unit :=
  match n with
  | O => mret tt
  | S n' =>
      push_local (base_ptr + i * block_size) ;;
      refill_loop n' (i + 1) base_ptr block_size
  end.

(** The [while] that looks for the tail of the batch: [flush_count] rounds are enough. *)
Fixpoint walk_loop (fuel : nat) (walked flush_count batch_tail : Z) : M class_store Z :=
  if (walked <? flush_count) && negb (batch_tail =? 0) then
    match fuel with
    | O => fun _ => Diverge
    | S fuel' =>
        next ← cs_on_mem (load64_at batch_tail);
        walk_loop fuel' (walked + 1) flush_count next
    end
  else mret batch_tail.

(** Anti-hoarding: half of a list that has grown too long goes to the global one. *)
Definition flush_excess : M class_store unit :=
  count ← gets cs_count;
  if MAX_FREE_LIST_LENGTH <=? count then
    let flush_count := count / 2 in
    batch_head ← gets cs_head;
    batch_tail ← walk_loop (Z.to_nat flush_count) 1 flush_count batch_head;
    if negb (batch_tail =? 0) then
      new_local_head ← cs_on_mem (load64_at batch_tail);
      cs_on_mem (store64_at batch_tail 0) ;;
      modifyS (fun x => set_cs_local new_local_head (cs_count x -! flush_count) x) ;;
      GlobalFreeList_push_batch batch_head batch_tail
    else mret tt
  else mret tt.

(** ** Access to the parts of the state *)

Definition set_ss_mem (m : memory) (s : sstate) : sstate :=
  {| ss_mem := m; ss_lists := ss_lists s; ss_gmetrics := ss_gmetrics s; ss_caches := ss_caches s |}.

Definition get_class (t : nat) (class : Z) (s : sstate) : option class_store :=
  c ← ss_caches s !! t;
  g ← arr_get (ss_lists s) class;
  h ← arr_get (sc_heads c) class;
  n ← arr_get (sc_counts c) class;
  Some {| cs_mem := ss_mem s; cs_global := g; cs_head := h; cs_count := n |}.

Definition put_class (t : nat) (class : Z) (x : class_store) (s : sstate) : sstate :=
  match ss_caches s !! t with
  | None => s
  | Some c =>
      {| ss_mem := cs_mem x;
         ss_lists := <[Z.to_nat class := cs_global x]> (ss_lists s);
         ss_gmetrics := ss_gmetrics s;
         ss_caches := <[t := {| sc_heads := <[Z.to_nat class := cs_head x]> (sc_heads c);
                                sc_counts := <[Z.to_nat class := cs_count x]> (sc_counts c);
                                sc_metrics := sc_metrics c |}]> (ss_caches s) |}
  end.

(** The lists of a class as thread [t] sees them. *)
Definition on_class {A} (t : nat) (class : Z) (m : M class_store A) : M sstate A :=
  zoom (get_class t class) (put_class t class) m.

Definition get_smetrics (t : nat) (s : sstate) : option (Metrics * Metrics) :=
  c ← ss_caches s !! t; Some (ss_gmetrics s, sc_metrics c).

Definition put_smetrics (t : nat) (x : Metrics * Metrics) (s : sstate) : sstate :=
  match ss_caches s !! t with
  | None => s
  | Some c =>
      {| ss_mem := ss_mem s; ss_lists := ss_lists s; ss_gmetrics := x.1;
         ss_caches := <[t := {| sc_heads := sc_heads c; sc_counts := sc_counts c;
                                sc_metrics := x.2 |}]> (ss_caches s) |}
  end.

Definition on_smetrics {A} (t : nat) (m : M (Metrics * Metrics) A) : M sstate A :=
  zoom (get_smetrics t) (put_smetrics t) m.

(** The common code of the two modes runs on this state. *)
#[global] Instance sstate_mode : ModeOps sstate := {|
  md_mem := ss_mem;
  md_set := set_ss_mem;
  md_threads s := length (ss_caches s);
  md_metrics A := on_smetrics
|}.

(** ** Allocation *)

Section operations.
Context `{K : Kernel}.

(** A miss: cut a fresh page into blocks, or take pages for one block. *)
Definition simple_miss (t : nat) (class size cache_size : Z) : M sstate Z :=
  md_metrics t (modifyS (fun s => (s.1, count_event EvMiss s.2))) ;;
  let block_size := cache_size +! CACHE_HEADER_SIZE in
  let blocks_per_page := PAGE_SIZE / block_size in
  if 1 <? blocks_per_page then
    r ← md_on_mem (PageAllocator_alloc 1);
    match r with
    | Some base =>
        on_class t class (refill_loop (Z.to_nat (blocks_per_page - 1)) 1 base block_size) ;;
        miss_block t base size
    | None => alloc_own_pages t size block_size
    end
  else alloc_own_pages t size block_size.

(** [GlobalAlloc::alloc] by thread [t] for a layout of [size] and [align]. *)
Definition simple_alloc (t : nat) (size align : Z) : M sstate Z :=
  if size =? 0 then mret 0
  else if (size <=? MAX_CACHE_SIZE) && (align <=? 8) then
    let cache_size := Z.max (round_up_pow2 size) 16 in
    match size_to_class cache_size with
    | Some class =>
        r ← on_class t class take_cached_block;
        match r with
        | Some block => cache_hit t block size
        | None => simple_miss t class size cache_size
        end
    | None => alloc_large t size align
    end
  else alloc_large t size align.

(** ** Deallocation *)

Definition simple_dealloc_cached (t : nat) (class size_ptr : Z) : M sstate unit :=
  on_class t class (push_local size_ptr) ;;
  md_metrics t (record_event EvFree) ;;
  on_class t class flush_excess.

(** [GlobalAlloc::dealloc] by thread [t]; the layout is not looked at. *)
Definition simple_dealloc (t : nat) (ptr : Z) : M sstate unit :=
  if ptr =? 0 then mret tt
  else
    r ← md_on_mem (find_alloc ptr);
    match r with
    | FLarge base h | FPage base h => dealloc_pages t base h
    | FSmall size_ptr maybe_size =>
        match size_to_class (Z.max (round_up_pow2 maybe_size) 16) with
        | Some class => simple_dealloc_cached t class size_ptr
        | None => dealloc_by_page t ptr
        end
    end.
End operations.

(** A process with [n] threads, before any call. *)
Definition sstate_new (m : memory) (n : nat) : sstate :=
  {| ss_mem := m; ss_lists := GLOBAL_FREE_LISTS; ss_gmetrics := GlobalMetrics_new;
     ss_caches := replicate n SimpleThreadCache_new |}.
