(* ===== verification/SimpleLists.v ===== *)
(** * The lists of one class in simple-cache mode

    The blocks of the two lists and everything else in use are one arena.  Each
    operation moves blocks between the lists and the caller and leaves the bytes of
    the rest alone. *)

From S2P Require Import Prelude SizeClass Memory Extents AllocSpec Page Metrics Headers SimpleCache.

(** ** Definitions *)

(** The links lead from [h] through the blocks [l] to [e]. *)
Fixpoint seg (m : memory) (h : Z) (l : list Z) (e : Z) : Prop :=
  match l with
  | [] => h = e
  | p :: l' => h = p /\ p <> 0 /\ exists nx, load64 m p = Some nx /\ seg m nx l' e
  end.

Definition blocks (c : Z) (l : list Z) : list (Z * Z) := (fun b => (b, block_size c)) <$> l.

(** The global list consists of [G], the thread's list of [H]. *)
Definition lists_ok (x : class_store) (G H : list Z) : Prop :=
  seg (cs_mem x) (cs_global x) G 0 /\ seg (cs_mem x) (cs_head x) H 0 /\
  cs_count x = Z.of_nat (length H) /\ Z.of_nat (length H) <= MAX_FREE_LIST_LENGTH.

(** The lists and the rest [R] of what is in use. *)
Definition holds (c : Z) (x : class_store) (G H : list Z) (R : list (Z * Z)) : Prop :=
  0 <= c /\ lists_ok x G H /\ arena (cs_mem x) (blocks c G ++ blocks c H ++ R).

(** ** Segments *)

Lemma seg_agree m m' h l e :
  (forall p, p ∈ l -> agree_on m m' p 8) -> seg m h l e -> seg m' h l e.
Proof.
  revert h. induction l as [|p l IH]; intros h Hag; simpl; [done|].
  intros (-> & H0 & nx & Hnx & Hl). split_and!; [done|done|]. exists nx. split.
  - rewrite <- Hnx. apply load_le_agree, Hag. by left.
  - apply IH; [|done]. intros q Hq. apply Hag. by right.
Qed.

Lemma seg_app m h l1 l2 e : seg m h (l1 ++ l2) e <-> exists k, seg m h l1 k /\ seg m k l2 e.
Proof.
  revert h. induction l1 as [|p l1 IH]; intros h; simpl.
  - split; [eauto|]. by intros (k & -> & H).
  - setoid_rewrite IH. naive_solver.
Qed.

Lemma seg_null m l e : seg m 0 l e -> l = [].
Proof. destruct l; [done|]. intros (? & ? & _). congruence. Qed.

Lemma seg_cons m h l : h <> 0 -> seg m h l 0 ->
  exists l' nx, l = h :: l' /\ load64 m h = Some nx /\ seg m nx l' 0.
Proof. destruct l as [|p l]; [done|]. intros _ (-> & _ & nx & Hnx & Hl). eauto. Qed.

Lemma blocks_app c l l' : blocks c (l ++ l') = blocks c l ++ blocks c l'.
Proof. apply fmap_app. Qed.

Lemma blocks_cons c b l : blocks c (b :: l) = (b, block_size c) :: blocks c l.
Proof. done. Qed.

#[global] Instance blocks_perm c : Proper ((≡ₚ) ==> (≡ₚ)) (blocks c).
Proof. intros l l' H. unfold blocks. by rewrite H. Qed.

(** Bytes of blocks that do not change keep their segment. *)
Lemma seg_same c m m' h l e :
  0 <= c -> same_bytes (blocks c l) m m' -> seg m h l e -> seg m' h l e.
Proof.
  intros Hc Hs. apply seg_agree. intros p Hp i Hi. symmetry.
  apply (Hs (p, block_size c)); [apply list_elem_of_fmap; eauto|].
  pose proof (block_size_ge c Hc). unfold in_ext. simpl. lia.
Qed.

Lemma seg_head_usize c m h l R :
  seg m h l 0 -> arena m (blocks c l ++ R) -> is_usize h.
Proof.
  unfold is_usize. destruct l as [|p l]; simpl; [lia|]. intros (-> & _) Har.
  destruct (arena_ok _ _ _ Har (list_elem_of_here _ _)) as (H0 & _ & H1 & H2 & _).
  unfold USER_TOP in H2. cbn [fst snd] in *. lia.
Qed.

(** ** Memory accesses of a class *)

Lemma cs_on_mem_wp {A} (m : M memory A) x (Q : A -> class_store -> Prop) :
  wp m (fun a m' => Q a (set_cs_mem m' x)) (cs_mem x) -> wp (cs_on_mem m) Q x.
Proof. intros H. by eapply wp_zoom. Qed.

Lemma set_cs_mem_id x : set_cs_mem (cs_mem x) x = x.
Proof. by destruct x. Qed.

Lemma cs_load_wp a v x (Q : Z -> class_store -> Prop) :
  load64 (cs_mem x) a = Some v -> Q v x -> wp (cs_on_mem (load64_at a)) Q x.
Proof.
  intros Hl HQ. apply cs_on_mem_wp. eapply load64_at_wp; [done|]. by rewrite set_cs_mem_id.
Qed.

(** Writing the link of a block the caller owns. *)
Lemma cs_link_wp c b v R x (Q : unit -> class_store -> Prop) :
  0 <= c -> arena (cs_mem x) ((b, block_size c) :: R) -> is_usize v ->
  (forall m', arena m' ((b, block_size c) :: R) -> load64 m' b = Some v ->
     changes_only (cs_mem x) m' b 8 -> same_bytes R (cs_mem x) m' -> Q tt (set_cs_mem m' x)) ->
  wp (cs_on_mem (store64_at b v)) Q x.
Proof.
  intros Hc Har Hv HQ. pose proof (block_size_ge c Hc).
  destruct (arena_ok _ _ _ Har (list_elem_of_here _ _)) as (_ & _ & _ & _ & Hacc).
  cbn [fst snd] in Hacc. apply cs_on_mem_wp.
  apply store64_at_wp; [eapply accessible_sub; [done|lia|lia]|done|]. intros m' Hch Hld.
  apply HQ; [by eapply arena_changes|done|done|].
  eapply same_bytes_changes; [exact Har|exact Hch|]. unfold sub_ext. simpl. lia.
Qed.

(** ** The operations *)

Section operations.
Context (c : Z).

Lemma push_local_wp x G H R b (Q : unit -> class_store -> Prop) :
  holds c x G H ((b, block_size c) :: R) -> Z.of_nat (length H) < MAX_FREE_LIST_LENGTH ->
  (forall x', holds c x' G (b :: H) R -> same_bytes R (cs_mem x) (cs_mem x') -> Q tt x') ->
  wp (push_local b) Q x.
Proof.
  intros (Hc & (HG & HH & Hn & _) & Har) Hlen HQ. unfold push_local.
  assert (Har' : arena (cs_mem x) ((b, block_size c) :: blocks c G ++ blocks c H ++ R)).
  { eapply arena_perm; [|exact Har]. solve_Permutation. }
  apply wp_bind, wp_gets, wp_bind. eapply cs_link_wp; [done|exact Har'| |].
  { eapply (seg_head_usize c); [done|]. by apply arena_drop in Har. }
  intros m' Hm Hld Hch (SG & [SH SR]%same_bytes_app)%same_bytes_app. apply wp_modify.
  apply HQ; [|done]. split; [done|]. split.
  - split_and!; cbn [cs_mem cs_global cs_head cs_count set_cs_mem set_cs_local].
    + by eapply seg_same.
    + pose proof (arena_ok _ _ _ Hm (list_elem_of_here _ _)) as [Hb _]. cbn [fst] in Hb.
      split_and!; [done|lia|]. exists (cs_head x). split; [done|by eapply seg_same].
    + unfold MAX_FREE_LIST_LENGTH in *. rewrite Hn, wrap64_small by (unfold is_usize; lia).
      rewrite length_cons. lia.
    + rewrite length_cons. lia.
  - eapply arena_perm; [|exact Hm]. rewrite blocks_cons. solve_Permutation.
Qed.

Lemma take_local_wp x G H R b (Q : unit -> class_store -> Prop) :
  holds c x G (b :: H) R ->
  (forall x', holds c x' G H ((b, block_size c) :: R) -> cs_mem x' = cs_mem x -> Q tt x') ->
  wp (take_local b) Q x.
Proof.
  intros (Hc & (HG & (Hh & H0 & nx & Hnx & HH) & Hn & Hlen) & Har) HQ. unfold take_local.
  apply wp_bind. eapply cs_load_wp; [done|]. apply wp_modify. apply HQ; [|done].
  rewrite length_cons in *. unfold MAX_FREE_LIST_LENGTH in *. split; [done|]. split.
  - split_and!; cbn [cs_mem cs_global cs_head cs_count set_cs_local]; [done|done| |].
    + rewrite Hn, wrap64_small by (unfold is_usize; lia). lia.
    + unfold MAX_FREE_LIST_LENGTH. lia.
  - eapply arena_perm; [|exact Har]. rewrite blocks_cons. solve_Permutation.
Qed.

Lemma GlobalFreeList_pop_wp x G H R (Q : option Z -> class_store -> Prop) :
  holds c x G H R -> (G = [] -> Q None x) ->
  (forall b G' x', G = b :: G' -> holds c x' G' H ((b, block_size c) :: R) ->
     cs_mem x' = cs_mem x -> Q (Some b) x') ->
  wp GlobalFreeList_pop Q x.
Proof.
  intros (Hc & (HG & HH & Hn & Hlen) & Har) HN HS. unfold GlobalFreeList_pop.
  apply wp_bind, wp_gets. destruct (Z.eqb_spec (cs_global x) 0) as [H0|H0].
  { apply wp_ret, HN. rewrite H0 in HG. by apply seg_null in HG. }
  destruct (seg_cons _ _ _ H0 HG) as (G' & nx & -> & Hnx & HG').
  apply wp_bind. eapply cs_load_wp; [done|]. apply wp_bind, wp_modify, wp_ret.
  apply (HS _ G'); [done| |done]. split; [done|]. split; [done|].
  eapply arena_perm; [|exact Har]. rewrite blocks_cons. solve_Permutation.
Qed.

(** [n] blocks at most move from the global to the local list, which reverses them. *)
Lemma pop_batch_loop_wp n : forall k x G H R (Q : Z -> class_store -> Prop),
  holds c x G H R -> Z.of_nat (length H) + Z.of_nat n <= MAX_FREE_LIST_LENGTH ->
  0 <= k <= MAX_FREE_LIST_LENGTH - Z.of_nat n ->
  (forall x', holds c x' (drop n G) (reverse (take n G) ++ H) R ->
     same_bytes R (cs_mem x) (cs_mem x') -> Q (k + Z.of_nat (length (take n G))) x') ->
  wp (pop_batch_loop n k) Q x.
Proof.
  induction n as [|n IH]; intros k x G H R Q Hh Hlen Hk HQ.
  { apply wp_ret. replace k with (k + Z.of_nat (length (take 0 G))) by (simpl; lia).
    apply HQ; [done|auto with aeth]. }
  simpl pop_batch_loop. apply wp_bind. eapply GlobalFreeList_pop_wp; [exact Hh|..].
  - intros ->. apply wp_ret. replace k with (k + Z.of_nat (length (take (S n) (@nil Z)))) by (simpl; lia).
    apply HQ; [done|auto with aeth].
  - intros b G' x1 -> Hh1 Hm1. apply wp_bind. eapply push_local_wp; [exact Hh1|lia|].
    intros x2 Hh2 Hs2. unfold MAX_FREE_LIST_LENGTH in *. rewrite wrap64_small by (unfold is_usize; lia).
    eapply IH; [exact Hh2|rewrite length_cons; unfold MAX_FREE_LIST_LENGTH; lia|
      unfold MAX_FREE_LIST_LENGTH; lia|].
    intros x3 Hh3 Hs3. simpl in HQ. rewrite reverse_cons, <- app_assoc in HQ.
    replace (k + 1 + Z.of_nat (length (take n G'))) with (k + Z.of_nat (S (length (take n G')))) by lia.
    apply HQ; [done|]. eapply same_bytes_trans; [|done]. by rewrite <- Hm1.
Qed.

(** A cached block, when one of the lists has one; none when both are empty. *)
Lemma take_cached_block_wp x G H R (Q : option Z -> class_store -> Prop) :
  holds c x G H R ->
  (G = [] -> H = [] -> Q None x) ->
  (forall b G' H' x', G ++ H ≡ₚ b :: G' ++ H' -> holds c x' G' H' ((b, block_size c) :: R) ->
     Z.of_nat (length H') < MAX_FREE_LIST_LENGTH -> same_bytes R (cs_mem x) (cs_mem x') ->
     Q (Some b) x') ->
  wp take_cached_block Q x.
Proof.
  intros Hh HN HS. pose proof Hh as (Hc & (HG & HH & Hn & Hlen) & Har). unfold take_cached_block.
  apply wp_bind, wp_gets. destruct (Z.eqb_spec (cs_head x) 0) as [H0|H0]; simpl negb; cbv iota.
  2:{ destruct (seg_cons _ _ _ H0 HH) as (H' & nx & -> & Hnx & HH').
      apply wp_bind. eapply take_local_wp; [done|]. intros x1 Hh1 Hm1. apply wp_ret.
      rewrite length_cons in Hlen.
      eapply HS; [|exact Hh1|lia|rewrite Hm1; auto with aeth]. by rewrite <- Permutation_middle. }
  rewrite H0 in HH. apply seg_null in HH as ->.
  apply wp_bind, wp_gets. destruct (Z.eqb_spec (cs_global x) 0) as [H1|H1]; simpl negb; cbv iota.
  { apply wp_ret. apply HN; [|done]. rewrite H1 in HG. by apply seg_null in HG. }
  destruct (seg_cons _ _ _ H1 HG) as (G' & nx & -> & Hnx & HG').
  apply wp_bind. unfold GlobalFreeList_pop_batch.
  eapply pop_batch_loop_wp; [exact Hh|unfold MAX_FREE_LIST_LENGTH, GLOBAL_FREE_BATCH; simpl; lia..|].
  intros x1 Hh1 Hs1. change (Z.to_nat GLOBAL_FREE_BATCH) with 128%nat in *.
  destruct (Z.ltb_spec 0 (0 + Z.of_nat (length (take 128 (cs_global x :: G')))));
    [|simpl in *; lia].
  apply wp_bind, wp_gets. rewrite app_nil_r in Hh1.
  assert (Hne : reverse (take 128 (cs_global x :: G')) <> []).
  { intros He. apply (f_equal length) in He. rewrite length_reverse in He. simpl in He. lia. }
  pose proof (take_drop 128 (cs_global x :: G')) as Htd.
  pose proof (length_take_le (cs_global x :: G') 128) as Hlt.
  assert (Hl128 : (length (reverse (take 128 (cs_global x :: G'))) <= 128)%nat).
  { rewrite length_reverse, length_take. lia. }
  destruct (reverse (take 128 (cs_global x :: G'))) as [|b H'] eqn:Hrev; [done|].
  assert (Hb : cs_head x1 = b) by (destruct Hh1 as (_ & (_ & (? & _) & _) & _); done). rewrite Hb.
  apply wp_bind. eapply take_local_wp; [exact Hh1|]. intros x2 Hh2 Hm2. apply wp_ret.
  eapply (HS b _ H'); [|exact Hh2| |by rewrite Hm2].
  - rewrite app_nil_r. rewrite <- Htd at 1.
    rewrite <- (reverse_Permutation (take 128 (cs_global x :: G'))), Hrev.
    change ((b :: H') ++ ?l) with (b :: H' ++ l). by rewrite (Permutation_app_comm H').
  - simpl in Hl128. unfold MAX_FREE_LIST_LENGTH. lia.
Qed.

(** The blocks of a fresh page. *)
Lemma refill_loop_wp n : forall i x G H R base (Q : unit -> class_store -> Prop),
  holds c x G H (carve (base + i * block_size c) (block_size c) n ++ R) ->
  Z.of_nat (length H) + Z.of_nat n <= MAX_FREE_LIST_LENGTH ->
  (forall x' H', holds c x' G H' R -> length H' = (length H + n)%nat ->
     same_bytes R (cs_mem x) (cs_mem x') -> Q tt x') ->
  wp (refill_loop n i base (block_size c)) Q x.
Proof.
  induction n as [|n IH]; intros i x G H R base Q Hh Hlen HQ.
  { apply wp_ret. apply (HQ x H); [done|lia|auto with aeth]. }
  rewrite carve_S in Hh. simpl refill_loop. apply wp_bind. eapply push_local_wp; [exact Hh|lia|].
  intros x1 Hh1 [_ Hs1]%same_bytes_app.
  replace (base + i * block_size c + block_size c) with (base + (i + 1) * block_size c) in Hh1 by lia.
  eapply IH; [exact Hh1|rewrite length_cons; lia|]. intros x2 H' Hh2 Hlen2 Hs2.
  apply (HQ x2 H'); [done|rewrite Hlen2, length_cons; lia|by eapply same_bytes_trans].
Qed.

(** The walk ends at the block before the [flush_count]-th link. *)
Lemma walk_loop_wp l1 : forall fuel walked b p l2 x (Q : Z -> class_store -> Prop),
  seg (cs_mem x) b (l1 ++ p :: l2) 0 -> (length l1 <= fuel)%nat -> Q p x ->
  wp (walk_loop fuel walked (walked + Z.of_nat (length l1)) b) Q x.
Proof.
  induction l1 as [|q l1 IH]; intros fuel walked b p l2 x Q Hseg Hfuel HQ.
  - destruct Hseg as [-> _]. replace (walked + Z.of_nat (length [])) with walked by (simpl; lia).
    destruct fuel; simpl walk_loop; rewrite Z.ltb_irrefl; by apply wp_ret.
  - destruct Hseg as (-> & H0 & nx & Hnx & Hseg). simpl in Hfuel. destruct fuel as [|fuel]; [lia|].
    replace (walked + Z.of_nat (length (q :: l1))) with (walked + 1 + Z.of_nat (length l1)) by (simpl; lia).
    simpl walk_loop. destruct (Z.ltb_spec walked (walked + 1 + Z.of_nat (length l1))); [|lia].
    destruct (Z.eqb_spec q 0); [done|]. simpl andb. cbv iota. apply wp_bind.
    eapply cs_load_wp; [done|].
    eapply IH; [done|lia|done].
Qed.

Lemma split_at (l : list Z) n :
  (n < length l)%nat ->
  exists l1 p l2, l = l1 ++ p :: l2 /\ length l1 = n /\ take (S n) l = l1 ++ [p] /\ drop (S n) l = l2.
Proof.
  intros Hn. destruct (lookup_lt_is_Some_2 l n Hn) as [p Hp]. exists (take n l), p, (drop (S n) l).
  split_and!; [by rewrite take_drop_middle|rewrite length_take; lia|by apply take_S_r|done].
Qed.

(** A list of at most [MAX_FREE_LIST_LENGTH] blocks is shorter after the flush: half
    of a list of that length goes to the front of the global list. *)
Lemma flush_excess_wp x G H R (Q : unit -> class_store -> Prop) :
  holds c x G H R ->
  (Z.of_nat (length H) < MAX_FREE_LIST_LENGTH -> Q tt x) ->
  (forall x', length H = 4096%nat -> holds c x' (take 2048 H ++ G) (drop 2048 H) R ->
     same_bytes R (cs_mem x) (cs_mem x') -> Q tt x') ->
  wp flush_excess Q x.
Proof.
  intros (Hc & (HG & HH & Hn & Hlen) & Har) HN HS. unfold flush_excess.
  apply wp_bind, wp_gets. destruct (Z.leb_spec MAX_FREE_LIST_LENGTH (cs_count x)) as [Hge|Hlt].
  2:{ apply wp_ret, HN. lia. }
  unfold MAX_FREE_LIST_LENGTH in *. assert (Hl : length H = 4096%nat) by lia. cbv zeta.
  rewrite Hn, Hl. change (Z.of_nat 4096 / 2) with 2048. change (Z.to_nat 2048) with 2048%nat.
  destruct (split_at H 2047) as (l1 & p & l2 & HE & Hl1 & Ht & Hd); [lia|].
  rewrite Ht, Hd in HS. subst H.
  apply wp_bind, wp_gets, wp_bind.
  replace 2048 with (1 + Z.of_nat (length l1)) at 1 by (rewrite Hl1; done).
  eapply walk_loop_wp; [exact HH|lia|].
  apply seg_app in HH as (k & HH1 & (-> & Hp0 & nx & Hnx & HH2)).
  destruct (Z.eqb_spec p 0); [done|]. simpl negb. cbv iota.
  apply wp_bind. eapply cs_load_wp; [done|].
  assert (Har' : arena (cs_mem x) ((p, block_size c) :: blocks c G ++ blocks c (l1 ++ l2) ++ R)).
  { eapply arena_perm; [|exact Har]. rewrite !blocks_app, blocks_cons. solve_Permutation. }
  apply wp_bind. eapply cs_link_wp; [done|exact Har'|done|].
  intros m1 Har1 Hld1 Hch1 (SG1 & [SH1 SR1]%same_bytes_app)%same_bytes_app.
  rewrite blocks_app in SH1. apply same_bytes_app in SH1 as [SA1 SB1].
  apply wp_bind, wp_modify. unfold GlobalFreeList_push_batch. apply wp_bind, wp_gets, wp_bind.
  cbn [cs_mem cs_global cs_head cs_count set_cs_mem set_cs_local].
  eapply (cs_link_wp c p); [done|exact Har1| |].
  { eapply (seg_head_usize c); [exact HG|]. by apply arena_drop_r in Har; rewrite app_nil_r. }
  intros m2 Har2 Hld2 Hch2 (SG2 & [SH2 SR2]%same_bytes_app)%same_bytes_app.
  rewrite blocks_app in SH2. apply same_bytes_app in SH2 as [SA2 SB2].
  apply wp_modify. apply HS; [done| |by eapply same_bytes_trans].
  cbn [cs_mem cs_global cs_head cs_count set_cs_mem set_cs_local set_cs_global] in *.
  assert (twice : forall l h e, same_bytes (blocks c l) (cs_mem x) m1 -> same_bytes (blocks c l) m1 m2 ->
    seg (cs_mem x) h l e -> seg m2 h l e).
  { intros l h e S1 S2. apply (seg_same c); [done|]. by eapply same_bytes_trans. }
  split; [done|]. split.
  - split_and!; cbn [cs_mem cs_global cs_head cs_count set_cs_mem set_cs_local set_cs_global].
    + apply seg_app. exists (cs_global x). split.
      * apply seg_app. exists p. split.
        { by apply (twice l1). }
        split_and!; [done|done|]. by exists (cs_global x).
      * by apply (twice G).
    + by apply (twice l2).
    + rewrite wrap64_small; rewrite length_app, length_cons in Hl; unfold is_usize; lia.
    + rewrite length_app, length_cons in Hl. unfold MAX_FREE_LIST_LENGTH. lia.
  - eapply arena_perm; [|exact Har2]. rewrite !blocks_app. solve_Permutation.
Qed.
End operations.
