(* ===== verification/SimpleSafe.v ===== *)
(** * Correctness of the simple-cache allocator

    The blocks on the lists of every thread, on the global lists and the live
    allocations are one arena; every list is linked and its counter is its length,
    which stays below the limit.  Every call keeps this, and the allocator meets the
    contract of AllocSpec, so it is a second implementation of the reference heap. *)

From S2P Require Import Prelude SizeClass Memory Extents AllocSpec Page Metrics Headers.
From S2P Require Import AllocCore SimpleCache SimpleLists.

(** ** The invariant *)

Definition sc_view (c : SimpleThreadCache) : list Z * list Z := (sc_heads c, sc_counts c).

Definition s_views (s : sstate) : list (list Z * list Z) := sc_view <$> ss_caches s.

(** The blocks of one list per class. *)
Definition row_exts (ls : list (list Z)) : list (Z * Z) :=
  concat (imap (fun i l => blocks (Z.of_nat i) l) ls).

Definition rows_exts (G : list (list Z)) (HH : list (list (list Z))) : list (Z * Z) :=
  row_exts G ++ concat (row_exts <$> HH).

Definition row_ok (m : memory) (hs : list Z) (ls : list (list Z)) : Prop :=
  length ls = Z.to_nat NUM_SIZE_CLASSES /\ Forall2 (fun h l => seg m h l 0) hs ls.

(** A thread's heads and counters, for the lists [ls]. *)
Definition cache_ok (m : memory) (v : list Z * list Z) (ls : list (list Z)) : Prop :=
  row_ok m v.1 ls /\ v.2 = (fun l => Z.of_nat (length l)) <$> ls /\
  Forall (fun l => Z.of_nat (length l) <= MAX_FREE_LIST_LENGTH) ls.

(** Between calls the lists are shorter than the limit. *)
Definition short_rows (ls : list (list Z)) : Prop :=
  Forall (fun l => Z.of_nat (length l) < MAX_FREE_LIST_LENGTH) ls.

(** The global lists hold [G], the threads' lists [HH]. *)
Definition linked (s : sstate) (G : list (list Z)) (HH : list (list (list Z))) : Prop :=
  row_ok (ss_mem s) (ss_lists s) G /\ Forall2 (cache_ok (ss_mem s)) (s_views s) HH.

Definition SKept (s : sstate) (E : list (Z * Z)) : Prop :=
  exists G HH, linked s G HH /\ Forall short_rows HH /\ E ≡ₚ rows_exts G HH.

(** States that differ in their counters. *)
#[global] Instance sstate_equiv : Equiv sstate := fun s s' =>
  ss_mem s = ss_mem s' /\ ss_lists s = ss_lists s' /\ s_views s = s_views s'.

#[global] Instance sstate_equivalence : Equivalence (≡@{sstate}).
Proof.
  split.
  - by intros s.
  - intros s s' (? & ? & ?). by split_and!.
  - intros s1 s2 s3 (? & ? & ?) (? & ? & ?). split_and!; congruence.
Qed.

Lemma s_views_length s : length (s_views s) = md_threads s.
Proof. apply length_fmap. Qed.

(** ** One class of one thread *)

Lemma row_exts_elem ls i l b :
  ls !! i = Some l -> b ∈ l -> (b, block_size (Z.of_nat i)) ∈ row_exts ls.
Proof.
  intros Hl Hb. unfold row_exts. apply list_elem_of_In, in_concat. eexists. split.
  - apply list_elem_of_In, list_elem_of_lookup. exists i. by rewrite list_lookup_imap, Hl.
  - apply list_elem_of_In. simpl. apply list_elem_of_fmap. eauto.
Qed.

Lemma row_ok_same m m' hs ls : same_bytes (row_exts ls) m m' -> row_ok m hs ls -> row_ok m' hs ls.
Proof.
  intros Hs [Hlen HF]. split; [done|]. apply Forall2_same_length_lookup in HF as [Hl HF].
  apply Forall2_same_length_lookup. split; [done|]. intros i h l Hh Hlk.
  apply (seg_same (Z.of_nat i) m); [lia| |by apply (HF i)].
  eapply same_bytes_incl; [|exact Hs]. intros e (b & -> & Hb)%list_elem_of_fmap.
  by eapply row_exts_elem.
Qed.

Lemma linked_same s m' G HH :
  same_bytes (rows_exts G HH) (ss_mem s) m' -> linked s G HH -> linked (set_ss_mem m' s) G HH.
Proof.
  intros [HsG HsH]%same_bytes_app [HG HV]. split; [by eapply row_ok_same|].
  unfold s_views. simpl. fold (s_views s). revert HsH.
  induction HV as [|v ls vs HH [Hv Hc] HV IH]; intros HsH; [done|].
  apply same_bytes_app in HsH as [Hs1 Hs2]. constructor; [|by apply IH].
  split; [by eapply row_ok_same|done].
Qed.

Lemma SKept_same s m' E : same_bytes E (ss_mem s) m' -> SKept s E -> SKept (set_ss_mem m' s) E.
Proof.
  intros Hs (G & HH & Hl & Hsh & HE). exists G, HH. split; [|done]. apply linked_same; [|done].
  by rewrite <- HE.
Qed.

#[global] Instance SKept_perm s : Proper ((≡ₚ) ==> iff) (SKept s).
Proof. intros E E' HE. unfold SKept. by setoid_rewrite HE. Qed.

Section focus.
Context (t : nat) (c : Z) (Hc : 0 <= c < NUM_SIZE_CLASSES).

(** The lists of thread [t] and class [c] against the rest. *)
Lemma rows_exts_focus G HH Hs :
  HH !! t = Some Hs -> (Z.to_nat c < length G)%nat -> (Z.to_nat c < length Hs)%nat ->
  exists R, forall g h, rows_exts (<[Z.to_nat c := g]> G) (<[t := <[Z.to_nat c := h]> Hs]> HH) ≡ₚ
    blocks c g ++ blocks c h ++ R.
Proof.
  intros HHt [g0 Hg]%lookup_lt_is_Some_2 [h0 Hh]%lookup_lt_is_Some_2.
  destruct (concat_imap_focus (fun i l => blocks (Z.of_nat i) l) G _ _ Hg) as (R1 & _ & HR1).
  destruct (concat_imap_focus (fun i l => blocks (Z.of_nat i) l) Hs _ _ Hh) as (R2 & _ & HR2).
  destruct (concat_fmap_focus row_exts HH t Hs HHt) as (R3 & _ & HR3).
  exists (R1 ++ R2 ++ R3). intros g h. unfold rows_exts. rewrite HR3. unfold row_exts at 1 2.
  rewrite HR1, HR2, Z2Nat.id by lia. solve_Permutation.
Qed.

Lemma linked_lookup s G HH :
  linked s G HH -> (t < md_threads s)%nat ->
  exists x Hs g h, get_class t c s = Some x /\ cs_mem x = ss_mem s /\ HH !! t = Some Hs /\
    G !! Z.to_nat c = Some g /\ Hs !! Z.to_nat c = Some h /\ lists_ok x g h.
Proof.
  intros [[HlG HG] HV] Ht. destruct (lookup_lt_is_Some_2 (s_views s) t) as [v Hv];
    [by rewrite s_views_length|].
  destruct (Forall2_lookup_l _ _ _ _ _ HV Hv) as (Hs & HHt & [[HlH HH'] [Hcnt Hlt]]).
  unfold NUM_SIZE_CLASSES in *.
  destruct (lookup_lt_is_Some_2 G (Z.to_nat c)) as [g Hg]; [lia|].
  destruct (lookup_lt_is_Some_2 Hs (Z.to_nat c)) as [h Hh]; [lia|].
  destruct (Forall2_lookup_r _ _ _ _ _ HG Hg) as (gh & Hgh & Sg).
  destruct (Forall2_lookup_r _ _ _ _ _ HH' Hh) as (hh & Hhh & Sh).
  unfold s_views in Hv. rewrite list_lookup_fmap in Hv.
  destruct (ss_caches s !! t) as [ca|] eqn:Hca; [|done]. simplify_eq/=.
  assert (Hn : sc_counts ca !! Z.to_nat c = Some (Z.of_nat (length h))).
  { rewrite Hcnt, list_lookup_fmap, Hh. done. }
  pose proof (Forall_lookup_1 _ _ _ _ Hlt Hh) as Hlen. simpl in Hlen.
  exists {| cs_mem := ss_mem s; cs_global := gh; cs_head := hh; cs_count := Z.of_nat (length h) |}.
  exists Hs, g, h. split_and!; try done.
  - unfold get_class. rewrite Hca. simpl. unfold arr_get.
    destruct (Z.leb_spec 0 c); [|lia]. by rewrite Hgh, Hhh, Hn.
Qed.

(** The lists of a class replaced, the memory being as it was. *)
Lemma linked_put s G HH Hs x' g h :
  linked s G HH -> HH !! t = Some Hs -> cs_mem x' = ss_mem s -> lists_ok x' g h ->
  linked (put_class t c x' s) (<[Z.to_nat c := g]> G) (<[t := <[Z.to_nat c := h]> Hs]> HH) /\
  md_threads (put_class t c x' s) = md_threads s /\ ss_mem (put_class t c x' s) = cs_mem x'.
Proof.
  intros [[HlG HG] HV] HHt Hm (Sg & Sh & Hn & Hlen).
  destruct (Forall2_lookup_r _ _ _ _ _ HV HHt) as (v & Hv & [[HlH HH'] [Hcnt Hlt]]).
  unfold s_views in Hv. rewrite list_lookup_fmap in Hv.
  destruct (ss_caches s !! t) as [ca|] eqn:Hca; [|done]. simplify_eq/=.
  unfold put_class. rewrite Hca. rewrite Hm in Sg, Sh. split_and!; simpl; [|..|done].
  - split; simpl; rewrite Hm.
    + split; [by rewrite length_insert|]. by apply Forall2_insert.
    + unfold s_views. simpl. rewrite list_fmap_insert. apply Forall2_insert; [done|].
      split_and!; simpl.
      * split; [by rewrite length_insert|]. by apply Forall2_insert.
      * rewrite Hcnt, list_fmap_insert, Hn. done.
      * by apply Forall_insert.
  - apply length_insert.
Qed.

Lemma put_class_put s m x x' :
  (t < md_threads s)%nat ->
  put_class t c x' (set_ss_mem m (put_class t c x s)) = put_class t c x' s.
Proof.
  intros Ht. destruct (lookup_lt_is_Some_2 _ _ Ht) as [ca Hca]. unfold put_class. rewrite Hca. simpl.
  rewrite list_lookup_insert_eq by done. simpl. by rewrite !list_insert_insert_eq.
Qed.

(** The lists of the class change, with the memory, and everything else is kept. *)
Lemma linked_focus s G HH :
  linked s G HH -> (t < md_threads s)%nat ->
  exists x Hs g h R, get_class t c s = Some x /\ cs_mem x = ss_mem s /\ lists_ok x g h /\
    G !! Z.to_nat c = Some g /\ HH !! t = Some Hs /\ Hs !! Z.to_nat c = Some h /\
    rows_exts G HH ≡ₚ blocks c g ++ blocks c h ++ R /\
    forall x' g' h', lists_ok x' g' h' -> same_bytes R (ss_mem s) (cs_mem x') ->
      linked (put_class t c x' s) (<[Z.to_nat c := g']> G) (<[t := <[Z.to_nat c := h']> Hs]> HH) /\
      rows_exts (<[Z.to_nat c := g']> G) (<[t := <[Z.to_nat c := h']> Hs]> HH) ≡ₚ
        blocks c g' ++ blocks c h' ++ R /\
      md_threads (put_class t c x' s) = md_threads s /\ ss_mem (put_class t c x' s) = cs_mem x'.
Proof.
  intros Hl Ht.
  destruct (linked_lookup s G HH Hl Ht) as (x & Hs & g & h & Hx & Hm & HHt & Hg & Hh & Hok).
  destruct (rows_exts_focus G HH Hs HHt) as (R & HR); [by eapply lookup_lt_Some..|].
  exists x, Hs, g, h, R. split_and!; try done.
  { rewrite <- HR, (list_insert_id Hs), (list_insert_id G), (list_insert_id HH) by done. done. }
  intros x' g' h' Hok' Hs'.
  set (x0 := {| cs_mem := ss_mem s; cs_global := 0; cs_head := 0; cs_count := 0 |}).
  destruct (linked_put s G HH Hs x0 [] [] Hl HHt) as (Hl0 & Ht0 & Hm0); [done|done|].
  assert (Hl1 : linked (set_ss_mem (cs_mem x') (put_class t c x0 s)) (<[Z.to_nat c := []]> G)
    (<[t := <[Z.to_nat c := []]> Hs]> HH)).
  { apply linked_same; [|done]. rewrite Hm0, HR. done. }
  destruct (linked_put _ _ _ (<[Z.to_nat c := []]> Hs) x' g' h' Hl1) as (Hl2 & Ht2 & Hm2); try done.
  { apply list_lookup_insert_eq. by eapply lookup_lt_Some. }
  rewrite put_class_put in Hl2, Ht2, Hm2 by done. rewrite !list_insert_insert_eq in Hl2.
  split_and!; [exact Hl2|by rewrite HR|by rewrite Ht2|done].
Qed.

(** Everything else is kept while the lists of the class change. *)
Lemma SKept_focus s E :
  SKept s E -> (t < md_threads s)%nat ->
  exists x g h R, get_class t c s = Some x /\ cs_mem x = ss_mem s /\ lists_ok x g h /\
    Z.of_nat (length h) < MAX_FREE_LIST_LENGTH /\ E ≡ₚ blocks c g ++ blocks c h ++ R /\
    forall x' g' h', lists_ok x' g' h' -> Z.of_nat (length h') < MAX_FREE_LIST_LENGTH ->
      same_bytes R (ss_mem s) (cs_mem x') ->
      SKept (put_class t c x' s) (blocks c g' ++ blocks c h' ++ R) /\
      md_threads (put_class t c x' s) = md_threads s /\ ss_mem (put_class t c x' s) = cs_mem x'.
Proof.
  intros (G & HH & Hl & Hsh & HE) Ht.
  destruct (linked_focus s G HH Hl Ht) as (x & Hs & g & h & R & Hx & Hm & Hok & Hg & HHt & Hh & HR & Hput).
  pose proof (Forall_lookup_1 _ _ _ _ Hsh HHt) as Hs1. pose proof (Forall_lookup_1 _ _ _ _ Hs1 Hh) as Hlen.
  exists x, g, h, R. split_and!; try done; [by rewrite HE|].
  intros x' g' h' Hok' Hlen' Hs'. destruct (Hput x' g' h' Hok' Hs') as (Hl2 & HR2 & Ht2 & Hm2).
  split_and!; [|done|done]. eexists _, _. split; [exact Hl2|]. split; [|by rewrite HR2].
  apply Forall_insert; [done|]. by apply Forall_insert.
Qed.
End focus.

(** ** The counters *)

Lemma put_smetrics_equiv t x s : put_smetrics t x s ≡ s.
Proof.
  unfold put_smetrics. destruct (ss_caches s !! t) as [c|] eqn:Hc; [|done].
  split_and!; try done. unfold s_views. simpl. rewrite list_fmap_insert.
  apply list_insert_id. by rewrite list_lookup_fmap, Hc.
Qed.

(** The simple-cache mode as a mode of the allocator. *)
#[global] Instance sstate_mode_laws : ModeLaws sstate.
Proof.
  refine {| md_kept := SKept |}.
  - intros s E E' HE HK. by rewrite <- HE.
  - done.
  - by intros [].
  - done.
  - intros s m' E HK Hs. by apply SKept_same.
  - intros s s' (Hm & Hl & Hv). split_and!; [done|by rewrite <- !s_views_length, Hv|].
    intros E (G & HH & [HG HV] & Hsh & HE). exists G, HH. split; [|done].
    split; [by rewrite Hm, Hl|by rewrite Hm, Hv].
  - intros A t m s Q Hm Ht HQ. destruct (lookup_lt_is_Some_2 (ss_caches s) t Ht) as [c Hc].
    eapply wp_zoom; [unfold get_smetrics; by rewrite Hc|].
    eapply wp_mono; [apply Hm|]. intros a x' _. apply HQ, put_smetrics_equiv.
Defined.

Section class.
Context (t : nat) (c : Z).

Lemma get_class_equiv s s' : s ≡ s' -> get_class t c s = get_class t c s'.
Proof.
  intros (Hm & Hl & Hv). unfold get_class. rewrite Hm, Hl.
  apply (f_equal (lookup t)) in Hv. unfold s_views in Hv. rewrite !list_lookup_fmap in Hv.
  destruct (ss_caches s !! t) as [ca|], (ss_caches s' !! t) as [ca'|]; simplify_eq/=; [|done].
  destruct ca, ca'. simpl in *. by simplify_eq.
Qed.

Lemma s_views_put x s v :
  s_views s !! t = Some v ->
  s_views (put_class t c x s) =
    <[t := (<[Z.to_nat c := cs_head x]> v.1, <[Z.to_nat c := cs_count x]> v.2)]> (s_views s) /\
  ss_mem (put_class t c x s) = cs_mem x /\
  ss_lists (put_class t c x s) = <[Z.to_nat c := cs_global x]> (ss_lists s).
Proof.
  unfold s_views. rewrite list_lookup_fmap. unfold put_class.
  destruct (ss_caches s !! t) as [ca|]; [|done]. intros [= <-]. simpl.
  by rewrite list_fmap_insert.
Qed.

Lemma put_class_equiv x s s' :
  (t < md_threads s)%nat -> s ≡ s' -> put_class t c x s ≡ put_class t c x s'.
Proof.
  intros Ht (Hm & Hl & Hv). rewrite <- s_views_length in Ht.
  destruct (lookup_lt_is_Some_2 _ _ Ht) as [v Hlk].
  destruct (s_views_put x s v Hlk) as (V1 & M1 & L1). rewrite Hv in Hlk.
  destruct (s_views_put x s' v Hlk) as (V2 & M2 & L2). split_and!; congruence.
Qed.

Lemma get_put_class x x' s :
  get_class t c s = Some x -> get_class t c (put_class t c x' s) = Some x'.
Proof.
  unfold get_class, put_class. destruct (ss_caches s !! t) as [ca|] eqn:Hca; [|done]. simpl.
  destruct (arr_get (ss_lists s) c) as [g|] eqn:Hg; [|done].
  destruct (arr_get (sc_heads ca) c) as [h|] eqn:Hh; [|done].
  destruct (arr_get (sc_counts ca) c) as [n|] eqn:Hn; [|done]. intros _.
  rewrite list_lookup_insert_eq by (by eapply lookup_lt_Some). simpl.
  apply arr_get_lookup in Hg as [H0 Hg%lookup_lt_Some], Hh as [_ Hh%lookup_lt_Some],
    Hn as [_ Hn%lookup_lt_Some].
  unfold arr_get. destruct (Z.leb_spec 0 c); [|lia].
  rewrite !list_lookup_insert_eq by done. by destruct x'.
Qed.
End class.

#[global] Instance holds_perm c x G H : Proper ((≡ₚ) ==> iff) (holds c x G H).
Proof. intros R R' HR. unfold holds. by rewrite HR. Qed.

(** ** [alloc] *)

Section alloc.
Context `{K : Kernel} {KS : KernelSpec K}.
Context (t : nat) (c : Z) (Hc : 0 <= c <= 12).

(** A computation on the lists of a class inside a call. *)
Lemma on_class_wp {A} (m : M class_store A) s0 L F s (Q : A -> sstate -> Prop) :
  inside t s0 L F s ->
  (forall x g h R, get_class t c s = Some x -> holds c x g h (F ++ R) ->
     Z.of_nat (length h) < MAX_FREE_LIST_LENGTH ->
     wp m (fun a x' => exists g' h' F', holds c x' g' h' (F' ++ R) /\
       Z.of_nat (length h') < MAX_FREE_LIST_LENGTH /\ same_bytes R (cs_mem x) (cs_mem x') /\
       (inside t s0 L F' (put_class t c x' s) -> Q a (put_class t c x' s))) x) ->
  wp (on_class t c m) Q s.
Proof.
  intros (Ht & Hn & Hp & Hl & E & HK & Har) Hm.
  destruct (SKept_focus t c) with s E as (x & g & h & R & Hx & Hmem & Hok & Hlen & HE & Hput);
    [unfold NUM_SIZE_CLASSES; lia|done|by rewrite Hn|].
  eapply wp_zoom; [exact Hx|]. eapply wp_mono; [apply (Hm x g h ((live_ext <$> L) ++ R)); [done| |done]|].
  - split; [lia|]. split; [done|]. rewrite Hmem. eapply arena_perm; [|exact Har].
    rewrite HE. solve_Permutation.
  - simpl. intros a x' (g' & h' & F' & (_ & Hok' & Har') & Hlen' & [HsL HsR]%same_bytes_app & HQ).
    rewrite Hmem in HsL, HsR.
    destruct (Hput x' g' h' Hok' Hlen' HsR) as (HK' & Hn' & Hm').
    assert (Hp' : preserves L s (put_class t c x' s)) by (unfold preserves; simpl; by rewrite Hm').
    apply HQ. split_and!; [done|congruence|by eapply preserves_trans|by eapply preserves_live_ok|].
    eexists. split; [exact HK'|]. simpl. rewrite Hm'. eapply arena_perm; [|exact Har'].
    solve_Permutation.
Qed.

(** The thread's list of the class is empty. *)
Definition no_local (s : sstate) : Prop := exists x, get_class t c s = Some x /\ cs_head x = 0.

Lemma no_local_equiv s s' : s ≡ s' -> no_local s' -> no_local s.
Proof. intros Heq (x & Hx & H0). exists x. by rewrite (get_class_equiv _ _ _ _ Heq). Qed.

Lemma no_local_set m s : no_local s -> no_local (set_ss_mem m s).
Proof.
  intros (x & Hx & H0). unfold no_local, get_class in *. simpl.
  destruct (ss_caches s !! t) as [ca|]; [|done]. simpl in *.
  destruct (arr_get (ss_lists s) c); [|done]. destruct (arr_get (sc_heads ca) c); [|done].
  destruct (arr_get (sc_counts ca) c); [|done]. simplify_eq/=. eexists. split; [done|]. done.
Qed.

Lemma refill_wp s0 L s p n (Q : unit -> sstate -> Prop) :
  inside t s0 L ((p, block_size c) :: carve (p + block_size c) (block_size c) n) s ->
  no_local s -> Z.of_nat n < MAX_FREE_LIST_LENGTH ->
  (forall s', inside t s0 L [(p, block_size c)] s' -> Q tt s') ->
  wp (on_class t c (refill_loop n 1 p (block_size c))) Q s.
Proof.
  intros Hin (x0 & Hx0 & H0) Hn HQ. eapply on_class_wp; [done|].
  intros x g h R Hx Hh Hlen. simplify_eq.
  assert (h = []) as ->.
  { destruct Hh as (_ & (_ & Hseg & _) & _). rewrite H0 in Hseg. by apply seg_null in Hseg. }
  eapply (refill_loop_wp _ _ _ _ g [] ((p, block_size c) :: R)); [|simpl; lia|].
  - eapply holds_perm; [|exact Hh]. rewrite Z.mul_1_l. solve_Permutation.
  - intros x' h' Hh' Hlen' Hs'. exists g, h', [(p, block_size c)].
    split_and!; [done|simpl in Hlen'; lia| |apply HQ].
    by apply (same_bytes_app [_]) in Hs' as [_ ?].
Qed.

Lemma simple_miss_wp s0 L s size (Q : Z -> sstate -> Prop) :
  inside t s0 L [] s -> no_local s -> 0 < size <= MAX_CACHE_SIZE -> size_to_class size = Some c ->
  ss_mem s = ss_mem s0 ->
  (forall p s', alloc_post s0 L size 1 p s' -> Q p s') ->
  wp (simple_miss t c size (class_size c)) Q s.
Proof.
  intros Hin Hno Hs Hsc Hm HQ. unfold simple_miss.
  apply wp_bind. eapply inside_metrics_wp; [auto with aeth|done|].
  intros _ s1 Hin1 Heq. pose proof Heq as (Hm1 & _). cbv zeta. rewrite block_size_eq by done.
  destruct (Z.ltb_spec 1 (PAGE_SIZE / block_size c)) as [Hbpp|Hbpp];
    [|eapply alloc_own_pages_wp; [done..|simpl; congruence|done]].
  apply wp_bind. eapply inside_pages_wp; [done|lia|..].
  { intros Hk. eapply alloc_own_pages_wp; [done..|simpl; congruence|done]. }
  intros p m' Hin2 Hpa Hp0 Htop. pose proof (inside_page_blocks _ _ _ _ _ _ Hin2 Hc Hpa Hbpp) as Hin3.
  apply wp_bind. eapply refill_wp; [done| | |].
  - apply no_local_set. by eapply no_local_equiv.
  - pose proof (block_size_class c Hc). assert (PAGE_SIZE / block_size c <= PAGE_SIZE / 32).
    { apply Z.div_le_compat_l; [done|lia]. }
    unfold MAX_FREE_LIST_LENGTH. change (PAGE_SIZE / 32) with 128 in *. lia.
  - intros s3 Hin4. by eapply miss_block_wp.
Qed.

Lemma take_wp s0 L s (Q : option Z -> sstate -> Prop) :
  inside t s0 L [] s ->
  (forall s', inside t s0 L [] s' -> no_local s' -> ss_mem s' = ss_mem s -> Q None s') ->
  (forall b s', inside t s0 L [(b, block_size c)] s' -> Q (Some b) s') ->
  wp (on_class t c take_cached_block) Q s.
Proof.
  intros Hin HN HS. eapply on_class_wp; [done|]. intros x g h R Hx Hh Hlen.
  eapply (take_cached_block_wp c); [exact Hh|..].
  - intros -> ->. exists [], [], []. split_and!; [done|done|apply same_bytes_refl|].
    intros Hin'. destruct Hh as (_ & (_ & Hseg & _) & _).
    apply HN; [done|exists x; split; [by eapply get_put_class|done]|].
    unfold get_class in Hx. unfold put_class.
    destruct (ss_caches s !! t) as [ca|]; [|done]. simpl in *.
    destruct (arr_get (ss_lists s) c); [|done]. destruct (arr_get (sc_heads ca) c); [|done].
    destruct (arr_get (sc_counts ca) c); [|done]. by simplify_eq/=.
  - intros b g' h' x' Hperm Hh' Hlen' Hs'. exists g', h', [(b, block_size c)].
    split_and!; [done|done|done|apply HS].
Qed.
End alloc.

Section calls.
Context `{K : Kernel} {KS : KernelSpec K}.
Context (t : nat).

Lemma simple_alloc_wp s L size align (Q : Z -> sstate -> Prop) :
  Inv s L -> (t < md_threads s)%nat -> layout_ok size align ->
  (forall p s', alloc_post s L size align p s' -> Q p s') ->
  wp (simple_alloc t size align) Q s.
Proof.
  intros HI Ht Hlay HQ. pose proof (inside_start t s L HI Ht) as Hin. unfold simple_alloc.
  destruct (Z.eqb_spec size 0) as [->|H0].
  { apply wp_ret. apply HQ. split_and!; [done|apply preserves_refl|]. left. split_and!; auto. }
  assert (Hs0 : 0 < size) by (destruct Hlay; lia).
  destruct ((size <=? MAX_CACHE_SIZE) && (align <=? 8)) eqn:Hsmall;
    [|eapply alloc_large_wp; try done].
  apply andb_true_iff in Hsmall as [Hs Ha]. apply Z.leb_le in Hs, Ha.
  destruct (size_to_class_total size) as (c & Hc & Hcr & Hround & _); [done|]. cbv zeta.
  rewrite (size_to_class_rounded _ _ Hc), Hround.
  destruct Hlay as (_ & (k & Hk & ->)%is_power_of_two_iff & _).
  assert (HQ' : forall p s', alloc_post s L size 1 p s' -> Q p s').
  { intros. by apply HQ, alloc_post_align. }
  apply wp_bind. eapply (take_wp t c Hcr); [exact Hin|..].
  - intros s1 Hin1 Hno Hm1. by eapply simple_miss_wp.
  - intros b s1 Hin1. by eapply cache_hit_wp.
Qed.

(** The block joins its list, and half of a list that has become too long joins the
    global one. *)
Lemma simple_dealloc_cached_wp s E X c b (Q : unit -> sstate -> Prop) :
  0 <= c <= 12 -> SKept s E -> (t < md_threads s)%nat ->
  arena (ss_mem s) ((b, block_size c) :: X ++ E) ->
  (forall s', SKept s' ((b, block_size c) :: E) -> md_threads s' = md_threads s ->
     same_bytes X (ss_mem s) (ss_mem s') -> arena (ss_mem s') ((b, block_size c) :: X ++ E) -> Q tt s') ->
  wp (simple_dealloc_cached t c b) Q s.
Proof.
  intros Hc HK Ht Har HQ.
  destruct (SKept_focus t c) with s E as (x & g & h & R & Hx & Hmem & Hok & Hlen & HE & Hput);
    [unfold NUM_SIZE_CLASSES; lia|done|done|].
  assert (Hh : holds c x g h ((b, block_size c) :: X ++ R)).
  { split; [lia|]. split; [done|]. rewrite Hmem. eapply arena_perm; [|exact Har].
    rewrite HE. solve_Permutation. }
  unfold simple_dealloc_cached. apply wp_bind. eapply wp_zoom; [exact Hx|].
  eapply push_local_wp; [exact Hh|done|]. intros x1 Hh1 Hs1.
  assert (Ht1 : (t < md_threads (put_class t c x1 s))%nat).
  { destruct (lookup_lt_is_Some_2 _ _ Ht) as [ca Hca]. unfold put_class. rewrite Hca. simpl.
    by rewrite length_insert. }
  apply wp_bind. apply md_metrics_wp; [auto with aeth|done|]. intros [] s2 Heq2.
  eapply wp_zoom; [rewrite (get_class_equiv _ _ _ _ Heq2); by eapply get_put_class|].
  assert (Hend : forall x2 g2 h2, holds c x2 g2 h2 (X ++ R) -> Z.of_nat (length h2) < MAX_FREE_LIST_LENGTH ->
    blocks c g2 ++ blocks c h2 ≡ₚ blocks c g ++ (b, block_size c) :: blocks c h ->
    same_bytes (X ++ R) (cs_mem x1) (cs_mem x2) -> Q tt (put_class t c x2 s2)).
  { intros x2 g2 h2 (_ & Hok2 & Har2) Hlen2 Hperm Hs2.
    pose proof (same_bytes_trans _ _ _ _ Hs1 Hs2) as [HsX HsR]%same_bytes_app. rewrite Hmem in HsX, HsR.
    destruct (Hput x2 g2 h2 Hok2 Hlen2 HsR) as (HK2 & Hn2 & Hm2).
    assert (Heq : put_class t c x2 s2 ≡ put_class t c x2 s).
    { etrans; [apply put_class_equiv; [|exact Heq2]; by destruct (md_equiv _ _ Heq2) as (_ & -> & _)|].
      rewrite <- (put_class_put t c s (cs_mem x1) x1 x2 Ht).
      destruct (lookup_lt_is_Some_2 _ _ Ht) as [ca Hca]. unfold put_class. rewrite Hca. done. }
    destruct (md_equiv _ _ Heq) as (Hm3 & Hn3 & HK3). simpl in Hm3. apply HQ.
    - eapply SKept_perm; [|apply HK3; exact HK2]. rewrite HE, (app_assoc (blocks c g2)), Hperm. solve_Permutation.
    - congruence.
    - by rewrite Hm3, Hm2.
    - rewrite Hm3, Hm2. eapply arena_perm; [|exact Har2]. rewrite HE, (app_assoc (blocks c g2)), Hperm. solve_Permutation. }
  eapply flush_excess_wp; [exact Hh1|..].
  - intros Hlt. eapply Hend; [exact Hh1|done|done|apply same_bytes_refl].
  - intros x2 Hl2 Hh2 Hs2. eapply Hend; [exact Hh2| | |done].
    + rewrite length_drop, Hl2. done.
    + change ((b, block_size c) :: blocks c h) with (blocks c (b :: h)).
      rewrite <- (take_drop 2048 (b :: h)) at 3. rewrite !blocks_app. solve_Permutation.
Qed.

Lemma simple_dealloc_wp s x L (Q : unit -> sstate -> Prop) :
  Inv s (x :: L) -> (t < md_threads s)%nat ->
  (forall s', dealloc_post False s x L s' -> Q tt s') ->
  wp (simple_dealloc t x.1) Q s.
Proof.
  intros HI Ht HQ. pose proof HI as (E & HK & HL). pose proof (live_pos _ _ _ _ HL) as [Hp0 _].
  unfold simple_dealloc. destruct (Z.eqb_spec x.1 0); [lia|].
  apply wp_bind, md_on_mem_wp, (find_alloc_wp _ _ _ _ HL). rewrite md_set_id.
  destruct x as [p [size|base pages size]]; [|by eapply dealloc_pages_wp].
  cbn [found_of fst snd]. destruct HL as [Har [Hok Hl]%Forall_cons].
  destruct (small_class _ _ _ Hok) as (c & Hc & Hcr & Hle & He).
  rewrite fmap_cons, He in Har. rewrite (size_to_class_rounded _ _ Hc).
  eapply simple_dealloc_cached_wp; [done|exact HK|done|exact Har|].
  intros s' HK' Hn' Hs' Har'. apply HQ.
  assert (HL' : Live (md_mem s') L (live_ext (p, ASmall size) :: E)).
  { split; [|by eapply same_live_ok]. rewrite He. eapply arena_perm; [|exact Har']. solve_Permutation. }
  rewrite <- He in HK'. split_and!; [done|done|by eexists|]. eexists. split; [exact HK'|].
  split; [done|]. left. by left.
Qed.
End calls.
