(* ===== verification/SimpleAllocator.v ===== *)
(** * The theorems of the simple-cache mode

    The second mode of [AethAlloc] implements the same contract, never loses a block
    it is given back, and keeps every list of every thread below its limit. *)

From S2P Require Import Prelude SizeClass Memory Extents AllocSpec Page Metrics Headers.
From S2P Require Import AllocCore SimpleCache SimpleLists SimpleSafe.

(** ** The contract *)

#[global] Instance simple_calls `{K : Kernel} : ModeCalls sstate := {|
  mc_alloc := simple_alloc;
  mc_dealloc := simple_dealloc
|}.

#[global] Instance simple_spec `{K : Kernel} {KS : KernelSpec K} : ModeCallsSpec sstate.
Proof.
  refine {| mc_lost t s x := False |}.
  - apply simple_alloc_wp.
  - done.
  - apply simple_dealloc_wp.
  - done.
Defined.

Lemma sthreads_new m n : md_threads (sstate_new m n) = n.
Proof. apply length_replicate. Qed.

Lemma row_new m : row_ok m (replicate 14 0) (replicate 14 []).
Proof. split; [done|]. repeat constructor. Qed.

Lemma linked_new m n : linked (sstate_new m n) (replicate 14 []) (replicate n (replicate 14 [])).
Proof.
  split; [apply row_new|]. unfold s_views. simpl. rewrite fmap_replicate. simpl.
  induction n as [|n IH]; simpl; constructor; [|done].
  split; [apply row_new|]. split; [done|]. repeat constructor; simpl; unfold MAX_FREE_LIST_LENGTH; lia.
Qed.

Lemma short_new n : Forall short_rows (replicate n (replicate 14 [])).
Proof. apply Forall_replicate, Forall_replicate. done. Qed.

Lemma rows_new n : rows_exts (replicate 14 []) (replicate n (replicate 14 [])) = [].
Proof. unfold rows_exts. rewrite fmap_replicate. simpl. by induction n. Qed.

Lemma sstate_new_Inv m n : Inv (sstate_new m n) [].
Proof.
  exists []. split; [|by split]. exists (replicate 14 []), (replicate n (replicate 14 [])).
  split; [apply linked_new|]. split; [apply short_new|]. by rewrite rows_new.
Qed.

(** ** Theorems *)

Section theorems.
Context `{K : Kernel} {KS : KernelSpec K}.

(** C10: on any kernel that meets its specification, a client that respects the rules
    of the reference heap runs to its end on the simple-cache allocator, from the
    initial state with [n] threads and any memory: no call faults, panics or
    diverges, and the results are results of the reference heap.  At the end every
    list of every thread holds less than 4096 blocks. *)
Theorem simple_client_refines n m c :
  well_behaved n heap_empty c ->
  exists rs s' h', run_client c (sstate_new m n) = Ret (rs, s') /\
    heap_run heap_empty c rs h' /\ represents n s' h' /\
    forall t ca i k, ss_caches s' !! t = Some ca -> sc_counts ca !! i = Some k ->
      0 <= k < MAX_FREE_LIST_LENGTH.
Proof.
  intros Hwb. pose proof (mode_client_refines (sstate_new m n) c (sstate_new_Inv m n)) as H.
  rewrite sthreads_new in H. destruct (H Hwb) as (rs & s' & h' & Hr & Hh & HR).
  exists rs, s', h'. split_and!; [done|done|done|]. intros t ca i k Hca Hk.
  destruct HR as [_ (L & (E & (G & HH & [_ HV] & Hsh & _) & _) & _) _].
  assert (Hv : s_views s' !! t = Some (sc_view ca)) by (unfold s_views; by rewrite list_lookup_fmap, Hca).
  destruct (Forall2_lookup_l _ _ _ _ _ HV Hv) as (ls & Hls & _ & Hcnt & _). simpl in Hcnt.
  pose proof (Forall_lookup_1 _ _ _ _ Hsh Hls) as Hlt.
  rewrite Hcnt, list_lookup_fmap in Hk. destruct (ls !! i) as [l|] eqn:Hl; simplify_eq/=.
  pose proof (Forall_lookup_1 _ _ _ _ Hlt Hl) as Hlen. simpl in Hlen. lia.
Qed.

(** In any state of the invariant, [alloc] of a valid layout returns without
    fault; either null, when the size is 0 or the kernel refused a mapping, or a
    pointer aligned to the layout's alignment and to 16 with a new live allocation of
    that size; the invariant holds after it, and no byte of a live allocation,
    headers included, has changed. *)
Theorem simple_alloc_correct t size align s L :
  Inv s L -> (t < md_threads s)%nat -> layout_ok size align ->
  exists p s', simple_alloc t size align s = Ret (p, s') /\ alloc_post s L size align p s'.
Proof. intros HI Ht Hl. apply (simple_alloc_wp t s L); [done|done|done|]. done. Qed.

(** In any state of the invariant, [dealloc] of a live pointer by any thread
    returns without fault and keeps the invariant for the other allocations, no byte
    of which changes; a small block is on one of the lists afterwards in every case,
    also when a flush moves half of the list; of a large one no byte outside its
    pages changes, and all its pages are unmapped when there are less than 2^32 of
    them and [munmap] succeeds. *)
Theorem simple_dealloc_correct t s x L :
  Inv s (x :: L) -> (t < md_threads s)%nat ->
  exists s', simple_dealloc t x.1 s = Ret (tt, s') /\ dealloc_post False s x L s'.
Proof.
  intros HI Ht. destruct (simple_dealloc_wp t s x L (fun _ => dealloc_post False s x L) HI Ht)
    as ([] & s' & ? & ?); [done|]. eauto.
Qed.
End theorems.

(** The flush of a list that has reached its limit of 4096 blocks moves its first
    2048 blocks, in their order, in front of the global list of the class and keeps
    the other 2048; a shorter list is left alone.  The links and the counter are
    right afterwards, and no byte outside the two lists changes. *)
Theorem flush_excess_correct c x G H R :
  holds c x G H R ->
  exists x', flush_excess x = Ret (tt, x') /\ same_bytes R (cs_mem x) (cs_mem x') /\
    if Z.of_nat (length H) <? MAX_FREE_LIST_LENGTH then x' = x
    else holds c x' (take 2048 H ++ G) (drop 2048 H) R.
Proof.
  intros Hh. assert (wp flush_excess (fun _ x' => same_bytes R (cs_mem x) (cs_mem x') /\
    if Z.of_nat (length H) <? MAX_FREE_LIST_LENGTH then x' = x
    else holds c x' (take 2048 H ++ G) (drop 2048 H) R) x) as ([] & x' & Hr & HQ); [|eauto].
  eapply flush_excess_wp; [exact Hh|..].
  - intros Hlt. destruct (Z.ltb_spec (Z.of_nat (length H)) MAX_FREE_LIST_LENGTH); [|lia].
    split; [apply same_bytes_refl|done].
  - intros x' Hl Hh' Hs. rewrite Hl. done.
Qed.

(** ** Witnesses *)

(** Thread 0 allocates and writes, thread 1 reads, frees and allocates again. *)
Definition simple_demo : client :=
  Then (CallAlloc 0 100 8) (fun p =>
    if p =? 0 then Finished
    else Then (CallStore (p + 99) 7) (fun _ =>
         Then (CallLoad (p + 99)) (fun _ =>
         Then (CallFree 1 p) (fun _ =>
         Then (CallAlloc 1 128 4) (fun _ => Finished))))).

Lemma simple_client_refines_witness :
  exists rs s' h', run_client simple_demo (sstate_new (Memory [] ∅) 2) = Ret (rs, s') /\
    heap_run heap_empty simple_demo rs h' /\ represents 2 s' h' /\
    forall t ca i k, ss_caches s' !! t = Some ca -> sc_counts ca !! i = Some k ->
      0 <= k < MAX_FREE_LIST_LENGTH.
Proof.
  apply simple_client_refines. split; [split; [lia|split; [lia|split; [done|lia]]]|].
  intros p h [[-> ->]|(_ & Hp & _ & _ & _ & _ & ->)]; [done|].
  destruct (Z.eqb_spec p 0); [lia|].
  assert (Hown : forall k, owns {| h_live := [(p, 100)]; h_known := k |} (p + 99)).
  { intros k. exists (p, 100). split; [by left|]. unfold in_ext. simpl. lia. }
  split; [apply Hown|]. intros r1 h1 [_ ->]. split; [apply Hown|]. intros r2 h2 [-> _].
  split; [split; [lia|]; right; exists 100; by left|].
  intros r3 h3 _. split; [|done]. split; [lia|split; [lia|split; [done|lia]]].
Defined.

Lemma simple_alloc_correct_witness :
  exists p s', simple_alloc 1 100 8 (sstate_new (Memory [] ∅) 2) = Ret (p, s') /\
               alloc_post (sstate_new (Memory [] ∅) 2) [] 100 8 p s'.
Proof.
  apply simple_alloc_correct; [apply sstate_new_Inv|rewrite sthreads_new; lia|].
  split; [lia|split; [done|lia]].
Defined.

(** A state with one live allocation. *)
Lemma simple_demo_live :
  exists s k, simple_alloc 0 100 8 (sstate_new (Memory [] ∅) 2) = Ret (65552, s) /\
    md_threads s = 2%nat /\ Inv s [(65552, k)].
Proof.
  destruct (simple_alloc_wp 0 (sstate_new (Memory [] ∅) 2) [] 100 8
    (alloc_post (sstate_new (Memory [] ∅) 2) [] 100 8)) as (p & s & Hr & Hn & _ & Hpost);
    [apply sstate_new_Inv|rewrite sthreads_new; lia|split; [lia|split; [done|lia]]|done|].
  assert (Hp : match simple_alloc 0 100 8 (sstate_new (Memory [] ∅) 2) with
               | Ret (p, _) => p | _ => 0 end = 65552) by (vm_compute; reflexivity).
  rewrite Hr in Hp. subst p. destruct Hpost as [[? _]|(_ & _ & _ & k & Hk & HI)]; [done|].
  exists s, k. split_and!; [done| |done]. by rewrite Hn, sthreads_new.
Qed.

Lemma simple_dealloc_correct_witness :
  exists s x s', simple_alloc 0 100 8 (sstate_new (Memory [] ∅) 2) = Ret (x.1, s) /\
    simple_dealloc 1 x.1 s = Ret (tt, s') /\ dealloc_post False s x [] s'.
Proof.
  destruct simple_demo_live as (s & k & Hr & Hn & HI). exists s, (65552, k).
  destruct (simple_dealloc_correct 1 s (65552, k) [] HI) as (s' & Hd & Hpost); [rewrite Hn; lia|].
  exists s'. split; [done|]. split; done.
Defined.

(** Lists made by the code that cuts pages into blocks. *)
Definition page_store (n : nat) : class_store :=
  {| cs_mem := Memory [(65536, 65536 + Z.of_nat n * 32)] ∅; cs_global := 0; cs_head := 0; cs_count := 0 |}.

Lemma page_store_holds n :
  (n <= 4096)%nat ->
  exists x H, refill_loop n 0 65536 32 (page_store n) = Ret (tt, x) /\ holds 0 x [] H [] /\ length H = n.
Proof.
  intros Hn. change 32 with (block_size 0).
  assert (wp (refill_loop n 0 65536 (block_size 0)) (fun _ x => exists H, holds 0 x [] H [] /\
    length H = n) (page_store n)) as ([] & x & Hr & H & Hh & Hl); [|exists x, H; done].
  eapply (refill_loop_wp 0 n 0 (page_store n) [] [] []).
  - split; [done|]. split; [done|].
    eapply (arena_refine _ (65536, Z.of_nat n * 32) []).
    + split; [by split|]. constructor; [|done].
      split_and!; [done|done|simpl; lia|unfold USER_TOP; simpl; lia|].
      intros i Hi. apply load8_mapped. unfold mapped, in_region. simpl in *. lia.
    + by apply carve_disjoint.
    + rewrite Forall_forall. intros e (i & Hi & ->)%carve_elem. change (block_size 0) with 32.
      unfold sub_ext. cbn [fst snd]. split_and!; [lia|lia|mlia|lia].
  - unfold MAX_FREE_LIST_LENGTH. simpl. lia.
  - intros x H Hh Hl _. exists H. done.
Qed.

Lemma flush_excess_correct_witness :
  exists n x H x', n = 4096%nat /\ refill_loop n 0 65536 32 (page_store n) = Ret (tt, x) /\
    flush_excess x = Ret (tt, x') /\ length H = n /\ holds 0 x' (take 2048 H) (drop 2048 H) [].
Proof.
  assert (exists n, n = 4096%nat) as (n & Hn) by (eexists; reflexivity).
  destruct (page_store_holds n) as (x & H & Hr & Hh & Hl); [lia|].
  destruct (flush_excess_correct 0 x [] H [] Hh) as (x' & Hf & _ & Hpost).
  exists n, x, H, x'. split; [exact Hn|]. split; [exact Hr|]. split; [exact Hf|]. split; [exact Hl|].
  destruct (Z.ltb_spec (Z.of_nat (length H)) MAX_FREE_LIST_LENGTH).
  - unfold MAX_FREE_LIST_LENGTH in *. lia.
  - rewrite app_nil_r in Hpost. exact Hpost.
Defined.
