(* ===== verification/Global.v ===== *)
(** * The global allocator, magazine-caching mode

    Models aethalloc-abi/src/global.rs built with its default feature: the thread
    caches, the global magazine pools of aethalloc-core/src/magazine.rs, and the
    [alloc], [dealloc] and [get_alloc_size] of [AethAlloc].  Here a call runs without
    another thread's steps inside it, different threads' calls come in any order;
    Threads splits the calls into their accesses and interleaves them. *)

From S2P Require Import Prelude SizeClass Memory Page Magazine Metadata Metrics Headers AllocCore.

(** ** Constants and data *)

Definition POOL_SIZE_CLASSES : Z := 13.

Record GlobalMagazinePool : Type := {
  full_head : Z;
  empty_head : Z
}.

Record ThreadCache : Type := {
  tc_alloc_mags : list Magazine;
  tc_free_mags : list Magazine;
  tc_metrics : Metrics
}.

(** The byte memory, the magazine nodes by address, the statics of the library and
    one cache per thread. *)
Record state : Type := {
  st_mem : memory;
  st_nodes : gmap Z MagazineNode;
  st_pools : list GlobalMagazinePool;
  st_meta : MetadataAllocator;
  st_gmetrics : Metrics;
  st_caches : list ThreadCache
}.

Definition GlobalMagazinePool_new : GlobalMagazinePool := {| full_head := 0; empty_head := 0 |}.

Definition GlobalMagazinePools_new : list GlobalMagazinePool :=
  replicate (Z.to_nat POOL_SIZE_CLASSES) GlobalMagazinePool_new.

Definition ThreadCache_new : ThreadCache :=
  {| tc_alloc_mags := replicate (Z.to_nat NUM_SIZE_CLASSES) Magazine_new;
     tc_free_mags := replicate (Z.to_nat NUM_SIZE_CLASSES) Magazine_new;
     tc_metrics := ThreadMetrics_new |}.

(** ** The pools' stacks, one call at a time *)

Definition pool_store : Type := gmap Z MagazineNode * GlobalMagazinePool.

(** The assignment of [v] to the [next] field of [node]. *)
Definition set_node_next (node v : Z) : M pool_store unit :=
  s ← getS;
  nd ← or_fault (s.1 !! node);
  modifyS (fun s =>
    (<[node := {| node_next := v; node_magazine := node_magazine nd |}]> s.1, s.2)).

Definition push_full (node : Z) : M pool_store unit :=
  current ← gets (fun s => full_head s.2);
  set_node_next node current ;;
  modifyS (fun s => (s.1, {| full_head := node; empty_head := empty_head s.2 |})).

Definition pop_full : M pool_store (option Z) :=
  current ← gets (fun s => full_head s.2);
  if current =? 0 then mret None
  else
    s ← getS;
    nd ← or_fault (s.1 !! current);
    modifyS (fun s => (s.1, {| full_head := node_next nd; empty_head := empty_head s.2 |})) ;;
    mret (Some current).

Definition push_empty (node : Z) : M pool_store unit :=
  current ← gets (fun s => empty_head s.2);
  set_node_next node current ;;
  modifyS (fun s => (s.1, {| full_head := full_head s.2; empty_head := node |})).

Definition pop_empty : M pool_store (option Z) :=
  current ← gets (fun s => empty_head s.2);
  if current =? 0 then mret None
  else
    s ← getS;
    nd ← or_fault (s.1 !! current);
    modifyS (fun s => (s.1, {| full_head := full_head s.2; empty_head := node_next nd |})) ;;
    mret (Some current).

(** The [while] of [full_depth], which counts to 9 at most: 9 rounds are enough. *)
Fixpoint full_depth_loop (fuel : nat) (current count : Z) : M pool_store Z :=
  if (current =? 0) || negb (count <? MAX_GLOBAL_MAGAZINES_PER_CLASS + 1) then mret count
  else
    match fuel with
    | O => fun _ => Diverge
    | S fuel' =>
        s ← getS;
        nd ← or_fault (s.1 !! current);
        full_depth_loop fuel' (node_next nd) (count + 1)
    end.

Definition full_depth : M pool_store Z :=
  current ← gets (fun s => full_head s.2);
  full_depth_loop 9 current 0.

(** ** Access to the parts of the state *)

Definition set_mem (m : memory) (s : state) : state :=
  {| st_mem := m; st_nodes := st_nodes s; st_pools := st_pools s; st_meta := st_meta s;
     st_gmetrics := st_gmetrics s; st_caches := st_caches s |}.

Definition set_meta (x : memory * MetadataAllocator) (s : state) : state :=
  {| st_mem := x.1; st_nodes := st_nodes s; st_pools := st_pools s; st_meta := x.2;
     st_gmetrics := st_gmetrics s; st_caches := st_caches s |}.

Definition set_nodes (n : gmap Z MagazineNode) (s : state) : state :=
  {| st_mem := st_mem s; st_nodes := n; st_pools := st_pools s; st_meta := st_meta s;
     st_gmetrics := st_gmetrics s; st_caches := st_caches s |}.

Definition set_caches (l : list ThreadCache) (s : state) : state :=
  {| st_mem := st_mem s; st_nodes := st_nodes s; st_pools := st_pools s; st_meta := st_meta s;
     st_gmetrics := st_gmetrics s; st_caches := l |}.

(** [GLOBAL_MAGAZINES.get(class)]: an index out of range panics. *)
Definition get_pool (class : Z) (s : state) : option pool_store :=
  p ← arr_get (st_pools s) class; Some (st_nodes s, p).

Definition put_pool (class : Z) (x : pool_store) (s : state) : state :=
  {| st_mem := st_mem s; st_nodes := x.1; st_pools := <[Z.to_nat class := x.2]> (st_pools s);
     st_meta := st_meta s; st_gmetrics := st_gmetrics s; st_caches := st_caches s |}.

Definition on_pool {A} (class : Z) (m : M pool_store A) : M state A :=
  zoom (get_pool class) (put_pool class) m.

(** [get_thread_cache()] of thread [t]. *)
Definition put_cache (t : nat) (c : ThreadCache) (s : state) : state :=
  set_caches (<[t := c]> (st_caches s)) s.

Definition get_alloc_mag (t : nat) (class : Z) (s : state) : option Magazine :=
  c ← st_caches s !! t; arr_get (tc_alloc_mags c) class.

Definition put_alloc_mag (t : nat) (class : Z) (m : Magazine) (s : state) : state :=
  match st_caches s !! t with
  | None => s
  | Some c => put_cache t {| tc_alloc_mags := <[Z.to_nat class := m]> (tc_alloc_mags c);
                             tc_free_mags := tc_free_mags c; tc_metrics := tc_metrics c |} s
  end.

Definition on_alloc_mag {A} (t : nat) (class : Z) (m : M Magazine A) : M state A :=
  zoom (get_alloc_mag t class) (put_alloc_mag t class) m.

Definition get_free_mag (t : nat) (class : Z) (s : state) : option Magazine :=
  c ← st_caches s !! t; arr_get (tc_free_mags c) class.

Definition put_free_mag (t : nat) (class : Z) (m : Magazine) (s : state) : state :=
  match st_caches s !! t with
  | None => s
  | Some c => put_cache t {| tc_alloc_mags := tc_alloc_mags c;
                             tc_free_mags := <[Z.to_nat class := m]> (tc_free_mags c);
                             tc_metrics := tc_metrics c |} s
  end.

Definition on_free_mag {A} (t : nat) (class : Z) (m : M Magazine A) : M state A :=
  zoom (get_free_mag t class) (put_free_mag t class) m.

Definition get_metrics (t : nat) (s : state) : option (Metrics * Metrics) :=
  c ← st_caches s !! t; Some (st_gmetrics s, tc_metrics c).

Definition put_metrics (t : nat) (x : Metrics * Metrics) (s : state) : state :=
  match st_caches s !! t with
  | None => s
  | Some c =>
      {| st_mem := st_mem s; st_nodes := st_nodes s; st_pools := st_pools s; st_meta := st_meta s;
         st_gmetrics := x.1;
         st_caches := <[t := {| tc_alloc_mags := tc_alloc_mags c; tc_free_mags := tc_free_mags c;
                                tc_metrics := x.2 |}]> (st_caches s) |}
  end.

Definition on_metrics {A} (t : nat) (m : M (Metrics * Metrics) A) : M state A :=
  zoom (get_metrics t) (put_metrics t) m.

(** The common code of the two modes runs on this state. *)
#[global] Instance state_mode : ModeOps state := {|
  md_mem := st_mem;
  md_set := set_mem;
  md_threads s := length (st_caches s);
  md_metrics A := on_metrics
|}.

(** ** Allocation *)

Section operations.
Context `{K : Kernel}.

(** [core::mem::swap(&mut cache.alloc_mags[class], &mut cache.free_mags[class])]. *)
Definition swap_mags (t : nat) (class : Z) : M state unit :=
  a ← on_alloc_mag t class getS;
  f ← on_free_mag t class getS;
  on_alloc_mag t class (modifyS (fun _ => f)) ;;
  on_free_mag t class (modifyS (fun _ => a)).

(** Swap the local magazine with the node's and clear the node's. *)
Definition swap_node (t : nat) (class node : Z) : M state unit :=
  a ← on_alloc_mag t class getS;
  s ← getS;
  nd ← or_fault (st_nodes s !! node);
  on_alloc_mag t class (modifyS (fun _ => node_magazine nd)) ;;
  modifyS (set_nodes (<[node := {| node_next := node_next nd;
                                   node_magazine := {| mag_blocks := mag_blocks a;
                                                       mag_count := 0 |} |}]> (st_nodes s))).

(** The same, and push the node on the empty stack. *)
Definition exchange_node (t : nat) (class node : Z) : M state unit :=
  swap_node t class node ;; on_pool class (push_empty node).

(** The three places a cached block may come from, in order. *)
Definition take_cached (t : nat) (class : Z) : M state (option Z) :=
  r ← on_alloc_mag t class Magazine_pop;
  match r with
  | Some block => mret (Some block)
  | None =>
      f ← on_free_mag t class getS;
      r ← (if Magazine_is_empty f then mret None
           else swap_mags t class ;; on_alloc_mag t class Magazine_pop);
      match r with
      | Some block => mret (Some block)
      | None =>
          o ← on_pool class pop_full;
          match o with
          | None => mret None
          | Some node => exchange_node t class node ;; on_alloc_mag t class Magazine_pop
          end
      end
  end.

(** A miss: fill the magazine from a fresh page, or take pages for one block. *)
Definition alloc_miss (t : nat) (class size cache_size : Z) : M state Z :=
  md_metrics t (modifyS (fun s => (s.1, count_event EvMiss s.2))) ;;
  let block_size := cache_size +! CACHE_HEADER_SIZE in
  let blocks_per_page := PAGE_SIZE / block_size in
  if 1 <? blocks_per_page then
    r ← md_on_mem (PageAllocator_alloc 1);
    match r with
    | Some base =>
        let remaining := saturating_sub blocks_per_page 1 in
        (if 0 <? remaining
         then on_alloc_mag t class (Magazine_bulk_init (base + block_size) block_size remaining)
         else mret tt) ;;
        miss_block t base size
    | None => alloc_own_pages t size block_size
    end
  else alloc_own_pages t size block_size.

(** [GlobalAlloc::alloc] by thread [t] for a layout of [size] and [align]. *)
Definition AethAlloc_alloc (t : nat) (size align : Z) : M state Z :=
  if size =? 0 then mret 0
  else if (size <=? MAX_CACHE_SIZE) && (align <=? 8) then
    let cache_size := Z.max (round_up_pow2 size) 16 in
    match size_to_class cache_size with
    | Some class =>
        r ← take_cached t class;
        match r with
        | Some block => cache_hit t block size
        | None => alloc_miss t class size cache_size
        end
    | None => alloc_large t size align
    end
  else alloc_large t size align.

(** ** Deallocation *)

(** The free magazine moves into a fresh node, an empty one takes its place. *)
Definition fill_node (t : nat) (class node : Z) : M state unit :=
  f ← on_free_mag t class getS;
  on_free_mag t class (modifyS (fun _ => Magazine_new)) ;;
  s ← getS;
  modifyS (set_nodes (<[node := {| node_next := 0; node_magazine := f |}]> (st_nodes s))).

(** A full free magazine moves into a new node of the global pool, when there is one. *)
Definition retire_free_mag (t : nat) (class : Z) : M state unit :=
  node ← zoom (fun s => Some (st_mem s, st_meta s)) set_meta MetadataAllocator_alloc_node;
  if node =? 0 then mret tt
  else fill_node t class node ;; on_pool class (push_full node).

(** A block goes back to the thread's free magazine. *)
Definition dealloc_cached (t : nat) (class block : Z) : M state unit :=
  pushed ← on_free_mag t class (Magazine_push block);
  if (pushed : bool) then on_metrics t (record_event EvFree)
  else
    retire_free_mag t class ;;
    on_free_mag t class (Magazine_push block) ;;
    on_metrics t (record_event EvFree).

(** [GlobalAlloc::dealloc] by thread [t]; the layout is not looked at. *)
Definition AethAlloc_dealloc (t : nat) (ptr : Z) : M state unit :=
  if ptr =? 0 then mret tt
  else
    r ← md_on_mem (find_alloc ptr);
    match r with
    | FLarge base h | FPage base h => dealloc_pages t base h
    | FSmall size_ptr maybe_size =>
        match size_to_class (Z.max (round_up_pow2 maybe_size) 16) with
        | Some class => dealloc_cached t class size_ptr
        | None => dealloc_by_page t ptr
        end
    end.
End operations.

(** A process with [n] threads, before any call. *)
Definition state_new (m : memory) (n : nat) : state :=
  {| st_mem := m; st_nodes := ∅; st_pools := GlobalMagazinePools_new;
     st_meta := MetadataAllocator_new; st_gmetrics := GlobalMetrics_new;
     st_caches := replicate n ThreadCache_new |}.
