(* ===== verification/GlobalInv.v ===== *)
(** * The allocator's invariant

    What the allocator keeps and what it has handed out form one arena: every
    block in a thread's magazine or in a pool node, every pool node, the rest of
    the metadata page and every live allocation are pairwise disjoint mapped
    extents, and the headers of the live allocations hold what was written there.
    This file states the invariant and accounts for the caches and the pools; the
    operations on top of them are in GlobalSafe. *)

From S2P Require Import Prelude SizeClass Memory Extents Page Magazine Treiber Metadata.
From S2P Require Import AllocSpec Metrics Headers AllocCore Global.

(** ** Definitions *)

(** Extents of the blocks cached in a magazine of class [c]. *)
Definition mag_exts (c : Z) (m : Magazine) : list (Z * Z) :=
  (fun b => (b, block_size c)) <$> contents m.

Definition mags_exts (l : list Magazine) : list (Z * Z) :=
  concat (imap (fun i m => mag_exts (Z.of_nat i) m) l).

Definition mags_of (c : ThreadCache) : list Magazine * list Magazine :=
  (tc_alloc_mags c, tc_free_mags c).

Definition st_mags (s : state) : list (list Magazine * list Magazine) := mags_of <$> st_caches s.

Definition cache_exts (c : list Magazine * list Magazine) : list (Z * Z) :=
  mags_exts c.1 ++ mags_exts c.2.

Definition node_mag (nodes : gmap Z MagazineNode) (n : Z) : Magazine :=
  default Magazine_new (node_magazine <$> nodes !! n).

(** Extents of a full node of class [c]: the node and its blocks. *)
Definition node_exts (nodes : gmap Z MagazineNode) (c : Z) (n : Z) : list (Z * Z) :=
  (n, NODE_SIZE) :: mag_exts c (node_mag nodes n).

Definition pool_exts (nodes : gmap Z MagazineNode) (fulls : list (list Z)) : list (Z * Z) :=
  concat (imap (fun i l => concat (node_exts nodes (Z.of_nat i) <$> l)) fulls).

Definition next_of (nodes : gmap Z MagazineNode) : gmap Z Z := node_next <$> nodes.

Definition mags_wf (l : list Magazine) : Prop :=
  length l = Z.to_nat NUM_SIZE_CLASSES /\ Forall Magazine_wf l.

(** Class [i]'s two stacks link the nodes [fulls !! i] and [empties !! i]. *)
Record linked_stacks (nodes : gmap Z MagazineNode) (pools : list GlobalMagazinePool)
    (fulls empties : list (list Z)) : Prop := {
  ls_pools : length pools = Z.to_nat POOL_SIZE_CLASSES;
  ls_fulls : length fulls = Z.to_nat POOL_SIZE_CLASSES;
  ls_empties : length empties = Z.to_nat POOL_SIZE_CLASSES;
  ls_nodup : NoDup (concat fulls ++ concat empties);
  ls_nodes n : n ∈ concat fulls ++ concat empties ->
    exists nd, nodes !! n = Some nd /\ Magazine_wf (node_magazine nd);
  ls_chains i p fl el :
    pools !! i = Some p -> fulls !! i = Some fl -> empties !! i = Some el ->
    chain (next_of nodes) (full_head p) fl /\ chain (next_of nodes) (empty_head p) el
}.

(** The memory of the nodes on the stacks and of the blocks they cache. *)
Definition stack_exts (nodes : gmap Z MagazineNode) (fulls empties : list (list Z)) : list (Z * Z) :=
  pool_exts nodes fulls ++ ((fun n => (n, NODE_SIZE)) <$> concat empties).

(** The pools hold the nodes [N], whose memory and cached blocks are [E]. *)
Definition stacks (nodes : gmap Z MagazineNode) (pools : list GlobalMagazinePool)
    (N : list Z) (E : list (Z * Z)) : Prop :=
  exists fulls empties, linked_stacks nodes pools fulls empties /\
    N ≡ₚ concat fulls ++ concat empties /\
    E ≡ₚ stack_exts nodes fulls empties.

(** Everything the allocator keeps: the pool nodes [N] and the extents [E]. *)
Definition Kept (s : state) (N : list Z) (E : list (Z * Z)) : Prop :=
  meta_wf (st_meta s) /\ Forall (fun c => mags_wf c.1 /\ mags_wf c.2) (st_mags s) /\
  exists P, stacks (st_nodes s) (st_pools s) N P /\
    E ≡ₚ meta_rest (st_meta s) :: concat (cache_exts <$> st_mags s) ++ P.

(** States that differ in their metrics only. *)
#[global] Instance state_equiv : Equiv state := fun s s' =>
  st_mem s = st_mem s' /\ st_nodes s = st_nodes s' /\ st_pools s = st_pools s' /\
  st_meta s = st_meta s' /\ st_mags s = st_mags s'.

#[global] Instance state_equivalence : Equivalence (≡@{state}).
Proof.
  split.
  - by intros s.
  - intros s s' (? & ? & ? & ? & ?). by split_and!.
  - intros s1 s2 s3 (? & ? & ? & ? & ?) (? & ? & ? & ? & ?). split_and!; congruence.
Qed.

(** ** Metrics do not matter *)

Lemma st_mags_length s : length (st_mags s) = length (st_caches s).
Proof. apply length_fmap. Qed.

Lemma put_metrics_equiv t x s : put_metrics t x s ≡ s.
Proof.
  unfold put_metrics. destruct (st_caches s !! t) as [c|] eqn:Hc; [|done].
  split_and!; try done. unfold st_mags. simpl. rewrite list_fmap_insert.
  apply list_insert_id. rewrite list_lookup_fmap, Hc. done.
Qed.

(** A computation on the counters always returns and leaves an equivalent state. *)
Lemma on_metrics_wp {A} t (m : M (Metrics * Metrics) A) s (Q : A -> state -> Prop) :
  (forall x, wp m (fun _ _ => True) x) -> (t < length (st_mags s))%nat ->
  (forall a s', s' ≡ s -> Q a s') -> wp (on_metrics t m) Q s.
Proof.
  intros Hm Ht HQ. rewrite st_mags_length in Ht.
  destruct (lookup_lt_is_Some_2 (st_caches s) t Ht) as [c Hc].
  eapply wp_zoom; [unfold get_metrics; by rewrite Hc|].
  eapply wp_mono; [apply Hm|]. intros a x' _. apply HQ, put_metrics_equiv.
Qed.

(** ** One class of one thread's cache *)

(** The extents of the caches once the two magazines of a class are emptied. *)
Definition rest_exts (t i : nat) (mags : list (list Magazine * list Magazine)) : list (Z * Z) :=
  match mags !! t with
  | None => []
  | Some c =>
      concat (cache_exts <$> <[t := (<[i := Magazine_new]> c.1, <[i := Magazine_new]> c.2)]> mags)
  end.

(** Thread [t]'s magazines of [class] are [a] and [f], the others hold [R]. *)
Record focus (t : nat) (class : Z) (s : state) (a f : Magazine) (R : list (Z * Z)) : Prop := {
  fo_class : 0 <= class < NUM_SIZE_CLASSES;
  fo_mags : Forall (fun c => mags_wf c.1 /\ mags_wf c.2) (st_mags s);
  fo_alloc : get_alloc_mag t class s = Some a;
  fo_free : get_free_mag t class s = Some f;
  fo_rest : R = rest_exts t (Z.to_nat class) (st_mags s)
}.

(** [s'] differs from [s] in its caches only. *)
Definition only_caches (s s' : state) : Prop :=
  st_mem s' = st_mem s /\ st_nodes s' = st_nodes s /\ st_pools s' = st_pools s /\
  st_meta s' = st_meta s /\ length (st_mags s') = length (st_mags s).

Lemma only_caches_refl s : only_caches s s.
Proof. done. Qed.

Lemma only_caches_trans s1 s2 s3 : only_caches s1 s2 -> only_caches s2 s3 -> only_caches s1 s3.
Proof. intros (? & ? & ? & ? & ?) (? & ? & ? & ? & ?). split_and!; congruence. Qed.

Lemma mags_exts_focus l i m :
  l !! i = Some m ->
  mags_exts l ≡ₚ mag_exts (Z.of_nat i) m ++ mags_exts (<[i := Magazine_new]> l).
Proof.
  intros Hi. destruct (concat_imap_focus (fun i m => mag_exts (Z.of_nat i) m) l i m Hi)
    as (R & HR & Hy).
  unfold mags_exts. rewrite HR, Hy. done.
Qed.

Lemma lookup_mags t s c : st_caches s !! t = Some c -> st_mags s !! t = Some (mags_of c).
Proof. intros H. unfold st_mags. by rewrite list_lookup_fmap, H. Qed.

Section focus.
Context (t : nat) (class : Z).

Lemma focus_intro s :
  0 <= class < NUM_SIZE_CLASSES -> (t < length (st_mags s))%nat ->
  Forall (fun c => mags_wf c.1 /\ mags_wf c.2) (st_mags s) ->
  exists a f, focus t class s a f (rest_exts t (Z.to_nat class) (st_mags s)).
Proof.
  intros Hc Ht Hwf. rewrite st_mags_length in Ht.
  destruct (lookup_lt_is_Some_2 (st_caches s) t Ht) as [c Hlk].
  pose proof (lookup_mags t s c Hlk) as Hm.
  destruct (Forall_lookup_1 _ _ _ _ Hwf Hm) as [[Ha _] [Hf _]]. simpl in *.
  unfold NUM_SIZE_CLASSES in *.
  destruct (arr_get_total (tc_alloc_mags c) class) as [a Ha']; [lia|].
  destruct (arr_get_total (tc_free_mags c) class) as [f Hf']; [lia|].
  exists a, f. constructor; try done.
  - unfold get_alloc_mag. by rewrite Hlk.
  - unfold get_free_mag. by rewrite Hlk.
Qed.

Lemma focus_lookup s a f R :
  focus t class s a f R ->
  exists c, st_caches s !! t = Some c /\ tc_alloc_mags c !! Z.to_nat class = Some a /\
            tc_free_mags c !! Z.to_nat class = Some f.
Proof.
  intros []. unfold get_alloc_mag, get_free_mag in *.
  destruct (st_caches s !! t) as [c|]; [|done]. exists c. simpl in *.
  apply arr_get_lookup in fo_alloc0 as [_ ?]. apply arr_get_lookup in fo_free0 as [_ ?]. done.
Qed.

Lemma focus_wf s a f R : focus t class s a f R -> Magazine_wf a /\ Magazine_wf f.
Proof.
  intros Hf. destruct (focus_lookup _ _ _ _ Hf) as (c & Hc & Ha & Hfr).
  pose proof (Forall_lookup_1 _ _ _ _ (fo_mags _ _ _ _ _ _ Hf) (lookup_mags _ _ _ Hc))
    as [[_ H1] [_ H2]].
  split; [by eapply (Forall_lookup_1 _ _ _ _ H1) | by eapply (Forall_lookup_1 _ _ _ _ H2)].
Qed.

Lemma focus_exts s a f R :
  focus t class s a f R ->
  concat (cache_exts <$> st_mags s) ≡ₚ mag_exts class a ++ mag_exts class f ++ R.
Proof.
  intros Hf. destruct (focus_lookup _ _ _ _ Hf) as (c & Hc & Ha & Hfr).
  pose proof (lookup_mags _ _ _ Hc) as Hm. rewrite (fo_rest _ _ _ _ _ _ Hf).
  unfold rest_exts. rewrite Hm.
  destruct (concat_fmap_focus cache_exts (st_mags s) t _ Hm) as (R' & HR & Hy).
  rewrite HR, Hy. unfold cache_exts. simpl.
  rewrite (mags_exts_focus _ _ _ Ha), (mags_exts_focus _ _ _ Hfr).
  rewrite Z2Nat.id by apply (fo_class _ _ _ _ _ _ Hf). solve_Permutation.
Qed.

Lemma focus_put_alloc s a f R a' :
  focus t class s a f R -> Magazine_wf a' ->
  focus t class (put_alloc_mag t class a' s) a' f R /\ only_caches s (put_alloc_mag t class a' s).
Proof.
  intros Hf Hwf. destruct (focus_lookup _ _ _ _ Hf) as (c & Hc & Ha & Hfr).
  unfold put_alloc_mag. rewrite Hc. unfold put_cache, set_caches.
  assert (Ht : (t < length (st_caches s))%nat) by by eapply lookup_lt_Some.
  destruct Hf as [Hcl Hm _ _ ->]. pose proof (lookup_mags _ _ _ Hc) as Hmc.
  assert (Hi : (Z.to_nat class < length (tc_alloc_mags c))%nat) by by eapply lookup_lt_Some.
  split; [constructor|]; simpl.
  - done.
  - unfold st_mags. simpl. rewrite list_fmap_insert. apply Forall_insert; [done|].
    pose proof (Forall_lookup_1 _ _ _ _ Hm Hmc) as [[H1 H2] H3]. simpl in *.
    split; [|done]. split; [by rewrite length_insert|by apply Forall_insert].
  - unfold get_alloc_mag. simpl. rewrite list_lookup_insert_eq by done. simpl.
    apply arr_get_lookup. split; [lia|]. by apply list_lookup_insert_eq.
  - unfold get_free_mag. simpl. rewrite list_lookup_insert_eq by done. simpl.
    apply arr_get_lookup. split; [lia|done].
  - unfold st_mags. simpl. rewrite list_fmap_insert. unfold rest_exts.
    fold (st_mags s). rewrite Hmc. rewrite list_lookup_insert_eq by by rewrite st_mags_length.
    rewrite list_insert_insert_eq. unfold mags_of. simpl. by rewrite list_insert_insert_eq.
  - split_and!; try done. rewrite !st_mags_length. apply length_insert.
Qed.

Lemma focus_put_free s a f R f' :
  focus t class s a f R -> Magazine_wf f' ->
  focus t class (put_free_mag t class f' s) a f' R /\ only_caches s (put_free_mag t class f' s).
Proof.
  intros Hf Hwf. destruct (focus_lookup _ _ _ _ Hf) as (c & Hc & Ha & Hfr).
  unfold put_free_mag. rewrite Hc. unfold put_cache, set_caches.
  assert (Ht : (t < length (st_caches s))%nat) by by eapply lookup_lt_Some.
  destruct Hf as [Hcl Hm _ _ ->]. pose proof (lookup_mags _ _ _ Hc) as Hmc.
  assert (Hi : (Z.to_nat class < length (tc_free_mags c))%nat) by by eapply lookup_lt_Some.
  split; [constructor|]; simpl.
  - done.
  - unfold st_mags. simpl. rewrite list_fmap_insert. apply Forall_insert; [done|].
    pose proof (Forall_lookup_1 _ _ _ _ Hm Hmc) as [H3 [H1 H2]]. simpl in *.
    split; [done|]. split; [by rewrite length_insert|by apply Forall_insert].
  - unfold get_alloc_mag. simpl. rewrite list_lookup_insert_eq by done. simpl.
    apply arr_get_lookup. split; [lia|done].
  - unfold get_free_mag. simpl. rewrite list_lookup_insert_eq by done. simpl.
    apply arr_get_lookup. split; [lia|]. by apply list_lookup_insert_eq.
  - unfold st_mags. simpl. rewrite list_fmap_insert. unfold rest_exts.
    fold (st_mags s). rewrite Hmc. rewrite list_lookup_insert_eq by by rewrite st_mags_length.
    rewrite list_insert_insert_eq. unfold mags_of. simpl. by rewrite list_insert_insert_eq.
  - split_and!; try done. rewrite !st_mags_length. apply length_insert.
Qed.

(** Running a computation on one of the two magazines. *)
Lemma on_alloc_mag_wp {A} (m : M Magazine A) s a f R (Q : A -> state -> Prop) :
  focus t class s a f R ->
  wp m (fun r a' => Magazine_wf a' /\ forall s', focus t class s' a' f R -> only_caches s s' -> Q r s') a ->
  wp (on_alloc_mag t class m) Q s.
Proof.
  intros Hf Hm. eapply wp_zoom; [apply (fo_alloc _ _ _ _ _ _ Hf)|].
  eapply wp_mono; [exact Hm|]. intros r a' [Hwf HQ].
  destruct (focus_put_alloc s a f R a' Hf Hwf). by apply HQ.
Qed.

Lemma on_free_mag_wp {A} (m : M Magazine A) s a f R (Q : A -> state -> Prop) :
  focus t class s a f R ->
  wp m (fun r f' => Magazine_wf f' /\ forall s', focus t class s' a f' R -> only_caches s s' -> Q r s') f ->
  wp (on_free_mag t class m) Q s.
Proof.
  intros Hf Hm. eapply wp_zoom; [apply (fo_free _ _ _ _ _ _ Hf)|].
  eapply wp_mono; [exact Hm|]. intros r f' [Hwf HQ].
  destruct (focus_put_free s a f R f' Hf Hwf). by apply HQ.
Qed.
End focus.

(** ** The pools' stacks *)

#[global] Instance stacks_perm nodes pools : Proper ((≡ₚ) ==> (≡ₚ) ==> iff) (stacks nodes pools).
Proof. intros N N' HN E E' HE. unfold stacks. by setoid_rewrite HN; setoid_rewrite HE. Qed.

#[global] Instance Kept_perm s : Proper ((≡ₚ) ==> (≡ₚ) ==> iff) (Kept s).
Proof. intros N N' HN E E' HE. unfold Kept. by setoid_rewrite HN; setoid_rewrite HE. Qed.

Lemma Kept_equiv s s' N E : s ≡ s' -> Kept s' N E -> Kept s N E.
Proof. intros (_ & H2 & H3 & H4 & H5). unfold Kept. by rewrite H2, H3, H4, H5. Qed.

(** The magazine-caching mode as a mode of the allocator. *)
#[global] Instance state_mode_laws : ModeLaws state.
Proof.
  refine {| md_kept s E := exists N, Kept s N E |}.
  - intros s E E' HE [N HK]. exists N. by rewrite <- HE.
  - done.
  - by intros [].
  - done.
  - done.
  - intros s s' Heq. pose proof Heq as (Hm & _ & _ & _ & Hg). split_and!; [done| |].
    + simpl. by rewrite <- !st_mags_length, Hg.
    + intros E [N HK]. exists N. by eapply Kept_equiv.
  - intros A t m s Q Hm Ht. apply on_metrics_wp; [done|]. by rewrite st_mags_length.
Defined.

Lemma stacks_nodup nodes pools N E : stacks nodes pools N E -> NoDup N.
Proof. intros (? & ? & [] & -> & _). done. Qed.

Lemma stacks_lookup nodes pools N E c :
  stacks nodes pools N E -> 0 <= c < POOL_SIZE_CLASSES ->
  exists p, arr_get pools c = Some p /\ pools !! Z.to_nat c = Some p.
Proof.
  intros (? & ? & [] & _) Hc. unfold POOL_SIZE_CLASSES in *.
  destruct (arr_get_total pools c) as [p Hp]; [lia|]. exists p. split; [done|].
  by apply arr_get_lookup in Hp as [_ ?].
Qed.

Lemma node_exts_ext nodes nodes' c n :
  nodes' !! n = nodes !! n -> node_exts nodes' c n = node_exts nodes c n.
Proof. intros H. unfold node_exts, node_mag. by rewrite H. Qed.

Lemma pool_exts_ext nodes nodes' fulls :
  (forall n, n ∈ concat fulls -> nodes' !! n = nodes !! n) ->
  pool_exts nodes' fulls = pool_exts nodes fulls.
Proof.
  intros H. unfold pool_exts. f_equal. apply imap_ext. intros i l Hl. f_equal.
  apply list_fmap_ext. intros j n Hn. apply node_exts_ext, H.
  apply list_elem_of_In, in_concat. exists l.
  split; apply list_elem_of_In; by eapply list_elem_of_lookup_2.
Qed.

Lemma next_of_insert nodes n nd m :
  m <> n -> next_of (<[n := nd]> nodes) !! m = next_of nodes !! m.
Proof. intros H. unfold next_of. by rewrite !lookup_fmap, lookup_insert_ne by done. Qed.

(** Class [i]'s stacks change, the nodes on the stacks before keep their links. *)
Lemma linked_stacks_update nodes nodes' pools fulls empties i p' fl' el' :
  linked_stacks nodes pools fulls empties ->
  (forall m, m ∈ concat fulls ++ concat empties -> next_of nodes' !! m = next_of nodes !! m) ->
  chain (next_of nodes') (full_head p') fl' -> chain (next_of nodes') (empty_head p') el' ->
  NoDup (concat (<[i := fl']> fulls) ++ concat (<[i := el']> empties)) ->
  (forall n, n ∈ concat (<[i := fl']> fulls) ++ concat (<[i := el']> empties) ->
     exists nd, nodes' !! n = Some nd /\ Magazine_wf (node_magazine nd)) ->
  linked_stacks nodes' (<[i := p']> pools) (<[i := fl']> fulls) (<[i := el']> empties).
Proof.
  intros [] Hn Hf He Hnd Hnodes. constructor; rewrite ?length_insert; try done.
  intros j p fl el Hp Hfl Hel.
  apply list_lookup_insert_Some in Hp as [(<- & <- & Hi)|[Hne Hp]].
  - rewrite list_lookup_insert_eq in Hfl by lia. rewrite list_lookup_insert_eq in Hel by lia.
    by simplify_eq.
  - rewrite list_lookup_insert_ne in Hfl by done. rewrite list_lookup_insert_ne in Hel by done.
    destruct (ls_chains0 j p fl el Hp Hfl Hel).
    split; (eapply chain_ext; [|done]); intros m Hm; apply Hn; apply elem_of_app;
      [left|right]; by eapply elem_of_concat_lookup.
Qed.

Lemma stack_exts_node nodes fulls empties n :
  n ∈ concat fulls ++ concat empties -> (n, NODE_SIZE) ∈ stack_exts nodes fulls empties.
Proof.
  unfold stack_exts. rewrite !elem_of_app. intros [Hn|Hn].
  - left. apply list_elem_of_In, in_concat in Hn as (fl & Hfl & Hn).
    apply list_elem_of_In, list_elem_of_lookup_1 in Hfl as [i Hi].
    destruct (concat_imap_focus (fun i l => concat (node_exts nodes (Z.of_nat i) <$> l)) fulls _ _ Hi)
      as (R & HR & _).
    unfold pool_exts. rewrite HR. apply elem_of_app. left.
    apply list_elem_of_In, in_concat. exists (node_exts nodes (Z.of_nat i) n).
    split; [apply in_map; done|]. by left.
  - right. apply list_elem_of_fmap. eauto.
Qed.

(** ** Single steps on the stacks *)

Section linked.
Context (nodes : gmap Z MagazineNode) (pools : list GlobalMagazinePool).
Context (fulls empties : list (list Z)) (Hls : linked_stacks nodes pools fulls empties).
Context (c : Z) (Hc : 0 <= c < POOL_SIZE_CLASSES).
Context (p : GlobalMagazinePool) (Hp : pools !! Z.to_nat c = Some p).

Lemma linked_class :
  exists fl el, fulls !! Z.to_nat c = Some fl /\ empties !! Z.to_nat c = Some el /\
    chain (next_of nodes) (full_head p) fl /\ chain (next_of nodes) (empty_head p) el.
Proof.
  pose proof Hls as []. unfold POOL_SIZE_CLASSES in *.
  destruct (lookup_lt_is_Some_2 fulls (Z.to_nat c)) as [fl Hfl]; [lia|].
  destruct (lookup_lt_is_Some_2 empties (Z.to_nat c)) as [el Hel]; [lia|].
  exists fl, el. split_and!; try done; by eapply ls_chains0.
Qed.

(** A node outside the stacks changes. *)
Lemma linked_node_update n nd :
  n ∉ concat fulls ++ concat empties ->
  linked_stacks (<[n := nd]> nodes) pools fulls empties /\
  stack_exts (<[n := nd]> nodes) fulls empties = stack_exts nodes fulls empties.
Proof.
  intros Hn. pose proof Hls as [].
  assert (Hold : forall k, k ∈ concat fulls ++ concat empties -> <[n := nd]> nodes !! k = nodes !! k).
  { intros k Hk. apply lookup_insert_ne. by intros ->. }
  split; [constructor; try done|].
  - intros k Hk. rewrite Hold by done. by apply ls_nodes0.
  - intros i q fl el Hq Hfl Hel. destruct (ls_chains0 i q fl el Hq Hfl Hel).
    split; (eapply chain_ext; [|done]); intros k Hk; unfold next_of;
      rewrite !lookup_fmap, Hold; try done; apply elem_of_app; [left|right];
      by eapply elem_of_concat_lookup.
  - unfold stack_exts. f_equal. apply pool_exts_ext. intros k Hk. apply Hold, elem_of_app. by left.
Qed.

(** The node on top of the full stack leaves it. *)
Lemma linked_pop_full :
  full_head p <> 0 ->
  exists nd fl, let fulls' := <[Z.to_nat c := fl]> fulls in
    fulls !! Z.to_nat c = Some (full_head p :: fl) /\
    nodes !! full_head p = Some nd /\ Magazine_wf (node_magazine nd) /\
    concat fulls ≡ₚ full_head p :: concat fulls' /\
    stack_exts nodes fulls empties ≡ₚ
      (full_head p, NODE_SIZE) :: mag_exts c (node_magazine nd) ++ stack_exts nodes fulls' empties /\
    linked_stacks nodes
      (<[Z.to_nat c := {| full_head := node_next nd; empty_head := empty_head p |}]> pools)
      fulls' empties.
Proof.
  intros H0. destruct linked_class as (fl & el & Hfl & Hel & Hcf & Hce). pose proof Hls as [].
  destruct fl as [|n fl]; simpl in Hcf; [done|]. destruct Hcf as (-> & _ & nx & Hnx & Hcf).
  destruct (concat_focus fulls _ _ Hfl) as (R & HR & HR').
  destruct (concat_imap_focus (fun i l => concat (node_exts nodes (Z.of_nat i) <$> l)) fulls _ _ Hfl)
    as (R2 & HR2 & HR2').
  rewrite Z2Nat.id in HR2, HR2' by lia.
  destruct (ls_nodes0 n) as (nd & Hnd & Hwf); [rewrite HR; by left|].
  exists nd, fl. assert (Hperm : concat fulls ≡ₚ n :: concat (<[Z.to_nat c := fl]> fulls)).
  { by rewrite HR, HR'. }
  split_and!; [done|done|done|done| |].
  - unfold stack_exts, pool_exts. rewrite HR2, HR2'. simpl. unfold node_mag. rewrite Hnd. simpl.
    by rewrite <- !app_assoc.
  - rewrite <- (list_insert_id empties (Z.to_nat c) el) by done.
    rewrite Hperm in ls_nodup0. apply NoDup_cons in ls_nodup0 as [_ Hnd'].
    apply (linked_stacks_update nodes nodes); simpl; try done.
    + unfold next_of in Hnx. rewrite lookup_fmap, Hnd in Hnx. by simplify_eq/=.
    + by rewrite (list_insert_id empties).
    + rewrite (list_insert_id empties) by done. intros m Hm. apply ls_nodes0. rewrite Hperm. by right.
Qed.

Section push.
Context (n : Z) (nd : MagazineNode) (Hn : n ∉ concat fulls ++ concat empties) (Hn0 : n <> 0).
Context (Hnd : nodes !! n = Some nd) (Hwf : Magazine_wf (node_magazine nd)).

Lemma linked_pushed k :
  k ∈ n :: concat fulls ++ concat empties ->
  exists nd', nodes !! k = Some nd' /\ Magazine_wf (node_magazine nd').
Proof. intros [->|Hk]%elem_of_cons; [eauto|]. by apply Hls. Qed.

Lemma linked_pushed_chain l h :
  node_next nd = h -> chain (next_of nodes) h l -> chain (next_of nodes) n (n :: l).
Proof.
  intros <- Hch. split_and!; [done|done|]. exists (node_next nd).
  split; [|done]. unfold next_of. by rewrite lookup_fmap, Hnd.
Qed.

(** A node that is linked to the top of the full stack joins it with its blocks. *)
Lemma linked_push_full :
  node_next nd = full_head p ->
  exists fulls',
    concat fulls' ≡ₚ n :: concat fulls /\
    stack_exts nodes fulls' empties ≡ₚ
      (n, NODE_SIZE) :: mag_exts c (node_magazine nd) ++ stack_exts nodes fulls empties /\
    linked_stacks nodes (<[Z.to_nat c := {| full_head := n; empty_head := empty_head p |}]> pools)
      fulls' empties.
Proof.
  intros Hnx. destruct linked_class as (fl & el & Hfl & Hel & Hcf & Hce). pose proof Hls as [].
  exists (<[Z.to_nat c := n :: fl]> fulls).
  destruct (concat_focus fulls _ _ Hfl) as (R & HR & HR').
  assert (Hperm : concat (<[Z.to_nat c := n :: fl]> fulls) ≡ₚ n :: concat fulls) by by rewrite HR, HR'.
  split_and!; [done| |].
  - unfold stack_exts, pool_exts.
    destruct (concat_imap_focus (fun i l => concat (node_exts nodes (Z.of_nat i) <$> l))
      fulls _ _ Hfl) as (R2 & -> & ->). rewrite Z2Nat.id by lia. simpl. unfold node_mag.
    rewrite Hnd. simpl. by rewrite <- !app_assoc.
  - rewrite <- (list_insert_id empties (Z.to_nat c) el) by done.
    apply (linked_stacks_update nodes); simpl; rewrite ?(list_insert_id empties) by done; try done.
    + by eapply linked_pushed_chain.
    + rewrite Hperm. by constructor.
    + intros k Hk. rewrite Hperm in Hk. by apply linked_pushed.
Qed.

(** A node that is linked to the top of the empty stack joins it. *)
Lemma linked_push_empty :
  node_next nd = empty_head p ->
  exists empties',
    concat empties' ≡ₚ n :: concat empties /\
    stack_exts nodes fulls empties' ≡ₚ (n, NODE_SIZE) :: stack_exts nodes fulls empties /\
    linked_stacks nodes (<[Z.to_nat c := {| full_head := full_head p; empty_head := n |}]> pools)
      fulls empties'.
Proof.
  intros Hnx. destruct linked_class as (fl & el & Hfl & Hel & Hcf & Hce). pose proof Hls as [].
  exists (<[Z.to_nat c := n :: el]> empties).
  destruct (concat_focus empties _ _ Hel) as (R & HR & HR').
  assert (Hperm : concat (<[Z.to_nat c := n :: el]> empties) ≡ₚ n :: concat empties) by by rewrite HR, HR'.
  assert (Hall : concat fulls ++ concat (<[Z.to_nat c := n :: el]> empties) ≡ₚ
    n :: concat fulls ++ concat empties) by (rewrite Hperm; by rewrite <- Permutation_middle).
  split_and!; [done| |].
  - unfold stack_exts. rewrite Hperm. simpl. by rewrite <- Permutation_middle.
  - rewrite <- (list_insert_id fulls (Z.to_nat c) fl) by done.
    apply (linked_stacks_update nodes); simpl; rewrite ?(list_insert_id fulls) by done; try done.
    + by eapply linked_pushed_chain.
    + rewrite Hall. by constructor.
    + intros k Hk. rewrite Hall in Hk. by apply linked_pushed.
Qed.
End push.
End linked.

Section stacks.
Context (nodes : gmap Z MagazineNode) (pools : list GlobalMagazinePool).
Context (N : list Z) (E : list (Z * Z)) (c : Z) (p : GlobalMagazinePool).
Context (Hst : stacks nodes pools N E) (Hc : 0 <= c < POOL_SIZE_CLASSES).
Context (Hp : pools !! Z.to_nat c = Some p).

Lemma stacks_pop_full :
  full_head p <> 0 ->
  exists nd N' E',
    nodes !! full_head p = Some nd /\ Magazine_wf (node_magazine nd) /\
    N ≡ₚ full_head p :: N' /\
    E ≡ₚ (full_head p, NODE_SIZE) :: mag_exts c (node_magazine nd) ++ E' /\
    stacks nodes (<[Z.to_nat c := {| full_head := node_next nd; empty_head := empty_head p |}]> pools)
      N' E'.
Proof.
  intros H0. destruct Hst as (fulls & empties & Hls & HN & HE).
  destruct (linked_pop_full _ _ _ _ Hls c Hc p Hp H0) as (nd & fl & Hfl & Hnd & Hwf & Hf & Hx & Hls').
  exists nd, (concat (<[Z.to_nat c := fl]> fulls) ++ concat empties).
  exists (stack_exts nodes (<[Z.to_nat c := fl]> fulls) empties).
  split_and!; [done|done|by rewrite HN, Hf|by rewrite HE|].
  by exists (<[Z.to_nat c := fl]> fulls), empties.
Qed.

Section push.
Context (n : Z) (m : Magazine) (Hn : n ∉ N) (Hn0 : n <> 0) (Hm : Magazine_wf m).

(** A node joins the full stack of its class with the blocks it caches. *)
Lemma stacks_push_full :
  stacks (<[n := {| node_next := full_head p; node_magazine := m |}]> nodes)
    (<[Z.to_nat c := {| full_head := n; empty_head := empty_head p |}]> pools)
    (n :: N) ((n, NODE_SIZE) :: mag_exts c m ++ E).
Proof.
  destruct Hst as (fulls & empties & Hls & HN & HE). rewrite HN in Hn.
  destruct (linked_node_update _ _ _ _ Hls n {| node_next := full_head p; node_magazine := m |} Hn)
    as [Hls1 Hx1].
  destruct (linked_push_full _ _ _ _ Hls1 c Hc p Hp n _ Hn Hn0 (lookup_insert_eq _ _ _) Hm eq_refl)
    as (fulls' & Hf & Hx & Hls').
  exists fulls', empties. split_and!; [done|by rewrite HN, Hf|]. by rewrite Hx, HE, Hx1.
Qed.

(** A node joins the empty stack, which does not hold any block. *)
Lemma stacks_push_empty :
  stacks (<[n := {| node_next := empty_head p; node_magazine := m |}]> nodes)
    (<[Z.to_nat c := {| full_head := full_head p; empty_head := n |}]> pools)
    (n :: N) ((n, NODE_SIZE) :: E).
Proof.
  destruct Hst as (fulls & empties & Hls & HN & HE). rewrite HN in Hn.
  destruct (linked_node_update _ _ _ _ Hls n {| node_next := empty_head p; node_magazine := m |} Hn)
    as [Hls1 Hx1].
  destruct (linked_push_empty _ _ _ _ Hls1 c Hc p Hp n _ Hn Hn0 (lookup_insert_eq _ _ _) Hm eq_refl)
    as (empties' & Hf & Hx & Hls').
  exists fulls, empties'. split_and!; [done| |by rewrite Hx, HE, Hx1].
  rewrite HN, Hf. by rewrite <- Permutation_middle.
Qed.
End push.
End stacks.
