(* ===== verification/GlobalCache.v ===== *)
(** * How the caches and the pools move blocks

    The parts of [alloc] and [dealloc] that touch the magazines and the pools only,
    accounted for in terms of [Kept]: a block that is taken leaves what the
    allocator keeps, a block that is freed joins it or is lost, and nothing else
    changes but places. *)

From S2P Require Import Prelude SizeClass Memory Extents Page Magazine Treiber Metadata.
From S2P Require Import AllocSpec Metrics Headers AllocCore Global GlobalInv.

(** ** One class of one thread, with the rest of what is kept *)

(** Thread [t]'s magazines of [class] are [a] and [f]; the rest is [N] and [E]. *)
Definition held (t : nat) (class : Z) (s : state) (a f : Magazine) (N : list Z)
    (E : list (Z * Z)) : Prop :=
  exists R P, meta_wf (st_meta s) /\ focus t class s a f R /\
    stacks (st_nodes s) (st_pools s) N P /\ E ≡ₚ meta_rest (st_meta s) :: R ++ P.

(** Memory is as before, and so is the number of threads. *)
Definition same_mem (s s' : state) : Prop :=
  st_mem s' = st_mem s /\ length (st_mags s') = length (st_mags s).

Lemma same_mem_trans s1 s2 s3 : same_mem s1 s2 -> same_mem s2 s3 -> same_mem s1 s3.
Proof. intros [? ?] [? ?]. split; congruence. Qed.

Lemma only_caches_same_mem s s' : only_caches s s' -> same_mem s s'.
Proof. intros (? & _ & _ & _ & ?). done. Qed.

#[export] Hint Resolve only_caches_same_mem same_mem_trans : aeth.

Lemma mag_exts_app c m m' l :
  contents m' = contents m ++ l -> mag_exts c m' = mag_exts c m ++ ((fun b => (b, block_size c)) <$> l).
Proof. intros H. unfold mag_exts. by rewrite H, fmap_app. Qed.

Lemma mag_exts_nil c m : contents m = [] -> mag_exts c m = [].
Proof. intros H. unfold mag_exts. by rewrite H. Qed.

Lemma contents_empty m : mag_count m = 0 -> contents m = [].
Proof. intros H. unfold contents. by rewrite H. Qed.

Section held.
Context (t : nat) (class : Z).

#[global] Instance held_perm s a f : Proper ((≡ₚ) ==> (≡ₚ) ==> iff) (held t class s a f).
Proof. intros N N' HN E E' HE. unfold held. by setoid_rewrite HN; setoid_rewrite HE. Qed.

Lemma Kept_held s N E :
  Kept s N E -> (t < length (st_mags s))%nat -> 0 <= class < NUM_SIZE_CLASSES ->
  exists a f E', held t class s a f N E' /\ E ≡ₚ mag_exts class a ++ mag_exts class f ++ E'.
Proof.
  intros (Hm & Hw & P & Hst & HE) Ht Hc.
  destruct (focus_intro t class s Hc Ht Hw) as (a & f & Hf).
  exists a, f, (meta_rest (st_meta s) :: rest_exts t (Z.to_nat class) (st_mags s) ++ P). split.
  - by exists (rest_exts t (Z.to_nat class) (st_mags s)), P.
  - rewrite HE, (focus_exts _ _ _ _ _ _ Hf). solve_Permutation.
Qed.

Lemma held_Kept s a f N E :
  held t class s a f N E -> Kept s N (mag_exts class a ++ mag_exts class f ++ E).
Proof.
  intros (R & P & Hm & Hf & Hst & HE). split_and!; [done|by eapply fo_mags|].
  exists P. split; [done|]. rewrite HE, (focus_exts _ _ _ _ _ _ Hf). solve_Permutation.
Qed.

Lemma held_wf s a f N E : held t class s a f N E -> Magazine_wf a /\ Magazine_wf f.
Proof. intros (R & P & _ & Hf & _). by eapply focus_wf. Qed.

Lemma held_alloc_wp {A} (m : M Magazine A) s a f N E (Q : A -> state -> Prop) :
  held t class s a f N E ->
  wp m (fun r a' => Magazine_wf a' /\
    forall s', held t class s' a' f N E -> same_mem s s' -> Q r s') a ->
  wp (on_alloc_mag t class m) Q s.
Proof.
  intros (R & P & Hm & Hf & Hst & HE) Hwp. eapply on_alloc_mag_wp; [done|].
  eapply wp_mono; [exact Hwp|]. intros r a' [Hwf HQ]. split; [done|].
  intros s' Hf' Ho. apply HQ; [|by auto with aeth].
  destruct Ho as (H1 & H2 & H3 & H4 & H5). exists R, P. by rewrite H2, H3, H4.
Qed.

Lemma held_free_wp {A} (m : M Magazine A) s a f N E (Q : A -> state -> Prop) :
  held t class s a f N E ->
  wp m (fun r f' => Magazine_wf f' /\
    forall s', held t class s' a f' N E -> same_mem s s' -> st_meta s' = st_meta s -> Q r s') f ->
  wp (on_free_mag t class m) Q s.
Proof.
  intros (R & P & Hm & Hf & Hst & HE) Hwp. eapply on_free_mag_wp; [done|].
  eapply wp_mono; [exact Hwp|]. intros r f' [Hwf HQ]. split; [done|].
  intros s' Hf' Ho. apply HQ; [|by auto with aeth|by destruct Ho as (_ & _ & _ & ? & _)].
  destruct Ho as (H1 & H2 & H3 & H4 & H5). exists R, P. by rewrite H2, H3, H4.
Qed.

(** ** Taking a block *)

Lemma alloc_pop_wp s a f N E (Q : option Z -> state -> Prop) :
  held t class s a f N E ->
  (forall s', contents a = [] -> held t class s' a f N E -> same_mem s s' -> Q None s') ->
  (forall b a' s', mag_exts class a ≡ₚ (b, block_size class) :: mag_exts class a' ->
     held t class s' a' f N E -> same_mem s s' -> Q (Some b) s') ->
  wp (on_alloc_mag t class Magazine_pop) Q s.
Proof.
  intros Hh HN HS. destruct (held_wf _ _ _ _ _ Hh) as [Hwa _].
  eapply held_alloc_wp; [done|]. unfold wp. destruct Hwa as [Hl Hc] eqn:Hw.
  destruct (decide (mag_count a = 0)) as [H0|H0].
  - rewrite Magazine_pop_empty by done. eexists _, _. split; [done|]. split; [done|].
    intros s' Hs'. apply HN; [|done]. by apply contents_empty.
  - destruct (Magazine_pop_some a) as (b & a' & Hr & Hwf' & Hcont & _); [done|lia|].
    eexists _, _. split; [done|]. split; [done|]. intros s'. apply HS.
    rewrite (mag_exts_app _ _ _ _ Hcont). simpl. by rewrite Permutation_app_comm.
Qed.

Lemma get_mag_wp s a f N E (Q : Magazine -> state -> Prop) :
  held t class s a f N E ->
  (forall s', held t class s' a f N E -> same_mem s s' -> Q a s') ->
  wp (on_alloc_mag t class getS) Q s.
Proof.
  intros Hh HQ. destruct (held_wf _ _ _ _ _ Hh). eapply held_alloc_wp; [done|].
  eexists _, _. split; [done|]. auto.
Qed.

Lemma get_free_mag_wp s a f N E (Q : Magazine -> state -> Prop) :
  held t class s a f N E ->
  (forall s', held t class s' a f N E -> same_mem s s' -> Q f s') ->
  wp (on_free_mag t class getS) Q s.
Proof.
  intros Hh HQ. destruct (held_wf _ _ _ _ _ Hh). eapply held_free_wp; [done|].
  eexists _, _. split; [done|]. auto.
Qed.

Lemma swap_mags_wp s a f N E (Q : unit -> state -> Prop) :
  held t class s a f N E ->
  (forall s', held t class s' f a N E -> same_mem s s' -> Q tt s') ->
  wp (swap_mags t class) Q s.
Proof.
  intros Hh HQ. destruct (held_wf _ _ _ _ _ Hh) as [Hwa Hwf]. unfold swap_mags.
  apply wp_bind. eapply get_mag_wp; [done|]. intros s1 H1 M1.
  apply wp_bind. eapply get_free_mag_wp; [done|]. intros s2 H2 M2.
  apply wp_bind. eapply held_alloc_wp; [done|]. apply wp_modify. split; [done|]. intros s3 H3 M3.
  eapply held_free_wp; [done|]. apply wp_modify. split; [done|]. intros s4 H4 M4 _.
  apply HQ; [done|]. eauto with aeth.
Qed.
End held.

(** ** The pools *)

Section pools.
Context (t : nat) (class : Z) (Hclass : 0 <= class < POOL_SIZE_CLASSES).

Lemma focus_other s s' a f R :
  st_caches s' = st_caches s -> focus t class s a f R -> focus t class s' a f R.
Proof.
  intros He []. assert (Hm : st_mags s' = st_mags s) by (unfold st_mags; by rewrite He).
  unfold get_alloc_mag, get_free_mag in *.
  constructor; unfold get_alloc_mag, get_free_mag; rewrite ?Hm, ?He; done.
Qed.

Lemma on_pool_wp {A} (m : M pool_store A) s N P (Q : A -> state -> Prop) :
  stacks (st_nodes s) (st_pools s) N P ->
  (forall p, st_pools s !! Z.to_nat class = Some p ->
     wp m (fun r x => Q r (put_pool class x s)) (st_nodes s, p)) ->
  wp (on_pool class m) Q s.
Proof.
  intros Hst Hm. destruct (stacks_lookup _ _ _ _ _ Hst Hclass) as (p & Hp & Hlk).
  eapply wp_zoom; [unfold get_pool; by rewrite Hp|]. by apply Hm.
Qed.

(** [pop_full] finds the stack empty or takes a node out of what the pools hold. *)
Lemma pop_full_wp s a f N E (Q : option Z -> state -> Prop) :
  held t class s a f N E ->
  (forall s', held t class s' a f N E -> same_mem s s' -> Q None s') ->
  (forall n nd N' E' s', n <> 0 -> st_nodes s' !! n = Some nd -> Magazine_wf (node_magazine nd) ->
     n ∉ N' -> E ≡ₚ (n, NODE_SIZE) :: mag_exts class (node_magazine nd) ++ E' ->
     held t class s' a f N' E' -> same_mem s s' -> Q (Some n) s') ->
  wp (on_pool class pop_full) Q s.
Proof.
  intros (R & P & Hm & Hf & Hst & HE) HN HS. eapply on_pool_wp; [done|]. intros p Hp.
  apply wp_bind, wp_gets. simpl. destruct (Z.eqb_spec (full_head p) 0) as [H0|H0].
  - apply wp_ret. apply HN; [|done]. exists R, P. split_and!; [done| |simpl; by rewrite list_insert_id|done].
    by apply (focus_other s).
  - destruct (stacks_pop_full _ _ _ _ _ _ Hst Hclass Hp H0) as (nd & N' & P' & Hnd & Hwf & HN' & HP & Hst').
    apply wp_bind, wp_gets. apply wp_bind. eapply wp_or_fault; [exact Hnd|].
    apply wp_bind, wp_modify, wp_ret. simpl.
    pose proof (stacks_nodup _ _ _ _ Hst) as Hnd2. rewrite HN' in Hnd2.
    apply NoDup_cons in Hnd2 as [Hnin _].
    eapply (HS _ nd N' (meta_rest (st_meta s) :: R ++ P')); try done.
    + rewrite HE, HP. solve_Permutation.
    + exists R, P'. split_and!; try done. by apply (focus_other s).
Qed.

(** The empty local magazine and the node's full one change places. *)
Lemma exchange_node_wp s a f n nd N E (Q : unit -> state -> Prop) :
  held t class s a f N E -> contents a = [] ->
  n <> 0 -> st_nodes s !! n = Some nd -> Magazine_wf (node_magazine nd) -> n ∉ N ->
  (forall s', held t class s' (node_magazine nd) f (n :: N) ((n, NODE_SIZE) :: E) ->
     same_mem s s' -> Q tt s') ->
  wp (exchange_node t class n) Q s.
Proof.
  intros (R & P & Hm & Hf & Hst & HE) Ha Hn0 Hnd Hwf Hn HQ.
  destruct (focus_wf _ _ _ _ _ _ Hf) as [Hwa _]. unfold exchange_node, swap_node.
  apply wp_bind, wp_bind. eapply on_alloc_mag_wp; [done|]. eexists _, _. split; [done|]. split; [done|].
  intros s1 Hf1 (Hm1 & Hn1 & Hp1 & Hma1 & Hl1).
  apply wp_bind, wp_gets. apply wp_bind. eapply wp_or_fault; [by rewrite Hn1|].
  apply wp_bind. eapply on_alloc_mag_wp; [done|]. apply wp_modify. split; [done|].
  intros s2 Hf2 (Hm2 & Hn2 & Hp2 & Hma2 & Hl2).
  apply wp_modify. unfold on_pool.
  destruct (stacks_lookup _ _ _ _ _ Hst Hclass) as (p & Hpg & Hp).
  eapply wp_zoom. { unfold get_pool. simpl. rewrite Hp2, Hp1, Hpg. done. }
  apply wp_bind, wp_gets. apply wp_bind. unfold set_node_next. apply wp_bind, wp_gets.
  apply wp_bind. eapply wp_or_fault; [simpl; apply lookup_insert_eq|]. apply wp_modify.
  apply wp_modify. simpl. apply HQ.
  - exists R, ((n, NODE_SIZE) :: P). unfold set_nodes, put_pool. simpl.
    rewrite Hma2, Hma1, Hn1, Hp2, Hp1. split_and!; [done| | |].
    + by apply (focus_other s2).
    + rewrite insert_insert_eq. apply stacks_push_empty; try done.
      destruct Hwa as [Hla _]. split; simpl; [done|unfold MAGAZINE_CAPACITY; lia].
    + rewrite HE. solve_Permutation.
  - split; simpl; [congruence|]. unfold st_mags in *. simpl in *. congruence.
Qed.

(** [take_cached] returns; when it returns a block, the block leaves what is kept,
    and when it does not, what is kept only changes places. *)
Lemma take_cached_wp s N E (Q : option Z -> state -> Prop) :
  Kept s N E -> (t < length (st_mags s))%nat ->
  (forall s' N', Kept s' N' E -> same_mem s s' -> Q None s') ->
  (forall b s' N' E', E ≡ₚ (b, block_size class) :: E' -> Kept s' N' E' -> same_mem s s' ->
     Q (Some b) s') ->
  wp (take_cached t class) Q s.
Proof.
  intros HK Ht HN HS. unfold POOL_SIZE_CLASSES in Hclass.
  destruct (Kept_held t class s N E HK Ht) as (a & f & E0 & Hh & HE); [unfold NUM_SIZE_CLASSES; lia|].
  unfold take_cached. apply wp_bind. eapply alloc_pop_wp; [done| |].
  2:{ intros b a' s' He Hh' M'. apply wp_ret. eapply HS; [|by eapply held_Kept|done].
      rewrite HE, He. done. }
  intros s1 Ha H1 M1. apply wp_bind. eapply get_free_mag_wp; [done|]. intros s2 H2 M2.
  apply wp_bind. destruct (Magazine_is_empty f) eqn:Hf.
  - apply wp_ret. apply wp_bind. eapply pop_full_wp; [done| |].
    + intros s3 H3 M3. apply wp_ret. eapply HN; [|by eauto with aeth].
      rewrite HE. by eapply held_Kept.
    + intros n nd N' E' s3 Hn0 Hnd Hwf Hn He H3 M3. apply wp_bind.
      eapply exchange_node_wp; [done..|]. intros s4 H4 M4.
      rewrite (mag_exts_nil class a Ha) in HE. simpl in HE. rewrite He in HE.
      eapply alloc_pop_wp; [done| |].
      * intros s5 Hc H5 M5. eapply HN; [|by eauto with aeth]. rewrite HE.
        rewrite (mag_exts_nil _ _ Hc). simpl. pose proof (held_Kept _ _ _ _ _ _ _ H5) as HK5.
        rewrite (mag_exts_nil _ _ Hc) in HK5. done.
      * intros b a' s5 Hb H5 M5. eapply HS; [|by eapply held_Kept|by eauto with aeth].
        rewrite HE, Hb. solve_Permutation.
  - apply wp_bind. eapply swap_mags_wp; [done|]. intros s3 H3 M3.
    eapply alloc_pop_wp; [done| |].
    + intros s4 Hc _ _. exfalso. destruct (held_wf _ _ _ _ _ _ _ H3) as [[Hl Hcn] _].
      unfold Magazine_is_empty in Hf. apply Z.eqb_neq in Hf. unfold contents in Hc.
      apply (f_equal length) in Hc. rewrite length_take in Hc. simpl in Hc.
      unfold MAGAZINE_CAPACITY in *. lia.
    + intros b a' s4 Hb H4 M4. apply wp_ret. eapply HS; [|by eapply held_Kept|by eauto with aeth].
      rewrite HE, Hb. solve_Permutation.
Qed.
End pools.

(** ** Giving a block back *)

Lemma stacks_node_ext nodes pools N P n :
  stacks nodes pools N P -> n ∈ N -> (n, NODE_SIZE) ∈ P.
Proof.
  intros (fulls & empties & _ & HN & HP). rewrite HN, HP. apply stack_exts_node.
Qed.

Lemma contents_full_nil m : Magazine_wf m -> contents m = [] -> mag_count m < MAGAZINE_CAPACITY.
Proof.
  intros [Hl Hc] Hn. unfold contents in Hn. apply (f_equal length) in Hn.
  rewrite length_take in Hn. simpl in Hn. unfold MAGAZINE_CAPACITY in *. lia.
Qed.

Section giving.
Context `{K : Kernel} {KS : KernelSpec K}.
Context (t : nat) (class : Z) (Hclass : 0 <= class < POOL_SIZE_CLASSES).

(** No node can be had: the metadata page has no room and no page can be mapped. *)
Definition no_node (s : state) : Prop :=
  PAGE_SIZE < node_aligned (ma_offset (st_meta s)) +! NODE_SIZE /\ kernel_mmap (st_mem s) PAGE_SIZE = None.

(** The thread's magazine for freed blocks of the class is full. *)
Definition full_mag (t : nat) (class : Z) (s : state) : Prop :=
  exists f, get_free_mag t class s = Some f /\ mag_count f = MAGAZINE_CAPACITY.

(** The full free magazine moves into a node of the pool, unless no page can be
    mapped for the node. *)
Lemma retire_free_mag_wp s a f N E X (Q : unit -> state -> Prop) :
  held t class s a f N E -> arena (st_mem s) (X ++ mag_exts class a ++ mag_exts class f ++ E) ->
  (forall s', no_node s -> held t class s' a f N E -> same_mem s s' -> Q tt s') ->
  (forall s' N' E', held t class s' a Magazine_new N' E' -> mem_extends (st_mem s) (st_mem s') ->
     length (st_mags s') = length (st_mags s) ->
     arena (st_mem s') (X ++ mag_exts class a ++ E') -> Q tt s') ->
  wp (retire_free_mag t class) Q s.
Proof.
  intros (R & P & Hm & Hf & Hst & HE) Har Hnull Hnode. unfold retire_free_mag.
  destruct (focus_wf _ _ _ _ _ _ Hf) as [_ Hwf].
  apply wp_bind. eapply wp_zoom; [done|]. rewrite HE in Har.
  eapply (alloc_node_wp _ _ (X ++ mag_exts class a ++ mag_exts class f ++ R ++ P)); [done|..].
  { eapply arena_perm; [|exact Har]. solve_Permutation. }
  { intros Hroom Hk. rewrite Z.eqb_refl. apply wp_ret. apply Hnull; [by split| |done].
    exists R, P. split_and!; try done. by apply (focus_other t class s). }
  intros n m' ma' Hn Hmw He Har'. destruct (Z.eqb_spec n 0); [lia|].
  assert (Hnin : n ∉ N).
  { intros HnN. apply (arena_disj _ _ _ (n, NODE_SIZE) Har') with n.
    - do 5 (rewrite ?elem_of_cons, ?elem_of_app). pose proof (stacks_node_ext _ _ _ _ _ Hst HnN). tauto.
    - unfold in_ext. simpl. unfold NODE_SIZE, MAGAZINE_CAPACITY. lia.
    - unfold in_ext. simpl. unfold NODE_SIZE, MAGAZINE_CAPACITY. lia. }
  assert (Hf0 : focus t class (set_meta (m', ma') s) a f R) by by apply (focus_other t class s).
  unfold fill_node. apply wp_bind, wp_bind. eapply on_free_mag_wp; [done|]. eexists _, _. split; [done|]. split; [done|].
  intros s1 Hf1 (Hm1 & Hn1 & Hp1 & Hma1 & Hl1).
  apply wp_bind. eapply on_free_mag_wp; [done|]. apply wp_modify. split; [apply Magazine_new_wf|].
  intros s2 Hf2 (Hm2 & Hn2 & Hp2 & Hma2 & Hl2). simpl in *.
  apply wp_bind, wp_gets. apply wp_modify. unfold on_pool.
  destruct (stacks_lookup _ _ _ _ _ Hst Hclass) as (p & Hpg & Hp).
  eapply wp_zoom. { unfold get_pool. simpl. rewrite Hp2, Hp1, Hpg. done. }
  apply wp_bind, wp_gets. apply wp_bind. unfold set_node_next. apply wp_bind, wp_gets.
  apply wp_bind. eapply wp_or_fault; [simpl; apply lookup_insert_eq|]. apply wp_modify.
  apply wp_modify. simpl.
  eapply (Hnode _ (n :: N) (meta_rest ma' :: R ++ (n, NODE_SIZE) :: mag_exts class f ++ P)).
  - eexists R, _. unfold set_nodes, put_pool. simpl. rewrite Hma2, Hma1, Hn2, Hn1, Hp2, Hp1.
    split_and!; [done| | |done].
    + by apply (focus_other t class s2).
    + rewrite insert_insert_eq. by apply stacks_push_full.
  - simpl. by rewrite Hm2, Hm1.
  - unfold st_mags in *. simpl in *. congruence.
  - simpl. rewrite Hm2, Hm1. eapply arena_perm; [|exact Har']. solve_Permutation.
Qed.

Lemma free_push_wp s a f N E b (Q : bool -> state -> Prop) :
  held t class s a f N E ->
  (forall s', mag_count f = MAGAZINE_CAPACITY -> held t class s' a f N E -> same_mem s s' ->
     st_meta s' = st_meta s -> Q false s') ->
  (forall s' f', mag_exts class f' ≡ₚ (b, block_size class) :: mag_exts class f ->
     held t class s' a f' N E -> same_mem s s' -> Q true s') ->
  wp (on_free_mag t class (Magazine_push b)) Q s.
Proof.
  intros Hh HF HT. destruct (held_wf _ _ _ _ _ _ _ Hh) as [_ Hw].
  eapply held_free_wp; [done|]. unfold wp. pose proof Hw as [Hl Hc].
  destruct (decide (mag_count f = MAGAZINE_CAPACITY)) as [H0|H0].
  - rewrite Magazine_push_full by done. eexists _, _. split; [done|]. split; [done|]. auto.
  - destruct (Magazine_push_room b f) as (f' & Hr & Hwf' & Hcont & _); [done|lia|].
    eexists _, _. split; [done|]. split; [done|]. intros s' Hh' Hs' _. apply (HT s' f'); [|done|done].
    rewrite (mag_exts_app _ _ _ _ Hcont). simpl. by rewrite Permutation_app_comm.
Qed.

Lemma on_metrics_same_wp {A} (m : M (Metrics * Metrics) A) s (Q : A -> state -> Prop) :
  (forall x, wp m (fun _ _ => True) x) -> (t < length (st_mags s))%nat ->
  (forall a s', (forall N E, Kept s N E -> Kept s' N E) -> same_mem s s' -> Q a s') ->
  wp (on_metrics t m) Q s.
Proof.
  intros Hm Ht HQ. apply on_metrics_wp; [done|done|].
  intros r s' (H1 & H2 & H3 & H4 & H5). apply HQ; [|by split; [|rewrite H5]].
  intros N E. unfold Kept. by rewrite H2, H3, H4, H5.
Qed.

(** The last steps of a free: the block joins its magazine, unless that is full. *)
Lemma push_count_wp s a f N E b (Q : unit -> state -> Prop) :
  held t class s a f N E -> (t < length (st_mags s))%nat ->
  (forall s' E', Kept s' N E' -> same_mem s s' ->
     E' ≡ₚ (b, block_size class) :: mag_exts class a ++ mag_exts class f ++ E \/
     (mag_count f = MAGAZINE_CAPACITY /\ E' ≡ₚ mag_exts class a ++ mag_exts class f ++ E) ->
     Q tt s') ->
  wp (on_free_mag t class (Magazine_push b) ;; on_metrics t (record_event EvFree)) Q s.
Proof.
  intros Hh Ht HQ. apply wp_bind. eapply free_push_wp; [done|..].
  - intros s1 Hfull H1 [M1 L1] _. apply on_metrics_same_wp; [auto with aeth|by rewrite L1|].
    intros [] s2 HK2 M2. apply held_Kept in H1.
    eapply HQ; [by apply HK2|by eapply same_mem_trans|by right].
  - intros s1 f' Hf' H1 [M1 L1]. apply on_metrics_same_wp; [auto with aeth|by rewrite L1|].
    intros [] s2 HK2 M2. apply held_Kept in H1.
    eapply HQ; [by apply HK2|by eapply same_mem_trans|left]. rewrite Hf'. solve_Permutation.
Qed.

(** [dealloc_cached] returns; the block joins what is kept, or it is lost because the
    magazine is full and no page can be mapped for a node. *)
Lemma dealloc_cached_wp s N E X block (Q : unit -> state -> Prop) :
  Kept s N E -> (t < length (st_mags s))%nat ->
  arena (st_mem s) ((block, block_size class) :: X ++ E) ->
  (forall s' N' E', Kept s' N' E' -> mem_extends (st_mem s) (st_mem s') ->
     length (st_mags s') = length (st_mags s) -> arena (st_mem s') (X ++ E') ->
     (block, block_size class) ∈ E' \/ full_mag t class s /\ no_node s -> Q tt s') ->
  wp (dealloc_cached t class block) Q s.
Proof.
  intros HK Ht Har HQ. unfold POOL_SIZE_CLASSES in Hclass.
  destruct (Kept_held t class s N E HK Ht) as (a & f & E0 & Hh & HE); [unfold NUM_SIZE_CLASSES; lia|].
  rewrite HE in Har. unfold dealloc_cached. apply wp_bind. eapply free_push_wp; [done|..].
  2:{ intros s1 f' Hf' H1 [M1 L1]. apply on_metrics_same_wp; [auto with aeth|by rewrite L1|].
      intros [] s2 HK2 [M2 L2]. apply held_Kept in H1. rewrite Hf' in H1.
      eapply HQ; [by apply HK2|by rewrite M2, M1|congruence| |].
      - rewrite M2, M1. eapply arena_perm; [|exact Har]. solve_Permutation.
      - left. rewrite !elem_of_app, elem_of_cons. tauto. }
  intros s1 Hfull H1 [M1 L1] Hmeta. cbv beta iota. rewrite <- M1 in Har. apply wp_bind.
  eapply (retire_free_mag_wp _ _ _ _ _ ((block, block_size class) :: X)); [done|done|..].
  - intros s2 Hk H2 [M2 L2]. eapply push_count_wp; [done|by rewrite L2, L1|].
    intros s3 E' HK3 [M3 L3] HE'.
    eapply HQ; [done|by rewrite M3, M2, M1|congruence| |right].
    2:{ split; [|unfold no_node in *; by rewrite <- M1, <- Hmeta].
        destruct Hh as (R & P & _ & Hf & _). exists f. split; [apply Hf|done]. }
    rewrite M3, M2. destruct HE' as [->|[_ ->]].
    + eapply arena_perm; [|exact Har]. solve_Permutation.
    + by apply (arena_drop _ [_]) in Har.
  - intros s2 N' E' H2 X2 L2 Har2. eapply push_count_wp; [done|by rewrite L2, L1|].
    intros s3 E3 HK3 [M3 L3] HE'. destruct HE' as [HE'|[Hc _]]; [|done].
    eapply HQ; [done|by rewrite M3, <- M1|congruence| |left; rewrite HE'; by left].
    rewrite M3, HE'. eapply arena_perm; [|exact Har2]. solve_Permutation.
Qed.
End giving.
