(* ===== verification/GlobalSafe.v ===== *)
(** * Correctness of [alloc] and [dealloc] in magazine-caching mode

    Every call keeps the invariant, never faults or panics, and does what an
    allocator promises: what [alloc] returns is aligned, mapped and disjoint from
    everything else in use, and nobody else's bytes change. *)

From S2P Require Import Prelude SizeClass Memory Extents AllocSpec Page Magazine Treiber.
From S2P Require Import Metadata Metrics Headers AllocCore Global GlobalInv GlobalCache.

(** ** [alloc] *)

Section alloc.
Context `{K : Kernel} {KS : KernelSpec K}.
Context (t : nat).

(** The blocks that fit go into the magazine, the others are dropped. *)
Lemma bulk_init_wp s0 L F s c base n (Q : unit -> state -> Prop) :
  0 <= c <= 12 -> inside t s0 L (F ++ carve base (block_size c) n) s ->
  (forall s', inside t s0 L F s' -> Q tt s') ->
  wp (on_alloc_mag t c (Magazine_bulk_init base (block_size c) (Z.of_nat n))) Q s.
Proof.
  intros Hc (Ht & Hn & Hp & Hl & E & [N HK] & Har) HQ.
  destruct (Kept_held t c s N E HK) as (a & f & E0 & Hh & HE);
    [rewrite st_mags_length; simpl in *; lia|unfold NUM_SIZE_CLASSES; lia|].
  destruct (held_wf _ _ _ _ _ _ _ Hh) as [Hwa _]. eapply held_alloc_wp; [done|].
  destruct (Magazine_bulk_init_spec base (block_size c) (Z.of_nat n) a Hwa) as (a' & Hr & Hwa' & Ha');
    [lia|]. set (k := Z.to_nat _) in Ha'.
  exists tt, a'. split; [done|]. split; [done|]. intros s' Hh' [Hm' Hn']. apply HQ.
  destruct (carve_prefix base (block_size c) k n) as (l & Hk); [lia|].
  rewrite !st_mags_length in Hn'. split_and!; [done|simpl in *; congruence| |simpl; by rewrite Hm'|].
  - eapply preserves_trans; [done|by apply preserves_mem].
  - apply held_Kept in Hh'. eexists. split; [exists N; exact Hh'|]. simpl. rewrite Hm'.
    rewrite (mag_exts_app _ _ _ _ Ha'), <- list_fmap_compose.
    change (_ <$> seq 0 k) with (carve base (block_size c) k).
    apply (arena_drop _ l). eapply arena_perm; [|exact Har]. rewrite HE, Hk. solve_Permutation.
Qed.

Lemma alloc_miss_wp s0 L s size c (Q : Z -> state -> Prop) :
  inside t s0 L [] s -> 0 < size <= MAX_CACHE_SIZE -> size_to_class size = Some c ->
  st_mem s = st_mem s0 ->
  (forall p s', alloc_post s0 L size 1 p s' -> Q p s') ->
  wp (alloc_miss t c size (class_size c)) Q s.
Proof.
  intros Hin Hs Hc Hm HQ. pose proof (size_to_class_inv _ _ Hc) as [Hcr _].
  unfold alloc_miss. apply wp_bind. eapply inside_metrics_wp; [auto with aeth|done|].
  intros _ s1 Hin1 (Hm1 & _). cbv zeta. rewrite block_size_eq by done.
  destruct (Z.ltb_spec 1 (PAGE_SIZE / block_size c)) as [Hbpp|Hbpp];
    [|eapply alloc_own_pages_wp; [done..|simpl; congruence|done]].
  apply wp_bind. eapply inside_pages_wp; [done|lia|..].
  { intros Hk. eapply alloc_own_pages_wp; [done..|simpl; congruence|done]. }
  intros p m' Hin2 Hpa Hp0 Htop. pose proof (inside_page_blocks _ _ _ _ _ _ Hin2 Hcr Hpa Hbpp) as Hin3.
  set (n := Z.to_nat (PAGE_SIZE / block_size c - 1)) in *.
  replace (saturating_sub (PAGE_SIZE / block_size c) 1) with (Z.of_nat n)
    by (unfold saturating_sub; lia).
  apply wp_bind. destruct (Z.ltb_spec 0 (Z.of_nat n)); [|lia].
  eapply (bulk_init_wp s0 L [(p, block_size c)]); [done|done|]. intros s3 Hin4.
  by eapply miss_block_wp.
Qed.

Lemma AethAlloc_alloc_wp s L size align (Q : Z -> state -> Prop) :
  Inv s L -> (t < md_threads s)%nat -> layout_ok size align ->
  (forall p s', alloc_post s L size align p s' -> Q p s') ->
  wp (AethAlloc_alloc t size align) Q s.
Proof.
  intros HI Ht Hlay HQ. pose proof (inside_start t s L HI Ht) as Hin. unfold AethAlloc_alloc.
  destruct (Z.eqb_spec size 0) as [->|H0].
  { apply wp_ret. apply HQ. split_and!; [done|apply preserves_refl|]. left. split_and!; auto. }
  assert (Hs0 : 0 < size) by (destruct Hlay; lia).
  destruct ((size <=? MAX_CACHE_SIZE) && (align <=? 8)) eqn:Hsmall;
    [|eapply alloc_large_wp; try done].
  apply andb_true_iff in Hsmall as [Hs Ha]. apply Z.leb_le in Hs, Ha.
  destruct (size_to_class_total size) as (c & Hc & Hcr & Hround & _); [done|]. cbv zeta.
  rewrite (size_to_class_rounded _ _ Hc), Hround.
  destruct Hlay as (_ & (k & Hk & ->)%is_power_of_two_iff & _).
  assert (HQ' : forall p s', alloc_post s L size 1 p s' -> Q p s').
  { intros. by apply HQ, alloc_post_align. }
  destruct HI as (E & [N HK] & Har & Hl). simpl in Ht. rewrite <- st_mags_length in Ht.
  apply wp_bind. eapply (take_cached_wp t c); [unfold POOL_SIZE_CLASSES; lia|done|done|..].
  - intros s1 N1 HK1 [Hm1 Hn1]. eapply alloc_miss_wp; [|done|done|done|done].
    split_and!; simpl; rewrite <- ?st_mags_length; [done|done|by apply preserves_mem|by rewrite Hm1|].
    exists E. rewrite Hm1. split; [by exists N1|done].
  - intros b s1 N1 E1 HE HK1 [Hm1 Hn1]. eapply cache_hit_wp; [|done|done|done].
    split_and!; simpl; rewrite <- ?st_mags_length; [done|done|by apply preserves_mem|by rewrite Hm1|].
    exists E1. split; [by exists N1|]. rewrite Hm1. eapply arena_perm; [|exact Har].
    rewrite HE. solve_Permutation.
Qed.
End alloc.

(** ** [dealloc] *)

Section dealloc.
Context `{K : Kernel} {KS : KernelSpec K}.
Context (t : nat).

(** A small block is lost when its magazine is full, the metadata page has no room for
    another node and the kernel refuses a page. *)
Definition block_lost (s : state) (x : Z * alloc_kind) : Prop :=
  exists c, size_to_class (kind_size x.2) = Some c /\ full_mag t c s /\ no_node s.

Lemma dealloc_small_wp s size p L (Q : unit -> state -> Prop) :
  Inv s ((p, ASmall size) :: L) -> (t < md_threads s)%nat ->
  (forall s', dealloc_post (block_lost s (p, ASmall size)) s (p, ASmall size) L s' -> Q tt s') ->
  wp (AethAlloc_dealloc t p) Q s.
Proof.
  intros (E & [N HK] & HL) Ht HQ. pose proof (live_pos _ _ _ _ HL) as [Hp0 _]. simpl in Hp0, Ht.
  unfold AethAlloc_dealloc. destruct (Z.eqb_spec p 0); [lia|].
  apply wp_bind, md_on_mem_wp, (find_alloc_wp _ _ _ _ HL). cbn [found_of fst snd]. rewrite md_set_id.
  destruct HL as [Har [Hok Hl]%Forall_cons].
  destruct (small_class _ _ _ Hok) as (c & Hc & Hcr & Hle & He).
  rewrite fmap_cons, He in Har. rewrite (size_to_class_rounded _ _ Hc).
  rewrite <- st_mags_length in Ht.
  eapply (dealloc_cached_wp t c); [unfold POOL_SIZE_CLASSES; lia|done|done|exact Har|].
  intros s' N' E' HK' Hx Hn' Har' Hkept. apply HQ.
  assert (Hp : preserves L s s').
  { eapply same_bytes_extends; [|done]. by apply (arena_drop _ [_]) in Har. }
  assert (HL' : Live (st_mem s') L E') by (split; [done|exact (preserves_live_ok L s s' Hp Hl)]).
  split_and!; [simpl; by rewrite <- !st_mags_length|done|by exists E'; split; [exists N'|]|].
  exists E'. rewrite He. split_and!; [by exists N'|done|]. destruct Hkept as [?|Hlost]; [by left|right; by exists c].
Qed.

Lemma AethAlloc_dealloc_wp s x L (Q : unit -> state -> Prop) :
  Inv s (x :: L) -> (t < md_threads s)%nat ->
  (forall s', dealloc_post (block_lost s x) s x L s' -> Q tt s') ->
  wp (AethAlloc_dealloc t x.1) Q s.
Proof.
  destruct x as [p [size|base pages size]]; [apply dealloc_small_wp|].
  intros HI Ht HQ. pose proof HI as (E & _ & HL). pose proof (live_pos _ _ _ _ HL) as [Hp0 _].
  unfold AethAlloc_dealloc. destruct (Z.eqb_spec (p, ALarge base pages size).1 0); [lia|].
  apply wp_bind, md_on_mem_wp, (find_alloc_wp _ _ _ _ HL). rewrite md_set_id.
  by eapply dealloc_pages_wp.
Qed.
End dealloc.

Lemma state_new_Inv m n : Inv (state_new m n) [].
Proof.
  exists ([meta_rest MetadataAllocator_new] ++ concat (cache_exts <$> st_mags (state_new m n))).
  assert (Hc : concat (cache_exts <$> st_mags (state_new m n)) = []).
  { unfold st_mags. simpl st_caches. rewrite !fmap_replicate.
    change (cache_exts _) with (@nil (Z * Z)). by induction n. }
  split; [exists []|split; [|done]].
  - split_and!.
    + split; simpl; unfold PAGE_SIZE; [lia|done].
    + unfold st_mags. simpl. rewrite fmap_replicate. apply Forall_replicate.
      split; (split; [done|apply Forall_replicate, Magazine_new_wf]).
    + exists []. split; [|by rewrite app_nil_r].
      exists (replicate 13 []), (replicate 13 []). split; [|done]. constructor; try done.
      * constructor.
      * intros k Hk. by apply elem_of_nil in Hk.
      * intros i p fl el Hp Hf He. apply lookup_replicate in Hp as [-> _].
        apply lookup_replicate in Hf as [-> _]. by apply lookup_replicate in He as [-> _].
  - rewrite Hc. simpl. split; [by split|]. constructor; [|done].
    split_and!; try done. intros i Hi. unfold PAGE_SIZE in Hi. simpl in Hi. lia.
Qed.
