(* ===== verification/Allocator.v ===== *)
(** * The allocator's theorems

    The magazine-caching [AethAlloc] implements the contract of AllocSpec, so every
    well-behaved multi-threaded client runs on it as on the reference heap; and the
    per-call theorems, which say more than the contract. *)

From S2P Require Import Prelude SizeClass Memory Extents AllocSpec Page Magazine Treiber.
From S2P Require Import Metadata Metrics Headers AllocCore Global GlobalInv GlobalCache GlobalSafe.

(** ** The contract *)

#[global] Instance AethAlloc_calls `{K : Kernel} : ModeCalls state := {|
  mc_alloc := AethAlloc_alloc;
  mc_dealloc := AethAlloc_dealloc
|}.

#[global] Instance AethAlloc_spec `{K : Kernel} {KS : KernelSpec K} : ModeCallsSpec state.
Proof.
  refine {| mc_lost := block_lost |}.
  - apply AethAlloc_alloc_wp.
  - done.
  - apply AethAlloc_dealloc_wp.
  - done.
Defined.

Lemma nthreads_new m n : md_threads (state_new m n) = n.
Proof. apply length_replicate. Qed.

(** ** Whole programs *)

Section theorems.
Context `{K : Kernel} {KS : KernelSpec K}.

(** C2: on any kernel that meets its specification, from the initial state with [n]
    threads and any memory, a client that respects the rules of the reference heap
    (valid layouts, frees and size queries of pointers in use, loads and stores
    inside its own allocations, every call by any thread) runs to its end on the
    allocator: no call faults, panics or diverges, and the results are results of
    the reference heap, where allocations are aligned and disjoint, keep their size
    and hold the bytes last stored in them. *)
Theorem aeth_client_refines n m c :
  well_behaved n heap_empty c ->
  exists rs s' h', run_client c (state_new m n) = Ret (rs, s') /\
    heap_run heap_empty c rs h' /\ represents n s' h'.
Proof.
  intros Hwb. pose proof (mode_client_refines (state_new m n) c (state_new_Inv m n)) as H.
  rewrite nthreads_new in H. auto.
Qed.

(** C3: in any state of the invariant, [alloc] of a valid layout returns without fault.
    The result is null only when the size is 0 or the kernel refused exactly the pages that
    this request asks for; otherwise it is a pointer aligned to the layout's alignment and to
    16, with a new live allocation of that size.  The invariant holds after it and no byte
    of a live allocation, headers included, has changed. *)
Theorem alloc_correct t size align s L :
  Inv s L -> (t < md_threads s)%nat -> layout_ok size align ->
  exists p s', AethAlloc_alloc t size align s = Ret (p, s') /\ alloc_post s L size align p s'.
Proof. intros HI Ht Hl. apply (AethAlloc_alloc_wp t s L); [done|done|done|]. done. Qed.

(** C5: in any state of the invariant, [dealloc] of a live pointer by any thread returns
    without fault and keeps the invariant for the other allocations, no byte of which
    changes.  A small block is kept for reuse, except when the thread's magazine of its class
    is full, the metadata page has no room for a node and the kernel refuses another page:
    then the code drops the block.  Of a large one no byte outside its pages changes, and all
    its pages are unmapped when there are less than 2^32 of them and [munmap] succeeds. *)
Theorem dealloc_correct t s x L :
  Inv s (x :: L) -> (t < md_threads s)%nat ->
  exists s', AethAlloc_dealloc t x.1 s = Ret (tt, s') /\ dealloc_post (block_lost t s x) s x L s'.
Proof.
  intros HI Ht. destruct (AethAlloc_dealloc_wp t s x L (fun _ => dealloc_post (block_lost t s x) s x L) HI Ht)
    as ([] & s' & ? & ?); [done|]. eauto.
Qed.

(** [get_alloc_size] of a live pointer gives the size it was allocated with and
    changes nothing; of null it gives 0. *)
Theorem get_alloc_size_correct s x L :
  Inv s (x :: L) ->
  md_on_mem (get_alloc_size x.1) s = Ret (kind_size x.2, s) /\
  md_on_mem (get_alloc_size 0) s = Ret (0, s).
Proof.
  intros HI. split; [by eapply get_alloc_size_inv|apply get_alloc_size_zero].
Qed.
End theorems.

(** ** Witnesses *)

(** Thread 0 allocates and writes, thread 1 reads and frees. *)
Definition demo_client : client :=
  Then (CallAlloc 0 100 8) (fun p =>
    if p =? 0 then Finished
    else Then (CallStore (p + 99) 7) (fun _ =>
         Then (CallLoad (p + 99)) (fun _ =>
         Then (CallFree 1 p) (fun _ => Finished)))).

Lemma aeth_client_refines_witness :
  exists rs s' h', run_client demo_client (state_new (Memory [] ∅) 2) = Ret (rs, s') /\
    heap_run heap_empty demo_client rs h' /\ represents 2 s' h'.
Proof.
  apply aeth_client_refines. split; [split; [lia|split; [lia|split; [done|lia]]]|].
  intros p h [[-> ->]|(_ & Hp & _ & _ & _ & _ & ->)]; [done|].
  destruct (Z.eqb_spec p 0); [lia|].
  assert (Hown : forall k, owns {| h_live := [(p, 100)]; h_known := k |} (p + 99)).
  { intros k. exists (p, 100). split; [by left|]. unfold in_ext. simpl. lia. }
  split; [apply Hown|]. intros r1 h1 [_ ->]. split; [apply Hown|]. intros r2 h2 [-> _].
  split; [|done]. split; [lia|]. right. exists 100. by left.
Defined.

Lemma demo_layout : layout_ok 100 8.
Proof. split; [lia|split; [done|lia]]. Qed.

Lemma alloc_correct_witness :
  exists p s', AethAlloc_alloc 1 100 8 (state_new (Memory [] ∅) 2) = Ret (p, s') /\
               alloc_post (state_new (Memory [] ∅) 2) [] 100 8 p s'.
Proof.
  apply alloc_correct; [apply state_new_Inv|rewrite nthreads_new; lia|apply demo_layout].
Defined.

(** A state with one live allocation. *)
Lemma demo_live :
  exists s k, AethAlloc_alloc 0 100 8 (state_new (Memory [] ∅) 2) = Ret (65552, s) /\
    md_threads s = 2%nat /\ kind_size k = 100 /\ Inv s [(65552, k)].
Proof.
  destruct (AethAlloc_alloc_wp 0 (state_new (Memory [] ∅) 2) [] 100 8
    (alloc_post (state_new (Memory [] ∅) 2) [] 100 8)) as (p & s & Hr & Hn & _ & Hpost);
    [apply state_new_Inv|rewrite nthreads_new; lia|apply demo_layout|done|].
  assert (Hp : match AethAlloc_alloc 0 100 8 (state_new (Memory [] ∅) 2) with
               | Ret (p, _) => p | _ => 0 end = 65552) by (vm_compute; reflexivity).
  rewrite Hr in Hp. subst p. destruct Hpost as [[? _]|(_ & _ & _ & k & Hk & HI)]; [done|].
  exists s, k. split_and!; [done| |done|done]. by rewrite Hn, nthreads_new.
Qed.

Lemma dealloc_correct_witness :
  exists s x s', AethAlloc_alloc 0 100 8 (state_new (Memory [] ∅) 2) = Ret (x.1, s) /\
    AethAlloc_dealloc 1 x.1 s = Ret (tt, s') /\ dealloc_post (block_lost 1 s x) s x [] s'.
Proof.
  destruct demo_live as (s & k & Hr & Hn & Hk & HI). exists s, (65552, k).
  destruct (dealloc_correct 1 s (65552, k) [] HI) as (s' & Hd & Hpost); [rewrite Hn; lia|].
  exists s'. split; [done|]. split; done.
Defined.

Lemma get_alloc_size_correct_witness :
  exists s, AethAlloc_alloc 0 100 8 (state_new (Memory [] ∅) 2) = Ret (65552, s) /\
    md_on_mem (get_alloc_size 65552) s = Ret (100, s) /\ md_on_mem (get_alloc_size 0) s = Ret (0, s).
Proof.
  destruct demo_live as (s & k & Hr & Hn & Hk & HI). exists s. split; [done|].
  rewrite <- Hk at 1. exact (get_alloc_size_correct s (65552, k) [] HI).
Defined.

(** ** Where the code does less than it seems to *)

(** The page count of a large allocation is stored in 32 bits: an allocation of
    2^44 bytes maps 2^32 + 1 pages, and freeing it unmaps the first page only; the
    bytes after it stay mapped for ever. *)
Theorem large_page_count_truncated :
  exists p s s', AethAlloc_alloc 0 (2 ^ 44) 8 (state_new (Memory [] ∅) 1) = Ret (p, s) /\ p <> 0 /\
    AethAlloc_dealloc 0 p s = Ret (tt, s') /\
    load8 (st_mem s') p = None /\
    load8 (st_mem s') (p + PAGE_SIZE) = Some 0 /\ load8 (st_mem s') (p + 2 ^ 44 - 1) = Some 0.
Proof.
  match eval vm_compute in (AethAlloc_alloc 0 (2 ^ 44) 8 (state_new (Memory [] ∅) 1)) with
  | Ret (?p, ?s) =>
      match eval vm_compute in (AethAlloc_dealloc 0 p s) with Ret (_, ?s') => exists p, s, s' end
  end.
  split_and!; vm_compute; reflexivity || discriminate.
Qed.

(** A miss fills the magazine from one page and drops the blocks that do not fit:
    of the 128 blocks of a page of 16-byte class blocks one is returned and 64 are
    kept, 63 are never used; of the 85 blocks of the next class 20 are lost. *)
Theorem refill_drops_blocks :
  exists p0 s0 a0 p1 s1 a1,
    AethAlloc_alloc 0 16 8 (state_new (Memory [] ∅) 1) = Ret (p0, s0) /\
    get_alloc_mag 0 0 s0 = Some a0 /\ PAGE_SIZE / block_size 0 = mag_count a0 + 1 + 63 /\
    AethAlloc_alloc 0 32 8 (state_new (Memory [] ∅) 1) = Ret (p1, s1) /\
    get_alloc_mag 0 1 s1 = Some a1 /\ PAGE_SIZE / block_size 1 = mag_count a1 + 1 + 20.
Proof.
  match eval vm_compute in (AethAlloc_alloc 0 16 8 (state_new (Memory [] ∅) 1)) with
  | Ret (?p, ?s) => match eval vm_compute in (get_alloc_mag 0 0 s) with Some ?a => exists p, s, a end
  end.
  match eval vm_compute in (AethAlloc_alloc 0 32 8 (state_new (Memory [] ∅) 1)) with
  | Ret (?p, ?s) => match eval vm_compute in (get_alloc_mag 0 1 s) with Some ?a => exists p, s, a end
  end.
  split_and!; vm_compute; reflexivity.
Qed.
