(* ===== verification/Abi.v ===== *)
(** * The C functions

    Models aethalloc-abi/src/lib.rs: [malloc], [free], [calloc], [realloc],
    [aligned_alloc] and [posix_memalign] over any allocator with the operations of
    AllocSpec, and proves them against its laws.  [t] is the calling thread. *)

From S2P Require Import Prelude SizeClass Memory Extents AllocSpec Page Magazine Metadata.
From S2P Require Import Metrics Headers AllocCore Global GlobalInv GlobalSafe Allocator.

(** ** Definitions *)

(** [Layout::from_size_align]. *)
Definition Layout_from_size_align (size align : Z) : option (Z * Z) :=
  if is_power_of_two align && (size <=? 2 ^ 63 - align) then Some (size, align) else None.

Definition EINVAL : Z := 22.
Definition ENOMEM : Z := 12.

(** The static [INITIALIZED] and the allocator. *)
Record abi (St : Type) : Type := Abi {
  INITIALIZED : bool;
  ALLOCATOR : St
}.
Arguments Abi {St}.
Arguments INITIALIZED {St}.
Arguments ALLOCATOR {St}.

Section functions.
Context {St : Type} `{O : AllocOps St}.

Definition set_allocator (s : St) (x : abi St) : abi St := Abi (INITIALIZED x) s.

Definition on_allocator {A} (m : M St A) : M (abi St) A :=
  zoom (fun x => Some (ALLOCATOR x)) set_allocator m.

(** A write to memory by the C functions themselves. *)
Definition on_bytes (f : memory -> option memory) : M (abi St) unit :=
  on_allocator (s ← getS; m ← or_fault (f (ao_mem s)); modifyS (ao_set_mem m)).

Definition ensure_init : M (abi St) unit :=
  x ← getS;
  if INITIALIZED x then mret tt else modifyS (fun x => Abi true (ALLOCATOR x)).

Definition malloc (t : nat) (size : Z) : M (abi St) Z :=
  ensure_init ;;
  if size =? 0 then mret 0
  else
    match Layout_from_size_align size 8 with
    | Some l => on_allocator (ao_alloc t l.1 l.2)
    | None => mret 0
    end.

Definition free (t : nat) (ptr : Z) : M (abi St) unit :=
  if ptr =? 0 then mret tt else on_allocator (ao_dealloc t ptr).

Definition calloc (t : nat) (nmemb size : Z) : M (abi St) Z :=
  match checked_mul nmemb size with
  | None => mret 0
  | Some total =>
      ptr ← malloc t total;
      (if negb (ptr =? 0) then on_bytes (fun m => fill (Z.to_nat total) m ptr 0) else mret tt) ;;
      mret ptr
  end.

Definition realloc (t : nat) (ptr size : Z) : M (abi St) Z :=
  if ptr =? 0 then malloc t size
  else if size =? 0 then free t ptr ;; mret 0
  else
    old_size ← on_allocator (ao_size ptr);
    new_ptr ← malloc t size;
    (if negb (new_ptr =? 0) then
       let copy_size := Z.min old_size size in
       on_bytes (fun m => copy (Z.to_nat copy_size) m ptr new_ptr) ;;
       free t ptr
     else mret tt) ;;
    mret new_ptr.

Definition aligned_alloc (t : nat) (alignment size : Z) : M (abi St) Z :=
  if (alignment =? 0) || negb (is_power_of_two alignment) then mret 0
  else
    match Layout_from_size_align (Z.max size 1) alignment with
    | Some l => on_allocator (ao_alloc t l.1 l.2)
    | None => mret 0
    end.

Definition posix_memalign (t : nat) (memptr alignment size : Z) : M (abi St) Z :=
  if (alignment =? 0) || negb (is_power_of_two alignment) || negb (alignment mod 8 =? 0)
  then mret EINVAL
  else
    ptr ← aligned_alloc t alignment size;
    if (ptr =? 0) && negb (size =? 0) then mret ENOMEM
    else
      on_bytes (fun m => store64 m memptr ptr) ;;
      mret 0.
End functions.

(** ** Correctness against the contract *)

Lemma Layout_from_size_align_ok size align l :
  0 <= size -> Layout_from_size_align size align = Some l -> l = (size, align) /\ layout_ok size align.
Proof.
  intros Hs. unfold Layout_from_size_align. destruct (is_power_of_two align) eqn:Ha; simpl; [|done].
  destruct (Z.leb_spec size (2 ^ 63 - align)); intros; simplify_eq. split; [done|]. by split_and!.
Qed.

Section correctness.
Context {St : Type} `{Laws : AllocLaws St}.

(** The client owns [L] before and [L'] after, and the bytes of [F] are untouched. *)
Record step_ok (F : list (Z * Z)) (x x' : abi St) (L' : list (Z * Z)) : Prop := {
  so_threads : ao_threads (ALLOCATOR x') = ao_threads (ALLOCATOR x);
  so_bytes : same_bytes F (ao_mem (ALLOCATOR x)) (ao_mem (ALLOCATOR x'));
  so_inv : al_inv (ALLOCATOR x') L'
}.

(** A result of an allocating function: null and nothing changed for the client, or a
    new allocation of [size] bytes at a multiple of [align] and of 16. *)
Definition allocated (L : list (Z * Z)) (size align : Z) (x : abi St) (p : Z) (x' : abi St) : Prop :=
  (p = 0 /\ step_ok L x x' L) \/
  (0 < p /\ p mod align = 0 /\ p mod 16 = 0 /\ step_ok L x x' ((p, size) :: L)).

Lemma step_ok_refl F x L : al_inv (ALLOCATOR x) L -> step_ok F x x L.
Proof. by constructor. Qed.

Lemma step_ok_trans F x1 x2 x3 L2 L3 :
  step_ok F x1 x2 L2 -> step_ok F x2 x3 L3 -> step_ok F x1 x3 L3.
Proof.
  intros [] []. constructor; [congruence| |done]. intros e i He Hi. rewrite (so_bytes1 e i He Hi). eauto.
Qed.

Lemma step_ok_sub F F' x x' L : (forall e, e ∈ F' -> e ∈ F) -> step_ok F x x' L -> step_ok F' x x' L.
Proof. intros HF []. constructor; [done| |done]. intros e i He Hi. by apply (so_bytes0 e); [apply HF|]. Qed.

Lemma owned_pos s p n L : al_inv s ((p, n) :: L) -> 0 < p /\ p mod 16 = 0 /\ 0 < n.
Proof.
  intros HI. destruct (al_arena _ _ HI) as [Har [Hpos _]%Forall_cons].
  by destruct (arena_ok _ _ _ Har (list_elem_of_here _ _)) as (? & ? & _).
Qed.

Lemma ensure_init_wp x (Q : unit -> abi St -> Prop) :
  Q tt (Abi true (ALLOCATOR x)) -> wp ensure_init Q x.
Proof.
  intros HQ. apply wp_bind, wp_gets. destruct x as [[] s]; [by apply wp_ret|by apply wp_modify].
Qed.

Lemma on_alloc_wp t size align x L (Q : Z -> abi St -> Prop) :
  al_inv (ALLOCATOR x) L -> (t < ao_threads (ALLOCATOR x))%nat -> layout_ok size align ->
  (forall p x', allocated L size align x p x' -> Q p x') ->
  wp (on_allocator (ao_alloc t size align)) Q x.
Proof.
  intros HI Ht Hlay HQ. eapply wp_zoom; [done|]. apply (al_alloc _ _ _ _ L); [done..| |].
  - intros s' Hn Hb HI'. apply HQ. left. split; [done|]. by constructor.
  - intros p s' Hn Hb Hs Hal HI'. apply HQ. right.
    destruct (owned_pos _ _ _ _ HI') as (? & ? & _). split_and!; try done.
Qed.

Lemma malloc_wp t size x L (Q : Z -> abi St -> Prop) :
  al_inv (ALLOCATOR x) L -> (t < ao_threads (ALLOCATOR x))%nat -> 0 <= size ->
  (forall p x', allocated L size 8 x p x' -> (p = 0 \/ 0 < size <= 2 ^ 63 - 8) -> Q p x') ->
  wp (malloc t size) Q x.
Proof.
  intros HI Ht Hs HQ. unfold malloc. apply wp_bind, ensure_init_wp.
  assert (Hnull : Q 0 (Abi true (ALLOCATOR x))).
  { apply HQ; [|by left]. left. split; [done|]. by constructor. }
  destruct (Z.eqb_spec size 0); [by apply wp_ret|].
  destruct (Layout_from_size_align size 8) as [l|] eqn:Hl; [|by apply wp_ret].
  apply Layout_from_size_align_ok in Hl as [-> Hlay]; [|done].
  eapply on_alloc_wp; [done|done|done|]. intros p x' Ha. apply HQ; [|right; destruct Hlay; lia].
  destruct Ha as [[? []]|(? & ? & ? & [])]; [left|right]; split_and!; try done; by constructor.
Qed.

Lemma free_wp t p n x L (Q : unit -> abi St -> Prop) :
  al_inv (ALLOCATOR x) ((p, n) :: L) -> (t < ao_threads (ALLOCATOR x))%nat ->
  (forall x', step_ok L x x' L -> Q tt x') -> wp (free t p) Q x.
Proof.
  intros HI Ht HQ. unfold free. destruct (owned_pos _ _ _ _ HI).
  destruct (Z.eqb_spec p 0); [lia|]. eapply wp_zoom; [done|].
  apply (al_dealloc t p n _ L); [done|done|]. intros s' Hn Hb HI'. apply HQ. by constructor.
Qed.

(** A write inside an allocation the client owns. *)
Lemma on_bytes_wp f x p n L a k (Q : unit -> abi St -> Prop) :
  al_inv (ALLOCATOR x) ((p, n) :: L) -> sub_ext (a, k) (p, n) ->
  (exists m', f (ao_mem (ALLOCATOR x)) = Some m' /\ changes_only (ao_mem (ALLOCATOR x)) m' a k /\
     forall x', ao_mem (ALLOCATOR x') = m' -> step_ok L x x' ((p, n) :: L) -> Q tt x') ->
  wp (on_bytes f) Q x.
Proof.
  intros HI Hsub (m' & Hf & Hch & HQ). eapply wp_zoom; [done|].
  apply wp_bind, wp_gets. apply wp_bind. eapply wp_or_fault; [done|]. apply wp_modify.
  apply HQ; simpl; [apply al_mem_set|]. constructor; simpl.
  - apply al_threads_set.
  - rewrite al_mem_set. intros e i He Hi. apply Hch. intros Hin.
    destruct (al_arena _ _ HI) as [Har _]. apply (arena_disj _ _ _ e Har He) with i; [|done].
    unfold sub_ext, in_ext in *. simpl in *. lia.
  - by eapply al_write.
Qed.

Lemma owned_usize s p n L : al_inv s ((p, n) :: L) -> p + n <= USER_TOP /\ accessible (ao_mem s) p n.
Proof.
  intros HI. destruct (al_arena _ _ HI) as [Har _].
  by destruct (arena_ok _ _ _ Har (list_elem_of_here _ _)) as (_ & _ & _ & ? & ?).
Qed.

(** [malloc] returns null with the client's memory untouched, or a pointer that is
    a multiple of 16 to [size] new bytes; always null for 0 and for sizes above
    [isize::MAX - 7]. *)
Theorem malloc_correct t size x L :
  al_inv (ALLOCATOR x) L -> (t < ao_threads (ALLOCATOR x))%nat -> is_usize size ->
  exists p x', malloc t size x = Ret (p, x') /\ allocated L size 8 x p x' /\
    (size = 0 \/ 2 ^ 63 - 8 < size -> p = 0).
Proof.
  intros HI Ht [Hs _]. apply (malloc_wp t size x L); [done..|].
  intros p x' Ha Hb. split; [done|]. lia.
Qed.

(** C14: [calloc] returns null with nothing changed when [nmemb * size] overflows; else
    null, or [nmemb * size] new bytes that are all zero. *)
Theorem calloc_correct t nmemb size x L :
  al_inv (ALLOCATOR x) L -> (t < ao_threads (ALLOCATOR x))%nat -> is_usize nmemb -> is_usize size ->
  exists p x', calloc t nmemb size x = Ret (p, x') /\ allocated L (nmemb * size) 8 x p x' /\
    (2 ^ 64 <= nmemb * size -> p = 0 /\ x' = x) /\
    (0 < p -> forall i, p <= i < p + nmemb * size -> load8 (ao_mem (ALLOCATOR x')) i = Some 0).
Proof.
  intros HI Ht [Hn _] [Hs _]. unfold calloc, checked_mul.
  destruct (Z.ltb_spec (nmemb * size) (2 ^ 64)) as [Hlt|Hge].
  2:{ exists 0, x. split_and!; [done| |done|lia]. left. split; [done|]. by apply step_ok_refl. }
  assert (wp (ptr ← malloc t (nmemb * size);
    (if negb (ptr =? 0) then on_bytes (fun m => fill (Z.to_nat (nmemb * size)) m ptr 0) else mret tt) ;;
    mret ptr) (fun p x' => allocated L (nmemb * size) 8 x p x' /\
      (0 < p -> forall i, p <= i < p + nmemb * size -> load8 (ao_mem (ALLOCATOR x')) i = Some 0)) x)
    as (p & x' & Hr & Ha & Hz).
  2:{ exists p, x'. split_and!; [done|done|lia|done]. }
  apply wp_bind. apply (malloc_wp t _ x L); [done|done|nia|]. intros p x1 Ha _. apply wp_bind.
  destruct Ha as [[-> Hx]|(Hp & Hal & H16 & Hx)].
  - apply wp_ret, wp_ret. split; [by left|lia].
  - destruct (Z.eqb_spec p 0); [lia|]. simpl negb. cbv iota.
    destruct (owned_usize _ _ _ _ (so_inv _ _ _ _ Hx)) as [_ Hacc].
    assert (Hid : Z.of_nat (Z.to_nat (nmemb * size)) = nmemb * size) by (apply Z2Nat.id; nia).
    destruct (fill_spec (Z.to_nat (nmemb * size)) (ao_mem (ALLOCATOR x1)) p 0) as (m' & Hf & Hch & Hz);
      [by rewrite Hid|]. rewrite Hid in Hch, Hz.
    eapply on_bytes_wp; [apply Hx|split; simpl; apply Z.le_refl|]. exists m'. split_and!; [done|done|].
    intros x2 Hm Hx2. apply wp_ret. split; [right|].
    + split_and!; try done. by eapply step_ok_trans.
    + intros _ i Hi. rewrite Hm. by apply Hz.
Qed.

(** C13: [realloc] of a live pointer: for size 0 the block is freed and null returned;
    else null, the old allocation still live and everything as before; or a new
    allocation of [size] bytes that starts with the old contents, up to the smaller
    of the two sizes, the old block freed; in every case the other allocations keep
    their bytes.  Of null it is [malloc]. *)
Theorem realloc_correct t ptr n size x L :
  al_inv (ALLOCATOR x) ((ptr, n) :: L) -> (t < ao_threads (ALLOCATOR x))%nat -> is_usize size ->
  realloc t 0 size x = malloc t size x /\
  exists p x', realloc t ptr size x = Ret (p, x') /\
    ((p = 0 /\ size = 0 /\ step_ok L x x' L) \/
     (p = 0 /\ 0 < size /\ step_ok ((ptr, n) :: L) x x' ((ptr, n) :: L)) \/
     (0 < p /\ p mod 16 = 0 /\ 0 < size /\ step_ok L x x' ((p, size) :: L) /\
      forall i, 0 <= i < Z.min n size ->
        load8 (ao_mem (ALLOCATOR x')) (p + i) = load8 (ao_mem (ALLOCATOR x)) (ptr + i))).
Proof.
  intros HI Ht [Hs _]. split; [done|]. unfold realloc.
  destruct (owned_pos _ _ _ _ HI) as (Hp0 & _ & Hn0). destruct (Z.eqb_spec ptr 0); [lia|].
  destruct (Z.eqb_spec size 0) as [->|Hs0].
  - apply wp_bind. eapply free_wp; [done|done|]. intros x' Hx. apply wp_ret. by left.
  - apply wp_bind. eapply wp_zoom; [done|]. eexists n, _. split; [by eapply al_size|].
    replace (set_allocator _ x) with x by (by destruct x).
    apply wp_bind. apply (malloc_wp t size x ((ptr, n) :: L)); [done|done|done|].
    intros p x1 Ha _. apply wp_bind. destruct Ha as [[-> Hx]|(Hp & _ & H16 & Hx)].
    { apply wp_ret, wp_ret. right. left. split_and!; [done|lia|done]. }
    destruct (Z.eqb_spec p 0); [lia|]. simpl negb. cbv iota zeta. pose proof (so_inv _ _ _ _ Hx) as HI1.
    assert (HI1' : al_inv (ALLOCATOR x1) ((ptr, n) :: (p, size) :: L)).
    { eapply al_perm; [|exact HI1]. apply perm_swap. }
    destruct (owned_usize _ _ _ _ HI1) as [_ Hacc]. destruct (owned_usize _ _ _ _ HI1') as [_ Hacc'].
    destruct (al_arena _ _ HI1) as [Har _].
    pose proof (arena_disj _ _ _ (ptr, n) Har (list_elem_of_here _ _)) as Hdis.
    apply ext_disj_arith in Hdis; [|lia|lia].
    set (k := Z.min n size). assert (Hk : Z.of_nat (Z.to_nat k) = k) by (apply Z2Nat.id; lia).
    destruct (copy_spec (Z.to_nat k) (ao_mem (ALLOCATOR x1)) ptr p) as (m' & Hf & Hch & Hcp);
      rewrite ?Hk in *; [apply (accessible_sub _ _ _ _ _ Hacc'); lia|
        apply (accessible_sub _ _ _ _ _ Hacc); lia|lia|].
    apply wp_bind. eapply (on_bytes_wp _ _ p size ((ptr, n) :: L) p k); [done|split; simpl; lia|].
    exists m'. split_and!; [done|done|]. intros x2 Hm2 Hx2.
    assert (HI2 : al_inv (ALLOCATOR x2) ((ptr, n) :: (p, size) :: L)).
    { eapply al_perm; [|apply Hx2]. apply perm_swap. }
    eapply free_wp; [done| |].
    { destruct Hx2 as [-> _ _], Hx as [-> _ _]. done. }
    intros x3 Hx3. apply wp_ret. right. right. split_and!; [done|done|lia| |].
    + eapply step_ok_trans; [|eapply step_ok_sub; [|exact Hx3]; by right].
      eapply step_ok_sub; [by intros e He; right|]. by eapply step_ok_trans.
    + intros i Hi. destruct Hx3 as [_ Hb3 _]. rewrite (Hb3 (p, size)) by (by left || unfold in_ext; simpl; lia).
      rewrite Hm2, Hcp by lia. destruct Hx as [_ Hb _]. apply (Hb (ptr, n)); [by left|].
      unfold in_ext. simpl. lia.
Qed.

Lemma aligned_alloc_wp t alignment size x L (Q : Z -> abi St -> Prop) :
  al_inv (ALLOCATOR x) L -> (t < ao_threads (ALLOCATOR x))%nat -> is_power_of_two alignment = true ->
  (forall p x', allocated L (Z.max size 1) alignment x p x' -> Q p x') ->
  wp (aligned_alloc t alignment size) Q x.
Proof.
  intros HI Ht Ha HQ. unfold aligned_alloc.
  replace ((alignment =? 0) || negb (is_power_of_two alignment)) with false.
  2:{ destruct (Z.eqb_spec alignment 0) as [->|]; [done|]. by rewrite Ha. }
  destruct (Layout_from_size_align (Z.max size 1) alignment) as [l|] eqn:Hl.
  - apply Layout_from_size_align_ok in Hl as [-> Hlay]; [|lia]. by eapply on_alloc_wp.
  - apply wp_ret. apply HQ. left. split; [done|]. by apply step_ok_refl.
Qed.

(** C15: [posix_memalign] gives EINVAL and changes nothing for an alignment that is not
    a power of two or not a multiple of the pointer size; ENOMEM, the client's memory
    untouched, only for a size that is not 0; else 0, and [*memptr] is either a
    pointer aligned as asked to at least [size] new bytes or, for size 0 only, null. *)
Theorem posix_memalign_correct t memptr alignment size x q k L :
  al_inv (ALLOCATOR x) ((q, k) :: L) -> (t < ao_threads (ALLOCATOR x))%nat ->
  is_usize alignment -> is_usize size -> sub_ext (memptr, 8) (q, k) ->
  exists r x', posix_memalign t memptr alignment size x = Ret (r, x') /\
    if is_power_of_two alignment && (alignment mod 8 =? 0) then
      (r = ENOMEM /\ 0 < size /\ step_ok ((q, k) :: L) x x' ((q, k) :: L)) \/
      (r = 0 /\ exists p, load64 (ao_mem (ALLOCATOR x')) memptr = Some p /\
         ((p = 0 /\ size = 0 /\ step_ok L x x' ((q, k) :: L)) \/
          (0 < p /\ p mod alignment = 0 /\
           step_ok L x x' ((p, Z.max size 1) :: (q, k) :: L))))
    else r = EINVAL /\ x' = x.
Proof.
  intros HI Ht Ha [Hs _] Hsub. unfold posix_memalign.
  destruct (is_power_of_two alignment) eqn:Hp2.
  2:{ exists EINVAL, x. split; [|done]. by rewrite orb_true_r. }
  replace (alignment =? 0) with false.
  2:{ destruct (Z.eqb_spec alignment 0) as [->|]; done. }
  destruct (Z.eqb_spec (alignment mod 8) 0) as [H8|H8]; simpl; [|by exists EINVAL, x].
  apply wp_bind. apply (aligned_alloc_wp t alignment size x ((q, k) :: L)); [done..|].
  intros p x1 Hal.
  destruct (Z.eqb_spec p 0) as [->|Hp0]; [destruct (Z.eqb_spec size 0) as [->|Hs0]|]; simpl.
  2:{ apply wp_ret. left. destruct Hal as [[_ ?]|[? _]]; [|lia]. split_and!; [done|lia|done]. }
  - (* null for size 0 *)
    destruct Hal as [[_ Hx]|[? _]]; [|lia].
    destruct (owned_usize _ _ _ _ (so_inv _ _ _ _ Hx)) as [_ Hacc].
    destruct (store_le_total 8 (ao_mem (ALLOCATOR x1)) memptr 0) as [m' Hm'].
    { apply (accessible_sub _ _ _ _ _ Hacc); destruct Hsub; simpl in *; lia. }
    apply wp_bind. eapply (on_bytes_wp _ _ q k L memptr 8); [apply Hx|done|].
    exists m'. split_and!; [done|by apply store_le_changes in Hm'|]. intros x2 Hm2 Hx2. apply wp_ret.
    right. split; [done|]. exists 0. rewrite Hm2. split; [by apply load_store_64 in Hm'|].
    left. split_and!; try done. eapply step_ok_trans; [|done].
    eapply step_ok_sub; [|done]. by right.
  - destruct Hal as [[? _]|(Hp & Hpa & _ & Hx)]; [done|].
    assert (HI1 : al_inv (ALLOCATOR x1) ((q, k) :: (p, Z.max size 1) :: L)).
    { eapply al_perm; [|apply Hx]. apply perm_swap. }
    destruct (owned_usize _ _ _ _ HI1) as [_ Hacc].
    destruct (owned_usize _ _ _ _ (so_inv _ _ _ _ Hx)) as [Htop _]. unfold USER_TOP in Htop.
    destruct (store_le_total 8 (ao_mem (ALLOCATOR x1)) memptr p) as [m' Hm'].
    { apply (accessible_sub _ _ _ _ _ Hacc); destruct Hsub; simpl in *; lia. }
    apply wp_bind. eapply (on_bytes_wp _ _ q k _ memptr 8); [apply HI1|done|].
    exists m'. split_and!; [done|by apply store_le_changes in Hm'|]. intros x2 Hm2 Hx2. apply wp_ret.
    right. split; [done|]. exists p. rewrite Hm2.
    split; [apply load_store_64 in Hm'; [done|unfold is_usize; lia]|].
    right. split_and!; try done. destruct Hx as [N1 B1 _], Hx2 as [N2 B2 I2].
    constructor; [congruence| |].
    + intros e i He Hi. rewrite (B2 e i) by (by right || done). by apply (B1 e); [right|].
    + eapply al_perm; [|exact I2]. apply perm_swap.
Qed.

(** [aligned_alloc] gives null and changes nothing unless the alignment is a power
    of two; else null, or at least one new byte and [size] of them, at a multiple of
    the alignment. *)
Theorem aligned_alloc_correct t alignment size x L :
  al_inv (ALLOCATOR x) L -> (t < ao_threads (ALLOCATOR x))%nat -> is_usize alignment -> is_usize size ->
  exists p x', aligned_alloc t alignment size x = Ret (p, x') /\
    if is_power_of_two alignment then allocated L (Z.max size 1) alignment x p x'
    else p = 0 /\ x' = x.
Proof.
  intros HI Ht _ _. destruct (is_power_of_two alignment) eqn:Ha.
  - by apply (aligned_alloc_wp t alignment size x L).
  - exists 0, x. split; [|done]. unfold aligned_alloc. by rewrite Ha, orb_true_r.
Qed.
End correctness.

(** ** Witnesses, on the magazine-caching allocator *)

Definition abi_new (n : nat) : abi state := Abi false (state_new (Memory [] ∅) n).

Lemma abi_new_inv n : al_inv (ALLOCATOR (abi_new n)) [].
Proof. exists []. split; [apply state_new_Inv|done]. Qed.

Lemma abi_new_threads n : ao_threads (ALLOCATOR (abi_new n)) = n.
Proof. apply nthreads_new. Qed.

(** After [malloc(64)] by thread 0. *)
Lemma abi_demo :
  exists x, malloc 0 64 (abi_new 2) = Ret (65552, x) /\ ao_threads (ALLOCATOR x) = 2%nat /\
    al_inv (ALLOCATOR x) [(65552, 64)].
Proof.
  destruct (malloc_wp 0 64 (abi_new 2) [] (fun p x' => allocated [] 64 8 (abi_new 2) p x'))
    as (p & x & Hr & Ha); [apply abi_new_inv|rewrite abi_new_threads; lia|lia|done|].
  assert (Hp : match malloc 0 64 (abi_new 2) with Ret (p, _) => p | _ => 0 end = 65552)
    by (vm_compute; reflexivity).
  rewrite Hr in Hp. subst p. destruct Ha as [[H _]|(_ & _ & _ & [Hn _ HI])]; [discriminate H|].
  exists x. split; [exact Hr|]. split; [|exact HI]. rewrite Hn. apply abi_new_threads.
Qed.

Lemma malloc_correct_witness :
  exists p x', malloc 1 64 (abi_new 2) = Ret (p, x') /\ allocated [] 64 8 (abi_new 2) p x' /\
    (64 = 0 \/ 2 ^ 63 - 8 < 64 -> p = 0).
Proof.
  apply malloc_correct; [apply abi_new_inv|rewrite abi_new_threads; lia|unfold is_usize; lia].
Defined.

Lemma calloc_correct_witness :
  exists p x', calloc 1 5 7 (abi_new 2) = Ret (p, x') /\ allocated [] (5 * 7) 8 (abi_new 2) p x' /\
    (2 ^ 64 <= 5 * 7 -> p = 0 /\ x' = abi_new 2) /\
    (0 < p -> forall i, p <= i < p + 5 * 7 -> load8 (ao_mem (ALLOCATOR x')) i = Some 0).
Proof.
  apply calloc_correct; [apply abi_new_inv|rewrite abi_new_threads; lia|unfold is_usize; lia..].
Defined.

Lemma realloc_correct_witness :
  exists x p x', malloc 0 64 (abi_new 2) = Ret (65552, x) /\ realloc 1 65552 200 x = Ret (p, x') /\
    (0 < p -> forall i, 0 <= i < 64 ->
       load8 (ao_mem (ALLOCATOR x')) (p + i) = load8 (ao_mem (ALLOCATOR x)) (65552 + i)).
Proof.
  destruct abi_demo as (x & Hm & Hn & HI).
  destruct (realloc_correct 1 65552 64 200 x [] HI) as (_ & p & x' & Hr & Hpost);
    [rewrite Hn; lia|unfold is_usize; lia|].
  exists x, p, x'. split; [exact Hm|]. split; [exact Hr|]. intros Hp.
  destruct Hpost as [(? & _)|[(? & _)|(_ & _ & _ & _ & Hc)]]; [lia|lia|].
  intros i Hi. apply Hc. lia.
Defined.

Lemma posix_memalign_correct_witness :
  exists x r x', malloc 0 64 (abi_new 2) = Ret (65552, x) /\
    posix_memalign 1 65568 4096 100 x = Ret (r, x') /\ (r = ENOMEM \/ r = 0).
Proof.
  destruct abi_demo as (x & Hm & Hn & HI).
  destruct (posix_memalign_correct 1 65568 4096 100 x 65552 64 [] HI) as (r & x' & Hr & Hpost);
    [rewrite Hn; lia|unfold is_usize; lia|unfold is_usize; lia|split; simpl; lia|].
  exists x, r, x'. split; [exact Hm|]. split; [exact Hr|].
  destruct Hpost as [[H _]|[H _]]; [left|right]; exact H.
Defined.

Lemma aligned_alloc_correct_witness :
  exists p x', aligned_alloc 1 64 100 (abi_new 2) = Ret (p, x') /\
    allocated [] 100 64 (abi_new 2) p x'.
Proof.
  destruct (aligned_alloc_correct 1 64 100 (abi_new 2) []) as (p & x' & Hr & Hpost);
    [apply abi_new_inv|rewrite abi_new_threads; lia|unfold is_usize; lia..|].
  exists p, x'. split; [exact Hr|exact Hpost].
Defined.
