(* ===== verification/FreeList.v ===== *)
(** * Intrusive free lists

    The slab allocator and the thread-local cache keep their free blocks in lists
    whose links are stored in the blocks themselves, in two formats: a nullable
    pointer ([Option<NonNull<u8>>], 8 bytes, 0 for [None]) and a tagged integer
    ([Option<usize>], 16 bytes, the tag in the first 8).  [LinkFormat] is a format,
    [LinkLaws] what a list needs of it. *)

From S2P Require Import Prelude Memory Extents.

#[local] Arguments load64 : simpl never.
#[local] Arguments store64 : simpl never.

(** ** Link formats *)

Class LinkFormat : Type := {
  link_size : Z;
  link_read : memory -> Z -> option (option Z);
  link_write : memory -> Z -> option Z -> option memory
}.

Definition link_valid (v : option Z) : Prop :=
  match v with None => True | Some p => 0 < p < 2 ^ 64 end.

Class LinkLaws (F : LinkFormat) : Prop := {
  lk_size : 8 <= link_size <= 16;
  lk_agree m m' a : agree_on m m' a link_size -> link_read m' a = link_read m a;
  lk_write m a v : accessible m a link_size -> link_valid v ->
    exists m', link_write m a v = Some m' /\ changes_only m m' a link_size /\ link_read m' a = Some v
}.

(** [Option<NonNull<u8>>]. *)
Definition NonNull_link : LinkFormat := {|
  link_size := 8;
  link_read m a := v ← load64 m a; Some (if v =? 0 then None else Some v);
  link_write m a v := store64 m a (default 0 v)
|}.

(** [Option<usize>]: the tag, then the value when there is one. *)
Definition Option_usize_link : LinkFormat := {|
  link_size := 16;
  link_read m a :=
    tag ← load64 m a;
    if tag =? 0 then Some None else v ← load64 m (a + 8); Some (Some v);
  link_write m a v :=
    match v with
    | None => store64 m a 0
    | Some p => m' ← store64 m a 1; store64 m' (a + 8) p
    end
|}.

#[global] Instance NonNull_link_laws : LinkLaws NonNull_link.
Proof.
  constructor; simpl; [lia|..].
  - intros m m' a Ha. unfold load64. by rewrite (load_le_agree 8 m m' a).
  - intros m a v Ha Hv. destruct (store_le_total 8 m a (default 0 v) Ha) as [m' Hm'].
    exists m'. split; [done|]. split; [by apply store_le_changes in Hm'|].
    rewrite (load_store_64 _ _ _ _ Hm') by (destruct v; simpl in *; unfold is_usize; lia). simpl.
    destruct v as [p|]; simpl in *; [|done]. destruct (Z.eqb_spec p 0); [lia|done].
Qed.

#[global] Instance Option_usize_link_laws : LinkLaws Option_usize_link.
Proof.
  constructor; simpl; [lia|..].
  - intros m m' a Ha. unfold load64.
    rewrite (load_le_agree 8 m m' a), (load_le_agree 8 m m' (a + 8)); [done|..];
      intros i Hi; apply Ha; lia.
  - intros m a v Ha Hv.
    assert (Ha8 : accessible m a 8) by (eapply accessible_sub; [done|lia|lia]).
    destruct v as [p|]; simpl in *.
    + destruct (store_le_total 8 m a 1 Ha8) as [m1 H1]. pose proof (store_le_changes _ _ _ _ _ H1) as C1.
      destruct (store_le_total 8 m1 (a + 8) p) as [m2 H2].
      { eapply changes_only_accessible; [done|]. apply (accessible_sub _ _ _ _ _ Ha); simpl; lia. }
      pose proof (store_le_changes _ _ _ _ _ H2) as C2. exists m2.
      change (store64 m a 1) with (store_le 8 m a 1). rewrite H1. split; [exact H2|]. split.
      * apply (changes_only_trans _ m1); [apply (changes_only_weaken _ _ _ _ _ _ C1)|
          apply (changes_only_weaken _ _ _ _ _ _ C2)]; lia.
      * rewrite (load_store_64 _ _ _ _ H2) by (unfold is_usize; lia).
        unfold load64. rewrite (load_le_agree 8 m1 m2 a)
          by (eapply changes_only_agree; [done|lia]).
        pose proof (load_store_64 _ _ _ _ H1 ltac:(done)) as H3. unfold load64 in H3. by rewrite H3.
    + destruct (store_le_total 8 m a 0 Ha8) as [m1 H1]. exists m1. split; [done|]. split.
      * eapply changes_only_weaken; [by apply store_le_changes in H1|lia|lia].
      * by rewrite (load_store_64 _ _ _ _ H1) by done.
Qed.

(** ** Lists of blocks *)

Section lists.
Context `{F : LinkFormat}.

(** The free list that starts at [h] consists of the blocks [l]. *)
Fixpoint free_list (m : memory) (h : option Z) (l : list Z) : Prop :=
  match l with
  | [] => h = None
  | p :: l' => h = Some p /\ exists nx, link_read m p = Some nx /\ free_list m nx l'
  end.

Context {FL : LinkLaws F}.

Lemma free_list_agree m m' h l :
  (forall p, p ∈ l -> agree_on m m' p link_size) -> free_list m h l -> free_list m' h l.
Proof.
  revert h. induction l as [|p l IH]; intros h Hag; simpl; [done|].
  intros (-> & nx & Hnx & Hl). split; [done|]. exists nx. split.
  - rewrite <- Hnx. apply lk_agree, Hag. by left.
  - apply IH; [|done]. intros q Hq. apply Hag. by right.
Qed.

Lemma free_list_None m l : free_list m None l -> l = [].
Proof. destruct l; [done|]. by intros [? _]. Qed.

Lemma free_list_Some m p l :
  free_list m (Some p) l ->
  exists l' nx, l = p :: l' /\ link_read m p = Some nx /\ free_list m nx l'.
Proof. destruct l as [|q l]; [done|]. intros (? & nx & Hnx & Hl). simplify_eq. eauto. Qed.

(** Blocks of at least the link's size, pairwise disjoint: writing the link of a
    block that is not in the list leaves the list alone. *)
Lemma free_list_push m m' h l p n :
  link_size <= n -> changes_only m m' p link_size -> link_read m' p = Some h ->
  Forall (fun q => ext_disj (p, n) (q, n)) l -> free_list m h l -> free_list m' (Some p) (p :: l).
Proof.
  intros Hn Hch Hrd Hd Hl. simpl. split; [done|]. exists h. split; [done|].
  eapply free_list_agree; [|done]. intros q Hq. eapply changes_only_agree; [done|].
  rewrite Forall_forall in Hd. pose proof lk_size.
  destruct (ext_disj_arith p n q n) as [|]; [lia|lia|by apply Hd|lia|lia].
Qed.
End lists.
