(* ===== verification/Slab.v ===== *)
(** * The slab allocator

    Models aethalloc-core/src/slab.rs: slots of one size, carved from at most four
    pages, the freed ones linked through their first bytes.  The debug assertions
    are not part of a release build; what they demand are hypotheses here. *)

From S2P Require Import Prelude SizeClass Memory Extents AllocSpec Page Metadata FreeList.

(** ** Definitions *)

Definition SLAB_CLASSES : Z := 11.
Definition MAX_SLAB_PAGES : Z := 4.

Record Slab : Type := {
  slot_size : Z;
  slots_per_page : Z;
  free_head : option Z;
  allocated : Z;
  pages : list (option Z);
  num_pages : Z;
  next_slot : Z
}.

Definition Slab_new (size : Z) : Slab :=
  {| slot_size := size; slots_per_page := PAGE_SIZE / size; free_head := None; allocated := 0;
     pages := replicate (Z.to_nat MAX_SLAB_PAGES) None; num_pages := 0; next_slot := 0 |}.

Definition Slab_default : Slab := Slab_new 64.

Section slab.
Context `{K : Kernel}.
#[local] Existing Instance Option_usize_link.

Definition on_slab_mem {A} (m : M memory A) : M (memory * Slab) A :=
  zoom (fun x => Some x.1) (fun m x => (m, x.2)) m.

Definition modify_slab (f : Slab -> Slab) : M (memory * Slab) unit :=
  modifyS (fun x => (x.1, f x.2)).

Definition alloc_new_page : M (memory * Slab) (option unit) :=
  page ← on_slab_mem (PageAllocator_alloc 1);
  match page with
  | None => mret None
  | Some page =>
      s ← gets snd;
      ps ← or_panic (arr_set (pages s) (num_pages s) (Some page));
      modify_slab (fun s =>
        {| slot_size := slot_size s; slots_per_page := slots_per_page s; free_head := free_head s;
           allocated := allocated s; pages := ps; num_pages := num_pages s +! 1; next_slot := 0 |}) ;;
      mret (Some tt)
  end.

(** The fresh slot of the current page; its index is unchecked in the code. *)
Definition bump_slot : M (memory * Slab) (option Z) :=
  s ← gets snd;
  o ← or_panic (arr_get (pages s) (num_pages s -! 1));
  page ← or_fault o;
  let offset := next_slot s *! slot_size s in
  modify_slab (fun s =>
    {| slot_size := slot_size s; slots_per_page := slots_per_page s; free_head := free_head s;
       allocated := allocated s +! 1; pages := pages s; num_pages := num_pages s;
       next_slot := next_slot s +! 1 |}) ;;
  mret (Some (page + offset)).

(** The test for a full current page, and the slot. *)
Definition alloc_fresh : M (memory * Slab) (option Z) :=
  s ← gets snd;
  if slots_per_page s <=? next_slot s then
    if MAX_SLAB_PAGES <=? num_pages s then mret None
    else
      r ← alloc_new_page;
      match r with None => mret None | Some _ => bump_slot end
  else bump_slot.

Definition Slab_alloc : M (memory * Slab) (option Z) :=
  s ← gets snd;
  match free_head s with
  | Some free_ptr =>
      x ← getS;
      next_free ← or_fault (link_read x.1 free_ptr);
      modify_slab (fun s =>
        {| slot_size := slot_size s; slots_per_page := slots_per_page s; free_head := next_free;
           allocated := allocated s +! 1; pages := pages s; num_pages := num_pages s;
           next_slot := next_slot s |}) ;;
      mret (Some free_ptr)
  | None =>
      if num_pages s =? 0 then
        r ← alloc_new_page;
        match r with None => mret None | Some _ => alloc_fresh end
      else alloc_fresh
  end.

(** The loop that looks for the page of a pointer; an empty entry panics. *)
Fixpoint find_page (n : nat) (i ptr : Z) (ps : list (option Z)) : outcome bool :=
  match n with
  | O => Ret false
  | S n' =>
      match arr_get ps i with
      | Some (Some page_start) =>
          if (page_start <=? ptr) && (ptr <? page_start +! PAGE_SIZE) then Ret true
          else find_page n' (i + 1) ptr ps
      | _ => Panic
      end
  end.

Definition Slab_dealloc (ptr : Z) : M (memory * Slab) unit :=
  s ← gets snd;
  found ← (fun x => match find_page (Z.to_nat (num_pages s)) 0 ptr (pages s) with
                    | Ret b => Ret (b, x)
                    | Panic => Panic | Fault => Fault | Diverge => Diverge
                    end);
  if negb found then mret tt
  else
    x ← getS;
    m ← or_fault (link_write x.1 ptr (free_head s));
    modifyS (fun x => (m, x.2)) ;;
    modify_slab (fun s =>
      {| slot_size := slot_size s; slots_per_page := slots_per_page s; free_head := Some ptr;
         allocated := allocated s -! 1; pages := pages s; num_pages := num_pages s;
         next_slot := next_slot s |}).

(** [drop]: every page goes back. *)
Fixpoint drop_pages (n : nat) (i : Z) : M (memory * Slab) unit :=
  match n with
  | O => mret tt
  | S n' =>
      s ← gets snd;
      o ← or_panic (arr_get (pages s) i);
      (match o with
       | Some page => on_slab_mem (PageAllocator_dealloc page 1)
       | None => mret tt
       end) ;;
      drop_pages n' (i + 1)
  end.

Definition Slab_drop : M (memory * Slab) unit :=
  s ← gets snd;
  drop_pages (Z.to_nat (num_pages s)) 0.
End slab.

(** ** The invariant *)

Section invariant.
#[local] Existing Instance Option_usize_link.

(** A power of two of at least 16 bytes, as the debug assertions ask, and of at most a
    page: a larger slot does not fit the one page [alloc_new_page] maps for it, see
    [slab_8192_slot_too_short]. *)
Definition slot_ok (size : Z) : Prop := exists j, 4 <= j <= 12 /\ size = 2 ^ j.

(** The part of the current page not handed out yet. *)
Definition page_rest (s : Slab) (ps : list Z) : list (Z * Z) :=
  match last ps with
  | None => []
  | Some p => [(p + next_slot s * slot_size s, PAGE_SIZE - next_slot s * slot_size s)]
  end.

Definition slots (s : Slab) (l : list Z) : list (Z * Z) := (fun p => (p, slot_size s)) <$> l.

(** The slab has the pages [ps], its free slots are [fl] and the client holds [L];
    [X] is what others use. *)
Record Slab_inv (x : memory * Slab) (ps fl L : list Z) (X : list (Z * Z)) : Prop := {
  si_size : slot_ok (slot_size x.2);
  si_per_page : slots_per_page x.2 = PAGE_SIZE / slot_size x.2;
  si_pages : pages x.2 = (Some <$> ps) ++ replicate (Z.to_nat MAX_SLAB_PAGES - length ps) None;
  si_num : num_pages x.2 = Z.of_nat (length ps) /\ num_pages x.2 <= MAX_SLAB_PAGES;
  si_next : 0 <= next_slot x.2 <= slots_per_page x.2 /\ (ps = [] -> next_slot x.2 = 0);
  si_count : allocated x.2 = Z.of_nat (length L);
  si_total : ps <> [] ->
    Z.of_nat (length (fl ++ L)) =
    (num_pages x.2 - 1) * slots_per_page x.2 + next_slot x.2;
  si_none : ps = [] -> fl ++ L = [];
  si_free : free_list x.1 (free_head x.2) fl;
  si_from p : p ∈ fl ++ L ->
    exists base, base ∈ ps /\ base <= p /\ p + slot_size x.2 <= base + PAGE_SIZE /\
                 (p - base) mod slot_size x.2 = 0;
  si_bases base : base ∈ ps -> 0 < base /\ base mod PAGE_SIZE = 0 /\ base + PAGE_SIZE <= USER_TOP;
  si_arena : arena x.1 (slots x.2 (fl ++ L) ++ page_rest x.2 ps ++ X);
  si_page_arena : arena x.1 (((fun b => (b, PAGE_SIZE)) <$> ps) ++ X)
}.

Lemma slot_size_bounds size : slot_ok size -> 16 <= size <= 4096 /\ size mod 16 = 0 /\
  PAGE_SIZE / size * size = PAGE_SIZE /\ 1 <= PAGE_SIZE / size <= 256 /\ PAGE_SIZE mod size = 0.
Proof.
  intros (j & Hj & ->).
  assert (j = 4 \/ j = 5 \/ j = 6 \/ j = 7 \/ j = 8 \/ j = 9 \/ j = 10 \/ j = 11 \/ j = 12) as Hc by lia.
  repeat (destruct Hc as [->|Hc]; [by vm_compute|]). by subst; vm_compute.
Qed.
End invariant.

(** ** Allocation *)

Section operations.
Context `{K : Kernel} {KS : KernelSpec K}.
#[local] Existing Instance Option_usize_link.

(** Taking the first free slot. *)
Lemma take_free_inv m s ps q fl nx L X :
  Slab_inv (m, s) ps (q :: fl) L X -> link_read m q = Some nx -> free_list m nx fl ->
  Slab_inv (m, {| slot_size := slot_size s; slots_per_page := slots_per_page s; free_head := nx;
                  allocated := allocated s +! 1; pages := pages s; num_pages := num_pages s;
                  next_slot := next_slot s |}) ps fl (q :: L) X.
Proof.
  intros [] Hnx Hfl. simpl in *.
  assert (Hp : q :: fl ++ L ≡ₚ fl ++ q :: L) by apply Permutation_middle.
  destruct (slot_size_bounds _ si_size0) as (_ & _ & _ & Hspp & _).
  constructor; simpl; try done.
  - rewrite si_count0, wrap64_small; [lia|]. unfold is_usize. destruct ps as [|b ps].
    + by pose proof (si_none0 eq_refl).
    + specialize (si_total0 ltac:(done)). rewrite length_app in si_total0.
      unfold MAX_SLAB_PAGES in *. rewrite si_per_page0 in *. nia.
  - intros Hne. rewrite <- Hp. simpl. by apply si_total0.
  - intros He. by pose proof (si_none0 He).
  - intros p Hin. apply si_from0. by rewrite <- Hp in Hin.
  - eapply arena_perm; [|exact si_arena0]. unfold slots. simpl. by rewrite <- Hp.
Qed.

(** A fresh slot of the current page. *)
Lemma bump_slot_wp m s ps L X (Q : option Z -> memory * Slab -> Prop) :
  Slab_inv (m, s) ps [] L X -> ps <> [] -> next_slot s < slots_per_page s ->
  (forall p s', slot_size s' = slot_size s -> Some p = (fun b => b + next_slot s * slot_size s) <$> last ps ->
     Slab_inv (m, s') ps [] (p :: L) X -> Q (Some p) (m, s')) ->
  wp bump_slot Q (m, s).
Proof.
  intros [] Hne Hlt HQ. simpl in *. destruct (slot_size_bounds _ si_size0) as (Hb & H16 & Hmul & Hspp & Hmod).
  destruct (last ps) as [p|] eqn:Hlast; [|by apply last_None in Hlast].
  assert (Hlen : (0 < length ps)%nat) by (destruct ps; simpl; [done|lia]).
  assert (Hget : arr_get (pages s) (num_pages s -! 1) = Some (Some p)).
  { destruct si_num0 as [Hn Hn4]. rewrite Hn, wrap64_small by (unfold is_usize, MAX_SLAB_PAGES in *; lia).
    apply arr_get_lookup. split; [lia|]. rewrite si_pages0, lookup_app_l by (rewrite length_fmap; lia).
    rewrite list_lookup_fmap. rewrite last_lookup in Hlast.
    replace (Z.to_nat (Z.of_nat (length ps) - 1)) with (pred (length ps)) by lia. by rewrite Hlast. }
  assert (Hpin : p ∈ ps) by by apply last_Some_elem_of.
  destruct (si_bases0 p Hpin) as (Hp0 & Hpa & Hptop). unfold USER_TOP in Hptop.
  specialize (si_total0 Hne). unfold MAX_SLAB_PAGES in *.
  unfold bump_slot. apply wp_bind, wp_gets. apply wp_bind. eapply wp_or_panic; [exact Hget|].
  apply wp_bind. eapply wp_or_fault; [done|]. cbv zeta. unfold modify_slab.
  apply wp_bind, wp_modify. apply wp_ret. cbn [fst snd].
  assert (Hsm : next_slot s * slot_size s + slot_size s <= PAGE_SIZE).
  { rewrite <- Hmul, <- si_per_page0. nia. }
  rewrite (wrap64_small (next_slot s * slot_size s)) by (unfold is_usize, PAGE_SIZE in *; nia).
  apply HQ; [done|done|]. constructor; simpl; try done.
  - rewrite si_per_page0 in *. rewrite wrap64_small by (unfold is_usize; lia). split; [lia|]. done.
  - rewrite si_count0, wrap64_small; [lia|]. unfold is_usize. simpl in si_total0. nia.
  - intros _. simpl in *. rewrite (wrap64_small (next_slot s + 1)) by (unfold is_usize; nia). lia.
  - intros q [->|Hq]%elem_of_cons; [|by apply si_from0]. exists p. split_and!; [done|nia|lia|].
    replace (p + next_slot s * slot_size s - p) with (next_slot s * slot_size s) by lia.
    apply Z.mod_mul. lia.
  - unfold page_rest in *. rewrite Hlast in *. simpl in *.
    rewrite (wrap64_small (next_slot s + 1)) by (unfold is_usize; nia).
    assert (Hmod2 : (next_slot s * slot_size s) mod 16 = 0).
    { rewrite Zmult_mod, H16, Z.mul_0_r. done. }
    eapply arena_perm; [|eapply (arena_refine _ (p + next_slot s * slot_size s, PAGE_SIZE - next_slot s * slot_size s)
      (slots s L ++ X) [(p + next_slot s * slot_size s, slot_size s);
         (p + (next_slot s + 1) * slot_size s, PAGE_SIZE - (next_slot s + 1) * slot_size s)])].
    + unfold slots. simpl. solve_Permutation.
    + eapply arena_perm; [|exact si_arena0]. unfold slots. simpl. solve_Permutation.
    + split; [|done]. constructor; [|done]. apply ext_disj_intro. lia.
    + unfold sub_ext. repeat constructor; simpl; try lia; unfold PAGE_SIZE in *; mlia.
Qed.

(** The current page, if any, is used up. *)
Definition page_full (s : Slab) (ps : list Z) : Prop := ps = [] \/ next_slot s = slots_per_page s.

Lemma page_rest_full m s ps fl L X :
  Slab_inv (m, s) ps fl L X -> page_full s ps ->
  forall e, e ∈ page_rest s ps -> e.2 = 0.
Proof.
  intros [] [->|Hfull] e He; unfold page_rest in He; simpl in *; [by apply elem_of_nil in He|].
  destruct (slot_size_bounds _ si_size0) as (_ & _ & Hmul & _).
  destruct (last ps); [|by apply elem_of_nil in He].
  apply list_elem_of_singleton in He as ->. simpl. rewrite Hfull, si_per_page0. lia.
Qed.

Lemma alloc_new_page_wp m s ps L X (Q : option unit -> memory * Slab -> Prop) :
  Slab_inv (m, s) ps [] L X -> page_full s ps -> num_pages s < MAX_SLAB_PAGES ->
  (kernel_mmap m PAGE_SIZE = None -> Q None (m, s)) ->
  (forall m' s' p, slot_size s' = slot_size s -> next_slot s' = 0 -> fresh_mapping m m' p PAGE_SIZE ->
     slots_per_page s' = slots_per_page s -> Slab_inv (m', s') (ps ++ [p]) [] L X ->
     Q (Some tt) (m', s')) ->
  wp alloc_new_page Q (m, s).
Proof.
  intros [] Hfull Hroom HN HS. simpl in *. unfold alloc_new_page. apply wp_bind.
  destruct (slot_size_bounds _ si_size0) as (Hb & H16 & Hmul & Hspp & Hmod). unfold MAX_SLAB_PAGES in *.
  eapply wp_zoom; [done|]. apply PageAllocator_alloc_wp; [lia| |].
  { intros Hk. apply wp_ret. by apply HN. }
  intros p m' Hf. simpl. apply wp_bind, wp_gets. apply wp_bind. destruct si_num0 as [Hn Hn4].
  eapply wp_or_panic.
  { apply arr_set_total. cbn [fst snd]. rewrite si_pages0, length_app, length_fmap, length_replicate. lia. }
  unfold modify_slab. apply wp_bind, wp_modify. apply wp_ret. simpl.
  eapply (HS _ _ p); [done|done|done|done|].
  assert (Hw : num_pages s +! 1 = num_pages s + 1) by (apply wrap64_small; unfold is_usize; lia).
  constructor; simpl; rewrite ?Hw, ?length_app; simpl; try done; try lia.
  - rewrite si_pages0, Hn, Nat2Z.id, fmap_app, <- app_assoc.
    replace (Z.to_nat 4 - length ps)%nat with (S (Z.to_nat 4 - (length ps + 1))) by lia. simpl replicate.
    rewrite insert_app_r_alt by (rewrite length_fmap; lia).
    rewrite length_fmap, Nat.sub_diag. done.
  - unfold MAX_SLAB_PAGES. lia.
  - intros _. destruct Hfull as [->|Hfull].
    + rewrite (si_none0 eq_refl) in *. simpl in *. lia.
    + destruct ps as [|b ps].
      * rewrite (si_none0 eq_refl). simpl in *. lia.
      * rewrite si_total0 by done. lia.
  - intros He. by destruct ps.
  - intros q Hq. destruct (si_from0 q Hq) as (base & Hin & Hrest). exists base.
    split; [apply elem_of_app; by left|done].
  - intros base [Hin|Heq%list_elem_of_singleton]%elem_of_app; [by apply si_bases0|subst base].
    destruct Hf as (? & ? & ? & _). unfold PAGE_SIZE in *. split_and!; [done|done|lia].
  - rewrite Z.mul_1_l in Hf. unfold page_rest. rewrite last_snoc. simpl. rewrite Z.add_0_r, Z.sub_0_r.
    apply (fresh_mapping_arena m) with (l := slots s L ++ X) in Hf; [|done|].
    + eapply arena_perm; [|exact Hf]. unfold slots. simpl. solve_Permutation.
    + apply (arena_drop _ (page_rest s ps)). eapply arena_perm; [|exact si_arena0].
      unfold slots. solve_Permutation.
  - rewrite Z.mul_1_l in Hf. apply (fresh_mapping_arena m) with (l := ((fun b => (b, PAGE_SIZE)) <$> ps) ++ X) in Hf;
      [|done|done]. eapply arena_perm; [|exact Hf]. rewrite fmap_app. simpl. solve_Permutation.
Qed.

(** The slots of the pages a slab has. *)
Definition capacity (s : Slab) (ps : list Z) : Z := Z.of_nat (length ps) * slots_per_page s.

(** [alloc] of a slab with the pages [ps] and the free slots [fl]: the first free slot; else
    a slot never used of the last page, while there is one, memory as it was; else the first
    slot of a fresh page.  Nothing, and nothing changed, when every slot of every page is in
    use and there are four pages or the kernel refused the next one. *)
Definition slab_alloc_post (x : memory * Slab) (ps fl L : list Z) (X : list (Z * Z))
    (r : option Z) (x' : memory * Slab) : Prop :=
  same_bytes (slots x.2 L ++ X) x.1 x'.1 /\
  match r with
  | Some p =>
      slot_size x'.2 = slot_size x.2 /\ p mod slot_size x.2 = 0 /\
      match fl with
      | q :: fl' => p = q /\ x'.1 = x.1 /\ Slab_inv x' ps fl' (p :: L) X
      | [] =>
          if Z.of_nat (length L) <? capacity x.2 ps
          then x'.1 = x.1 /\ Slab_inv x' ps [] (p :: L) X
          else fresh_mapping x.1 x'.1 p PAGE_SIZE /\ Slab_inv x' (ps ++ [p]) [] (p :: L) X
      end
  | None =>
      x' = x /\ fl = [] /\ Z.of_nat (length L) = capacity x.2 ps /\
      (Z.of_nat (length ps) = MAX_SLAB_PAGES \/ kernel_mmap x.1 PAGE_SIZE = None)
  end.

Lemma slot_aligned x ps fl L X p : Slab_inv x ps fl L X -> p ∈ fl ++ L -> p mod slot_size x.2 = 0.
Proof.
  intros [] Hp. destruct (si_from0 p Hp) as (base & Hb & _ & _ & Hm).
  destruct (si_bases0 base Hb) as (_ & Hba & _).
  destruct (slot_size_bounds _ si_size0) as (Hbd & _ & _ & _ & Hpm).
  replace p with (p - base + base) by lia. rewrite Zplus_mod, Hm.
  replace (base mod slot_size x.2) with 0; [by rewrite Z.mod_0_l by lia|]. symmetry.
  apply Z.mod_divide in Hba; [|done]. apply Z.mod_divide in Hpm; [|lia].
  apply Z.mod_divide; [lia|]. by eapply Z.divide_trans.
Qed.

(** How many slots of the pages are used, and when the last page has one left. *)
Lemma room_left m s ps L X :
  Slab_inv (m, s) ps [] L X -> ps <> [] ->
  Z.of_nat (length L) = capacity s ps - (slots_per_page s - next_slot s).
Proof. intros [] Hne. specialize (si_total0 Hne). unfold capacity. simpl in *. lia. Qed.

Lemma bump_slot_post m s ps L X (Q : option Z -> memory * Slab -> Prop) :
  Slab_inv (m, s) ps [] L X -> ps <> [] -> next_slot s < slots_per_page s ->
  (forall r x', slab_alloc_post (m, s) ps [] L X r x' -> Q r x') -> wp bump_slot Q (m, s).
Proof.
  intros HI Hne Hlt HQ. apply (bump_slot_wp m s ps L X); [done..|].
  intros p s' Hs' _ HI'. apply HQ. split; [done|]. split; [done|].
  split; [simpl; rewrite <- Hs'; apply (slot_aligned _ _ _ _ _ _ HI'); by left|]. simpl.
  rewrite (proj2 (Z.ltb_lt _ _)); [done|]. rewrite (room_left _ _ _ _ _ HI Hne). lia.
Qed.

(** The first slot of the page [p] mapped just now. *)
Lemma fresh_page_post m s m' s' ps p L X (Q : option Z -> memory * Slab -> Prop) :
  Slab_inv (m, s) ps [] L X -> Z.of_nat (length L) = capacity s ps ->
  slot_size s' = slot_size s -> next_slot s' = 0 -> fresh_mapping m m' p PAGE_SIZE ->
  slots_per_page s' = slots_per_page s -> Slab_inv (m', s') (ps ++ [p]) [] L X ->
  (forall r x', slab_alloc_post (m, s) ps [] L X r x' -> Q r x') -> wp bump_slot Q (m', s').
Proof.
  intros HI Hfull Hs' Hn' Hf Hp' HI' HQ.
  destruct (slot_size_bounds _ (si_size _ _ _ _ _ HI')) as (_ & _ & _ & Hspp & _).
  pose proof (si_per_page _ _ _ _ _ HI') as Hper. simpl in *.
  apply (bump_slot_wp m' s' (ps ++ [p]) L X); [done|by destruct ps|lia|].
  intros q s'' Hs'' Hq HI''. rewrite last_snoc, Hn' in Hq. simpl in Hq. injection Hq as ->.
  rewrite Z.add_0_r in *. apply HQ. split; [|split; [|split]].
  - eapply (same_bytes_extends _ (page_rest s ps)); [|by eapply fresh_mapping_extends].
    eapply arena_perm; [|exact (si_arena _ _ _ _ _ HI)]. unfold slots. simpl. solve_Permutation.
  - simpl. congruence.
  - simpl. rewrite <- Hs', <- Hs''. apply (slot_aligned _ _ _ _ _ _ HI''). by left.
  - simpl. rewrite Hfull. by rewrite Z.ltb_irrefl.
Qed.

Lemma alloc_fresh_wp m s ps L X (Q : option Z -> memory * Slab -> Prop) :
  Slab_inv (m, s) ps [] L X -> ps <> [] ->
  (forall r x', slab_alloc_post (m, s) ps [] L X r x' -> Q r x') -> wp alloc_fresh Q (m, s).
Proof.
  intros HI Hne HQ. pose proof HI as []. simpl in *.
  unfold alloc_fresh. apply wp_bind, wp_gets. simpl.
  destruct (Z.leb_spec (slots_per_page s) (next_slot s)) as [Hle|Hlt]; [|by eapply bump_slot_post].
  assert (Hnext : next_slot s = slots_per_page s) by lia.
  assert (Hfull : Z.of_nat (length L) = capacity s ps) by (rewrite (room_left _ _ _ _ _ HI Hne); lia).
  destruct (Z.leb_spec MAX_SLAB_PAGES (num_pages s)) as [Hmax|Hroom].
  - apply wp_ret. apply HQ. split; [done|]. split_and!; [done|done|exact Hfull|]. left. lia.
  - apply wp_bind. apply (alloc_new_page_wp m s ps L X); [done|by right|done|..].
    + intros Hk. apply wp_ret. apply HQ. split; [done|]. split_and!; [done|done|exact Hfull|by right].
    + intros m' s' p Hs' Hn' Hf Hp' HI'. by apply (fresh_page_post m s m' s' ps p L X Q).
Qed.

Lemma Slab_alloc_wp x ps fl L X (Q : option Z -> memory * Slab -> Prop) :
  Slab_inv x ps fl L X -> (forall r x', slab_alloc_post x ps fl L X r x' -> Q r x') ->
  wp Slab_alloc Q x.
Proof.
  intros HI HQ. destruct x as [m s]. unfold Slab_alloc. apply wp_bind, wp_gets. simpl.
  pose proof (si_free _ _ _ _ _ HI) as Hfr. simpl in Hfr.
  destruct (free_head s) as [q|] eqn:Hh.
  - destruct (free_list_Some _ _ _ Hfr) as (fl' & nx & -> & Hnx & Hfl').
    apply wp_bind, wp_gets. apply wp_bind. eapply wp_or_fault; [exact Hnx|].
    unfold modify_slab. apply wp_bind, wp_modify. apply wp_ret. apply HQ.
    pose proof (take_free_inv _ _ _ _ _ _ _ _ HI Hnx Hfl') as HI'.
    split; [done|]. split_and!; [done| |done|done|done].
    apply (slot_aligned _ _ _ _ _ _ HI). by left.
  - apply free_list_None in Hfr as ->. pose proof HI as []. simpl in *.
    destruct (Z.eqb_spec (num_pages s) 0) as [H0|H0].
    + assert (ps = []) as -> by (destruct ps; simpl in *; [done|lia]).
      assert (Hfull : Z.of_nat (length L) = capacity s []) by by rewrite (si_none0 eq_refl).
      apply wp_bind. apply (alloc_new_page_wp m s [] L X); [done|by left|unfold MAX_SLAB_PAGES; lia|..].
      * intros Hk. apply wp_ret. apply HQ. split; [done|]. split_and!; [done|done|exact Hfull|by right].
      * intros m' s' p Hs' Hn' Hf Hp' HI'. unfold alloc_fresh. apply wp_bind, wp_gets. simpl.
        destruct (slot_size_bounds _ si_size0) as (_ & _ & _ & Hspp & _).
        destruct (Z.leb_spec (slots_per_page s') (next_slot s')); [lia|]. by apply (fresh_page_post m s m' s' [] p L X Q).
    + apply (alloc_fresh_wp m s ps L X); [done| |done]. intros ->. simpl in *. lia.
Qed.

(** ** Deallocation *)

Lemma find_page_spec ptr tl suf : forall pre,
  find_page (length suf) (Z.of_nat (length pre)) ptr ((Some <$> (pre ++ suf)) ++ tl) =
  Ret (existsb (fun b => (b <=? ptr) && (ptr <? b +! PAGE_SIZE)) suf).
Proof.
  induction suf as [|b suf IH]; intros pre; simpl; [done|].
  replace (arr_get _ _) with (Some (Some b)).
  2:{ symmetry. apply arr_get_lookup. split; [lia|]. rewrite Nat2Z.id, fmap_app, <- app_assoc.
      rewrite lookup_app_r by (rewrite length_fmap; lia). by rewrite length_fmap, Nat.sub_diag. }
  destruct ((b <=? ptr) && (ptr <? b +! PAGE_SIZE)); simpl; [done|].
  replace (Z.of_nat (length pre) + 1) with (Z.of_nat (length (pre ++ [b]))) by (rewrite length_app; simpl; lia).
  rewrite <- (IH (pre ++ [b])). by rewrite <- app_assoc.
Qed.

Lemma find_page_inv x ps fl L X ptr :
  Slab_inv x ps fl L X ->
  find_page (Z.to_nat (num_pages x.2)) 0 ptr (pages x.2) =
  Ret (existsb (fun b => (b <=? ptr) && (ptr <? b +! PAGE_SIZE)) ps).
Proof.
  intros []. destruct si_num0 as [Hn _]. rewrite Hn, Nat2Z.id, si_pages0.
  exact (find_page_spec ptr _ ps []).
Qed.

(** What [dealloc] promises of a slot the client holds. *)
Definition slab_dealloc_post (x : memory * Slab) (ps fl : list Z) (p : Z) (L : list Z) (X : list (Z * Z))
    (x' : memory * Slab) : Prop :=
  Slab_inv x' ps (p :: fl) L X /\ same_bytes (slots x.2 L ++ X) x.1 x'.1 /\ slot_size x'.2 = slot_size x.2.

Lemma Slab_dealloc_wp x ps fl p L X (Q : unit -> memory * Slab -> Prop) :
  Slab_inv x ps fl (p :: L) X -> (forall x', slab_dealloc_post x ps fl p L X x' -> Q tt x') ->
  wp (Slab_dealloc p) Q x.
Proof.
  intros HI HQ. destruct x as [m s]. pose proof (find_page_inv _ _ _ _ _ p HI) as Hfind.
  pose proof HI as []. simpl in *. destruct (slot_size_bounds _ si_size0) as (Hb & H16 & _ & Hspp & _).
  destruct (si_from0 p) as (base & Hin & Hlo & Hhi & _); [apply elem_of_app; right; by left|].
  destruct (si_bases0 base Hin) as (Hb0 & _ & Htop). unfold USER_TOP in Htop.
  assert (Hfound : existsb (fun b => (b <=? p) && (p <? b +! PAGE_SIZE)) ps = true).
  { apply existsb_exists. exists base. split; [by apply list_elem_of_In|].
    rewrite wrap64_small by (unfold is_usize, PAGE_SIZE in *; lia). lia. }
  assert (Har : arena m ((p, slot_size s) :: slots s (fl ++ L) ++ page_rest s ps ++ X)).
  { eapply arena_perm; [|exact si_arena0]. unfold slots. rewrite !fmap_app. simpl. solve_Permutation. }
  pose proof (arena_ok _ _ _ Har (list_elem_of_here _ _)) as (_ & _ & _ & _ & Hacc). simpl in Hacc.
  destruct (lk_write m p (free_head s)) as (m' & Hw & Hch & Hrd).
  { eapply accessible_sub; [exact Hacc|lia|simpl; lia]. }
  { destruct (free_head s) as [q|] eqn:Hh; [|done]. simpl.
    destruct (free_list_Some _ _ _ si_free0) as (fl' & nx & -> & _).
    destruct (arena_ok _ _ (q, slot_size s) si_arena0) as (? & _ & _ & Ht & _); [by left|].
    unfold USER_TOP in Ht. simpl in *. lia. }
  unfold Slab_dealloc. apply wp_bind, wp_gets. apply wp_bind. unfold wp at 1. cbn [snd]. rewrite Hfind, Hfound.
  eexists _, _. split; [done|]. simpl negb. cbv iota.
  apply wp_bind, wp_gets. apply wp_bind. eapply wp_or_fault; [exact Hw|].
  apply wp_bind, wp_modify. unfold modify_slab. apply wp_modify. apply HQ. cbn [fst snd].
  assert (Hp : fl ++ p :: L ≡ₚ p :: fl ++ L) by (symmetry; apply Permutation_middle).
  split; [|split; [|done]].
  - constructor; simpl; try done.
    + rewrite si_count0, wrap64_small; simpl; [lia|]. unfold is_usize. destruct ps as [|b0 ps0];
        [by pose proof (si_none0 eq_refl) as Hn0; destruct fl|].
      specialize (si_total0 ltac:(done)). rewrite length_app in si_total0. simpl in *.
      unfold MAX_SLAB_PAGES in *. rewrite si_per_page0 in *. nia.
    + intros Hne. rewrite <- (si_total0 Hne). by rewrite Hp.
    + intros He. pose proof (si_none0 He) as Hn0. by destruct fl.
    + change (free_list m' (Some p) (p :: fl)).
      apply (free_list_push m m' (free_head s) fl p (slot_size s)); [simpl; lia|done|done| |done].
      rewrite Forall_forall. intros q Hq. eapply arena_disj; [exact Har|].
      apply elem_of_app. left. unfold slots. apply list_elem_of_fmap. exists q.
      split; [done|]. apply elem_of_app. by left.
    + intros q Hq. apply si_from0. by rewrite Hp.
    + eapply arena_changes; [done|]. exact Har.
    + by eapply arena_changes.
  - intros e i He Hi. apply Hch. intros Hi'.
    apply (arena_disj _ _ _ e Har) with i; [|unfold in_ext in *; simpl in *; lia|done].
    unfold slots. rewrite fmap_app. simpl in He. apply elem_of_app in He as [He|He];
      rewrite !elem_of_app; tauto.
Qed.

(** ** Dropping the slab *)

Lemma drop_pages_wp tl suf : forall pre m s (Q : unit -> memory * Slab -> Prop),
  pages s = (Some <$> (pre ++ suf)) ++ tl -> Forall (fun b => b mod PAGE_SIZE = 0) suf ->
  (forall m',
     (forall i, (forall b, b ∈ suf -> ~ in_ext i (b, PAGE_SIZE)) -> load8 m' i = load8 m i) ->
     ((forall a b n, (kernel_munmap a b n).1 = 0) ->
        forall b i, b ∈ suf -> in_ext i (b, PAGE_SIZE) -> load8 m' i = None) ->
     Q tt (m', s)) ->
  wp (drop_pages (length suf) (Z.of_nat (length pre))) Q (m, s).
Proof.
  induction suf as [|b suf IH]; intros pre m s Q Hpg Hal HQ.
  - apply wp_ret. apply HQ; [done|]. intros _ b i Hb. by apply elem_of_nil in Hb.
  - apply Forall_cons in Hal as [Hb Hal]. simpl drop_pages. apply wp_bind, wp_gets.
    apply wp_bind. eapply (wp_or_panic _ (Some b)).
    { apply arr_get_lookup. split; [lia|]. cbn [snd]. rewrite Hpg, Nat2Z.id, fmap_app, <- app_assoc.
      rewrite lookup_app_r by (rewrite length_fmap; lia). by rewrite length_fmap, Nat.sub_diag. }
    apply wp_bind. eapply wp_zoom; [done|]. apply PageAllocator_dealloc_wp; [lia|done|].
    intros m1 r Hout Hin Hr. cbn [snd fst] in *. rewrite Z.mul_1_l in *.
    replace (Z.of_nat (length pre) + 1) with (Z.of_nat (length (pre ++ [b])))
      by (rewrite length_app; simpl; lia).
    apply (IH (pre ++ [b])); [by rewrite <- app_assoc|done|]. intros m' Hout' Hin'. apply HQ.
    + intros i Hi. rewrite Hout' by (intros b' Hb'; apply Hi; by right). apply Hout.
      apply (Hi b). by left.
    + intros Hk b' i Hb' Hi. destruct (decide (Exists (fun b0 => in_ext i (b0, PAGE_SIZE)) suf)) as [He|He].
      * apply Exists_exists in He as (b0 & Hb0 & Hi0). by apply (Hin' Hk b0 i).
      * rewrite Hout'.
        -- apply elem_of_cons in Hb' as [->|Hb'].
           ++ rewrite Hin by done. by rewrite Hr, Hk.
           ++ exfalso. apply He, Exists_exists. eauto.
        -- intros b0 Hb0 Hi0. apply He, Exists_exists. eauto.
Qed.

(** ** Theorems *)

(** C29: [alloc] of a slab of slots of 16 to 4096 bytes returns a slot at a multiple of the
    slot size, disjoint from every slot in use, from the free ones and from everything
    outside the slab: the slot freed last when there is one, else one never used of the
    page mapped last, else the first of a fresh page.  It returns nothing only when every
    slot of its pages is in use and the slab has four pages already or the kernel refused
    the next; and it changes no byte in use.  Slots of 8 KiB are not covered: they do not
    fit their page. *)
Theorem slab_alloc_correct x ps fl L X :
  Slab_inv x ps fl L X ->
  exists r x', Slab_alloc x = Ret (r, x') /\ slab_alloc_post x ps fl L X r x'.
Proof. intros HI. by apply (Slab_alloc_wp x ps fl L X). Qed.

(** C30: [dealloc] of a slot in use puts it at the front of the free list, the rest of
    the slab and the bytes of all others as before, so the next [alloc] returns it. *)
Theorem slab_dealloc_correct x ps fl p L X :
  Slab_inv x ps fl (p :: L) X ->
  exists x' x'', Slab_dealloc p x = Ret (tt, x') /\ slab_dealloc_post x ps fl p L X x' /\
    Slab_alloc x' = Ret (Some p, x'').
Proof.
  intros HI. destruct (Slab_dealloc_wp x ps fl p L X (fun _ => slab_dealloc_post x ps fl p L X) HI)
    as ([] & x' & Hr & Hpost); [done|]. pose proof Hpost as [HI' _].
  destruct (Slab_alloc_wp x' ps (p :: fl) L X (slab_alloc_post x' ps (p :: fl) L X) HI')
    as (r & x'' & Hr' & _ & Hm); [done|]. exists x', x''. split_and!; [done|done|].
  destruct r as [q|]; [by destruct Hm as (_ & _ & -> & _)|by destruct Hm as (_ & ? & _)].
Qed.

(** [dealloc] of a pointer that is in none of the slab's pages changes nothing, and
    [drop] unmaps the pages of the slab and nothing else. *)
Theorem slab_foreign_and_drop x ps fl L X ptr :
  Slab_inv x ps fl L X ->
  ((forall b, b ∈ ps -> ~ in_ext ptr (b, PAGE_SIZE)) -> Slab_dealloc ptr x = Ret (tt, x)) /\
  exists x', Slab_drop x = Ret (tt, x') /\ same_bytes X x.1 x'.1 /\
    ((forall a b n, (kernel_munmap a b n).1 = 0) ->
       forall b i, b ∈ ps -> in_ext i (b, PAGE_SIZE) -> load8 x'.1 i = None).
Proof.
  intros HI. split.
  - intros Hno. pose proof (find_page_inv _ _ _ _ _ ptr HI) as Hf.
    replace (existsb _ ps) with false in Hf.
    + unfold Slab_dealloc. run_m. cbn [snd]. rewrite Hf. done.
    + symmetry. apply not_true_iff_false. rewrite existsb_exists. intros (b & Hb & Hin).
      apply list_elem_of_In in Hb. destruct (si_bases _ _ _ _ _ HI b Hb) as (Hb0 & _ & Htop).
      unfold USER_TOP in Htop. apply (Hno b Hb). unfold in_ext. simpl.
      rewrite wrap64_small in Hin by (unfold is_usize, PAGE_SIZE in *; lia). lia.
  - destruct x as [m s]. pose proof HI as []. simpl in *. destruct si_num0 as [Hn _].
    assert (wp Slab_drop (fun _ x' => same_bytes X m x'.1 /\
      ((forall a b n, (kernel_munmap a b n).1 = 0) ->
         forall b i, b ∈ ps -> in_ext i (b, PAGE_SIZE) -> load8 x'.1 i = None)) (m, s))
      as ([] & x' & ? & ?); [|eauto].
    unfold Slab_drop. apply wp_bind, wp_gets. cbn [snd]. rewrite Hn, Nat2Z.id.
    apply (drop_pages_wp _ ps [] _ _ _ si_pages0).
    + rewrite Forall_forall. intros b Hb. by apply si_bases0.
    + intros m' Hout Hin. split; [|done]. intros e i He Hi. apply Hout. intros b Hb Hib.
      destruct si_page_arena0 as [Hd _]. apply all_disjoint_app in Hd as (_ & _ & Hd).
      rewrite Forall_fmap, Forall_forall in Hd. specialize (Hd b Hb). simpl in Hd.
      rewrite Forall_forall in Hd. by apply (Hd e He i).
Qed.
End operations.

Lemma Slab_new_inv size m X :
  slot_ok size -> arena m X -> Slab_inv (m, Slab_new size) [] [] [] X.
Proof.
  intros Hs HX. destruct (slot_size_bounds _ Hs) as (_ & _ & _ & Hspp & _).
  constructor; simpl; try done; try lia.
  - intros p Hp. by apply elem_of_nil in Hp.
  - intros b Hb. by apply elem_of_nil in Hb.
Qed.

Lemma slot_ok_64 : slot_ok 64.
Proof. exists 6. split; [lia|done]. Qed.

Lemma demo_slab_inv : Slab_inv (Memory [] ∅, Slab_new 64) [] [] [] [].
Proof. apply Slab_new_inv; [apply slot_ok_64|done]. Qed.

Lemma slab_alloc_correct_witness :
  exists r x', Slab_alloc (Memory [] ∅, Slab_new 64) = Ret (r, x') /\
    slab_alloc_post (Memory [] ∅, Slab_new 64) [] [] [] [] r x'.
Proof. apply (slab_alloc_correct _ [] [] [] []). apply demo_slab_inv. Defined.

(** A slab with one slot in use. *)
Lemma demo_slab_live :
  exists x ps fl, Slab_alloc (Memory [] ∅, Slab_new 64) = Ret (Some 65536, x) /\ Slab_inv x ps fl [65536] [].
Proof.
  destruct (Slab_alloc_wp (Memory [] ∅, Slab_new 64) [] [] [] []
    (slab_alloc_post (Memory [] ∅, Slab_new 64) [] [] [] [])) as (r & x & Hr & _ & Hm);
    [apply demo_slab_inv|done|].
  assert (Hp : match Slab_alloc (Memory [] ∅, Slab_new 64) with Ret (r, _) => r | _ => None end = Some 65536)
    by (vm_compute; reflexivity).
  rewrite Hr in Hp. subst r. destruct Hm as (_ & _ & _ & HI). exists x, [65536], []. by split.
Qed.

Lemma slab_dealloc_correct_witness :
  exists x x' x'', Slab_alloc (Memory [] ∅, Slab_new 64) = Ret (Some 65536, x) /\
    Slab_dealloc 65536 x = Ret (tt, x') /\ Slab_alloc x' = Ret (Some 65536, x'').
Proof.
  destruct demo_slab_live as (x & ps & fl & Hr & HI).
  destruct (slab_dealloc_correct x ps fl 65536 [] [] HI) as (x' & x'' & Hd & _ & Ha).
  exists x, x', x''. split; [exact Hr|]. split; [exact Hd|exact Ha].
Defined.

Lemma slab_foreign_and_drop_witness :
  exists x x', Slab_alloc (Memory [] ∅, Slab_new 64) = Ret (Some 65536, x) /\ Slab_drop x = Ret (tt, x').
Proof.
  destruct demo_slab_live as (x & ps & fl & Hr & HI).
  destruct (slab_foreign_and_drop x ps fl [65536] [] 0 HI) as (_ & x' & Hd & _).
  exists x, x'. split; [exact Hr|exact Hd].
Defined.

(** A slab of 8192-byte slots, the largest of the eleven classes the module names,
    hands out slots of which only the first 4096 bytes are its own. *)
Theorem slab_8192_slot_too_short :
  exists p x, Slab_alloc (Memory [] ∅, Slab_new 8192) = Ret (Some p, x) /\
    slot_size x.2 = 8192 /\ load8 x.1 (p + 4095) = Some 0 /\ load8 x.1 (p + 4096) = None.
Proof.
  match eval vm_compute in (Slab_alloc (Memory [] ∅, Slab_new 8192)) with
  | Ret (Some ?p, ?x) => exists p, x
  end. split_and!; vm_compute; reflexivity.
Qed.
