(* ===== verification/Buddy.v ===== *)
(** * The buddy allocator

    Models aethalloc-core/src/buddy.rs: blocks of 2^14 to 2^18 bytes in regions of
    2^18 bytes, each block starting with a header that holds its order, whether it is
    free and the link of its free list.  The theorems show that blocks never overlap,
    that what is free is always fully merged, and where the code relies on regions
    being aligned to their size. *)

From S2P Require Import Prelude SizeClass Memory Extents AllocSpec Page Metadata FreeList.

#[local] Arguments load64 : simpl never.
#[local] Arguments store64 : simpl never.

(** ** Definitions *)

Definition MIN_ORDER : Z := 14.
Definition MAX_ORDER : Z := 18.
Definition NUM_ORDERS : Z := MAX_ORDER - MIN_ORDER + 1.

(** [BlockHeader] is [repr(C)]: [order] at 0, [is_free] at 1, [next] at 8. *)
Record BlockHeader : Type := {
  bh_order : Z;
  bh_is_free : bool;
  bh_next : option Z
}.

Definition BLOCK_HEADER_SIZE : Z := 16.

Record BuddyAllocator : Type := {
  bd_free_lists : list (option Z);
  bd_base : option Z;
  bd_region_size : Z
}.

Definition BuddyAllocator_new : BuddyAllocator :=
  {| bd_free_lists := replicate (Z.to_nat NUM_ORDERS) None; bd_base := None; bd_region_size := 0 |}.

(** The link of a block, seen as the free-list format of its first 16 bytes. *)
Definition BlockHeader_link : LinkFormat := {|
  link_size := BLOCK_HEADER_SIZE;
  link_read m a := @link_read NonNull_link m (a + 8);
  link_write m a v := @link_write NonNull_link m (a + 8) v
|}.

(** A [bool] that is neither 0 nor 1 is undefined behaviour. *)
Definition as_bool (b : Z) : option bool :=
  if b =? 0 then Some false else if b =? 1 then Some true else None.

(** [order as u8]. *)
Definition as_u8 (x : Z) : Z := x mod 256.

(** [usize::clamp]. *)
Definition clamp (x lo hi : Z) : Z := if x <? lo then lo else if hi <? x then hi else x.

Section buddy.
Context `{K : Kernel}.
#[local] Existing Instance BlockHeader_link.

Definition buddy_state : Type := memory * BuddyAllocator.

Definition buddy_mem {A} (m : M memory A) : M buddy_state A :=
  zoom (fun x => Some x.1) (fun m x => (m, x.2)) m.

Definition update_mem (f : memory -> option memory) : M memory unit :=
  fun m => match f m with Some m' => Ret (tt, m') | None => Fault end.

Definition set_order (block order : Z) : M buddy_state unit :=
  buddy_mem (update_mem (fun m => store8 m block (as_u8 order))).

Definition set_is_free (block : Z) (b : bool) : M buddy_state unit :=
  buddy_mem (update_mem (fun m => store8 m (block + 1) (if b then 1 else 0))).

Definition set_next (block : Z) (next : option Z) : M buddy_state unit :=
  buddy_mem (update_mem (fun m => link_write m block next)).

Definition get_next (block : Z) : M buddy_state (option Z) :=
  x ← getS; or_fault (link_read x.1 block).

(** [core::ptr::write(header, BlockHeader { .. })]. *)
Definition write_header (block : Z) (h : BlockHeader) : M buddy_state unit :=
  set_order block (bh_order h) ;; set_is_free block (bh_is_free h) ;; set_next block (bh_next h).

Definition get_free_list (idx : Z) : M buddy_state (option Z) :=
  x ← getS; or_panic (arr_get (bd_free_lists x.2) idx).

Definition set_free_list (idx : Z) (h : option Z) : M buddy_state unit :=
  x ← getS;
  l ← or_panic (arr_set (bd_free_lists x.2) idx h);
  modifyS (fun x => (x.1, {| bd_free_lists := l; bd_base := bd_base x.2;
                             bd_region_size := bd_region_size x.2 |})).

Definition BuddyAllocator_init (ptr size : Z) : M buddy_state unit :=
  modifyS (fun x => (x.1, {| bd_free_lists := bd_free_lists x.2; bd_base := Some ptr;
                             bd_region_size := size |})) ;;
  let max_order := trailing_zeros size in
  let clamped_order := clamp max_order MIN_ORDER MAX_ORDER in
  let order_idx := clamped_order -! MIN_ORDER in
  write_header ptr {| bh_order := clamped_order; bh_is_free := true; bh_next := None |} ;;
  set_free_list order_idx (Some ptr).

(** The loop of [alloc] that looks for a non-empty list; [n] is the number of lists
    left, so it runs as often as the code's condition lets it. *)
Fixpoint find_order (n : nat) (idx : Z) (lists : list (option Z)) : Z :=
  match n with
  | O => idx
  | S n' =>
      match arr_get lists idx with
      | Some None => find_order n' (idx + 1) lists
      | _ => idx
      end
  end.

(** A block becomes the head of a list. *)
Definition push_front (idx block : Z) : M buddy_state unit :=
  h ← get_free_list idx;
  set_next block h ;;
  set_free_list idx (Some block).

(** The loop of [split], which runs [from - to] times. *)
Fixpoint split_loop (n : nat) (block current_order : Z) : M buddy_state unit :=
  match n with
  | O => mret tt
  | S n' =>
      let current_idx := current_order -! MIN_ORDER in
      let buddy_size := shl64 1 (current_order -! 1) in
      let buddy := block + buddy_size in
      write_header buddy {| bh_order := current_order -! 1; bh_is_free := true; bh_next := None |} ;;
      set_order block (current_order -! 1) ;;
      let buddy_idx := current_idx -! 1 in
      push_front buddy_idx buddy ;;
      split_loop n' block (current_order -! 1)
  end.

Definition split (block from to : Z) : M buddy_state unit :=
  split_loop (Z.to_nat (from - to)) block from.

(** The part of [alloc] after a block was found. *)
Definition take_block (found_order_idx order_idx order : Z) : M buddy_state (option Z) :=
  h ← get_free_list found_order_idx;
  block ← or_fault h;
  next ← get_next block;
  set_free_list found_order_idx next ;;
  (if order_idx <? found_order_idx then split block (found_order_idx +! MIN_ORDER) order else mret tt) ;;
  set_is_free block false ;;
  set_next block None ;;
  mret (Some (block + BLOCK_HEADER_SIZE)).

(** [alloc] and [alloc_new_region] call each other: [fuel] bounds the depth. *)
Fixpoint BuddyAllocator_alloc (fuel : nat) (size : Z) : M buddy_state (option Z) :=
  match fuel with
  | O => fun _ => Diverge
  | S fuel' =>
      let order := trailing_zeros size in
      if negb ((MIN_ORDER <=? order) && (order <=? MAX_ORDER)) then mret None
      else
        let order_idx := order -! MIN_ORDER in
        x ← getS;
        let found_order_idx :=
          find_order (Z.to_nat (NUM_ORDERS - order_idx)) order_idx (bd_free_lists x.2) in
        if NUM_ORDERS <=? found_order_idx then
          let size := shl64 1 MAX_ORDER in
          let pages := size / PAGE_SIZE in
          r ← buddy_mem (PageAllocator_alloc pages);
          match r with
          | None => mret None
          | Some ptr => BuddyAllocator_init ptr size ;; BuddyAllocator_alloc fuel' (shl64 1 order)
          end
        else take_block found_order_idx order_idx order
  end.

(** The loop of [remove_from_free_list]; [fuel] bounds the length of the list. *)
Fixpoint remove_loop (fuel : nat) (block order_idx : Z) (current prev : option Z) : M buddy_state unit :=
  match current with
  | None => mret tt
  | Some curr =>
      match fuel with
      | O => fun _ => Diverge
      | S fuel' =>
          if curr =? block then
            next ← get_next curr;
            match prev with
            | Some p => set_next p next
            | None => set_free_list order_idx next
            end
          else
            next ← get_next curr;
            remove_loop fuel' block order_idx next (Some curr)
      end
  end.

Definition remove_from_free_list (fuel : nat) (block order_idx : Z) : M buddy_state unit :=
  h ← get_free_list order_idx;
  remove_loop fuel block order_idx h None.

(** The three conditions under which the loop of [coalesce] goes on. *)
Definition buddy_in_region (b : BuddyAllocator) (buddy_addr : Z) : bool :=
  match bd_base b with
  | Some base => negb ((buddy_addr <? base) || (base +! bd_region_size b <=? buddy_addr))
  | None => false
  end.

Definition buddy_is_free (buddy current_order : Z) : M buddy_state bool :=
  x ← getS;
  o ← or_fault (load8 x.1 buddy);
  f ← or_fault (b ← load8 x.1 (buddy + 1); as_bool b);
  mret (negb (negb f || negb (o =? current_order))).

(** The loop of [coalesce]; it gives the block and the order it ends with. *)
Fixpoint coalesce_loop (n : nat) (fuel : nat) (current_block current_order : Z)
    : M buddy_state (Z * Z) :=
  match n with
  | O => mret (current_block, current_order)
  | S n' =>
      let block_addr := current_block in
      let buddy_addr := Z.lxor block_addr (shl64 1 current_order) in
      x ← getS;
      if negb (buddy_in_region x.2 buddy_addr) then mret (current_block, current_order)
      else
        ok ← buddy_is_free buddy_addr current_order;
        if negb ok then mret (current_block, current_order)
        else
          let order_idx := current_order -! MIN_ORDER in
          remove_from_free_list fuel buddy_addr order_idx ;;
          let new_block := if block_addr <? buddy_addr then current_block else buddy_addr in
          set_order new_block (current_order +! 1) ;;
          coalesce_loop n' fuel new_block (current_order +! 1)
  end.

Definition coalesce (fuel : nat) (block order : Z) : M buddy_state unit :=
  r ← coalesce_loop (Z.to_nat (MAX_ORDER - order)) fuel block order;
  let order_idx := r.2 -! MIN_ORDER in
  push_front order_idx r.1.

Definition BuddyAllocator_dealloc (fuel : nat) (ptr size : Z) : M buddy_state unit :=
  let order := trailing_zeros size in
  let block := ptr - BLOCK_HEADER_SIZE in
  set_is_free block true ;;
  set_order block order ;;
  coalesce fuel block order.

Definition BuddyAllocator_drop : M buddy_state unit :=
  x ← getS;
  match bd_base x.2 with
  | Some base =>
      let pages := bd_region_size x.2 / PAGE_SIZE in
      if 0 <? pages then buddy_mem (PageAllocator_dealloc base pages) else mret tt
  | None => mret tt
  end.
End buddy.

(** ** Blocks and their buddies *)

(** A block is its address and its order. *)
Definition block_ext (b : Z * Z) : Z * Z := (b.1, 2 ^ b.2).

Definition block_ok (b : Z * Z) : Prop :=
  MIN_ORDER <= b.2 <= MAX_ORDER /\ b.1 mod 2 ^ b.2 = 0.

Lemma order_cases k : MIN_ORDER <= k <= MAX_ORDER -> k = 14 \/ k = 15 \/ k = 16 \/ k = 17 \/ k = 18.
Proof. unfold MIN_ORDER, MAX_ORDER. lia. Qed.

(** Make the orders of the context concrete. *)
Ltac split_orders :=
  repeat match goal with
  | H : MIN_ORDER <= ?k <= MAX_ORDER |- _ =>
      is_var k; destruct (order_cases k H) as [->|[->|[->|[->| ->]]]]; clear H
  end; unfold MIN_ORDER, MAX_ORDER in *.

(** The buddy is the other half of the block of the next order. *)
Lemma buddy_cases p k :
  0 <= k -> p mod 2 ^ k = 0 ->
  (p mod 2 ^ (k + 1) = 0 /\ Z.lxor p (2 ^ k) = p + 2 ^ k) \/
  (p mod 2 ^ (k + 1) = 2 ^ k /\ Z.lxor p (2 ^ k) = p - 2 ^ k).
Proof.
  intros Hk Hp. pose proof (pow2_pos k Hk) as Hpos.
  apply Z.mod_divide in Hp as [a ->]; [|lia].
  rewrite Z.pow_add_r, Z.pow_1_r, (Z.mul_comm (2 ^ k) 2), Z.mul_mod_distr_r by lia.
  assert (Hbit : Z.testbit (a * 2 ^ k) k = Z.odd a).
  { rewrite Z.testbit_odd, Z.shiftr_div_pow2, Z.div_mul by lia. done. }
  destruct (Z.odd a) eqn:Ho; [right|left]; rewrite Zmod_odd, Ho; (split; [lia|]).
  - symmetry. rewrite Z.sub_nocarry_ldiff.
    + apply Z.bits_inj_iff'. intros i Hi. rewrite Z.ldiff_spec, Z.lxor_spec, Z.pow2_bits_eqb by lia.
      destruct (Z.eqb_spec k i) as [<-|]; [by rewrite Hbit|]. by destruct (Z.testbit _ i).
    + apply Z.bits_inj_iff'. intros i Hi. rewrite Z.ldiff_spec, Z.bits_0, Z.pow2_bits_eqb by lia.
      destruct (Z.eqb_spec k i) as [<-|]; [by rewrite Hbit|done].
  - symmetry. apply Z.add_nocarry_lxor.
    apply Z.bits_inj_iff'. intros i Hi. rewrite Z.land_spec, Z.bits_0, Z.pow2_bits_eqb by lia.
    destruct (Z.eqb_spec k i) as [<-|]; [by rewrite Hbit|by rewrite andb_false_r].
Qed.

Definition buddy_of (p k : Z) : Z := Z.lxor p (2 ^ k).

Lemma buddy_of_invol p k : buddy_of (buddy_of p k) k = p.
Proof. unfold buddy_of. by rewrite Z.lxor_assoc, Z.lxor_nilpotent, Z.lxor_0_r. Qed.

Lemma buddy_of_ok p k : block_ok (p, k) -> k < MAX_ORDER ->
  block_ok (buddy_of p k, k) /\ block_ok (Z.min p (buddy_of p k), k + 1) /\
  (buddy_of p k = p + 2 ^ k \/ buddy_of p k = p - 2 ^ k).
Proof.
  intros [Hk Hp] Hlt. unfold block_ok. simpl in *.
  destruct (buddy_cases p k) as [[H1 H2]|[H1 H2]]; [unfold MIN_ORDER in *; lia|done|..];
    unfold buddy_of; rewrite H2; split_orders; simpl in *; split_and!; try lia; mlia.
Qed.

(** Of two overlapping blocks the smaller is part of the larger. *)
Lemma blocks_laminar p k q j x :
  block_ok (p, k) -> block_ok (q, j) -> k <= j ->
  in_ext x (block_ext (p, k)) -> in_ext x (block_ext (q, j)) ->
  sub_ext (block_ext (p, k)) (block_ext (q, j)).
Proof.
  unfold block_ok, in_ext, sub_ext, block_ext. simpl. intros [Hk Hp] [Hj Hq] Hle Hx Hy.
  split_orders; try lia; simpl in *; mlia.
Qed.

Lemma block_aligned_le p k j : block_ok (p, k) -> MIN_ORDER <= j <= k -> p mod 2 ^ j = 0.
Proof.
  intros [Hk Hp] Hj. simpl in *. assert (MIN_ORDER <= j <= MAX_ORDER) as Hj' by lia.
  assert (j <= k) as Hle by lia. clear Hj. split_orders; try lia; simpl in *; mlia.
Qed.

(** ** The free blocks *)

Definition frees (F : list (list Z)) : list (Z * Z) :=
  concat (imap (fun i l => (fun p => (p, MIN_ORDER + Z.of_nat i)) <$> l) F).

Lemma frees_elem F p k :
  (p, k) ∈ frees F <-> MIN_ORDER <= k /\ exists l, F !! Z.to_nat (k - MIN_ORDER) = Some l /\ p ∈ l.
Proof.
  unfold frees. rewrite list_elem_of_In, in_concat. split.
  - intros (ls & Hls & Hin). apply list_elem_of_In, elem_of_lookup_imap in Hls as (i & l & -> & Hl).
    apply list_elem_of_In, list_elem_of_fmap in Hin as (q & Heq & Hq). simplify_eq. split; [lia|].
    exists l. replace (Z.to_nat _) with i by lia. done.
  - intros (Hk & l & Hl & Hp). exists ((fun p => (p, MIN_ORDER + Z.of_nat (Z.to_nat (k - MIN_ORDER)))) <$> l).
    rewrite <- !list_elem_of_In. split.
    + apply elem_of_lookup_imap. eauto.
    + apply list_elem_of_fmap. exists p. split; [f_equal; lia|done].
Qed.

Lemma frees_focus F i l :
  F !! i = Some l ->
  exists R, frees F ≡ₚ ((fun p => (p, MIN_ORDER + Z.of_nat i)) <$> l) ++ R /\
  forall l', frees (<[i := l']> F) ≡ₚ ((fun p => (p, MIN_ORDER + Z.of_nat i)) <$> l') ++ R.
Proof. intros Hl. by apply (concat_imap_focus (fun i l => (fun p => (p, MIN_ORDER + Z.of_nat i)) <$> l) F). Qed.

Lemma frees_cons F i l p :
  F !! i = Some l -> frees (<[i := p :: l]> F) ≡ₚ (p, MIN_ORDER + Z.of_nat i) :: frees F.
Proof.
  intros Hl. destruct (frees_focus F i l Hl) as (R & HR & Hy). rewrite (Hy (p :: l)), HR. done.
Qed.

Lemma frees_delete F i l1 p l2 :
  F !! i = Some (l1 ++ p :: l2) ->
  frees F ≡ₚ (p, MIN_ORDER + Z.of_nat i) :: frees (<[i := l1 ++ l2]> F).
Proof.
  intros Hl. destruct (frees_focus F i _ Hl) as (R & HR & Hy). rewrite (Hy (l1 ++ l2)), HR.
  rewrite !fmap_app. simpl. solve_Permutation.
Qed.

(** ** The invariant *)

#[global] Instance BlockHeader_link_laws : LinkLaws BlockHeader_link.
Proof.
  constructor.
  - done.
  - intros m m' a Ha. apply (lk_agree (F := NonNull_link)). intros i Hi. apply Ha.
    simpl in *. unfold BLOCK_HEADER_SIZE. lia.
  - intros m a v Ha Hv. destruct (lk_write (F := NonNull_link) m (a + 8) v) as (m' & Hw & Hch & Hrd); [|done|].
    + apply (accessible_sub _ _ _ _ _ Ha); simpl; unfold BLOCK_HEADER_SIZE; lia.
    + exists m'. split; [done|]. split; [|done].
      eapply changes_only_weaken; [exact Hch|lia|simpl; unfold BLOCK_HEADER_SIZE; lia].
Qed.

(** A write of the link leaves the order and the flag alone. *)
Lemma link_write_changes m a v m' :
  link_write (LinkFormat := BlockHeader_link) m a v = Some m' -> changes_only m m' (a + 8) 8.
Proof. simpl. apply (store_le_changes 8). Qed.

Definition header_is (m : memory) (p k : Z) (f : bool) : Prop :=
  load8 m p = Some k /\ load8 m (p + 1) = Some (if f then 1 else 0).

(** The blocks [B] tile the regions [rs], which are aligned to their size. *)
Record tiles (rs : list Z) (B : list (Z * Z)) : Prop := {
  tl_region r : r ∈ rs -> r mod 2 ^ MAX_ORDER = 0;
  tl_ok b : b ∈ B -> block_ok b;
  tl_in b : b ∈ B -> exists r, r ∈ rs /\ sub_ext (block_ext b) (r, 2 ^ MAX_ORDER);
  tl_cover r x : r ∈ rs -> in_ext x (r, 2 ^ MAX_ORDER) -> exists b, b ∈ B /\ in_ext x (block_ext b)
}.

(** No block of the current region is free together with its buddy. *)
Definition merged (b : BuddyAllocator) (F : list (list Z)) : Prop :=
  forall r p k, bd_base b = Some r -> in_ext p (r, 2 ^ MAX_ORDER) -> k < MAX_ORDER ->
    (p, k) ∈ frees F -> (buddy_of p k, k) ∉ frees F.

(** The lists of [F] are free, the client holds [L], a running operation holds [H];
    [X] is what others use. *)
Record Buddy_inv (x : buddy_state) (rs : list Z) (F : list (list Z)) (L H X : list (Z * Z)) : Prop := {
  bi_lists : Forall2 (free_list (F := BlockHeader_link) x.1) (bd_free_lists x.2) F;
  bi_len : length F = Z.to_nat NUM_ORDERS;
  bi_free p k : (p, k) ∈ frees F -> header_is x.1 p k true;
  bi_live p k : (p, k) ∈ L -> header_is x.1 p k false;
  bi_tiles : tiles rs (frees F ++ L ++ H);
  bi_arena : arena x.1 ((block_ext <$> frees F ++ L ++ H) ++ X);
  bi_base r : bd_base x.2 = Some r ->
    r ∈ rs /\ 2 ^ MAX_ORDER <= bd_region_size x.2 /\ 0 < r /\ r + bd_region_size x.2 <= USER_TOP;
  bi_merged : merged x.2 F
}.

#[global] Instance tiles_perm : Proper ((=) ==> (≡ₚ) ==> iff) tiles.
Proof.
  intros rs ? <- B B' HB. split; intros []; constructor; try done; intros.
  all: try (rewrite <- HB in * || rewrite HB in *); eauto.
  - destruct (tl_cover0 r x) as (b & Hb & ?); [done..|]. exists b. by rewrite <- HB.
  - destruct (tl_cover0 r x) as (b & Hb & ?); [done..|]. exists b. by rewrite HB.
Qed.

(** Blocks may be taken in any order. *)
Lemma inv_perm x rs F L L' H H' X :
  L ≡ₚ L' -> H ≡ₚ H' -> Buddy_inv x rs F L H X -> Buddy_inv x rs F L' H' X.
Proof.
  intros HL HH []. constructor; try done.
  - intros p k Hp. apply bi_live0. by rewrite HL.
  - by rewrite <- HL, <- HH.
  - eapply arena_perm; [|exact bi_arena0]. by rewrite HL, HH.
Qed.

(** Letting go of a live block: its header is no longer constrained. *)
Lemma inv_hold x rs F L b H X : Buddy_inv x rs F (b :: L) H X -> Buddy_inv x rs F L (b :: H) X.
Proof.
  intros []. assert (Hp : frees F ++ (b :: L) ++ H ≡ₚ frees F ++ L ++ b :: H) by solve_Permutation.
  constructor; try done.
  - intros p k Hb. apply bi_live0. by right.
  - by rewrite <- Hp.
  - eapply arena_perm; [|exact bi_arena0]. by rewrite Hp.
Qed.

Lemma inv_release x rs F L p k H X :
  header_is x.1 p k false -> Buddy_inv x rs F L ((p, k) :: H) X -> Buddy_inv x rs F ((p, k) :: L) H X.
Proof.
  intros Hh []. assert (Hp : frees F ++ L ++ (p, k) :: H ≡ₚ frees F ++ ((p, k) :: L) ++ H) by solve_Permutation.
  constructor; try done.
  - intros q j [Hb|Hb]%elem_of_cons; [by simplify_eq|auto].
  - by rewrite <- Hp.
  - eapply arena_perm; [|exact bi_arena0]. by rewrite Hp.
Qed.

Lemma free_ext_16 b : block_ok b -> 16 <= 2 ^ b.2.
Proof. intros [Hb _]. destruct b as [p k]. simpl in *. split_orders; lia. Qed.

(** ** Frames *)

(** What the client and others own. *)
Definition owned (L X : list (Z * Z)) : list (Z * Z) := (block_ext <$> L) ++ X.

Lemma all_disjoint_parts m (A B C D : list (Z * Z)) e1 e2 :
  arena m ((block_ext <$> A ++ B ++ C) ++ D) ->
  (e1 ∈ (block_ext <$> A) /\ (e2 ∈ (block_ext <$> B) \/ e2 ∈ (block_ext <$> C) \/ e2 ∈ D)) \/
  (e1 ∈ (block_ext <$> C) /\ (e2 ∈ (block_ext <$> B) \/ e2 ∈ D)) ->
  ext_disj e1 e2.
Proof.
  rewrite !fmap_app, <- !app_assoc. intros [Hd _] He. rewrite !all_disjoint_app in Hd.
  destruct Hd as (_ & (_ & (_ & _ & Hd2) & Hd1) & Hd0). rewrite !Forall_forall in *.
  destruct He as [[H1 H2]|[H1 H2]].
  - specialize (Hd0 e1 H1). rewrite Forall_forall in Hd0. apply Hd0. rewrite !elem_of_app. tauto.
  - destruct H2 as [H2|H2].
    + specialize (Hd1 e2 H2). rewrite Forall_forall in Hd1. intros x Hx1 Hx2.
      apply (Hd1 e1 ltac:(apply elem_of_app; by left) x); done.
    + specialize (Hd2 e1 H1). rewrite Forall_forall in Hd2. by apply Hd2.
Qed.

Section frames.
Context (x : buddy_state) (rs : list Z) (F : list (list Z)) (L H X : list (Z * Z)).
Hypothesis HI : Buddy_inv x rs F L H X.

Lemma inv_block_ok b : b ∈ frees F ++ L ++ H -> block_ok b.
Proof. apply (tl_ok _ _ (bi_tiles _ _ _ _ _ _ HI)). Qed.

Lemma inv_block_ext b : b ∈ frees F ++ L ++ H -> ext_ok x.1 (block_ext b).
Proof.
  intros Hb. apply (arena_ok _ _ _ (bi_arena _ _ _ _ _ _ HI)).
  apply elem_of_app. left. by apply list_elem_of_fmap_2.
Qed.

Lemma inv_header_accessible b : b ∈ frees F ++ L ++ H -> accessible x.1 b.1 16.
Proof.
  intros Hb. destruct (inv_block_ext b Hb) as (_ & _ & _ & _ & Ha). simpl in Ha.
  pose proof (free_ext_16 b (inv_block_ok b Hb)). eapply accessible_sub; [exact Ha|lia|lia].
Qed.

(** A held block is apart from the free and the live ones. *)
Lemma inv_held_apart a k b :
  (a, k) ∈ H -> b ∈ frees F ++ L -> ext_disj (a, 2 ^ k) (block_ext b).
Proof.
  intros Ha Hb y H1 H2. pose proof (bi_arena _ _ _ _ _ _ HI) as Har. revert H1 H2.
  assert (Ha' : (a, 2 ^ k) ∈ (block_ext <$> H)) by (apply (list_elem_of_fmap_2 block_ext _ _ Ha)).
  apply elem_of_app in Hb as [Hb|Hb].
  - intros H1 H2. eapply (all_disjoint_parts _ _ _ _ _ (block_ext b) (a, 2 ^ k) Har); [|done..].
    left. split; [by apply list_elem_of_fmap_2|]. tauto.
  - eapply (all_disjoint_parts _ _ _ _ _ _ _ Har). right. split; [done|]. left. by apply list_elem_of_fmap_2.
Qed.

(** Writes to held or free blocks are invisible to the client and to others. *)
Lemma inv_owned_bytes a k m' :
  (a, k) ∈ frees F ++ H -> changes_only x.1 m' a (2 ^ k) -> same_bytes (owned L X) x.1 m'.
Proof.
  intros Ha [Hch _] e i He Hi. apply Hch. intros Hin.
  pose proof (bi_arena _ _ _ _ _ _ HI) as Har.
  apply (all_disjoint_parts _ _ _ _ _ (block_ext (a, k)) e Har) with i; [|done|done].
  unfold owned in He. apply elem_of_app in Ha as [Ha|Ha]; [left|right];
    (split; [by apply list_elem_of_fmap_2|]); apply elem_of_app in He; tauto.
Qed.

(** A change that keeps the lists, the headers and what is mapped keeps the invariant. *)
Lemma inv_frame m' lists :
  Forall2 (free_list (F := BlockHeader_link) m') lists F ->
  (forall b, b ∈ frees F ++ L -> agree_on x.1 m' b.1 2) ->
  (forall i, is_Some (load8 x.1 i) -> is_Some (load8 m' i)) ->
  Buddy_inv (m', {| bd_free_lists := lists; bd_base := bd_base x.2;
                    bd_region_size := bd_region_size x.2 |}) rs F L H X.
Proof.
  intros Hl Hh Hm. pose proof HI as []. constructor; simpl; try done.
  - intros p k Hp. destruct (bi_free0 p k Hp) as [H1 H2].
    pose proof (Hh (p, k) ltac:(apply elem_of_app; by left)) as Ha. simpl in Ha.
    split; rewrite <- Ha by lia; done.
  - intros p k Hp. destruct (bi_live0 p k Hp) as [H1 H2].
    pose proof (Hh (p, k) ltac:(apply elem_of_app; by right)) as Ha. simpl in Ha.
    split; rewrite <- Ha by lia; done.
  - eapply arena_mem_mono; [|exact bi_arena0]. eauto.
Qed.

Lemma inv_held_agree a k m' b :
  (a, k) ∈ H -> changes_only x.1 m' a (2 ^ k) -> b ∈ frees F ++ L -> agree_on x.1 m' b.1 16.
Proof.
  intros Ha Hch Hb. eapply changes_only_agree; [exact Hch|].
  assert (Hb' : block_ok b) by (apply inv_block_ok; rewrite app_assoc; apply elem_of_app; by left).
  pose proof (free_ext_16 b Hb'). pose proof (inv_held_apart a k b Ha Hb) as Hd.
  assert (block_ok (a, k)) as Hk%free_ext_16 by (apply inv_block_ok; rewrite !elem_of_app; tauto).
  destruct (ext_disj_arith a (2 ^ k) b.1 (2 ^ b.2)); simpl in *; try lia. exact Hd.
Qed.

Lemma list_free_elem i l p :
  F !! i = Some l -> p ∈ l -> (p, MIN_ORDER + Z.of_nat i) ∈ frees F.
Proof.
  intros Hl Hp. apply frees_elem. split; [lia|]. exists l.
  by replace (Z.to_nat _) with i by lia.
Qed.

(** Writes inside a held block. *)
Lemma inv_held_write a k m' :
  (a, k) ∈ H -> changes_only x.1 m' a (2 ^ k) -> Buddy_inv (m', x.2) rs F L H X.
Proof.
  intros Ha Hch.
  replace (m', x.2) with (m', {| bd_free_lists := bd_free_lists x.2; bd_base := bd_base x.2;
    bd_region_size := bd_region_size x.2 |}) by (by destruct x.2).
  apply inv_frame.
  - pose proof (bi_lists _ _ _ _ _ _ HI) as Hl.
    apply Forall2_same_length_lookup. split; [by eapply Forall2_length|]. intros i h l Hh HF.
    eapply free_list_agree; [|eapply Forall2_lookup_lr; [exact Hl|done..]]. intros p Hp.
    apply (inv_held_agree a k m' (p, MIN_ORDER + Z.of_nat i)); [done..|].
    apply elem_of_app. left. by eapply list_free_elem.
  - intros b Hb i Hi. apply (inv_held_agree a k m' b); [done..|lia].
  - apply Hch.
Qed.
End frames.

(** ** Walking a free list *)

Section walk.
Context `{K : Kernel}.
#[local] Existing Instance BlockHeader_link.

Lemma set_next_wp a v m b (Q : unit -> buddy_state -> Prop) :
  accessible m a 16 -> link_valid v ->
  (forall m', changes_only m m' (a + 8) 8 -> link_read m' a = Some v -> Q tt (m', b)) ->
  wp (set_next a v) Q (m, b).
Proof.
  intros Ha Hv HQ. destruct (lk_write m a v) as (m' & Hw & _ & Hrd); [done|done|].
  eapply wp_zoom; [done|]. exists tt, m'. unfold update_mem. cbn [fst]. rewrite Hw.
  split; [done|]. apply HQ; [|done]. by eapply link_write_changes.
Qed.

Lemma get_next_wp a v x (Q : option Z -> buddy_state -> Prop) :
  link_read x.1 a = Some v -> Q v x -> wp (get_next a) Q x.
Proof. intros Hr HQ. apply wp_bind, wp_gets. by eapply wp_or_fault. Qed.

(** Blocks whose headers are apart, accessible and at valid addresses. *)
Definition headers_apart (m : memory) (l : list Z) : Prop :=
  NoDup l /\ (forall u v, u ∈ l -> v ∈ l -> u <> v -> u + 16 <= v \/ v + 16 <= u) /\
  (forall u, u ∈ l -> accessible m u 16 /\ 0 < u < 2 ^ 64).

Lemma headers_apart_tail m u l : headers_apart m (u :: l) -> headers_apart m l.
Proof.
  intros (Hn & Ha & Hv). apply NoDup_cons in Hn as [_ Hn]. split_and!; [done|..].
  - intros v w Hvl Hwl. apply Ha; by right.
  - intros v Hvl. apply Hv. by right.
Qed.

Lemma free_list_other m m' h l w :
  headers_apart m (w :: l) -> changes_only m m' (w + 8) 8 -> free_list m h l -> free_list m' h l.
Proof.
  intros (Hn & Ha & _) Hch. apply NoDup_cons in Hn as [Hw _]. apply free_list_agree.
  intros p Hp. eapply changes_only_agree; [exact Hch|].
  destruct (Ha w p) as [?|?]; [by left|by right|by intros ->|..]; simpl; unfold BLOCK_HEADER_SIZE; lia.
Qed.

Lemma free_list_valid m h l : headers_apart m l -> free_list m h l -> link_valid h.
Proof.
  intros (_ & _ & Hv). destruct l as [|p l]; [by intros ->|]. intros [-> _]. simpl. apply Hv. by left.
Qed.

(** The loop past its first block: the block before [q] is linked to the one after. *)
Lemma remove_loop_wp q i b l2 l1 : forall m cur pv fuel (Q : unit -> buddy_state -> Prop),
  (length l1 < fuel)%nat -> q ∉ l1 -> free_list m cur (l1 ++ q :: l2) -> link_read m pv = Some cur ->
  headers_apart m (pv :: l1 ++ q :: l2) ->
  (forall m' w cur', w ∈ pv :: l1 -> changes_only m m' (w + 8) 8 ->
     link_read m' pv = Some cur' -> free_list m' cur' (l1 ++ l2) -> Q tt (m', b)) ->
  wp (remove_loop fuel q i cur (Some pv)) Q (m, b).
Proof.
  induction l1 as [|c l1 IH]; intros m cur pv [|fuel] Q Hf Hq Hl Hpv Hap HQ; try (simpl in Hf; lia).
  - destruct Hl as (-> & nx & Hnx & Hl). simpl remove_loop. rewrite Z.eqb_refl.
    pose proof (headers_apart_tail _ _ _ Hap) as Hap2. pose proof (headers_apart_tail _ _ _ Hap2) as Hap3.
    apply wp_bind. eapply get_next_wp; [exact Hnx|]. apply set_next_wp.
    + by apply Hap; left.
    + by eapply free_list_valid.
    + intros m' Hch Hrd. apply (HQ m' pv nx); [by left|done|done|].
      eapply (free_list_other _ _ _ _ pv); [|done|done]. destruct Hap as (Hn & Ha & Hv).
      split_and!; [|intros u v Hu Hv'; apply Ha; set_solver|intros u Hu; apply Hv; set_solver].
      apply NoDup_cons in Hn as [Hn1 Hn2]. apply NoDup_cons in Hn2 as [_ Hn2].
      apply NoDup_cons. split; [set_solver|done].
  - destruct Hl as (-> & nx & Hnx & Hl). simpl remove_loop.
    apply not_elem_of_cons in Hq as [Hqc Hq]. destruct (Z.eqb_spec c q); [done|].
    pose proof (headers_apart_tail _ _ _ Hap) as Hap2.
    apply wp_bind. eapply get_next_wp; [exact Hnx|].
    apply (IH m nx c fuel); [simpl in Hf; lia|done|done|done|done|].
    intros m' w cur' Hw Hch Hrd Hl'. apply (HQ m' w (Some c)); [by right|done|..].
    + rewrite <- Hpv. apply lk_agree. eapply changes_only_agree; [exact Hch|]. destruct Hap as (Hn & Ha & _).
      apply NoDup_cons in Hn as [Hn _]. destruct (Ha w pv) as [?|?]; simpl; unfold BLOCK_HEADER_SIZE; try lia;
        [set_solver|set_solver|]. intros ->. apply Hn. set_solver.
    + split; [done|]. eauto.
Qed.

Lemma get_free_list_wp i h x (Q : option Z -> buddy_state -> Prop) :
  arr_get (bd_free_lists x.2) i = Some h -> Q h x -> wp (get_free_list i) Q x.
Proof. intros Hg HQ. apply wp_bind, wp_gets. by eapply wp_or_panic. Qed.

Definition with_list (b : BuddyAllocator) (i : Z) (h : option Z) : BuddyAllocator :=
  {| bd_free_lists := <[Z.to_nat i := h]> (bd_free_lists b); bd_base := bd_base b;
     bd_region_size := bd_region_size b |}.

Lemma set_free_list_wp i h m b (Q : unit -> buddy_state -> Prop) :
  0 <= i < Z.of_nat (length (bd_free_lists b)) -> Q tt (m, with_list b i h) ->
  wp (set_free_list i h) Q (m, b).
Proof.
  intros Hi HQ. apply wp_bind, wp_gets. apply wp_bind.
  eapply wp_or_panic; [by apply arr_set_total|]. by apply wp_modify.
Qed.

(** Either the head of the list changes, or the link of a block before [q]. *)
Lemma remove_from_free_list_wp fuel q i h l1 l2 m b (Q : unit -> buddy_state -> Prop) :
  (length l1 < fuel)%nat -> q ∉ l1 -> arr_get (bd_free_lists b) i = Some h ->
  free_list m h (l1 ++ q :: l2) -> headers_apart m (l1 ++ q :: l2) ->
  (forall m' h', m' = m \/ (exists w, w ∈ l1 /\ changes_only m m' (w + 8) 8) ->
     free_list m' h' (l1 ++ l2) -> Q tt (m', with_list b i h')) ->
  wp (remove_from_free_list fuel q i) Q (m, b).
Proof.
  intros Hf Hq Hg Hl Hap HQ. apply wp_bind. eapply get_free_list_wp; [exact Hg|].
  pose proof (arr_get_range _ _ _ Hg) as Hr. destruct fuel as [|fuel]; [lia|].
  destruct l1 as [|c l1]; destruct Hl as (-> & nx & Hnx & Hl); simpl remove_loop.
  - rewrite Z.eqb_refl. apply wp_bind. eapply get_next_wp; [exact Hnx|].
    apply set_free_list_wp; [done|]. apply HQ; [by left|done].
  - apply not_elem_of_cons in Hq as [Hqc Hq]. destruct (Z.eqb_spec c q); [done|].
    apply wp_bind. eapply get_next_wp; [exact Hnx|].
    apply (remove_loop_wp _ _ _ l2 l1); [simpl in Hf; lia|done|done|done|done|].
    intros m' w cur' Hw Hch Hrd Hl'. replace b with (with_list b i (Some c)).
    + apply HQ; [right; eauto|]. split; [done|]. eauto.
    + unfold with_list. apply arr_get_lookup in Hg as [_ Hg]. rewrite list_insert_id by done. by destruct b.
Qed.
End walk.

(** ** Moving blocks between the lists and the running operation *)

Lemma pow2_order_inj k j : MIN_ORDER <= k -> MIN_ORDER <= j -> 2 ^ k = 2 ^ j -> k = j.
Proof. unfold MIN_ORDER. intros. apply (Z.pow_inj_r 2); lia. Qed.

Lemma all_disjoint_elem l e1 e2 : all_disjoint l -> e1 ∈ l -> e2 ∈ l -> e1 <> e2 -> ext_disj e1 e2.
Proof.
  induction l as [|e l IH]; simpl; [by intros _ ?%elem_of_nil|]. intros [Hd Hl] H1 H2 Hne.
  rewrite Forall_forall in Hd. apply elem_of_cons in H1 as [->|H1]; apply elem_of_cons in H2 as [->|H2];
    [done|by apply Hd| |by apply IH]. intros x Hx1 Hx2. by apply (Hd e1 H1 x).
Qed.

Lemma all_disjoint_NoDup l n : 0 < n -> all_disjoint ((fun p => (p, n)) <$> l) -> NoDup l.
Proof.
  intros Hn. induction l as [|p l IH]; simpl; [constructor|]. intros [Hd Hl]. constructor; [|by apply IH].
  intros Hp. rewrite Forall_fmap, Forall_forall in Hd. apply (Hd p Hp p); unfold in_ext; simpl; lia.
Qed.

Section moves.
Context (m : memory) (b : BuddyAllocator) (rs : list Z) (F : list (list Z)) (L H X : list (Z * Z)).
Hypothesis HI : Buddy_inv (m, b) rs F L H X.
#[local] Existing Instance BlockHeader_link.

(** Blocks that share a byte are the same. *)
Lemma inv_overlap_eq b1 b2 y :
  b1 ∈ frees F ++ L ++ H -> b2 ∈ frees F ++ L ++ H ->
  in_ext y (block_ext b1) -> in_ext y (block_ext b2) -> b1 = b2.
Proof.
  intros H1 H2 Hy1 Hy2. destruct (decide (block_ext b1 = block_ext b2)) as [He|He].
  - destruct (inv_block_ok _ _ _ _ _ _ HI b1 H1) as [Hb1 _], (inv_block_ok _ _ _ _ _ _ HI b2 H2) as [Hb2 _].
    destruct b1, b2. unfold block_ext in He. simplify_eq/=. f_equal. apply pow2_order_inj; lia.
  - exfalso. destruct (bi_arena _ _ _ _ _ _ HI) as [Hd _]. apply all_disjoint_app in Hd as (Hd & _).
    apply (all_disjoint_elem _ _ _ Hd (list_elem_of_fmap_2 _ _ _ H1) (list_elem_of_fmap_2 _ _ _ H2) He y);
      done.
Qed.

Lemma block_start b1 : b1 ∈ frees F ++ L ++ H -> in_ext b1.1 (block_ext b1).
Proof.
  intros H1. pose proof (free_ext_16 _ (inv_block_ok _ _ _ _ _ _ HI b1 H1)).
  unfold in_ext, block_ext. simpl. lia.
Qed.

(** The headers of distinct blocks are apart. *)
Lemma inv_headers_disj b1 b2 :
  b1 ∈ frees F ++ L ++ H -> b2 ∈ frees F ++ L ++ H -> b1 <> b2 ->
  b1.1 + 16 <= b2.1 \/ b2.1 + 16 <= b1.1.
Proof.
  intros H1 H2 Hne. pose proof (free_ext_16 _ (inv_block_ok _ _ _ _ _ _ HI b1 H1)) as Hs1.
  pose proof (free_ext_16 _ (inv_block_ok _ _ _ _ _ _ HI b2 H2)) as Hs2.
  destruct (decide (b1.1 + 16 <= b2.1)); [by left|]. destruct (decide (b2.1 + 16 <= b1.1)); [by right|].
  exfalso. apply Hne. apply (inv_overlap_eq b1 b2 (Z.max b1.1 b2.1)); [done..| |];
    unfold in_ext, block_ext; simpl; lia.
Qed.

Lemma inv_list_apart i l : F !! i = Some l -> headers_apart m l.
Proof.
  intros Hl. assert (Hin : forall u, u ∈ l -> (u, MIN_ORDER + Z.of_nat i) ∈ frees F ++ L ++ H).
  { intros u Hu. apply elem_of_app. left. by eapply list_free_elem. }
  split_and!.
  - apply (all_disjoint_NoDup _ (2 ^ (MIN_ORDER + Z.of_nat i))); [apply pow2_pos; unfold MIN_ORDER; lia|].
    destruct (frees_focus F i l Hl) as (R & HR & _).
    assert (Har : arena m ((block_ext <$> ((fun p => (p, MIN_ORDER + Z.of_nat i)) <$> l)) ++
      (block_ext <$> R ++ L ++ H) ++ X)).
    { eapply arena_perm; [|exact (bi_arena _ _ _ _ _ _ HI)]. rewrite HR, !fmap_app. solve_Permutation. }
    apply arena_drop_r in Har as [Hd _]. by rewrite <- list_fmap_compose in Hd.
  - intros u v Hu Hv Hne. apply (inv_headers_disj _ _ (Hin u Hu) (Hin v Hv)). congruence.
  - intros u Hu. split; [by apply (inv_header_accessible _ _ _ _ _ _ HI _ (Hin u Hu))|].
    destruct (inv_block_ext _ _ _ _ _ _ HI _ (Hin u Hu)) as (H0 & _ & H1 & H2 & _). simpl in *.
    unfold USER_TOP in H2. lia.
Qed.

Lemma inv_list_at i l : F !! i = Some l -> exists h, bd_free_lists b !! i = Some h /\ free_list m h l.
Proof.
  intros Hl. pose proof (bi_lists _ _ _ _ _ _ HI) as HF. simpl in HF.
  destruct (Forall2_lookup_r _ _ _ _ _ HF Hl) as (h & Hh & Hf). eauto.
Qed.

(** The write of a link of a free block is seen by no other header. *)
Lemma link_change_agree w k m' b1 :
  (w, k) ∈ frees F -> changes_only m m' (w + 8) 8 -> b1 ∈ frees F ++ L ++ H ->
  agree_on m m' b1.1 2 /\ (b1.1 <> w -> agree_on m m' b1.1 16).
Proof.
  intros Hw Hch Hb. assert (Hw' : (w, k) ∈ frees F ++ L ++ H) by (apply elem_of_app; by left).
  split; [|intros Hne]; (eapply changes_only_agree; [exact Hch|]);
    (destruct (decide (b1 = (w, k))) as [->|Hne2]; [simpl in *; lia|]);
    destruct (inv_headers_disj _ _ Hb Hw' Hne2); simpl in *; lia.
Qed.

(** Taking a block out of its list. *)
Lemma inv_unlink i l1 q l2 m' h' :
  F !! i = Some (l1 ++ q :: l2) -> free_list m' h' (l1 ++ l2) ->
  m' = m \/ (exists w, w ∈ l1 /\ changes_only m m' (w + 8) 8) ->
  Buddy_inv (m', with_list b (Z.of_nat i) h') rs (<[i := l1 ++ l2]> F) L
    ((q, MIN_ORDER + Z.of_nat i) :: H) X.
Proof.
  intros Hl Hh' Hm. pose proof (frees_delete F i l1 q l2 Hl) as Hp.
  assert (Hag : forall b1, b1 ∈ frees F ++ L ++ H -> agree_on m m' b1.1 2).
  { intros b1 Hb1. destruct Hm as [->|(w & Hw & Hch)]; [done|].
    apply (link_change_agree w (MIN_ORDER + Z.of_nat i)); [|done..].
    eapply list_free_elem; [exact Hl|]. apply elem_of_app. by left. }
  assert (Hmono : forall j, is_Some (load8 m j) -> is_Some (load8 m' j)).
  { destruct Hm as [->|(w & _ & Hch)]; [done|apply Hch]. }
  assert (Hperm : frees (<[i:=l1 ++ l2]> F) ++ L ++ (q, MIN_ORDER + Z.of_nat i) :: H ≡ₚ frees F ++ L ++ H).
  { rewrite Hp. solve_Permutation. }
  assert (Hi : (i < length F)%nat) by by eapply lookup_lt_Some.
  pose proof HI as []. simpl in *.
  assert (Hsub : forall p k, (p, k) ∈ frees (<[i:=l1 ++ l2]> F) -> (p, k) ∈ frees F).
  { intros p k Hpk. rewrite Hp. by right. }
  constructor; simpl; try done.
  - rewrite Nat2Z.id. apply Forall2_same_length_lookup.
    split; [rewrite !length_insert; by eapply Forall2_length|]. intros j h l Hj HFj.
    destruct (decide (j = i)) as [->|Hne].
    + rewrite list_lookup_insert_eq in Hj by (by rewrite (Forall2_length _ _ _ bi_lists0)).
      rewrite list_lookup_insert_eq in HFj by done. by simplify_eq.
    + rewrite list_lookup_insert_ne in Hj by done. rewrite list_lookup_insert_ne in HFj by done.
      eapply free_list_agree; [|eapply Forall2_lookup_lr; [exact bi_lists0|done..]].
      intros p Hpl. destruct Hm as [->|(w & Hw & Hch)]; [done|].
      assert (Hpf : (p, MIN_ORDER + Z.of_nat j) ∈ frees F) by by eapply list_free_elem.
      assert (Hwf : (w, MIN_ORDER + Z.of_nat i) ∈ frees F).
      { eapply list_free_elem; [exact Hl|]. apply elem_of_app. by left. }
      apply (link_change_agree w (MIN_ORDER + Z.of_nat i) m' (p, MIN_ORDER + Z.of_nat j)); [done|done| |].
      { apply elem_of_app. by left. }
      simpl. intros ->. assert ((w, MIN_ORDER + Z.of_nat j) = (w, MIN_ORDER + Z.of_nat i)); [|simplify_eq; lia].
      apply (inv_overlap_eq _ _ w); [apply elem_of_app; by left|apply elem_of_app; by left|..];
        apply (block_start (w, _)); apply elem_of_app; by left.
  - by rewrite length_insert.
  - intros p k Hpk. destruct (bi_free0 p k (Hsub p k Hpk)) as [E1 E2].
    pose proof (Hag (p, k) ltac:(apply elem_of_app; left; by apply Hsub)) as Ha. simpl in Ha.
    split; rewrite <- Ha by lia; done.
  - intros p k Hpk. destruct (bi_live0 p k Hpk) as [E1 E2].
    pose proof (Hag (p, k) ltac:(rewrite !elem_of_app; tauto)) as Ha. simpl in Ha.
    split; rewrite <- Ha by lia; done.
  - by rewrite Hperm.
  - apply (arena_mem_mono m); [eauto|]. eapply arena_perm; [|exact bi_arena0]. by rewrite Hperm.
  - intros r p k Hb Hr Hk Hpk Hq. eapply bi_merged0; eauto.
Qed.

(** Putting a held block at the front of a list. *)
Lemma inv_link i l h p H0 :
  H ≡ₚ (p, MIN_ORDER + Z.of_nat i) :: H0 -> F !! i = Some l -> bd_free_lists b !! i = Some h ->
  link_read m p = Some h -> header_is m p (MIN_ORDER + Z.of_nat i) true ->
  merged b (<[i := p :: l]> F) ->
  Buddy_inv (m, with_list b (Z.of_nat i) (Some p)) rs (<[i := p :: l]> F) L H0 X.
Proof.
  intros HH Hl Hh Hrd Hhdr Hmg. pose proof (frees_cons F i l p Hl) as Hp.
  assert (Hperm : frees (<[i:=p :: l]> F) ++ L ++ H0 ≡ₚ frees F ++ L ++ H).
  { rewrite Hp, HH. solve_Permutation. }
  assert (Hi : (i < length F)%nat) by by eapply lookup_lt_Some.
  pose proof HI as []. simpl in *. constructor; simpl; try done.
  - rewrite Nat2Z.id. apply Forall2_insert; [done|]. split; [done|]. exists h. split; [done|].
    eapply Forall2_lookup_lr; [exact bi_lists0|done..].
  - by rewrite length_insert.
  - intros q k Hq. rewrite Hp in Hq. apply elem_of_cons in Hq as [Hq|Hq]; [by simplify_eq|auto].
  - by rewrite Hperm.
  - eapply arena_perm; [|exact bi_arena0]. by rewrite Hperm.
Qed.

Lemma merged_add i l p :
  F !! i = Some l ->
  (forall r, bd_base b = Some r -> in_ext p (r, 2 ^ MAX_ORDER) -> MIN_ORDER + Z.of_nat i < MAX_ORDER ->
     (buddy_of p (MIN_ORDER + Z.of_nat i), MIN_ORDER + Z.of_nat i) ∉ frees F) ->
  (forall r, r ∈ rs -> r mod 2 ^ MAX_ORDER = 0) -> block_ok (p, MIN_ORDER + Z.of_nat i) ->
  merged b (<[i := p :: l]> F).
Proof.
  intros Hl Hno Hrs Hok r q k Hb Hr Hk Hq Hq'. pose proof (bi_merged _ _ _ _ _ _ HI) as Hmg. simpl in Hmg.
  rewrite (frees_cons F i l p Hl) in Hq, Hq'.
  assert (Hself : buddy_of p (MIN_ORDER + Z.of_nat i) <> p).
  { intros Hs. assert (Hlt : MIN_ORDER + Z.of_nat i < MAX_ORDER \/ k = MIN_ORDER + Z.of_nat i \/
      MIN_ORDER + Z.of_nat i = MAX_ORDER) by (destruct Hok as [Hok _]; simpl in Hok; lia).
    destruct (buddy_cases p (MIN_ORDER + Z.of_nat i)) as [[_ Hc]|[_ Hc]];
      [unfold MIN_ORDER; lia|apply Hok|..]; unfold buddy_of in Hs; rewrite Hc in Hs;
      pose proof (pow2_pos (MIN_ORDER + Z.of_nat i) ltac:(unfold MIN_ORDER; lia)); lia. }
  apply elem_of_cons in Hq as [Hq|Hq]; apply elem_of_cons in Hq' as [Hq'|Hq'].
  - simplify_eq. congruence.
  - simplify_eq. by eapply Hno.
  - simplify_eq. apply (Hno r); [done| |done|by rewrite buddy_of_invol].
    destruct (bi_base _ _ _ _ _ _ HI r Hb) as [Hrin _]. specialize (Hrs r Hrin).
    assert (Hqok : block_ok (q, MIN_ORDER + Z.of_nat i)).
    { apply (inv_block_ok _ _ _ _ _ _ HI). apply elem_of_app. by left. }
    destruct (buddy_of_ok _ _ Hqok Hk) as (Hb1 & Hb2 & Hb3). revert Hr Hqok Hb1 Hb2 Hb3 Hrs Hk.
    generalize (MIN_ORDER + Z.of_nat i). generalize (buddy_of q). clear. intros f k Hr Hqok Hb1 Hb2 Hb3 Hrs Hk.
    unfold in_ext, block_ok in *. simpl in *. destruct Hqok as [Hk' Hq]. split_orders; simpl in *; mlia.
  - by apply (Hmg r q k).
Qed.
End moves.

(** ** Splitting and merging held blocks *)

Lemma pow2_double k : MIN_ORDER < k -> 2 ^ k = 2 ^ (k - 1) + 2 ^ (k - 1).
Proof.
  unfold MIN_ORDER. intros. replace k with (k - 1 + 1) at 1 by lia. rewrite Z.pow_add_r by lia. lia.
Qed.

Lemma tiles_replace rs B B' C :
  tiles rs (B ++ C) -> (forall b, b ∈ B' -> block_ok b) ->
  (forall b, b ∈ B' -> exists r, r ∈ rs /\ sub_ext (block_ext b) (r, 2 ^ MAX_ORDER)) ->
  (forall b x, b ∈ B -> in_ext x (block_ext b) -> exists b', b' ∈ B' /\ in_ext x (block_ext b')) ->
  tiles rs (B' ++ C).
Proof.
  intros [] Hok Hin Hcov. constructor; [done|..].
  - intros b [Hb|Hb]%elem_of_app; [auto|]. apply tl_ok0, elem_of_app. by right.
  - intros b [Hb|Hb]%elem_of_app; [auto|]. apply tl_in0, elem_of_app. by right.
  - intros r x Hr Hx. destruct (tl_cover0 r x Hr Hx) as (b & [Hb|Hb]%elem_of_app & Hxb).
    + destruct (Hcov b x Hb Hxb) as (b' & ? & ?). exists b'. split; [apply elem_of_app; by left|done].
    + exists b. split; [apply elem_of_app; by right|done].
Qed.

Lemma tiles_split rs p k C :
  MIN_ORDER < k -> tiles rs ((p, k) :: C) -> tiles rs ((p, k - 1) :: (p + 2 ^ (k - 1), k - 1) :: C).
Proof.
  intros Hk Ht. pose proof (pow2_double k Hk) as H2.
  destruct (tl_ok _ _ Ht (p, k) (list_elem_of_here _ _)) as [Hk2 Hp]. simpl in *.
  destruct (tl_in _ _ Ht (p, k) (list_elem_of_here _ _)) as (r & Hr & Hsub).
  apply (tiles_replace rs [(p, k)] [(p, k - 1); (p + 2 ^ (k - 1), k - 1)] C Ht).
  - intros b [->|[->|[]%elem_of_nil]%elem_of_cons]%elem_of_cons; unfold block_ok; simpl;
      (split; [lia|]); split_orders; simpl in *; try lia; mlia.
  - intros b Hb. exists r. split; [done|]. unfold sub_ext, block_ext in *. simpl in *.
    pose proof (pow2_pos (k - 1) ltac:(unfold MIN_ORDER in *; lia)).
    apply elem_of_cons in Hb as [->|[->|[]%elem_of_nil]%elem_of_cons]; simpl; lia.
  - intros b x ->%list_elem_of_singleton. unfold in_ext, block_ext. simpl. intros Hx.
    destruct (decide (x < p + 2 ^ (k - 1))); [exists (p, k - 1)|exists (p + 2 ^ (k - 1), k - 1)];
      (split; [set_solver|simpl; lia]).
Qed.

Lemma tiles_merge rs p k C :
  k < MAX_ORDER -> tiles rs ((p, k) :: (buddy_of p k, k) :: C) ->
  tiles rs ((Z.min p (buddy_of p k), k + 1) :: C).
Proof.
  intros Hk Ht. pose proof (tl_ok _ _ Ht (p, k) (list_elem_of_here _ _)) as Hok.
  destruct (buddy_of_ok p k Hok Hk) as (Hb1 & Hb2 & Hb3).
  assert (H2 : 2 ^ (k + 1) = 2 ^ k + 2 ^ k).
  { rewrite (pow2_double (k + 1)) by (destruct Hok; simpl in *; lia). by rewrite Z.add_simpl_r. }
  apply (tiles_replace rs [(p, k); (buddy_of p k, k)] [(Z.min p (buddy_of p k), k + 1)] C Ht).
  - by intros b ->%list_elem_of_singleton.
  - intros b ->%list_elem_of_singleton.
    destruct (tl_in _ _ Ht (p, k) (list_elem_of_here _ _)) as (r & Hr & Hsub). exists r. split; [done|].
    pose proof (tl_region _ _ Ht r Hr) as Hra. destruct Hok as [Hk' Hp], Hb1 as [_ Hb1], Hb2 as [_ Hb2].
    unfold sub_ext, block_ext in *. simpl in *. revert Hb1 Hb2 Hb3 Hsub Hra Hp. clear Ht.
    generalize (buddy_of p k). intros q. split_orders; simpl; try lia; intros; mlia.
  - intros b x Hb Hx. eexists. split; [by apply list_elem_of_singleton|]. revert Hx.
    unfold in_ext, block_ext. apply elem_of_cons in Hb as [->| ->%list_elem_of_singleton]; simpl; lia.
Qed.

Lemma arena_join m a n1 n2 l : 0 <= n1 -> 0 <= n2 ->
  arena m ((a, n1) :: (a + n1, n2) :: l) -> arena m ((a, n1 + n2) :: l).
Proof.
  intros H1 H2 [(Hd1 & Hd2 & Hd3) Hok]. apply Forall_cons in Hok as [Ho1 Hok].
  apply Forall_cons in Hok as [Ho2 Hok]. apply Forall_cons in Hd1 as [_ Hd1].
  unfold ext_ok in Ho1, Ho2. simpl in *. split; constructor; try done.
  - rewrite Forall_forall in *. intros e He x Hx Hxe. unfold in_ext in Hx. simpl in Hx.
    destruct (decide (x < a + n1)); [apply (Hd1 e He x)|apply (Hd2 e He x)]; unfold in_ext; simpl; (lia || done).
  - unfold ext_ok. simpl. destruct Ho1 as (? & ? & ? & ? & Ha1), Ho2 as (_ & _ & _ & ? & Ha2).
    split_and!; try lia. intros i Hi. destruct (decide (i < a + n1)); [apply Ha1|apply Ha2]; lia.
Qed.

Lemma inv_geometry x rs F L H H' X :
  Buddy_inv x rs F L H X ->
  (forall C, tiles rs (H ++ C) -> tiles rs (H' ++ C)) ->
  (forall E, arena x.1 ((block_ext <$> H) ++ E) -> arena x.1 ((block_ext <$> H') ++ E)) ->
  Buddy_inv x rs F L H' X.
Proof.
  intros [] Ht Ha. constructor; try done.
  - assert (Hp : forall H, frees F ++ L ++ H ≡ₚ H ++ (frees F ++ L)) by (intros; solve_Permutation).
    rewrite Hp in *. auto.
  - eapply arena_perm; [|apply (Ha ((block_ext <$> frees F ++ L) ++ X))].
    + rewrite !fmap_app. solve_Permutation.
    + eapply arena_perm; [|exact bi_arena0]. rewrite !fmap_app. solve_Permutation.
Qed.

Lemma inv_split x rs F L p k H X :
  MIN_ORDER < k -> Buddy_inv x rs F L ((p, k) :: H) X ->
  Buddy_inv x rs F L ((p, k - 1) :: (p + 2 ^ (k - 1), k - 1) :: H) X.
Proof.
  intros Hk HI. pose proof (pow2_double k Hk) as H2.
  assert (Hok : block_ok (p, k)) by (apply (inv_block_ok _ _ _ _ _ _ HI); rewrite !elem_of_app; set_solver).
  assert (Hpos : 0 < 2 ^ (k - 1)) by (apply pow2_pos; unfold MIN_ORDER in *; lia).
  eapply inv_geometry; [exact HI|..].
  - intros C HC. by apply (tiles_split rs p k).
  - intros E HE. simpl in *.
    apply (arena_refine _ _ _ [block_ext (p, k - 1); block_ext (p + 2 ^ (k - 1), k - 1)]) in HE; [exact HE| |].
    + split; [|done]. constructor; [|done]. apply ext_disj_intro. simpl. lia.
    + assert (Hm : p mod 16 = 0 /\ 2 ^ (k - 1) mod 16 = 0).
      { destruct Hok as [Hk2 Hp]. simpl in *. split_orders; simpl in *; try lia; split; mlia. }
      unfold sub_ext, block_ext. repeat constructor; simpl; try lia; mlia.
Qed.

Lemma inv_merge x rs F L p k H X :
  k < MAX_ORDER -> Buddy_inv x rs F L ((p, k) :: (buddy_of p k, k) :: H) X ->
  Buddy_inv x rs F L ((Z.min p (buddy_of p k), k + 1) :: H) X.
Proof.
  intros Hk HI.
  assert (Hok : block_ok (p, k)) by (apply (inv_block_ok _ _ _ _ _ _ HI); rewrite !elem_of_app; set_solver).
  destruct (buddy_of_ok p k Hok Hk) as (_ & _ & Hb).
  assert (H2 : 2 ^ (k + 1) = 2 ^ k + 2 ^ k).
  { rewrite (pow2_double (k + 1)) by (destruct Hok; simpl in *; lia). by rewrite Z.add_simpl_r. }
  assert (Hpos : 0 < 2 ^ k) by (apply pow2_pos; destruct Hok; unfold MIN_ORDER in *; simpl in *; lia).
  eapply inv_geometry; [exact HI|..].
  - intros C. apply tiles_merge. done.
  - intros E HE. simpl in *. unfold block_ext in *. simpl in *. rewrite H2.
    destruct Hb as [Hb|Hb]; rewrite Hb in *.
    + rewrite Z.min_l by lia. by apply arena_join in HE; [|lia..].
    + rewrite Z.min_r by lia. apply arena_join; [lia..|].
      replace (p - 2 ^ k + 2 ^ k) with p by lia. eapply arena_perm; [|exact HE]. solve_Permutation.
Qed.

(** The buddy of a block is a block, of the same order or smaller. *)
Lemma buddy_is_block x rs F L H X p k :
  Buddy_inv x rs F L H X -> (p, k) ∈ frees F ++ L ++ H -> k < MAX_ORDER ->
  exists j, (buddy_of p k, j) ∈ frees F ++ L ++ H /\ j <= k.
Proof.
  intros HI Hin Hk. pose proof (bi_tiles _ _ _ _ _ _ HI) as Ht.
  pose proof (tl_ok _ _ Ht _ Hin) as Hok. destruct (buddy_of_ok p k Hok Hk) as (Hb1 & Hb2 & Hb3).
  destruct (tl_in _ _ Ht _ Hin) as (r & Hr & Hsub). pose proof (tl_region _ _ Ht r Hr) as Hra.
  destruct (tl_cover _ _ Ht r (buddy_of p k)) as ([s j] & Hs & Hx); [done| |].
  { destruct Hok as [Hk' Hp], Hb1 as [_ Hb1], Hb2 as [_ Hb2]. simpl in *.
    revert Hk' Hk Hb1 Hb2 Hb3 Hsub Hra Hp. unfold in_ext, sub_ext, block_ext.
    generalize (buddy_of p k). clear. simpl. intros q Hk' Hk. split_orders; simpl; try lia; intros; mlia. }
  pose proof (tl_ok _ _ Ht _ Hs) as Hsok.
  assert (Hqx : in_ext (buddy_of p k) (block_ext (buddy_of p k, k))).
  { pose proof (free_ext_16 _ Hb1). unfold in_ext, block_ext. simpl in *. lia. }
  destruct (decide (j <= k)) as [Hj|Hj].
  - exists j. split; [|done]. replace (buddy_of p k) with s; [done|].
    pose proof (blocks_laminar s j (buddy_of p k) k _ Hsok Hb1 Hj Hx Hqx) as [H1 _].
    unfold in_ext, block_ext in *. simpl in *. lia.
  - exfalso. assert (Hmin : in_ext (buddy_of p k) (block_ext (Z.min p (buddy_of p k), k + 1)) /\
                            in_ext p (block_ext (Z.min p (buddy_of p k), k + 1))).
    { unfold in_ext, block_ext. simpl. rewrite (pow2_double (k + 1)), Z.add_simpl_r by (destruct Hok; simpl in *; lia).
      pose proof (free_ext_16 _ Hok). simpl in *. lia. }
    pose proof (blocks_laminar _ (k + 1) s j _ Hb2 Hsok ltac:(lia) (proj1 Hmin) Hx) as [Hl1 Hl2].
    destruct x as [m b]. assert ((p, k) = (s, j)) as He; [|simplify_eq; lia].
    apply (inv_overlap_eq m b _ _ _ _ _ HI _ _ p Hin Hs).
    + by apply (block_start m b _ _ _ _ _ HI (p, k)).
    + destruct Hmin as [_ Hm]. unfold in_ext, block_ext in *. simpl in *. lia.
Qed.

(** ** Operations on held blocks *)

Section held.
Context `{K : Kernel}.
#[local] Existing Instance BlockHeader_link.
Context (b : BuddyAllocator) (rs : list Z) (L X : list (Z * Z)).

Lemma held_in (F : list (list Z)) (H : list (Z * Z)) c : c ∈ H -> c ∈ frees F ++ L ++ H.
Proof. rewrite !elem_of_app. tauto. Qed.

(** A write of [n] bytes at offset [o] of a held block. *)
Lemma held_change m m' F H a k o n :
  Buddy_inv (m, b) rs F L H X -> (a, k) ∈ H -> 0 <= o -> o + n <= 16 -> changes_only m m' (a + o) n ->
  Buddy_inv (m', b) rs F L H X /\ same_bytes (owned L X) m m'.
Proof.
  intros HI Ha Ho Hn Hch. pose proof (free_ext_16 _ (inv_block_ok _ _ _ _ _ _ HI _ (held_in F H _ Ha))) as H16.
  simpl in H16. assert (Hch' : changes_only m m' a (2 ^ k)) by (eapply changes_only_weaken; [exact Hch|lia|lia]).
  split; [exact (inv_held_write _ _ _ _ _ _ HI a k m' Ha Hch')|].
  apply (inv_owned_bytes _ _ _ _ _ _ HI a k m'); [apply elem_of_app; by right|done].
Qed.

Lemma store_header_wp m F H a k o v (Q : unit -> buddy_state -> Prop) :
  Buddy_inv (m, b) rs F L H X -> (a, k) ∈ H -> 0 <= o < 16 -> 0 <= v < 256 ->
  (forall m', Buddy_inv (m', b) rs F L H X -> same_bytes (owned L X) m m' ->
     load8 m' (a + o) = Some v -> changes_only m m' (a + o) 1 -> Q tt (m', b)) ->
  wp (buddy_mem (update_mem (fun m => store8 m (a + o) v))) Q (m, b).
Proof.
  intros HI Ha Ho Hv HQ. destruct (store8_total m (a + o) v) as [m' Hm'].
  { apply (inv_header_accessible _ _ _ _ _ _ HI _ (held_in F H _ Ha)). simpl. lia. }
  pose proof (store8_changes _ _ _ _ Hm') as Hch.
  destruct (held_change m m' F H a k o 1) as [HI' Hsb]; [done|done|lia|lia|done|].
  eapply wp_zoom; [done|]. exists tt, m'. unfold update_mem. cbn [fst]. rewrite Hm'. split; [done|].
  apply HQ; [done|done| |done]. rewrite (load8_store8 _ _ _ _ _ Hm'), decide_True by done.
  by rewrite Z.mod_small.
Qed.

Lemma set_order_wp m F H a k o (Q : unit -> buddy_state -> Prop) :
  Buddy_inv (m, b) rs F L H X -> (a, k) ∈ H -> MIN_ORDER <= o <= MAX_ORDER ->
  (forall m', Buddy_inv (m', b) rs F L H X -> same_bytes (owned L X) m m' ->
     load8 m' a = Some o -> changes_only m m' a 1 -> Q tt (m', b)) ->
  wp (set_order a o) Q (m, b).
Proof.
  intros HI Ha Ho HQ. unfold MIN_ORDER, MAX_ORDER in Ho. unfold set_order, as_u8.
  rewrite (Z.mod_small o) by lia. rewrite <- (Z.add_0_r a).
  apply (store_header_wp m F H a k 0 o Q HI Ha); [lia..|]. rewrite Z.add_0_r. exact HQ.
Qed.

Lemma set_is_free_wp m F H a k (f : bool) (Q : unit -> buddy_state -> Prop) :
  Buddy_inv (m, b) rs F L H X -> (a, k) ∈ H ->
  (forall m', Buddy_inv (m', b) rs F L H X -> same_bytes (owned L X) m m' ->
     load8 m' (a + 1) = Some (if f then 1 else 0) -> changes_only m m' (a + 1) 1 -> Q tt (m', b)) ->
  wp (set_is_free a f) Q (m, b).
Proof. intros HI Ha HQ. apply (store_header_wp m F H a k 1); [done|done|lia|by destruct f|done]. Qed.

Lemma set_next_held_wp m F H a k v (Q : unit -> buddy_state -> Prop) :
  Buddy_inv (m, b) rs F L H X -> (a, k) ∈ H -> link_valid v ->
  (forall m', Buddy_inv (m', b) rs F L H X -> same_bytes (owned L X) m m' ->
     link_read m' a = Some v -> changes_only m m' (a + 8) 8 -> Q tt (m', b)) ->
  wp (set_next a v) Q (m, b).
Proof.
  intros HI Ha Hv HQ. apply set_next_wp; [|done|].
  - apply (inv_header_accessible _ _ _ _ _ _ HI _ (held_in F H _ Ha)).
  - intros m' Hch Hrd. destruct (held_change m m' F H a k 8 8) as [HI' Hsb]; [done|done|lia|lia|done|]. by apply HQ.
Qed.

Lemma changes_only_load8 m m' a n (i : Z) : changes_only m m' a n -> ~ (a <= i < a + n) -> load8 m' i = load8 m i.
Proof. intros [Hch _]. apply Hch. Qed.

(** A whole header, with no next block. *)
Lemma write_header_wp m F H a k o (Q : unit -> buddy_state -> Prop) :
  Buddy_inv (m, b) rs F L H X -> (a, k) ∈ H -> MIN_ORDER <= o <= MAX_ORDER ->
  (forall m', Buddy_inv (m', b) rs F L H X -> same_bytes (owned L X) m m' ->
     header_is m' a o true -> link_read m' a = Some None ->
     (forall i, ~ (a <= i < a + 16) -> load8 m' i = load8 m i) -> Q tt (m', b)) ->
  wp (write_header a {| bh_order := o; bh_is_free := true; bh_next := None |}) Q (m, b).
Proof.
  intros HI Ha Ho HQ. unfold write_header. simpl. apply wp_bind.
  apply (set_order_wp m F H a k); [done..|]. intros m1 HI1 Hs1 Ho1 Hc1. apply wp_bind.
  apply (set_is_free_wp m1 F H a k); [done..|]. intros m2 HI2 Hs2 Hf2 Hc2.
  apply (set_next_held_wp m2 F H a k); [done|done|done|]. intros m3 HI3 Hs3 Hn3 Hc3.
  apply HQ; [done|eauto using same_bytes_trans| |done|].
  - split.
    + rewrite (changes_only_load8 _ _ _ _ _ Hc3), (changes_only_load8 _ _ _ _ _ Hc2) by lia. done.
    + rewrite (changes_only_load8 _ _ _ _ _ Hc3) by lia. done.
  - intros i Hi. rewrite (changes_only_load8 _ _ _ _ _ Hc3), (changes_only_load8 _ _ _ _ _ Hc2),
      (changes_only_load8 _ _ _ _ _ Hc1) by lia. done.
Qed.

(** [F'] is [F] with one more free block. *)
Lemma push_front_wp m F H p k (Q : unit -> buddy_state -> Prop) :
  Buddy_inv (m, b) rs F L ((p, k) :: H) X -> header_is m p k true ->
  (forall r, bd_base b = Some r -> in_ext p (r, 2 ^ MAX_ORDER) -> k < MAX_ORDER -> (buddy_of p k, k) ∉ frees F) ->
  (forall m' b' F', Buddy_inv (m', b') rs F' L H X -> same_bytes (owned L X) m m' ->
     frees F' ≡ₚ (p, k) :: frees F -> bd_base b' = bd_base b -> bd_region_size b' = bd_region_size b ->
     (forall i, ~ (p <= i < p + 16) -> load8 m' i = load8 m i) -> Q tt (m', b')) ->
  wp (push_front (k - MIN_ORDER) p) Q (m, b).
Proof.
  intros HI Hh Hno HQ.
  pose proof (inv_block_ok _ _ _ _ _ _ HI (p, k) ltac:(apply held_in; by left)) as [Hk Hpa]. simpl in Hk, Hpa.
  set (i := Z.to_nat (k - MIN_ORDER)). assert (Hik : MIN_ORDER + Z.of_nat i = k) by lia.
  destruct (lookup_lt_is_Some_2 F i) as [l Hl].
  { rewrite (bi_len _ _ _ _ _ _ HI). unfold NUM_ORDERS. lia. }
  destruct (inv_list_at _ _ _ _ _ _ _ HI i l Hl) as (h & Hlh & Hfl).
  apply wp_bind. apply (get_free_list_wp _ h); [apply arr_get_lookup; split; [lia|done]|].
  apply wp_bind. apply (set_next_held_wp m F ((p, k) :: H) p k); [done|by left| |].
  { eapply free_list_valid; [|exact Hfl]. by eapply inv_list_apart. }
  intros m1 HI1 Hs1 Hn1 Hc1. apply set_free_list_wp.
  { apply lookup_lt_Some in Hlh. lia. }
  rewrite <- Hik. replace (MIN_ORDER + Z.of_nat i - MIN_ORDER) with (Z.of_nat i) by lia.
  apply (HQ m1 _ (<[i := p :: l]> F)); [|done| |done|done|].
  - eapply (inv_link m1 b rs F L _ X HI1 i l h p H); [by rewrite Hik|done|done|done| |].
    + rewrite Hik. split; rewrite (changes_only_load8 _ _ _ _ _ Hc1) by lia; apply Hh.
    + eapply (merged_add m1 b rs F L _ X HI1); [done| | |].
      * intros r Hb Hr Hlt. rewrite Hik in *. by apply (Hno r).
      * apply (tl_region _ _ (bi_tiles _ _ _ _ _ _ HI)).
      * rewrite Hik. split; done.
  - rewrite (frees_cons F i l p Hl), Hik. done.
  - intros j Hj. apply (changes_only_load8 _ _ _ _ _ Hc1). lia.
Qed.
End held.

(** ** Allocation *)

Lemma find_order_spec lists n : forall idx,
  0 <= idx -> idx + Z.of_nat n = Z.of_nat (length lists) ->
  let r := find_order n idx lists in
  idx <= r /\
  ((r = Z.of_nat (length lists) /\ forall j, idx <= j < r -> lists !! Z.to_nat j = Some None) \/
   (r < Z.of_nat (length lists) /\ exists p, lists !! Z.to_nat r = Some (Some p))).
Proof.
  induction n as [|n IH]; intros idx Hi Hn; simpl.
  - split; [lia|]. left. split; [lia|]. intros j Hj. lia.
  - destruct (arr_get_total lists idx) as [o Ho]; [lia|]. rewrite Ho.
    apply arr_get_lookup in Ho as [_ Ho]. destruct o as [p|]; simpl.
    + split; [lia|]. right. split; [lia|]. eauto.
    + destruct (IH (idx + 1)) as [Hle Hc]; [lia|lia|]. split; [lia|].
      destruct Hc as [[Hr Hall]|Hc]; [left|by right]. split; [done|]. intros j Hj.
      destruct (decide (j = idx)) as [->|]; [done|]. apply Hall. lia.
Qed.

Section alloc.
Context `{K : Kernel} {KS : KernelSpec K}.
#[local] Existing Instance BlockHeader_link.

Lemma order_usize o : MIN_ORDER <= o <= MAX_ORDER -> o -! MIN_ORDER = o - MIN_ORDER /\ o -! 1 = o - 1 /\
  o +! 1 = o + 1 /\ shl64 1 o = 2 ^ o /\ shl64 1 (o - 1) = 2 ^ (o - 1) /\
  trailing_zeros (2 ^ o) = o.
Proof. intros Ho. split_orders; by vm_compute. Qed.

(** A block that is held is not free. *)
Lemma held_not_free x rs F L H X p k j :
  Buddy_inv x rs F L ((p, k) :: H) X -> (p, j) ∉ frees F.
Proof.
  intros HI Hf. pose proof (inv_held_apart _ _ _ _ _ _ HI p k (p, j)) as Hd.
  specialize (Hd ltac:(by left) ltac:(apply elem_of_app; by left)). destruct x as [m b].
  apply (Hd p); [apply (block_start m b _ _ _ _ _ HI (p, k)); apply held_in; by left|].
  apply (block_start m b _ _ _ _ _ HI (p, j)). apply elem_of_app. by left.
Qed.

Lemma buddy_of_upper p k : MIN_ORDER < k -> block_ok (p, k) -> buddy_of (p + 2 ^ (k - 1)) (k - 1) = p.
Proof.
  intros Hk [Hk2 Hp]. simpl in *. unfold buddy_of.
  destruct (buddy_cases (p + 2 ^ (k - 1)) (k - 1)) as [[Hc He]|[Hc He]];
    [unfold MIN_ORDER in *; lia| |exfalso|lia].
  - split_orders; simpl in *; try lia; mlia.
  - rewrite Z.sub_add in Hc. split_orders; simpl in *; try lia; mlia.
Qed.

(** What stays the same while blocks move. *)
Definition same_region (b b' : BuddyAllocator) : Prop :=
  bd_base b' = bd_base b /\ bd_region_size b' = bd_region_size b.

Lemma split_loop_wp rs L X p H to n : forall m b F k (Q : unit -> buddy_state -> Prop),
  Buddy_inv (m, b) rs F L ((p, k) :: H) X -> load8 m p = Some k -> k = to + Z.of_nat n -> MIN_ORDER <= to ->
  (forall m' b' F', Buddy_inv (m', b') rs F' L ((p, to) :: H) X -> same_bytes (owned L X) m m' ->
     load8 m' p = Some to -> same_region b b' -> Q tt (m', b')) ->
  wp (split_loop n p k) Q (m, b).
Proof.
  induction n as [|n IH]; intros m b F k Q HI Ho Hk Hto HQ; simpl split_loop.
  - apply wp_ret. replace to with k in * by lia. by apply (HQ m b F).
  - assert (Hok : block_ok (p, k)) by (apply (inv_block_ok _ _ _ _ _ _ HI), held_in; by left).
    assert (Hk2 : MIN_ORDER <= k <= MAX_ORDER) by apply Hok.
    destruct (order_usize k Hk2) as (Hw1 & Hw2 & _ & _ & Hw4 & _). rewrite Hw2, Hw1, Hw4.
    replace (k - MIN_ORDER -! 1) with (k - 1 - MIN_ORDER)
      by (rewrite wrap64_small; unfold is_usize, MIN_ORDER, MAX_ORDER in *; lia).
    assert (Hlt : MIN_ORDER < k) by lia. pose proof (inv_split _ _ _ _ _ _ _ _ Hlt HI) as HI0. set (q := p + 2 ^ (k - 1)) in *.
    apply wp_bind. eapply (write_header_wp b rs L X m F _ q (k - 1)); [exact HI0|right; by left|lia|].
    intros m1 HI1 Hs1 Hh1 _ Hc1. apply wp_bind.
    eapply (set_order_wp b rs L X m1 F _ p (k - 1)); [exact HI1|by left|lia|].
    intros m2 HI2 Hs2 Ho2 Hc2.
    apply wp_bind. assert (Hpq : p + 16 <= q).
    { subst q. split_orders; simpl in *; lia. }
    eapply inv_perm in HI2; [|done|apply Permutation_swap].
    apply (push_front_wp b rs L X m2 F ((p, k - 1) :: H) q (k - 1)); [exact HI2| | |].
    + split; rewrite (changes_only_load8 _ _ _ _ _ Hc2) by lia; apply Hh1.
    + intros r _ _ _. unfold q. rewrite buddy_of_upper by (done || lia).
      eapply (held_not_free _ rs F L _ X p (k - 1)). eapply inv_perm; [done|apply Permutation_swap|exact HI2].
    + intros m3 b3 F3 HI3 Hs3 _ Hb3 Hz3 Hc3.
      apply (IH m3 b3 F3 (k - 1)); [done| |lia|done|].
      * rewrite Hc3 by lia. done.
      * intros m4 b4 F4 HI4 Hs4 Ho4 [Hb4 Hz4]. apply (HQ m4 b4 F4); [done| |done|split; congruence].
        eauto using same_bytes_trans.
Qed.

(** The block that serves a request. *)
Lemma take_block_wp m b rs F L X found order p l (Q : option Z -> buddy_state -> Prop) :
  Buddy_inv (m, b) rs F L [] X -> MIN_ORDER <= order -> order <= found <= MAX_ORDER ->
  F !! Z.to_nat (found - MIN_ORDER) = Some (p :: l) ->
  (forall m' b' F', Buddy_inv (m', b') rs F' ((p, order) :: L) [] X -> same_bytes (owned L X) m m' ->
     same_region b b' -> Q (Some (p + BLOCK_HEADER_SIZE)) (m', b')) ->
  wp (take_block (found - MIN_ORDER) (order - MIN_ORDER) order) Q (m, b).
Proof.
  intros HI Ho Hf Hl HQ. set (i := Z.to_nat (found - MIN_ORDER)) in *.
  assert (Hi : found - MIN_ORDER = Z.of_nat i) by lia.
  destruct (inv_list_at _ _ _ _ _ _ _ HI i _ Hl) as (h & Hh & Hfl).
  destruct Hfl as (-> & nx & Hnx & Hfl').
  destruct (bi_free _ _ _ _ _ _ HI p (MIN_ORDER + Z.of_nat i)) as [Hord Hfree].
  { eapply list_free_elem; [exact Hl|by left]. }
  pose proof (inv_unlink m b rs F L [] X HI i [] p l m nx Hl Hfl' (or_introl eq_refl)) as HI1.
  unfold take_block. apply wp_bind. apply (get_free_list_wp _ (Some p)).
  { apply arr_get_lookup. rewrite Hi, Nat2Z.id. split; [lia|done]. }
  apply wp_bind. apply (wp_or_fault _ p); [done|]. apply wp_bind. apply (get_next_wp _ nx); [done|].
  apply wp_bind. apply set_free_list_wp. { apply lookup_lt_Some in Hh. lia. }
  rewrite Hi. replace (MIN_ORDER + Z.of_nat i) with found in * by lia. simpl app in HI1.
  set (b1 := with_list b (Z.of_nat i) nx) in *.
  assert (Hsplit : forall (Q : unit -> buddy_state -> Prop),
    (forall m' b' F', Buddy_inv (m', b') rs F' L [(p, order)] X -> same_bytes (owned L X) m m' ->
       load8 m' p = Some order -> same_region b1 b' -> Q tt (m', b')) ->
    wp (if order - MIN_ORDER <? Z.of_nat i then split p (Z.of_nat i +! MIN_ORDER) order else mret tt) Q (m, b1)).
  { intros Q' HQ'. destruct (Z.ltb_spec (order - MIN_ORDER) (Z.of_nat i)) as [Hlt|Hge].
    - unfold split. replace (Z.of_nat i +! MIN_ORDER) with found.
      + apply (split_loop_wp rs L X p [] order _ m b1 (<[i := l]> F) found); [exact HI1|done|lia|lia|done].
      + rewrite wrap64_small; [lia|]. unfold is_usize, MIN_ORDER, MAX_ORDER in *. lia.
    - replace order with found in * by lia. apply wp_ret. by apply (HQ' m b1 (<[i := l]> F)). }
  apply wp_bind, Hsplit. intros m2 b2 F2 HI2 Hs2 Ho2 Hr2.
  apply wp_bind. eapply (set_is_free_wp b2 rs L X m2 F2 _ p order); [exact HI2|by left|].
  intros m3 HI3 Hs3 Hf3 Hc3. apply wp_bind.
  eapply (set_next_held_wp b2 rs L X m3 F2 _ p order); [exact HI3|by left|done|].
  intros m4 HI4 Hs4 _ Hc4. apply wp_ret. apply (HQ m4 b2 F2); [| |done].
  - apply inv_release; [|exact HI4]. split; cbn [fst].
    + rewrite (changes_only_load8 _ _ _ _ _ Hc4), (changes_only_load8 _ _ _ _ _ Hc3) by lia. done.
    + rewrite (changes_only_load8 _ _ _ _ _ Hc4) by lia. done.
  - eauto using same_bytes_trans.
Qed.

(** The next region the kernel would map is aligned to its size. *)
Definition region_aligned (m : memory) : Prop :=
  forall p m', kernel_mmap m (2 ^ MAX_ORDER) = Some (p, m') -> p mod 2 ^ MAX_ORDER = 0.

(** A new region is one held block. *)
Lemma inv_new_region m m' b rs F L X p :
  Buddy_inv (m, b) rs F L [] X -> fresh_mapping m m' p (2 ^ MAX_ORDER) -> p mod 2 ^ MAX_ORDER = 0 ->
  Buddy_inv (m', {| bd_free_lists := bd_free_lists b; bd_base := Some p; bd_region_size := 2 ^ MAX_ORDER |})
    (p :: rs) F L [(p, MAX_ORDER)] X.
Proof.
  intros HI Hfm Hal. pose proof (fresh_mapping_extends _ _ _ _ Hfm) as Hx.
  assert (Har : arena m' ((p, 2 ^ MAX_ORDER) :: (block_ext <$> frees F ++ L) ++ X)).
  { apply (fresh_mapping_arena m); [done|done|]. pose proof (bi_arena _ _ _ _ _ _ HI) as Ha.
    by rewrite !app_nil_r in Ha. }
  assert (Hagree : forall c, c ∈ frees F ++ L -> agree_on m m' c.1 16).
  { intros c Hc i Hi. symmetry. apply Hx. apply (inv_header_accessible _ _ _ _ _ _ HI c); [|done].
    by rewrite app_nil_r. }
  assert (Hperm : frees F ++ L ++ [(p, MAX_ORDER)] ≡ₚ (p, MAX_ORDER) :: (frees F ++ L)) by solve_Permutation.
  pose proof HI as []. rewrite app_nil_r in bi_tiles0. cbn [fst snd] in *. constructor; cbn [fst snd]; try done.
  - apply Forall2_same_length_lookup. split; [by eapply Forall2_length|]. intros i h l Hh HF.
    eapply free_list_agree; [|eapply Forall2_lookup_lr; [exact bi_lists0|done..]]. intros q Hq.
    apply (Hagree (q, MIN_ORDER + Z.of_nat i)). apply elem_of_app. left. by eapply list_free_elem.
  - intros q k Hq. destruct (bi_free0 q k Hq). pose proof (Hagree (q, k) ltac:(apply elem_of_app; by left)) as Ha.
    simpl in Ha. split; rewrite <- Ha by lia; done.
  - intros q k Hq. destruct (bi_live0 q k Hq). pose proof (Hagree (q, k) ltac:(apply elem_of_app; by right)) as Ha.
    simpl in Ha. split; rewrite <- Ha by lia; done.
  - rewrite Hperm. destruct bi_tiles0. constructor.
    + intros r [->|Hr]%elem_of_cons; auto.
    + intros c [->|Hc]%elem_of_cons; [|auto]. split; [done|exact Hal].
    + intros c [->|Hc]%elem_of_cons.
      * exists p. split; [by left|]. unfold sub_ext, block_ext. simpl. lia.
      * destruct (tl_in0 c Hc) as (r & ? & ?). exists r. split; [by right|done].
    + intros r y [->|Hr]%elem_of_cons Hy.
      * exists (p, MAX_ORDER). split; [by left|done].
      * destruct (tl_cover0 r y Hr Hy) as (c & ? & ?). exists c. split; [by right|done].
  - eapply arena_perm; [|exact Har]. rewrite Hperm. done.
  - intros r Hr. simpl in Hr. simplify_eq. destruct Hfm as (? & _ & ? & _). simpl.
    split_and!; [by left|done|done|done].
  - intros r q k Hr Hq Hk Hqf. simpl in Hr. simplify_eq. exfalso.
    eapply (arena_disj _ _ _ (block_ext (q, k)) Har) with q; [|done|].
    + apply elem_of_app. left. apply list_elem_of_fmap_2, elem_of_app. by left.
    + apply (block_start m b _ _ _ _ _ HI (q, k)). apply elem_of_app. by left.
Qed.

Lemma init_wp m b rs F L X p (Q : unit -> buddy_state -> Prop) :
  Buddy_inv (m, {| bd_free_lists := bd_free_lists b; bd_base := Some p; bd_region_size := 2 ^ MAX_ORDER |})
    rs F L [(p, MAX_ORDER)] X ->
  F !! Z.to_nat (MAX_ORDER - MIN_ORDER) = Some [] ->
  (forall m' b', Buddy_inv (m', b') rs (<[Z.to_nat (MAX_ORDER - MIN_ORDER) := [p]]> F) L [] X ->
     same_bytes (owned L X) m m' -> Q tt (m', b')) ->
  wp (BuddyAllocator_init p (2 ^ MAX_ORDER)) Q (m, b).
Proof.
  intros HI HF HQ. set (b1 := {| bd_free_lists := bd_free_lists b; bd_base := _; bd_region_size := _ |}) in HI.
  unfold BuddyAllocator_init. apply wp_bind, wp_modify. cbn [fst snd]. fold b1.
  change (clamp (trailing_zeros (2 ^ MAX_ORDER)) MIN_ORDER MAX_ORDER) with MAX_ORDER.
  change (MAX_ORDER -! MIN_ORDER) with (Z.of_nat 4). apply wp_bind.
  eapply (write_header_wp b1 rs L X m F [(p, MAX_ORDER)] p MAX_ORDER); [exact HI|by left|done|].
  intros m1 HI1 Hs1 Hh1 Hn1 _. destruct (inv_list_at _ _ _ _ _ _ _ HI1 4%nat [] HF) as (h & Hh & ->).
  apply set_free_list_wp; [apply lookup_lt_Some in Hh; lia|].
  eapply HQ; [|done]. eapply (inv_link m1 b1 rs F L _ X HI1 4 []); try done.
  apply (merged_add m1 b1 rs F L _ X HI1); [done| | |].
  - intros r _ _ Hlt. by unfold MIN_ORDER, MAX_ORDER in Hlt.
  - apply (tl_region _ _ (bi_tiles _ _ _ _ _ _ HI)).
  - apply (inv_block_ok _ _ _ _ _ _ HI). apply held_in. by left.
Qed.

(** What [alloc] promises of a request of order [order]. *)
Definition buddy_alloc_post (x : buddy_state) (F : list (list Z)) (L X : list (Z * Z)) (order : Z)
    (r : option Z) (x' : buddy_state) : Prop :=
  same_bytes (owned L X) x.1 x'.1 /\
  match r with
  | Some u => exists rs' F', Buddy_inv x' rs' F' ((u - BLOCK_HEADER_SIZE, order) :: L) [] X
  | None => x' = x /\ kernel_mmap x.1 (2 ^ MAX_ORDER) = None /\ forall p k, (p, k) ∈ frees F -> k < order
  end.

Lemma find_free m b rs F L X order :
  Buddy_inv (m, b) rs F L [] X -> MIN_ORDER <= order <= MAX_ORDER ->
  let r := find_order (Z.to_nat (NUM_ORDERS - (order - MIN_ORDER))) (order - MIN_ORDER) (bd_free_lists b) in
  (r = NUM_ORDERS /\ forall j, order <= j <= MAX_ORDER -> F !! Z.to_nat (j - MIN_ORDER) = Some []) \/
  (exists found p l, r = found - MIN_ORDER /\ order <= found <= MAX_ORDER /\
     F !! Z.to_nat (found - MIN_ORDER) = Some (p :: l)).
Proof.
  intros HI Ho. pose proof (bi_lists _ _ _ _ _ _ HI) as Hls. pose proof (bi_len _ _ _ _ _ _ HI) as Hlen.
  pose proof (Forall2_length _ _ _ Hls) as Hl5. rewrite Hlen in Hl5. cbn [fst snd] in *.
  assert (Hlen5 : Z.of_nat (length (bd_free_lists b)) = NUM_ORDERS) by (rewrite Hl5; done).
  destruct (find_order_spec (bd_free_lists b) (Z.to_nat (NUM_ORDERS - (order - MIN_ORDER))) (order - MIN_ORDER))
    as [Hle [[Hr Hall]|[Hr [p Hp]]]]; [lia|unfold NUM_ORDERS in *; lia|..]; cbv zeta in *;
    rewrite Hlen5 in Hr.
  - left. split; [done|]. intros j Hj. specialize (Hall (j - MIN_ORDER) ltac:(unfold NUM_ORDERS in *; lia)).
    destruct (Forall2_lookup_l _ _ _ _ _ Hls Hall) as (l & Hl & Hf). by rewrite Hl, (free_list_None _ _ Hf).
  - right. set (r := find_order _ _ _) in *. destruct (Forall2_lookup_l _ _ _ _ _ Hls Hp) as (l & Hl & Hf).
    destruct (free_list_Some _ _ _ Hf) as (l' & nx & -> & _). exists (r + MIN_ORDER), p, l'.
    replace (r + MIN_ORDER - MIN_ORDER) with r by lia. unfold NUM_ORDERS in Hr. split_and!; [done|lia|lia|done].
Qed.

Lemma alloc_found_wp fuel m b rs F L X order found p l (Q : option Z -> buddy_state -> Prop) :
  Buddy_inv (m, b) rs F L [] X -> MIN_ORDER <= order <= MAX_ORDER ->
  find_order (Z.to_nat (NUM_ORDERS - (order - MIN_ORDER))) (order - MIN_ORDER) (bd_free_lists b) = found - MIN_ORDER ->
  order <= found <= MAX_ORDER -> F !! Z.to_nat (found - MIN_ORDER) = Some (p :: l) ->
  (forall m' b' F', Buddy_inv (m', b') rs F' ((p, order) :: L) [] X -> same_bytes (owned L X) m m' ->
     Q (Some (p + BLOCK_HEADER_SIZE)) (m', b')) ->
  wp (BuddyAllocator_alloc (S fuel) (2 ^ order)) Q (m, b).
Proof.
  intros HI Ho Hr Hfo Hl HQ. destruct (order_usize order Ho) as (Hw & _ & _ & _ & _ & Htz).
  simpl BuddyAllocator_alloc. rewrite Htz.
  replace ((MIN_ORDER <=? order) && (order <=? MAX_ORDER)) with true by lia. simpl negb. cbv iota zeta.
  rewrite Hw. apply wp_bind, wp_gets. cbn [fst snd]. rewrite Hr.
  destruct (Z.leb_spec NUM_ORDERS (found - MIN_ORDER)); [unfold NUM_ORDERS in *; lia|].
  apply (take_block_wp m b rs F L X found order p l); [done|lia|lia|done|]. intros. by eapply HQ.
Qed.

Lemma BuddyAllocator_alloc_wp fuel x rs F L X order (Q : option Z -> buddy_state -> Prop) :
  Buddy_inv x rs F L [] X -> MIN_ORDER <= order <= MAX_ORDER -> region_aligned x.1 -> (2 <= fuel)%nat ->
  (forall r x', buddy_alloc_post x F L X order r x' -> Q r x') ->
  wp (BuddyAllocator_alloc fuel (2 ^ order)) Q x.
Proof.
  intros HI Ho Hal Hf HQ. destruct x as [m b]. destruct fuel as [|[|fuel]]; [lia|lia|].
  assert (Hdone : forall m0 m' b' rs' F' p, same_bytes (owned L X) m m0 -> same_bytes (owned L X) m0 m' ->
    Buddy_inv (m', b') rs' F' ((p, order) :: L) [] X -> Q (Some (p + BLOCK_HEADER_SIZE)) (m', b')).
  { intros m0 m' b' rs' F' p H1 H2 HI'. apply HQ. split; [by eapply same_bytes_trans|].
    exists rs', F'. by replace (p + BLOCK_HEADER_SIZE - BLOCK_HEADER_SIZE) with p by lia. }
  destruct (find_free m b rs F L X order HI Ho) as [[Hr Hall]|(found & p & l & Hr & Hfo & Hl)].
  2:{ eapply (alloc_found_wp (S fuel)); [done..|]. intros m' b' F' HI' Hs. eapply (Hdone m); done. }
  destruct (order_usize order Ho) as (Hw & _ & _ & Hsh & _ & Htz).
  remember (S fuel) as fuel1. simpl BuddyAllocator_alloc. rewrite Htz.
  replace ((MIN_ORDER <=? order) && (order <=? MAX_ORDER)) with true by lia. simpl negb. cbv iota zeta.
  rewrite Hw. apply wp_bind, wp_gets. cbn [fst snd] in *. rewrite Hr, Z.leb_refl, Hsh. apply wp_bind.
  eapply wp_zoom; [done|]. change (shl64 1 MAX_ORDER) with (2 ^ MAX_ORDER).
  unfold wp at 1. change (2 ^ MAX_ORDER / PAGE_SIZE) with 64. unfold PageAllocator_alloc.
  change (64 =? 0) with false. cbv iota zeta beta.
  change (64 *! PAGE_SIZE) with (2 ^ MAX_ORDER). cbn [fst snd].
  destruct (kernel_mmap m (2 ^ MAX_ORDER)) as [[p m']|] eqn:Hk; cycle 1.
  { eexists _, _. split; [done|]. apply wp_ret, HQ. split; [done|]. split_and!; [done|done|].
    intros p k Hp. destruct (decide (k < order)); [done|]. exfalso.
    pose proof (inv_block_ok _ _ _ _ _ _ HI (p, k) ltac:(apply elem_of_app; by left)) as [Hk2 _]. simpl in Hk2.
    apply frees_elem in Hp as (_ & l & Hl & Hpl). rewrite Hall in Hl by lia. simplify_eq. by apply elem_of_nil in Hpl. }
  pose proof (mmap_spec m (2 ^ MAX_ORDER) p m' eq_refl eq_refl Hk) as Hfm.
  destruct (Z.eqb_spec p 0) as [|Hp0]; [lia|]. eexists (Some p), m'.
  split; [done|]. cbv iota. apply wp_bind.
  pose proof (inv_new_region m m' b rs F L X p HI Hfm (Hal p m' Hk)) as HI1.
  eapply init_wp; [exact HI1|apply Hall; lia|]. intros m2 b2 HI2 Hs2.
  assert (Hsx : same_bytes (owned L X) m m').
  { apply (same_bytes_extends _ (block_ext <$> frees F)); [|by eapply fresh_mapping_extends].
    eapply arena_perm; [|exact (bi_arena _ _ _ _ _ _ HI)]. unfold owned. rewrite !fmap_app. solve_Permutation. }
  destruct (find_free m2 b2 _ _ L X order HI2 Ho) as [[_ Hall2]|(found & q & l & Hr2 & Hfo & Hl)].
  - exfalso. specialize (Hall2 MAX_ORDER ltac:(lia)). rewrite list_lookup_insert_eq in Hall2; [done|].
    rewrite (bi_len _ _ _ _ _ _ HI). unfold NUM_ORDERS, MAX_ORDER, MIN_ORDER. lia.
  - subst fuel1. eapply alloc_found_wp; [done..|]. intros m3 b3 F3 HI3 Hs3.
    eapply (Hdone m2); [by eapply same_bytes_trans|done|done].
Qed.
End alloc.

(** ** Deallocation *)

Section dealloc.
Context `{K : Kernel}.
#[local] Existing Instance BlockHeader_link.

Lemma remove_free_wp fuel m b rs F L H X q k (Q : unit -> buddy_state -> Prop) :
  Buddy_inv (m, b) rs F L H X -> (q, k) ∈ frees F -> (length (frees F) <= fuel)%nat ->
  (forall m' b' F', Buddy_inv (m', b') rs F' L ((q, k) :: H) X -> same_bytes (owned L X) m m' ->
     same_region b b' -> frees F ≡ₚ (q, k) :: frees F' ->
     (forall c, c ∈ frees F ++ L ++ H -> agree_on m m' c.1 2) -> Q tt (m', b')) ->
  wp (remove_from_free_list fuel q (k - MIN_ORDER)) Q (m, b).
Proof.
  intros HI Hq Hf HQ. pose proof Hq as (Hk & l & Hl & Hql)%frees_elem.
  set (i := Z.to_nat (k - MIN_ORDER)) in *. assert (Hik : MIN_ORDER + Z.of_nat i = k) by lia.
  destruct (list_elem_of_split_l l q Hql) as (l1 & l2 & -> & Hq1).
  destruct (inv_list_at _ _ _ _ _ _ _ HI i _ Hl) as (h & Hh & Hfl).
  destruct (frees_focus F i _ Hl) as (R & HR & _).
  apply (remove_from_free_list_wp fuel q _ h l1 l2); [|done| |done|by eapply inv_list_apart|].
  - rewrite HR, length_app, length_fmap, length_app in Hf. simpl in Hf. lia.
  - apply arr_get_lookup. split; [lia|done].
  - intros m' h' Hm Hl'. replace (k - MIN_ORDER) with (Z.of_nat i) by lia.
    assert (Hw : forall w, w ∈ l1 -> (w, k) ∈ frees F).
    { intros w Hw. rewrite <- Hik. eapply list_free_elem; [exact Hl|]. apply elem_of_app. by left. }
    apply (HQ m' _ (<[i := l1 ++ l2]> F)).
    + rewrite <- Hik. by apply (inv_unlink m b rs F L H X HI i l1 q l2).
    + destruct Hm as [->|(w & Hwl & Hch)]; [done|].
      apply (inv_owned_bytes _ _ _ _ _ _ HI w k m'); [apply elem_of_app; left; auto|].
      pose proof (inv_block_ok _ _ _ _ _ _ HI (w, k) ltac:(apply elem_of_app; left; auto)) as H16%free_ext_16.
      simpl in H16. eapply changes_only_weaken; [exact Hch|lia|lia].
    + done.
    + rewrite <- Hik. by apply frees_delete.
    + intros c Hc. destruct Hm as [->|(w & Hwl & Hch)]; [done|].
      by apply (link_change_agree m b rs F L H X HI w k m' c (Hw w Hwl) Hch).
Qed.

(** The header of the buddy says exactly whether the buddy is free as a whole. *)
Lemma buddy_is_free_wp m b rs F L X p k (Q : bool -> buddy_state -> Prop) :
  Buddy_inv (m, b) rs F L [(p, k)] X -> k < MAX_ORDER ->
  (forall ok : bool, (if ok then (buddy_of p k, k) ∈ frees F else (buddy_of p k, k) ∉ frees F) ->
     Q ok (m, b)) ->
  wp (buddy_is_free (buddy_of p k) k) Q (m, b).
Proof.
  intros HI Hk HQ. assert (Hin : (p, k) ∈ frees F ++ L ++ [(p, k)]) by (apply held_in; by left).
  destruct (buddy_is_block _ _ _ _ _ _ p k HI Hin Hk) as (j & Hj & Hjk).
  pose proof (inv_block_ok _ _ _ _ _ _ HI _ Hin) as Hok. destruct (buddy_of_ok p k Hok Hk) as (_ & _ & Hne).
  pose proof (free_ext_16 _ Hok) as H16. simpl in H16. set (q := buddy_of p k) in *.
  assert (Hfree : (q, k) ∈ frees F -> header_is m q k true) by apply (bi_free _ _ _ _ _ _ HI).
  assert (Hhdr : exists f, header_is m q j f /\ (f = true -> (q, j) ∈ frees F)).
  { rewrite !elem_of_app in Hj. destruct Hj as [Hj|[Hj|Hj%list_elem_of_singleton]].
    - exists true. split; [by apply (bi_free _ _ _ _ _ _ HI)|done].
    - exists false. split; [by apply (bi_live _ _ _ _ _ _ HI)|done].
    - simplify_eq. lia. }
  destruct Hhdr as (f & [Ho Hfl] & Hf). unfold buddy_is_free. apply wp_bind, wp_gets. cbn [fst].
  apply wp_bind. eapply wp_or_fault; [exact Ho|]. apply wp_bind.
  apply (wp_or_fault _ f); [rewrite Hfl; by destruct f|]. apply wp_ret. apply HQ.
  destruct f, (Z.eqb_spec j k) as [->|Hjne]; simpl.
  - by apply Hf.
  - intros Hc%Hfree. destruct Hc as [Hc _]. congruence.
  - intros Hc%Hfree. destruct Hc as [_ Hc]. congruence.
  - intros Hc%Hfree. destruct Hc as [_ Hc]. congruence.
Qed.

(** The region test never excludes the buddy of a block of the current region. *)
Lemma buddy_region_test m b rs F L X p k r :
  Buddy_inv (m, b) rs F L [(p, k)] X -> k < MAX_ORDER -> bd_base b = Some r ->
  in_ext p (r, 2 ^ MAX_ORDER) -> buddy_in_region b (buddy_of p k) = true.
Proof.
  intros HI Hk Hb Hp. destruct (bi_base _ _ _ _ _ _ HI r Hb) as (Hr & Hsz & Hr0 & Htop). cbn [snd] in *.
  pose proof (inv_block_ok _ _ _ _ _ _ HI (p, k) ltac:(apply held_in; by left)) as Hok.
  destruct (buddy_of_ok p k Hok Hk) as (Hb1 & Hb2 & Hb3).
  pose proof (tl_region _ _ (bi_tiles _ _ _ _ _ _ HI) r Hr) as Hra.
  unfold buddy_in_region. rewrite Hb. rewrite wrap64_small by (unfold is_usize, USER_TOP in *; lia).
  cut (r <= buddy_of p k < r + 2 ^ MAX_ORDER); [lia|].
  destruct Hok as [Hk' Hpa], Hb1 as [_ Hb1], Hb2 as [_ Hb2]. simpl in *.
  revert Hk' Hk Hp Hb1 Hb2 Hb3 Hra Hpa. unfold in_ext.
  generalize (buddy_of p k). clear. simpl. intros q Hk' Hk. split_orders; simpl; try lia; intros; mlia.
Qed.

(** Where the loop of [coalesce] ends: the buddy is not free as a whole. *)
Definition unpaired (b : BuddyAllocator) (F : list (list Z)) (p k : Z) : Prop :=
  forall r, bd_base b = Some r -> in_ext p (r, 2 ^ MAX_ORDER) -> k < MAX_ORDER -> (buddy_of p k, k) ∉ frees F.

Lemma coalesce_loop_wp fuel rs L X n : forall m b F p k (Q : Z * Z -> buddy_state -> Prop),
  Buddy_inv (m, b) rs F L [(p, k)] X -> header_is m p k true -> k + Z.of_nat n = MAX_ORDER ->
  (length (frees F) <= fuel)%nat ->
  (forall m' b' F' p' k', Buddy_inv (m', b') rs F' L [(p', k')] X -> header_is m' p' k' true ->
     unpaired b' F' p' k' -> same_bytes (owned L X) m m' -> same_region b b' -> Q (p', k') (m', b')) ->
  wp (coalesce_loop n fuel p k) Q (m, b).
Proof.
  induction n as [|n IH]; intros m b F p k Q HI Hh Hk Hf HQ; simpl coalesce_loop.
  - apply wp_ret. apply (HQ m b F); [done|done| |done|done]. intros r _ _ Hlt. lia.
  - assert (Hin : (p, k) ∈ frees F ++ L ++ [(p, k)]) by (apply held_in; by left).
    pose proof (inv_block_ok _ _ _ _ _ _ HI _ Hin) as Hok. assert (Hk2 : MIN_ORDER <= k <= MAX_ORDER) by apply Hok.
    destruct (order_usize k Hk2) as (Hw1 & _ & Hw3 & Hw4 & _). rewrite Hw4, Hw1, Hw3.
    fold (buddy_of p k). apply wp_bind, wp_gets. cbn [fst snd].
    destruct (buddy_in_region b (buddy_of p k)) eqn:Hreg; simpl negb; cbv iota.
    2:{ apply wp_ret. apply (HQ m b F); [done|done| |done|done]. intros r Hb Hp Hlt. exfalso.
        by rewrite (buddy_region_test m b rs F L X p k r) in Hreg. }
    apply wp_bind. apply (buddy_is_free_wp m b rs F L X p k); [done|lia|]. intros [|] Hbf; simpl negb; cbv iota.
    2:{ apply wp_ret. apply (HQ m b F); [done|done| |done|done]. by intros r _ _ _. }
    apply wp_bind. apply (remove_free_wp fuel m b rs F L [(p, k)] X); [done|done|done|].
    intros m1 b1 F1 HI1 Hs1 Hr1 Hp1 Hag.
    assert (Hlow : (if p <? buddy_of p k then p else buddy_of p k) = Z.min p (buddy_of p k)).
    { destruct (Z.ltb_spec p (buddy_of p k)); lia. }
    rewrite Hlow. eapply inv_perm in HI1; [|done|apply Permutation_swap].
    apply inv_merge in HI1; [|lia].
    assert (Hflag : load8 m1 (Z.min p (buddy_of p k) + 1) = Some 1).
    { destruct (Z.min_spec p (buddy_of p k)) as [[_ ->]|[_ ->]].
      - rewrite <- (Hag (p, k) Hin) by (simpl; lia). apply Hh.
      - rewrite <- (Hag (buddy_of p k, k)) by (simpl; lia || (apply elem_of_app; by left)).
        apply (bi_free _ _ _ _ _ _ HI _ _ Hbf). }
    apply wp_bind. eapply (set_order_wp b1 rs L X m1 F1 _ _ (k + 1)); [exact HI1|by left|lia|].
    intros m2 HI2 Hs2 Ho2 Hc2.
    apply (IH m2 b1 F1 (Z.min p (buddy_of p k)) (k + 1)); [exact HI2| |lia| |].
    + split; [done|]. rewrite (changes_only_load8 _ _ _ _ _ Hc2) by lia. done.
    + rewrite Hp1 in Hf. simpl in Hf. lia.
    + intros m3 b3 F3 p3 k3 HI3 Hh3 Hu3 Hs3 Hr3. apply (HQ m3 b3 F3); [done|done|done| |].
      * eauto using same_bytes_trans.
      * destruct Hr1, Hr3. split; congruence.
Qed.

Lemma BuddyAllocator_dealloc_wp fuel x rs F L X p k (Q : unit -> buddy_state -> Prop) :
  Buddy_inv x rs F ((p, k) :: L) [] X -> (length (frees F) <= fuel)%nat ->
  (forall x' F', Buddy_inv x' rs F' L [] X -> same_bytes (owned L X) x.1 x'.1 -> same_region x.2 x'.2 ->
     Q tt x') ->
  wp (BuddyAllocator_dealloc fuel (p + BLOCK_HEADER_SIZE) (2 ^ k)) Q x.
Proof.
  intros HI Hf HQ. destruct x as [m b]. apply inv_hold in HI.
  assert (Hin : (p, k) ∈ [(p, k)]) by by left.
  pose proof (inv_block_ok _ _ _ _ _ _ HI (p, k) (held_in _ _ _ _ Hin)) as [Hk _]. simpl in Hk.
  destruct (order_usize k Hk) as (_ & _ & _ & _ & _ & Htz). unfold BuddyAllocator_dealloc. rewrite Htz.
  replace (p + BLOCK_HEADER_SIZE - BLOCK_HEADER_SIZE) with p by lia. cbv zeta.
  apply wp_bind. eapply (set_is_free_wp b rs L X m F _ p k); [exact HI|done|]. intros m1 HI1 Hs1 Hf1 Hc1.
  apply wp_bind. eapply (set_order_wp b rs L X m1 F _ p k); [exact HI1|done|done|]. intros m2 HI2 Hs2 Ho2 Hc2.
  unfold coalesce. apply wp_bind.
  apply (coalesce_loop_wp fuel rs L X (Z.to_nat (MAX_ORDER - k)) m2 b F p k); [exact HI2| |lia|done|].
  { split; [done|]. rewrite (changes_only_load8 _ _ _ _ _ Hc2) by lia. done. }
  intros m3 b3 F3 p3 k3 HI3 Hh3 Hu3 Hs3 Hr3. cbn [fst snd].
  pose proof (inv_block_ok _ _ _ _ _ _ HI3 (p3, k3) ltac:(apply held_in; by left)) as [Hk3 _]. simpl in Hk3.
  destruct (order_usize k3 Hk3) as (Hw & _). rewrite Hw.
  apply (push_front_wp b3 rs L X m3 F3 [] p3 k3); [exact HI3|done|exact Hu3|].
  intros m4 b4 F4 HI4 Hs4 _ Hb4 Hz4 _. apply (HQ _ F4); [done| |].
  - cbn [fst]. eauto using same_bytes_trans.
  - destruct Hr3. split; cbn [snd]; congruence.
Qed.
End dealloc.

(** ** Theorems *)

Section theorems.
Context `{K : Kernel} {KS : KernelSpec K}.
#[local] Existing Instance BlockHeader_link.

(** The client may write its part of a block: the allocator does not look there. *)
Lemma inv_client_write m m' b rs F L H X p k :
  Buddy_inv (m, b) rs F L H X -> (p, k) ∈ L ->
  changes_only m m' (p + BLOCK_HEADER_SIZE) (2 ^ k - BLOCK_HEADER_SIZE) ->
  Buddy_inv (m', b) rs F L H X.
Proof.
  intros HI Hp Hch. unfold BLOCK_HEADER_SIZE in Hch.
  assert (Hpin : (p, k) ∈ frees F ++ L ++ H) by (rewrite !elem_of_app; tauto).
  assert (Hag : forall c, c ∈ frees F ++ L -> agree_on m m' c.1 2 /\ (c ∈ frees F -> agree_on m m' c.1 16)).
  { intros c Hc. assert (Hcin : c ∈ frees F ++ L ++ H) by (rewrite app_assoc; apply elem_of_app; by left).
    destruct (decide (c = (p, k))) as [->|Hne].
    - split; [eapply changes_only_agree; [exact Hch|simpl; lia]|]. intros Hf.
      destruct (bi_free _ _ _ _ _ _ HI p k Hf) as [_ H1], (bi_live _ _ _ _ _ _ HI p k Hp) as [_ H2]. congruence.
    - pose proof (free_ext_16 _ (inv_block_ok _ _ _ _ _ _ HI c Hcin)).
      pose proof (free_ext_16 _ (inv_block_ok _ _ _ _ _ _ HI _ Hpin)) as Hp16. simpl in Hp16.
      assert (Hd : c.1 + 16 <= p \/ p + 2 ^ k <= c.1).
      { destruct (decide (c.1 + 16 <= p)); [by left|]. destruct (decide (p + 2 ^ k <= c.1)); [by right|].
        exfalso. apply Hne. apply (inv_overlap_eq m b _ _ _ _ _ HI c (p, k) (Z.max c.1 p) Hcin Hpin);
          unfold in_ext, block_ext; simpl; lia. }
      split; [|intros _]; (eapply changes_only_agree; [exact Hch|lia]). }
  replace b with {| bd_free_lists := bd_free_lists b; bd_base := bd_base b; bd_region_size := bd_region_size b |}
    by (by destruct b).
  apply (inv_frame (m, b) rs F L H X HI m' (bd_free_lists b)).
  - pose proof (bi_lists _ _ _ _ _ _ HI) as Hl. cbn [fst snd] in Hl.
    apply Forall2_same_length_lookup. split; [by eapply Forall2_length|]. intros i h l Hh HF.
    eapply free_list_agree; [|eapply Forall2_lookup_lr; [exact Hl|done..]]. intros q Hq.
    assert (Hqf : (q, MIN_ORDER + Z.of_nat i) ∈ frees F) by by eapply list_free_elem.
    by apply (Hag (q, MIN_ORDER + Z.of_nat i) ltac:(apply elem_of_app; by left)).
  - intros c Hc. by apply Hag.
  - apply Hch.
Qed.

(** A request counts by its order alone. *)
Lemma alloc_by_order fuel size x :
  MIN_ORDER <= trailing_zeros size <= MAX_ORDER ->
  BuddyAllocator_alloc fuel size x = BuddyAllocator_alloc fuel (2 ^ trailing_zeros size) x.
Proof.
  intros Ho. destruct (order_usize _ Ho) as (_ & _ & _ & _ & _ & Htz).
  destruct fuel as [|fuel]; [done|]. simpl BuddyAllocator_alloc. by rewrite Htz.
Qed.

(** C26: as long as the regions that [mmap] returns are aligned to 2^18 (which [mmap] does
    not promise): the order of a request is the number of trailing zeros of its size.  The
    buddy allocator refuses sizes whose order is not 14 to 18 and changes nothing; for the
    others, powers of two or not, it returns, whatever the recursion through a new region,
    the user part of a block of [2 ^ order] bytes (the block less its 16-byte header) that
    overlaps neither a block in use nor a free one nor anything outside, or nothing when no
    free block is large enough and no region can be mapped; no byte in use changes. *)
Theorem buddy_alloc_correct x rs F L X fuel size :
  Buddy_inv x rs F L [] X -> region_aligned x.1 -> (2 <= fuel)%nat ->
  let order := trailing_zeros size in
  if decide (MIN_ORDER <= order <= MAX_ORDER)
  then exists r x', BuddyAllocator_alloc fuel size x = Ret (r, x') /\ buddy_alloc_post x F L X order r x'
  else BuddyAllocator_alloc fuel size x = Ret (None, x).
Proof.
  intros HI Hal Hf order. destruct (decide _) as [Ho|Ho].
  - rewrite alloc_by_order by done. by apply (BuddyAllocator_alloc_wp fuel x rs F L X order).
  - destruct fuel as [|fuel]; [lia|]. simpl. fold order.
    replace ((MIN_ORDER <=? order) && _) with false by lia. done.
Qed.

(** C27: with every region aligned to 2^18, as the invariant asks and [mmap] does not promise:
    freeing a block in use, after any writes of its owner to its user part, keeps the bytes
    of all other blocks, leaves the rest of the allocator's blocks disjoint and tiling the
    regions, and merges: afterwards no block of the current region is free together with its
    buddy.  The number of free blocks bounds the list walks. *)
Theorem buddy_dealloc_correct m m1 b rs F L X p k fuel :
  Buddy_inv (m, b) rs F ((p, k) :: L) [] X -> (length (frees F) <= fuel)%nat ->
  changes_only m m1 (p + BLOCK_HEADER_SIZE) (2 ^ k - BLOCK_HEADER_SIZE) ->
  exists x' F', BuddyAllocator_dealloc fuel (p + BLOCK_HEADER_SIZE) (2 ^ k) (m1, b) = Ret (tt, x') /\
    Buddy_inv x' rs F' L [] X /\ same_bytes (owned L X) m1 x'.1 /\ merged x'.2 F'.
Proof.
  intros HI Hf Hch. pose proof (inv_client_write _ _ _ _ _ _ _ _ _ _ HI ltac:(by left) Hch) as HI1.
  destruct (BuddyAllocator_dealloc_wp fuel (m1, b) rs F L X p k (fun _ x' => exists F',
    Buddy_inv x' rs F' L [] X /\ same_bytes (owned L X) m1 x'.1) HI1 Hf) as ([] & x' & Hr & F' & HI' & Hs).
  { intros x' F' HI' Hs _. by exists F'. }
  exists x', F'. split_and!; [done|done|done|]. apply (bi_merged _ _ _ _ _ _ HI').
Qed.

(** A region with no block in use has no free block below the largest order. *)
Lemma region_no_small x rs F L X r :
  Buddy_inv x rs F L [] X -> bd_base x.2 = Some r ->
  (forall p k, (p, k) ∈ L -> ~ in_ext p (r, 2 ^ MAX_ORDER)) ->
  forall n p k, k = MIN_ORDER + Z.of_nat n -> k < MAX_ORDER -> in_ext p (r, 2 ^ MAX_ORDER) -> (p, k) ∉ frees F.
Proof.
  intros HI Hb HL n. induction n as [n IH] using lt_wf_ind. intros p k -> Hk Hp Hf.
  assert (Hin : (p, MIN_ORDER + Z.of_nat n) ∈ frees F ++ L ++ []) by (apply elem_of_app; by left).
  destruct (buddy_is_block _ _ _ _ _ _ _ _ HI Hin Hk) as (j & Hj & Hjk).
  pose proof (inv_block_ok _ _ _ _ _ _ HI _ Hin) as Hok. destruct (buddy_of_ok _ _ Hok Hk) as (Hb1 & Hb2 & Hb3).
  pose proof (inv_block_ok _ _ _ _ _ _ HI _ Hj) as [Hjo _]. simpl in Hjo.
  destruct (bi_base _ _ _ _ _ _ HI r Hb) as (Hr & _).
  pose proof (tl_region _ _ (bi_tiles _ _ _ _ _ _ HI) r Hr) as Hra.
  assert (Hq : in_ext (buddy_of p (MIN_ORDER + Z.of_nat n)) (r, 2 ^ MAX_ORDER)).
  { destruct Hok as [Hk' Hpa], Hb1 as [_ Hb1], Hb2 as [_ Hb2]. cbn [fst snd] in *.
    revert Hk' Hk Hp Hb1 Hb2 Hb3 Hra Hpa. unfold in_ext. generalize (MIN_ORDER + Z.of_nat n). intros k.
    generalize (buddy_of p k). clear. cbn [fst snd]. intros q Hk' Hk. split_orders; simpl; try lia; intros; mlia. }
  rewrite app_nil_r in Hj. apply elem_of_app in Hj as [Hj|Hj]; [|by apply HL in Hj].
  destruct (decide (j < MIN_ORDER + Z.of_nat n)) as [Hlt|Hge].
  - apply (IH (Z.to_nat (j - MIN_ORDER)) ltac:(lia) _ j ltac:(lia) ltac:(lia) Hq Hj).
  - replace j with (MIN_ORDER + Z.of_nat n) in Hj by lia.
    by apply (bi_merged _ _ _ _ _ _ HI r p (MIN_ORDER + Z.of_nat n) Hb Hp Hk Hf).
Qed.

Lemma region_whole x rs F L X r :
  Buddy_inv x rs F L [] X -> bd_base x.2 = Some r ->
  (forall p k, (p, k) ∈ L -> ~ in_ext p (r, 2 ^ MAX_ORDER)) -> (r, MAX_ORDER) ∈ frees F.
Proof.
  intros HI Hb HL. destruct (bi_base _ _ _ _ _ _ HI r Hb) as (Hr & _).
  pose proof (bi_tiles _ _ _ _ _ _ HI) as Ht. pose proof (tl_region _ _ Ht r Hr) as Hra.
  assert (Hin : in_ext r (r, 2 ^ MAX_ORDER)).
  { unfold in_ext. cbn [fst snd]. assert (0 < 2 ^ MAX_ORDER) by done. lia. }
  destruct (tl_cover _ _ Ht r r Hr Hin) as ([s j] & Hs & Hx).
  pose proof (tl_ok _ _ Ht _ Hs) as [Hj Hsa]. destruct (tl_in _ _ Ht _ Hs) as (r' & Hr' & Hsub).
  pose proof (tl_region _ _ Ht r' Hr') as Hra'. unfold in_ext, sub_ext, block_ext in Hx, Hsub. cbn [fst snd] in *.
  assert (Hsr : s = r).
  { revert Hj Hsa Hsub Hra Hra' Hx. clear. intros Hj. split_orders; simpl; intros; mlia. }
  subst s. rewrite app_nil_r in Hs.
  apply elem_of_app in Hs as [Hs|Hs]; [|by apply HL in Hs].
  destruct (decide (j = MAX_ORDER)) as [->|Hne]; [done|]. exfalso.
  by apply (region_no_small x rs F L X r HI Hb HL (Z.to_nat (j - MIN_ORDER)) r j ltac:(lia) ltac:(lia) Hin).
Qed.

(** Once the client has freed every block of the current region, the region is
    one free block again; and [drop] unmaps the current region and nothing else, so
    earlier regions stay mapped. *)
Theorem buddy_region_whole_and_drop x rs F L X r :
  Buddy_inv x rs F L [] X -> bd_base x.2 = Some r -> bd_region_size x.2 mod PAGE_SIZE = 0 ->
  ((forall p k, (p, k) ∈ L -> ~ in_ext p (r, 2 ^ MAX_ORDER)) -> (r, MAX_ORDER) ∈ frees F) /\
  exists x', BuddyAllocator_drop x = Ret (tt, x') /\
    (forall i, ~ in_ext i (r, bd_region_size x.2) -> load8 x'.1 i = load8 x.1 i) /\
    ((forall a b n, (kernel_munmap a b n).1 = 0) ->
       forall i, in_ext i (r, bd_region_size x.2) -> load8 x'.1 i = None).
Proof.
  intros HI Hb Hsz. split; [by eapply region_whole|].
  destruct (bi_base _ _ _ _ _ _ HI r Hb) as (Hr & Hbig & Hr0 & Htop).
  pose proof (tl_region _ _ (bi_tiles _ _ _ _ _ _ HI) r Hr) as Hra.
  set (n := bd_region_size x.2) in *. assert (Hn : n / PAGE_SIZE * PAGE_SIZE = n) by (unfold PAGE_SIZE in *; mlia).
  assert (Hr12 : r mod PAGE_SIZE = 0) by (unfold PAGE_SIZE, MAX_ORDER in *; simpl in Hra; mlia).
  assert (Hpg : 0 < n / PAGE_SIZE < 2 ^ 52).
  { unfold MAX_ORDER, USER_TOP, PAGE_SIZE in *. simpl in Hbig. mlia. }
  assert (wp BuddyAllocator_drop (fun _ x' =>
    (forall i, ~ in_ext i (r, n) -> load8 x'.1 i = load8 x.1 i) /\
    ((forall a b n, (kernel_munmap a b n).1 = 0) -> forall i, in_ext i (r, n) -> load8 x'.1 i = None)) x)
    as ([] & x' & ? & ?); [|eauto].
  unfold BuddyAllocator_drop. apply wp_bind, wp_gets. rewrite Hb. fold n. cbv zeta.
  destruct (Z.ltb_spec 0 (n / PAGE_SIZE)); [|lia]. eapply wp_zoom; [done|].
  apply PageAllocator_dealloc_wp; [done|done|]. rewrite Hn. cbn [fst]. intros m' c Hout Hin Hc. split; [exact Hout|].
  intros Hk i Hi. rewrite Hin by done. by rewrite Hc, Hk.
Qed.
End theorems.

(** ** Instances *)

Lemma BuddyAllocator_new_inv m X :
  arena m X -> Buddy_inv (m, BuddyAllocator_new) [] (replicate (Z.to_nat NUM_ORDERS) []) [] [] X.
Proof.
  intros HX. constructor; simpl; try done.
  - repeat constructor.
  - intros p k Hp. by apply elem_of_nil in Hp.
  - intros p k Hp. by apply elem_of_nil in Hp.
  - constructor.
    + intros r Hr. by apply elem_of_nil in Hr.
    + intros c Hc. by apply elem_of_nil in Hc.
    + intros c Hc. by apply elem_of_nil in Hc.
    + intros r y Hr. by apply elem_of_nil in Hr.
Qed.

(** A memory after which the bump kernel maps at 2^18. *)
Definition demo_buddy : buddy_state := (Memory [(4096, 262144)] ∅, BuddyAllocator_new).

Lemma demo_buddy_inv : Buddy_inv demo_buddy [] (replicate (Z.to_nat NUM_ORDERS) []) [] [] [].
Proof. apply BuddyAllocator_new_inv. by split. Qed.

Lemma demo_buddy_aligned : region_aligned demo_buddy.1.
Proof.
  intros p m' H. assert (Hp : forall o : option (Z * memory), o = Some (p, m') -> option_map fst o = Some p)
    by (by intros o ->).
  apply Hp in H. vm_compute in H. by simplify_eq.
Qed.

Lemma buddy_alloc_correct_witness :
  exists r x', BuddyAllocator_alloc 2 (2 ^ 15) demo_buddy = Ret (r, x') /\
    buddy_alloc_post demo_buddy (replicate (Z.to_nat NUM_ORDERS) []) [] [] 15 r x'.
Proof.
  apply (buddy_alloc_correct demo_buddy [] (replicate (Z.to_nat NUM_ORDERS) []) [] [] 2 (2 ^ 15)).
  - apply demo_buddy_inv.
  - apply demo_buddy_aligned.
  - apply le_n.
Defined.

(** A state with one block of order 15 in use. *)
Lemma demo_buddy_live :
  exists x rs F, BuddyAllocator_alloc 2 (2 ^ 15) demo_buddy = Ret (Some 262160, x) /\
    Buddy_inv x rs F [(262144, 15)] [] [] /\ bd_base x.2 = Some 262144 /\ bd_region_size x.2 = 262144.
Proof.
  destruct (BuddyAllocator_alloc_wp 2 demo_buddy [] (replicate (Z.to_nat NUM_ORDERS) []) [] [] 15
    (buddy_alloc_post demo_buddy (replicate (Z.to_nat NUM_ORDERS) []) [] [] 15)) as (r & x & Hr & _ & Hm);
    [apply demo_buddy_inv|done|apply demo_buddy_aligned|lia|done|].
  assert (Hp : match BuddyAllocator_alloc 2 (2 ^ 15) demo_buddy with
    | Ret (r, x) => Some (r, bd_base x.2, bd_region_size x.2) | _ => None end =
    Some (Some 262160, Some 262144, 262144)) by (vm_compute; reflexivity).
  rewrite Hr in Hp. injection Hp as -> Hb Hz. destruct Hm as (rs & F & HI). exists x, rs, F.
  split; [exact Hr|]. split; [exact HI|]. split; [exact Hb|exact Hz].
Qed.

Lemma buddy_dealloc_correct_witness :
  exists x x' fuel, BuddyAllocator_alloc 2 (2 ^ 15) demo_buddy = Ret (Some 262160, x) /\
    BuddyAllocator_dealloc fuel 262160 (2 ^ 15) x = Ret (tt, x').
Proof.
  destruct demo_buddy_live as ([m b] & rs & F & Hr & HI & _).
  destruct (buddy_dealloc_correct m m b rs F [] [] 262144 15 (length (frees F)) HI (le_n _)
    (changes_only_refl _ _ _)) as (x' & F' & Hd & _).
  exists (m, b), x', (length (frees F)). split; [exact Hr|exact Hd].
Defined.

Lemma buddy_region_whole_and_drop_witness :
  exists x x', BuddyAllocator_alloc 2 (2 ^ 15) demo_buddy = Ret (Some 262160, x) /\
    BuddyAllocator_drop x = Ret (tt, x').
Proof.
  destruct demo_buddy_live as (x & rs & F & Hr & HI & Hb & Hz).
  destruct (buddy_region_whole_and_drop x rs F [(262144, 15)] [] 262144 HI Hb) as (_ & x' & Hd & _).
  - rewrite Hz. reflexivity.
  - exists x, x'. split; [exact Hr|exact Hd].
Defined.

(** A client of two blocks: it writes two bytes of its first block and frees the second. *)
Definition misaligned_run : M buddy_state (option Z * option Z) :=
  a ← BuddyAllocator_alloc 2 (2 ^ 17);
  b ← BuddyAllocator_alloc 2 (2 ^ 16);
  buddy_mem (update_mem (fun m => store8 m (default 0 a + 2 ^ 16 - BLOCK_HEADER_SIZE) 16)) ;;
  buddy_mem (update_mem (fun m => store8 m (default 0 a + 2 ^ 16 - BLOCK_HEADER_SIZE + 1) 1)) ;;
  BuddyAllocator_dealloc 16 (default 0 b) (2 ^ 16) ;;
  c ← BuddyAllocator_alloc 2 (2 ^ 17);
  mret (a, c).

(** C28: [mmap] only aligns a region to pages.  In a region that is not aligned to its
    size, a client that allocates two blocks, writes inside the first and frees the
    second is then given a block that overlaps the first, which it still holds. *)
Theorem buddy_misaligned_overlap :
  exists p q x, misaligned_run (Memory [] ∅, BuddyAllocator_new) = Ret ((Some p, Some q), x) /\
    bd_base x.2 = Some 65536 /\ p < q /\ q < p + (2 ^ 17 - BLOCK_HEADER_SIZE).
Proof.
  match eval vm_compute in (misaligned_run (Memory [] ∅, BuddyAllocator_new)) with
  | Ret ((Some ?p, Some ?q), ?x) => exists p, q, x
  end. split_and!; vm_compute; reflexivity.
Qed.
