(* ===== verification/ThreadLocal.v ===== *)
(** * The thread-local cache of aethalloc-core

    Models aethalloc-core/src/thread_local.rs: ten free lists of page-backed blocks,
    four tiny and six small size classes, at most 32 blocks in each. *)

From S2P Require Import Prelude SizeClass Memory Extents AllocSpec Page Metadata FreeList.

(** ** Definitions *)

Definition TINY_CLASSES : Z := 4.
Definition SMALL_CLASSES : Z := 6.
Definition CACHE_SIZE : Z := 32.

Record CacheSlot : Type := {
  cs_head : option Z;
  cs_count : Z
}.

Record ThreadLocalCache : Type := {
  tiny : list CacheSlot;
  small : list CacheSlot
}.

Definition CacheSlot_new : CacheSlot := {| cs_head := None; cs_count := 0 |}.

Definition size_for_index (is_tiny : bool) (idx : Z) : Z :=
  if is_tiny then shl64 16 idx else shl64 256 idx.

Definition ThreadLocalCache_new : ThreadLocalCache :=
  {| tiny := replicate (Z.to_nat TINY_CLASSES) CacheSlot_new;
     small := replicate (Z.to_nat SMALL_CLASSES) CacheSlot_new |}.

(** The slot a size uses: which array, and the index. *)
Definition get_slot (size : Z) : option (bool * Z) :=
  match SizeClass_classify size with
  | Tiny =>
      let alloc_size := Z.max (round_up_pow2 size) 16 in
      if 128 <? alloc_size then None
      else
        let idx := trailing_zeros (alloc_size / 16) in
        if idx <? TINY_CLASSES then Some (true, idx) else None
  | Small =>
      let alloc_size := round_up_pow2 size in
      if negb ((256 <=? alloc_size) && (alloc_size <=? 8192)) then None
      else
        let idx := trailing_zeros (alloc_size / 256) in
        if idx <? SMALL_CLASSES then Some (false, idx) else None
  | _ => None
  end.

Section cache.
Context `{K : Kernel}.
#[local] Existing Instance NonNull_link.

Definition tlc_state : Type := (memory * ThreadLocalCache)%type.

Definition slots_of (is_tiny : bool) (c : ThreadLocalCache) : list CacheSlot :=
  if is_tiny then tiny c else small c.

Definition set_slot (is_tiny : bool) (idx : Z) (s : CacheSlot) (c : ThreadLocalCache) : ThreadLocalCache :=
  if is_tiny then {| tiny := <[Z.to_nat idx := s]> (tiny c); small := small c |}
  else {| tiny := tiny c; small := <[Z.to_nat idx := s]> (small c) |}.

(** A computation on one slot; an index out of range panics. *)
Definition on_slot {A} (is_tiny : bool) (idx : Z) (m : M (memory * CacheSlot) A) : M tlc_state A :=
  zoom (fun x => s ← arr_get (slots_of is_tiny x.2) idx; Some (x.1, s))
       (fun y x => (y.1, set_slot is_tiny idx y.2 x.2)) m.

Definition slot_mem {A} (m : M memory A) : M (memory * CacheSlot) A :=
  zoom (fun x => Some x.1) (fun m x => (m, x.2)) m.

Definition slot_alloc (is_tiny : bool) (idx : Z) : M (memory * CacheSlot) (option Z) :=
  x ← getS;
  match cs_head x.2 with
  | Some ptr =>
      next ← or_fault (link_read x.1 ptr);
      modifyS (fun x => (x.1, {| cs_head := next; cs_count := cs_count x.2 -! 1 |})) ;;
      mret (Some ptr)
  | None =>
      let alloc_size := size_for_index is_tiny idx in
      slot_mem (PageAllocator_alloc (Z.max (div_ceil alloc_size PAGE_SIZE) 1))
  end.

Definition ThreadLocalCache_alloc (size : Z) : M tlc_state (option Z) :=
  match get_slot size with
  | None => mret None
  | Some (is_tiny, idx) => on_slot is_tiny idx (slot_alloc is_tiny idx)
  end.

(** The pages of a block of [alloc_size] bytes go back to the kernel. *)
Definition free_block (ptr alloc_size : Z) : M memory unit :=
  let pages := div_ceil alloc_size PAGE_SIZE in
  if 0 <? pages then PageAllocator_dealloc ptr pages else mret tt.

Definition slot_dealloc (ptr size : Z) : M (memory * CacheSlot) unit :=
  x ← getS;
  if CACHE_SIZE <=? cs_count x.2 then slot_mem (free_block ptr (round_up_pow2 size))
  else
    m ← or_fault (link_write x.1 ptr (cs_head x.2));
    modifyS (fun x => (m, {| cs_head := Some ptr; cs_count := cs_count x.2 +! 1 |})).

Definition ThreadLocalCache_dealloc (ptr size : Z) : M tlc_state unit :=
  match get_slot size with
  | None => zoom (fun x => Some x.1) (fun m x => (m, x.2)) (free_block ptr (round_up_pow2 size))
  | Some (is_tiny, idx) => on_slot is_tiny idx (slot_dealloc ptr size)
  end.

(** The loop of [clear_slot]; a slot holds at most [CACHE_SIZE] blocks, so that many
    rounds are enough. *)
Fixpoint clear_loop (fuel : nat) (is_tiny : bool) (idx : Z) (current : option Z) : M memory unit :=
  match current with
  | None => mret tt
  | Some ptr =>
      match fuel with
      | O => fun _ => Diverge
      | S fuel' =>
          m ← getS;
          next ← or_fault (link_read m ptr);
          free_block ptr (size_for_index is_tiny idx) ;;
          clear_loop fuel' is_tiny idx next
      end
  end.

Definition clear_slot (is_tiny : bool) (idx : Z) : M (memory * CacheSlot) unit :=
  x ← getS;
  slot_mem (clear_loop (Z.to_nat CACHE_SIZE) is_tiny idx (cs_head x.2)) ;;
  modifyS (fun x => (x.1, {| cs_head := None; cs_count := 0 |})).

Fixpoint clear_slots (is_tiny : bool) (n : nat) (i : Z) : M tlc_state unit :=
  match n with
  | O => mret tt
  | S n' => on_slot is_tiny i (clear_slot is_tiny i) ;; clear_slots is_tiny n' (i + 1)
  end.

Definition ThreadLocalCache_clear : M tlc_state unit :=
  clear_slots true (Z.to_nat TINY_CLASSES) 0 ;;
  clear_slots false (Z.to_nat SMALL_CLASSES) 0.

Definition ThreadLocalCache_drop : M tlc_state unit := ThreadLocalCache_clear.
End cache.

(** ** Slots and sizes *)

Definition slot_range (is_tiny : bool) (idx : Z) : Prop :=
  0 <= idx < (if is_tiny then TINY_CLASSES else SMALL_CLASSES).

(** The bytes mapped for a block of a slot. *)
Definition slot_bytes (is_tiny : bool) (idx : Z) : Z :=
  Z.max (div_ceil (size_for_index is_tiny idx) PAGE_SIZE) 1 * PAGE_SIZE.

Lemma slot_bytes_cases is_tiny idx :
  slot_range is_tiny idx ->
  0 < size_for_index is_tiny idx <= slot_bytes is_tiny idx /\
  (slot_bytes is_tiny idx = PAGE_SIZE \/ slot_bytes is_tiny idx = 2 * PAGE_SIZE) /\
  div_ceil (size_for_index is_tiny idx) PAGE_SIZE * PAGE_SIZE = slot_bytes is_tiny idx /\
  0 < div_ceil (size_for_index is_tiny idx) PAGE_SIZE.
Proof.
  unfold slot_range, TINY_CLASSES, SMALL_CLASSES. intros H. destruct is_tiny.
  - assert (idx = 0 \/ idx = 1 \/ idx = 2 \/ idx = 3) as Hc by lia.
    repeat (destruct Hc as [->|Hc]; [by vm_compute; split_and!; try done; left|]).
    subst. vm_compute. split_and!; try done. by left.
  - assert (idx = 0 \/ idx = 1 \/ idx = 2 \/ idx = 3 \/ idx = 4 \/ idx = 5) as Hc by lia.
    repeat (destruct Hc as [->|Hc]; [by vm_compute; split_and!; try done; left|]).
    subst. vm_compute. split_and!; try done. by right.
Qed.

Lemma get_slot_pow2 size n :
  0 <= n <= 13 -> round_up_pow2 size = 2 ^ n -> 2 ^ n < 2 * size -> size <= 2 ^ n ->
  get_slot size = Some (if n <=? 7 then (true, Z.max n 4 - 4) else (false, n - 8)).
Proof.
  intros Hn Hr H1 H2. unfold get_slot, SizeClass_classify. rewrite Hr.
  destruct (Z.eqb_spec size 0); [lia|].
  each_value n Hn; destruct (Z.leb_spec size 128), (Z.leb_spec size (8 * 1024)); done || lia.
Qed.

Lemma cached_size_pow2 size :
  0 < size <= 8192 ->
  exists n, 0 <= n <= 13 /\ round_up_pow2 size = 2 ^ n /\ 2 ^ n < 2 * size /\ size <= 2 ^ n.
Proof.
  intros Hs. destruct (round_up_pow2_is_pow2 size) as (n & Hn & Hr & H1 & H2); [lia|].
  exists n. split_and!; try done; [lia|]. assert (n < 14); [|lia]. apply pow2_lt_inv; lia.
Qed.

(** Every size up to 8 KiB has a slot. *)
Lemma get_slot_total size : 0 <= size <= 8192 -> is_Some (get_slot size).
Proof.
  intros Hs. destruct (decide (size = 0)) as [->|Hne]; [by vm_compute; eauto|].
  destruct (cached_size_pow2 size) as (n & Hn & Hr & H1 & H2); [lia|].
  rewrite (get_slot_pow2 size n) by done. eauto.
Qed.

Lemma get_slot_large size : 8192 < size -> get_slot size = None.
Proof.
  intros Hs. unfold get_slot, SizeClass_classify. destruct (Z.eqb_spec size 0); [lia|].
  destruct (Z.leb_spec size 128); [lia|]. destruct (Z.leb_spec size (8 * 1024)); [lia|].
  by destruct (size <=? 256 * 1024).
Qed.

(** A size and the slot that serves it: the block is large enough, and both ways the
    code counts its pages agree. *)
Lemma get_slot_spec size is_tiny idx :
  0 <= size -> get_slot size = Some (is_tiny, idx) ->
  slot_range is_tiny idx /\ size <= size_for_index is_tiny idx /\
  div_ceil (round_up_pow2 size) PAGE_SIZE * PAGE_SIZE = slot_bytes is_tiny idx /\
  0 < div_ceil (round_up_pow2 size) PAGE_SIZE.
Proof.
  intros Hs0 Hg. destruct (decide (size = 0)) as [->|Hne].
  { vm_compute in Hg. simplify_eq. by vm_compute. }
  destruct (decide (size <= 8192)) as [Hs|Hs].
  2:{ by rewrite get_slot_large in Hg by lia. }
  destruct (cached_size_pow2 size) as (n & Hn & Hr & H1 & H2); [lia|].
  rewrite (get_slot_pow2 size n) in Hg by done. rewrite Hr.
  each_value n Hn; injection Hg as <- <-; (split_and!; [by vm_compute| |by vm_compute|by vm_compute]);
    (eapply Z.le_trans; [exact H2|by vm_compute]).
Qed.

(** ** The invariant *)

(** The blocks cached in each slot of the two arrays. *)
Definition cached : Type := bool -> list (list Z).

Definition set_cached (b : bool) (idx : Z) (l : list Z) (f : cached) : cached :=
  fun b' => if decide (b' = b) then <[Z.to_nat idx := l]> (f b') else f b'.

Definition blocks (b : bool) (i : Z) (l : list Z) : list (Z * Z) := (fun p => (p, slot_bytes b i)) <$> l.

Definition array_exts (b : bool) (ls : list (list Z)) : list (Z * Z) :=
  concat (imap (fun i l => blocks b (Z.of_nat i) l) ls).

Definition cached_exts (f : cached) : list (Z * Z) := array_exts true (f true) ++ array_exts false (f false).

(** The memory of an allocation of [size] bytes at [p]. *)
Definition tlc_ext (x : Z * Z) : Z * Z :=
  (x.1, match get_slot x.2 with Some (b, i) => slot_bytes b i | None => 0 end).

Section invariant.
#[local] Existing Instance NonNull_link.

(** The cache holds [f], the client the allocations [L], the others [X]. *)
Record tlc_inv (x : memory * ThreadLocalCache) (f : cached) (L X : list (Z * Z)) : Prop := {
  ti_tiny : length (tiny x.2) = Z.to_nat TINY_CLASSES /\ length (f true) = Z.to_nat TINY_CLASSES;
  ti_small : length (small x.2) = Z.to_nat SMALL_CLASSES /\ length (f false) = Z.to_nat SMALL_CLASSES;
  ti_slots b i s l : slots_of b x.2 !! i = Some s -> f b !! i = Some l ->
    free_list x.1 (cs_head s) l /\ cs_count s = Z.of_nat (length l) /\ cs_count s <= CACHE_SIZE;
  ti_sizes p size : (p, size) ∈ L -> 0 <= size <= 8192;
  ti_aligned e : e ∈ (tlc_ext <$> L) ++ cached_exts f -> e.1 mod PAGE_SIZE = 0;
  ti_arena : arena x.1 ((tlc_ext <$> L) ++ cached_exts f ++ X)
}.

(** ** One slot *)

Lemma slots_of_length x f L X b :
  tlc_inv x f L X ->
  length (slots_of b x.2) = Z.to_nat (if b then TINY_CLASSES else SMALL_CLASSES) /\
  length (f b) = Z.to_nat (if b then TINY_CLASSES else SMALL_CLASSES).
Proof. intros [[] []]. by destruct b. Qed.

Lemma slot_lookup x f L X b idx :
  tlc_inv x f L X -> slot_range b idx ->
  exists s l, arr_get (slots_of b x.2) idx = Some s /\ slots_of b x.2 !! Z.to_nat idx = Some s /\
              f b !! Z.to_nat idx = Some l.
Proof.
  intros HI Hr. destruct (slots_of_length _ _ _ _ b HI) as [H1 H2]. unfold slot_range in Hr.
  destruct (arr_get_total (slots_of b x.2) idx) as [s Hs]; [lia|].
  destruct (lookup_lt_is_Some_2 (f b) (Z.to_nat idx)) as [l Hl]; [lia|].
  exists s, l. split_and!; [done| |done]. by apply arr_get_lookup in Hs as [_ ?].
Qed.

(** What is cached, with the blocks of one slot apart. *)
Lemma cached_focus f b idx l :
  0 <= idx -> f b !! Z.to_nat idx = Some l ->
  exists R, cached_exts f ≡ₚ blocks b idx l ++ R /\
            forall l', cached_exts (set_cached b idx l' f) ≡ₚ blocks b idx l' ++ R.
Proof.
  intros Hi Hl. destruct (concat_imap_focus (fun i l => blocks b (Z.of_nat i) l) (f b) _ _ Hl) as (R & HR & HR').
  rewrite Z2Nat.id in HR, HR' by done.
  destruct b; [exists (R ++ array_exts false (f false))|exists (array_exts true (f true) ++ R)];
    (split; [unfold cached_exts, array_exts; rewrite HR; solve_Permutation|]);
    intros l'; unfold cached_exts, set_cached; simpl; unfold array_exts; rewrite HR'; solve_Permutation.
Qed.

Lemma slots_of_set b b' idx s c :
  slots_of b (set_slot b' idx s c) =
  if decide (b = b') then <[Z.to_nat idx := s]> (slots_of b c) else slots_of b c.
Proof. by destruct b, b'. Qed.

Lemma set_cached_ne b idx l f b0 i0 :
  (b0, i0) <> (b, Z.to_nat idx) -> set_cached b idx l f b0 !! i0 = f b0 !! i0.
Proof.
  intros Hne. unfold set_cached. case_decide as Hb; [|done]. subst b0.
  apply list_lookup_insert_ne. congruence.
Qed.

(** Putting a slot back with another list of blocks. *)
Lemma tlc_inv_put m c f L X b idx l m' s' l' L' X' :
  tlc_inv (m, c) f L X -> 0 <= idx -> f b !! Z.to_nat idx = Some l ->
  free_list m' (cs_head s') l' -> cs_count s' = Z.of_nat (length l') -> cs_count s' <= CACHE_SIZE ->
  (forall b0 i0 l0 q, f b0 !! i0 = Some l0 -> q ∈ l0 -> (b0, i0) <> (b, Z.to_nat idx) -> agree_on m m' q 8) ->
  (forall p size, (p, size) ∈ L' -> 0 <= size <= 8192) ->
  (forall e, e ∈ (tlc_ext <$> L') ++ cached_exts (set_cached b idx l' f) -> e.1 mod PAGE_SIZE = 0) ->
  arena m' ((tlc_ext <$> L') ++ cached_exts (set_cached b idx l' f) ++ X') ->
  tlc_inv (m', set_slot b idx s' c) (set_cached b idx l' f) L' X'.
Proof.
  intros HI Hi Hl Hfl Hcnt Hmax Hag Hsz Hal Har.
  pose proof HI as [Ht Hs Hsl _ _ _]. simpl in *.
  assert (Hlen : forall b0, length (set_cached b idx l' f b0) = length (f b0)).
  { intros b0. unfold set_cached. case_decide; [apply length_insert|done]. }
  constructor; simpl; rewrite ?Hlen; try done;
    [destruct b; simpl; by rewrite ?length_insert|destruct b; simpl; by rewrite ?length_insert|].
  intros b0 i0 s0 l0. rewrite slots_of_set. unfold set_cached.
  destruct (decide (b0 = b)) as [->|Hne].
  - intros Hs0 Hl0. apply list_lookup_insert_Some in Hs0 as [(<- & <- & Hlt)|[Hne Hs0]].
    + rewrite list_lookup_insert_eq in Hl0 by by eapply lookup_lt_Some. by simplify_eq.
    + rewrite list_lookup_insert_ne in Hl0 by done. destruct (Hsl _ _ _ _ Hs0 Hl0) as (H1 & H2 & H3).
      split_and!; try done. eapply free_list_agree; [|done]. intros q Hq.
      apply (Hag b i0 l0 q Hl0 Hq). congruence.
  - intros Hs0 Hl0. destruct (Hsl _ _ _ _ Hs0 Hl0) as (H1 & H2 & H3).
    split_and!; try done. eapply free_list_agree; [|done]. intros q Hq.
    apply (Hag b0 i0 l0 q Hl0 Hq). congruence.
Qed.
End invariant.

(** ** The operations *)

Section operations.
Context `{K : Kernel} {KS : KernelSpec K}.
#[local] Existing Instance NonNull_link.

Lemma on_slot_wp {A} b idx (c : M (memory * CacheSlot) A) m t s (Q : A -> memory * ThreadLocalCache -> Prop) :
  arr_get (slots_of b t) idx = Some s ->
  wp c (fun r y => Q r (y.1, set_slot b idx y.2 t)) (m, s) -> wp (on_slot b idx c) Q (m, t).
Proof. intros Hs Hc. eapply wp_zoom; [|exact Hc]. cbn [fst snd]. by rewrite Hs. Qed.

Lemma free_block_wp p alloc_size n m (Q : unit -> memory -> Prop) :
  div_ceil alloc_size PAGE_SIZE * PAGE_SIZE = n -> 0 < div_ceil alloc_size PAGE_SIZE -> n <= 2 * PAGE_SIZE ->
  p mod PAGE_SIZE = 0 ->
  (forall m', (forall i, ~ in_ext i (p, n) -> load8 m' i = load8 m i) ->
     ((kernel_munmap m p n).1 = 0 -> forall i, in_ext i (p, n) -> load8 m' i = None) ->
     Q tt m') ->
  wp (free_block p alloc_size) Q m.
Proof.
  intros Hn Hpos Hle Hp HQ. unfold free_block. destruct (Z.ltb_spec 0 (div_ceil alloc_size PAGE_SIZE)); [|lia].
  apply PageAllocator_dealloc_wp; [unfold PAGE_SIZE in *; lia|done|]. rewrite Hn.
  intros m' r Hout Hin Hr. apply HQ; [done|]. intros Hk i Hi. rewrite Hin by done. by rewrite Hr, Hk.
Qed.

Lemma cached_elem f b0 i0 l0 q :
  f b0 !! i0 = Some l0 -> q ∈ l0 -> (q, slot_bytes b0 (Z.of_nat i0)) ∈ cached_exts f.
Proof.
  intros Hl Hq. destruct (cached_focus f b0 (Z.of_nat i0) l0) as (R & -> & _); [lia|by rewrite Nat2Z.id|].
  apply elem_of_app. left. apply list_elem_of_fmap. eauto.
Qed.

(** Memory that changes inside one extent of the arena leaves the links of the others. *)
Lemma cached_agree x f L X e Y m' :
  tlc_inv x f L X -> arena x.1 (e :: cached_exts f ++ Y) ->
  (forall i, ~ in_ext i e -> load8 m' i = load8 x.1 i) ->
  forall b0 i0 l0 q, f b0 !! i0 = Some l0 -> q ∈ l0 -> agree_on x.1 m' q 8.
Proof.
  intros HI Har Hout b0 i0 l0 q Hl Hq i Hi. symmetry. apply Hout. intros Hie.
  destruct (slots_of_length _ _ _ _ b0 HI) as [_ Hlen].
  apply lookup_lt_Some in Hl as Hlt.
  destruct (slot_bytes_cases b0 (Z.of_nat i0)) as (_ & Hsb & _).
  { unfold slot_range. destruct b0; unfold TINY_CLASSES, SMALL_CLASSES in *; lia. }
  apply (arena_disj _ _ _ (q, slot_bytes b0 (Z.of_nat i0)) Har) with i; [|done|].
  - apply elem_of_app. left. by eapply cached_elem.
  - unfold in_ext, PAGE_SIZE in *. simpl. lia.
Qed.

(** [alloc] of [size] bytes, by the blocks [l] cached in the slot of the size: the block
    cached last, without touching memory, or when there is none pages of the slot's size;
    nothing when the kernel refused these. *)
Definition tlc_alloc_post (x : memory * ThreadLocalCache) (f : cached) (L X : list (Z * Z)) (size : Z)
    (r : option Z) (x' : memory * ThreadLocalCache) : Prop :=
  exists b idx l, get_slot size = Some (b, idx) /\ f b !! Z.to_nat idx = Some l /\
  same_bytes ((tlc_ext <$> L) ++ X) x.1 x'.1 /\
  match l, r with
  | p :: _, Some q => q = p /\ x'.1 = x.1
  | p :: _, None => False
  | [], Some q => fresh_mapping x.1 x'.1 q (slot_bytes b idx)
  | [], None => x' = x /\ kernel_mmap x.1 (slot_bytes b idx) = None
  end /\
  forall q, r = Some q -> q mod PAGE_SIZE = 0 /\ size <= slot_bytes b idx /\
    tlc_inv x' (set_cached b idx (tail l) f) ((q, size) :: L) X.

Section one_slot.
Context (m : memory) (t : ThreadLocalCache) (f : cached) (L X : list (Z * Z)).
Context (b : bool) (idx size : Z) (s : CacheSlot) (l : list Z).
Context (HI : tlc_inv (m, t) f L X) (Hsize : 0 <= size <= 8192) (Hg : get_slot size = Some (b, idx)).
Context (Hs : slots_of b t !! Z.to_nat idx = Some s) (Hl : f b !! Z.to_nat idx = Some l).

Lemma idx_pos : 0 <= idx.
Proof. destruct (get_slot_spec size b idx) as (Hr & _); [lia|done|]. unfold slot_range in Hr. lia. Qed.

Lemma tlc_ext_slot p : tlc_ext (p, size) = (p, slot_bytes b idx).
Proof. unfold tlc_ext. simpl. by rewrite Hg. Qed.

Lemma size_fits : size <= slot_bytes b idx.
Proof.
  destruct (get_slot_spec size b idx) as (Hr & Hle & _); [lia|done|].
  destruct (slot_bytes_cases b idx Hr) as ([_ Hb] & _). lia.
Qed.

(** A block is taken from the cache. *)
Lemma pop_cached_block p l' nx :
  l = p :: l' -> free_list m nx l' ->
  tlc_inv (m, set_slot b idx {| cs_head := nx; cs_count := cs_count s -! 1 |} t)
    (set_cached b idx l' f) ((p, size) :: L) X /\ p mod PAGE_SIZE = 0.
Proof.
  intros -> Hfl. pose proof HI as [_ _ Hsl Hsz Hal Har].
  destruct (Hsl _ _ _ _ Hs Hl) as (_ & Hc & Hc32). simpl in *. unfold CACHE_SIZE in *.
  destruct (cached_focus f b idx _ idx_pos Hl) as (R & HR & HR'). unfold blocks in HR. simpl in HR.
  assert (Hperm : (tlc_ext <$> ((p, size) :: L)) ++ cached_exts (set_cached b idx l' f) ≡ₚ
                  (tlc_ext <$> L) ++ cached_exts f).
  { rewrite HR, HR', fmap_cons, tlc_ext_slot. unfold blocks. solve_Permutation. }
  assert (Hw : cs_count s -! 1 = Z.of_nat (length l')).
  { rewrite Hc. rewrite wrap64_small by (unfold is_usize; lia). lia. }
  split.
  - apply (tlc_inv_put m t f L X b idx (p :: l')); simpl; try done.
    + apply idx_pos.
    + rewrite Hw. unfold CACHE_SIZE. lia.
    + intros p' size' [?|Hin]%elem_of_cons; [by simplify_eq|by eapply Hsz].
    + intros e He. apply Hal. by rewrite <- Hperm.
    + eapply arena_perm; [|exact Har]. by rewrite !app_assoc, <- Hperm.
  - apply (Hal (p, slot_bytes b idx)). apply elem_of_app. right. rewrite HR. by left.
Qed.

(** A block with pages of its own joins the client's. *)
Lemma fresh_block m' p :
  fresh_mapping m m' p (slot_bytes b idx) ->
  tlc_inv (m', set_slot b idx s t) (set_cached b idx l f) ((p, size) :: L) X /\
  same_bytes ((tlc_ext <$> L) ++ X) m m'.
Proof.
  intros Hf. pose proof (fresh_mapping_extends _ _ _ _ Hf) as Hx. pose proof HI as [_ _ Hsl Hsz Hal Har].
  simpl in *. destruct (Hsl _ _ _ _ Hs Hl) as (Hfl & Hc & Hc32).
  destruct (get_slot_spec size b idx) as (Hrg & _); [lia|done|].
  destruct (slot_bytes_cases b idx Hrg) as (_ & Hsb & _).
  destruct (cached_focus f b idx _ idx_pos Hl) as (R & HR & HR').
  assert (Hc' : cached_exts (set_cached b idx l f) ≡ₚ cached_exts f) by (rewrite HR', HR; done).
  assert (Har' : arena m' ((p, slot_bytes b idx) :: (tlc_ext <$> L) ++ cached_exts f ++ X)).
  { apply (fresh_mapping_arena m); [done|unfold PAGE_SIZE in *; lia|done]. }
  assert (Hag : forall b0 i0 l0 q, f b0 !! i0 = Some l0 -> q ∈ l0 -> agree_on m m' q 8).
  { intros b0 i0 l0 q Hl0 Hq i Hi. symmetry. apply Hx. pose proof (cached_elem _ _ _ _ _ Hl0 Hq) as Hin.
    destruct (slots_of_length _ _ _ _ b0 HI) as [_ Hlen]. apply lookup_lt_Some in Hl0.
    destruct (slot_bytes_cases b0 (Z.of_nat i0)) as (_ & Hsb0 & _).
    { unfold slot_range. destruct b0; unfold TINY_CLASSES, SMALL_CLASSES in *; lia. }
    destruct (arena_ok _ _ (q, slot_bytes b0 (Z.of_nat i0)) Har) as (_ & _ & _ & _ & Ha);
      [rewrite !elem_of_app; by right; left|]. apply Ha. simpl. unfold PAGE_SIZE in *. lia. }
  split.
  - apply (tlc_inv_put m t f L X b idx l); try done.
    + apply idx_pos.
    + eapply free_list_agree; [|done]. intros q Hq. by apply (Hag b (Z.to_nat idx) l q).
    + intros b0 i0 l0 q Hl0 Hq _. by apply (Hag b0 i0 l0 q).
    + intros p' size' [?|Hin]%elem_of_cons; [by simplify_eq|by eapply Hsz].
    + intros e He. rewrite Hc' in He. rewrite fmap_cons, tlc_ext_slot in He.
      apply elem_of_cons in He as [->|He]; [by destruct Hf as (_ & ? & _)|by apply Hal].
    + eapply arena_perm; [|exact Har']. rewrite Hc', fmap_cons, tlc_ext_slot. done.
  - eapply (same_bytes_extends _ (cached_exts f)); [|done]. eapply arena_perm; [|exact Har]. solve_Permutation.
Qed.
End one_slot.

Lemma tlc_alloc_wp x f L X size (Q : option Z -> memory * ThreadLocalCache -> Prop) :
  tlc_inv x f L X -> 0 <= size <= 8192 ->
  (forall r x', tlc_alloc_post x f L X size r x' -> Q r x') ->
  wp (ThreadLocalCache_alloc size) Q x.
Proof.
  intros HI Hsize HQ. destruct (get_slot_total size Hsize) as [[b idx] Hg].
  destruct (get_slot_spec size b idx) as (Hrg & _); [lia|done|].
  destruct (slot_lookup _ _ _ _ _ _ HI Hrg) as (s & l & Hget & Hs & Hl). destruct x as [m t].
  pose proof (size_fits b idx size Hsize Hg) as Hfit.
  unfold ThreadLocalCache_alloc. rewrite Hg. eapply on_slot_wp; [exact Hget|].
  unfold slot_alloc. apply wp_bind, wp_gets. cbn [fst snd] in *.
  destruct (ti_slots _ _ _ _ HI b _ _ _ Hs Hl) as (Hfl & Hc & Hc32). cbn [fst snd] in Hfl.
  destruct (cs_head s) as [p|] eqn:Hh.
  - destruct (free_list_Some _ _ _ Hfl) as (l' & nx & Hll & Hnx & Hfl').
    apply wp_bind. eapply wp_or_fault; [exact Hnx|]. apply wp_bind, wp_modify, wp_ret. apply HQ.
    destruct (pop_cached_block m t f L X b idx size s l HI Hsize Hg Hs Hl p l' nx Hll Hfl') as [HI' Hp].
    exists b, idx, l. split; [done|]. split; [done|]. split; [done|]. rewrite Hll. split; [done|].
    intros q [= <-]. done.
  - assert (Hnil : l = []) by by eapply free_list_None. subst l.
    eapply wp_zoom; [done|]. destruct (slot_bytes_cases b idx Hrg) as (_ & Hsb & Hdc & Hdp).
    apply PageAllocator_alloc_wp; [unfold PAGE_SIZE in *; lia| |].
    + intros Hk. apply HQ. exists b, idx, []. split; [done|]. split; [done|]. split; [done|]. split; [|done]. split; [|exact Hk].
      f_equal. destruct t as [ti sm]. destruct b; simpl in *; f_equal; by apply list_insert_id.
    + intros p m' Hf. apply HQ.
      destruct (fresh_block m t f L X b idx size s [] HI Hsize Hg Hs Hl m' p Hf) as [HI' Hsb'].
      exists b, idx, []. split; [done|]. split; [done|]. split; [done|]. split; [done|].
      intros q [= <-]. by destruct Hf as (_ & ? & _).
Qed.

(** [dealloc] of the block [p] of [size] bytes, by the blocks [l] cached in its slot: the
    block joins them while they are fewer than [CACHE_SIZE]; otherwise its pages go back to
    the kernel, and no other byte changes. *)
Definition tlc_dealloc_post (x : memory * ThreadLocalCache) (f : cached) (p size : Z) (L X : list (Z * Z))
    (x' : memory * ThreadLocalCache) : Prop :=
  exists b idx l, get_slot size = Some (b, idx) /\ f b !! Z.to_nat idx = Some l /\
  same_bytes ((tlc_ext <$> L) ++ X) x.1 x'.1 /\
  if Z.of_nat (length l) <? CACHE_SIZE
  then tlc_inv x' (set_cached b idx (p :: l) f) L X
  else tlc_inv x' (set_cached b idx l f) L X /\
       (forall i, ~ in_ext i (p, slot_bytes b idx) -> load8 x'.1 i = load8 x.1 i) /\
       ((kernel_munmap x.1 p (slot_bytes b idx)).1 = 0 ->
        forall i, in_ext i (p, slot_bytes b idx) -> load8 x'.1 i = None).

Section giving.
Context (m : memory) (t : ThreadLocalCache) (f : cached) (L X : list (Z * Z)).
Context (b : bool) (idx p size : Z) (s : CacheSlot) (l : list Z).
Context (HI : tlc_inv (m, t) f ((p, size) :: L) X) (Hg : get_slot size = Some (b, idx)).
Context (Hs : slots_of b t !! Z.to_nat idx = Some s) (Hl : f b !! Z.to_nat idx = Some l).
Context (m' : memory) (n : Z) (Hn : 0 <= n <= slot_bytes b idx).
Context (Hout : forall i, ~ in_ext i (p, n) -> load8 m' i = load8 m i).

Lemma size_ok : 0 <= size <= 8192.
Proof. apply (ti_sizes _ _ _ _ HI p size). by left. Qed.

Lemma giving_arena :
  arena m ((p, slot_bytes b idx) :: cached_exts f ++ (tlc_ext <$> L) ++ X).
Proof.
  eapply arena_perm; [|exact (ti_arena _ _ _ _ HI)].
  rewrite fmap_cons, (tlc_ext_slot b idx size) by done. simpl. solve_Permutation.
Qed.

Lemma giving_same : same_bytes ((tlc_ext <$> L) ++ X) m m'.
Proof.
  intros e i He Hi. apply Hout. intros Hi'. apply (arena_disj _ _ _ e giving_arena) with i; [|unfold in_ext in *; simpl in *; lia|done].
  apply elem_of_app. by right.
Qed.

(** The slot is put back with the list [l']; the rest of memory is as it was. *)
Lemma giving_put s' l' :
  free_list m' (cs_head s') l' -> cs_count s' = Z.of_nat (length l') -> cs_count s' <= CACHE_SIZE ->
  (forall q, q ∈ l' -> q ∈ p :: l) ->
  arena m' (cached_exts (set_cached b idx l' f) ++ (tlc_ext <$> L) ++ X) ->
  tlc_inv (m', set_slot b idx s' t) (set_cached b idx l' f) L X.
Proof.
  intros Hfl Hc Hmax Hsub Har. pose proof size_ok as Hsz. pose proof HI as [_ _ _ Hszs Hal _]. simpl in *.
  pose proof (idx_pos b idx size Hsz Hg) as Hi0.
  destruct (cached_focus f b idx l Hi0 Hl) as (R & HR & HR').
  apply (tlc_inv_put m t f ((p, size) :: L) X b idx l); try done.
  - intros b0 i0 l0 q Hl0 Hq _. apply (cached_agree (m, t) f _ X (p, slot_bytes b idx) ((tlc_ext <$> L) ++ X) m' HI)
      with b0 i0 l0; [apply giving_arena| |done|done].
    intros i Hi. apply Hout. unfold in_ext in *. simpl in *. lia.
  - intros p' size' Hin. apply (Hszs p' size'). by right.
  - intros e He. rewrite HR' in He. rewrite !elem_of_app in He. destruct He as [He|[He|He]].
    + apply Hal. rewrite elem_of_cons, elem_of_app. tauto.
    + unfold blocks in He. apply list_elem_of_fmap in He as (q & -> & Hq).
      apply Hsub, elem_of_cons in Hq as [->|Hq]; simpl.
      * apply (Hal (tlc_ext (p, size))). by left.
      * apply (Hal (q, slot_bytes b idx)). right. apply elem_of_app. right. rewrite HR.
        apply elem_of_app. left. apply list_elem_of_fmap. eauto.
    + apply Hal. rewrite elem_of_cons, elem_of_app, HR, elem_of_app. tauto.
  - eapply arena_perm; [|exact Har]. solve_Permutation.
Qed.

(** The rest of the arena survives. *)
Lemma giving_rest : arena m' (cached_exts f ++ (tlc_ext <$> L) ++ X).
Proof.
  pose proof giving_arena as Har. eapply arena_mem_mono; [|by apply (arena_drop _ [_]) in Har].
  intros e i He Hi Hld. rewrite Hout; [done|]. intros Hi'.
  apply (arena_disj _ _ _ e Har He) with i; [|done]. unfold in_ext in *. simpl in *. lia.
Qed.
End giving.

Section freeing.
Context (m : memory) (t : ThreadLocalCache) (f : cached) (L X : list (Z * Z)).
Context (b : bool) (idx p size : Z) (s : CacheSlot) (l : list Z).
Context (HI : tlc_inv (m, t) f ((p, size) :: L) X) (Hg : get_slot size = Some (b, idx)).
Context (Hs : slots_of b t !! Z.to_nat idx = Some s) (Hl : f b !! Z.to_nat idx = Some l).
Context (Hfl : free_list m (cs_head s) l) (Hc : cs_count s = Z.of_nat (length l)).

(** The block goes back to the kernel. *)
Lemma free_full_wp (Q : unit -> memory * ThreadLocalCache -> Prop) :
  CACHE_SIZE <= cs_count s <= CACHE_SIZE ->
  (forall x', tlc_dealloc_post (m, t) f p size L X x' -> Q tt x') ->
  wp (slot_mem (free_block p (round_up_pow2 size))) (fun r y => Q r (y.1, set_slot b idx y.2 t)) (m, s).
Proof.
  intros Hfull HQ. pose proof (size_ok _ _ _ _ _ _ _ HI) as Hsize.
  destruct (get_slot_spec size b idx) as (Hrg & _ & Hdc & Hdp); [lia|done|].
  destruct (slot_bytes_cases b idx Hrg) as (_ & Hsb & _). pose proof (idx_pos b idx size Hsize Hg) as Hi0.
  destruct (cached_focus f b idx l Hi0 Hl) as (R & HR & HR').
  eapply wp_zoom; [done|]. apply (free_block_wp _ _ (slot_bytes b idx)); [done|done|unfold PAGE_SIZE in *; lia| |].
  { pose proof (ti_aligned _ _ _ _ HI (tlc_ext (p, size))) as Ha. apply Ha. by left. }
  intros m' Hout Hun. apply HQ. cbn [fst snd].
  assert (Hn : 0 <= slot_bytes b idx <= slot_bytes b idx) by (unfold PAGE_SIZE in *; lia).
  assert (Hceq : cached_exts (set_cached b idx l f) ≡ₚ cached_exts f) by (rewrite HR', HR; done).
  exists b, idx, l. split_and!; [done|done|by eapply giving_same|]. rewrite <- Hc.
  destruct (Z.ltb_spec (cs_count s) CACHE_SIZE); [lia|]. split; [|by split].
  eapply giving_put; try done; [|lia| |].
  - eapply free_list_agree; [|exact Hfl]. intros q Hq.
    eapply (cached_agree (m, t) f _ X); [exact HI|by eapply giving_arena| |exact Hl|done]. exact Hout.
  - intros q Hq. by right.
  - rewrite Hceq. by eapply giving_rest.
Qed.

(** The block joins its slot. *)
Lemma free_room_wp (Q : unit -> memory * ThreadLocalCache -> Prop) :
  cs_count s < CACHE_SIZE ->
  (forall x', tlc_dealloc_post (m, t) f p size L X x' -> Q tt x') ->
  wp (m' ← or_fault (link_write m p (cs_head s));
      modifyS (fun x => (m', {| cs_head := Some p; cs_count := cs_count x.2 +! 1 |})))
    (fun r y => Q r (y.1, set_slot b idx y.2 t)) (m, s).
Proof.
  intros Hroom HQ. pose proof (size_ok _ _ _ _ _ _ _ HI) as Hsize.
  destruct (get_slot_spec size b idx) as (Hrg & _ & Hdc & Hdp); [lia|done|].
  destruct (slot_bytes_cases b idx Hrg) as (_ & Hsb & _). pose proof (idx_pos b idx size Hsize Hg) as Hi0.
  destruct (cached_focus f b idx l Hi0 Hl) as (R & HR & HR').
  pose proof (giving_arena m t f L X b idx p size HI Hg) as Har.
  pose proof (arena_ok _ _ _ Har (list_elem_of_here _ _)) as (_ & _ & _ & _ & Hacc). simpl in Hacc.
  destruct (lk_write m p (cs_head s)) as (m' & Hw & Hch & Hrd).
  { eapply accessible_sub; [done|lia|unfold PAGE_SIZE in *; simpl; lia]. }
  { destruct (cs_head s) as [q|]; [|done]. destruct (free_list_Some _ _ _ Hfl) as (l' & nx & -> & _).
    destruct (arena_ok _ _ (q, slot_bytes b idx) Har) as (? & _ & _ & Ht & _).
    { right. apply elem_of_app. left. rewrite HR. by left. }
    unfold USER_TOP in Ht. unfold PAGE_SIZE in *. simpl in *. lia. }
  apply wp_bind. eapply wp_or_fault; [exact Hw|]. apply wp_modify. apply HQ. cbn [fst snd].
  assert (Hn : 0 <= 8 <= slot_bytes b idx) by (unfold PAGE_SIZE in *; lia).
  assert (Hout : forall i, ~ in_ext i (p, 8) -> load8 m' i = load8 m i) by apply Hch.
  assert (Hw1 : cs_count s +! 1 = Z.of_nat (S (length l)))
    by (rewrite wrap64_small by (unfold is_usize, CACHE_SIZE in *; lia); lia).
  exists b, idx, l. split_and!; [done|done|by eapply giving_same|]. rewrite <- Hc.
  destruct (Z.ltb_spec (cs_count s) CACHE_SIZE); [|lia]. eapply giving_put; try done.
  - apply (free_list_push m m' (cs_head s) l p (slot_bytes b idx)); [unfold PAGE_SIZE in *; simpl; lia|done|done| |done].
    rewrite Forall_forall. intros q Hq. eapply arena_disj; [exact Har|]. apply elem_of_app. left.
    rewrite HR. apply elem_of_app. left. apply list_elem_of_fmap. eauto.
  - simpl. rewrite Hw1. unfold CACHE_SIZE in *. lia.
  - rewrite HR'. eapply arena_changes; [exact Hch|]. eapply arena_perm; [|exact Har].
    rewrite HR. unfold blocks. simpl. solve_Permutation.
Qed.
End freeing.

Lemma tlc_dealloc_wp x f p size L X (Q : unit -> memory * ThreadLocalCache -> Prop) :
  tlc_inv x f ((p, size) :: L) X ->
  (forall x', tlc_dealloc_post x f p size L X x' -> Q tt x') ->
  wp (ThreadLocalCache_dealloc p size) Q x.
Proof.
  intros HI HQ. destruct x as [m t]. pose proof (size_ok _ _ _ _ _ _ _ HI) as Hsize.
  destruct (get_slot_total size Hsize) as [[b idx] Hg].
  destruct (get_slot_spec size b idx) as (Hrg & _); [lia|done|].
  destruct (slot_lookup _ _ _ _ _ _ HI Hrg) as (s & l & Hget & Hs & Hl). cbn [snd] in *.
  destruct (ti_slots _ _ _ _ HI b _ _ _ Hs Hl) as (Hfl & Hc & Hc32). cbn [fst snd] in Hfl.
  unfold ThreadLocalCache_dealloc. rewrite Hg. eapply on_slot_wp; [exact Hget|].
  unfold slot_dealloc. apply wp_bind, wp_gets. cbn [fst snd].
  destruct (Z.leb_spec CACHE_SIZE (cs_count s)) as [Hfull|Hroom].
  - by eapply (free_full_wp m t f L X b idx p size s l).
  - by eapply (free_room_wp m t f L X b idx p size s l).
Qed.

(** ** [clear] *)

(** Outside the extents [E] memory is as it was, and they are unmapped. *)
Definition cleared (m m' : memory) (E : list (Z * Z)) : Prop :=
  (forall i, (forall e, e ∈ E -> ~ in_ext i e) -> load8 m' i = load8 m i) /\
  ((forall a b k, (kernel_munmap a b k).1 = 0) ->
   forall e i, e ∈ E -> in_ext i e -> load8 m' i = None).

Lemma cleared_app m1 m2 m3 E1 E2 : cleared m1 m2 E1 -> cleared m2 m3 E2 -> cleared m1 m3 (E1 ++ E2).
Proof.
  intros [O1 U1] [O2 U2]. split.
  - intros i Hi. rewrite O2, O1; [done| |]; intros e He; apply Hi, elem_of_app; tauto.
  - intros Hk e i He Hi. destruct (decide (Exists (fun e => in_ext i e) E2)) as [Hx|Hx].
    + apply Exists_exists in Hx as (e2 & He2 & Hi2). by apply (U2 Hk e2).
    + rewrite O2.
      * apply elem_of_app in He as [He|He]; [by apply (U1 Hk e)|].
        exfalso. apply Hx, Exists_exists. eauto.
      * intros e2 He2 Hi2. apply Hx, Exists_exists. eauto.
Qed.

Lemma cleared_perm m m' E E' : E ≡ₚ E' -> cleared m m' E -> cleared m m' E'.
Proof.
  intros HE [O U]. split.
  - intros i Hi. apply O. intros e He. apply Hi. by rewrite <- HE.
  - intros Hk e i He. apply (U Hk). by rewrite HE.
Qed.

Lemma cleared_arena m m' E Y : arena m (E ++ Y) -> cleared m m' E -> arena m' Y /\ same_bytes Y m m'.
Proof.
  intros Har [O _]. pose proof (arena_drop _ _ _ Har) as HarY.
  assert (Hsame : same_bytes Y m m').
  { intros e i He Hi. apply O. intros e' He' Hi'. destruct Har as [Hd _].
    apply all_disjoint_app in Hd as (_ & _ & Hd). rewrite Forall_forall in Hd.
    specialize (Hd e' He'). rewrite Forall_forall in Hd. by apply (Hd e He i). }
  split; [|done]. eapply arena_mem_mono; [|exact HarY]. intros e i He Hi Hld. by rewrite (Hsame e i He Hi).
Qed.

Lemma clear_loop_wp b idx l : forall fuel h m (Q : unit -> memory -> Prop),
  slot_range b idx -> (length l <= fuel)%nat -> free_list m h l -> all_disjoint (blocks b idx l) ->
  Forall (fun p => p mod PAGE_SIZE = 0) l ->
  (forall m', cleared m m' (blocks b idx l) -> Q tt m') -> wp (clear_loop fuel b idx h) Q m.
Proof.
  induction l as [|p l IH]; intros fuel h m Q Hrg Hlen Hfl Hd Hal HQ.
  - simpl in Hfl. subst h. destruct fuel; simpl; apply wp_ret; apply HQ; split; try done;
      intros _ e i He; by apply elem_of_nil in He.
  - destruct Hfl as (-> & nx & Hnx & Hfl). destruct fuel as [|fuel]; simpl in Hlen; [lia|].
    destruct (slot_bytes_cases b idx Hrg) as (_ & Hsb & Hdc & Hdp).
    apply Forall_cons in Hal as [Hp Hal]. destruct Hd as [Hd Hd'].
    simpl clear_loop. apply wp_bind, wp_gets. apply wp_bind. eapply wp_or_fault; [exact Hnx|].
    apply wp_bind. apply (free_block_wp _ _ (slot_bytes b idx)); [done|done|unfold PAGE_SIZE in *; lia|done|].
    intros m1 Hout Hun. apply IH; [done|lia| |done|done|].
    + eapply free_list_agree; [|done]. intros q Hq i Hi. symmetry. apply Hout. intros Hi'.
      unfold blocks in Hd. rewrite Forall_fmap, Forall_forall in Hd.
      apply (Hd q Hq i); [done|]. unfold in_ext, PAGE_SIZE in *. simpl in *. lia.
    + intros m2 Hcl. apply HQ. change (blocks b idx (p :: l)) with ([(p, slot_bytes b idx)] ++ blocks b idx l).
      apply (cleared_app _ m1); [|done]. split.
      * intros i Hi. apply Hout, Hi. by left.
      * intros Hk e i He%list_elem_of_singleton. subst e. apply Hun, Hk.
Qed.

Lemma clear_slot_wp m t f L X b idx l (Q : unit -> memory * ThreadLocalCache -> Prop) :
  tlc_inv (m, t) f L X -> slot_range b idx -> f b !! Z.to_nat idx = Some l ->
  (forall x', tlc_inv x' (set_cached b idx [] f) L X -> cleared m x'.1 (blocks b idx l) -> Q tt x') ->
  wp (on_slot b idx (clear_slot b idx)) Q (m, t).
Proof.
  intros HI Hrg Hl HQ. assert (Hi0 : 0 <= idx) by (unfold slot_range in Hrg; lia).
  destruct (slot_lookup _ _ _ _ _ _ HI Hrg) as (s & l0 & Hget & Hs & Hl0). simplify_eq.
  destruct (cached_focus f b idx l Hi0 Hl) as (R & HR & HR').
  pose proof HI as [_ _ Hsl Hsz Hal Har]. destruct (Hsl _ _ _ _ Hs Hl) as (Hfl & Hc & Hc32).
  cbn [fst snd] in *. eapply on_slot_wp; [exact Hget|]. unfold clear_slot.
  apply wp_bind, wp_gets. apply wp_bind. eapply wp_zoom; [done|]. cbn [fst snd].
  assert (Har' : arena m (blocks b idx l ++ (tlc_ext <$> L) ++ R ++ X)).
  { eapply arena_perm; [|exact Har]. rewrite HR. solve_Permutation. }
  apply (clear_loop_wp b idx l); [done| |done| | |].
  - unfold CACHE_SIZE in *. lia.
  - destruct Har' as [Hd _]. by apply all_disjoint_app in Hd as [? _].
  - rewrite Forall_forall. intros p Hp. apply (Hal (p, slot_bytes b idx)). apply elem_of_app. right.
    rewrite HR. apply elem_of_app. left. apply list_elem_of_fmap. eauto.
  - intros m' Hcl. apply wp_modify. apply HQ; [|done]. cbn [fst snd].
    destruct (cleared_arena _ _ _ _ Har' Hcl) as [Har2 Hsame].
    apply (tlc_inv_put m t f L X b idx l); try done.
    + intros b0 i0 l1 q Hl1 Hq Hne i Hi. symmetry.
      rewrite <- (set_cached_ne b idx [] f b0 i0) in Hl1 by done.
      pose proof (cached_elem _ _ _ _ _ Hl1 Hq) as Hin. rewrite HR' in Hin. simpl in Hin.
      destruct (slots_of_length _ _ _ _ b0 HI) as [_ Hlen].
      rewrite (set_cached_ne b idx [] f b0 i0) in Hl1 by done. apply lookup_lt_Some in Hl1.
      destruct (slot_bytes_cases b0 (Z.of_nat i0)) as (_ & Hsb & _).
      { unfold slot_range. destruct b0; unfold TINY_CLASSES, SMALL_CLASSES in *; lia. }
      apply (Hsame (q, slot_bytes b0 (Z.of_nat i0))); [rewrite !elem_of_app; tauto|].
      unfold in_ext, PAGE_SIZE in *. simpl. lia.
    + intros e He. apply Hal. rewrite HR' in He. rewrite HR. revert He. rewrite !elem_of_app.
      unfold blocks at 1. simpl. rewrite elem_of_nil. tauto.
    + rewrite HR'. eapply arena_perm; [|exact Har2]. unfold blocks. simpl. solve_Permutation.
Qed.

(** The slots of one array, from [i] on. *)
Lemma clear_slots_wp (b : bool) (n : nat) : forall i x f L X (Q : unit -> memory * ThreadLocalCache -> Prop),
  tlc_inv x f L X -> 0 <= i -> i + Z.of_nat n = (if b then TINY_CLASSES else SMALL_CLASSES) ->
  (forall x' f' E, tlc_inv x' f' L X -> cleared x.1 x'.1 E -> cached_exts f ≡ₚ E ++ cached_exts f' ->
     (forall b', b' <> b -> f' b' = f b') -> (forall j, (j < Z.to_nat i)%nat -> f' b !! j = f b !! j) ->
     (forall j l, (Z.to_nat i <= j)%nat -> f' b !! j = Some l -> l = []) -> Q tt x') ->
  wp (clear_slots b n i) Q x.
Proof.
  induction n as [|n IH]; intros i x f L X Q HI Hi Hn HQ.
  - apply wp_ret. apply (HQ x f []); try done; [split; [done|intros _ e k He; by apply elem_of_nil in He]|].
    intros j l Hj Hl. apply lookup_lt_Some in Hl. destruct (slots_of_length _ _ _ _ b HI). lia.
  - assert (Hrg : slot_range b i) by (unfold slot_range; lia).
    destruct (slot_lookup _ _ _ _ _ _ HI Hrg) as (s & l & Hget & Hs & Hl).
    destruct (cached_focus f b i l Hi Hl) as (R & HR & HR'). destruct x as [m t].
    simpl clear_slots. apply wp_bind. eapply clear_slot_wp; [exact HI|done|exact Hl|].
    intros x1 HI1 Hcl1. eapply IH; [exact HI1|lia|lia|].
    intros x2 f2 E HI2 Hcl2 HE Hb Hlt Hge. apply (HQ x2 f2 (blocks b i l ++ E)); [done| | |..].
    + by eapply cleared_app.
    + rewrite HR, <- app_assoc, <- HE, HR'. done.
    + intros b' Hb'. rewrite (Hb b' Hb'). unfold set_cached. by rewrite decide_False.
    + intros j Hj. rewrite Hlt by lia. apply set_cached_ne. intros He. simplify_eq. lia.
    + intros j l' Hj Hl'. destruct (decide (j = Z.to_nat i)) as [->|Hne].
      * rewrite Hlt in Hl' by lia. unfold set_cached in Hl'. rewrite decide_True in Hl' by done.
        rewrite list_lookup_insert_eq in Hl' by by eapply lookup_lt_Some. by simplify_eq.
      * apply (Hge j); [lia|done].
Qed.

Lemma array_exts_nil b (ls : list (list Z)) : (forall j l, ls !! j = Some l -> l = []) -> array_exts b ls = [].
Proof.
  intros Hall. assert (Hn : Forall (fun l => l = []) (imap (fun i l => blocks b (Z.of_nat i) l) ls)).
  { apply Forall_forall. intros l Hl. apply elem_of_lookup_imap in Hl as (i & l0 & -> & Hl0).
    by rewrite (Hall i l0 Hl0). }
  unfold array_exts. induction Hn as [|l ls' -> _ IH]; simpl; done.
Qed.

Lemma tlc_clear_wp x f L X (Q : unit -> memory * ThreadLocalCache -> Prop) :
  tlc_inv x f L X ->
  (forall x' f', tlc_inv x' f' L X -> cached_exts f' = [] -> cleared x.1 x'.1 (cached_exts f) -> Q tt x') ->
  wp ThreadLocalCache_clear Q x.
Proof.
  intros HI HQ. unfold ThreadLocalCache_clear. apply wp_bind.
  eapply clear_slots_wp; [exact HI|lia|done|]. intros x1 f1 E1 HI1 Hcl1 HE1 Hb1 _ Hge1.
  eapply clear_slots_wp; [exact HI1|lia|done|]. intros x2 f2 E2 HI2 Hcl2 HE2 Hb2 _ Hge2.
  assert (Hnil : cached_exts f2 = []).
  { unfold cached_exts. rewrite !array_exts_nil; [done| |].
    - intros j l Hl. apply (Hge2 j l); [simpl; lia|done].
    - intros j l Hl. rewrite (Hb2 true) in Hl by done. apply (Hge1 j l); [simpl; lia|done]. }
  apply (HQ x2 f2); [done|done|]. apply (cleared_perm _ _ (E1 ++ E2)); [|by eapply cleared_app].
  rewrite HE1, HE2, Hnil. solve_Permutation.
Qed.

(** ** Theorems *)

(** C31: for every size up to 8 KiB [alloc] takes the block that was cached last in the
    slot of the size, without touching memory, or, when the slot is empty, maps the pages of
    the slot's size; the block is page-aligned, at least as large as asked for and disjoint
    from everything in use or still cached, and the bytes of all others are as before.
    Nothing is returned, and nothing changed, only when the slot is empty and the kernel
    refused just these pages; and for larger sizes, which have no slot. *)
Theorem tlc_alloc_correct x f L X size :
  tlc_inv x f L X -> is_usize size ->
  if size <=? 8192
  then exists r x', ThreadLocalCache_alloc size x = Ret (r, x') /\ tlc_alloc_post x f L X size r x'
  else ThreadLocalCache_alloc size x = Ret (None, x).
Proof.
  intros HI Hu. unfold is_usize in Hu. destruct (Z.leb_spec size 8192).
  - by apply (tlc_alloc_wp x f L X size); [|lia|].
  - unfold ThreadLocalCache_alloc. by rewrite get_slot_large.
Qed.

(** C32: [dealloc] of an allocation with its size puts the block in front of those cached
    in the slot of the size when they are fewer than 32; otherwise it asks the kernel to
    unmap exactly the block's pages, and no other byte changes.  In both cases the other
    allocations keep their bytes, and the other slots what they cache. *)
Theorem tlc_dealloc_correct x f p size L X :
  tlc_inv x f ((p, size) :: L) X ->
  exists x', ThreadLocalCache_dealloc p size x = Ret (tt, x') /\ tlc_dealloc_post x f p size L X x'.
Proof.
  intros HI. destruct (tlc_dealloc_wp x f p size L X (fun _ => tlc_dealloc_post x f p size L X) HI)
    as ([] & x' & ? & ?); [done|]. eauto.
Qed.

(** [clear] ends within the 32 rounds per slot the model allows, empties every slot
    and unmaps every cached block, and touches nothing of what the clients hold. *)
Theorem tlc_clear_correct x f L X :
  tlc_inv x f L X ->
  exists x' f', ThreadLocalCache_clear x = Ret (tt, x') /\ tlc_inv x' f' L X /\ cached_exts f' = [] /\
    cleared x.1 x'.1 (cached_exts f) /\ same_bytes ((tlc_ext <$> L) ++ X) x.1 x'.1.
Proof.
  intros HI. assert (wp ThreadLocalCache_clear (fun _ x' => exists f', tlc_inv x' f' L X /\
    cached_exts f' = [] /\ cleared x.1 x'.1 (cached_exts f)) x) as ([] & x' & Hr & f' & HI' & Hn & Hc).
  { apply (tlc_clear_wp x f L X); [done|]. eauto. }
  exists x', f'. split_and!; try done. eapply cleared_arena; [|exact Hc].
  eapply arena_perm; [|exact (ti_arena _ _ _ _ HI)]. solve_Permutation.
Qed.
End operations.

Lemma tlc_new_inv m : tlc_inv (m, ThreadLocalCache_new)
  (fun b => replicate (Z.to_nat (if b then TINY_CLASSES else SMALL_CLASSES)) []) [] [].
Proof.
  constructor; try done.
  - intros b i s l Hs Hl. apply lookup_replicate in Hl as [-> _].
    destruct b; apply lookup_replicate in Hs as [-> _]; done.
  - intros p size Hin. by apply elem_of_nil in Hin.
  - intros e He. by apply elem_of_nil in He.
Qed.

Lemma tlc_alloc_correct_witness :
  exists r x', ThreadLocalCache_alloc 100 (Memory [] ∅, ThreadLocalCache_new) = Ret (r, x') /\
    tlc_alloc_post (Memory [] ∅, ThreadLocalCache_new)
      (fun b => replicate (Z.to_nat (if b then TINY_CLASSES else SMALL_CLASSES)) []) [] [] 100 r x'.
Proof. apply (tlc_alloc_correct _ _ _ _ 100 (tlc_new_inv (Memory [] ∅))). unfold is_usize. lia. Defined.

(** A cache whose client holds one block. *)
Lemma demo_tlc :
  exists x f, ThreadLocalCache_alloc 100 (Memory [] ∅, ThreadLocalCache_new) = Ret (Some 65536, x) /\
    tlc_inv x f [(65536, 100)] [].
Proof.
  pose proof (tlc_new_inv (Memory [] ∅)) as H0. set (f0 := fun b : bool => _) in H0.
  destruct (tlc_alloc_wp _ _ _ _ 100 (tlc_alloc_post (Memory [] ∅, ThreadLocalCache_new) f0 [] [] 100) H0)
    as (r & x & Hr & b & idx & l & _ & _ & _ & _ & Hm); [lia|intros r x' Hx; exact Hx|].
  assert (Hp : match ThreadLocalCache_alloc 100 (Memory [] ∅, ThreadLocalCache_new) with
               | Ret (r, _) => r | _ => None end = Some 65536) by (vm_compute; reflexivity).
  rewrite Hr in Hp. subst r. destruct (Hm _ eq_refl) as (_ & _ & HI). eexists x, _. split; [exact Hr|exact HI].
Qed.

Lemma tlc_dealloc_correct_witness :
  exists x x', ThreadLocalCache_alloc 100 (Memory [] ∅, ThreadLocalCache_new) = Ret (Some 65536, x) /\
    ThreadLocalCache_dealloc 65536 100 x = Ret (tt, x').
Proof.
  destruct demo_tlc as (x & f & Hr & HI).
  destruct (tlc_dealloc_correct x f 65536 100 [] [] HI) as (x' & Hd & _).
  exists x, x'. split; [exact Hr|exact Hd].
Defined.

Lemma tlc_clear_correct_witness :
  exists x x', ThreadLocalCache_alloc 100 (Memory [] ∅, ThreadLocalCache_new) = Ret (Some 65536, x) /\
    ThreadLocalCache_clear x = Ret (tt, x').
Proof.
  destruct demo_tlc as (x & f & Hr & HI).
  destruct (tlc_clear_correct x f [(65536, 100)] [] HI) as (x' & f' & Hd & _).
  exists x, x'. split; [exact Hr|exact Hd].
Defined.
