(* ===== verification/GlobalPool.v ===== *)
(** * The global slab pools

    Models aethalloc-core/src/global_pool.rs, one call at a time: sixteen stacks of
    slabs linked through their first eight bytes.  The compare-exchange loops of
    [push] and [pop] under concurrency are the ones of Treiber. *)

From S2P Require Import Prelude Memory Extents AllocSpec FreeList.

(** ** Definitions *)

Definition GP_SIZE_CLASSES : Z := 16.

(** The head pointer; null is [None]. *)
Record GlobalSlabPool : Type := { gp_head : option Z }.

Definition GlobalSlabPool_new : GlobalSlabPool := {| gp_head := None |}.

Section pool.
#[local] Existing Instance NonNull_link.

(** One call with no other thread inside: the exchange succeeds at once. *)
Definition GlobalSlabPool_push (ptr : Z) : M (memory * GlobalSlabPool) unit :=
  s ← getS;
  m ← or_fault (link_write s.1 ptr (gp_head s.2));
  modifyS (fun s => (m, {| gp_head := Some ptr |})).

Definition GlobalSlabPool_pop : M (memory * GlobalSlabPool) (option Z) :=
  s ← getS;
  match gp_head s.2 with
  | None => mret None
  | Some head =>
      next ← or_fault (link_read s.1 head);
      modifyS (fun s => (s.1, {| gp_head := next |})) ;;
      mret (Some head)
  end.

Definition GlobalPools_new : list GlobalSlabPool := replicate (Z.to_nat GP_SIZE_CLASSES) GlobalSlabPool_new.

(** [slice::get]: no pool for an index out of range. *)
Definition GlobalPools_get_pool (ps : list GlobalSlabPool) (idx : Z) : option GlobalSlabPool := arr_get ps idx.

Definition at_pool {A} (idx : Z) (m : M (memory * GlobalSlabPool) A) : M (memory * list GlobalSlabPool) A :=
  zoom (fun s => p ← GlobalPools_get_pool s.2 idx; Some (s.1, p))
       (fun x s => (x.1, <[Z.to_nat idx := x.2]> s.2)) m.

Definition GlobalPools_push (idx ptr : Z) : M (memory * list GlobalSlabPool) unit :=
  s ← getS;
  match GlobalPools_get_pool s.2 idx with
  | Some _ => at_pool idx (GlobalSlabPool_push ptr)
  | None => mret tt
  end.

Definition GlobalPools_pop (idx : Z) : M (memory * list GlobalSlabPool) (option Z) :=
  s ← getS;
  match GlobalPools_get_pool s.2 idx with
  | Some _ => at_pool idx GlobalSlabPool_pop
  | None => mret None
  end.

(** ** The pools are stacks *)

(** Pool [i] holds the slabs [ls !! i], newest first; with the other extents [X] they
    form an arena.  A slab is at least 16 bytes. *)
Record pools_ok (x : memory * list GlobalSlabPool) (ls : list (list Z)) (X : list (Z * Z)) : Prop := {
  po_pools : length x.2 = Z.to_nat GP_SIZE_CLASSES;
  po_lists : length ls = Z.to_nat GP_SIZE_CLASSES;
  po_free i p l : x.2 !! i = Some p -> ls !! i = Some l -> free_list x.1 (gp_head p) l;
  po_arena : arena x.1 (((fun p => (p, 16)) <$> concat ls) ++ X)
}.

Lemma pools_lookup x ls X idx :
  pools_ok x ls X -> 0 <= idx < GP_SIZE_CLASSES ->
  exists p l, arr_get x.2 idx = Some p /\ x.2 !! Z.to_nat idx = Some p /\ ls !! Z.to_nat idx = Some l.
Proof.
  intros [] Hi. unfold GP_SIZE_CLASSES in *. destruct (arr_get_total x.2 idx) as [p Hp]; [lia|].
  destruct (lookup_lt_is_Some_2 ls (Z.to_nat idx)) as [l Hl]; [lia|].
  exists p, l. split_and!; [done| |done]. by apply arr_get_lookup in Hp as [_ ?].
Qed.

Section one_pool.
Context (m : memory) (ps : list GlobalSlabPool) (ls : list (list Z)) (X : list (Z * Z)) (idx : Z).
Context (p : GlobalSlabPool) (l : list Z).
Context (Hg : arr_get ps idx = Some p) (Hp : ps !! Z.to_nat idx = Some p).
Context (Hl : ls !! Z.to_nat idx = Some l).

Lemma at_pool_wp {A} (c : M (memory * GlobalSlabPool) A) (Q : A -> memory * list GlobalSlabPool -> Prop) :
  wp c (fun r x => Q r (x.1, <[Z.to_nat idx := x.2]> ps)) (m, p) -> wp (at_pool idx c) Q (m, ps).
Proof.
  intros Hc. eapply wp_zoom; [|exact Hc]. unfold GlobalPools_get_pool. cbn [fst snd]. by rewrite Hg.
Qed.

(** Another list of pool [idx] for the head [h]. *)
Lemma pools_ok_update m' h l' Y :
  pools_ok (m, ps) ls X -> free_list m' h l' ->
  (forall q, q ∈ concat ls -> agree_on m m' q 8) ->
  arena m' (((fun q => (q, 16)) <$> concat (<[Z.to_nat idx := l']> ls)) ++ Y) ->
  pools_ok (m', <[Z.to_nat idx := {| gp_head := h |}]> ps) (<[Z.to_nat idx := l']> ls) Y.
Proof.
  intros [] Hfl Hag Har. simpl in *. constructor; simpl; rewrite ?length_insert; try done.
  intros i p' l0 Hp' Hl0. apply list_lookup_insert_Some in Hp' as [(<- & <- & _)|[Hne Hp']].
  - rewrite list_lookup_insert_eq in Hl0 by by eapply lookup_lt_Some. by simplify_eq.
  - rewrite list_lookup_insert_ne in Hl0 by done.
    eapply free_list_agree; [|by eapply po_free0]. intros q Hq. apply Hag.
    apply list_elem_of_In, in_concat. exists l0.
    split; apply list_elem_of_In; [by eapply list_elem_of_lookup_2|done].
Qed.
End one_pool.

Lemma pools_push_wp m ps ls X idx ptr p l (Q : unit -> memory * list GlobalSlabPool -> Prop) :
  pools_ok (m, ps) ls ((ptr, 16) :: X) ->
  arr_get ps idx = Some p -> ps !! Z.to_nat idx = Some p -> ls !! Z.to_nat idx = Some l ->
  (forall x', pools_ok x' (<[Z.to_nat idx := ptr :: l]> ls) X -> same_bytes X m x'.1 -> Q tt x') ->
  wp (at_pool idx (GlobalSlabPool_push ptr)) Q (m, ps).
Proof.
  intros HP Hg Hp Hl HQ. pose proof HP as []. simpl in *. pose proof (po_free0 _ _ _ Hp Hl) as Hfl.
  destruct (concat_focus ls _ _ Hl) as (R & HR & HR').
  assert (Har : arena m ((ptr, 16) :: ((fun p => (p, 16)) <$> (l ++ R)) ++ X)).
  { eapply arena_perm; [|exact po_arena0]. rewrite HR. solve_Permutation. }
  pose proof (arena_ok _ _ _ Har (list_elem_of_here _ _)) as (_ & _ & _ & _ & Hacc). simpl in Hacc.
  destruct (lk_write m ptr (gp_head p)) as (m' & Hw & Hch & Hrd).
  { eapply accessible_sub; [done|lia|simpl; lia]. }
  { destruct (gp_head p) as [q|]; [|done]. destruct (free_list_Some _ _ _ Hfl) as (l' & nx & -> & _).
    destruct (arena_ok _ _ (q, 16) Har) as (? & _ & _ & Ht & _); [right; by left|].
    unfold USER_TOP in Ht. simpl in *. lia. }
  assert (Hd : forall q, q ∈ l ++ R -> ext_disj (ptr, 16) (q, 16)).
  { intros q Hq. eapply arena_disj; [exact Har|]. apply elem_of_app. left. apply list_elem_of_fmap. eauto. }
  apply (at_pool_wp _ _ _ _ Hg). apply wp_bind, wp_gets. apply wp_bind. eapply wp_or_fault; [exact Hw|].
  apply wp_modify. apply HQ.
  - apply (pools_ok_update m ps ls ((ptr, 16) :: X) idx l Hl m'); [done| | |].
    + apply (free_list_push m m' (gp_head p) l ptr 16); [simpl; lia|done|done| |done].
      rewrite Forall_forall. intros q Hq. apply Hd. apply elem_of_app. by left.
    + intros q Hq. rewrite HR in Hq. eapply changes_only_agree; [exact Hch|]. simpl.
      destruct (ext_disj_arith ptr 16 q 16) as [|]; [lia|lia|by apply Hd|lia|lia].
    + eapply arena_changes; [exact Hch|]. eapply arena_perm; [|exact Har]. rewrite HR'. solve_Permutation.
  - intros e i He Hi. apply Hch. intros Hi'.
    apply (arena_disj _ _ _ e Har) with i; [|unfold in_ext in *; simpl in *; lia|done].
    apply elem_of_app. by right.
Qed.

Lemma pools_pop_wp m ps ls X idx p l (Q : option Z -> memory * list GlobalSlabPool -> Prop) :
  pools_ok (m, ps) ls X ->
  arr_get ps idx = Some p -> ps !! Z.to_nat idx = Some p -> ls !! Z.to_nat idx = Some l ->
  (forall x', x'.1 = m -> pools_ok x' (<[Z.to_nat idx := tail l]> ls)
     (option_list ((fun p => (p, 16)) <$> head l) ++ X) -> Q (head l) x') ->
  wp (at_pool idx GlobalSlabPool_pop) Q (m, ps).
Proof.
  intros HP Hg Hp Hl HQ. pose proof HP as []. simpl in *. pose proof (po_free0 _ _ _ Hp Hl) as Hfl.
  destruct (concat_focus ls _ _ Hl) as (R & HR & HR').
  apply (at_pool_wp _ _ _ _ Hg). apply wp_bind, wp_gets. cbn [fst snd].
  destruct l as [|q l]; simpl in Hfl.
  - rewrite Hfl. apply wp_ret. apply HQ; [done|]. simpl.
    rewrite (list_insert_id ps), (list_insert_id ls) by done. done.
  - destruct Hfl as (-> & nx & Hnx & Hfl). apply wp_bind. eapply wp_or_fault; [exact Hnx|].
    apply wp_bind, wp_modify, wp_ret. apply HQ; [done|]. simpl.
    apply (pools_ok_update m ps ls X idx (q :: l) Hl m); [done|done|done|].
    eapply arena_perm; [|exact po_arena0]. rewrite HR, HR'. simpl. solve_Permutation.
Qed.

(** Pushing a slab on the pool of a valid class puts it on top of that pool's stack
    and leaves the other pools and all other memory alone; popping gives the slabs of
    a pool back newest first, and nothing when it is empty; a class out of range
    changes nothing. *)
Theorem global_pools_stacks x ls X idx ptr :
  pools_ok x ls ((ptr, 16) :: X) ->
  if (0 <=? idx) && (idx <? GP_SIZE_CLASSES) then
    exists l, ls !! Z.to_nat idx = Some l /\
    (exists x', GlobalPools_push idx ptr x = Ret (tt, x') /\
       pools_ok x' (<[Z.to_nat idx := ptr :: l]> ls) X /\ same_bytes X x.1 x'.1) /\
    (exists x', GlobalPools_pop idx x = Ret (head l, x') /\ x'.1 = x.1 /\
       pools_ok x' (<[Z.to_nat idx := tail l]> ls)
         (option_list ((fun p => (p, 16)) <$> head l) ++ (ptr, 16) :: X))
  else GlobalPools_push idx ptr x = Ret (tt, x) /\ GlobalPools_pop idx x = Ret (None, x).
Proof.
  intros HP. destruct ((0 <=? idx) && (idx <? GP_SIZE_CLASSES)) eqn:Hidx.
  2:{ destruct HP. assert (arr_get x.2 idx = None) as Hn.
      { destruct (arr_get x.2 idx) eqn:Hg; [|done]. apply arr_get_range in Hg.
        unfold GP_SIZE_CLASSES in *. lia. }
      unfold GlobalPools_push, GlobalPools_pop, GlobalPools_get_pool. run_m. by rewrite Hn. }
  destruct (pools_lookup _ _ _ idx HP) as (p & l & Hg & Hp & Hl); [lia|]. exists l. split; [done|].
  destruct x as [m ps]. simpl in Hg, Hp. split.
  - assert (wp (GlobalPools_push idx ptr) (fun _ x' => pools_ok x' (<[Z.to_nat idx := ptr :: l]> ls) X /\
      same_bytes X m x'.1) (m, ps)) as ([] & x' & ? & ?); [|eauto].
    apply wp_bind, wp_gets. unfold GlobalPools_get_pool. cbn [snd]. rewrite Hg.
    by eapply pools_push_wp.
  - assert (wp (GlobalPools_pop idx) (fun r x' => r = head l /\ x'.1 = m /\
      pools_ok x' (<[Z.to_nat idx := tail l]> ls)
        (option_list ((fun p => (p, 16)) <$> head l) ++ (ptr, 16) :: X)) (m, ps))
      as (r & x' & Hr & -> & ? & ?); [|eauto].
    apply wp_bind, wp_gets. unfold GlobalPools_get_pool. cbn [snd]. rewrite Hg.
    by eapply pools_pop_wp.
Qed.

(** Two slabs on one page. *)
Definition demo_mem : memory := Memory [(65536, 69632)] ∅.

Lemma demo_pools_ok : pools_ok (demo_mem, GlobalPools_new) (replicate 16 []) [(65536, 16); (65552, 16)].
Proof.
  constructor; try done.
  - intros i p l Hp Hl. apply lookup_replicate in Hp as [-> _]. by apply lookup_replicate in Hl as [-> _].
  - simpl. split.
    + split; [|by split]. constructor; [|done]. apply ext_disj_intro. lia.
    + assert (Hm : forall i, 65536 <= i < 69632 -> is_Some (load8 demo_mem i)).
      { intros i Hi. apply load8_mapped. unfold mapped, in_region. simpl. lia. }
      repeat constructor; simpl; try (unfold USER_TOP; lia); try (intros i Hi; apply Hm; simpl in *; lia).
Qed.
End pool.

Lemma global_pools_stacks_witness :
  exists x', GlobalPools_push 3 65536 (demo_mem, GlobalPools_new) = Ret (tt, x') /\
    pools_ok x' (<[3%nat := [65536]]> (replicate 16 [])) [(65552, 16)].
Proof.
  destruct (global_pools_stacks _ _ _ 3 65536 demo_pools_ok) as (l & Hl & (x' & Hr & Hok & _) & _).
  exists x'. injection Hl as <-. split; [exact Hr|exact Hok].
Defined.
