(* ===== verification/RingBuffer.v ===== *)
(** * The command ring between the application and the support core

    Models aethalloc-amo/src/command.rs and aethalloc-amo/src/ring_buffer.rs: the
    64-byte entries with their payload union, the single-producer single-consumer
    ring with its cached ("shadow") indices, first one call at a time and then
    every access to the ring as a step of its own, the producer's steps interleaved
    with the consumer's in every order (sequentially consistent).  The padding to
    cache lines has no effect on values and is left out. *)

From S2P Require Import Prelude Memory.

(** ** Commands and entries *)

Inductive RingCommand : Type :=
  | FreeBlock
  | CompactionRequest
  | TagUpdate
  | StatsReport
  | NoOp.

#[global] Instance RingCommand_eq_dec : EqDecision RingCommand.
Proof. solve_decision. Defined.

(** The [repr(u8)] values. *)
Definition RingCommand_as_u8 (c : RingCommand) : Z :=
  match c with
  | FreeBlock => 0
  | CompactionRequest => 2
  | TagUpdate => 4
  | StatsReport => 3
  | NoOp => 255
  end.

Record FreeBlockPayload : Type := { fb_ptr : Z; fb_size : Z; fb_size_class : Z }.
Record CompactionRequestPayload : Type := { cr_start_addr : Z; cr_length : Z }.
Record TagUpdatePayload : Type := { tu_ptr : Z; tu_old_tag : Z; tu_new_tag : Z }.
Record StatsReportPayload : Type := { sr_thread_id : Z; sr_allocs : Z; sr_frees : Z }.

(** The union: 56 raw bytes. *)
Definition RingPayload : Type := list Z.

Definition RingPayload_default : RingPayload := replicate 56 0.

Record RingEntry : Type := {
  command : RingCommand;
  payload : RingPayload
}.

Definition RingEntry_new (c : RingCommand) (p : RingPayload) : RingEntry :=
  {| command := c; payload := p |}.

Definition RingEntry_default : RingEntry := {| command := NoOp; payload := RingPayload_default |}.

(** An all-zero entry, which is what [core::mem::zeroed] fills the ring with. *)
Definition RingEntry_zeroed : RingEntry := {| command := FreeBlock; payload := RingPayload_default |}.

(** Little-endian fields of the union at their [repr(C)] offsets. *)
Fixpoint bytes_le (n : nat) (v : Z) : list Z :=
  match n with O => [] | S n' => v mod 256 :: bytes_le n' (v / 256) end.

Fixpoint from_le (l : list Z) : Z :=
  match l with [] => 0 | b :: l' => b + 256 * from_le l' end.

Definition field (off len : nat) (p : RingPayload) : Z := from_le (take len (drop off p)).

Definition read_free_block (p : RingPayload) : FreeBlockPayload :=
  {| fb_ptr := field 0 8 p; fb_size := field 8 8 p; fb_size_class := field 16 1 p |}.
Definition read_compaction (p : RingPayload) : CompactionRequestPayload :=
  {| cr_start_addr := field 0 8 p; cr_length := field 8 8 p |}.
Definition read_tag_update (p : RingPayload) : TagUpdatePayload :=
  {| tu_ptr := field 0 8 p; tu_old_tag := field 8 2 p; tu_new_tag := field 10 2 p |}.
Definition read_stats (p : RingPayload) : StatsReportPayload :=
  {| sr_thread_id := field 0 8 p; sr_allocs := field 8 8 p; sr_frees := field 16 8 p |}.

(** A union made from one of its fields; the other bytes are whatever they are. *)
Definition from_free_block (x : FreeBlockPayload) (rest : list Z) : RingPayload :=
  bytes_le 8 (fb_ptr x) ++ bytes_le 8 (fb_size x) ++ bytes_le 1 (fb_size_class x) ++ rest.
Definition from_compaction (x : CompactionRequestPayload) (rest : list Z) : RingPayload :=
  bytes_le 8 (cr_start_addr x) ++ bytes_le 8 (cr_length x) ++ rest.
Definition from_tag_update (x : TagUpdatePayload) (rest : list Z) : RingPayload :=
  bytes_le 8 (tu_ptr x) ++ bytes_le 2 (tu_old_tag x) ++ bytes_le 2 (tu_new_tag x) ++ rest.
Definition from_stats (x : StatsReportPayload) (rest : list Z) : RingPayload :=
  bytes_le 8 (sr_thread_id x) ++ bytes_le 8 (sr_allocs x) ++ bytes_le 8 (sr_frees x) ++ rest.

(** ** The ring *)

Record RingBuffer : Type := {
  rb_head : Z;
  rb_tail : Z;
  rb_shadow_tail : Z;
  rb_shadow_head : Z;
  rb_buffer : list RingEntry
}.

Definition set_rb_head (v : Z) (r : RingBuffer) : RingBuffer :=
  {| rb_head := v; rb_tail := rb_tail r; rb_shadow_tail := rb_shadow_tail r;
     rb_shadow_head := rb_shadow_head r; rb_buffer := rb_buffer r |}.
Definition set_rb_tail (v : Z) (r : RingBuffer) : RingBuffer :=
  {| rb_head := rb_head r; rb_tail := v; rb_shadow_tail := rb_shadow_tail r;
     rb_shadow_head := rb_shadow_head r; rb_buffer := rb_buffer r |}.
Definition set_rb_shadow_tail (v : Z) (r : RingBuffer) : RingBuffer :=
  {| rb_head := rb_head r; rb_tail := rb_tail r; rb_shadow_tail := v;
     rb_shadow_head := rb_shadow_head r; rb_buffer := rb_buffer r |}.
Definition set_rb_shadow_head (v : Z) (r : RingBuffer) : RingBuffer :=
  {| rb_head := rb_head r; rb_tail := rb_tail r; rb_shadow_tail := rb_shadow_tail r;
     rb_shadow_head := v; rb_buffer := rb_buffer r |}.
Definition set_rb_buffer (v : list RingEntry) (r : RingBuffer) : RingBuffer :=
  {| rb_head := rb_head r; rb_tail := rb_tail r; rb_shadow_tail := rb_shadow_tail r;
     rb_shadow_head := rb_shadow_head r; rb_buffer := v |}.

Section ring.
Context (CAPACITY : Z).

(** [assert!(CAPACITY.is_power_of_two())]. *)
Definition RingBuffer_new : option RingBuffer :=
  if is_power_of_two CAPACITY then
    Some {| rb_head := 0; rb_tail := 0; rb_shadow_tail := 0; rb_shadow_head := 0;
            rb_buffer := replicate (Z.to_nat CAPACITY) RingEntry_zeroed |}
  else None.

Definition RingBuffer_len (r : RingBuffer) : Z :=
  Z.land (rb_head r -! rb_tail r) (CAPACITY - 1).

Definition RingBuffer_capacity (r : RingBuffer) : Z := CAPACITY.

Definition RingBuffer_is_empty (r : RingBuffer) : bool := RingBuffer_len r =? 0.
Definition RingBuffer_is_full (r : RingBuffer) : bool := RingBuffer_len r =? CAPACITY - 1.

Definition try_push (entry : RingEntry) : M RingBuffer (option unit) :=
  head ← gets rb_head;
  let next_head := Z.land (head +! 1) (CAPACITY - 1) in
  shadow_tail ← gets rb_shadow_tail;
  full ← (if next_head =? shadow_tail then
            shadow_tail ← gets rb_tail;
            modifyS (set_rb_shadow_tail shadow_tail) ;;
            mret (next_head =? shadow_tail)
          else mret false);
  if (full : bool) then mret None
  else
    s ← getS;
    buffer ← or_panic (arr_set (rb_buffer s) head entry);
    modifyS (set_rb_buffer buffer) ;;
    modifyS (set_rb_head next_head) ;;
    mret (Some tt).

Definition try_pop : M RingBuffer (option RingEntry) :=
  tail ← gets rb_tail;
  shadow_head ← gets rb_shadow_head;
  empty ← (if tail =? shadow_head then
             shadow_head ← gets rb_head;
             modifyS (set_rb_shadow_head shadow_head) ;;
             mret (tail =? shadow_head)
           else mret false);
  if (empty : bool) then mret None
  else
    s ← getS;
    entry ← or_panic (arr_get (rb_buffer s) tail);
    let next_tail := Z.land (tail +! 1) (CAPACITY - 1) in
    modifyS (set_rb_tail next_tail) ;;
    mret (Some entry).

(** The spinning [push] and [pop], for at most [fuel] rounds. *)
Fixpoint push (fuel : nat) (entry : RingEntry) : M RingBuffer unit :=
  match fuel with
  | O => fun _ => Diverge
  | S fuel' =>
      r ← try_push entry;
      match r with Some _ => mret tt | None => push fuel' entry end
  end.

Fixpoint pop (fuel : nat) : M RingBuffer RingEntry :=
  match fuel with
  | O => fun _ => Diverge
  | S fuel' =>
      r ← try_pop;
      match r with Some entry => mret entry | None => pop fuel' end
  end.

(** ** One access at a time *)

Inductive producer : Type :=
  | PIdle
  | PLoadHead (entry : RingEntry)
  | PCheckShadow (entry : RingEntry) (head next_head : Z)
  | PLoadTail (entry : RingEntry) (head next_head : Z)
  | PWrite (entry : RingEntry) (head next_head : Z)
  | PPublish (entry : RingEntry) (next_head : Z).

Inductive consumer : Type :=
  | CIdle
  | CLoadTail
  | CCheckShadow (tail : Z)
  | CLoadHead (tail : Z)
  | CRead (tail : Z)
  | CPublish (entry : RingEntry) (tail : Z).

Record ring_config : Type := Config {
  cf_ring : RingBuffer;
  cf_prod : producer;
  cf_cons : consumer
}.

(** What a call has done for its caller. *)
Inductive ring_label : Type :=
  | LPushed (entry : RingEntry)
  | LFull
  | LPopped (entry : RingEntry)
  | LEmpty.

Inductive ring_action : Type :=
  | StartPush (entry : RingEntry)
  | Produce
  | StartPop
  | Consume.

(** One step; [None] when the action is not possible. *)
Definition ring_step (a : ring_action) (c : ring_config) : option (ring_config * option ring_label) :=
  let r := cf_ring c in
  match a, cf_prod c, cf_cons c with
  | StartPush e, PIdle, q => Some (Config r (PLoadHead e) q, None)
  | Produce, PLoadHead e, q =>
      Some (Config r (PCheckShadow e (rb_head r) (Z.land (rb_head r +! 1) (CAPACITY - 1))) q, None)
  | Produce, PCheckShadow e head next_head, q =>
      Some (Config r (if next_head =? rb_shadow_tail r then PLoadTail e head next_head
                      else PWrite e head next_head) q, None)
  | Produce, PLoadTail e head next_head, q =>
      let r' := set_rb_shadow_tail (rb_tail r) r in
      if next_head =? rb_tail r then Some (Config r' PIdle q, Some LFull)
      else Some (Config r' (PWrite e head next_head) q, None)
  | Produce, PWrite e head next_head, q =>
      b ← arr_set (rb_buffer r) head e;
      Some (Config (set_rb_buffer b r) (PPublish e next_head) q, None)
  | Produce, PPublish e next_head, q =>
      Some (Config (set_rb_head next_head r) PIdle q, Some (LPushed e))
  | StartPop, p, CIdle => Some (Config r p CLoadTail, None)
  | Consume, p, CLoadTail => Some (Config r p (CCheckShadow (rb_tail r)), None)
  | Consume, p, CCheckShadow tail =>
      Some (Config r p (if tail =? rb_shadow_head r then CLoadHead tail else CRead tail), None)
  | Consume, p, CLoadHead tail =>
      let r' := set_rb_shadow_head (rb_head r) r in
      if tail =? rb_head r then Some (Config r' p CIdle, Some LEmpty)
      else Some (Config r' p (CRead tail), None)
  | Consume, p, CRead tail =>
      e ← arr_get (rb_buffer r) tail;
      Some (Config r p (CPublish e tail), None)
  | Consume, p, CPublish e tail =>
      Some (Config (set_rb_tail (Z.land (tail +! 1) (CAPACITY - 1)) r) p CIdle, Some (LPopped e))
  | _, _, _ => None
  end.

(** Runs from an empty ring, with what they have done so far, oldest first. *)
Inductive ring_reach : list ring_label -> ring_config -> Prop :=
  | reach_start r : RingBuffer_new = Some r -> ring_reach [] (Config r PIdle CIdle)
  | reach_step tr c a c' o :
      ring_reach tr c -> ring_step a c = Some (c', o) ->
      ring_reach (tr ++ option_list o) c'.
End ring.

(** ** The specification: a bounded queue *)

Definition fifo_step (cap : Z) (q : list RingEntry) (l : ring_label) (q' : list RingEntry) : Prop :=
  match l with
  | LPushed e => Z.of_nat (length q) < cap /\ q' = q ++ [e]
  | LFull => Z.of_nat (length q) = cap /\ q' = q
  | LPopped e => q = e :: q'
  | LEmpty => q = [] /\ q' = q
  end.

Inductive fifo_history (cap : Z) : list ring_label -> list RingEntry -> Prop :=
  | fifo_start : fifo_history cap [] []
  | fifo_more tr q l q' :
      fifo_history cap tr q -> fifo_step cap q l q' -> fifo_history cap (tr ++ [l]) q'.

(** ** The invariant *)

Section invariant.
#[local] Set Default Proof Using "All".
Context (CAPACITY : Z) (k : Z) (Hcap : CAPACITY = 2 ^ k) (Hk : 0 <= k <= 63).

(** Every entry ever pushed is in [hist]; [T] of them are popped; the producer last
    saw [ST] popped, the consumer last saw [SH] pushed. *)
Record ring_ok (r : RingBuffer) (hist : list RingEntry) (T ST SH : Z) : Prop := {
  ro_order : 0 <= ST <= T /\ T <= SH /\ SH <= Z.of_nat (length hist) /\
             Z.of_nat (length hist) <= ST + (CAPACITY - 1);
  ro_head : rb_head r = Z.of_nat (length hist) mod CAPACITY;
  ro_tail : rb_tail r = T mod CAPACITY;
  ro_shadow_tail : rb_shadow_tail r = ST mod CAPACITY;
  ro_shadow_head : rb_shadow_head r = SH mod CAPACITY;
  ro_buffer : length (rb_buffer r) = Z.to_nat CAPACITY;
  ro_slots i : T <= i < Z.of_nat (length hist) ->
    rb_buffer r !! Z.to_nat (i mod CAPACITY) = hist !! Z.to_nat i
}.

(** What the producer has read and written is still true. *)
Definition producer_ok (r : RingBuffer) (hist : list RingEntry) (ST : Z) (p : producer) : Prop :=
  let H := Z.of_nat (length hist) in
  match p with
  | PIdle | PLoadHead _ => True
  | PCheckShadow _ head next_head | PLoadTail _ head next_head =>
      head = H mod CAPACITY /\ next_head = (H + 1) mod CAPACITY
  | PWrite _ head next_head =>
      head = H mod CAPACITY /\ next_head = (H + 1) mod CAPACITY /\ H + 1 <= ST + (CAPACITY - 1)
  | PPublish e next_head =>
      next_head = (H + 1) mod CAPACITY /\ H + 1 <= ST + (CAPACITY - 1) /\
      rb_buffer r !! Z.to_nat (H mod CAPACITY) = Some e
  end.

Definition consumer_ok (hist : list RingEntry) (T SH : Z) (q : consumer) : Prop :=
  match q with
  | CIdle | CLoadTail => True
  | CCheckShadow tail | CLoadHead tail => tail = T mod CAPACITY
  | CRead tail => tail = T mod CAPACITY /\ T < SH
  | CPublish e tail => tail = T mod CAPACITY /\ T < SH /\ hist !! Z.to_nat T = Some e
  end.

Definition config_ok (c : ring_config) (hist : list RingEntry) (T ST SH : Z) : Prop :=
  ring_ok (cf_ring c) hist T ST SH /\ producer_ok (cf_ring c) hist ST (cf_prod c) /\
  consumer_ok hist T SH (cf_cons c).

Lemma cap_pos : 0 < CAPACITY.
Proof. rewrite Hcap. apply pow2_pos. lia. Qed.

Lemma cap_usize : CAPACITY <= 2 ^ 63.
Proof. rewrite Hcap. apply pow2_le. lia. Qed.

(** Masking is the remainder. *)
Lemma land_mask x : Z.land x (CAPACITY - 1) = x mod CAPACITY.
Proof.
  rewrite Hcap. replace (2 ^ k - 1) with (Z.ones k) by (rewrite Z.ones_equiv; lia).
  apply Z.land_ones. lia.
Qed.

Lemma next_index x : Z.land (x mod CAPACITY +! 1) (CAPACITY - 1) = (x + 1) mod CAPACITY.
Proof.
  rewrite land_mask. pose proof cap_pos. pose proof cap_usize.
  pose proof (Z.mod_pos_bound x CAPACITY cap_pos). rewrite wrap64_small by (unfold is_usize; lia).
  by rewrite Zplus_mod_idemp_l.
Qed.

(** Indices less than a round apart are equal when their slots are. *)
Lemma mod_inj x y : x mod CAPACITY = y mod CAPACITY -> y <= x < y + CAPACITY -> x = y.
Proof.
  intros He Hr. pose proof cap_pos.
  assert (Hz : (x - y) mod CAPACITY = 0).
  { rewrite Zminus_mod, He, Z.sub_diag. apply Z.mod_0_l. lia. }
  rewrite Z.mod_small in Hz by lia. lia.
Qed.

Lemma slot_bound x : (Z.to_nat (x mod CAPACITY) < Z.to_nat CAPACITY)%nat.
Proof. pose proof cap_pos. pose proof (Z.mod_pos_bound x CAPACITY cap_pos). lia. Qed.

Lemma slot_ne x y : y < x < y + CAPACITY -> Z.to_nat (x mod CAPACITY) <> Z.to_nat (y mod CAPACITY).
Proof.
  intros Hr He. pose proof cap_pos. pose proof (Z.mod_pos_bound x CAPACITY cap_pos).
  pose proof (Z.mod_pos_bound y CAPACITY cap_pos). assert (x = y); [|lia]. apply mod_inj; lia.
Qed.

(** ** The steps keep it *)

Section steps.
Context (r : RingBuffer) (hist : list RingEntry) (T ST SH : Z).
Context (Hr : ring_ok r hist T ST SH).
Let H := Z.of_nat (length hist).

(** The producer's two checks: not seeing the next slot taken, there is room. *)
Lemma room_by_shadow : (H + 1) mod CAPACITY <> rb_shadow_tail r -> H + 1 <= ST + (CAPACITY - 1).
Proof.
  destruct Hr as [Ho _ _ -> _ _ _]. intros Hne. fold H in Ho.
  destruct (decide (H + 1 = ST + CAPACITY)) as [He|]; [|lia].
  rewrite He in Hne. replace (ST + CAPACITY) with (ST + 1 * CAPACITY) in Hne by lia.
  rewrite Z_mod_plus_full in Hne. done.
Qed.

Lemma refresh_tail : ring_ok (set_rb_shadow_tail (rb_tail r) r) hist T T SH.
Proof. destruct Hr. constructor; simpl; try done. lia. Qed.

Lemma full_by_tail : (H + 1) mod CAPACITY = rb_tail r -> H - T = CAPACITY - 1.
Proof.
  destruct Hr as [Ho _ -> _ _ _ _]. intros He. fold H in Ho. pose proof cap_pos.
  assert (T + CAPACITY = H + 1); [|lia]. apply mod_inj; [|lia].
  rewrite He. replace (T + CAPACITY) with (T + 1 * CAPACITY) by lia. by rewrite Z_mod_plus_full.
Qed.

(** Writing the producer's slot does not touch a pending entry. *)
Lemma write_slot e :
  H + 1 <= ST + (CAPACITY - 1) ->
  exists b, arr_set (rb_buffer r) (H mod CAPACITY) e = Some b /\
    ring_ok (set_rb_buffer b r) hist T ST SH /\ b !! Z.to_nat (H mod CAPACITY) = Some e.
Proof.
  intros Hroom. pose proof cap_pos. pose proof (Z.mod_pos_bound H CAPACITY cap_pos). destruct Hr. fold H in ro_order0, ro_slots0.
  eexists. split; [apply arr_set_total; lia|]. split.
  - constructor; simpl; try done; [by rewrite length_insert|]. intros i Hi. fold H in Hi.
    rewrite list_lookup_insert_ne; [by apply ro_slots0|]. apply slot_ne. lia.
  - apply list_lookup_insert_eq. rewrite ro_buffer0. apply slot_bound.
Qed.

(** Publishing it makes it a pending entry. *)
Lemma publish_push e :
  H + 1 <= ST + (CAPACITY - 1) -> rb_buffer r !! Z.to_nat (H mod CAPACITY) = Some e ->
  ring_ok (set_rb_head ((H + 1) mod CAPACITY) r) (hist ++ [e]) T ST SH.
Proof.
  intros Hroom Hb. destruct Hr. fold H in ro_order0, ro_slots0. constructor; simpl; rewrite ?length_app; simpl;
    try done; try lia.
  - f_equal. lia.
  - intros i Hi. destruct (decide (i = H)) as [->|].
    + rewrite Hb. unfold H. rewrite Nat2Z.id. by rewrite list_lookup_middle.
    + rewrite ro_slots0 by lia. symmetry. apply lookup_app_l. lia.
Qed.

Lemma pending_by_shadow : T mod CAPACITY <> rb_shadow_head r -> T < SH.
Proof.
  destruct Hr as [Ho _ _ _ -> _ _]. intros Hne. destruct (decide (T = SH)) as [->|]; [done|lia].
Qed.

Lemma refresh_head : ring_ok (set_rb_shadow_head (rb_head r) r) hist T ST H.
Proof. destruct Hr. constructor; simpl; try done. fold H in ro_order0. fold H. lia. Qed.

Lemma empty_by_head : T mod CAPACITY = rb_head r -> T = H.
Proof.
  destruct Hr as [Ho -> _ _ _ _ _]. fold H in Ho. fold H. intros He. symmetry. apply mod_inj; [done|lia].
Qed.

Lemma pending_by_head : T mod CAPACITY <> rb_head r -> T < H.
Proof.
  destruct Hr as [Ho -> _ _ _ _ _]. fold H in Ho. fold H. intros Hne.
  destruct (decide (T = H)) as [He|]; [by rewrite He in Hne|lia].
Qed.

Lemma read_slot :
  T < SH -> exists e, arr_get (rb_buffer r) (T mod CAPACITY) = Some e /\ hist !! Z.to_nat T = Some e.
Proof.
  intros Hlt. destruct Hr. destruct (lookup_lt_is_Some_2 hist (Z.to_nat T)) as [e He]; [lia|].
  exists e. split; [|done]. pose proof cap_pos. pose proof (Z.mod_pos_bound T CAPACITY cap_pos).
  apply arr_get_lookup. split; [lia|]. rewrite ro_slots0 by lia. done.
Qed.

Lemma publish_pop : T < SH -> ring_ok (set_rb_tail ((T + 1) mod CAPACITY) r) hist (T + 1) ST SH.
Proof.
  intros Hlt. destruct Hr. constructor; simpl; try done; [lia|]. intros i Hi. apply ro_slots0. lia.
Qed.
End steps.

(** A step of a configuration: the queue of pending entries makes the step of its label. *)
Definition simulates (hist : list RingEntry) (T : Z) (c' : ring_config) (o : option ring_label) : Prop :=
  exists hist' T' ST' SH', config_ok c' hist' T' ST' SH' /\
    match o with
    | None => drop (Z.to_nat T') hist' = drop (Z.to_nat T) hist
    | Some l => fifo_step (CAPACITY - 1) (drop (Z.to_nat T) hist) l (drop (Z.to_nat T') hist')
    end.

Lemma consumer_ok_grow hist T SH q e :
  consumer_ok hist T SH q -> consumer_ok (hist ++ [e]) T SH q.
Proof.
  destruct q; simpl; try done. intros (? & ? & Hl). split_and!; try done.
  rewrite lookup_app_l; [done|]. by eapply lookup_lt_Some.
Qed.

Lemma produce_simulates r p q hist T ST SH c' o :
  config_ok (Config r p q) hist T ST SH -> ring_step CAPACITY Produce (Config r p q) = Some (c', o) ->
  simulates hist T c' o.
Proof.
  intros (Hr & Hp & Hq) Hst. simpl in *. pose proof (ro_order _ _ _ _ _ Hr) as Ho.
  destruct p as [|e|e head next|e head next|e head next|e next]; simplify_eq/=.
  - exists hist, T, ST, SH. split; [|done]. split_and!; try done. simpl.
    rewrite (ro_head _ _ _ _ _ Hr). split; [done|apply next_index].
  - exists hist, T, ST, SH. split; [|done]. split_and!; try done. simpl. destruct Hp as [-> ->].
    destruct (Z.eqb_spec ((Z.of_nat (length hist) + 1) mod CAPACITY) (rb_shadow_tail r)); simpl; [done|].
    split_and!; try done. by eapply room_by_shadow.
  - destruct Hp as [-> ->]. pose proof (refresh_tail _ _ _ _ _ Hr) as Hr'.
    destruct (Z.eqb_spec ((Z.of_nat (length hist) + 1) mod CAPACITY) (rb_tail r)) as [He|Hne]; simplify_eq.
    + exists hist, T, T, SH. split; [by split_and!|]. split; [|done].
      rewrite length_drop. pose proof (full_by_tail _ _ _ _ _ Hr He). lia.
    + exists hist, T, T, SH. split; [|done]. split_and!; try done. simpl.
      split_and!; try done. by eapply (room_by_shadow _ _ _ _ _ Hr').
  - destruct Hp as (-> & -> & Hroom). destruct (write_slot _ _ _ _ _ Hr e Hroom) as (b & Hb & Hr' & Hs).
    rewrite Hb in Hst. simplify_eq/=. exists hist, T, ST, SH. split; [|done]. by split_and!.
  - destruct Hp as (-> & Hroom & Hb). exists (hist ++ [e]), T, ST, SH. split.
    + split_and!; simpl; [by apply publish_push|done|by apply consumer_ok_grow].
    + split; [rewrite length_drop; lia|]. rewrite drop_app_le by lia. done.
Qed.

Lemma consume_simulates r p q hist T ST SH c' o :
  config_ok (Config r p q) hist T ST SH -> ring_step CAPACITY Consume (Config r p q) = Some (c', o) ->
  simulates hist T c' o.
Proof.
  intros (Hr & Hp & Hq) Hst. simpl in *. pose proof (ro_order _ _ _ _ _ Hr) as Ho.
  destruct q as [| |tail|tail|tail|e tail]; simplify_eq/=.
  - exists hist, T, ST, SH. split; [|done]. split_and!; try done. simpl. apply Hr.
  - exists hist, T, ST, SH. split; [|done]. split_and!; try done. simpl.
    destruct (Z.eqb_spec (T mod CAPACITY) (rb_shadow_head r)); simpl; [done|].
    split; [done|]. by eapply pending_by_shadow.
  - pose proof (refresh_head _ _ _ _ _ Hr) as Hr'. set (H := Z.of_nat (length hist)) in *.
    destruct (Z.eqb_spec (T mod CAPACITY) (rb_head r)) as [He|Hne]; simplify_eq.
    + exists hist, T, ST, H. split; [split_and!; [done|by destruct p|done]|]. split; [|done].
      apply drop_ge. pose proof (empty_by_head _ _ _ _ _ Hr He). lia.
    + exists hist, T, ST, H. split; [|done]. split_and!; [done|by destruct p|]. simpl.
      split; [done|]. by eapply pending_by_head.
  - destruct Hq as [-> Hlt]. destruct (read_slot _ _ _ _ _ Hr Hlt) as (e & He & Hh).
    rewrite He in Hst. simplify_eq/=. exists hist, T, ST, SH. split; [|done]. by split_and!.
  - destruct Hq as (-> & Hlt & Hh). exists hist, (T + 1), ST, SH. split.
    + split_and!; simpl; [|by destruct p|done]. rewrite next_index. by apply publish_pop.
    + simpl. rewrite (drop_S _ _ _ Hh). do 2 f_equal. lia.
Qed.

Lemma config_step a c hist T ST SH c' o :
  config_ok c hist T ST SH -> ring_step CAPACITY a c = Some (c', o) -> simulates hist T c' o.
Proof.
  intros Hok Hst. destruct c as [r p q]. destruct a.
  - destruct p; simplify_eq/=. exists hist, T, ST, SH. split; [|done]. by destruct Hok as (? & _ & ?).
  - by eapply produce_simulates.
  - destruct q; simplify_eq/=; try (destruct p; discriminate).
    exists hist, T, ST, SH. split; [|done]. by destruct Hok as (? & ? & _).
  - by eapply consume_simulates.
Qed.

Lemma ring_reach_ok tr c :
  ring_reach CAPACITY tr c ->
  exists hist T ST SH, config_ok c hist T ST SH /\
    fifo_history (CAPACITY - 1) tr (drop (Z.to_nat T) hist).
Proof.
  induction 1 as [r Hr|tr c a c' o _ (hist & T & ST & SH & Hok & Hf) Hst].
  - exists [], 0, 0, 0. split; [|constructor]. unfold RingBuffer_new in Hr.
    destruct (is_power_of_two CAPACITY); simplify_eq. split; [|done]. pose proof cap_pos.
    constructor; simpl; try done; [lia|by rewrite length_replicate|]. intros i Hi. lia.
  - destruct (config_step _ _ _ _ _ _ _ _ Hok Hst) as (hist' & T' & ST' & SH' & Hok' & Hl).
    exists hist', T', ST', SH'. split; [done|]. destruct o as [l|]; simpl.
    + by eapply fifo_more.
    + rewrite app_nil_r. by rewrite Hl.
Qed.
End invariant.

(** ** Theorems *)

Lemma capacity_pow2 C r : RingBuffer_new C = Some r -> exists k, 0 <= k /\ C = 2 ^ k.
Proof.
  unfold RingBuffer_new. destruct (is_power_of_two C) eqn:Hp; [|done]. intros _.
  by apply is_power_of_two_iff.
Qed.

Lemma reach_capacity C tr c : ring_reach C tr c -> is_power_of_two C = true.
Proof.
  induction 1 as [r Hr|]; [|done]. unfold RingBuffer_new in Hr. by destruct (is_power_of_two C).
Qed.

Lemma reach_pow2 C tr c : is_usize C -> ring_reach C tr c -> exists k, C = 2 ^ k /\ 0 <= k <= 63.
Proof.
  intros Hu (k & Hk & ->)%reach_capacity%is_power_of_two_iff. exists k. split; [done|].
  destruct Hu as [_ Hu]. apply pow2_lt_inv in Hu; lia.
Qed.

(** C22: for every capacity and every interleaving of one producer with one consumer,
    what the ring reports is a history of a queue that holds at most [CAPACITY - 1]
    entries: entries come out in the order they went in, each once, a push is refused
    only when the queue is full and a pop only when it is empty; the cached indices
    change nothing. *)
Theorem ring_refines_fifo C tr c :
  is_usize C -> ring_reach C tr c -> exists q, fifo_history (C - 1) tr q.
Proof.
  intros Hu Hre. destruct (reach_pow2 C tr c Hu Hre) as (k & Hc & Hk).
  destruct (ring_reach_ok C k Hc Hk tr c Hre) as (hist & T & ST & SH & _ & Hf). eauto.
Qed.

(** An operation under way can take its next step. *)
Lemma ring_steps C tr c :
  is_usize C -> ring_reach C tr c ->
  (cf_prod c <> PIdle -> is_Some (ring_step C Produce c)) /\
  (cf_cons c <> CIdle -> is_Some (ring_step C Consume c)) /\ exists q, fifo_history (C - 1) tr q.
Proof.
  intros Hu Hre. destruct (reach_pow2 C tr c Hu Hre) as (k & Hc & Hk).
  destruct (ring_reach_ok C k Hc Hk tr c Hre) as (hist & T & ST & SH & (Hr & Hp & Hq) & Hf).
  destruct c as [r p q]. simpl in *. split_and!; [| |eauto].
  - intros Hne. destruct p as [|e|e head next|e head next|e head next|e next]; simpl; eauto; [done| |].
    + destruct (_ =? _); eauto.
    + destruct Hp as (-> & _ & Hroom).
      destruct (write_slot C k Hc Hk _ _ _ _ _ Hr e Hroom) as (b & -> & _). simpl. eauto.
  - intros Hne. destruct q as [| |tail|tail|tail|e tail]; simpl; eauto; [done| |].
    + destruct (_ =? _); eauto.
    + destruct Hq as [-> Hlt].
      destruct (read_slot C k Hc Hk _ _ _ _ _ Hr Hlt) as (e & -> & _). simpl. eauto.
Qed.

(** C23: in every reachable state an operation under way can take its next step, so no
    slot index is ever out of range, and when the producer is about to write a slot
    and the consumer about to read one, the two slots are different. *)
Theorem ring_race_free C tr c :
  is_usize C -> ring_reach C tr c ->
  (cf_prod c <> PIdle -> is_Some (ring_step C Produce c)) /\
  (cf_cons c <> CIdle -> is_Some (ring_step C Consume c)) /\
  (forall e head next tail, cf_prod c = PWrite e head next -> cf_cons c = CRead tail -> head <> tail).
Proof.
  intros Hu Hre. destruct (ring_steps C tr c Hu Hre) as (H1 & H2 & _). split_and!; [done|done|].
  destruct (reach_pow2 C tr c Hu Hre) as (k & Hc & Hk).
  destruct (ring_reach_ok C k Hc Hk tr c Hre) as (hist & T & ST & SH & (Hr & Hp & Hq) & _).
  destruct c as [r p q]. simpl in *. intros e head next tail -> ->. destruct Hp as (-> & _ & Hroom), Hq as [-> Hlt].
  pose proof (ro_order _ _ _ _ _ _ Hr). pose proof (cap_pos C k Hc Hk). intros He.
  assert (Z.of_nat (length hist) = T); [|lia]. apply (mod_inj C k Hc Hk); [done|lia].
Qed.

(** A run on a ring of 4 slots: one push and the first steps of a second one, with the
    consumer on its way to the first entry. *)
Definition demo_entry (x : Z) : RingEntry :=
  RingEntry_new StatsReport (from_stats {| sr_thread_id := x; sr_allocs := 10; sr_frees := 3 |} (replicate 32 0)).

Definition demo_actions : list ring_action :=
  StartPush (demo_entry 1) :: replicate 4 Produce ++ StartPop :: replicate 3 Consume ++
  StartPush (demo_entry 2) :: replicate 2 Produce.

Fixpoint ring_exec (C : Z) (l : list ring_action) (tr : list ring_label) (c : ring_config) :
    option (list ring_label * ring_config) :=
  match l with
  | [] => Some (tr, c)
  | a :: l' =>
      '(c', o) ← ring_step C a c;
      ring_exec C l' (tr ++ option_list o) c'
  end.

Lemma ring_exec_reach C l : forall tr c tr' c',
  ring_reach C tr c -> ring_exec C l tr c = Some (tr', c') -> ring_reach C tr' c'.
Proof.
  induction l as [|a l IH]; intros tr c tr' c' Hre He; simplify_eq/=; [done|].
  destruct (ring_step C a c) as [[c1 o]|] eqn:Hst; simplify_eq/=.
  eapply IH; [|done]. by eapply reach_step.
Qed.

Definition demo_start : ring_config :=
  Config {| rb_head := 0; rb_tail := 0; rb_shadow_tail := 0; rb_shadow_head := 0;
            rb_buffer := replicate 4 RingEntry_zeroed |} PIdle CIdle.

Lemma demo_reach :
  exists c, ring_reach 4 [LPushed (demo_entry 1)] c /\ cf_prod c = PWrite (demo_entry 2) 1 2 /\
            cf_cons c = CRead 0.
Proof.
  destruct (ring_exec 4 demo_actions [] demo_start) as [[tr c]|] eqn:He; [|by vm_compute in He].
  assert (Hre : ring_reach 4 tr c).
  { eapply ring_exec_reach; [|exact He]. by apply (reach_start 4). }
  exists c. vm_compute in He. simplify_eq. split_and!; done.
Qed.

Lemma ring_refines_fifo_witness :
  exists c q, ring_reach 4 [LPushed (demo_entry 1)] c /\ fifo_history 3 [LPushed (demo_entry 1)] q.
Proof.
  destruct demo_reach as (c & Hre & _). exists c.
  destruct (ring_refines_fifo 4 _ c ltac:(unfold is_usize; lia) Hre) as [q Hq]. by exists q.
Defined.

Lemma ring_race_free_witness :
  exists c, cf_prod c = PWrite (demo_entry 2) 1 2 /\ cf_cons c = CRead 0 /\
    is_Some (ring_step 4 Produce c) /\ is_Some (ring_step 4 Consume c).
Proof.
  destruct demo_reach as (c & Hre & Hp & Hc). exists c.
  destruct (ring_race_free 4 _ c ltac:(unfold is_usize; lia) Hre) as (H1 & H2 & _).
  split_and!; [done|done|apply H1; by rewrite Hp|apply H2; by rewrite Hc].
Defined.

(** ** Calls one after another *)

Inductive ring_op : Type :=
  | RPush (entry : RingEntry)
  | RPop
  | RQuery.

Inductive ring_out : Type :=
  | OPushed (r : option unit)
  | OPopped (r : option RingEntry)
  | OQuery (len : Z) (empty full : bool).

Definition ring_call (C : Z) (op : ring_op) : M RingBuffer ring_out :=
  match op with
  | RPush e => r ← try_push C e; mret (OPushed r)
  | RPop => r ← try_pop C; mret (OPopped r)
  | RQuery =>
      s ← getS;
      mret (OQuery (RingBuffer_len C s) (RingBuffer_is_empty C s) (RingBuffer_is_full C s))
  end.

Fixpoint ring_calls (C : Z) (ops : list ring_op) : M RingBuffer (list ring_out) :=
  match ops with
  | [] => mret []
  | op :: ops' => o ← ring_call C op; os ← ring_calls C ops'; mret (o :: os)
  end.

(** The reference queue, oldest entry first. *)
Definition fifo_call (cap : Z) (op : ring_op) (q : list RingEntry) : ring_out * list RingEntry :=
  let n := Z.of_nat (length q) in
  match op with
  | RPush e => if n <? cap then (OPushed (Some tt), q ++ [e]) else (OPushed None, q)
  | RPop => match q with [] => (OPopped None, []) | e :: q' => (OPopped (Some e), q') end
  | RQuery => (OQuery n (n =? 0) (n =? cap), q)
  end.

Fixpoint fifo_calls (cap : Z) (ops : list ring_op) (q : list RingEntry) : list ring_out :=
  match ops with
  | [] => []
  | op :: ops' => (fifo_call cap op q).1 :: fifo_calls cap ops' (fifo_call cap op q).2
  end.

Section sequential.
Context (C k : Z) (Hcap : C = 2 ^ k) (Hk : 0 <= k <= 63).

(** The ring holds the queue [q]. *)
Definition holds (r : RingBuffer) (q : list RingEntry) : Prop :=
  exists hist T ST SH, ring_ok C r hist T ST SH /\ q = drop (Z.to_nat T) hist.

Lemma holds_length r hist T ST SH :
  ring_ok C r hist T ST SH ->
  Z.of_nat (length (drop (Z.to_nat T) hist)) = Z.of_nat (length hist) - T.
Proof. intros [Ho _ _ _ _ _ _]. rewrite length_drop. lia. Qed.

Lemma try_push_wp e r q (Q : option unit -> RingBuffer -> Prop) :
  holds r q ->
  (forall r', Z.of_nat (length q) = C - 1 -> holds r' q -> Q None r') ->
  (forall r', Z.of_nat (length q) < C - 1 -> holds r' (q ++ [e]) -> Q (Some tt) r') ->
  wp (try_push C e) Q r.
Proof.
  intros (hist & T & ST & SH & Hr & ->) HN HS. rewrite (holds_length _ _ _ _ _ Hr) in HN, HS.
  unfold try_push. apply wp_bind, wp_gets. cbv zeta.
  rewrite (ro_head _ _ _ _ _ _ Hr), (next_index C k Hcap Hk). set (H := Z.of_nat (length hist)) in *.
  assert (Hwrite : forall r1 ST1, ring_ok C r1 hist T ST1 SH -> H + 1 <= ST1 + (C - 1) ->
    wp (s ← getS; buffer ← or_panic (arr_set (rb_buffer s) (H mod C) e);
        modifyS (set_rb_buffer buffer) ;; modifyS (set_rb_head ((H + 1) mod C)) ;; mret (Some tt)) Q r1).
  { intros r1 ST1 Hr1 Hroom. pose proof (ro_order _ _ _ _ _ _ Hr1) as Ho. fold H in Ho.
    destruct (write_slot C k Hcap Hk _ _ _ _ _ Hr1 e Hroom) as (b & Hb & Hr2 & Hs).
    apply wp_bind, wp_gets. apply wp_bind. eapply wp_or_panic; [exact Hb|].
    apply wp_bind, wp_modify. apply wp_bind, wp_modify. apply wp_ret. apply HS; [lia|].
    exists (hist ++ [e]), T, ST1, SH. split; [by eapply publish_push|]. symmetry. apply drop_app_le. lia. }
  apply wp_bind, wp_gets. apply wp_bind.
  destruct (Z.eqb_spec ((H + 1) mod C) (rb_shadow_tail r)) as [Hf|Hf].
  - apply wp_bind, wp_gets. apply wp_bind, wp_modify. apply wp_ret.
    pose proof (refresh_tail C k Hcap Hk _ _ _ _ _ Hr) as Hr1.
    destruct (Z.eqb_spec ((H + 1) mod C) (rb_tail r)) as [Hf1|Hf1].
    + apply wp_ret. apply HN; [by apply (full_by_tail C k Hcap Hk _ _ _ _ _ Hr)|].
      by exists hist, T, T, SH.
    + eapply Hwrite; [exact Hr1|]. by apply (room_by_shadow C k Hcap Hk _ _ _ _ _ Hr1).
  - apply wp_ret. eapply Hwrite; [exact Hr|]. by apply (room_by_shadow C k Hcap Hk _ _ _ _ _ Hr).
Qed.

Lemma try_pop_wp r q (Q : option RingEntry -> RingBuffer -> Prop) :
  holds r q ->
  (forall r', q = [] -> holds r' q -> Q None r') ->
  (forall r' e q', q = e :: q' -> holds r' q' -> Q (Some e) r') ->
  wp (try_pop C) Q r.
Proof.
  intros (hist & T & ST & SH & Hr & ->) HN HS. unfold try_pop. apply wp_bind, wp_gets.
  rewrite (ro_tail _ _ _ _ _ _ Hr).
  assert (Hread : forall r1 SH1, ring_ok C r1 hist T ST SH1 -> T < SH1 ->
    wp (s ← getS; entry ← or_panic (arr_get (rb_buffer s) (T mod C));
        let next_tail := Z.land (T mod C +! 1) (C - 1) in
        modifyS (set_rb_tail next_tail) ;; mret (Some entry)) Q r1).
  { intros r1 SH1 Hr1 Hlt. pose proof (ro_order _ _ _ _ _ _ Hr1) as Ho.
    destruct (read_slot C k Hcap Hk _ _ _ _ _ Hr1 Hlt) as (e & He & Hh).
    apply wp_bind, wp_gets. apply wp_bind. eapply wp_or_panic; [exact He|]. cbv zeta.
    rewrite (next_index C k Hcap Hk). apply wp_bind, wp_modify. apply wp_ret.
    eapply (HS _ e (drop (S (Z.to_nat T)) hist)); [by apply drop_S|].
    exists hist, (T + 1), ST, SH1. split; [by eapply publish_pop|]. f_equal. lia. }
  apply wp_bind, wp_gets. apply wp_bind.
  destruct (Z.eqb_spec (T mod C) (rb_shadow_head r)) as [Hf|Hf].
  - apply wp_bind, wp_gets. apply wp_bind, wp_modify. apply wp_ret.
    pose proof (refresh_head C k Hcap Hk _ _ _ _ _ Hr) as Hr1.
    destruct (Z.eqb_spec (T mod C) (rb_head r)) as [Hf1|Hf1].
    + apply wp_ret. apply HN; [|by eexists hist, T, ST, _].
      apply drop_ge. pose proof (empty_by_head C k Hcap Hk _ _ _ _ _ Hr Hf1). lia.
    + eapply Hread; [exact Hr1|]. by apply (pending_by_head C k Hcap Hk _ _ _ _ _ Hr).
  - apply wp_ret. eapply Hread; [exact Hr|]. by apply (pending_by_shadow C k Hcap Hk _ _ _ _ _ Hr).
Qed.

Lemma ring_len_holds r q : holds r q -> RingBuffer_len C r = Z.of_nat (length q) /\ Z.of_nat (length q) < C.
Proof.
  intros (hist & T & ST & SH & Hr & ->). rewrite (holds_length _ _ _ _ _ Hr).
  pose proof (ro_order _ _ _ _ _ _ Hr) as Ho. pose proof (cap_pos C k Hcap Hk).
  split; [|lia]. unfold RingBuffer_len. rewrite (land_mask C k Hcap Hk).
  rewrite (ro_head _ _ _ _ _ _ Hr), (ro_tail _ _ _ _ _ _ Hr).
  unfold wrap64. replace (2 ^ 64) with (C * 2 ^ (64 - k)).
  2:{ rewrite Hcap, <- pow2_split by lia. done. }
  rewrite Z.mod_mod_divide by (exists (2 ^ (64 - k)); apply Z.mul_comm).
  rewrite <- Zminus_mod. apply Z.mod_small. lia.
Qed.

Lemma ring_call_refines op r q :
  holds r q ->
  exists r', ring_call C op r = Ret ((fifo_call (C - 1) op q).1, r') /\
             holds r' (fifo_call (C - 1) op q).2.
Proof.
  intros Hh. destruct (ring_len_holds r q Hh) as [Hlen Hlt].
  assert (wp (ring_call C op) (fun o r' => o = (fifo_call (C - 1) op q).1 /\
    holds r' (fifo_call (C - 1) op q).2) r) as (o & r' & Hr & -> & Hh'); [|eauto].
  destruct op as [e| |]; simpl.
  - apply wp_bind. apply (try_push_wp e r q _ Hh); intros r' Hn Hh'; apply wp_ret.
    + destruct (Z.ltb_spec (Z.of_nat (length q)) (C - 1)); [lia|done].
    + destruct (Z.ltb_spec (Z.of_nat (length q)) (C - 1)); [done|lia].
  - apply wp_bind. apply (try_pop_wp r q _ Hh).
    + intros r' -> Hh'. by apply wp_ret.
    + intros r' e q' -> Hh'. by apply wp_ret.
  - apply wp_bind, wp_gets, wp_ret. unfold RingBuffer_is_empty, RingBuffer_is_full. by rewrite Hlen.
Qed.

Lemma ring_new_holds r : RingBuffer_new C = Some r -> holds r [].
Proof.
  intros Hr. destruct (ring_reach_ok C k Hcap Hk [] _ (reach_start C r Hr))
    as (hist & T & ST & SH & (Hok & _) & Hf).
  exists hist, T, ST, SH. split; [done|]. inversion Hf as [|tr ? ? ? ? ? Htr]; [done|].
  by destruct tr.
Qed.
End sequential.

(** C24: any sequence of [try_push], [try_pop] and size queries on a new ring gives the
    results of a queue of capacity [CAPACITY - 1]; nothing panics. *)
Theorem ring_calls_refine C r ops :
  is_usize C -> RingBuffer_new C = Some r ->
  exists r', ring_calls C ops r = Ret (fifo_calls (C - 1) ops [], r').
Proof.
  intros Hu Hr. destruct (reach_pow2 C [] _ Hu (reach_start C r Hr)) as (k & Hc & Hk).
  pose proof (ring_new_holds C k Hc Hk r Hr) as Hh. clear Hr.
  revert r Hh. generalize (@nil RingEntry) as q.
  induction ops as [|op ops IH]; intros q r Hh; [by exists r|].
  destruct (ring_call_refines C k Hc Hk op r q Hh) as (r1 & Hr1 & Hh1).
  destruct (IH _ _ Hh1) as (r2 & Hr2). exists r2. simpl ring_calls. run_m. by rewrite Hr1, Hr2.
Qed.

Lemma ring_calls_refine_witness :
  exists r r', RingBuffer_new 2 = Some r /\
    ring_calls 2 [RPush (demo_entry 1); RPush (demo_entry 2); RQuery; RPop; RPop] r =
    Ret ([OPushed (Some tt); OPushed None; OQuery 1 false true; OPopped (Some (demo_entry 1));
          OPopped None], r').
Proof.
  eexists. destruct (ring_calls_refine 2 _ [RPush (demo_entry 1); RPush (demo_entry 2); RQuery; RPop; RPop]
    ltac:(unfold is_usize; lia) eq_refl) as (r' & Hr).
  exists r'. split; [reflexivity|exact Hr].
Defined.

(** ** Payloads *)

Lemma bytes_le_length n v : length (bytes_le n v) = n.
Proof. revert v. induction n as [|n IH]; intros v; simpl; [done|]. by rewrite IH. Qed.

Lemma from_bytes_le n : forall v, 0 <= v < 256 ^ Z.of_nat n -> from_le (bytes_le n v) = v.
Proof.
  induction n as [|n IH]; intros v Hv.
  - simpl in *. lia.
  - rewrite pow256_succ in Hv. simpl. rewrite IH.
    + pose proof (Z.div_mod v 256). lia.
    + split; [apply Z.div_pos; lia|]. apply Z.div_lt_upper_bound; lia.
Qed.

(** A field behind a prefix of the right length reads back what was written. *)
Lemma field_at (pre : list Z) n v rest :
  0 <= v < 256 ^ Z.of_nat n -> field (length pre) n (pre ++ bytes_le n v ++ rest) = v.
Proof.
  intros Hv. unfold field. rewrite drop_app_length, take_app_length'; [by apply from_bytes_le|].
  symmetry. apply bytes_le_length.
Qed.

(** Each member of the payload union reads back what was stored through it, the
    padding and the bytes after it whatever they are. *)
Theorem payload_roundtrip fb cr tu sr rest :
  is_usize (fb_ptr fb) -> is_usize (fb_size fb) -> 0 <= fb_size_class fb < 256 ->
  is_usize (cr_start_addr cr) -> is_usize (cr_length cr) ->
  is_usize (tu_ptr tu) -> 0 <= tu_old_tag tu < 65536 -> 0 <= tu_new_tag tu < 65536 ->
  is_usize (sr_thread_id sr) -> is_usize (sr_allocs sr) -> is_usize (sr_frees sr) ->
  read_free_block (from_free_block fb rest) = fb /\ read_compaction (from_compaction cr rest) = cr /\
  read_tag_update (from_tag_update tu rest) = tu /\ read_stats (from_stats sr rest) = sr.
Proof.
  intros ? ? ? ? ? ? ? ? ? ? ?. destruct fb as [f1 f2 f3], cr as [c1 c2], tu as [t1 t2 t3], sr as [s1 s2 s3].
  unfold read_free_block, from_free_block, read_compaction, from_compaction, read_tag_update,
    from_tag_update, read_stats, from_stats. cbn [fb_ptr fb_size fb_size_class cr_start_addr cr_length
    tu_ptr tu_old_tag tu_new_tag sr_thread_id sr_allocs sr_frees] in *.
  split_and!; f_equal; first
    [ by apply (field_at [])
    | by apply (field_at (bytes_le 8 _))
    | rewrite app_assoc; by apply (field_at (bytes_le 8 _ ++ bytes_le _ _)) ].
Qed.

Lemma payload_roundtrip_witness :
  read_tag_update (from_tag_update {| tu_ptr := 4096; tu_old_tag := 3; tu_new_tag := 513 |} (replicate 44 7)) =
  {| tu_ptr := 4096; tu_old_tag := 3; tu_new_tag := 513 |}.
Proof.
  destruct (payload_roundtrip {| fb_ptr := 0; fb_size := 0; fb_size_class := 0 |}
    {| cr_start_addr := 0; cr_length := 0 |} {| tu_ptr := 4096; tu_old_tag := 3; tu_new_tag := 513 |}
    {| sr_thread_id := 0; sr_allocs := 0; sr_frees := 0 |} (replicate 44 7)) as (_ & _ & H & _);
    try (unfold is_usize; simpl; lia). exact H.
Defined.
