(* ===== verification/SupportCore.v ===== *)
(** * The support core

    Models aethalloc-amo/src/support_core.rs: the loop that takes commands off the
    ring and handles them, round by round on a ring nobody else touches, and access by
    access while a producer pushes.  The arms of [handle_command] read their payload and
    drop it, so what a command does is what it reads. *)

From S2P Require Import Prelude RingBuffer.

(** ** Definitions *)

Record SupportCore : Type := {
  ring_buffer : RingBuffer;
  running : bool
}.

Definition SupportCore_new (r : RingBuffer) : SupportCore := {| ring_buffer := r; running := true |}.

Inductive handled : Type :=
  | HFreeBlock (p : FreeBlockPayload)
  | HCompaction (p : CompactionRequestPayload)
  | HTagUpdate (p : TagUpdatePayload)
  | HStats (p : StatsReportPayload)
  | HNoOp.

(** The payload each arm reads. *)
Definition handle_command (entry : RingEntry) : handled :=
  match command entry with
  | FreeBlock => HFreeBlock (read_free_block (payload entry))
  | CompactionRequest => HCompaction (read_compaction (payload entry))
  | TagUpdate => HTagUpdate (read_tag_update (payload entry))
  | StatsReport => HStats (read_stats (payload entry))
  | NoOp => HNoOp
  end.

Definition SupportCore_stop : M SupportCore unit :=
  modifyS (fun s => {| ring_buffer := ring_buffer s; running := false |}).

Section core.
Context (N : Z).

(** One round of the loop; no command means the thread yields. *)
Definition run_round : M SupportCore (option handled) :=
  r ← zoom (fun s => Some (ring_buffer s))
        (fun b s => {| ring_buffer := b; running := running s |}) (try_pop N);
  match r with
  | Some entry => mret (Some (handle_command entry))
  | None => mret None
  end.

(** [n] rounds and the commands they handled. *)
Fixpoint run_rounds (n : nat) : M SupportCore (list handled) :=
  match n with
  | O => mret []
  | S n' => h ← run_round; hs ← run_rounds n'; mret (option_list h ++ hs)
  end.
End core.

(** ** The loop beside a producer *)

(** Where the thread inside [run] is: at the test of the loop, inside [try_pop], or
    outside, after a test that failed. *)
Inductive core_place : Type :=
  | AtTest
  | InTryPop
  | Returned.

Record core_config : Type := {
  co_ring : ring_config;
  co_running : bool;
  co_place : core_place;
  (** the commands handled so far, and the rounds of the loop that are over *)
  co_handled : list handled;
  co_rounds : nat
}.

Inductive core_action : Type :=
  | ProducerPushes (entry : RingEntry)
  | ProducerStep
  | CoreStep.

(** The end of a [try_pop] is the end of a round. *)
Definition end_round (r : ring_config) (h : list handled) (c : core_config) : core_config :=
  {| co_ring := r; co_running := co_running c; co_place := AtTest;
     co_handled := co_handled c ++ h; co_rounds := S (co_rounds c) |}.

Definition core_moves (r : ring_config) (p : core_place) (c : core_config) : core_config :=
  {| co_ring := r; co_running := co_running c; co_place := p;
     co_handled := co_handled c; co_rounds := co_rounds c |}.

Section interleaved.
Context (N : Z).

(** One access of the producer, or one access of the thread inside [run].  [stop] needs
    the exclusive reference that [run] holds, so no action changes [running]. *)
Definition core_step (a : core_action) (c : core_config) : option (core_config * option ring_label) :=
  match a with
  | ProducerPushes e => '(r, o) ← ring_step N (StartPush e) (co_ring c); Some (core_moves r (co_place c) c, o)
  | ProducerStep => '(r, o) ← ring_step N Produce (co_ring c); Some (core_moves r (co_place c) c, o)
  | CoreStep =>
      match co_place c with
      | AtTest =>
          if co_running c then
            '(r, o) ← ring_step N StartPop (co_ring c); Some (core_moves r InTryPop c, o)
          else Some (core_moves (co_ring c) Returned c, None)
      | InTryPop =>
          '(r, o) ← ring_step N Consume (co_ring c);
          Some (match o with
                | Some (LPopped e) => end_round r [handle_command e] c
                | Some _ => end_round r [] c
                | None => core_moves r InTryPop c
                end, o)
      | Returned => None
      end
  end.

(** Runs from a new ring and a new core, with the steps the core has taken and what the
    calls of the ring have done. *)
Inductive core_reach : nat -> list ring_label -> core_config -> Prop :=
  | core_start r :
      RingBuffer_new N = Some r ->
      core_reach 0 [] {| co_ring := Config r PIdle CIdle; co_running := running (SupportCore_new r);
                         co_place := AtTest; co_handled := []; co_rounds := 0 |}
  | core_more n tr c a c' o :
      core_reach n tr c -> core_step a c = Some (c', o) ->
      core_reach (match a with CoreStep => S n | _ => n end) (tr ++ option_list o) c'.
End interleaved.

(** The entries that were pushed, and those that were popped. *)
Definition pushed (tr : list ring_label) : list RingEntry :=
  omap (fun l => match l with LPushed e => Some e | _ => None end) tr.

Definition popped (tr : list ring_label) : list RingEntry :=
  omap (fun l => match l with LPopped e => Some e | _ => None end) tr.

(** ** What the loop does *)

Section proofs.
Context (N k : Z) (Hcap : N = 2 ^ k) (Hk : 0 <= k <= 63).

Lemma run_round_holds s q :
  holds N (ring_buffer s) q ->
  exists b, run_round N s = Ret (handle_command <$> head q, {| ring_buffer := b; running := running s |}) /\
            holds N b (tail q).
Proof.
  intros Hh.
  assert (wp (run_round N) (fun o s' => o = handle_command <$> head q /\ running s' = running s /\
    holds N (ring_buffer s') (tail q)) s) as (o & [b on] & Hr & -> & Hon & Hb).
  - apply wp_bind. eapply wp_zoom; [done|]. apply (try_pop_wp N k Hcap Hk _ q _ Hh).
    + intros r' -> Hr'. by apply wp_ret.
    + intros r' e q' -> Hr'. by apply wp_ret.
  - exists b. simpl in *. by subst.
Qed.
End proofs.

(** With [q] waiting on the ring, [length q] rounds or more handle every command of
    [q] once, in the order they were pushed, and leave the ring empty; rounds on an
    empty ring do nothing. *)
Theorem support_core_drains N k s q extra :
  N = 2 ^ k -> 0 <= k <= 63 -> holds N (ring_buffer s) q ->
  exists b, run_rounds N (length q + extra) s =
              Ret (handle_command <$> q, {| ring_buffer := b; running := running s |}) /\
            holds N b [].
Proof.
  intros Hc Hk. revert s. induction q as [|e q IH]; intros s Hh; simpl Nat.add.
  - revert s Hh. induction extra as [|n IHn]; intros s Hh.
    + exists (ring_buffer s). by destruct s.
    + destruct (run_round_holds N k Hc Hk s [] Hh) as (b & Hr & Hb).
      destruct (IHn {| ring_buffer := b; running := running s |} Hb) as (b' & Hr' & Hb'). exists b'. split; [|done].
      simpl run_rounds. run_m. by rewrite Hr, Hr'.
  - destruct (run_round_holds N k Hc Hk s _ Hh) as (b & Hr & Hb).
    destruct (IH {| ring_buffer := b; running := running s |} Hb) as (b' & Hr' & Hb'). exists b'. split; [|done].
    simpl run_rounds. run_m. by rewrite Hr, Hr'.
Qed.

(** ** The loop under every interleaving *)

Lemma fifo_history_split cap tr q : fifo_history cap tr q -> pushed tr = popped tr ++ q.
Proof.
  unfold pushed, popped. induction 1 as [|tr q l q' _ IH Hl]; [done|]. rewrite !omap_app, IH.
  destruct l; simpl in *.
  - destruct Hl as [_ ->]. by rewrite app_nil_r, (assoc_L (++)).
  - destruct Hl as [_ ->]. by rewrite !app_nil_r.
  - subst q. by rewrite app_nil_r, <- (assoc_L (++)).
  - destruct Hl as [_ ->]. by rewrite !app_nil_r.
Qed.

(** How many accesses of its round the core has behind it, at most. *)
Definition accesses (q : consumer) : nat :=
  match q with
  | CIdle => 0
  | CLoadTail => 1
  | CCheckShadow _ => 2
  | CLoadHead _ => 3
  | CRead _ => 4
  | CPublish _ _ => 5
  end.

Record core_inv (N : Z) (n : nat) (tr : list ring_label) (c : core_config) : Prop := {
  ci_ring : ring_reach N tr (co_ring c);
  ci_running : co_running c = true;
  ci_place : match co_place c with
             | AtTest => cf_cons (co_ring c) = CIdle
             | InTryPop => cf_cons (co_ring c) <> CIdle
             | Returned => False
             end;
  ci_handled : co_handled c = handle_command <$> popped tr;
  ci_steps : (n <= 6 * co_rounds c + accesses (cf_cons (co_ring c)))%nat
}.

(** The producer does not move the consumer, and takes nothing off the ring. *)
Lemma producer_frame N a r r' o :
  match a with StartPush _ | Produce => True | _ => False end ->
  ring_step N a r = Some (r', o) -> cf_cons r' = cf_cons r /\ popped (option_list o) = [].
Proof.
  destruct r as [b p q]. intros Ha Hs. destruct a; [| |done|done].
  - destruct p; simplify_eq/=; done.
  - destruct p as [|e|e h x|e h x|e h x|e x]; simpl in Hs; simplify_eq/=; try done.
    + destruct (_ =? _); simplify_eq; done.
    + destruct (arr_set _ _ _); simplify_eq/=; done.
Qed.

(** A step of the consumer inside [try_pop]: the call ends, or it comes nearer to its end. *)
Lemma consumer_advances N r r' o :
  ring_step N Consume r = Some (r', o) ->
  match o with
  | Some (LPopped _ | LEmpty) => cf_cons r' = CIdle
  | Some _ => False
  | None => cf_cons r' <> CIdle /\ (accesses (cf_cons r) < accesses (cf_cons r'))%nat
  end.
Proof.
  destruct r as [b pr q]. intros Hs.
  destruct q as [| |x|x|x|e x]; destruct pr; simpl in Hs; simplify_eq/=; try done;
    try (destruct (_ =? _); simplify_eq/=; try done; (split; [done|lia])); try (split; [done|lia]);
    destruct (arr_get _ _); simplify_eq/=; (split; [done|lia]).
Qed.

Lemma popped_app tr tr' : popped (tr ++ tr') = popped tr ++ popped tr'.
Proof. apply omap_app. Qed.

#[local] Arguments ring_step : simpl never.

Lemma core_inv_step N n tr c a c' o :
  core_inv N n tr c -> core_step N a c = Some (c', o) ->
  core_inv N (match a with CoreStep => S n | _ => n end) (tr ++ option_list o) c'.
Proof.
  intros [Hr Hon Hp Hh Hn] Hs.
  assert (Hprod : forall b r, match b with StartPush _ | Produce => True | _ => False end ->
    ring_step N b (co_ring c) = Some (r, o) -> core_inv N n (tr ++ option_list o) (core_moves r (co_place c) c)).
  { intros b r Hb Hb'. destruct (producer_frame _ _ _ _ _ Hb Hb') as [Hc Ho].
    constructor; simpl; rewrite ?Hc; try done; [by eapply reach_step|]. by rewrite popped_app, Ho, app_nil_r. }
  destruct a; simpl in Hs.
  - destruct (ring_step N (StartPush entry) (co_ring c)) as [[r o']|] eqn:Hb; simplify_eq/=. by apply (Hprod (StartPush entry)).
  - destruct (ring_step N Produce (co_ring c)) as [[r o']|] eqn:Hb; simplify_eq/=. by apply (Hprod Produce).
  - destruct (co_place c) eqn:Hpl; [| |done].
    + rewrite Hon in Hs. destruct (ring_step N StartPop (co_ring c)) as [[r o']|] eqn:Hb; simplify_eq/=.
      assert (Hc : cf_cons r = CLoadTail /\ o = None).
      { destruct (co_ring c) as [b p q]. simpl in Hp. subst q. unfold ring_step in Hb. by destruct p; simplify_eq/=. }
      destruct Hc as [Hc ->]. rewrite Hp in Hn. constructor; simpl; rewrite ?Hc, ?app_nil_r; try done; [|simpl in *; lia].
      pose proof (reach_step _ _ _ _ _ _ Hr Hb) as Hr'. by rewrite app_nil_r in Hr'.
    + destruct (ring_step N Consume (co_ring c)) as [[r o']|] eqn:Hb; simplify_eq/=.
      pose proof (consumer_advances _ _ _ _ Hb) as Ha. pose proof (reach_step _ _ _ _ _ _ Hr Hb) as Hr'.
      assert (H5 : (accesses (cf_cons (co_ring c)) <= 5)%nat) by (destruct (cf_cons _); simpl; lia).
      destruct o as [[e| |e|]|]; try done; constructor; simpl; rewrite ?Ha, ?app_nil_r, ?popped_app, ?fmap_app, ?Hh;
        simpl in *; rewrite ?app_nil_r in *; try done; try lia; by destruct Ha.
Qed.

Lemma core_reach_inv N n tr c : core_reach N n tr c -> core_inv N n tr c.
Proof.
  induction 1 as [r Hr|n tr c a c' o _ IH Hs]; [|by eapply core_inv_step].
  constructor; simpl; try done. by constructor.
Qed.

(** C25: the loop of [run] under every interleaving with a producer: the core never
    returns ([stop] needs the reference that [run] holds), its next access is always
    possible, and after [n] accesses of its own it has finished more than [n / 6 - 1]
    rounds however the producer moved; the commands it has handled are those pushed
    first, each once and in order, and the rest of those pushed is what the ring still
    holds, at most [N - 1] entries. *)
Theorem support_core_serves N n tr c :
  is_usize N -> core_reach N n tr c ->
  co_place c <> Returned /\ is_Some (core_step N CoreStep c) /\ (n < 6 * S (co_rounds c))%nat /\
  exists q, pushed tr = popped tr ++ q /\ co_handled c = handle_command <$> popped tr /\
    fifo_history (N - 1) tr q.
Proof.
  intros Hu Hre. pose proof (core_reach_inv _ _ _ _ Hre) as [Hr Hon Hp Hh Hn].
  destruct (ring_steps N tr (co_ring c) Hu Hr) as (_ & Hcons & q & Hq).
  split_and!.
  - by destruct (co_place c).
  - simpl. destruct (co_place c); [| |done].
    + rewrite Hon. destruct (co_ring c) as [b p x]. simpl in Hp. subst x. unfold ring_step. destruct p; simpl; eauto.
    + destruct (Hcons Hp) as [[r o] ->]. simpl. eauto.
  - destruct (cf_cons (co_ring c)); simpl in Hn; lia.
  - exists q. split_and!; [by eapply fifo_history_split|done|done].
Qed.

(** A ring with two commands. *)
Lemma demo_ring :
  exists s, holds 4 (ring_buffer s) [demo_entry 1; demo_entry 2] /\ running s = true.
Proof.
  destruct (RingBuffer_new 4) as [r|] eqn:Hn; [|done].
  assert (H4 : 4 = 2 ^ 2) by done. assert (Hk2 : 0 <= 2 <= 63) by lia.
  pose proof (ring_new_holds 4 2 H4 Hk2 r Hn) as H0.
  destruct (ring_call_refines 4 2 H4 Hk2 (RPush (demo_entry 1)) r [] H0) as (r1 & _ & H1).
  destruct (ring_call_refines 4 2 H4 Hk2 (RPush (demo_entry 2)) r1 _ H1) as (r2 & _ & H2).
  by exists (SupportCore_new r2).
Qed.

Lemma support_core_drains_witness :
  exists s s', run_rounds 4 5 s = Ret ([handle_command (demo_entry 1); handle_command (demo_entry 2)], s') /\
    handle_command (demo_entry 2) = HStats {| sr_thread_id := 2; sr_allocs := 10; sr_frees := 3 |}.
Proof.
  destruct demo_ring as (s & Hs & _). exists s.
  destruct (support_core_drains 4 2 s [demo_entry 1; demo_entry 2] 3 ltac:(done) ltac:(lia) Hs)
    as (b & Hr & _). eexists. split; [exact Hr|]. reflexivity.
Defined.

(** The producer pushes a command, the core tests its condition before and takes the
    command after; then the producer has begun another push. *)
Definition core_schedule : list core_action :=
  CoreStep :: ProducerPushes (demo_entry 1) :: replicate 4 ProducerStep ++ replicate 5 CoreStep ++
  [CoreStep; ProducerPushes (demo_entry 2); ProducerStep].

Fixpoint core_exec (N : Z) (l : list core_action) (n : nat) (tr : list ring_label) (c : core_config) :
    option (nat * list ring_label * core_config) :=
  match l with
  | [] => Some (n, tr, c)
  | a :: l' =>
      '(c', o) ← core_step N a c;
      core_exec N l' (match a with CoreStep => S n | _ => n end) (tr ++ option_list o) c'
  end.

Lemma core_exec_reach N l : forall n tr c n' tr' c',
  core_reach N n tr c -> core_exec N l n tr c = Some (n', tr', c') -> core_reach N n' tr' c'.
Proof.
  induction l as [|a l IH]; intros n tr c n' tr' c' Hre He; simplify_eq/=; [done|].
  destruct (core_step N a c) as [[c1 o]|] eqn:Hst; simplify_eq/=. eapply IH; [|done]. by eapply core_more.
Qed.

Lemma core_demo_reach :
  exists c, core_reach 4 7 [LPushed (demo_entry 1); LPopped (demo_entry 1)] c /\ co_rounds c = 1%nat /\
    co_handled c = [handle_command (demo_entry 1)].
Proof.
  set (c0 := {| co_ring := demo_start; co_running := true; co_place := AtTest; co_handled := []; co_rounds := 0 |}).
  destruct (core_exec 4 core_schedule 0 [] c0) as [[[n tr] c]|] eqn:He; [|by vm_compute in He].
  assert (Hre : core_reach 4 n tr c).
  { eapply core_exec_reach; [|exact He]. by apply (core_start 4). }
  exists c. vm_compute in He. simplify_eq. split_and!; done.
Qed.

Lemma support_core_serves_witness :
  exists c, core_reach 4 7 [LPushed (demo_entry 1); LPopped (demo_entry 1)] c /\ co_place c <> Returned /\
    is_Some (core_step 4 CoreStep c).
Proof.
  destruct core_demo_reach as (c & Hre & _). exists c. split; [exact Hre|].
  destruct (support_core_serves 4 _ _ c ltac:(unfold is_usize; lia) Hre) as (H1 & H2 & _). by split.
Defined.
