(* ===== verification/TagManager.v ===== *)
(** * Pointer tags in software

    Models aethalloc-hess/src/tag_manager.rs: the trait of tag managers as a class of
    operations, the software manager that hands out the tags 1 to 15 round robin from a
    16-bit set, and the tag in bits 56 to 59 of a pointer.  [TagAllocLaws] is what any
    manager promises about the tags it hands out; the managers for tagging hardware, in
    HardwareTags, keep it too. *)

From S2P Require Import Prelude Memory.

(** ** Definitions *)

Definition MAX_TAG : Z := 15.
Definition MIN_TAG : Z := 1.

Inductive TagError : Type :=
  | OutOfTags
  | InvalidTag
  | HardwareNotSupported
  | AlignmentError.

#[global] Instance TagError_eq_dec : EqDecision TagError.
Proof. solve_decision. Defined.

Inductive TagStrategy : Type :=
  | Random
  | Sequential
  | RoundRobin.

(** An allocation and its tag. *)
Record TaggedAllocation : Type := {
  tagged_ptr : Z;
  tagged_size : Z;
  tagged_tag : Z
}.

Definition TaggedAllocation_new (ptr size tag : Z) : TaggedAllocation :=
  {| tagged_ptr := ptr; tagged_size := size; tagged_tag := tag |}.

Definition TaggedAllocation_as_ptr (self : TaggedAllocation) : Z := tagged_ptr self.

(** [core::slice::from_raw_parts] and [from_raw_parts_mut]. *)
Definition TaggedAllocation_as_bytes (self : TaggedAllocation) : slice :=
  {| sl_ptr := tagged_ptr self; sl_len := tagged_size self |}.

Definition TaggedAllocation_as_bytes_mut (self : TaggedAllocation) : slice :=
  {| sl_ptr := tagged_ptr self; sl_len := tagged_size self |}.

(** The trait; a pointer is an address, a [Result] a sum. *)
Class TagManager (T : Type) : Type := {
  allocate_tag : M T (Z + TagError);
  free_tag : Z -> M T (unit + TagError);
  tag_pointer : T -> Z -> Z -> Z + TagError;
  untag_pointer : T -> Z -> Z;
  get_tag : T -> Z -> Z;
  store_tag : T -> Z -> Z -> unit + TagError;
  load_tag : T -> Z -> Z
}.

Record SoftwareTagManager : Type := {
  next_tag : Z;
  used_tags : Z
}.

Definition SoftwareTagManager_new : SoftwareTagManager := {| next_tag := MIN_TAG; used_tags := 0 |}.

(** [1 << tag] and [!x] on a [u16]; a shift amount is taken modulo 16. *)
Definition shl16 (tag : Z) : Z := Z.shiftl 1 (tag mod 16) mod 2 ^ 16.
Definition not16 (x : Z) : Z := 2 ^ 16 - 1 - x.

Definition is_tag_used (s : SoftwareTagManager) (tag : Z) : bool :=
  negb (Z.land (used_tags s) (shl16 tag) =? 0).

Definition mark_tag_used (s : SoftwareTagManager) (tag : Z) : SoftwareTagManager :=
  {| next_tag := next_tag s; used_tags := Z.lor (used_tags s) (shl16 tag) |}.

Definition mark_tag_free (s : SoftwareTagManager) (tag : Z) : SoftwareTagManager :=
  {| next_tag := next_tag s; used_tags := Z.land (used_tags s) (not16 (shl16 tag)) |}.

(** The loop of [allocate_tag] with [n] rounds left. *)
Fixpoint allocate_loop (n : nat) (s : SoftwareTagManager) : (Z + TagError) * SoftwareTagManager :=
  match n with
  | O => (inr OutOfTags, s)
  | S n' =>
      let tag := next_tag s in
      let s := {| next_tag := if MAX_TAG <=? next_tag s then MIN_TAG else next_tag s + 1;
                  used_tags := used_tags s |} in
      if negb (is_tag_used s tag) then (inl tag, mark_tag_used s tag) else allocate_loop n' s
  end.

Definition Software_allocate_tag : M SoftwareTagManager (Z + TagError) := fun s =>
  Ret (allocate_loop (Z.to_nat (MAX_TAG - MIN_TAG + 1)) s).

Definition Software_free_tag (tag : Z) : M SoftwareTagManager (unit + TagError) := fun s =>
  if negb ((MIN_TAG <=? tag) && (tag <=? MAX_TAG)) then Ret (inr InvalidTag, s)
  else Ret (inl tt, mark_tag_free s tag).

(** The mask [0x0F00000000000000]. *)
Definition TAG_MASK : Z := 15 * 2 ^ 56.

Definition Software_tag_pointer (ptr tag : Z) : Z + TagError :=
  if MAX_TAG <? tag then inr InvalidTag
  else inl (Z.lor (Z.land ptr (unot TAG_MASK)) (shl64 tag 56)).

Definition Software_untag_pointer (ptr : Z) : Z := Z.land ptr (unot TAG_MASK).

Definition Software_get_tag (ptr : Z) : Z := Z.land (Z.shiftr ptr 56) 15.

#[global] Instance SoftwareTagManager_ops : TagManager SoftwareTagManager := {|
  allocate_tag := Software_allocate_tag;
  free_tag := Software_free_tag;
  tag_pointer := fun _ => Software_tag_pointer;
  untag_pointer := fun _ => Software_untag_pointer;
  get_tag := fun _ => Software_get_tag;
  store_tag := fun _ _ _ => inl tt;
  load_tag := fun _ _ => 0
|}.

(** ** The abstract manager: a set of tags in use *)

Inductive tag_call : Type :=
  | CallAllocate
  | CallFree (tag : Z).

Inductive tag_spec : gset Z -> tag_call -> (Z + TagError) -> gset Z -> Prop :=
  | spec_allocate U t : MIN_TAG <= t <= MAX_TAG -> t ∉ U -> tag_spec U CallAllocate (inl t) ({[t]} ∪ U)
  | spec_exhausted U : (forall t, MIN_TAG <= t <= MAX_TAG -> t ∈ U) ->
      tag_spec U CallAllocate (inr OutOfTags) U
  | spec_free U t : MIN_TAG <= t <= MAX_TAG -> tag_spec U (CallFree t) (inl 0) (U ∖ {[t]})
  | spec_invalid U t : ~ (MIN_TAG <= t <= MAX_TAG) -> tag_spec U (CallFree t) (inr InvalidTag) U.

Inductive tag_spec_run : gset Z -> list (tag_call * (Z + TagError)) -> gset Z -> Prop :=
  | spec_run_nil U : tag_spec_run U [] U
  | spec_run_cons U c r U' tr U'' :
      tag_spec U c r U' -> tag_spec_run U' tr U'' -> tag_spec_run U ((c, r) :: tr) U''.

(** The part of a manager that hands out tags. *)
Class TagAlloc (T : Type) : Type := {
  ta_allocate : M T (Z + TagError);
  ta_free : Z -> M T (unit + TagError)
}.

#[global] Instance trait_TagAlloc {T} `{TagManager T} : TagAlloc T := {|
  ta_allocate := allocate_tag;
  ta_free := free_tag
|}.

(** A tag is a [u16]. *)
Definition call_ok (c : tag_call) : Prop :=
  match c with CallAllocate => True | CallFree t => 0 <= t < 2 ^ 16 end.

Section calls.
Context {T : Type} `{TagAlloc T}.

(** A call on the manager; the unit result of [free_tag] is written 0. *)
Definition tag_exec (c : tag_call) : M T (Z + TagError) :=
  match c with
  | CallAllocate => ta_allocate
  | CallFree t => r ← ta_free t; mret (match r with inl _ => inl 0 | inr e => inr e end)
  end.

Fixpoint tag_run (cs : list tag_call) : M T (list (tag_call * (Z + TagError))) :=
  match cs with
  | [] => mret []
  | c :: cs => r ← tag_exec c; rs ← tag_run cs; mret ((c, r) :: rs)
  end.
End calls.

(** [ta_inv s U]: the manager's state says that the tags [U] are in use. *)
Class TagAllocLaws (T : Type) `{A : TagAlloc T} : Type := {
  ta_inv : T -> gset Z -> Prop;
  ta_exec c s U : call_ok c -> ta_inv s U ->
    exists r s' U', tag_exec c s = Ret (r, s') /\ ta_inv s' U' /\ tag_spec U c r U'
}.

(** ** The invariant *)

Record tag_inv (s : SoftwareTagManager) (U : gset Z) : Prop := {
  ti_next : MIN_TAG <= next_tag s <= MAX_TAG;
  ti_bits i : 0 <= i -> Z.testbit (used_tags s) i = bool_decide (i ∈ U);
  ti_tags t : t ∈ U -> MIN_TAG <= t <= MAX_TAG
}.

Lemma shl16_pow2 t : MIN_TAG <= t <= MAX_TAG -> shl16 t = 2 ^ t.
Proof.
  unfold MIN_TAG, MAX_TAG, shl16. intros Ht. rewrite (Z.mod_small t) by lia. rewrite Z.shiftl_1_l.
  apply Z.mod_small. split; [apply Z.pow_nonneg; lia|]. apply pow2_lt. lia.
Qed.

Lemma is_tag_used_spec s U t : tag_inv s U -> MIN_TAG <= t <= MAX_TAG -> is_tag_used s t = bool_decide (t ∈ U).
Proof.
  intros [Hn Hb _] Ht. unfold is_tag_used. rewrite shl16_pow2 by done. unfold MIN_TAG in Ht.
  rewrite <- Hb by lia. destruct (Z.testbit (used_tags s) t) eqn:Hbit.
  - destruct (Z.eqb_spec (Z.land (used_tags s) (2 ^ t)) 0) as [H0|]; [|done]. exfalso.
    assert (Z.testbit (Z.land (used_tags s) (2 ^ t)) t = true) as H1.
    { by rewrite Z.land_spec, Hbit, Z.pow2_bits_true by lia. }
    by rewrite H0, Z.bits_0 in H1.
  - destruct (Z.eqb_spec (Z.land (used_tags s) (2 ^ t)) 0) as [|Hne]; [done|]. exfalso. apply Hne.
    apply Z.bits_inj_iff'. intros i Hi. rewrite Z.land_spec, Z.bits_0, Z.pow2_bits_eqb by lia.
    destruct (Z.eqb_spec t i) as [<-|]; [by rewrite Hbit|apply andb_false_r].
Qed.

Lemma mark_tag_used_inv s U t :
  tag_inv s U -> MIN_TAG <= t <= MAX_TAG -> tag_inv (mark_tag_used s t) ({[t]} ∪ U).
Proof.
  intros [Hn Hb Ht] Hr. constructor; simpl; [done| |set_solver]. intros i Hi.
  rewrite shl16_pow2, Z.lor_spec, Hb, Z.pow2_bits_eqb by (unfold MIN_TAG in *; lia).
  destruct (Z.eqb_spec t i) as [<-|Hne]; [rewrite orb_true_r|rewrite orb_false_r].
  - symmetry. apply bool_decide_eq_true. set_solver.
  - apply bool_decide_ext. set_solver.
Qed.

Lemma mark_tag_free_inv s U t :
  tag_inv s U -> MIN_TAG <= t <= MAX_TAG -> tag_inv (mark_tag_free s t) (U ∖ {[t]}).
Proof.
  intros [Hn Hb Ht] Hr. constructor; simpl; [done| |set_solver]. intros i Hi.
  rewrite shl16_pow2 by done. unfold not16. unfold MIN_TAG, MAX_TAG in *.
  replace (2 ^ 16 - 1 - 2 ^ t) with (Z.ldiff (Z.ones 16) (2 ^ t)).
  2:{ rewrite <- Z.sub_nocarry_ldiff; [by rewrite Z.ones_equiv|]. apply Z.bits_inj_iff'. intros j Hj.
      rewrite Z.ldiff_spec, Z.bits_0, Z.pow2_bits_eqb by lia. destruct (Z.eqb_spec t j) as [<-|]; [|done].
      by rewrite Z.ones_spec_low by lia. }
  rewrite Z.land_spec, Z.ldiff_spec, Z.pow2_bits_eqb, Hb by lia.
  destruct (Z.eqb_spec t i) as [<-|Hne]; simpl.
  - rewrite ?andb_false_r. symmetry. apply bool_decide_eq_false. set_solver.
  - destruct (decide (i < 16)) as [Hlt|Hge].
    + rewrite Z.ones_spec_low by lia. rewrite ?andb_true_r. apply bool_decide_ext. set_solver.
    + rewrite (bool_decide_eq_false_2 (i ∈ U)) by (intros Hin; apply Ht in Hin; lia). simpl.
      symmetry. apply bool_decide_eq_false. intros Hin. apply elem_of_difference in Hin as [Hin _].
      apply Ht in Hin. lia.
Qed.

(** The tag [i] rounds after [n]. *)
Definition round_robin (n i : Z) : Z := (n - MIN_TAG + i) mod 15 + MIN_TAG.

Lemma allocate_loop_spec n : forall s U, tag_inv s U -> (n <= 15)%nat ->
  match allocate_loop n s with
  | (inl t, s') => tag_inv s' ({[t]} ∪ U) /\ MIN_TAG <= t <= MAX_TAG /\ (t ∉ U) /\
      exists i, 0 <= i < Z.of_nat n /\ t = round_robin (next_tag s) i /\
                forall j, 0 <= j < i -> round_robin (next_tag s) j ∈ U
  | (inr e, s') => e = OutOfTags /\ tag_inv s' U /\
      forall j, 0 <= j < Z.of_nat n -> round_robin (next_tag s) j ∈ U
  end.
Proof.
  induction n as [|n IH]; intros s U Hinv Hn; simpl; [split; [done|split; [done|lia]]|].
  set (s1 := {| next_tag := _; used_tags := used_tags s |}).
  assert (Hinv1 : tag_inv s1 U).
  { destruct Hinv as [Hnx Hb Ht]. constructor; simpl; [|done|done].
    destruct (Z.leb_spec MAX_TAG (next_tag s)); unfold MIN_TAG, MAX_TAG in *; lia. }
  pose proof (ti_next _ _ Hinv) as Hnx.
  assert (Hrr0 : round_robin (next_tag s) 0 = next_tag s).
  { unfold round_robin, MIN_TAG, MAX_TAG in *. mlia. }
  assert (Hrr : forall j, 0 <= j -> round_robin (next_tag s1) j = round_robin (next_tag s) (j + 1)).
  { intros j Hj. unfold round_robin, s1. simpl. unfold MIN_TAG, MAX_TAG in *.
    destruct (Z.leb_spec 15 (next_tag s)); mlia. }
  rewrite (is_tag_used_spec s1 U) by done. case_bool_decide as Hu; simpl.
  - specialize (IH s1 U Hinv1 ltac:(lia)).
    assert (Hshift : forall i, 0 <= i -> (forall j, 0 <= j < i -> round_robin (next_tag s1) j ∈ U) ->
      forall j, 0 <= j < i + 1 -> round_robin (next_tag s) j ∈ U).
    { intros i Hi Hall j Hj. destruct (decide (j = 0)) as [->|]; [by rewrite Hrr0|].
      specialize (Hall (j - 1) ltac:(lia)). rewrite Hrr in Hall by lia.
      by replace (j - 1 + 1) with j in Hall by lia. }
    destruct (allocate_loop n s1) as [[t|e] s'].
    + destruct IH as (? & ? & ? & i & Hi & Hti & Hall). do 3 (split; [done|]).
      exists (i + 1). rewrite Hti. split; [lia|]. split; [apply Hrr; lia|]. apply Hshift; [lia|done].
    + destruct IH as (? & ? & Hall). split_and!; [done|done|]. intros j Hj.
      apply (Hshift (Z.of_nat n)); [lia|done|lia].
  - split; [by apply mark_tag_used_inv|]. do 2 (split; [done|]). exists 0. split; [lia|]. split; [done|]. lia.
Qed.

Lemma round_robin_covers n t : MIN_TAG <= n <= MAX_TAG -> MIN_TAG <= t <= MAX_TAG ->
  exists j, 0 <= j < 15 /\ round_robin n j = t.
Proof.
  intros Hn Ht. exists ((t - n) mod 15). unfold round_robin, MIN_TAG, MAX_TAG in *. mlia.
Qed.

Lemma SoftwareTagManager_new_inv : tag_inv SoftwareTagManager_new ∅.
Proof.
  constructor; simpl; [done| |set_solver]. intros i Hi. by rewrite Z.bits_0.
Qed.

Lemma tag_exec_spec c s U : tag_inv s U ->
  exists r s' U', tag_exec c s = Ret (r, s') /\ tag_inv s' U' /\ tag_spec U c r U'.
Proof.
  intros Hinv. destruct c as [|t]; simpl.
  - unfold Software_allocate_tag. pose proof (allocate_loop_spec 15 s U Hinv ltac:(lia)) as Hl.
    change (Z.to_nat (MAX_TAG - MIN_TAG + 1)) with 15%nat.
    destruct (allocate_loop 15 s) as [[t|e] s'].
    + destruct Hl as (? & ? & ? & _). eexists _, _, _. split_and!; [done|done|by constructor].
    + destruct Hl as (-> & ? & Hall). eexists _, _, _. split_and!; [done|done|]. constructor.
      intros t Ht. destruct (round_robin_covers (next_tag s) t (ti_next _ _ Hinv) Ht) as (j & Hj & <-).
      by apply Hall.
  - unfold Software_free_tag. run_m.
    destruct ((MIN_TAG <=? t) && (t <=? MAX_TAG)) eqn:Hr; simpl.
    + eexists _, _, (U ∖ {[t]}). split_and!; [done|apply mark_tag_free_inv; [done|lia]|constructor; lia].
    + eexists _, _, U. split_and!; [done|done|constructor; lia].
Qed.

(** ** Theorems *)

#[global] Instance Software_tag_laws : TagAllocLaws SoftwareTagManager := {|
  ta_inv := tag_inv;
  ta_exec c s U := fun _ => tag_exec_spec c s U
|}.

(** Sequences of calls of any manager that keeps the laws. *)
Lemma tag_run_refines {T} `{L : TagAllocLaws T} cs (s : T) U :
  Forall call_ok cs -> ta_inv s U ->
  exists tr s' U', tag_run cs s = Ret (tr, s') /\ tag_spec_run U tr U' /\ ta_inv s' U' /\ tr.*1 = cs.
Proof.
  intros Hcs. revert s U. induction Hcs as [|c cs Hc Hcs IH]; intros s U Hinv.
  - exists [], s, U. split_and!; [done|constructor|done|done].
  - destruct (ta_exec c s U Hc Hinv) as (r & s1 & U1 & Hr & Hinv1 & Hspec).
    destruct (IH s1 U1 Hinv1) as (tr & s2 & U2 & Hrs & Hsp & Hinv2 & Htr).
    exists ((c, r) :: tr), s2, U2. split_and!; [|by econstructor|done|by rewrite fmap_cons, Htr].
    simpl tag_run. unfold mbind, M_bind. by rewrite Hr, Hrs.
Qed.

(** C33: for every sequence of calls the software manager behaves as a set of tags in
    use: an allocation gives a tag of 1 to 15 that is not in use and fails only when
    all fifteen are, a freed tag leaves the set, other tags are refused. *)
Theorem tag_manager_refines cs (s : SoftwareTagManager) U :
  Forall call_ok cs -> tag_inv s U ->
  exists tr s' U', tag_run cs s = Ret (tr, s') /\ tag_spec_run U tr U' /\ tag_inv s' U' /\ tr.*1 = cs.
Proof. exact (tag_run_refines cs s U). Qed.

Definition tag_demo : list tag_call := [CallAllocate; CallFree 1; CallFree 20; CallAllocate].

Lemma tag_demo_ok : Forall call_ok tag_demo.
Proof. repeat constructor; simpl; lia. Qed.

Lemma tag_manager_refines_witness :
  exists tr s' U', tag_run tag_demo SoftwareTagManager_new = Ret (tr, s') /\
    tag_spec_run ∅ tr U' /\ tag_inv s' U' /\ tr.*1 = tag_demo.
Proof.
  exact (tag_manager_refines tag_demo SoftwareTagManager_new ∅ tag_demo_ok SoftwareTagManager_new_inv).
Defined.

(** ** Tags in pointers *)

Lemma TAG_MASK_bit i : 0 <= i -> Z.testbit TAG_MASK i = (56 <=? i) && (i <? 60).
Proof.
  intros Hi. change TAG_MASK with (Z.shiftl (Z.ones 4) 56).
  rewrite Z.shiftl_spec by lia. destruct (Z.leb_spec 56 i); simpl.
  - destruct (Z.ltb_spec i 60); [apply Z.ones_spec_low; lia|apply Z.ones_spec_high; lia].
  - apply Z.testbit_neg_r. lia.
Qed.

Lemma usize_bit_high x i : is_usize x -> 64 <= i -> Z.testbit x i = false.
Proof.
  intros Hx Hi. rewrite <- (wrap64_small x Hx). unfold wrap64. by apply Z.mod_pow2_bits_high.
Qed.

Lemma unot_bit x i : is_usize x -> 0 <= i -> Z.testbit (unot x) i = (i <? 64) && negb (Z.testbit x i).
Proof.
  intros Hx Hi. unfold unot. replace (2 ^ 64 - 1 - x) with (Z.ldiff (Z.ones 64) x).
  - rewrite Z.ldiff_spec. destruct (Z.ltb_spec i 64); simpl.
    + by rewrite Z.ones_spec_low by lia.
    + by rewrite Z.ones_spec_high by lia.
  - rewrite <- Z.sub_nocarry_ldiff; [by rewrite Z.ones_equiv|]. apply Z.bits_inj_iff'. intros j Hj.
    rewrite Z.ldiff_spec, Z.bits_0. destruct (decide (j < 64)).
    + rewrite Z.ones_spec_low by lia. apply andb_false_r.
    + by rewrite usize_bit_high by (done || lia).
Qed.

Lemma TAG_MASK_usize : is_usize TAG_MASK.
Proof. by vm_compute. Qed.

Lemma tag_bit_high t i : 0 <= t <= MAX_TAG -> 4 <= i -> Z.testbit t i = false.
Proof.
  unfold MAX_TAG. intros Ht Hi. destruct (decide (t = 0)) as [->|]; [apply Z.bits_0|].
  apply Z.bits_above_log2; [lia|]. apply Z.lt_le_trans with 4; [|lia]. apply Z.log2_lt_pow2; lia.
Qed.

Lemma shl64_tag t : 0 <= t <= MAX_TAG -> shl64 t 56 = Z.shiftl t 56.
Proof.
  unfold MAX_TAG. intros Ht. unfold shl64. change (56 mod 64) with 56. apply wrap64_small.
  rewrite Z.shiftl_mul_pow2 by lia. unfold is_usize. lia.
Qed.

Lemma tagged_bit p t i : is_usize p -> 0 <= t <= MAX_TAG -> 0 <= i ->
  Z.testbit (Z.lor (Z.land p (unot TAG_MASK)) (shl64 t 56)) i =
  if (56 <=? i) && (i <? 60) then Z.testbit t (i - 56) else Z.testbit p i.
Proof.
  intros Hp Ht Hi. rewrite shl64_tag, Z.lor_spec, Z.land_spec, Z.shiftl_spec, unot_bit, TAG_MASK_bit
    by (done || lia || apply TAG_MASK_usize).
  destruct (Z.leb_spec 56 i), (Z.ltb_spec i 60); simpl; try lia.
  - by rewrite andb_false_r, andb_false_r.
  - rewrite (tag_bit_high t) by (done || lia). rewrite orb_false_r. destruct (Z.ltb_spec i 64); simpl.
    + apply andb_true_r.
    + by rewrite usize_bit_high by (done || lia).
  - rewrite (Z.testbit_neg_r t) by lia. rewrite orb_false_r. destruct (Z.ltb_spec i 64); [|lia].
    apply andb_true_r.
Qed.

Lemma untag_bit p i : is_usize p -> 0 <= i ->
  Z.testbit (Software_untag_pointer p) i = if (56 <=? i) && (i <? 60) then false else Z.testbit p i.
Proof.
  intros Hp Hi. unfold Software_untag_pointer.
  rewrite Z.land_spec, unot_bit, TAG_MASK_bit by (done || apply TAG_MASK_usize).
  destruct ((56 <=? i) && (i <? 60)); simpl; [by rewrite andb_false_r, andb_false_r|].
  destruct (Z.ltb_spec i 64); simpl; [apply andb_true_r|]. by rewrite usize_bit_high by (done || lia).
Qed.

(** C34: a tag of 0 to 15 put in a pointer is read back, and replaces the one before;
    taking the tag off gives the address without its tag bits, so an untagged pointer
    comes back unchanged; larger tags are refused. *)
Theorem tag_pointer_roundtrip p tag :
  is_usize p -> 0 <= tag ->
  if tag <=? MAX_TAG then
    exists q, Software_tag_pointer p tag = inl q /\ Software_get_tag q = tag /\
      Software_untag_pointer q = Software_untag_pointer p /\
      (Software_get_tag p = 0 -> Software_untag_pointer q = p) /\
      (forall tag', 0 <= tag' <= MAX_TAG -> Software_tag_pointer q tag' = Software_tag_pointer p tag')
  else Software_tag_pointer p tag = inr InvalidTag.
Proof.
  intros Hp Ht. destruct (Z.leb_spec tag MAX_TAG) as [Hle|Hlt].
  2:{ unfold Software_tag_pointer. destruct (Z.ltb_spec MAX_TAG tag); [done|lia]. }
  assert (Htp : Software_tag_pointer p tag = inl (Z.lor (Z.land p (unot TAG_MASK)) (shl64 tag 56))).
  { unfold Software_tag_pointer. destruct (Z.ltb_spec MAX_TAG tag); [lia|done]. }
  set (q := Z.lor _ _) in Htp.
  assert (Hqb : forall i, 0 <= i -> Z.testbit q i =
    if (56 <=? i) && (i <? 60) then Z.testbit tag (i - 56) else Z.testbit p i).
  { intros i Hi. by apply tagged_bit. }
  assert (Hq0 : 0 <= q).
  { apply Z.lor_nonneg. split; [apply Z.land_nonneg; left; apply Hp|apply wrap64_range]. }
  assert (Hqu : is_usize q).
  { split; [done|]. destruct (decide (q = 0)) as [->|]; [done|]. apply Z.log2_lt_pow2; [lia|].
    apply Z.nle_gt. intros Hge. pose proof (Z.bit_log2 q ltac:(lia)) as Hb. rewrite Hqb in Hb by lia.
    destruct (Z.leb_spec 56 (Z.log2 q)), (Z.ltb_spec (Z.log2 q) 60); simpl in Hb; try lia.
    by rewrite usize_bit_high in Hb by (done || lia). }
  assert (Hun : Software_untag_pointer q = Software_untag_pointer p).
  { apply Z.bits_inj_iff'. intros i Hi. rewrite !untag_bit, Hqb by done. by destruct (_ && _). }
  exists q. split_and!; [done| |done| |].
  - unfold Software_get_tag. change 15 with (Z.ones 4). apply Z.bits_inj_iff'. intros i Hi.
    rewrite Z.land_spec, Z.shiftr_spec, Hqb by lia. destruct (decide (i < 4)).
    + rewrite Z.ones_spec_low, andb_true_r by lia. replace ((56 <=? i + 56) && _) with true by lia.
      f_equal. lia.
    + rewrite Z.ones_spec_high, andb_false_r by lia. by rewrite tag_bit_high by (done || lia).
  - intros H0. rewrite Hun. apply Z.bits_inj_iff'. intros i Hi. rewrite untag_bit by done.
    destruct ((56 <=? i) && (i <? 60)) eqn:Hr; [|done].
    assert (Z.testbit (Software_get_tag p) (i - 56) = false) as Hb by (rewrite H0; apply Z.bits_0).
    unfold Software_get_tag in Hb. change 15 with (Z.ones 4) in Hb.
    rewrite Z.land_spec, Z.shiftr_spec, Z.ones_spec_low, andb_true_r in Hb by lia.
    rewrite <- Hb. f_equal. lia.
  - intros tag' Ht'. unfold Software_tag_pointer. destruct (Z.ltb_spec MAX_TAG tag'); [done|]. f_equal.
    apply Z.bits_inj_iff'. intros i Hi. rewrite !tagged_bit, Hqb by done. by destruct (_ && _).
Qed.

Lemma tag_pointer_roundtrip_witness :
  exists q, Software_tag_pointer 4096 7 = inl q /\ Software_get_tag q = 7 /\ Software_untag_pointer q = 4096.
Proof.
  destruct (tag_pointer_roundtrip 4096 7) as (q & H1 & H2 & _ & H3 & _).
  - split; [discriminate|reflexivity].
  - discriminate.
  - exists q. split; [exact H1|]. split; [exact H2|]. apply H3. reflexivity.
Defined.
