(* ===== verification/HardwareTags.v ===== *)
(** * Tag managers for tagging hardware

    Models aethalloc-hess/src/mte.rs, cheri.rs and x86.rs: the three managers of tags,
    the feature detection of x86 and the tags in its pointers, the MTE operations on
    pointers and the CHERI wrappers.  The instructions the code executes are parameters:
    [Cpuid], [MteIsa] and [CheriIsa], with what the processor manuals say of them as
    separate classes. *)

From S2P Require Import Prelude TagManager.

(** ** x86: pointer masking *)

(** The registers [__cpuid] returns, each a [u32]. *)
Record CpuidResult : Type := {
  eax : Z;
  ebx : Z;
  ecx : Z;
  edx : Z
}.

Class Cpuid : Type := __cpuid : Z -> CpuidResult.

Record X86FeatureFlags : Type := {
  has_intel_lam : bool;
  has_amd_uai : bool;
  has_la57 : bool
}.

(** [(r >> n) & 0xFF]. *)
Definition reg_byte (r n : Z) : Z := Z.land (Z.shiftr r n) 255.

Definition reg_bytes (r : Z) : list Z := [Z.land r 255; reg_byte r 8; reg_byte r 16; reg_byte r 24].

Definition vendor_bytes (vendor : CpuidResult) : list Z :=
  reg_bytes (ebx vendor) ++ reg_bytes (edx vendor) ++ reg_bytes (ecx vendor).

(** [b"GenuineIntel"] and [b"AuthenticAMD"]. *)
Definition GenuineIntel : list Z := [71; 101; 110; 117; 105; 110; 101; 73; 110; 116; 101; 108].
Definition AuthenticAMD : list Z := [65; 117; 116; 104; 101; 110; 116; 105; 99; 65; 77; 68].

Definition bit_set (r n : Z) : bool := negb (Z.land r (Z.shiftl 1 n) =? 0).

Definition X86FeatureFlags_detect {C : Cpuid} : X86FeatureFlags :=
  let none := {| has_intel_lam := false; has_amd_uai := false; has_la57 := false |} in
  let vendor := __cpuid 0 in
  let is_intel := bool_decide (vendor_bytes vendor = GenuineIntel) in
  let is_amd := bool_decide (vendor_bytes vendor = AuthenticAMD) in
  if is_intel && (7 <=? eax vendor) then
    let leaf7 := __cpuid 7 in
    {| has_intel_lam := bit_set (edx leaf7) 26; has_amd_uai := false;
       has_la57 := bit_set (ecx leaf7) 16 |}
  else if is_amd && (0x80000000 <=? eax vendor) then
    let max_ext := __cpuid 0x80000000 in
    if 0x80000001 <=? eax max_ext then
      let ext := __cpuid 0x80000001 in
      {| has_intel_lam := false; has_amd_uai := bit_set (ecx ext) 6; has_la57 := false |}
    else none
  else none.

Definition has_hardware_tagging (f : X86FeatureFlags) : bool := has_intel_lam f || has_amd_uai f.

(** [next_tag] and [used_tags] are those of the software manager. *)
Record X86TagManager : Type := {
  x86_features : X86FeatureFlags;
  x86_bits : SoftwareTagManager
}.

Definition X86TagManager_new {C : Cpuid} : X86TagManager :=
  {| x86_features := X86FeatureFlags_detect; x86_bits := {| next_tag := 1; used_tags := 0 |} |}.

Definition X86TagManager_features (s : X86TagManager) : X86FeatureFlags := x86_features s.

(** The loop of [allocate_tag] with [n] rounds left. *)
Fixpoint x86_allocate_loop (n : nat) (s : SoftwareTagManager) : (Z + TagError) * SoftwareTagManager :=
  match n with
  | O => (inr OutOfTags, s)
  | S n' =>
      let tag := next_tag s in
      let next := if 15 <=? next_tag s then 1 else next_tag s + 1 in
      if Z.land (used_tags s) (shl16 tag) =? 0
      then (inl tag, {| next_tag := next; used_tags := Z.lor (used_tags s) (shl16 tag) |})
      else x86_allocate_loop n' {| next_tag := next; used_tags := used_tags s |}
  end.

Definition X86_allocate_tag : M X86TagManager (Z + TagError) := fun s =>
  let '(r, b) := x86_allocate_loop 15 (x86_bits s) in
  Ret (r, {| x86_features := x86_features s; x86_bits := b |}).

Definition X86_free_tag (tag : Z) : M X86TagManager (unit + TagError) := fun s =>
  if (tag =? 0) || (15 <? tag) then Ret (inr InvalidTag, s)
  else
    Ret (inl tt, {| x86_features := x86_features s;
                    x86_bits := {| next_tag := next_tag (x86_bits s);
                                   used_tags := Z.land (used_tags (x86_bits s)) (not16 (shl16 tag)) |} |}).

Definition X86_tag_pointer (s : X86TagManager) (ptr tag : Z) : Z :=
  if 15 <? tag then ptr
  else if has_hardware_tagging (x86_features s)
  then Z.lor (Z.land ptr 0x00FFFFFFFFFFFFFF) (shl64 tag 56)
  else Z.lor (Z.land ptr 0x0000FFFFFFFFFFFF) (shl64 tag 48).

Definition X86_untag_pointer (s : X86TagManager) (ptr : Z) : Z :=
  if has_hardware_tagging (x86_features s)
  then Z.land ptr 0x00FFFFFFFFFFFFFF
  else Z.land ptr 0x0000FFFFFFFFFFFF.

Definition X86_get_tag (s : X86TagManager) (ptr : Z) : Z :=
  if has_hardware_tagging (x86_features s)
  then Z.land (Z.shiftr ptr 56) 15
  else Z.land (Z.shiftr ptr 48) 15.

#[global] Instance X86_TagAlloc : TagAlloc X86TagManager := {|
  ta_allocate := X86_allocate_tag;
  ta_free := X86_free_tag
|}.

(** ** ARM: memory tagging *)

(** What the processor does: [isa_addg p n t] is [ADDG Xd, p, #n, #t], [isa_subp] is
    [SUBP], [isa_stg] stores the tag of a pointer as the allocation tag of the memory it
    points to and [isa_stzg] clears the sixteen bytes there too, [isa_ldg] is the
    register that [LDG] leaves, [isa_irg] is [IRG] with an exclusion mask (the state of
    the random tag generator counts as memory), [isa_gmi] is [GMI], [isa_byte] a byte of
    memory, [isa_gcr] the tags excluded by [GCR_EL1], [isa_pfr1] the register
    [ID_AA64PFR1_EL1]. *)
Class MteIsa : Type := {
  tag_memory : Type;
  isa_addg : Z -> Z -> Z -> Z;
  isa_subp : Z -> Z -> Z;
  isa_stg : Z -> tag_memory -> tag_memory;
  isa_ldg : tag_memory -> Z -> Z;
  isa_stzg : Z -> tag_memory -> tag_memory;
  isa_irg : Z -> Z -> tag_memory -> Z * tag_memory;
  isa_gmi : Z -> Z -> Z;
  isa_byte : tag_memory -> Z -> Z;
  isa_gcr : Z;
  isa_pfr1 : Z
}.

(** The architecture the crate is compiled for. *)
Inductive target_arch : Type :=
  | Riscv64
  | Aarch64
  | OtherArch.

Section mte.
Context {I : MteIsa}.

Definition mte_addg (ptr tag_offset : Z) : Z := isa_addg ptr 0 tag_offset.
Definition mte_subp (ptr1 ptr2 : Z) : Z := isa_subp ptr1 ptr2.
Definition mte_stg (ptr : Z) : M tag_memory unit := modifyS (isa_stg ptr).
Definition mte_ldg (ptr : Z) : M tag_memory Z := gets (fun m => isa_ldg m ptr).

Definition mte_irg (ptr mask : Z) : M tag_memory Z := fun m => Ret (isa_irg ptr mask m).
Definition mte_stzg (ptr : Z) : M tag_memory unit := modifyS (isa_stzg ptr).
Definition mte_gmi (ptr mask : Z) : Z := isa_gmi ptr mask.

Record MteTagManager : Type := { mte_bits : SoftwareTagManager }.

Definition MteTagManager_new : MteTagManager :=
  {| mte_bits := {| next_tag := MIN_TAG; used_tags := 0 |} |}.

Definition Mte_is_tag_used (s : MteTagManager) (tag : Z) : bool :=
  negb (Z.land (used_tags (mte_bits s)) (shl16 tag) =? 0).

Definition Mte_mark_tag_used (s : MteTagManager) (tag : Z) : MteTagManager :=
  {| mte_bits := {| next_tag := next_tag (mte_bits s);
                    used_tags := Z.lor (used_tags (mte_bits s)) (shl16 tag) |} |}.

Definition Mte_mark_tag_free (s : MteTagManager) (tag : Z) : MteTagManager :=
  {| mte_bits := {| next_tag := next_tag (mte_bits s);
                    used_tags := Z.land (used_tags (mte_bits s)) (not16 (shl16 tag)) |} |}.

(** The loop of [allocate_tag] with [n] rounds left. *)
Fixpoint mte_allocate_loop (n : nat) (s : MteTagManager) : (Z + TagError) * MteTagManager :=
  match n with
  | O => (inr OutOfTags, s)
  | S n' =>
      let tag := next_tag (mte_bits s) in
      let s := {| mte_bits := {| next_tag := if MAX_TAG <=? next_tag (mte_bits s) then MIN_TAG
                                             else next_tag (mte_bits s) + 1;
                                 used_tags := used_tags (mte_bits s) |} |} in
      if negb (Mte_is_tag_used s tag) then (inl tag, Mte_mark_tag_used s tag)
      else mte_allocate_loop n' s
  end.

Definition Mte_allocate_tag : M MteTagManager (Z + TagError) := fun s =>
  Ret (mte_allocate_loop (Z.to_nat (MAX_TAG - MIN_TAG + 1)) s).

Definition Mte_free_tag (tag : Z) : M MteTagManager (unit + TagError) := fun s =>
  if (tag <? MIN_TAG) || (MAX_TAG <? tag) then Ret (inr InvalidTag, s)
  else Ret (inl tt, Mte_mark_tag_free s tag).

Definition Mte_tag_pointer (ptr tag : Z) : Z + TagError :=
  if MAX_TAG <? tag then inr InvalidTag else inl (mte_addg ptr tag).

Definition Mte_untag_pointer (ptr : Z) : Z := mte_subp ptr ptr.

(** [as Tag] keeps the low 16 bits. *)
Definition Mte_get_tag (ptr : Z) : M tag_memory Z := r ← mte_ldg ptr; mret (r mod 2 ^ 16).

Definition Mte_store_tag (ptr tag : Z) : M tag_memory (unit + TagError) :=
  if MAX_TAG <? tag then mret (inr InvalidTag)
  else mte_stg (mte_addg ptr tag) ;; mret (inl tt).

Definition Mte_load_tag (ptr : Z) : M tag_memory Z := r ← mte_ldg ptr; mret (r mod 2 ^ 16).

Definition is_mte_supported (target : target_arch) : bool :=
  match target with
  | Aarch64 => 1 <=? Z.land (Z.shiftr isa_pfr1 8) 15
  | _ => false
  end.

#[global] Instance Mte_TagAlloc : TagAlloc MteTagManager := {|
  ta_allocate := Mte_allocate_tag;
  ta_free := Mte_free_tag
|}.
End mte.

(** The tag field of a pointer and its 56-bit address. *)
Definition ptr_tag (p : Z) : Z := Z.land (Z.shiftr p 56) 15.
Definition ptr_addr (p : Z) : Z := p mod 2 ^ 56.

(** Sign extension from 56 bits. *)
Definition sext56 (a : Z) : Z := if a <? 2 ^ 55 then a else a - 2 ^ 56.

(** The Arm manual: [ADDG] with no tag excluded adds to the tag field modulo 16 and
    leaves the address alone when its first immediate is 0; [SUBP] is the difference of
    the two sign-extended 56-bit addresses; [LDG] puts the allocation tag in bits 59 to
    56 of its destination.  [IRG] chooses a tag that neither its mask nor [GCR_EL1]
    excludes, when there is one; [GMI] adds the tag of a pointer to a mask. *)
Class MteIsaSpec (I : MteIsa) : Prop := {
  addg_tag p t : is_usize p -> 0 <= t < 16 ->
    ptr_addr (isa_addg p 0 t) = ptr_addr p /\ ptr_tag (isa_addg p 0 t) = (ptr_tag p + t) mod 16;
  subp_diff p q : isa_subp p q = wrap64 (sext56 (ptr_addr p) - sext56 (ptr_addr q));
  ldg_stg m p : ptr_tag (isa_ldg (isa_stg p m) p) = ptr_tag p;
  stzg_stg m p : ptr_tag (isa_ldg (isa_stzg p m) p) = ptr_tag p;
  stzg_zeroes m p i : ptr_addr p mod 16 = 0 -> 0 <= i < 16 -> isa_byte (isa_stzg p m) (ptr_addr p + i) = 0;
  irg_tag m p mask :
    let q := (isa_irg p mask m).1 in
    ptr_addr q = ptr_addr p /\
    ((exists t, 0 <= t < 16 /\ Z.testbit (Z.lor mask isa_gcr) t = false) ->
     Z.testbit (Z.lor mask isa_gcr) (ptr_tag q) = false);
  gmi_mask p mask : isa_gmi p mask = Z.lor mask (Z.shiftl 1 (ptr_tag p))
}.

(** ** CHERI: capabilities *)

Definition PERM_LOAD : Z := Z.shiftl 1 0.
Definition PERM_STORE : Z := Z.shiftl 1 1.
Definition PERM_EXECUTE : Z := Z.shiftl 1 2.
Definition PERM_LOAD_CAP : Z := Z.shiftl 1 3.
Definition PERM_STORE_CAP : Z := Z.shiftl 1 4.
Definition PERM_LOAD_MUTABLE : Z := Z.shiftl 1 5.
Definition PERM_STORE_LOCAL : Z := Z.shiftl 1 6.
Definition PERM_SEAL : Z := Z.shiftl 1 7.
Definition PERM_ALL : Z := 255.
Definition PERM_READ_WRITE : Z :=
  Z.lor (Z.lor (Z.lor PERM_LOAD PERM_STORE) PERM_LOAD_CAP) PERM_STORE_CAP.

Record CapabilityMeta : Type := {
  cm_base : Z;
  cm_length : Z;
  cm_offset : Z;
  cm_permissions : Z;
  cm_tag : bool
}.

Record CheriTagManager : Type := { cheri_used_tags : Z }.

Definition CheriTagManager_new : CheriTagManager := {| cheri_used_tags := 0 |}.

(** The loop of [allocate_tag] from [tag], with [n] rounds left. *)
Fixpoint cheri_allocate_loop (n : nat) (tag : Z) (s : CheriTagManager)
    : (Z + TagError) * CheriTagManager :=
  match n with
  | O => (inr OutOfTags, s)
  | S n' =>
      if Z.land (cheri_used_tags s) (shl16 tag) =? 0
      then (inl tag, {| cheri_used_tags := Z.lor (cheri_used_tags s) (shl16 tag) |})
      else cheri_allocate_loop n' (tag + 1) s
  end.

Definition Cheri_allocate_tag : M CheriTagManager (Z + TagError) := fun s =>
  Ret (cheri_allocate_loop (Z.to_nat MAX_TAG) 1 s).

Definition Cheri_free_tag (tag : Z) : M CheriTagManager (unit + TagError) := fun s =>
  if (tag =? 0) || (MAX_TAG <? tag) then Ret (inr InvalidTag, s)
  else Ret (inl tt, {| cheri_used_tags := Z.land (cheri_used_tags s) (not16 (shl16 tag)) |}).

#[global] Instance CheriTagManager_ops : TagManager CheriTagManager := {|
  allocate_tag := Cheri_allocate_tag;
  free_tag := Cheri_free_tag;
  tag_pointer := fun _ ptr _ => inl ptr;
  untag_pointer := fun _ ptr => ptr;
  get_tag := fun _ _ => 0;
  store_tag := fun _ _ _ => inl tt;
  load_tag := fun _ _ => 0
|}.

(** The capability instructions; a pointer of a CHERI target is a capability. *)
Class CheriIsa : Type := {
  capability : Type;
  cgetlen : capability -> Z;
  cgetbase : capability -> Z;
  cgetoffset : capability -> Z;
  cgettag : capability -> Z;
  cgetperm : capability -> Z;
  cgetaddr : capability -> Z;
  csetboundsexact : capability -> Z -> capability;
  csetbound : capability -> Z -> capability;
  csetaddr : capability -> Z -> capability
}.

Section cheri.
Context {I : CheriIsa} (target : target_arch).

Definition cheri_cap_get_length (cap : capability) : Z :=
  match target with Riscv64 | Aarch64 => cgetlen cap | OtherArch => 0 end.

Definition cheri_cap_get_base (cap : capability) : Z :=
  match target with Riscv64 | Aarch64 => cgetbase cap | OtherArch => 0 end.

Definition cheri_cap_get_offset (cap : capability) : Z :=
  match target with Riscv64 | Aarch64 => cgetoffset cap | OtherArch => 0 end.

Definition cheri_cap_get_tag (cap : capability) : bool :=
  match target with Riscv64 | Aarch64 => negb (cgettag cap =? 0) | OtherArch => false end.

Definition cheri_cap_get_perms (cap : capability) : Z :=
  match target with Riscv64 | Aarch64 => wrap32 (cgetperm cap) | OtherArch => 0 end.

Definition cheri_cap_bounds_set (cap : capability) (base length : Z) : capability :=
  match target with
  | Riscv64 => csetaddr (csetboundsexact cap length) base
  | Aarch64 => csetbound cap length
  | OtherArch => cap
  end.

Definition get_capability_meta (cap : capability) : CapabilityMeta :=
  {| cm_base := cheri_cap_get_base cap;
     cm_length := cheri_cap_get_length cap;
     cm_offset := cheri_cap_get_offset cap;
     cm_permissions := cheri_cap_get_perms cap;
     cm_tag := cheri_cap_get_tag cap |}.

Definition create_bounded_capability (base : capability) (length perms : Z) : option capability :=
  let cap := cheri_cap_bounds_set base 0 length in
  let actual_perms := cheri_cap_get_perms cap in
  if negb (Z.land actual_perms perms =? perms) then None
  else if negb (cheri_cap_get_tag cap) then None
  else Some cap.
End cheri.

(** The CHERI manual: the bounds set by a tagged result start at the address of the
    source and have the requested length, exactly or at least; permissions and address
    stay; setting the address keeps bounds and permissions. *)
Class CheriIsaSpec (I : CheriIsa) : Prop := {
  csetboundsexact_spec c n : let c' := csetboundsexact c n in
    cgettag c' <> 0 -> cgettag c <> 0 /\ cgetbase c' = cgetaddr c /\ cgetlen c' = n /\
                       cgetperm c' = cgetperm c /\ cgetaddr c' = cgetaddr c;
  csetbound_spec c n : let c' := csetbound c n in
    cgettag c' <> 0 -> cgettag c <> 0 /\ cgetbase c' <= cgetaddr c /\
                       cgetaddr c + n <= cgetbase c' + cgetlen c' /\
                       cgetperm c' = cgetperm c /\ cgetaddr c' = cgetaddr c;
  csetaddr_spec c a : let c' := csetaddr c a in
    cgetaddr c' = a /\
    (cgettag c' <> 0 -> cgettag c <> 0 /\ cgetbase c' = cgetbase c /\ cgetlen c' = cgetlen c /\
                        cgetperm c' = cgetperm c)
}.

(** ** The three managers hand out tags as the software manager does *)

Lemma x86_loop_eq n s : x86_allocate_loop n s = allocate_loop n s.
Proof.
  revert s. induction n as [|n IH]; intros s; [done|]. simpl. unfold is_tag_used, mark_tag_used. simpl.
  rewrite negb_involutive, IH. done.
Qed.

Lemma mte_loop_eq n s :
  mte_allocate_loop n s = prod_map id (fun b => {| mte_bits := b |}) (allocate_loop n (mte_bits s)).
Proof.
  revert s. induction n as [|n IH]; intros [s]; [done|]. simpl mte_allocate_loop. simpl allocate_loop.
  unfold Mte_is_tag_used, is_tag_used. cbn [mte_bits used_tags].
  destruct (negb (negb _)); [done|]. by rewrite IH.
Qed.

(** A call on a manager that stores its tags as the software manager does. *)
Lemma lift_exec {T} `{TagAlloc T} (view : T -> SoftwareTagManager) (put : SoftwareTagManager -> T -> T)
    (c : tag_call) (s : T) U :
  (forall b, view (put b s) = b) ->
  tag_exec c s = (match tag_exec c (view s) with
                  | Ret (r, b) => Ret (r, put b s) | Panic => Panic | Fault => Fault | Diverge => Diverge
                  end) ->
  tag_inv (view s) U ->
  exists r s' U', tag_exec c s = Ret (r, s') /\ tag_inv (view s') U' /\ tag_spec U c r U'.
Proof.
  intros Hv He Hinv. destruct (tag_exec_spec c (view s) U Hinv) as (r & b & U' & Hr & Hinv' & Hspec).
  exists r, (put b s), U'. rewrite He, Hr, Hv. done.
Qed.

Lemma free_range tag : 0 <= tag -> (tag =? 0) || (15 <? tag) = negb ((MIN_TAG <=? tag) && (tag <=? MAX_TAG)).
Proof. unfold MIN_TAG, MAX_TAG. intros Ht. lia. Qed.

(** Show the manager's own functions. *)
Ltac show_calls :=
  cbn [tag_exec ta_allocate ta_free X86_TagAlloc Mte_TagAlloc trait_TagAlloc allocate_tag free_tag
       SoftwareTagManager_ops CheriTagManager_ops].

#[global] Instance X86_tag_laws : TagAllocLaws X86TagManager.
Proof.
  refine {| ta_inv s U := tag_inv (x86_bits s) U |}. intros c s U Hc.
  apply (lift_exec x86_bits (fun b s => {| x86_features := x86_features s; x86_bits := b |})); [done|].
  destruct c as [|t]; show_calls.
  - unfold X86_allocate_tag, Software_allocate_tag. rewrite x86_loop_eq.
    change (Z.to_nat (MAX_TAG - MIN_TAG + 1)) with 15%nat. by destruct (allocate_loop 15 (x86_bits s)).
  - unfold X86_free_tag, Software_free_tag. run_m. rewrite free_range by (simpl in Hc; lia).
    by destruct s, (negb _).
Defined.

#[global] Instance Mte_tag_laws : TagAllocLaws MteTagManager.
Proof.
  refine {| ta_inv s U := tag_inv (mte_bits s) U |}. intros c s U Hc.
  apply (lift_exec mte_bits (fun b _ => {| mte_bits := b |})); [done|].
  destruct c as [|t]; show_calls.
  - unfold Mte_allocate_tag, Software_allocate_tag. rewrite mte_loop_eq.
    by destruct (allocate_loop _ (mte_bits s)).
  - unfold Mte_free_tag, Software_free_tag. run_m.
    replace ((t <? MIN_TAG) || (MAX_TAG <? t)) with (negb ((MIN_TAG <=? t) && (t <=? MAX_TAG))) by lia.
    by destruct s, (negb _).
Defined.

(** CHERI: the first free tag, without a position to resume from. *)
Definition cheri_bits (s : CheriTagManager) : SoftwareTagManager :=
  {| next_tag := MIN_TAG; used_tags := cheri_used_tags s |}.

Lemma cheri_loop_spec n : forall tag s U,
  tag_inv (cheri_bits s) U -> 1 <= tag -> tag + Z.of_nat n = 16 ->
  match cheri_allocate_loop n tag s with
  | (inl t, s') => tag_inv (cheri_bits s') ({[t]} ∪ U) /\ tag <= t <= MAX_TAG /\ (t ∉ U) /\
                   forall t', tag <= t' < t -> t' ∈ U
  | (inr e, s') => e = OutOfTags /\ s' = s /\ forall t', tag <= t' <= MAX_TAG -> t' ∈ U
  end.
Proof.
  induction n as [|n IH]; intros tag s U Hinv Ht Hn; simpl.
  { split_and!; [done|done|]. unfold MAX_TAG. lia. }
  assert (Hr : MIN_TAG <= tag <= MAX_TAG) by (unfold MIN_TAG, MAX_TAG; lia).
  pose proof (is_tag_used_spec _ _ tag Hinv Hr) as Hu. unfold is_tag_used in Hu. simpl in Hu.
  destruct (Z.eqb_spec (Z.land (cheri_used_tags s) (shl16 tag)) 0) as [He|He]; simpl in Hu.
  - symmetry in Hu. apply bool_decide_eq_false in Hu.
    split; [exact (mark_tag_used_inv _ _ tag Hinv Hr)|]. split_and!; [lia|lia|done|]. lia.
  - symmetry in Hu. apply bool_decide_eq_true in Hu.
    specialize (IH (tag + 1) s U Hinv ltac:(lia) ltac:(lia)).
    assert (Hstep : forall hi, (forall t', tag + 1 <= t' < hi -> t' ∈ U) -> forall t', tag <= t' < hi -> t' ∈ U).
    { intros hi Hall t' Ht'. destruct (decide (t' = tag)) as [->|]; [done|]. apply Hall. lia. }
    destruct (cheri_allocate_loop n (tag + 1) s) as [[t|e] s'].
    + destruct IH as (? & ? & ? & Hall). split_and!; [done|lia|lia|done|]. by apply Hstep.
    + destruct IH as (? & ? & Hall). split_and!; [done|done|]. intros t' Ht'.
      apply (Hstep (MAX_TAG + 1)); [|lia]. intros t'' Ht''. apply Hall. lia.
Qed.

#[global] Instance Cheri_tag_laws : TagAllocLaws CheriTagManager.
Proof.
  refine {| ta_inv s U := tag_inv (cheri_bits s) U |}. intros c s U Hc Hinv.
  destruct c as [|t]; show_calls.
  - unfold Cheri_allocate_tag. pose proof (cheri_loop_spec 15 1 s U Hinv ltac:(lia) ltac:(lia)) as Hl.
    change (Z.to_nat MAX_TAG) with 15%nat. destruct (cheri_allocate_loop 15 1 s) as [[t|e] s'].
    + destruct Hl as (? & ? & ? & _). eexists _, _, _. split_and!; [done|done|by constructor].
    + destruct Hl as (-> & -> & Hall). eexists _, _, _. split_and!; [done|done|by constructor].
  - unfold Cheri_free_tag. run_m. change (MAX_TAG <? t) with (15 <? t).
    rewrite free_range by (simpl in Hc; lia).
    destruct ((MIN_TAG <=? t) && (t <=? MAX_TAG)) eqn:Hr; simpl.
    + eexists _, _, (U ∖ {[t]}). split_and!; [done| |constructor; lia].
      refine (mark_tag_free_inv _ _ t Hinv _). lia.
    + eexists _, _, U. split_and!; [done|done|constructor; lia].
Defined.

(** ** Theorems: tags *)

(** C35: whatever the processor reports, the managers for x86, ARM and CHERI hand out
    tags as the abstract manager does, for every sequence of calls from their initial
    states: fresh tags of 1 to 15, refusal only when all are in use, and errors for
    tags that cannot be freed. *)
Theorem hardware_managers_refine {C : Cpuid} cs :
  Forall call_ok cs ->
  (exists tr s' U', tag_run cs X86TagManager_new = Ret (tr, s') /\ tag_spec_run ∅ tr U' /\ tr.*1 = cs) /\
  (exists tr s' U', tag_run cs MteTagManager_new = Ret (tr, s') /\ tag_spec_run ∅ tr U' /\ tr.*1 = cs) /\
  (exists tr s' U', tag_run cs CheriTagManager_new = Ret (tr, s') /\ tag_spec_run ∅ tr U' /\ tr.*1 = cs).
Proof.
  intros Hcs. pose proof SoftwareTagManager_new_inv as Hinv. split_and!.
  - destruct (tag_run_refines (L := X86_tag_laws) cs X86TagManager_new ∅ Hcs Hinv) as (tr & s' & U' & ? & ? & _ & ?). eauto 7.
  - destruct (tag_run_refines (L := Mte_tag_laws) cs MteTagManager_new ∅ Hcs Hinv) as (tr & s' & U' & ? & ? & _ & ?). eauto 7.
  - destruct (tag_run_refines (L := Cheri_tag_laws) cs CheriTagManager_new ∅ Hcs Hinv) as (tr & s' & U' & ? & ? & _ & ?). eauto 7.
Qed.

(** A processor of neither vendor. *)
Definition cpuid_other : Cpuid := fun _ => {| eax := 1; ebx := 0; ecx := 0; edx := 0 |}.

Lemma hardware_managers_refine_witness :
  exists tr s' U', tag_run tag_demo (X86TagManager_new (C := cpuid_other)) = Ret (tr, s') /\
    tag_spec_run ∅ tr U' /\ tr.*1 = tag_demo.
Proof. exact (proj1 (hardware_managers_refine (C := cpuid_other) tag_demo tag_demo_ok)). Defined.

(** ** Theorems: x86 *)

(** Replacing the bits from [k] on by [t]. *)
Lemma put_high p t k :
  0 <= k -> 0 <= t -> Z.lor (Z.land p (Z.ones k)) (Z.shiftl t k) = p mod 2 ^ k + t * 2 ^ k.
Proof.
  intros Hk Ht. rewrite Z.land_ones, Z.shiftl_mul_pow2 by lia. symmetry. rewrite <- Z.add_lor_land.
  assert (Z.land (p mod 2 ^ k) (t * 2 ^ k) = 0) as ->; [|lia].
  apply Z.bits_inj_iff'. intros i Hi. rewrite Z.land_spec, Z.bits_0. destruct (decide (i < k)).
  - rewrite Z.mul_pow2_bits_low by lia. apply andb_false_r.
  - by rewrite Z.mod_pow2_bits_high by lia.
Qed.

Lemma high_tag a t k :
  0 <= k -> 0 <= a < 2 ^ k -> 0 <= t <= 15 ->
  Z.land (Z.shiftr (a + t * 2 ^ k) k) 15 = t /\ Z.land (a + t * 2 ^ k) (Z.ones k) = a.
Proof.
  intros Hk Ha Ht. pose proof (pow2_pos k Hk). rewrite Z.shiftr_div_pow2, Z.land_ones by lia.
  rewrite Z.div_add, Z.div_small, Z.add_0_l by lia. rewrite Z.mod_add, Z.mod_small by lia.
  change 15 with (Z.ones 4). rewrite Z.land_ones by lia. rewrite Z.mod_small by (change (2 ^ 4) with 16; lia).
  done.
Qed.

(** Where the tag of a pointer is. *)
Definition tag_shift (s : X86TagManager) : Z := if has_hardware_tagging (x86_features s) then 56 else 48.

Lemma x86_pointer_eqs s p t :
  X86_untag_pointer s p = Z.land p (Z.ones (tag_shift s)) /\
  X86_get_tag s p = Z.land (Z.shiftr p (tag_shift s)) 15 /\
  (0 <= t <= 15 -> X86_tag_pointer s p t = p mod 2 ^ tag_shift s + t * 2 ^ tag_shift s).
Proof.
  unfold X86_untag_pointer, X86_get_tag, X86_tag_pointer, tag_shift.
  destruct (has_hardware_tagging (x86_features s)); (split; [done|split; [done|]]); intros Ht;
    (destruct (Z.ltb_spec 15 t); [lia|]).
  - rewrite <- put_high by lia. unfold shl64. change (56 mod 64) with 56. rewrite wrap64_small; [done|].
    rewrite Z.shiftl_mul_pow2 by lia. unfold is_usize. lia.
  - rewrite <- put_high by lia. unfold shl64. change (48 mod 64) with 48. rewrite wrap64_small; [done|].
    rewrite Z.shiftl_mul_pow2 by lia. unfold is_usize. lia.
Qed.

(** On x86, with the tag in bits 56 to 59 or without hardware support in bits 48 to
    51, a tag of 0 to 15 put in a pointer is read back, the result is a 64-bit pointer,
    and taking the tag off gives back every address of the user half; a larger tag
    leaves the pointer as it is. *)
Theorem x86_pointer_roundtrip s p tag :
  is_usize p -> 0 <= tag ->
  if tag <=? 15 then
    is_usize (X86_tag_pointer s p tag) /\ X86_get_tag s (X86_tag_pointer s p tag) = tag /\
    X86_untag_pointer s (X86_tag_pointer s p tag) = X86_untag_pointer s p /\
    (p < 2 ^ 47 -> X86_untag_pointer s (X86_tag_pointer s p tag) = p)
  else X86_tag_pointer s p tag = p.
Proof.
  intros Hp Ht. destruct (Z.leb_spec tag 15) as [Hle|Hlt].
  2:{ unfold X86_tag_pointer. destruct (Z.ltb_spec 15 tag); [done|lia]. }
  set (q := X86_tag_pointer s p tag).
  destruct (x86_pointer_eqs s p tag) as (Hup & _ & Hq). specialize (Hq ltac:(lia)). fold q in Hq.
  destruct (x86_pointer_eqs s q 0) as (Huq & Hgq & _).
  assert (Hk : 48 <= tag_shift s <= 56) by (unfold tag_shift; destruct (has_hardware_tagging _); lia).
  set (k := tag_shift s) in *. pose proof (pow2_pos k ltac:(lia)).
  pose proof (Z.mod_pos_bound p (2 ^ k) ltac:(lia)) as Hm.
  destruct (high_tag (p mod 2 ^ k) tag k) as [H1 H2]; [lia|lia|lia|].
  rewrite Hgq, Huq, Hup, Hq, H1, H2, Z.land_ones by lia. split_and!; [|done|done|].
  - pose proof (pow2_le k 56 ltac:(lia)). unfold is_usize. nia.
  - intros Huser. apply Z.mod_small. pose proof (pow2_le 47 k ltac:(lia)). unfold is_usize in Hp. lia.
Qed.

Lemma x86_pointer_roundtrip_witness :
  X86_get_tag (X86TagManager_new (C := cpuid_other)) (X86_tag_pointer (X86TagManager_new (C := cpuid_other)) 65552 9) = 9.
Proof.
  destruct (x86_pointer_roundtrip (X86TagManager_new (C := cpuid_other)) 65552 9) as (_ & H & _);
    [unfold is_usize; lia|lia|exact H].
Defined.

(** Given that leaf 0 reports a basic leaf, as the manuals say, the detection never
    finds AMD's upper address ignore: its branch asks for a basic leaf above
    0x80000000.  Hardware tagging is reported exactly for an Intel processor with leaf 7
    and bit 26 of its EDX. *)
Theorem x86_detect_correct {C : Cpuid} :
  eax (__cpuid 0) < 0x80000000 ->
  has_amd_uai X86FeatureFlags_detect = false /\
  has_hardware_tagging X86FeatureFlags_detect =
    bool_decide (vendor_bytes (__cpuid 0) = GenuineIntel) && (7 <=? eax (__cpuid 0)) &&
    bit_set (edx (__cpuid 7)) 26.
Proof.
  intros Hbasic. unfold X86FeatureFlags_detect, has_hardware_tagging. cbv zeta.
  destruct (bool_decide (vendor_bytes (__cpuid 0) = GenuineIntel) && (7 <=? eax (__cpuid 0))); simpl.
  - by rewrite orb_false_r.
  - destruct (Z.leb_spec 0x80000000 (eax (__cpuid 0))); [lia|]. by rewrite andb_false_r.
Qed.

(** An AMD processor with every extended feature. *)
Definition cpuid_amd : Cpuid := fun leaf =>
  if leaf =? 0 then {| eax := 16; ebx := 0x68747541; ecx := 0x444d4163; edx := 0x69746e65 |}
  else {| eax := 0x80000021; ebx := 2 ^ 32 - 1; ecx := 2 ^ 32 - 1; edx := 2 ^ 32 - 1 |}.

Lemma x86_detect_correct_witness :
  vendor_bytes (__cpuid (Cpuid := cpuid_amd) 0) = AuthenticAMD /\
  has_amd_uai (X86FeatureFlags_detect (C := cpuid_amd)) = false.
Proof. split; [vm_compute; reflexivity|]. apply (x86_detect_correct (C := cpuid_amd)). simpl. lia. Defined.

(** ** Theorems: ARM *)

Section mte_pointers.
Context {I : MteIsa} {IS : MteIsaSpec I}.

(** [tag_pointer] adds the tag to the one the pointer has and keeps the address, so
    it sets the tag of an untagged pointer only; a tag above 15 is refused.
    [untag_pointer] subtracts the pointer from itself and gives the null pointer for
    every argument, not the pointer without its tag. *)
Theorem mte_pointer_ops p tag :
  is_usize p -> 0 <= tag ->
  Mte_untag_pointer p = 0 /\
  if tag <=? MAX_TAG then
    exists q, Mte_tag_pointer p tag = inl q /\ ptr_addr q = ptr_addr p /\
      ptr_tag q = (ptr_tag p + tag) mod 16 /\ (ptr_tag p = 0 -> ptr_tag q = tag)
  else Mte_tag_pointer p tag = inr InvalidTag.
Proof.
  intros Hp Ht. split.
  { unfold Mte_untag_pointer, mte_subp. by rewrite subp_diff, Z.sub_diag. }
  unfold Mte_tag_pointer, MAX_TAG. destruct (Z.leb_spec tag 15), (Z.ltb_spec 15 tag); try lia; [|done].
  destruct (addg_tag p tag Hp ltac:(lia)) as [Ha Hg]. eexists. split; [done|].
  unfold mte_addg. split_and!; [done|done|]. intros Hz. rewrite Hg, Hz. apply Z.mod_small. lia.
Qed.

(** What [load_tag] reads after [store_tag]: the low 16 bits of a register whose bits 59
    to 56 are the tag. *)
Lemma store_load_tag m p tag :
  0 <= tag <= MAX_TAG -> is_usize p -> ptr_tag p = 0 ->
  exists m' r, Mte_store_tag p tag m = Ret (inl tt, m') /\ ptr_tag r = tag /\
    Mte_load_tag (mte_addg p tag) m' = Ret (r mod 2 ^ 16, m').
Proof.
  unfold MAX_TAG. intros Ht Hp H0. unfold Mte_store_tag, MAX_TAG. destruct (Z.ltb_spec 15 tag); [lia|].
  eexists _, _. split; [done|]. split; [|done]. rewrite ldg_stg. unfold mte_addg.
  destruct (addg_tag p tag Hp ltac:(lia)) as [_ ->]. rewrite H0. apply Z.mod_small. lia.
Qed.

(** A new tag for a block: [irg] with the mask that [gmi] makes of the old pointer never
    gives the old tag back while another one is allowed, and [stzg] then tags the block
    and clears it. *)
Lemma mte_retag m p mask :
  (exists t, 0 <= t < 16 /\ Z.testbit (Z.lor (mte_gmi p mask) isa_gcr) t = false) ->
  exists q m1 m2, mte_irg p (mte_gmi p mask) m = Ret (q, m1) /\ mte_stzg q m1 = Ret (tt, m2) /\
    ptr_addr q = ptr_addr p /\ ptr_tag q <> ptr_tag p /\ ptr_tag (isa_ldg m2 q) = ptr_tag q /\
    (ptr_addr p mod 16 = 0 -> forall i, 0 <= i < 16 -> isa_byte m2 (ptr_addr p + i) = 0).
Proof.
  intros Ht. destruct (irg_tag m p (mte_gmi p mask)) as [Ha Hx]. specialize (Hx Ht).
  unfold mte_irg. destruct (isa_irg p (mte_gmi p mask) m) as [q m1]. cbn [fst] in *.
  exists q, m1, (isa_stzg q m1). split_and!; [done|done|done| |apply stzg_stg|].
  - intros Heq. unfold mte_gmi in Hx. rewrite gmi_mask, Heq, !Z.lor_spec, Z.shiftl_spec, Z.sub_diag in Hx
      by (unfold ptr_tag; apply Z.land_nonneg; right; lia). by rewrite orb_true_r in Hx.
  - intros Hal i Hi. rewrite <- Ha in Hal |- *. by apply stzg_zeroes.
Qed.
End mte_pointers.

(** The first of the sixteen tags that a mask does not exclude. *)
Definition first_tag (mask : Z) : Z :=
  default 0 (snd <$> list_find (fun t => Z.testbit mask t = false) (seqZ 0 16)).

(** A processor: the allocation tags and the bytes by address, and registers as the
    manual says. *)
Definition demo_mte : MteIsa := {|
  tag_memory := gmap Z Z * gmap Z Z;
  isa_addg p n t := p mod 2 ^ 56 + (ptr_tag p + t) mod 16 * 2 ^ 56;
  isa_subp p q := wrap64 (sext56 (ptr_addr p) - sext56 (ptr_addr q));
  isa_stg p m := (<[ptr_addr p := ptr_tag p]> m.1, m.2);
  isa_ldg m p := default 0 (m.1 !! ptr_addr p) * 2 ^ 56;
  isa_stzg p m :=
    (<[ptr_addr p := ptr_tag p]> m.1,
     foldr (fun i b => <[ptr_addr p + i := 0]> b) m.2 (seqZ 0 16));
  isa_irg p mask m := (p mod 2 ^ 56 + first_tag mask * 2 ^ 56, m);
  isa_gmi p mask := Z.lor mask (Z.shiftl 1 (ptr_tag p));
  isa_byte m a := default 0 (m.2 !! a);
  isa_gcr := 0;
  isa_pfr1 := 0x200
|}.

Lemma ptr_tag_range p : 0 <= ptr_tag p <= 15.
Proof.
  unfold ptr_tag. change 15 with (Z.ones 4). rewrite Z.land_ones by lia.
  pose proof (Z.mod_pos_bound (Z.shiftr p 56) (2 ^ 4)). change (2 ^ 4) with 16 in *.
  change (Z.ones 4) with 15. lia.
Qed.

(** A tag on top of a 56-bit address. *)
Lemma tag_on_top a t : 0 <= t <= 15 ->
  ptr_addr (a mod 2 ^ 56 + t * 2 ^ 56) = ptr_addr a /\ ptr_tag (a mod 2 ^ 56 + t * 2 ^ 56) = t.
Proof.
  intros Ht. pose proof (Z.mod_pos_bound a (2 ^ 56) ltac:(lia)).
  destruct (high_tag (a mod 2 ^ 56) t 56) as [H1 H2]; [lia|lia|lia|].
  split; [|exact H1]. rewrite Z.land_ones in H2 by lia. exact H2.
Qed.

Lemma first_tag_spec mask :
  0 <= first_tag mask <= 15 /\
  ((exists t, 0 <= t < 16 /\ Z.testbit mask t = false) -> Z.testbit mask (first_tag mask) = false).
Proof.
  unfold first_tag. destruct (list_find _ (seqZ 0 16)) as [[i t]|] eqn:Hf; simpl.
  - apply list_find_Some in Hf as (Hi & Hb & _). apply lookup_seqZ in Hi as [-> Hi]. split; [lia|done].
  - apply list_find_None in Hf. rewrite Forall_forall in Hf. split; [lia|]. intros (t & Ht & Hb).
    destruct (Hf t); [apply elem_of_seqZ; lia|done].
Qed.

Lemma zeroes_lookup a (b : gmap Z Z) l i :
  i ∈ l -> foldr (fun i b => <[a + i := 0]> b) b l !! (a + i) = Some 0.
Proof.
  induction l as [|j l IH]; intros Hi; [by apply elem_of_nil in Hi|]. simpl.
  destruct (decide (j = i)) as [->|Hne]; [apply lookup_insert_eq|].
  rewrite lookup_insert_ne by lia. apply IH. by apply elem_of_cons in Hi as [->|].
Qed.

#[global] Instance demo_mte_spec : MteIsaSpec demo_mte.
Proof.
  constructor; [|done| | | | |done]; cbn [isa_addg isa_stg isa_ldg isa_stzg isa_irg isa_byte isa_gcr demo_mte fst snd].
  - intros p t Hp Ht. pose proof (Z.mod_pos_bound (ptr_tag p + t) 16 ltac:(lia)).
    apply tag_on_top. lia.
  - intros m p. rewrite lookup_insert_eq. apply (tag_on_top 0), ptr_tag_range.
  - intros m p. rewrite lookup_insert_eq. apply (tag_on_top 0), ptr_tag_range.
  - intros m p i Hp Hi. rewrite (zeroes_lookup _ _ (seqZ 0 16)); [done|]. apply elem_of_seqZ. lia.
  - intros m p mask. rewrite Z.lor_0_r. destruct (first_tag_spec mask) as [Hr Hx].
    destruct (tag_on_top p (first_tag mask) Hr) as [-> ->]. done.
Qed.

Lemma mte_pointer_ops_witness :
  Mte_untag_pointer (I := demo_mte) 65552 = 0 /\
  exists q, Mte_tag_pointer (I := demo_mte) 65552 5 = inl q /\ ptr_tag q = 5.
Proof.
  destruct (mte_pointer_ops (I := demo_mte) 65552 5) as (H1 & q & H2 & _ & _ & H3);
    [unfold is_usize; lia|lia|].
  split; [exact H1|]. exists q. split; [exact H2|]. apply H3. reflexivity.
Defined.

(** On this processor the tag that was stored is not the one that is loaded. *)
Theorem mte_load_tag_zero :
  exists m', Mte_store_tag (I := demo_mte) 65552 5 (∅, ∅) = Ret (inl tt, m') /\
    Mte_load_tag (I := demo_mte) (mte_addg (I := demo_mte) 65552 5) m' = Ret (0, m').
Proof. eexists. split; [vm_compute; reflexivity|vm_compute; reflexivity]. Qed.

(** ** Theorems: CHERI *)

Section cheri_bounds.
Context {I : CheriIsa} {IS : CheriIsaSpec I}.

(** A bounded capability is only created on a CHERI target; it is tagged, has at
    least the requested permissions and covers [length] bytes from the base pointer,
    exactly on RISC-V.  There its address is 0 instead of the base pointer's, because
    the wrapper sets the address to its argument [base], for which it is given 0. *)
Theorem bounded_capability_correct target base length perms cap :
  create_bounded_capability target base length perms = Some cap ->
  cm_tag (get_capability_meta target cap) = true /\
  Z.land (cm_permissions (get_capability_meta target cap)) perms = perms /\
  cm_base (get_capability_meta target cap) <= cgetaddr base /\
  cgetaddr base + length <= cm_base (get_capability_meta target cap) + cm_length (get_capability_meta target cap) /\
  match target with
  | Riscv64 => cm_length (get_capability_meta target cap) = length /\ cgetaddr cap = 0
  | Aarch64 => cgetaddr cap = cgetaddr base
  | OtherArch => False
  end.
Proof.
  unfold create_bounded_capability. cbv zeta.
  destruct (Z.eqb_spec (Z.land (cheri_cap_get_perms target (cheri_cap_bounds_set target base 0 length)) perms) perms)
    as [Hperm|]; [|done]. simpl negb. cbv iota.
  destruct (cheri_cap_get_tag target (cheri_cap_bounds_set target base 0 length)) eqn:Htag; [|done].
  simpl negb. cbv iota. intros [= <-]. cbn [get_capability_meta cm_tag cm_permissions cm_base cm_length].
  split; [done|]. split; [done|]. destruct target; simpl in Htag; [| |done]; simpl;
    apply negb_true_iff, Z.eqb_neq in Htag.
  - destruct (csetaddr_spec (csetboundsexact base length) 0) as [Haddr Hset].
    destruct (Hset Htag) as (Htag1 & -> & -> & _).
    destruct (csetboundsexact_spec base length Htag1) as (_ & -> & -> & _). split_and!; (lia || done).
  - destruct (csetbound_spec base length Htag) as (_ & Hb & Hl & _ & Ha). split_and!; (lia || done).
Qed.
End cheri_bounds.

(** Capabilities as records; a request outside the bounds clears the tag. *)
Record demo_cap : Type := DemoCap { dc_addr : Z; dc_base : Z; dc_len : Z; dc_perms : Z; dc_tag : Z }.

Definition demo_setbounds (c : demo_cap) (n : Z) : demo_cap :=
  DemoCap (dc_addr c) (dc_addr c) n (dc_perms c)
    (if (dc_base c <=? dc_addr c) && (dc_addr c + n <=? dc_base c + dc_len c) then dc_tag c else 0).

Definition demo_cheri : CheriIsa := {|
  capability := demo_cap;
  cgetlen := dc_len;
  cgetbase := dc_base;
  cgetoffset c := dc_addr c - dc_base c;
  cgettag := dc_tag;
  cgetperm := dc_perms;
  cgetaddr := dc_addr;
  csetboundsexact := demo_setbounds;
  csetbound := demo_setbounds;
  csetaddr c a := DemoCap a (dc_base c) (dc_len c) (dc_perms c) (dc_tag c)
|}.

#[global] Instance demo_cheri_spec : CheriIsaSpec demo_cheri.
Proof.
  constructor; simpl; unfold demo_setbounds; simpl.
  - intros c n. destruct (_ && _); [|done]. intros H. by split_and!.
  - intros c n. destruct (_ && _); [|done]. intros H. split_and!; (done || lia).
  - intros c a. split; [done|]. intros H. by split_and!.
Qed.

Lemma bounded_capability_correct_witness :
  exists cap, create_bounded_capability (I := demo_cheri) Riscv64 (DemoCap 4096 4096 8192 PERM_ALL 1) 64 PERM_READ_WRITE =
      Some cap /\ cgetlen (CheriIsa := demo_cheri) cap = 64 /\ cgetaddr (CheriIsa := demo_cheri) cap = 0.
Proof.
  eexists. split; [vm_compute; reflexivity|].
  destruct (bounded_capability_correct (I := demo_cheri) Riscv64 (DemoCap 4096 4096 8192 PERM_ALL 1) 64 PERM_READ_WRITE
    (DemoCap 0 4096 64 PERM_ALL 1)) as (_ & _ & _ & _ & H1 & H2); [vm_compute; reflexivity|].
  split; [exact H1|exact H2].
Defined.
