(* ===== verification/PageTable.v ===== *)
(** * Page tables as /proc/self/pagemap shows them

    Models aethalloc-vmpc/src/page_table.rs: the fields of a pagemap entry, the share
    of a page in use, and the tracker that reads entries through a file descriptor.
    The system calls on the pagemap file are a parameter; [feature_std] is the cargo
    feature that compiles them in. *)

From Stdlib Require Import Floats.SpecFloat.
From S2P Require Import Prelude SizeClass.

(** ** Entries *)

Definition PAGEMAP_ENTRY_SIZE : Z := 8.

Record PageMapEntry : Type := { raw : Z }.

Definition PageMapEntry_new (raw : Z) : PageMapEntry := {| raw := raw |}.

Definition is_present (self : PageMapEntry) : bool := Z.land (Z.shiftr (raw self) 63) 1 =? 1.

Definition is_swapped (self : PageMapEntry) : bool := Z.land (Z.shiftr (raw self) 62) 1 =? 1.

Definition is_file_mapped (self : PageMapEntry) : bool := Z.land (Z.shiftr (raw self) 61) 1 =? 1.

Definition page_frame_number (self : PageMapEntry) : Z := Z.land (raw self) (shl64 1 55 -! 1).

Definition entry_physical_address (self : PageMapEntry) : option Z :=
  if is_present self && negb (is_swapped self)
  then Some (page_frame_number self *! PAGE_SIZE)
  else None.

(** ** Utilization

    [f32] is the binary format of precision 24; [u as f32] rounds to nearest even. *)

Definition f32_of (u : Z) : spec_float := binary_normalize 24 128 u 0 false.

Record PageUtilization : Type := {
  page_addr : Z;
  allocated_bytes : Z;
  total_bytes : Z
}.

Definition utilization (self : PageUtilization) : spec_float :=
  if total_bytes self =? 0 then S754_zero false
  else SFdiv 24 128 (f32_of (allocated_bytes self)) (f32_of (total_bytes self)).

Definition is_sparse (self : PageUtilization) (threshold : spec_float) : bool :=
  SFltb (utilization self) threshold.

(** ** The tracker

    [sys_open_pagemap] is [open] of /proc/self/pagemap for reading;
    [sys_pread8 w fd buf offset] is [pread] of eight bytes into a buffer that holds
    [buf]: the return value and the buffer after it; [sys_close] is [close]. *)
Class ProcFs (W : Type) : Type := {
  sys_open_pagemap : W -> Z * W;
  sys_pread8 : W -> Z -> Z -> Z -> (Z * Z) * W;
  sys_close : W -> Z -> Z * W
}.

Record PageTableTracker : Type := { pagemap_fd : option Z }.

Section tracker.
Context {W : Type} `{P : ProcFs W} (feature_std : bool).

Definition open_pagemap : M W Z :=
  fd ← (fun w => Ret (sys_open_pagemap w));
  if fd <? 0 then panic else mret fd.

(** The two quotients fit an [i64]. *)
Definition read_pagemap_entry (fd addr : Z) : M W (PageMapEntry + Z) :=
  let page_offset := addr / PAGE_SIZE in
  let file_offset := page_offset * PAGEMAP_ENTRY_SIZE in
  r ← (fun w => Ret (sys_pread8 w fd 0 file_offset));
  if negb (r.1 =? 8) then mret (inr (-1)) else mret (inl (PageMapEntry_new r.2)).

Definition PageTableTracker_new : M W PageTableTracker :=
  if feature_std then
    fd ← open_pagemap;
    mret {| pagemap_fd := Some fd |}
  else mret {| pagemap_fd := None |}.

Definition query_page (self : PageTableTracker) (addr : Z) : M W (option PageMapEntry) :=
  if feature_std then
    match pagemap_fd self with
    | None => mret None
    | Some fd =>
        r ← read_pagemap_entry fd addr;
        mret match r with inl e => Some e | inr _ => None end
    end
  else mret None.

Definition same_physical_page (self : PageTableTracker) (addr1 addr2 : Z) : M W bool :=
  r1 ← query_page self addr1;
  r2 ← query_page self addr2;
  match r1, r2 with
  | Some e1, Some e2 =>
      mret (is_present e1 && is_present e2 && (page_frame_number e1 =? page_frame_number e2))
  | _, _ => mret false
  end.

Definition tracker_physical_address (self : PageTableTracker) (addr : Z) : M W (option Z) :=
  r ← query_page self addr;
  mret match r with Some e => entry_physical_address e | None => None end.

Definition PageTableTracker_drop (self : PageTableTracker) : M W unit :=
  if feature_std then
    match pagemap_fd self with
    | Some fd => (fun w => Ret (sys_close w fd)) ;; mret tt
    | None => mret tt
    end
  else mret tt.
End tracker.

(** ** What the kernel documents

    The fields of an entry: the frame number in bits 0 to 54, flags in 55 to 60, then
    file-mapped, swapped and present. *)
Record page_info : Type := {
  pi_frame : Z;
  pi_flags : Z;
  pi_file : bool;
  pi_swapped : bool;
  pi_present : bool
}.

Definition page_info_ok (i : page_info) : Prop := 0 <= pi_frame i < 2 ^ 55 /\ 0 <= pi_flags i < 64.

Definition encode_page_info (i : page_info) : Z :=
  pi_frame i + 2 ^ 55 * (pi_flags i + 64 * (Z.b2z (pi_file i) + 2 * (Z.b2z (pi_swapped i) + 2 * Z.b2z (pi_present i)))).

(** The kernel shows the frame numbers only to a process with CAP_SYS_ADMIN; to another it
    shows 0 for every page, and the flags as they are. *)
Definition shown (admin : bool) (i : page_info) : page_info :=
  {| pi_frame := if admin then pi_frame i else 0; pi_flags := pi_flags i; pi_file := pi_file i;
     pi_swapped := pi_swapped i; pi_present := pi_present i |}.

(** [pm_page] are the page tables of the process and [pm_admin] its privilege.  Reading
    eight bytes at [8 * n] of an open pagemap gives the entry of page [n], as far as it is
    shown, and fewer bytes where the address space has no such page; no call changes the
    tables.  [open] gives a descriptor that was not open, [close] closes no other one. *)
Class ProcFsSpec (W : Type) `{P : ProcFs W} : Type := {
  pm_open : W -> Z -> Prop;
  pm_admin : W -> bool;
  pm_page : W -> Z -> option page_info;
  pm_page_ok w n i : pm_page w n = Some i -> page_info_ok i;
  open_spec w : 0 <= (sys_open_pagemap w).1 ->
    ~ pm_open w (sys_open_pagemap w).1 /\
    (forall f, pm_open (sys_open_pagemap w).2 f <-> f = (sys_open_pagemap w).1 \/ pm_open w f) /\
    pm_page (sys_open_pagemap w).2 = pm_page w /\ pm_admin (sys_open_pagemap w).2 = pm_admin w;
  pread_spec w fd b n : pm_open w fd -> 0 <= n ->
    (sys_pread8 w fd b (n * PAGEMAP_ENTRY_SIZE)).2 = w /\
    match pm_page w n with
    | Some i => (sys_pread8 w fd b (n * PAGEMAP_ENTRY_SIZE)).1 = (8, encode_page_info (shown (pm_admin w) i))
    | None => (sys_pread8 w fd b (n * PAGEMAP_ENTRY_SIZE)).1.1 <> 8
    end;
  close_spec w fd f : pm_open w fd ->
    (pm_open (sys_close w fd).2 f <-> pm_open w f /\ f <> fd) /\ pm_page (sys_close w fd).2 = pm_page w
}.

(** ** Reading the fields back *)

Lemma shiftr_bit x k : 0 <= k -> Z.land (Z.shiftr x k) 1 = x / 2 ^ k mod 2.
Proof. intros Hk. rewrite Z.shiftr_div_pow2 by done. change 1 with (Z.ones 1) at 1. by rewrite Z.land_ones. Qed.

Lemma frame_mask : shl64 1 55 -! 1 = Z.ones 55.
Proof. reflexivity. Qed.

Lemma encode_low i : page_info_ok i -> encode_page_info i mod 2 ^ 55 = pi_frame i.
Proof. intros [Hf _]. unfold encode_page_info. mlia. Qed.

Lemma encode_high i : page_info_ok i ->
  encode_page_info i / 2 ^ 61 = Z.b2z (pi_file i) + 2 * (Z.b2z (pi_swapped i) + 2 * Z.b2z (pi_present i)).
Proof. intros [Hf Hg]. unfold encode_page_info. destruct (pi_file i), (pi_swapped i), (pi_present i); simpl Z.b2z; mlia. Qed.

Lemma encode_usize i : page_info_ok i -> is_usize (encode_page_info i).
Proof.
  intros [Hf Hg]. unfold encode_page_info, is_usize. destruct (pi_file i), (pi_swapped i), (pi_present i); simpl Z.b2z; lia.
Qed.

(** The readers of an entry give the fields the kernel put there. *)
Lemma entry_fields i : page_info_ok i ->
  let e := PageMapEntry_new (encode_page_info i) in
  page_frame_number e = pi_frame i /\ is_file_mapped e = pi_file i /\
  is_swapped e = pi_swapped i /\ is_present e = pi_present i.
Proof.
  intros Hi e. subst e. unfold page_frame_number, is_file_mapped, is_swapped, is_present. simpl raw.
  rewrite frame_mask, Z.land_ones, encode_low, !shiftr_bit by (done || lia).
  replace (2 ^ 63) with (2 ^ 61 * 4) by done. replace (2 ^ 62) with (2 ^ 61 * 2) by done.
  rewrite <- !Z.div_div, encode_high by (done || lia).
  destruct (pi_file i), (pi_swapped i), (pi_present i); done.
Qed.

Lemma shown_ok b i : page_info_ok i -> page_info_ok (shown b i).
Proof. intros [??]. split; [destruct b; simpl; lia|done]. Qed.

Section tracking.
Context {W : Type} `{PS : ProcFsSpec W}.

(** The entry a read gives for the page [o]. *)
Definition shown_entry (admin : bool) (o : option page_info) : option PageMapEntry :=
  (fun i => PageMapEntry_new (encode_page_info (shown admin i))) <$> o.

Lemma query_page_run fd w a :
  pm_open w fd -> 0 <= a ->
  query_page true {| pagemap_fd := Some fd |} a w = Ret (shown_entry (pm_admin w) (pm_page w (a / PAGE_SIZE)), w).
Proof.
  intros Ho Ha. unfold query_page, read_pagemap_entry, shown_entry. run_m. cbn [pagemap_fd]. cbv beta.
  assert (Hn : 0 <= a / PAGE_SIZE) by (unfold PAGE_SIZE; mlia).
  destruct (pread_spec w fd 0 (a / PAGE_SIZE) Ho Hn) as [Hw Hr].
  destruct (sys_pread8 w fd 0 _) as [[n v] w']. cbn [fst snd] in Hw, Hr |- *. subst w'.
  destruct (pm_page w (a / PAGE_SIZE)) as [i|].
  - by injection Hr as -> ->.
  - by rewrite (proj2 (Z.eqb_neq n 8) Hr).
Qed.

(** Both pages are present; they have one frame; the physical address of a page. *)
Definition both_present (o1 o2 : option page_info) : bool :=
  match o1, o2 with Some i, Some j => pi_present i && pi_present j | _, _ => false end.

Definition same_frame (o1 o2 : option page_info) : bool :=
  match o1, o2 with
  | Some i, Some j => pi_present i && pi_present j && (pi_frame i =? pi_frame j)
  | _, _ => false
  end.

Definition frame_address (o : option page_info) : option Z :=
  match o with
  | Some i => if pi_present i && negb (pi_swapped i) then Some (wrap64 (pi_frame i * PAGE_SIZE)) else None
  | None => None
  end.

Lemma same_physical_page_run fd w a b :
  pm_open w fd -> 0 <= a -> 0 <= b ->
  same_physical_page true {| pagemap_fd := Some fd |} a b w =
    Ret ((if pm_admin w then same_frame else both_present) (pm_page w (a / PAGE_SIZE)) (pm_page w (b / PAGE_SIZE)), w).
Proof.
  intros Ho Ha Hb. unfold same_physical_page, mbind, M_bind. rewrite !query_page_run by done.
  destruct (pm_page w (a / PAGE_SIZE)) as [i|] eqn:Hi; [|by destruct (pm_admin w)].
  destruct (pm_page w (b / PAGE_SIZE)) as [j|] eqn:Hj; [|by destruct (pm_admin w)].
  cbn [shown_entry fmap option_fmap option_map].
  destruct (entry_fields _ (shown_ok (pm_admin w) _ (pm_page_ok _ _ _ Hi))) as (-> & _ & _ & ->).
  destruct (entry_fields _ (shown_ok (pm_admin w) _ (pm_page_ok _ _ _ Hj))) as (-> & _ & _ & ->).
  destruct (pm_admin w); [done|]. simpl. by rewrite andb_true_r.
Qed.

Lemma physical_address_run fd w a :
  pm_open w fd -> 0 <= a ->
  tracker_physical_address true {| pagemap_fd := Some fd |} a w =
    Ret ((fun pa => if pm_admin w then pa else 0) <$> frame_address (pm_page w (a / PAGE_SIZE)), w).
Proof.
  intros Ho Ha. unfold tracker_physical_address, mbind, M_bind. rewrite query_page_run by done.
  destruct (pm_page w (a / PAGE_SIZE)) as [i|] eqn:Hi; [|done].
  cbn [shown_entry fmap option_fmap option_map frame_address]. unfold entry_physical_address.
  destruct (entry_fields _ (shown_ok (pm_admin w) _ (pm_page_ok _ _ _ Hi))) as (-> & _ & -> & ->).
  cbn [shown pi_frame pi_present pi_swapped]. destruct (pi_present i && negb (pi_swapped i)); [|done].
  by destruct (pm_admin w).
Qed.

Lemma tracker_new_run w :
  0 <= (sys_open_pagemap w).1 ->
  PageTableTracker_new true w = Ret ({| pagemap_fd := Some (sys_open_pagemap w).1 |}, (sys_open_pagemap w).2).
Proof.
  intros Hfd. unfold PageTableTracker_new, open_pagemap. run_m. destruct (sys_open_pagemap w) as [fd w']. simpl in *.
  by rewrite (proj2 (Z.ltb_ge fd 0) Hfd).
Qed.

(** C37: a tracker answers by what the kernel shows of the page tables of the process.
    The entry read for an address has the flags of the page that holds it.  With
    CAP_SYS_ADMIN it has the page's frame too, the physical address is that frame's (none
    unless the page is present and not swapped), and two addresses are on the same physical
    page exactly when both pages are present and have the same frame number.  Without it
    the frame is 0, so the address of every such page is 0 and any two present pages are
    taken for one.  Reading changes nothing, and dropping the tracker closes the one
    descriptor it opened. *)
Theorem tracker_correct w a b :
  0 <= (sys_open_pagemap w).1 -> is_usize a -> is_usize b ->
  exists t w1 w2,
    PageTableTracker_new true w = Ret (t, w1) /\
    query_page true t a w1 = Ret (shown_entry (pm_admin w) (pm_page w (a / PAGE_SIZE)), w1) /\
    tracker_physical_address true t a w1 =
      Ret ((fun pa => if pm_admin w then pa else 0) <$> frame_address (pm_page w (a / PAGE_SIZE)), w1) /\
    same_physical_page true t a b w1 =
      Ret ((if pm_admin w then same_frame else both_present)
             (pm_page w (a / PAGE_SIZE)) (pm_page w (b / PAGE_SIZE)), w1) /\
    PageTableTracker_drop true t w1 = Ret (tt, w2) /\
    (forall f, pm_open w2 f <-> pm_open w f) /\ pm_page w2 = pm_page w.
Proof.
  intros Hfd [Ha _] [Hb _]. destruct (open_spec w Hfd) as (Hnew & Hopen & Hinfo & Hadm).
  set (fd := (sys_open_pagemap w).1) in *. set (w1 := (sys_open_pagemap w).2) in *.
  assert (Ho : pm_open w1 fd) by (apply Hopen; by left).
  exists {| pagemap_fd := Some fd |}, w1, (sys_close w1 fd).2.
  rewrite tracker_new_run, query_page_run, physical_address_run, same_physical_page_run, Hinfo, Hadm by done.
  do 4 (split; [done|]). split.
  { unfold PageTableTracker_drop. run_m. simpl. by destruct (sys_close w1 fd). }
  split; [|by rewrite (proj2 (close_spec w1 fd fd Ho))].
  intros f. rewrite (proj1 (close_spec w1 fd f Ho)), Hopen. split; [tauto|]. intros Hf. split; [by right|]. by intros ->.
Qed.

(** Without CAP_SYS_ADMIN two present pages with different frames count as the same
    physical page, and a present page has the physical address 0. *)
Theorem unprivileged_tracker w fd a b i j :
  pm_open w fd -> is_usize a -> is_usize b -> pm_admin w = false ->
  pm_page w (a / PAGE_SIZE) = Some i -> pm_page w (b / PAGE_SIZE) = Some j ->
  pi_present i = true -> pi_present j = true -> pi_swapped i = false -> pi_frame i <> pi_frame j ->
  same_physical_page true {| pagemap_fd := Some fd |} a b w = Ret (true, w) /\
  tracker_physical_address true {| pagemap_fd := Some fd |} a w = Ret (Some 0, w).
Proof.
  intros Ho [Ha _] [Hb _] Hz Hi Hj Hpi Hpj Hsi _. rewrite same_physical_page_run, physical_address_run, Hi, Hj, Hz by done.
  cbn [both_present frame_address]. by rewrite Hpi, Hpj, Hsi.
Qed.
End tracking.

(** ** Utilization of a page *)

(** [u] is the number [n / d], exactly. *)
Definition is_ratio (u : spec_float) (n d : Z) : bool :=
  match u with
  | S754_zero _ => n =? 0
  | S754_finite false m e => if e <? 0 then Z.pos m * d =? n * 2 ^ (- e) else Z.pos m * 2 ^ e * d =? n
  | _ => false
  end.

Definition page_use (a : Z) : PageUtilization :=
  {| page_addr := 0; allocated_bytes := a; total_bytes := PAGE_SIZE |}.

Lemma page_use_all :
  forallb (fun n => is_ratio (utilization (page_use (Z.of_nat n))) (Z.of_nat n) PAGE_SIZE) (seq 0 4097) = true.
Proof. vm_compute. reflexivity. Qed.

Lemma forallb_seq_lookup f n : forallb f (seq 0 n) = true -> forall k, (k < n)%nat -> f k = true.
Proof. intros Hf k Hk. rewrite forallb_forall in Hf. apply Hf, in_seq. lia. Qed.

(** [0.5f32]. *)
Definition half_f32 : spec_float := S754_finite false 8388608 (-24).

Lemma page_sparse_all :
  forallb (fun n => eqb (is_sparse (page_use (Z.of_nat n)) half_f32) (2 * Z.of_nat n <? PAGE_SIZE)) (seq 0 4097) = true.
Proof. vm_compute. reflexivity. Qed.

(** For a page the quotient is exact, so that a page is sparse by the threshold 0.5
    exactly when less than half of it is in use. *)
Lemma page_utilization p a :
  0 <= a <= PAGE_SIZE ->
  let u := {| page_addr := p; allocated_bytes := a; total_bytes := PAGE_SIZE |} in
  is_ratio (utilization u) a PAGE_SIZE = true /\ is_sparse u half_f32 = (2 * a <? PAGE_SIZE).
Proof.
  intros Ha u. change (utilization u) with (utilization (page_use a)).
  change (is_sparse u half_f32) with (is_sparse (page_use a) half_f32).
  rewrite <- (Z2Nat.id a) by lia. assert (Hlt : (Z.to_nat a < 4097)%nat) by (unfold PAGE_SIZE in Ha; lia).
  split; [exact (forallb_seq_lookup _ _ page_use_all _ Hlt)|].
  apply eqb_prop. exact (forallb_seq_lookup _ _ page_sparse_all _ Hlt).
Qed.

(** ** A process with a given table *)

(** A state is the list of open descriptors; [pages] are the pages from page 0 on. *)
Definition next_fd (l : list Z) : Z := foldr Z.max 2 l + 1.

Definition table_procfs (admin : bool) (pages : list page_info) : ProcFs (list Z) := {|
  sys_open_pagemap l := (next_fd l, next_fd l :: l);
  sys_pread8 l fd b offset :=
    (match pages !! Z.to_nat (offset / PAGEMAP_ENTRY_SIZE) with
     | Some i => (8, encode_page_info (shown admin i))
     | None => (0, b)
     end, l);
  sys_close l fd := (0, filter (fun f => f <> fd) l)
|}.

Lemma next_fd_fresh l : next_fd l ∉ l.
Proof.
  intros Hin. assert (Hle : forall f, f ∈ l -> f <= foldr Z.max 2 l).
  { clear. induction l as [|x l IH]; intros f Hf; [by apply elem_of_nil in Hf|].
    apply elem_of_cons in Hf as [->|Hf]; simpl; [lia|]. specialize (IH f Hf). lia. }
  specialize (Hle _ Hin). unfold next_fd in Hle. lia.
Qed.

Lemma table_procfs_spec admin pages :
  Forall page_info_ok pages -> @ProcFsSpec (list Z) (table_procfs admin pages).
Proof.
  intros Hok. unshelve econstructor.
  - exact (fun l f => f ∈ l).
  - exact (fun _ => admin).
  - exact (fun _ n => if 0 <=? n then pages !! Z.to_nat n else None).
  - intros w n i. cbv beta. destruct (0 <=? n); [|done]. intros Hi. by eapply Forall_lookup_1.
  - intros w _. cbn [sys_open_pagemap table_procfs fst snd]. split; [apply next_fd_fresh|]. split; [|done].
    intros f. by rewrite elem_of_cons.
  - intros w fd b n _ Hn. cbn [sys_pread8 table_procfs fst snd]. split; [done|]. cbv beta.
    rewrite (proj2 (Z.leb_le 0 n) Hn), Z.div_mul by done. by destruct (pages !! Z.to_nat n).
  - intros w fd f _. cbn [sys_close table_procfs fst snd]. split; [|done].
    rewrite list_elem_of_filter. tauto.
Defined.

Definition demo_info (frame : Z) : page_info :=
  {| pi_frame := frame; pi_flags := 0; pi_file := false; pi_swapped := false; pi_present := true |}.

(** Page 0 in frame 7 and page 1 in frame 9. *)
Definition demo_procfs (admin : bool) : ProcFs (list Z) := table_procfs admin [demo_info 7; demo_info 9].

Definition demo_procfs_spec (admin : bool) : @ProcFsSpec (list Z) (demo_procfs admin).
Proof. apply table_procfs_spec. repeat constructor; simpl; lia. Defined.

Lemma tracker_correct_witness :
  exists t w1, PageTableTracker_new (W := list Z) (P := demo_procfs true) true [] = Ret (t, w1) /\
    tracker_physical_address (W := list Z) (P := demo_procfs true) true t 4100 w1 = Ret (Some 36864, w1) /\
    same_physical_page (W := list Z) (P := demo_procfs true) true t 4100 10 w1 = Ret (false, w1).
Proof.
  destruct (@tracker_correct (list Z) (demo_procfs true) (demo_procfs_spec true) [] 4100 10)
    as (t & w1 & _ & H1 & _ & H2 & H3 & _).
  - discriminate.
  - split; [discriminate|reflexivity].
  - split; [discriminate|reflexivity].
  - exists t, w1. split; [exact H1|]. split; [exact H2|exact H3].
Defined.

Lemma unprivileged_tracker_witness :
  same_physical_page (W := list Z) (P := demo_procfs false) true {| pagemap_fd := Some 3 |} 4100 10 [3] = Ret (true, [3]).
Proof.
  refine (proj1 (@unprivileged_tracker (list Z) (demo_procfs false) (demo_procfs_spec false)
    [3] 3 4100 10 (demo_info 9) (demo_info 7) _ _ _ _ _ _ _ _ _ _)).
  - apply list_elem_of_here.
  - split; [discriminate|reflexivity].
  - split; [discriminate|reflexivity].
  - reflexivity.
  - reflexivity.
  - reflexivity.
  - reflexivity.
  - reflexivity.
  - reflexivity.
  - discriminate.
Defined.
