(* ===== verification/Compactor.v ===== *)
(** * Page relocation

    Models aethalloc-vmpc/src/compactor.rs.  Relocation copies the pages of a range to a
    temporary mapping, unmaps them, maps the range anew and copies the bytes back.  The
    wrappers around [mremap] and the cross-process copies turn return values and
    [errno] into results.  [mmap] with [MAP_FIXED], [mremap], the cross-process calls
    and [errno] are parameters, as the other system calls are. *)

From Stdlib Require Import Floats.SpecFloat.
From S2P Require Import Prelude SizeClass Memory Extents Page Metadata PageTable.

(** ** Definitions *)

Inductive CompactError : Type :=
  | InvalidAddress
  | PermissionDenied
  | OutOfMemory
  | CrossProcessFailed
  | Unknown (errno : Z).

Inductive CompactResult : Type :=
  | Success
  | PartialSuccess (pages_moved : Z)
  | Failed (e : CompactError)
  | NoAction.

(** [CompactError::from_errno], of the value of [errno]: EINVAL, ENOMEM, EPERM, EACCES
    and EFAULT. *)
Definition from_errno (errno : Z) : CompactError :=
  if errno =? 22 then InvalidAddress
  else if errno =? 12 then OutOfMemory
  else if errno =? 1 then PermissionDenied
  else if errno =? 13 then PermissionDenied
  else if errno =? 14 then InvalidAddress
  else Unknown errno.

Inductive CompactStrategy : Type :=
  | InPlace
  | Relocate (target_addr : Z)
  | Auto.

Record CompactConfig : Type := {
  utilization_threshold : spec_float;
  min_pages_to_compact : Z;
  max_pages_per_pass : Z;
  strategy : CompactStrategy
}.

Definition CompactConfig_default : CompactConfig :=
  {| utilization_threshold := half_f32; min_pages_to_compact := 2; max_pages_per_pass := 256;
     strategy := Auto |}.

Record Compactor : Type := { config : CompactConfig }.

Definition Compactor_new (c : CompactConfig) : Compactor := {| config := c |}.

Definition Compactor_default : Compactor := Compactor_new CompactConfig_default.

(** [kernel_mmap_fixed m a size] is [mmap(a, size, PROT_READ|PROT_WRITE,
    MAP_PRIVATE|MAP_ANONYMOUS|MAP_FIXED, -1, 0)]: whether it succeeded, and the memory
    after it; [kernel_errno m] is the value of [errno] in that situation. *)
Class FixedKernel : Type := {
  kernel_mmap_fixed : memory -> Z -> Z -> bool * memory;
  kernel_errno : memory -> Z
}.

(** Documented: a fixed mapping replaces what was mapped in its range by zero-filled
    pages and touches nothing else; a failed call touches nothing outside its range;
    [munmap] returns 0 or -1. *)
Class FixedKernelSpec (K : Kernel) (FK : FixedKernel) : Prop := {
  mmap_fixed_spec m a size m' :
    0 < size -> size mod PAGE_SIZE = 0 -> a mod PAGE_SIZE = 0 -> kernel_mmap_fixed m a size = (true, m') ->
    (forall i, a <= i < a + size -> load8 m' i = Some 0) /\
    (forall i, ~ (a <= i < a + size) -> load8 m' i = load8 m i);
  mmap_fixed_fail m a size m' :
    kernel_mmap_fixed m a size = (false, m') ->
    forall i, ~ (a <= i < a + size) -> load8 m' i = load8 m i;
  munmap_ret m a size : (kernel_munmap m a size).1 = 0 \/ (kernel_munmap m a size).1 = -1
}.

Section compactor.
Context `{K : Kernel} `{FK : FixedKernel}.

Definition kernel_unmap (a size : Z) : M memory Z := fun m => Ret (kernel_munmap m a size).

Definition map_fixed (a size : Z) : M memory bool := fun m => Ret (kernel_mmap_fixed m a size).

(** [core::ptr::copy_nonoverlapping]. *)
Definition copy_bytes (src dst size : Z) : M memory unit := fun m =>
  match copy (Z.to_nat size) m src dst with Some m' => Ret (tt, m') | None => Fault end.

(** The configuration of the compactor is not looked at. *)
Definition try_relocate_page (src size : Z) : M memory (CompactResult + CompactError) :=
  if (size =? 0) || negb (size mod PAGE_SIZE =? 0) then mret (inr InvalidAddress)
  else
    m ← getS;
    match kernel_mmap m size with
    | None => mret (inr OutOfMemory)
    | Some (temp_buf, m1) =>
        modifyS (fun _ => m1) ;;
        copy_bytes src temp_buf size ;;
        r ← kernel_unmap src size;
        if r <? 0 then
          restore ← map_fixed src size;
          (if (restore : bool) then copy_bytes temp_buf src size else mret tt) ;;
          kernel_unmap temp_buf size ;;
          e ← gets kernel_errno;
          mret (inr (Unknown e))
        else
          ok ← map_fixed src size;
          if negb ok then
            kernel_unmap temp_buf size ;;
            e ← gets kernel_errno;
            mret (inr (Unknown e))
          else
            copy_bytes temp_buf src size ;;
            kernel_unmap temp_buf size ;;
            mret (inl Success)
    end.

Definition compact_pages (src size : Z) : M memory (CompactResult + CompactError) :=
  try_relocate_page src size.
End compactor.

(** ** The bump kernel with fixed mappings *)

(** Maps at the address when [permits] allows it; a refused call unmaps nothing. *)
Definition bump_mmap_fixed (permits : bool) (m : memory) (a size : Z) : bool * memory :=
  if permits then
    (true, Memory ((a, a + size) :: mem_regions m)
                  (filter (fun kv => ~ (a <= kv.1 < a + size)) (mem_bytes m)))
  else (false, m).

Definition bump_fixed_kernel (permits : bool) : FixedKernel := {|
  kernel_mmap_fixed := bump_mmap_fixed permits;
  kernel_errno := fun _ => 12
|}.

#[global] Instance bump_fixed_kernel_spec permits : FixedKernelSpec bump_kernel (bump_fixed_kernel permits).
Proof.
  constructor.
  - intros m a size m' Hs _ _. simpl. unfold bump_mmap_fixed. destruct permits; [|done].
    intros Hm. injection Hm as <-. split; intros i Hi; unfold load8, mapped; simpl.
    + replace (in_region i _) with true by (unfold in_region; simpl; lia). simpl.
      rewrite map_lookup_filter_None_2; [done|]. right. intros v _ Hn. simpl in Hn. lia.
    + replace (in_region i (a, a + size)) with false by (unfold in_region; simpl; lia). simpl.
      destruct (existsb _ _); [|done]. do 3 f_equal. apply option_eq. intros v.
      rewrite map_lookup_filter_Some. simpl. tauto.
  - intros m a size m'. simpl. unfold bump_mmap_fixed. destruct permits; [done|].
    intros Hm i _. by injection Hm as <-.
  - intros m a size. by left.
Qed.

(** ** Relocation keeps the contents *)

Section relocation.
Context `{K : Kernel} `{FK : FixedKernel} {KS : KernelSpec K} {FKS : FixedKernelSpec K FK}.

Lemma copy_bytes_wp src dst size m (Q : unit -> memory -> Prop) :
  0 <= size -> accessible m src size -> accessible m dst size -> src + size <= dst \/ dst + size <= src ->
  (forall m', (forall i, ~ (dst <= i < dst + size) -> load8 m' i = load8 m i) ->
     (forall j, 0 <= j < size -> load8 m' (dst + j) = load8 m (src + j)) -> Q tt m') ->
  wp (copy_bytes src dst size) Q m.
Proof.
  intros Hs Hsrc Hdst Hd HQ. destruct (copy_spec (Z.to_nat size) m src dst) as (m' & Hc & Hch & Hv);
    rewrite ?Z2Nat.id by lia; [done..|]. rewrite Z2Nat.id in Hch, Hv by lia.
  exists tt, m'. unfold copy_bytes. rewrite Hc. split; [done|]. apply HQ; [apply Hch|done].
Qed.

Lemma kernel_unmap_wp a size m (Q : Z -> memory -> Prop) :
  0 < size -> size mod PAGE_SIZE = 0 -> a mod PAGE_SIZE = 0 ->
  (forall r m', (r = 0 \/ r = -1) -> (forall i, ~ (a <= i < a + size) -> load8 m' i = load8 m i) ->
     (forall i, a <= i < a + size -> load8 m' i = if r =? 0 then None else load8 m i) ->
     r = (kernel_munmap m a size).1 -> Q r m') ->
  wp (kernel_unmap a size) Q m.
Proof.
  intros Hs Hm Ha HQ. destruct (munmap_spec m a size Hs Hm Ha) as [Hout Hin].
  exists (kernel_munmap m a size).1, (kernel_munmap m a size).2.
  split; [unfold kernel_unmap; by destruct (kernel_munmap m a size)|].
  apply HQ; [apply munmap_ret|done|done|done].
Qed.

Lemma map_fixed_wp a size m (Q : bool -> memory -> Prop) :
  0 < size -> size mod PAGE_SIZE = 0 -> a mod PAGE_SIZE = 0 ->
  (forall (r : bool) m', (forall i, ~ (a <= i < a + size) -> load8 m' i = load8 m i) ->
     (r = true -> forall i, a <= i < a + size -> load8 m' i = Some 0) ->
     r = (kernel_mmap_fixed m a size).1 -> Q r m') ->
  wp (map_fixed a size) Q m.
Proof.
  intros Hs Hm Ha HQ. destruct (kernel_mmap_fixed m a size) as [[|] m'] eqn:Hk.
  - destruct (mmap_fixed_spec m a size m' Hs Hm Ha Hk) as [Hin Hout]. exists true, m'.
    split; [unfold map_fixed; by rewrite Hk|]. by apply HQ.
  - exists false, m'. split; [unfold map_fixed; by rewrite Hk|]. apply HQ; [|done|done].
    by apply mmap_fixed_fail.
Qed.

(** The copy back from the buffer, when the range is mapped anew. *)
Lemma copy_back_wp m m3 src tmp size (r : bool) m4 (Q : unit -> memory -> Prop) :
  0 <= size -> accessible m src size -> src + size <= tmp \/ tmp + size <= src ->
  (forall j, 0 <= j < size -> load8 m3 (tmp + j) = load8 m (src + j)) ->
  (forall i, ~ (src <= i < src + size) -> load8 m4 i = load8 m3 i) ->
  (r = true -> forall i, src <= i < src + size -> load8 m4 i = Some 0) ->
  (forall m5, (forall i, ~ (src <= i < src + size) -> load8 m5 i = load8 m3 i) ->
     (r = true -> forall i, src <= i < src + size -> load8 m5 i = load8 m i) -> Q tt m5) ->
  wp (if r then copy_bytes tmp src size else mret tt) Q m4.
Proof.
  intros Hsz Hacc Hap Htmp3 H1 H2 HQ. destruct r; [|apply wp_ret; by apply HQ].
  apply copy_bytes_wp; [lia| | |lia|].
  - intros i Hi. rewrite H1 by lia. replace i with (tmp + (i - tmp)) by lia. rewrite Htmp3 by lia. apply Hacc. lia.
  - intros i Hi. rewrite H2 by done. eauto.
  - intros m5 H3 H4. apply HQ; [intros i Hi; rewrite H3 by done; by apply H1|]. intros _ i Hi.
    replace i with (src + (i - src)) by lia. rewrite H4, H1, Htmp3 by lia. done.
Qed.

(** What the memory holds once the buffer is gone, [r] saying whether the bytes of the
    range are back. *)
Lemma relocated m m3 src tmp size :
  (forall i, is_Some (load8 m i) -> ~ (tmp <= i < tmp + size)) ->
  (forall i, ~ (tmp <= i < tmp + size) -> ~ (src <= i < src + size) -> load8 m3 i = load8 m i) ->
  forall (r : bool) m5 m6,
  (forall i, ~ (src <= i < src + size) -> load8 m5 i = load8 m3 i) ->
  (r = true -> forall i, src <= i < src + size -> load8 m5 i = load8 m i) ->
  (forall i, ~ (tmp <= i < tmp + size) -> load8 m6 i = load8 m5 i) ->
  (forall i, is_Some (load8 m i) -> ~ (src <= i < src + size) -> load8 m6 i = load8 m i) /\
  (r = true -> mem_extends m m6).
Proof.
  intros Hfresh Hrest3 r m5 m6 H1 H2 H3. split.
  - intros i Hi Hi2. rewrite H3, H1, Hrest3 by auto. done.
  - intros -> i Hi. rewrite H3 by auto. destruct (decide (src <= i < src + size)); [by apply H2|].
    rewrite H1, Hrest3 by auto. done.
Qed.

(** What relocation promises; [fixed_ok] says that fixed mappings do not fail. *)
Definition relocate_post (m : memory) (src size : Z) (r : CompactResult + CompactError) (m' : memory) : Prop :=
  (forall i, is_Some (load8 m i) -> ~ (src <= i < src + size) -> load8 m' i = load8 m i) /\
  ((forall m a n, (kernel_mmap_fixed m a n).1 = true) -> mem_extends m m') /\
  match r with
  | inl Success => mem_extends m m' /\ ((forall a b n, (kernel_munmap a b n).1 = 0) -> m' ≡ m)
  | inr InvalidAddress => m' = m /\ (size = 0 \/ size mod PAGE_SIZE <> 0)
  | inr OutOfMemory => m' = m /\ kernel_mmap m size = None
  | inr (Unknown _) => True
  | _ => False
  end.

(** The second half of relocation, from the result of the first [munmap] on: [m3] is the
    memory after it, with the copy in the buffer. *)
Lemma relocate_rest_wp m m1 m3 src size tmp r :
  0 < src -> src mod PAGE_SIZE = 0 -> 0 < size -> size mod PAGE_SIZE = 0 -> accessible m src size ->
  tmp mod PAGE_SIZE = 0 -> src + size <= tmp \/ tmp + size <= src ->
  (forall i, tmp <= i < tmp + size -> load8 m i = None /\ load8 m1 i = Some 0) ->
  (forall j, 0 <= j < size -> load8 m3 (tmp + j) = load8 m (src + j)) ->
  (forall i, ~ (tmp <= i < tmp + size) -> ~ (src <= i < src + size) -> load8 m3 i = load8 m i) ->
  wp (if r <? 0 then
        restore ← map_fixed src size;
        (if (restore : bool) then copy_bytes tmp src size else mret tt) ;;
        kernel_unmap tmp size ;;
        e ← gets kernel_errno;
        mret (inr (Unknown e))
      else
        ok ← map_fixed src size;
        if negb ok then
          kernel_unmap tmp size ;;
          e ← gets kernel_errno;
          mret (inr (Unknown e))
        else
          copy_bytes tmp src size ;;
          kernel_unmap tmp size ;;
          mret (inl Success))
    (relocate_post m src size) m3.
Proof.
  intros Hsrc Hal Hsz Hm Hacc Hta Hap Hnew Htmp3 Hrest3.
  assert (Hfresh : forall i, is_Some (load8 m i) -> ~ (tmp <= i < tmp + size)).
  { intros i [v Hv] Hi. destruct (Hnew i Hi) as [Hn _]. congruence. }
  destruct (Z.ltb_spec r 0) as [Hneg|Hpos].
  - apply wp_bind. apply map_fixed_wp; [lia|done|done|]. intros ok m4 Hf1 Hf2 Hok.
    apply wp_bind. apply (copy_back_wp m m3 src tmp size); [lia|done..|]. intros m5 Hb1 Hb2. apply wp_bind.
    apply kernel_unmap_wp; [lia|done|done|]. intros r' m6 _ Hv1 _ _. apply wp_bind, wp_gets. apply wp_ret.
    destruct (relocated m m3 src tmp size Hfresh Hrest3 ok m5 m6 Hb1 Hb2 Hv1) as [He1 He2]. split; [done|]. split; [|done].
    intros Hall. apply He2. by rewrite Hok.
  - apply wp_bind. apply map_fixed_wp; [lia|done|done|]. intros ok m4 Hf1 Hf2 Hok.
    destruct ok; simpl negb; cbv iota.
    + apply wp_bind. apply (copy_back_wp m m3 src tmp size true); [lia|done..|]. intros m5 Hb1 Hb2. apply wp_bind.
      apply kernel_unmap_wp; [lia|done|done|]. intros r' m6 _ Hv1 Hv2 Hr'. apply wp_ret.
      destruct (relocated m m3 src tmp size Hfresh Hrest3 true m5 m6 Hb1 Hb2 Hv1) as [He1 He2]. split; [done|]. split; [by intros _; apply He2|].
      split; [by apply He2|]. intros Hun i. destruct (decide (tmp <= i < tmp + size)) as [Hi|Hi].
      * rewrite Hv2 by done. rewrite Hr', Hun. simpl. symmetry. by apply Hnew.
      * rewrite Hv1 by done. destruct (decide (src <= i < src + size)); [by apply Hb2|].
        rewrite Hb1, Hrest3 by done. done.
    + apply wp_bind. apply kernel_unmap_wp; [lia|done|done|]. intros r' m6 _ Hv1 _ _.
      apply wp_bind, wp_gets. apply wp_ret. destruct (relocated m m3 src tmp size Hfresh Hrest3 false m4 m6 Hf1 ltac:(done) Hv1) as [He1 _].
      split; [done|]. split; [|done]. intros Hall. by rewrite Hall in Hok.
Qed.

(** C36: relocating a mapped, page-aligned range never touches a byte of another
    mapping; it refuses sizes that are not a positive number of pages and gives up
    without any change when no buffer can be mapped; when it reports success every byte
    has its old value again and, the buffer being unmapped, the memory is as before; as
    long as fixed mappings do not fail the contents survive the error paths too. *)
Theorem relocate_correct m src size :
  0 < src -> src mod PAGE_SIZE = 0 -> 0 <= size -> accessible m src size ->
  exists r m', try_relocate_page src size m = Ret (r, m') /\ relocate_post m src size r m'.
Proof.
  intros Hsrc Hal Hsz Hacc. change (wp (try_relocate_page src size) (relocate_post m src size) m).
  unfold try_relocate_page. destruct (Z.eqb_spec size 0) as [->|Hne].
  { apply wp_ret. split; [done|]. split; [by intros _ i _|]. split; [done|by left]. }
  destruct (Z.eqb_spec (size mod PAGE_SIZE) 0) as [Hm|Hm]; simpl orb; cbv iota.
  2:{ apply wp_ret. split; [done|]. split; [by intros _ i _|]. split; [done|by right]. }
  apply wp_bind, wp_gets. destruct (kernel_mmap m size) as [[tmp m1]|] eqn:Hk; cycle 1.
  { apply wp_ret. split; [done|]. split; [by intros _ i _|]. done. }
  destruct (mmap_spec m size tmp m1 ltac:(lia) Hm Hk) as (Ht0 & Hta & _ & Hnew & Hold).
  assert (Hap : src + size <= tmp \/ tmp + size <= src).
  { destruct (decide (src + size <= tmp)); [by left|]. destruct (decide (tmp + size <= src)); [by right|].
    exfalso. destruct (Hacc (Z.max src tmp)) as [v Hv]; [lia|]. destruct (Hnew (Z.max src tmp)) as [Hn _]; [lia|].
    congruence. }
  apply wp_bind, wp_modify. apply wp_bind. apply copy_bytes_wp; [lia| | |done|].
  { intros i Hi. rewrite Hold by lia. by apply Hacc. }
  { intros i Hi. rewrite (proj2 (Hnew i Hi)). eauto. }
  intros m2 Hc1 Hc2.
  assert (Hcopy : forall j, 0 <= j < size -> load8 m2 (tmp + j) = load8 m (src + j)).
  { intros j Hj. rewrite Hc2 by done. apply Hold. lia. }
  assert (Hrest : forall i, ~ (tmp <= i < tmp + size) -> load8 m2 i = load8 m i).
  { intros i Hi. rewrite Hc1 by done. by apply Hold. }
  apply wp_bind. apply kernel_unmap_wp; [lia|done|done|]. intros r m3 Hr Hu1 Hu2 _.
  apply (relocate_rest_wp m m1 m3 src size tmp); [done|done|lia|done|done|done|done|done| |].
  - intros j Hj. rewrite Hu1 by lia. by apply Hcopy.
  - intros i Hi1 Hi2. rewrite Hu1 by done. by apply Hrest.
Qed.
End relocation.

(** ** Instances *)

(** Two pages, the first byte of which is 7. *)
Definition demo_pages : memory := Memory [(65536, 73728)] {[65536 := 7]}.

Lemma demo_pages_accessible : accessible demo_pages 65536 8192.
Proof.
  intros i Hi. apply load8_mapped. unfold mapped. simpl. unfold in_region. simpl. lia.
Qed.

Lemma relocate_correct_witness :
  exists r m', try_relocate_page (K := bump_kernel) (FK := bump_fixed_kernel true) 65536 8192 demo_pages = Ret (r, m') /\
    relocate_post (K := bump_kernel) (FK := bump_fixed_kernel true) demo_pages 65536 8192 r m'.
Proof.
  apply (relocate_correct (K := bump_kernel) (FK := bump_fixed_kernel true) demo_pages 65536 8192).
  - reflexivity.
  - reflexivity.
  - discriminate.
  - exact demo_pages_accessible.
Defined.

(** When the new mapping fails after the pages were unmapped, relocation unmaps the
    buffer that holds the only copy: the contents are lost. *)
Theorem relocate_loses_pages :
  exists e m', load8 demo_pages 65536 = Some 7 /\
    try_relocate_page (K := bump_kernel) (FK := bump_fixed_kernel false) 65536 4096 demo_pages = Ret (inr e, m') /\
    load8 m' 65536 = None /\ load8 m' 73728 = None.
Proof.
  assert (Hc : match try_relocate_page (K := bump_kernel) (FK := bump_fixed_kernel false) 65536 4096 demo_pages with
    | Ret (inr e, m') => Some (load8 m' 65536, load8 m' 73728) | _ => None end = Some (None, None))
    by (vm_compute; reflexivity).
  destruct (try_relocate_page 65536 4096 demo_pages) as [[[r|e] m']| | |]; try discriminate Hc.
  injection Hc as H1 H2. exists e, m'. split; [reflexivity|]. split; [reflexivity|]. split; [exact H1|exact H2].
Qed.

(** By the default configuration a page is sparse when less than half of it is in use. *)
Lemma default_sparse p a :
  0 <= a <= PAGE_SIZE ->
  is_sparse {| page_addr := p; allocated_bytes := a; total_bytes := PAGE_SIZE |}
    (utilization_threshold (config Compactor_default)) = (2 * a <? PAGE_SIZE).
Proof. intros Ha. apply (page_utilization p a Ha). Qed.

(** ** Moving and resizing a mapping *)

Definition MAP_FAILED : Z := 2 ^ 64 - 1.
Definition MREMAP_MAYMOVE : Z := 1.
Definition MREMAP_FIXED : Z := 2.

(** [kernel_mremap m old_addr old_size new_size flags new_addr]. *)
Class Remap : Type := {
  kernel_mremap : memory -> Z -> Z -> Z -> Z -> Z -> Z * memory
}.

Definition mremap_wrapper `{FK : FixedKernel} `{R : Remap} (old_addr old_size new_size flags : Z)
    (new_addr : option Z) : M memory (Z + CompactError) :=
  result ← (fun m => Ret match new_addr with
    | Some addr => kernel_mremap m old_addr old_size new_size (Z.lor flags MREMAP_FIXED) addr
    | None => kernel_mremap m old_addr old_size new_size flags 0
    end);
  if result =? MAP_FAILED then
    errno ← gets kernel_errno;
    mret (inr (from_errno errno))
  else mret (inl result).

Definition has_flag (flags f : Z) : Prop := Z.land flags f <> 0.

(** Documented: a call that succeeds gives the address of a mapping of [new_size] bytes
    that begins with the old contents and continues with zeroes, at [new_addr] with
    MREMAP_FIXED, in place without MREMAP_MAYMOVE, else over no other mapping; what is
    left over of the old range is unmapped, all else unchanged.  A call that fails
    leaves the old mapping, and MREMAP_FIXED without MREMAP_MAYMOVE is EINVAL. *)
Class RemapSpec (FK : FixedKernel) (R : Remap) : Prop := {
  mremap_moved m a o n f na p m' :
    0 < o -> 0 < n -> a mod PAGE_SIZE = 0 -> accessible m a o ->
    kernel_mremap m a o n f na = (p, m') -> p <> MAP_FAILED ->
    (forall j, 0 <= j < Z.min o n -> load8 m' (p + j) = load8 m (a + j)) /\
    (forall j, Z.min o n <= j < n -> load8 m' (p + j) = Some 0) /\
    (forall i, ~ (a <= i < a + o) -> ~ (p <= i < p + n) -> load8 m' i = load8 m i) /\
    (forall i, a <= i < a + o -> ~ (p <= i < p + n) -> load8 m' i = None);
  mremap_place m a o n f na p m' :
    kernel_mremap m a o n f na = (p, m') -> p <> MAP_FAILED ->
    (has_flag f MREMAP_FIXED -> p = na) /\
    (~ has_flag f MREMAP_MAYMOVE -> p = a) /\
    (~ has_flag f MREMAP_FIXED -> forall i, p <= i < p + n -> ~ (a <= i < a + o) -> load8 m i = None);
  mremap_failed m a o n f na m' :
    kernel_mremap m a o n f na = (MAP_FAILED, m') ->
    forall i, ~ has_flag f MREMAP_FIXED \/ ~ (na <= i < na + n) -> load8 m' i = load8 m i;
  mremap_fixed_stays m a o n f na :
    has_flag f MREMAP_FIXED -> ~ has_flag f MREMAP_MAYMOVE ->
    (kernel_mremap m a o n f na).1 = MAP_FAILED /\ kernel_errno (kernel_mremap m a o n f na).2 = 22
}.

Lemma has_fixed f : has_flag (Z.lor f MREMAP_FIXED) MREMAP_FIXED.
Proof.
  unfold has_flag. rewrite Z.land_lor_distr_l. change (Z.land MREMAP_FIXED MREMAP_FIXED) with 2.
  intros H. by apply Z.lor_eq_0_iff in H as [_ H].
Qed.

Lemma has_maymove f : has_flag (Z.lor f MREMAP_FIXED) MREMAP_MAYMOVE <-> has_flag f MREMAP_MAYMOVE.
Proof. unfold has_flag. rewrite Z.land_lor_distr_l. change (Z.land MREMAP_FIXED MREMAP_MAYMOVE) with 0. by rewrite Z.lor_0_r. Qed.

(** The byte [i] is in the range the caller gave up for the new mapping. *)
Definition given_up (new_addr : option Z) (new_size i : Z) : Prop :=
  match new_addr with Some x => x <= i < x + new_size | None => False end.

(** What the wrapper promises of the call from [m]. *)
Definition mremap_post (m : memory) (a o n : Z) (new_addr : option Z) (r : Z + CompactError) (m' : memory) : Prop :=
  match r with
  | inl p =>
      (forall j, 0 <= j < Z.min o n -> load8 m' (p + j) = load8 m (a + j)) /\
      (forall j, Z.min o n <= j < n -> load8 m' (p + j) = Some 0) /\
      (forall i, is_Some (load8 m i) -> ~ (a <= i < a + o) -> ~ given_up new_addr n i -> load8 m' i = load8 m i) /\
      match new_addr with Some x => p = x | None => True end
  | inr e => forall i, ~ given_up new_addr n i -> load8 m' i = load8 m i
  end.

Section remapping.
Context `{FK : FixedKernel} `{R : Remap} {RS : RemapSpec FK R}.

(** The wrapper keeps the contents when it moves or resizes a mapping and touches no
    other one, but for the range it was asked to move to; an error leaves the mapping
    as it was.  A fixed target without MREMAP_MAYMOVE is always an invalid address. *)
Theorem mremap_wrapper_correct m a o n flags new_addr :
  0 < o -> 0 < n -> a mod PAGE_SIZE = 0 -> accessible m a o -> ~ has_flag flags MREMAP_FIXED ->
  exists r m', mremap_wrapper a o n flags new_addr m = Ret (r, m') /\ mremap_post m a o n new_addr r m' /\
    (is_Some new_addr -> ~ has_flag flags MREMAP_MAYMOVE -> r = inr InvalidAddress).
Proof.
  intros Ho Hn Ha Hacc Hnf. unfold mremap_wrapper. run_m.
  set (f := match new_addr with Some _ => Z.lor flags MREMAP_FIXED | None => flags end).
  set (na := default 0 new_addr).
  replace (match new_addr with Some _ => _ | None => _ end) with (kernel_mremap m a o n f na) by (by destruct new_addr).
  destruct (kernel_mremap m a o n f na) as [p m'] eqn:Hk. simpl.
  assert (Hfix : has_flag f MREMAP_FIXED <-> is_Some new_addr).
  { subst f. destruct new_addr; [split; [by eauto|intros _; apply has_fixed]|]. split; [done|by intros [? ?]]. }
  destruct (Z.eqb_spec p MAP_FAILED) as [->|Hp]; do 2 eexists; (split; [reflexivity|]).
  - split.
    + intros i Hi. apply (mremap_failed _ _ _ _ _ _ _ Hk). destruct new_addr as [x|]; [right; exact Hi|].
      left. by rewrite Hfix; intros [? ?].
    + intros Hs Hm. destruct (mremap_fixed_stays m a o n f na) as [_ He]; [by apply Hfix| |by rewrite Hk in He; simpl in He; rewrite He].
      destruct Hs as [x ->]. subst f. by rewrite has_maymove.
  - destruct (mremap_moved _ _ _ _ _ _ _ _ Ho Hn Ha Hacc Hk Hp) as (H1 & H2 & H3 & _).
    destruct (mremap_place _ _ _ _ _ _ _ _ Hk Hp) as (Hp1 & _ & Hp3). split.
    + simpl. split; [done|]. split; [done|]. split.
      * intros i Hi Hi1 Hi2. apply H3; [done|]. intros Hi3. destruct new_addr as [x|]; simpl in Hi2.
        -- assert (p = x) as -> by (apply Hp1; by apply Hfix). done.
        -- rewrite (Hp3 ltac:(by rewrite Hfix; intros [? ?]) i Hi3 Hi1) in Hi. by destruct Hi.
      * destruct new_addr as [x|]; [|done]. apply Hp1. by apply Hfix.
    + intros Hs Hm. destruct (mremap_fixed_stays m a o n f na) as [He _]; [by apply Hfix| |by rewrite Hk in He].
      destruct Hs as [x ->]. subst f. by rewrite has_maymove.
Qed.
End remapping.

(** ** Copies between processes *)

Record iovec : Type := { iov_base : Z; iov_len : Z }.

Definition make_iovec (buf : slice) : iovec := {| iov_base := sl_ptr buf; iov_len := sl_len buf |}.

Definition make_iovec_mut (buf : slice) : iovec := {| iov_base := sl_ptr buf; iov_len := sl_len buf |}.

(** The memories of this process and of the others by their numbers, and [errno]. *)
Record vm_state : Type := {
  vm_local : memory;
  vm_remote : Z -> memory;
  vm_errno : Z
}.

Class CrossProcess : Type := {
  sys_process_vm_writev : vm_state -> Z -> list iovec -> list iovec -> Z -> Z * vm_state;
  sys_process_vm_readv : vm_state -> Z -> list iovec -> list iovec -> Z -> Z * vm_state
}.

Section cross_process.
Context `{C : CrossProcess}.

Definition process_vm_writev (pid : Z) (local_iov remote_iov : list iovec) : M vm_state (Z + CompactError) :=
  result ← (fun w => Ret (sys_process_vm_writev w pid local_iov remote_iov 0));
  if result <? 0 then
    errno ← gets vm_errno;
    mret (inr (from_errno errno))
  else mret (inl result).

Definition process_vm_readv (pid : Z) (local_iov remote_iov : list iovec) : M vm_state (Z + CompactError) :=
  result ← (fun w => Ret (sys_process_vm_readv w pid local_iov remote_iov 0));
  if result <? 0 then
    errno ← gets vm_errno;
    mret (inr (from_errno errno))
  else mret (inl result).
End cross_process.

(** The addresses a vector of buffers stands for, in order. *)
Definition iov_addrs (l : list iovec) : list Z :=
  l ≫= (fun v => (fun k => iov_base v + k) <$> seqZ 0 (iov_len v)).

(** [n] bytes went from the addresses [src] of [m] to the addresses [dst] of [d], which
    became [d'], and nothing else changed there. *)
Definition transferred (m d d' : memory) (src dst : list Z) (n : Z) : Prop :=
  (forall k a b, Z.of_nat k < n -> src !! k = Some a -> dst !! k = Some b -> load8 d' b = load8 m a) /\
  (forall i, i ∉ dst -> load8 d' i = load8 d i).

(** Documented: both calls transfer some number of bytes, in the order of the vectors,
    no more than either holds, and return it, or return -1.  Stated for buffers of
    distinct addresses. *)
Class CrossProcessSpec (C : CrossProcess) : Prop := {
  writev_spec w pid l r n w' :
    NoDup (iov_addrs r) -> sys_process_vm_writev w pid l r 0 = (n, w') -> 0 <= n ->
    n <= Z.of_nat (length (iov_addrs l)) /\ n <= Z.of_nat (length (iov_addrs r)) /\
    vm_local w' = vm_local w /\
    transferred (vm_local w) (vm_remote w pid) (vm_remote w' pid) (iov_addrs l) (iov_addrs r) n;
  readv_spec w pid l r n w' :
    NoDup (iov_addrs l) -> sys_process_vm_readv w pid l r 0 = (n, w') -> 0 <= n ->
    n <= Z.of_nat (length (iov_addrs l)) /\ n <= Z.of_nat (length (iov_addrs r)) /\
    vm_remote w' pid = vm_remote w pid /\
    transferred (vm_remote w pid) (vm_local w) (vm_local w') (iov_addrs r) (iov_addrs l) n
}.

Lemma iov_addrs_single v : iov_addrs [v] = (fun k => iov_base v + k) <$> seqZ 0 (iov_len v).
Proof. unfold iov_addrs. simpl. by rewrite app_nil_r. Qed.

Lemma iov_addrs_lookup v k : 0 <= k < iov_len v -> iov_addrs [v] !! Z.to_nat k = Some (iov_base v + k).
Proof.
  intros Hk. rewrite iov_addrs_single, list_lookup_fmap.
  rewrite (lookup_seqZ_lt 0 (iov_len v) (Z.to_nat k)) by lia. simpl. f_equal. lia.
Qed.

Lemma iov_addrs_length v : 0 <= iov_len v -> Z.of_nat (length (iov_addrs [v])) = iov_len v.
Proof. intros Hv. rewrite iov_addrs_single, length_fmap, length_seqZ. lia. Qed.

Lemma iov_addrs_NoDup v : NoDup (iov_addrs [v]).
Proof.
  rewrite iov_addrs_single. apply NoDup_fmap_2_strong; [intros x y _ _; lia|]. apply NoDup_seqZ.
Qed.

Section copies.
Context `{C : CrossProcess} {CS : CrossProcessSpec C}.

(** What is written to another process and read back is what was there: after a write
    of [n] bytes of [src] and a read of [k] bytes into another buffer, that buffer
    begins with the common part. *)
Theorem cross_process_copy w pid src dst remote n w1 k w2 :
  0 <= sl_len src -> 0 <= sl_len dst -> 0 <= iov_len remote ->
  sl_ptr src + sl_len src <= sl_ptr dst \/ sl_ptr dst + sl_len dst <= sl_ptr src ->
  process_vm_writev pid [make_iovec src] [remote] w = Ret (inl n, w1) ->
  process_vm_readv pid [make_iovec_mut dst] [remote] w1 = Ret (inl k, w2) ->
  n <= Z.min (sl_len src) (iov_len remote) /\ k <= Z.min (sl_len dst) (iov_len remote) /\
  (forall j, 0 <= j < Z.min n k -> load8 (vm_local w2) (sl_ptr dst + j) = load8 (vm_local w2) (sl_ptr src + j)) /\
  (forall j, 0 <= j < sl_len src -> load8 (vm_local w2) (sl_ptr src + j) = load8 (vm_local w) (sl_ptr src + j)).
Proof.
  intros Hs Hd Hr Hap. unfold process_vm_writev, process_vm_readv. run_m.
  destruct (sys_process_vm_writev w pid [make_iovec src] [remote] 0) as [n' w1'] eqn:Hw.
  destruct (Z.ltb_spec n' 0) as [|Hn]; [intros [=]|]. intros [= -> ->].
  destruct (sys_process_vm_readv w1 pid [make_iovec_mut dst] [remote] 0) as [k' w2'] eqn:Hk.
  destruct (Z.ltb_spec k' 0) as [|Hk0]; [intros [=]|]. intros [= -> ->].
  destruct (writev_spec _ _ _ _ _ _ (iov_addrs_NoDup remote) Hw Hn) as (Hn1 & Hn2 & Hloc & Hput & _).
  destruct (readv_spec _ _ _ _ _ _ (iov_addrs_NoDup (make_iovec_mut dst)) Hk Hk0) as (Hk1 & Hk2 & _ & Hget & Hkeep).
  rewrite !iov_addrs_length in Hn1, Hn2, Hk1, Hk2 by done. simpl iov_len in Hn1, Hk1.
  split; [lia|]. split; [lia|].
  assert (Hsrc : forall j, 0 <= j < sl_len src -> load8 (vm_local w2) (sl_ptr src + j) = load8 (vm_local w) (sl_ptr src + j)).
  { intros j Hj. rewrite Hkeep, Hloc; [done|]. rewrite iov_addrs_single, list_elem_of_fmap. simpl.
    intros (x & Hx & Hin). apply elem_of_seqZ in Hin. lia. }
  split; [|done]. intros j Hj. rewrite Hsrc by lia.
  rewrite (Hget (Z.to_nat j) (iov_base remote + j) (sl_ptr dst + j)); [|lia|apply iov_addrs_lookup; lia|].
  2:{ apply (iov_addrs_lookup (make_iovec_mut dst)). simpl. lia. }
  apply (Hput (Z.to_nat j)); [lia| |apply iov_addrs_lookup; lia].
  apply (iov_addrs_lookup (make_iovec src)). simpl. lia.
Qed.
End copies.
