(* ===== verification/Text.v ===== *)
(** * Text

    Strings of the Rust standard library as the metrics exporter uses them: a [String]
    is the list of its bytes, a [str] that is looked into the list of its characters.
    Holds decimal printing and parsing of integers, UTF-8 decoding, [lines],
    [split_whitespace] and the format [{:.2}] of floating-point numbers. *)

From Stdlib Require Import Ascii String Floats.SpecFloat.
From S2P Require Import Prelude.

Definition text : Type := list Z.

(** The bytes of a literal. *)
Fixpoint bytes (s : string) : text :=
  match s with
  | EmptyString => []
  | String c s' => Z.of_N (N_of_ascii c) :: bytes s'
  end.

Definition LF : text := [10].
Definition CRLF : text := [13; 10].

(** ** Decimal integers *)

(** The digits of [n] in front of [acc]; the fuel is at least their number. *)
Fixpoint dec_loop (fuel : nat) (n : Z) (acc : text) : text :=
  match fuel with
  | O => acc
  | S fuel' =>
      let acc' := (48 + n mod 10) :: acc in
      if n <? 10 then acc' else dec_loop fuel' (n / 10) acc'
  end.

(** [{}] of an unsigned integer. *)
Definition dec (n : Z) : text := dec_loop (S (Z.to_nat (Z.log2 n))) n [].

Definition is_digit (c : Z) : bool := (48 <=? c) && (c <=? 57).

(** Digits after [acc], of a number below [bound]: what [from_str_radix] folds. *)
Fixpoint parse_digits (bound acc : Z) (s : text) : option Z :=
  match s with
  | [] => Some acc
  | c :: s' =>
      if is_digit c && (acc * 10 + (c - 48) <? bound)
      then parse_digits bound (acc * 10 + (c - 48)) s'
      else None
  end.

(** [str::parse] to an unsigned type below [bound]: one [+] may lead. *)
Definition parse_unsigned (bound : Z) (s : text) : option Z :=
  match s with
  | [] => None
  | 43 :: s' => match s' with [] => None | _ => parse_digits bound 0 s' end
  | _ => parse_digits bound 0 s
  end.

Definition parse_u16 : text -> option Z := parse_unsigned (2 ^ 16).

(** ** UTF-8 *)

Definition in_range (lo hi b : Z) : bool := (lo <=? b) && (b <=? hi).

Definition is_cont : Z -> bool := in_range 128 191.

(** The second bytes allowed after a first byte of three or of four. *)
Definition second_of_3 (b0 b1 : Z) : bool :=
  if b0 =? 224 then in_range 160 191 b1 else if b0 =? 237 then in_range 128 159 b1 else is_cont b1.

Definition second_of_4 (b0 b1 : Z) : bool :=
  if b0 =? 240 then in_range 144 191 b1 else if b0 =? 244 then in_range 128 143 b1 else is_cont b1.

(** [std::str::from_utf8], with the characters. *)
Fixpoint utf8_decode (s : text) : option text :=
  match s with
  | [] => Some []
  | b0 :: s1 =>
      if b0 <? 128 then cons b0 <$> utf8_decode s1
      else
        match s1 with
        | [] => None
        | b1 :: s2 =>
            if in_range 194 223 b0 then
              if is_cont b1 then cons ((b0 - 192) * 64 + (b1 - 128)) <$> utf8_decode s2 else None
            else
              match s2 with
              | [] => None
              | b2 :: s3 =>
                  if in_range 224 239 b0 then
                    if second_of_3 b0 b1 && is_cont b2
                    then cons ((b0 - 224) * 4096 + (b1 - 128) * 64 + (b2 - 128)) <$> utf8_decode s3
                    else None
                  else
                    match s3 with
                    | [] => None
                    | b3 :: s4 =>
                        if in_range 240 244 b0 && second_of_4 b0 b1 && is_cont b2 && is_cont b3
                        then cons ((b0 - 240) * 262144 + (b1 - 128) * 4096 + (b2 - 128) * 64 + (b3 - 128))
                               <$> utf8_decode s4
                        else None
                    end
              end
        end
  end.

(** ** Lines and words *)

(** The characters before the first line feed, and whether there was one. *)
Fixpoint take_line (s : text) : text * bool :=
  match s with
  | [] => ([], false)
  | c :: s' => if c =? 10 then ([], true) else let r := take_line s' in (c :: r.1, r.2)
  end.

(** [s.lines().next().unwrap_or("")]: a carriage return before the line feed goes too. *)
Definition first_line (s : text) : text :=
  let r := take_line s in
  if r.2 then match last r.1 with Some 13 => removelast r.1 | _ => r.1 end else r.1.

(** [char::is_whitespace]: the White_Space property of Unicode. *)
Definition is_whitespace (c : Z) : bool :=
  (c =? 32) || in_range 9 13 c || (c =? 0x85) || (c =? 0xA0) || (c =? 0x1680) || in_range 0x2000 0x200A c ||
  (c =? 0x2028) || (c =? 0x2029) || (c =? 0x202F) || (c =? 0x205F) || (c =? 0x3000).

(** A word, unless it is empty, in front of others. *)
Definition add_word (w : text) (ws : list text) : list text :=
  match w with [] => ws | _ => w :: ws end.

(** [split_whitespace] of [s], [w] being the part of a word already read. *)
Fixpoint split_words (w s : text) : list text :=
  match s with
  | [] => add_word w []
  | c :: s' => if is_whitespace c then add_word w (split_words [] s') else split_words (w ++ [c]) s'
  end.

Definition split_whitespace (s : text) : list text := split_words [] s.

(** ** Floating-point numbers: [f64] is the binary format of precision 53 *)

Definition f64_of (u : Z) : spec_float := binary_normalize 53 1024 u 0 false.

(** [n / d] rounded to the nearest integer, ties to even. *)
Definition div_even (n d : Z) : Z :=
  let q := n / d in
  let r := 2 * (n mod d) in
  if (d <? r) || ((r =? d) && Z.odd q) then q + 1 else q.

(** Hundredths of [m * 2 ^ e]. *)
Definition hundredths (m : positive) (e : Z) : Z :=
  if e <? 0 then div_even (Z.pos m * 100) (2 ^ (- e)) else Z.pos m * 2 ^ e * 100.

(** [{:.2}]. *)
Definition fmt_fixed2 (x : spec_float) : text :=
  let sign (s : bool) := if s then bytes "-" else [] in
  let cents (c : Z) := dec (c / 100) ++ bytes "." ++ [48 + c / 10 mod 10; 48 + c mod 10] in
  match x with
  | S754_nan => bytes "NaN"
  | S754_infinity s => sign s ++ bytes "inf"
  | S754_zero s => sign s ++ cents 0
  | S754_finite s m e => sign s ++ cents (hundredths m e)
  end.

Example fmt_examples :
  fmt_fixed2 (SFdiv 53 1024 (f64_of 2) (f64_of 3)) = bytes "0.67" /\
  fmt_fixed2 (SFdiv 53 1024 (f64_of 1) (f64_of 8)) = bytes "0.12" /\
  fmt_fixed2 (f64_of (2 ^ 70)) = bytes "1180591620717411303424.00" /\
  utf8_decode [226; 130; 172; 71] = Some [0x20AC; 71] /\
  split_whitespace (bytes " GET  /metrics ") = [bytes "GET"; bytes "/metrics"] /\
  parse_u16 (bytes "+9091") = Some 9091 /\ parse_u16 (bytes "65536") = None.
Proof. vm_compute. done. Qed.

(** ** Printing and parsing integers *)

Lemma dec_loop_app fuel n acc : dec_loop fuel n acc = dec_loop fuel n [] ++ acc.
Proof.
  revert n acc. induction fuel as [|fuel IH]; intros n acc; [done|]. cbn [dec_loop].
  destruct (n <? 10); [done|]. by rewrite IH, (IH _ [_]), <- app_assoc.
Qed.

Lemma dec_loop_fuel f1 f2 n acc :
  0 <= n -> n < 10 ^ Z.of_nat f1 -> n < 10 ^ Z.of_nat f2 -> (0 < f1)%nat -> (0 < f2)%nat ->
  dec_loop f1 n acc = dec_loop f2 n acc.
Proof.
  revert f2 n acc. induction f1 as [|f1 IH]; intros [|f2] n acc Hn H1 H2 Hf1 Hf2; try lia. cbn [dec_loop].
  destruct (Z.ltb_spec n 10) as [|Hge]; [done|].
  rewrite Nat2Z.inj_succ, Z.pow_succ_r in H1, H2 by lia.
  apply IH; [mlia|mlia|mlia| |].
  - destruct f1; [simpl in H1; lia|lia].
  - destruct f2; [simpl in H2; lia|lia].
Qed.

Lemma dec_fuel n : 0 <= n -> n < 10 ^ Z.of_nat (S (Z.to_nat (Z.log2 n))).
Proof.
  intros Hn. pose proof (Z.log2_nonneg n). destruct (decide (n = 0)) as [->|]; [done|].
  destruct (Z.log2_spec n ltac:(lia)) as [_ Hlt]. rewrite Nat2Z.inj_succ, Z2Nat.id by done.
  eapply Z.lt_le_trans; [exact Hlt|]. apply Z.pow_le_mono_l. lia.
Qed.

Lemma dec_small n : 0 <= n < 10 -> dec n = [48 + n].
Proof.
  intros Hn. unfold dec. cbn [dec_loop]. rewrite Z.mod_small by lia. by rewrite (proj2 (Z.ltb_lt n 10)) by lia.
Qed.

Lemma dec_step n : 10 <= n -> dec n = dec (n / 10) ++ [48 + n mod 10].
Proof.
  intros Hn. unfold dec at 1. cbn [dec_loop]. rewrite (proj2 (Z.ltb_ge n 10)) by lia.
  rewrite dec_loop_app. f_equal. pose proof (dec_fuel n ltac:(lia)) as H.
  rewrite Nat2Z.inj_succ, Z.pow_succ_r in H by lia. unfold dec. apply dec_loop_fuel; [mlia|mlia| | |lia].
  - apply dec_fuel. mlia.
  - destruct (Z.to_nat (Z.log2 n)); [simpl in H; lia|lia].
Qed.

(** Induction on the decimal digits of a number. *)
Lemma dec_ind (P : Z -> text -> Prop) :
  (forall n, 0 <= n < 10 -> P n [48 + n]) ->
  (forall n s, 10 <= n -> P (n / 10) s -> P n (s ++ [48 + n mod 10])) ->
  forall n, 0 <= n -> P n (dec n).
Proof.
  intros H1 H2 n Hn. revert Hn. induction (Z.lt_wf 0 n) as [n _ IH]. intros Hn.
  destruct (decide (n < 10)); [rewrite dec_small by lia; apply H1; lia|].
  rewrite dec_step by lia. apply H2; [lia|]. apply IH; mlia.
Qed.

Lemma digit_char n : 0 <= n < 10 -> is_digit (48 + n) = true.
Proof. unfold is_digit. lia. Qed.

Lemma dec_digits n : 0 <= n -> Forall (fun c => is_digit c = true) (dec n).
Proof.
  revert n. apply (dec_ind (fun n s => Forall (fun c => is_digit c = true) s)).
  - intros n Hn. constructor; [by apply digit_char|done].
  - intros n s Hn Hs. apply Forall_app. split; [done|]. constructor; [|done]. apply digit_char. mlia.
Qed.

Lemma parse_digits_app bound acc s t :
  parse_digits bound acc (s ++ t) = a ← parse_digits bound acc s; parse_digits bound a t.
Proof.
  revert acc. induction s as [|c s IH]; intros acc; [done|]. simpl.
  destruct (is_digit c && _); [apply IH|done].
Qed.

Lemma parse_digits_dec bound n :
  0 < bound -> 0 <= n -> parse_digits bound 0 (dec n) = if n <? bound then Some n else None.
Proof.
  intros Hb. revert n. apply (dec_ind (fun n s => parse_digits bound 0 s = if n <? bound then Some n else None)).
  - intros n Hn. cbn [parse_digits]. rewrite digit_char by done. replace (0 * 10 + (48 + n - 48)) with n by lia. done.
  - intros n s Hn IH. rewrite parse_digits_app, IH. destruct (Z.ltb_spec (n / 10) bound) as [Hlt|Hge].
    + cbn [mbind option_bind parse_digits]. rewrite digit_char by mlia.
      replace (n / 10 * 10 + (48 + n mod 10 - 48)) with n by mlia. done.
    + rewrite (proj2 (Z.ltb_ge n bound)) by mlia. done.
Qed.

Lemma dec_cons n : 0 <= n -> exists c s, dec n = c :: s /\ is_digit c = true.
Proof.
  intros Hn. pose proof (dec_digits n Hn) as Hd. destruct (dec n) as [|c s] eqn:Hs.
  - exfalso. destruct (decide (n < 10)); [by rewrite dec_small in Hs by lia|].
    rewrite dec_step in Hs by lia. by apply app_nil in Hs as [_ ?].
  - apply Forall_cons in Hd as [Hc _]. eauto.
Qed.

(** A printed number is read back, unless it is out of range. *)
Lemma parse_unsigned_dec bound n :
  0 < bound -> 0 <= n -> parse_unsigned bound (dec n) = if n <? bound then Some n else None.
Proof.
  intros Hb Hn. rewrite <- parse_digits_dec by done. destruct (dec_cons n Hn) as (c & s & -> & Hc).
  unfold parse_unsigned. destruct (decide (c = 43)) as [->|Hne]; [done|].
  destruct c as [|p|p]; try done. do 6 (destruct p; try done).
Qed.

(** ** Decoding and splitting *)

Definition is_ascii (s : text) : Prop := Forall (fun c => 0 <= c < 128) s.

Lemma utf8_ascii_app s t : is_ascii s -> utf8_decode (s ++ t) = app s <$> utf8_decode t.
Proof.
  induction 1 as [|c s Hc _ IH]; [cbn [app]; by destruct (utf8_decode t)|]. cbn [utf8_decode app].
  rewrite (proj2 (Z.ltb_lt c 128)) by lia. rewrite IH. by destruct (utf8_decode t).
Qed.

(** [s] has no line feed. *)
Definition one_line (s : text) : Prop := Forall (fun c => c <> 10) s.

Lemma take_line_app l t : one_line l -> take_line (l ++ 10 :: t) = (l, true).
Proof.
  induction 1 as [|c l Hc _ IH]; [done|]. cbn [take_line app]. rewrite (proj2 (Z.eqb_neq c 10) Hc), IH. done.
Qed.

Lemma first_line_crlf l t : one_line l -> first_line (l ++ CRLF ++ t) = l.
Proof.
  intros Hl. unfold first_line, CRLF. change (l ++ [13; 10] ++ t) with (l ++ [13] ++ 10 :: t). rewrite app_assoc.
  rewrite take_line_app by (apply Forall_app; split; [done|]; by repeat constructor). cbn [fst snd].
  rewrite last_snoc. apply removelast_last.
Qed.

(** A word is not empty and has no white space. *)
Definition is_word (s : text) : Prop := s <> [] /\ Forall (fun c => is_whitespace c = false) s.

Lemma word_one_line s : is_word s -> one_line s.
Proof. intros [_ H]. eapply Forall_impl; [exact H|]. intros c Hc ->. done. Qed.

Lemma split_words_app w s t :
  Forall (fun c => is_whitespace c = false) s -> split_words w (s ++ t) = split_words (w ++ s) t.
Proof.
  intros Hs. revert w. induction Hs as [|c s Hc _ IH]; intros w; [by rewrite app_nil_r|]. cbn [split_words app].
  rewrite Hc, IH, <- app_assoc. done.
Qed.

Lemma split_word s t : is_word s -> split_whitespace (s ++ 32 :: t) = s :: split_whitespace t.
Proof.
  intros [Hne Hs]. unfold split_whitespace. rewrite split_words_app by done. cbn [split_words app].
  change (is_whitespace 32) with true. cbv iota. by destruct s.
Qed.
