(* ===== verification/Rounding.v ===== *)
(** * Rounding of floating-point numbers

    Bounds on the results of the operations of [SpecFloat], which the exporter's hit
    rate is computed with: rounding to nearest never goes past a representable bound,
    and the conversion of integers is monotone. *)

From Stdlib Require Import Floats.SpecFloat.
From S2P Require Import Prelude Text.

(** ** Digits and shifts *)

Lemma digits2_pos_log2 p : Z.pos (digits2_pos p) = Z.log2 (Z.pos p) + 1.
Proof.
  induction p as [p IH|p IH|]; [| |done]; cbn [digits2_pos]; rewrite Pos2Z.inj_succ, IH.
  - rewrite (Pos2Z.inj_xI p), Z.log2_succ_double by lia. lia.
  - rewrite (Pos2Z.inj_xO p), Z.log2_double by lia. lia.
Qed.

Lemma Zdigits2_le m k : 0 <= m < 2 ^ k -> 0 <= k -> 0 <= Zdigits2 m <= k.
Proof.
  intros [H0 H1] Hk. destruct m as [|p|p]; [simpl; lia| |lia]. unfold Zdigits2. rewrite digits2_pos_log2.
  assert (Z.log2 (Z.pos p) < k) by (apply Z.log2_lt_pow2; lia). pose proof (Z.log2_nonneg (Z.pos p)). lia.
Qed.

Lemma iter_pos_inv {A} (f : A -> A) (I : Z -> A -> Prop) p :
  (forall k x, 0 <= k -> I k x -> I (k + 1) (f x)) -> forall k x, 0 <= k -> I k x -> I (k + Z.pos p) (SpecFloat.iter_pos f p x).
Proof.
  intros Hf. induction p as [p IH|p IH|]; intros k x Hk HI; cbn [SpecFloat.iter_pos].
  - replace (k + Z.pos p~1) with ((k + 1 + Z.pos p) + Z.pos p) by lia. apply IH; [lia|]. apply IH; [lia|]. by apply Hf.
  - replace (k + Z.pos p~0) with ((k + Z.pos p) + Z.pos p) by lia. apply IH; [lia|]. by apply IH.
  - by apply Hf.
Qed.

(** [k] places to the right of [m0], to which [r0] and [s0] belonged: the quotient, the
    first bit shifted out and whether any other was set. *)
Definition shifted (m0 : Z) (r0 s0 : bool) (k : Z) (x : shr_record) : Prop :=
  shr_m x = m0 / 2 ^ k /\
  if k =? 0 then shr_r x = r0 /\ shr_s x = s0
  else shr_r x = Z.odd (m0 / 2 ^ (k - 1)) /\ shr_s x = negb (m0 mod 2 ^ (k - 1) =? 0) || r0 || s0.

Lemma shr_1_fields x :
  0 <= shr_m x ->
  shr_m (shr_1 x) = shr_m x / 2 /\ shr_r (shr_1 x) = Z.odd (shr_m x) /\ shr_s (shr_1 x) = shr_r x || shr_s x.
Proof.
  destruct x as [m r s]. cbn [shr_m shr_r shr_s]. intros Hm.
  destruct m as [|p|p]; [done| |lia]. destruct p as [p|p|]; cbn; split_and!; try done; try lia.
  - rewrite Pos2Z.inj_xI. mlia.
  - rewrite Pos2Z.inj_xO. mlia.
Qed.

Lemma mod_pow2_succ a k : 0 <= k -> a mod 2 ^ (k + 1) = a mod 2 ^ k + 2 ^ k * Z.b2z (Z.odd (a / 2 ^ k)).
Proof.
  intros Hk. rewrite Z.pow_add_r, Z.pow_1_r by lia. pose proof (pow2_pos k Hk).
  rewrite Z.rem_mul_r by lia. rewrite Zmod_odd. by destruct (Z.odd (a / 2 ^ k)).
Qed.

Lemma shifted_step m0 r0 s0 k x :
  0 <= m0 -> 0 <= k -> shifted m0 r0 s0 k x -> shifted m0 r0 s0 (k + 1) (shr_1 x).
Proof.
  intros Hm Hk [Hq Hrs]. pose proof (pow2_pos k Hk). pose proof (Z.div_pos m0 (2 ^ k) Hm ltac:(lia)).
  destruct (shr_1_fields x ltac:(lia)) as (H1 & H2 & H3). unfold shifted.
  rewrite (proj2 (Z.eqb_neq (k + 1) 0)) by lia. replace (k + 1 - 1) with k by lia.
  rewrite H1, H2, H3, Hq. split.
  { rewrite Z.div_div, Z.pow_add_r by lia. done. }
  split; [done|]. destruct (Z.eqb_spec k 0) as [->|Hne].
  { destruct Hrs as [-> ->]. rewrite Z.pow_0_r, Z.mod_1_r. done. }
  destruct Hrs as [-> ->]. replace k with (k - 1 + 1) at 3 by lia. rewrite mod_pow2_succ by lia.
  pose proof (pow2_pos (k - 1) ltac:(lia)). pose proof (Z.mod_pos_bound m0 (2 ^ (k - 1)) ltac:(lia)).
  destruct (Z.odd (m0 / 2 ^ (k - 1))); simpl Z.b2z.
  - rewrite (proj2 (Z.eqb_neq (m0 mod 2 ^ (k - 1) + _) 0)) by lia. done.
  - by rewrite Z.mul_0_r, Z.add_0_r.
Qed.

Lemma shr_shifted m0 r0 s0 e n :
  0 <= m0 ->
  exists x, shr {| shr_m := m0; shr_r := r0; shr_s := s0 |} e n = (x, e + Z.max 0 n) /\ shifted m0 r0 s0 (Z.max 0 n) x.
Proof.
  intros Hm. set (x0 := {| shr_m := m0; shr_r := r0; shr_s := s0 |}).
  assert (H0 : shifted m0 r0 s0 0 x0) by (split; [by rewrite Z.pow_0_r, Z.div_1_r|done]).
  destruct n as [|p|p]; cbn [shr].
  - exists x0. split; [f_equal; lia|done].
  - exists (SpecFloat.iter_pos shr_1 p x0). split; [done|]. change (Z.max 0 (Z.pos p)) with (0 + Z.pos p).
    apply (iter_pos_inv shr_1 (shifted m0 r0 s0)); [|done|done]. intros k x Hk. by apply shifted_step.
  - exists x0. split; [f_equal; lia|done].
Qed.

(** What is left after the shift is inexact only if something was lost. *)
Lemma shifted_inexact m0 r0 s0 k x :
  0 <= k -> shifted m0 r0 s0 k x -> shr_r x || shr_s x = true -> m0 mod 2 ^ k <> 0 \/ r0 || s0 = true.
Proof.
  intros Hk [_ Hrs] H. destruct (Z.eqb_spec k 0) as [->|Hne].
  { right. by destruct Hrs as [<- <-]. }
  destruct Hrs as [Hr Hs]. rewrite Hr, Hs in H. replace k with (k - 1 + 1) by lia. rewrite mod_pow2_succ by lia.
  pose proof (pow2_pos (k - 1) ltac:(lia)). pose proof (Z.mod_pos_bound m0 (2 ^ (k - 1)) ltac:(lia)).
  destruct (Z.odd (m0 / 2 ^ (k - 1))); simpl Z.b2z; [left; lia|]. simpl in H.
  destruct (Z.eqb_spec (m0 mod 2 ^ (k - 1)) 0); [right; simpl in H; done|left; lia].
Qed.

Lemma loc_inexact x : loc_of_shr_record x <> loc_Exact -> shr_r x || shr_s x = true.
Proof. by destruct x as [m [|] [|]]. Qed.

Lemma round_nearest_bound m l : m <= round_nearest_even m l <= m + (if l is loc_Exact then 0 else 1).
Proof. destruct l as [|[]]; simpl; try lia. destruct (Z.even m); lia. Qed.

(** ** Rounding stays below a representable bound *)

Section upper.
Variables (prec emax : Z).

(** The bits before the rounding. *)
Definition shr_bits (l : location) : bool * bool :=
  match l with
  | loc_Exact => (false, false)
  | loc_Inexact Lt => (false, true)
  | loc_Inexact Eq => (true, false)
  | loc_Inexact Gt => (true, true)
  end.

Lemma shr_fexp_spec m e l :
  0 <= m ->
  let n := Z.max 0 (fexp prec emax (Zdigits2 m + e) - e) in
  exists x, shr_fexp prec emax m e l = (x, e + n) /\ shifted m (shr_bits l).1 (shr_bits l).2 n x.
Proof.
  intros Hm n. unfold shr_fexp.
  replace (shr_record_of_loc m l) with {| shr_m := m; shr_r := (shr_bits l).1; shr_s := (shr_bits l).2 |}
    by (by destruct l as [|[]]).
  by apply shr_shifted.
Qed.

Lemma shr_bits_inexact l : (shr_bits l).1 || (shr_bits l).2 = true -> l <> loc_Exact.
Proof. by destruct l as [|[]]. Qed.

(** The first shift and the rounding. *)
Lemma rounded_upper m l n x Q :
  0 <= m <= Q -> (l <> loc_Exact -> m < Q) -> 0 <= n -> Q mod 2 ^ n = 0 ->
  shifted m (shr_bits l).1 (shr_bits l).2 n x ->
  0 <= round_nearest_even (shr_m x) (loc_of_shr_record x) * 2 ^ n <= Q.
Proof.
  intros Hm Hl Hn HQ Hx. pose proof (pow2_pos n Hn) as Hp. pose proof Hx as [Hq _].
  pose proof (round_nearest_bound (shr_m x) (loc_of_shr_record x)) as Hr.
  pose proof (Z.div_mod m (2 ^ n) ltac:(lia)) as Hdm. pose proof (Z.mod_pos_bound m (2 ^ n) Hp).
  pose proof (Z.div_mod Q (2 ^ n) ltac:(lia)) as HdQ. rewrite HQ in HdQ. rewrite <- Hq in Hdm.
  set (Q' := Q / 2 ^ n) in *.
  assert (Hle : shr_m x <= Q') by nia.
  assert (H0 : 0 <= shr_m x) by (rewrite Hq; apply Z.div_pos; lia).
  destruct (loc_of_shr_record x) as [|c] eqn:Hloc; [split; nia|].
  assert (Hlt : shr_m x < Q').
  { destruct (shifted_inexact _ _ _ _ _ Hn Hx) as [H1|H1]; [apply loc_inexact; by rewrite Hloc| |].
    - nia.
    - apply shr_bits_inexact, Hl in H1. nia. }
  split; nia.
Qed.

(** [m * 2 ^ (e - ex) <= Q], for the result of an operation that works at [ex]. *)
Definition below (ex Q : Z) (x : spec_float) : Prop :=
  match x with
  | S754_zero s => s = false
  | S754_finite s m e => s = false /\ ex <= e /\ Z.pos m * 2 ^ (e - ex) <= Q
  | _ => False
  end.

Lemma binary_round_aux_below m ex l Q :
  0 <= m <= Q -> (l <> loc_Exact -> m < Q) ->
  Q mod 2 ^ Z.max 0 (fexp prec emax (Zdigits2 m + ex) - ex) = 0 ->
  Q < 2 ^ (emax - prec + 1 - ex) ->
  below ex Q (binary_round_aux prec emax false m ex l).
Proof.
  intros Hm Hl HQ Hfin. unfold binary_round_aux.
  destruct (shr_fexp_spec m ex l ltac:(lia)) as (x & Hx & Hsh). cbv zeta in Hsh. rewrite Hx. cbv zeta in *.
  set (n := Z.max 0 (fexp prec emax (Zdigits2 m + ex) - ex)) in *.
  assert (Hn : 0 <= n) by (unfold n; lia). pose proof (pow2_pos n Hn).
  pose proof (rounded_upper m l n x Q Hm Hl Hn HQ Hsh) as Hr.
  set (M := round_nearest_even (shr_m x) (loc_of_shr_record x)) in *. assert (HM : 0 <= M) by nia.
  destruct (shr_fexp_spec M (ex + n) loc_Exact HM) as (y & Hy & Hsh2). cbv zeta in Hy, Hsh2. rewrite Hy.
  set (k := Z.max 0 (fexp prec emax (Zdigits2 M + (ex + n)) - (ex + n))) in *. assert (Hk : 0 <= k) by (unfold k; lia). destruct Hsh2 as [Hym _].
  pose proof (pow2_pos k Hk). pose proof (Z.mul_div_le M (2 ^ k) ltac:(lia)) as Hle. rewrite <- Hym in Hle.
  assert (Hy0 : 0 <= shr_m y) by (rewrite Hym; apply Z.div_pos; lia).
  assert (Hval : shr_m y * 2 ^ (ex + n + k - ex) <= Q).
  { replace (ex + n + k - ex) with (n + k) by lia. rewrite Z.pow_add_r by lia. nia. }
  destruct (shr_m y) as [|p|p]; [done| |lia].
  destruct (Z.leb_spec (ex + n + k) (emax - prec)) as [|Hbig]; [split_and!; [done|lia|done]|].
  exfalso. assert (2 ^ (emax - prec + 1 - ex) <= 2 ^ (ex + n + k - ex)).
  { destruct (decide (0 <= emax - prec + 1 - ex)); [apply pow2_le; lia|].
    rewrite (Z.pow_neg_r 2 (emax - prec + 1 - ex)) by lia. pose proof (pow2_pos (ex + n + k - ex) ltac:(lia)). lia. }
  nia.
Qed.
End upper.

(** ** Conversion of integers *)

Lemma div_even_bounds n d : 0 < d -> 0 <= n -> n / d <= div_even n d <= n / d + 1.
Proof. intros Hd Hn. unfold div_even. destruct (_ || _); lia. Qed.

Lemma div_even_le n d q : 0 < d -> n <= q * d -> div_even n d <= q.
Proof.
  intros Hd Hn. unfold div_even. pose proof (Z.div_mod n d ltac:(lia)). pose proof (Z.mod_pos_bound n d Hd).
  destruct (Z.ltb_spec d (2 * (n mod d))); [simpl; nia|]. simpl.
  destruct (Z.eqb_spec (2 * (n mod d)) d); [|simpl; nia]. simpl. destruct (Z.odd (n / d)); nia.
Qed.

Lemma div_even_1 n : div_even n 1 = n.
Proof. unfold div_even. by rewrite Z.div_1_r, Z.mod_1_r. Qed.

Lemma div_even_mono a b d : 0 < d -> a <= b -> div_even a d <= div_even b d.
Proof.
  intros Hd Hab. pose proof (Z.div_le_mono a b d Hd Hab) as Hq. unfold div_even.
  pose proof (Z.div_mod a d ltac:(lia)). pose proof (Z.div_mod b d ltac:(lia)).
  destruct (decide (a / d = b / d)) as [He|Hne].
  - rewrite <- He in *. assert (a mod d <= b mod d) by lia. set (ra := a mod d) in *. set (rb := b mod d) in *.
    destruct (Z.ltb_spec d (2 * ra)), (Z.ltb_spec d (2 * rb)), (Z.eqb_spec (2 * ra) d), (Z.eqb_spec (2 * rb) d);
      simpl; destruct (Z.odd (a / d)); simpl; lia.
  - destruct (_ || _), (_ || _); lia.
Qed.

(** The mantissa of an integer rounded to 53 bits, and the places it is shifted. *)
Definition f64_shift (u : Z) : Z := Z.max 0 (Z.log2 u - 52).

Definition f64_round (u : Z) : Z := 2 ^ f64_shift u * div_even u (2 ^ f64_shift u).

Lemma f64_round_mono a b : 0 < a -> a <= b -> f64_round a <= f64_round b.
Proof.
  intros Ha Hab. pose proof (Z.log2_le_mono a b Hab) as Hlog. unfold f64_round.
  assert (Hs : 0 <= f64_shift a <= f64_shift b) by (unfold f64_shift; lia).
  pose proof (pow2_pos (f64_shift a) ltac:(lia)) as Hpa. pose proof (pow2_pos (f64_shift b) ltac:(lia)) as Hpb.
  destruct (decide (f64_shift a = f64_shift b)) as [He|Hne].
  - rewrite <- He. pose proof (div_even_mono a b (2 ^ f64_shift a) Hpa Hab). nia.
  - destruct (Z.log2_spec a Ha) as [_ H1]. destruct (Z.log2_spec b ltac:(lia)) as [H2 _].
    assert (Hb : f64_shift b = Z.log2 b - 52) by (unfold f64_shift in *; lia).
    transitivity (2 ^ Z.succ (Z.log2 a)).
    + assert (f64_shift a <= Z.succ (Z.log2 a)) by (unfold f64_shift; pose proof (Z.log2_nonneg a); lia).
      rewrite (pow2_split (f64_shift a) (Z.succ (Z.log2 a))) in H1 |- * by lia.
      apply Z.mul_le_mono_nonneg_l; [lia|]. apply div_even_le; lia.
    + transitivity (2 ^ Z.log2 b).
      * apply pow2_le. pose proof (Z.log2_nonneg a). unfold f64_shift in *. lia.
      * pose proof (div_even_bounds b (2 ^ f64_shift b) Hpb ltac:(lia)) as [Hd _].
        rewrite (pow2_split (f64_shift b) (Z.log2 b)) in H2 |- * by (unfold f64_shift in *; lia).
        assert (2 ^ (Z.log2 b - f64_shift b) <= b / 2 ^ f64_shift b) by (apply Z.div_le_lower_bound; lia). nia.
Qed.

Lemma iter_xO p d : Z.pos (Pos.iter xO p d) = Z.pos p * 2 ^ Z.pos d.
Proof.
  induction d as [|d IH] using Pos.peano_ind; [simpl; lia|].
  rewrite Pos.iter_succ, Pos2Z.inj_xO, IH, Pos2Z.inj_succ, Z.pow_succ_r by lia. lia.
Qed.

(** Rounding an exact number is division to the nearest even. *)
Lemma round_div_even m n x :
  0 <= m -> 0 <= n -> shifted m false false n x ->
  round_nearest_even (shr_m x) (loc_of_shr_record x) = div_even m (2 ^ n).
Proof.
  intros Hm Hn [Hq Hrs]. destruct x as [q r s]. cbn [shr_m shr_r shr_s] in *. subst q. unfold div_even. cbv zeta.
  destruct (Z.eqb_spec n 0) as [->|Hne].
  { destruct Hrs as [-> ->]. rewrite Z.pow_0_r, Z.div_1_r, Z.mod_1_r. done. }
  destruct Hrs as [-> ->]. rewrite !orb_false_r. pose proof (pow2_pos (n - 1) ltac:(lia)) as Hp.
  pose proof (Z.mod_pos_bound m (2 ^ (n - 1)) Hp). set (q := m / 2 ^ n).
  replace (m mod 2 ^ n) with (m mod 2 ^ (n - 1 + 1)) by (f_equal; f_equal; lia). rewrite mod_pow2_succ by lia.
  replace (2 ^ n) with (2 * 2 ^ (n - 1)) by (rewrite <- Z.pow_succ_r by lia; f_equal; lia).
  set (b := Z.odd (m / 2 ^ (n - 1))). set (r := m mod 2 ^ (n - 1)) in *. set (h := 2 ^ (n - 1)) in *.
  destruct b; simpl Z.b2z; destruct (Z.eqb_spec r 0) as [Hr|Hr]; cbn [negb loc_of_shr_record round_nearest_even].
  - replace (2 * (r + h * 1)) with (2 * h) by lia. rewrite Z.ltb_irrefl, Z.eqb_refl. simpl.
    rewrite <- Z.negb_even. by destruct (Z.even q).
  - rewrite (proj2 (Z.ltb_lt _ _)) by lia. done.
  - rewrite (proj2 (Z.ltb_ge _ _)), (proj2 (Z.eqb_neq _ _)) by lia. done.
  - rewrite (proj2 (Z.ltb_ge _ _)), (proj2 (Z.eqb_neq _ _)) by lia. done.
Qed.

Lemma Zdigits2_eq m k : 0 <= k -> 2 ^ k <= m < 2 ^ (k + 1) -> Zdigits2 m = k + 1.
Proof.
  intros Hk Hm. pose proof (pow2_pos k Hk). destruct m as [|p|p]; [lia| |lia]. unfold Zdigits2.
  rewrite digits2_pos_log2. f_equal. apply Z.log2_unique; [lia|]. by rewrite Z.add_1_r in Hm.
Qed.

(** An exact number of at least 53 digits, rounded to 53. *)
Lemma binary_round_aux_exact m ex :
  2 ^ 52 <= m -> -52 <= ex -> Z.log2 m + ex < 64 ->
  exists p e, binary_round_aux 53 1024 false m ex loc_Exact = S754_finite false p e /\
    2 ^ 52 <= Z.pos p < 2 ^ 53 /\ ex <= e /\ Z.pos p * 2 ^ (e - ex) = f64_round m.
Proof.
  intros Hm Hex Hlog. unfold binary_round_aux.
  destruct (shr_fexp_spec 53 1024 m ex loc_Exact ltac:(lia)) as (x & Hx & Hsh). cbv zeta in Hx, Hsh. rewrite Hx. clear Hx.
  destruct (Z.log2_spec m ltac:(lia)) as [Hl1 Hl2]. assert (Hl : 52 <= Z.log2 m) by (apply Z.log2_le_pow2; lia).
  rewrite (Zdigits2_eq m (Z.log2 m)) in Hsh |- * by (rewrite ?Z.add_1_r; lia).
  replace (Z.max 0 _) with (f64_shift m) in Hsh |- * by (unfold fexp, emin, f64_shift; lia).
  assert (Hs : f64_shift m = Z.log2 m - 52) by (unfold f64_shift; lia). unfold f64_round. set (n := f64_shift m) in *.
  rewrite (round_div_even m n x) by (done || lia). pose proof (pow2_pos n ltac:(lia)) as Hp.
  assert (HM : 2 ^ 52 <= div_even m (2 ^ n) <= 2 ^ 53).
  { split.
    - pose proof (div_even_bounds m (2 ^ n) Hp ltac:(lia)) as [Hd _]. etransitivity; [|exact Hd].
      apply Z.div_le_lower_bound; [lia|]. rewrite <- Z.pow_add_r by lia. by replace (n + 52) with (Z.log2 m) by lia.
    - apply div_even_le; [lia|]. rewrite <- Z.pow_add_r by lia. replace (53 + n) with (Z.succ (Z.log2 m)) by lia. lia. }
  set (M := div_even m (2 ^ n)) in *.
  destruct (shr_fexp_spec 53 1024 M (ex + n) loc_Exact ltac:(lia)) as (y & Hy & Hsh2). cbv zeta in Hy, Hsh2. rewrite Hy. clear Hy.
  destruct (decide (M = 2 ^ 53)) as [HM2|HM2].
  - rewrite (Zdigits2_eq M 53) in Hsh2 |- * by lia.
    replace (Z.max 0 _) with 1 in Hsh2 |- * by (unfold fexp, emin; lia). destruct Hsh2 as [Hy _].
    rewrite Hy, HM2. change (2 ^ 53 / 2 ^ 1) with (Z.pos 4503599627370496). cbv iota.
    rewrite (proj2 (Z.leb_le _ _)) by lia. do 2 eexists. split; [reflexivity|]. split; [lia|]. split; [lia|].
    replace (ex + n + 1 - ex) with (n + 1) by lia. rewrite Z.pow_add_r by lia. lia.
  - rewrite (Zdigits2_eq M 52) in Hsh2 |- * by lia.
    replace (Z.max 0 _) with 0 in Hsh2 |- * by (unfold fexp, emin; lia). destruct Hsh2 as [Hy _].
    rewrite Z.pow_0_r, Z.div_1_r in Hy. rewrite Hy. destruct M as [|q|q]; [lia| |lia].
    rewrite (proj2 (Z.leb_le _ _)) by lia. do 2 eexists. split; [reflexivity|]. split; [lia|]. split; [lia|].
    replace (ex + n + 0 - ex) with n by lia. lia.
Qed.

(** The conversion of an integer: 53 bits, and the value [f64_round]. *)
Lemma f64_of_spec u :
  0 < u < 2 ^ 64 ->
  exists p e, f64_of u = S754_finite false p e /\ 2 ^ 52 <= Z.pos p < 2 ^ 53 /\ -52 <= e /\
    Z.pos p * 2 ^ (e + 52) = 2 ^ 52 * f64_round u.
Proof.
  intros Hu. destruct u as [|q|q]; [lia| |lia]. unfold f64_of, binary_normalize, binary_round.
  rewrite digits2_pos_log2, Z.add_0_r. pose proof (Z.log2_nonneg (Z.pos q)).
  assert (Hlog : Z.log2 (Z.pos q) < 64) by (apply Z.log2_lt_pow2; lia).
  destruct (Z.log2_spec (Z.pos q) ltac:(lia)) as [Hl1 Hl2].
  assert (Hfe : fexp 53 1024 (Z.log2 (Z.pos q) + 1) = Z.log2 (Z.pos q) - 52) by (unfold fexp, emin; lia).
  unfold shl_align. rewrite Hfe, Z.sub_0_r. destruct (Z.log2 (Z.pos q) - 52) as [|d|d] eqn:Hd.
  1,2: destruct (binary_round_aux_exact (Z.pos q) 0) as (p & e & Hr & Hp & He & Hv);
    [apply Z.log2_le_pow2; lia|lia|lia|]; exists p, e; (split; [exact Hr|]); (split; [done|]); (split; [lia|]);
    rewrite Z.pow_add_r by lia; rewrite Z.sub_0_r in Hv; lia.
  assert (Hsc : Z.pos (Pos.iter xO q d) = Z.pos q * 2 ^ Z.pos d) by apply iter_xO.
  pose proof (pow2_pos (Z.pos d) ltac:(lia)) as Hpd.
  assert (Hb : 2 ^ 52 <= Z.pos q * 2 ^ Z.pos d < 2 ^ 53).
  { replace 52 with (Z.log2 (Z.pos q) + Z.pos d) by lia. replace 53 with (Z.succ (Z.log2 (Z.pos q)) + Z.pos d) by lia.
    rewrite !Z.pow_add_r by lia. nia. }
  assert (Hlg : Z.log2 (Z.pos (Pos.iter xO q d)) = 52) by (rewrite Hsc; apply Z.log2_unique; lia).
  destruct (binary_round_aux_exact (Z.pos (Pos.iter xO q d)) (Z.neg d)) as (p & e & Hr & Hp & He & Hv); [lia|lia|lia|].
  exists p, e. split; [exact Hr|]. split; [done|]. split; [lia|].
  unfold f64_round, f64_shift in *. rewrite Hlg in Hv. replace (Z.max 0 (52 - 52)) with 0 in Hv by lia.
  replace (Z.max 0 _) with 0 by lia. rewrite Z.pow_0_r, div_even_1, Z.mul_1_l in *.
  replace (e + 52) with (e - Z.neg d + (52 - Z.pos d)) by lia. rewrite Z.pow_add_r by lia.
  replace (2 ^ 52) with (2 ^ Z.pos d * 2 ^ (52 - Z.pos d)) at 1 by (rewrite <- Z.pow_add_r by lia; f_equal; lia).
  rewrite Z.mul_assoc. nia.
Qed.

Lemma f64_exp_le u p e :
  0 < u < 2 ^ 64 -> 2 ^ 52 <= Z.pos p -> Z.pos p * 2 ^ (e + 52) = 2 ^ 52 * f64_round u -> e <= 12.
Proof.
  intros Hu Hp Hv. destruct (decide (e <= 12)); [done|exfalso].
  pose proof (f64_round_mono u (2 ^ 64 - 1) ltac:(lia) ltac:(lia)) as Hm.
  change (f64_round (2 ^ 64 - 1)) with (2 ^ 64) in Hm.
  assert (2 ^ 65 <= 2 ^ (e + 52)) by (apply pow2_le; lia). nia.
Qed.

(** ** Ratios and percentages *)

(** The quotient of two converted integers, the first not above the second, is at most 1. *)
Lemma f64_ratio_below h t :
  0 < h <= t -> t < 2 ^ 64 ->
  exists ex, ex <= -53 /\ -200 <= ex /\ below ex (2 ^ (- ex)) (SFdiv 53 1024 (f64_of h) (f64_of t)).
Proof.
  intros Hh Ht. destruct (f64_of_spec h ltac:(lia)) as (p & e & -> & Hp & He & Hv).
  destruct (f64_of_spec t ltac:(lia)) as (q & f & -> & Hq & Hf & Hw).
  pose proof (f64_exp_le h p e ltac:(lia) ltac:(lia) Hv). pose proof (f64_exp_le t q f ltac:(lia) ltac:(lia) Hw).
  pose proof (f64_round_mono h t ltac:(lia) ltac:(lia)) as Hmono.
  assert (Hle : Z.pos p * 2 ^ (e + 52) <= Z.pos q * 2 ^ (f + 52)) by lia.
  assert (Hef : e <= f).
  { destruct (decide (e <= f)); [done|exfalso]. rewrite (pow2_split (f + 52) (e + 52)) in Hle by lia.
    assert (HB : 2 ^ 1 <= 2 ^ (e + 52 - (f + 52))) by (apply pow2_le; lia).
    rewrite (Z.mul_comm (2 ^ (f + 52))), Z.mul_assoc in Hle. apply Z.mul_le_mono_pos_r in Hle; [|apply pow2_pos; lia].
    assert (Z.pos p * 2 <= Z.pos p * 2 ^ (e + 52 - (f + 52))) by (apply Z.mul_le_mono_nonneg_l; lia). lia. }
  exists (e - f - 53). split; [lia|]. split; [lia|]. unfold SFdiv, SFdiv_core_binary.
  rewrite (Zdigits2_eq (Z.pos p) 52), (Zdigits2_eq (Z.pos q) 52) by lia.
  replace (Z.min _ _) with (e - f - 53) by (unfold fexp, emin; lia).
  replace (e - f - (e - f - 53)) with 53 by lia. cbv iota. rewrite Z.shiftl_mul_pow2 by lia.
  pose proof (Z_div_mod (Z.pos p * 2 ^ 53) (Z.pos q) ltac:(lia)) as Hdiv.
  destruct (Z.div_eucl (Z.pos p * 2 ^ 53) (Z.pos q)) as [m r]. destruct Hdiv as [Hdiv Hr].
  change (xorb false false) with false.
  assert (Hcmp : Z.pos p * 2 ^ 53 <= Z.pos q * 2 ^ (- (e - f - 53))).
  { replace (- (e - f - 53)) with (f - e + 53) by lia. rewrite Z.pow_add_r by lia.
    rewrite (pow2_split (e + 52) (f + 52)) in Hle by lia. replace (f + 52 - (e + 52)) with (f - e) in Hle by lia.
    pose proof (pow2_pos (e + 52) ltac:(lia)). pose proof (pow2_pos (f - e) ltac:(lia)). nia. }
  assert (Hm0 : 0 <= m) by nia. set (ex := e - f - 53) in *.
  assert (Hm1 : m <= 2 ^ (- ex)) by nia.
  apply binary_round_aux_below.
  - lia.
  - intros Hloc. assert (r <> 0); [|nia]. intros ->. apply Hloc. unfold new_location, new_location_even, new_location_odd.
    by destruct (Z.even (Z.pos q)).
  - apply pow2_mod. split; [lia|].
    pose proof (Zdigits2_le m (- ex + 1) ltac:(rewrite Z.pow_add_r by lia; pose proof (pow2_pos (- ex) ltac:(lia)); lia) ltac:(lia)).
    unfold fexp, emin. lia.
  - apply pow2_lt. lia.
Qed.

Lemma f64_100 : f64_of 100 = S754_finite false 7036874417766400 (-46).
Proof. reflexivity. Qed.

(** A hundred times a number of at most 1 is at most 100. *)
Lemma percent_below ex x :
  ex <= -53 -> -200 <= ex -> below ex (2 ^ (- ex)) x ->
  exists ex', ex' < 0 /\ below ex' (100 * 2 ^ (- ex')) (SFmul 53 1024 x (f64_of 100)).
Proof.
  intros Hex Hlow Hx. rewrite f64_100. destruct x as [s|s| |s m e]; try done.
  { simpl in Hx. subst s. by exists (-1). }
  destruct Hx as (-> & He & Hm). unfold SFmul.
  assert (He0 : e <= 0).
  { destruct (decide (e <= 0)); [done|exfalso]. assert (2 ^ (- ex + 1) <= 2 ^ (e - ex)) by (apply pow2_le; lia).
    rewrite Z.pow_add_r in H by lia. pose proof (pow2_pos (- ex) ltac:(lia)). nia. }
  assert (Hm1 : Z.pos m <= 2 ^ (- e)).
  { replace (- ex) with (- e + (e - ex)) in Hm by lia. rewrite Z.pow_add_r in Hm by lia.
    pose proof (pow2_pos (e - ex) ltac:(lia)). nia. }
  exists (e + -46). split; [lia|]. change (xorb false false) with false.
  assert (Hmx : Z.pos (m * 7036874417766400) <= 100 * 2 ^ (- (e + -46))).
  { replace (- (e + -46)) with (- e + 46) by lia. rewrite Pos2Z.inj_mul, Z.pow_add_r by lia. lia. }
  apply binary_round_aux_below; [lia|done| |].
  - pose proof (Zdigits2_le (Z.pos (m * 7036874417766400)) (7 - (e + -46))
      ltac:(replace (7 - (e + -46)) with (- (e + -46) + 7) by lia; rewrite Z.pow_add_r by lia; pose proof (pow2_pos (- (e + -46)) ltac:(lia)); lia) ltac:(lia)) as Hd.
    set (n := Z.max 0 _). assert (Hn : 0 <= n <= - (e + -46)) by (unfold n, fexp, emin; lia).
    rewrite (pow2_split n (- (e + -46))) by lia. rewrite Z.mul_assoc, (Z.mul_comm 100), <- Z.mul_assoc, Z.mul_comm.
    apply Z.mod_mul. pose proof (pow2_pos n ltac:(lia)). lia.
  - replace (1024 - 53 + 1 - (e + -46)) with (- (e + -46) + 972) by lia. rewrite Z.pow_add_r by lia.
    pose proof (pow2_pos (- (e + -46)) ltac:(lia)). nia.
Qed.

Lemma hundredths_le ex m e :
  ex < 0 -> ex <= e -> Z.pos m * 2 ^ (e - ex) <= 100 * 2 ^ (- ex) -> 0 <= hundredths m e <= 10000.
Proof.
  intros Hex He Hm. unfold hundredths. destruct (Z.ltb_spec e 0).
  - pose proof (pow2_pos (- e) ltac:(lia)). pose proof (pow2_pos (e - ex) ltac:(lia)).
    replace (- ex) with (- e + (e - ex)) in Hm by lia. rewrite Z.pow_add_r in Hm by lia. split.
    + pose proof (div_even_bounds (Z.pos m * 100) (2 ^ (- e)) ltac:(lia) ltac:(lia)) as [Hd _].
      etransitivity; [|exact Hd]. apply Z.div_pos; lia.
    + apply div_even_le; [lia|]. nia.
  - replace (e - ex) with (e + - ex) in Hm by lia. rewrite Z.pow_add_r in Hm by lia.
    pose proof (pow2_pos e ltac:(lia)). pose proof (pow2_pos (- ex) ltac:(lia)). nia.
Qed.
