(* ===== verification/Exporter.v ===== *)
(** * The metrics exporter

    Models aethalloc-metrics: the server of lib.rs, which runs inside the program whose
    allocator it watches and asks the allocator's library for its counters, and the
    server of main.rs, a program of its own.  Both print the counters in the text format
    of Prometheus and answer HTTP requests with them.  What comes from outside is a
    parameter of the definitions: the bytes read from a connection, the result of
    [bind], the environment, the arguments and the dynamic loader. *)

From Stdlib Require Import String Floats.SpecFloat.
From S2P Require Import Prelude Metrics Text Rounding.

(** ** The text of the metrics *)

Definition DEFAULT_PORT : Z := 9091.

Definition MetricsSnapshot : Type := Metrics.

Definition MetricsSnapshot_default : MetricsSnapshot :=
  {| allocs := 0; frees := 0; cache_hits := 0; cache_misses := 0; direct_allocs := 0 |}.

(** The three lines of one metric. *)
Definition metric (name help kind : string) (value : text) : text :=
  bytes "# HELP " ++ bytes name ++ bytes " " ++ bytes help ++ LF ++
  bytes "# TYPE " ++ bytes name ++ bytes " " ++ bytes kind ++ LF ++
  bytes name ++ bytes " " ++ value ++ LF.

Definition hit_rate (m : MetricsSnapshot) : spec_float :=
  if 0 <? cache_hits m +! cache_misses m then
    SFmul 53 1024
      (SFdiv 53 1024 (f64_of (cache_hits m)) (f64_of (cache_hits m +! cache_misses m)))
      (f64_of 100)
  else S754_zero false.

(** The text, which the two servers print alike but for the name of the hit rate. *)
Definition metrics_text (rate_name : string) (m : MetricsSnapshot) : text :=
  metric "aethalloc_allocs_total" "Total allocations" "counter" (dec (allocs m)) ++
  metric "aethalloc_frees_total" "Total deallocations" "counter" (dec (frees m)) ++
  metric "aethalloc_cache_hits_total" "Cache hits" "counter" (dec (cache_hits m)) ++
  metric "aethalloc_cache_misses_total" "Cache misses" "counter" (dec (cache_misses m)) ++
  metric "aethalloc_direct_allocs_total" "Direct (large) allocations" "counter" (dec (direct_allocs m)) ++
  metric rate_name "Cache hit rate percentage" "gauge" (fmt_fixed2 (hit_rate m)) ++
  metric "aethalloc_active_blocks" "Estimated active blocks" "gauge"
    (dec (saturating_sub (allocs m) (frees m))).

Definition format_prometheus_metrics (snapshot : MetricsSnapshot) : text :=
  metrics_text "aethalloc_cache_hit_rate_percent" snapshot.

(** ** Requests and responses *)

(** The path of a request, from the bytes read. *)
Definition request_path (buffer : text) : text :=
  let request := default [] (utf8_decode buffer) in
  default (bytes "/") (split_whitespace (first_line request) !! 1%nat).

Definition http_response (status : string) (body : text) : text :=
  bytes "HTTP/1.1 " ++ bytes status ++ CRLF ++
  bytes "Content-Type: text/plain; version=0.0.4" ++ CRLF ++
  bytes "Content-Length: " ++ dec (Z.of_nat (length body)) ++ CRLF ++ CRLF ++ body.

(** What a server puts out: lines on its two streams and responses. *)
Inductive output : Type :=
  | Stdout (line : text)
  | Stderr (line : text)
  | Sent (response : text).

Definition sent (r : option text) : list output := match r with Some x => [Sent x] | None => [] end.

(** ** The standalone server *)

(** The response to what was read from a connection, [None] when reading failed. *)
Definition handle_client (read : option text) (metrics : MetricsSnapshot) : option text :=
  match read with
  | None => None
  | Some buffer =>
      let path := request_path buffer in
      let r :=
        if decide (path = bytes "/metrics") then ("200 OK"%string, format_prometheus_metrics metrics)
        else if decide (path = bytes "/health" \/ path = bytes "/") then ("200 OK"%string, bytes "OK" ++ LF)
        else ("404 Not Found"%string, bytes "Not Found" ++ LF) in
      Some (http_response r.1 r.2)
  end.

(** [bind] is the error of [TcpListener::bind], if it fails; the connections are those
    that come in, [None] standing for an error of [accept]. *)
Definition run_server (bind : option text) (incoming : list (option (option text))) (port : Z)
    (metrics : MetricsSnapshot) : list output :=
  match bind with
  | Some e => [Stderr (bytes "[aethalloc-metrics] Failed to bind port " ++ dec port ++ bytes ": " ++ e)]
  | None =>
      [Stdout (bytes "[aethalloc-metrics] Listening on http://0.0.0.0:" ++ dec port);
       Stdout (bytes "[aethalloc-metrics] Metrics available at /metrics")] ++
      (incoming ≫= fun stream =>
        match stream with
        | Some read => sent (handle_client read metrics)
        | None => []
        end)
  end.

Definition print_usage : list output :=
  [Stdout (bytes "AethAlloc Prometheus Metrics Exporter"); Stdout [];
   Stdout (bytes "Usage: aethalloc-metrics [OPTIONS]"); Stdout [];
   Stdout (bytes "Options:");
   Stdout (bytes "  -p, --port PORT    HTTP server port (default: " ++ dec DEFAULT_PORT ++ bytes ")");
   Stdout (bytes "  -h, --help         Show this help message"); Stdout [];
   Stdout (bytes "Environment Variables:");
   Stdout (bytes "  AETHALLOC_METRICS_PORT  HTTP server port (default: " ++ dec DEFAULT_PORT ++ bytes ")");
   Stdout [];
   Stdout (bytes "Note: This is a placeholder exporter. For full functionality,");
   Stdout (bytes "compile aethalloc with the 'metrics' feature enabled.")].

(** The port from the environment. *)
Definition env_port (env : option text) : Z := default DEFAULT_PORT (env ≫= parse_u16).

(** The loop over the arguments: the port, or the output and the exit status. *)
Fixpoint parse_args (port : Z) (args : list text) : Z + list output * Z :=
  match args with
  | [] => inl port
  | arg :: args' =>
      if decide (arg = bytes "-p" \/ arg = bytes "--port") then
        match args' with
        | v :: args'' => parse_args (default DEFAULT_PORT (parse_u16 v)) args''
        | [] => inr ([Stderr (bytes "Error: --port requires an argument")], 1)
        end
      else if decide (arg = bytes "-h" \/ arg = bytes "--help") then inr (print_usage, 0)
      else inr (Stderr (bytes "Error: Unknown argument: " ++ arg) :: print_usage, 1)
  end.

(** The output of the program and its exit status, when it ends by itself. *)
Definition main (env : option text) (args : list text) (bind : option text)
    (incoming : list (option (option text))) : list output * option Z :=
  match parse_args (env_port env) (drop 1 args) with
  | inr (out, code) => (out, Some code)
  | inl port =>
      ([Stdout (bytes "[aethalloc-metrics] Starting Prometheus metrics exporter on port " ++ dec port);
        Stdout (bytes "[aethalloc-metrics] Access metrics at http://localhost:" ++ dec port ++ bytes "/metrics")] ++
       run_server bind incoming port MetricsSnapshot_default,
       match bind with Some _ => Some 0 | None => None end)
  end.

(** ** The server inside the program *)

(** The dynamic loader: [Library::new("libaethalloc.so")], a handle when it succeeds;
    whether a library has the symbol [aethalloc_get_metrics]; and what calling it
    returns. *)
Class Loader (W : Type) : Type := {
  Library_new : W -> option Z * W;
  has_get_metrics : W -> Z -> bool;
  aethalloc_get_metrics : W -> Z -> MetricsSnapshot
}.

(** The [OnceLock] with the library, and the rest of the process. *)
Record exporter (W : Type) : Type := {
  LIB : option (option Z);
  ex_world : W
}.
Arguments LIB {W} _.
Arguments ex_world {W} _.

Section embedded.
Context {W : Type} `{L : Loader W}.

(** [LIB.get_or_init]. *)
Definition get_or_init : M (exporter W) (option Z) :=
  s ← getS;
  match LIB s with
  | Some lib => mret lib
  | None =>
      let r := Library_new (ex_world s) in
      modifyS (fun _ => {| LIB := Some r.1; ex_world := r.2 |}) ;;
      mret r.1
  end.

Definition lib_get_metrics : M (exporter W) (option MetricsSnapshot) :=
  lib ← get_or_init;
  match lib with
  | None => mret None
  | Some h =>
      w ← gets ex_world;
      mret (if has_get_metrics w h then Some (aethalloc_get_metrics w h) else None)
  end.

Definition format_metrics : M (exporter W) text :=
  r ← lib_get_metrics;
  match r with
  | Some snapshot => mret (metrics_text "aethalloc_cache_hit_rate" snapshot)
  | None => mret (bytes "# ERROR: libaethalloc.so not loaded" ++ LF)
  end.

Definition lib_handle_client (read : option text) : M (exporter W) (option text) :=
  match read with
  | None => mret None
  | Some buffer =>
      let path := request_path buffer in
      r ← (if decide (path = bytes "/metrics") then
             body ← format_metrics;
             mret ("200 OK"%string, body)
           else if decide (path = bytes "/health" \/ path = bytes "/") then mret ("200 OK"%string, bytes "OK" ++ LF)
           else mret ("404 Not Found"%string, bytes "Not Found" ++ LF));
      mret (Some (http_response r.1 r.2))
  end.

(** The connections that come in; [inr] is an error of [accept]. *)
Fixpoint serve_incoming (incoming : list (option text + text)) : M (exporter W) (list output) :=
  match incoming with
  | [] => mret []
  | stream :: incoming' =>
      out ← match stream with
            | inl read => r ← lib_handle_client read; mret (sent r)
            | inr e => mret [Stderr (bytes "[aethalloc-metrics] Accept error: " ++ e)]
            end;
      rest ← serve_incoming incoming';
      mret (out ++ rest)
  end.

Definition lib_run_server (bind : option text) (incoming : list (option text + text)) (port : Z) :
    M (exporter W) (list output) :=
  let addr := bytes "0.0.0.0:" ++ dec port in
  match bind with
  | Some e => mret [Stderr (bytes "[aethalloc-metrics] Failed to bind " ++ addr ++ bytes ": " ++ e)]
  | None =>
      out ← serve_incoming incoming;
      mret (Stderr (bytes "[aethalloc-metrics] Listening on http://" ++ addr) :: out)
  end.

(** What the thread it starts does. *)
Definition start_metrics_server (env : option text) (bind : option text) (incoming : list (option text + text)) :
    M (exporter W) (list output) :=
  lib_run_server bind incoming (env_port env).
End embedded.

Example exporter_demo :
  request_path (bytes "GET /metrics HTTP/1.1" ++ CRLF ++ bytes "Host: x" ++ CRLF ++ CRLF) = bytes "/metrics" /\
  handle_client (Some (bytes "GET /nothing")) MetricsSnapshot_default =
    Some (bytes "HTTP/1.1 404 Not Found" ++ CRLF ++ bytes "Content-Type: text/plain; version=0.0.4" ++ CRLF ++
          bytes "Content-Length: 10" ++ CRLF ++ CRLF ++ bytes "Not Found" ++ LF) /\
  parse_args 1 [bytes "-p"; bytes "80"; bytes "--port"; bytes "x"] = inl 9091.
Proof. vm_compute. done. Qed.

(** ** A reader of the metrics *)

(** The lines of a text, without their line feeds. *)
Fixpoint text_lines (s : text) : list text :=
  match s with
  | [] => []
  | c :: s' =>
      if c =? 10 then [] :: text_lines s'
      else match text_lines s' with [] => [[c]] | l :: ls => (c :: l) :: ls end
  end.

(** A line [name value], cut at its first space. *)
Fixpoint cut_space (s : text) : option (text * text) :=
  match s with
  | [] => None
  | c :: s' => if c =? 32 then Some ([], s') else r ← cut_space s'; Some (c :: r.1, r.2)
  end.

(** The samples of an exposition: lines that begin with a hash are comments. *)
Definition sample_of (l : text) : list (text * text) :=
  if decide (head l = Some 35) then []
  else match cut_space l with Some r => [r] | None => [] end.

Definition samples (s : text) : list (text * text) := text_lines s ≫= sample_of.

Lemma text_lines_app l t : one_line l -> text_lines (l ++ LF ++ t) = l :: text_lines t.
Proof.
  induction 1 as [|c l Hc _ IH]; [done|]. cbn [app text_lines]. by rewrite (proj2 (Z.eqb_neq c 10) Hc), IH.
Qed.

Lemma cut_space_app n v : Forall (fun c => c <> 32) n -> cut_space (n ++ 32 :: v) = Some (n, v).
Proof.
  induction 1 as [|c n Hc _ IH]; [done|]. cbn [app cut_space]. by rewrite (proj2 (Z.eqb_neq c 32) Hc), IH.
Qed.

(** A name: not empty, no space or line feed, not a comment. *)
Definition name_ok (s : text) : bool :=
  match s with [] => false | c :: _ => negb (c =? 35) end && forallb (fun c => negb (c =? 32) && negb (c =? 10)) s.

Definition line_ok (s : text) : bool := forallb (fun c => negb (c =? 10)) s.

Lemma line_ok_spec s : line_ok s = true -> one_line s.
Proof.
  unfold line_ok. rewrite forallb_forall. intros H. apply List.Forall_forall. intros c Hc. specialize (H c Hc). lia.
Qed.

Lemma name_ok_spec s :
  name_ok s = true -> one_line s /\ Forall (fun c => c <> 32) s /\ exists c s', s = c :: s' /\ c <> 35.
Proof.
  unfold name_ok. intros [H1 H2]%andb_true_iff. rewrite forallb_forall in H2.
  split; [|split]; [apply List.Forall_forall; intros c Hc; specialize (H2 c Hc); lia..|].
  destruct s as [|c s']; [done|]. exists c, s'. split; [done|]. lia.
Qed.

(** One metric is one sample. *)
Lemma samples_metric name help kind v t :
  name_ok (bytes name) = true -> line_ok (bytes help) = true -> line_ok (bytes kind) = true -> one_line v ->
  samples (metric name help kind v ++ t) = (bytes name, v) :: samples t.
Proof.
  intros Hn Hh Hk Hv. apply name_ok_spec in Hn as (Hn1 & Hn2 & c & s' & Hs & Hc).
  apply line_ok_spec in Hh, Hk. unfold samples, metric.
  assert (Hlit : forall p, line_ok (bytes p) = true -> one_line (bytes p)) by (intros p; apply line_ok_spec).
  replace (_ ++ t) with ((bytes "# HELP " ++ bytes name ++ bytes " " ++ bytes help) ++ LF ++
    (bytes "# TYPE " ++ bytes name ++ bytes " " ++ bytes kind) ++ LF ++ (bytes name ++ bytes " " ++ v) ++ LF ++ t)
    by (rewrite <- !app_assoc; done).
  rewrite !text_lines_app by (repeat (apply Forall_app; split); done || by apply Hlit).
  cbn [mbind list_bind]. unfold sample_of at 3. rewrite decide_False by (rewrite Hs; cbn; congruence).
  change (bytes name ++ bytes " " ++ v) with (bytes name ++ 32 :: v). by rewrite cut_space_app.
Qed.

Lemma digits_one_line s : Forall (fun c => is_digit c = true) s -> one_line s.
Proof. intros H. eapply Forall_impl; [exact H|]. intros c Hc ->. done. Qed.

Lemma dec_one_line n : 0 <= n -> one_line (dec n).
Proof. intros Hn. by apply digits_one_line, dec_digits. Qed.

Lemma fmt_one_line x : one_line (fmt_fixed2 x).
Proof.
  assert (Hc : forall c, 0 <= c -> one_line (dec (c / 100) ++ bytes "." ++ [48 + c / 10 mod 10; 48 + c mod 10])).
  { intros c Hc. apply Forall_app. split; [apply dec_one_line; mlia|]. repeat constructor; [done|mlia..]. }
  assert (Hs : forall s : bool, one_line (if s then bytes "-" else [])) by (intros []; by repeat constructor).
  destruct x as [s|s| |s m e]; unfold fmt_fixed2; cbv zeta.
  - apply Forall_app. split; [apply Hs|by apply Hc].
  - apply Forall_app. split; [apply Hs|by repeat constructor].
  - by repeat constructor.
  - apply Forall_app. split; [apply Hs|]. apply Hc. unfold hundredths.
    destruct (Z.ltb_spec e 0).
    + unfold div_even. pose proof (Z.div_pos (Z.pos m * 100) (2 ^ (- e)) ltac:(lia) (pow2_pos (- e) ltac:(lia))).
      destruct (_ || _); lia.
    + pose proof (pow2_pos e ltac:(lia)). lia.
Qed.

Definition is_u64_snapshot (m : MetricsSnapshot) : Prop :=
  is_usize (allocs m) /\ is_usize (frees m) /\ is_usize (cache_hits m) /\ is_usize (cache_misses m) /\
  is_usize (direct_allocs m).

Lemma samples_metrics_text rate m :
  name_ok (bytes rate) = true -> is_u64_snapshot m ->
  samples (metrics_text rate m) =
    [(bytes "aethalloc_allocs_total", dec (allocs m)); (bytes "aethalloc_frees_total", dec (frees m));
     (bytes "aethalloc_cache_hits_total", dec (cache_hits m));
     (bytes "aethalloc_cache_misses_total", dec (cache_misses m));
     (bytes "aethalloc_direct_allocs_total", dec (direct_allocs m)); (bytes rate, fmt_fixed2 (hit_rate m));
     (bytes "aethalloc_active_blocks", dec (saturating_sub (allocs m) (frees m)))].
Proof.
  intros Hr (H1 & H2 & H3 & H4 & H5). unfold metrics_text.
  rewrite <- (app_nil_r (metric "aethalloc_active_blocks" _ _ _)).
  rewrite !samples_metric; try done; try apply fmt_one_line; apply dec_one_line;
    first [apply H1 | apply H2 | apply H3 | apply H4 | apply H5 | unfold saturating_sub; lia].
Qed.

(** The value of the sample [name], as an integer. *)
Definition scrape (name : string) (s : text) : option Z :=
  r ← list_find (fun p => p.1 = bytes name) (samples s);
  parse_unsigned (2 ^ 64) r.2.2.

Lemma parse_u64_dec n : is_usize n -> parse_unsigned (2 ^ 64) (dec n) = Some n.
Proof. intros [H1 H2]. rewrite parse_unsigned_dec by lia. by rewrite (proj2 (Z.ltb_lt n (2 ^ 64)) H2). Qed.

(** The bytes of the names are told apart by computing. *)
Ltac find_sample :=
  unfold scrape; cbn [list_find fst snd];
  repeat (first [rewrite decide_True by reflexivity | rewrite decide_False by (vm_compute; discriminate)];
          cbn [fmap option_fmap option_map prod_map fst snd]);
  cbn [mbind option_bind snd]; apply parse_u64_dec.

(** What is scraped from the text are the counters, whatever the hit rate is called. *)
Definition scraped (m : MetricsSnapshot) (s : text) : Prop :=
  scrape "aethalloc_allocs_total" s = Some (allocs m) /\
  scrape "aethalloc_frees_total" s = Some (frees m) /\
  scrape "aethalloc_cache_hits_total" s = Some (cache_hits m) /\
  scrape "aethalloc_cache_misses_total" s = Some (cache_misses m) /\
  scrape "aethalloc_direct_allocs_total" s = Some (direct_allocs m) /\
  scrape "aethalloc_active_blocks" s = Some (Z.max 0 (allocs m - frees m)).

Lemma metrics_text_scraped rate m :
  rate = "aethalloc_cache_hit_rate"%string \/ rate = "aethalloc_cache_hit_rate_percent"%string ->
  is_u64_snapshot m -> scraped m (metrics_text rate m).
Proof.
  intros Hr Hm. assert (Hn : name_ok (bytes rate) = true) by (by destruct Hr as [-> | ->]).
  unfold scraped, scrape. rewrite (samples_metrics_text rate m Hn Hm). destruct Hm as (H1 & H2 & H3 & H4 & H5).
  split_and!; try find_sample; try done.
  destruct Hr as [-> | ->]; find_sample; unfold is_usize, saturating_sub in *; lia.
Qed.

(** ** The hit rate *)

(** A number of hundredths, as it is printed. *)
Definition percent (c : Z) : text := dec (c / 100) ++ bytes "." ++ [48 + c / 10 mod 10; 48 + c mod 10].

Lemma fmt_below ex x :
  ex < 0 -> below ex (100 * 2 ^ (- ex)) x -> exists c, 0 <= c <= 10000 /\ fmt_fixed2 x = percent c.
Proof.
  intros Hex Hx. destruct x as [s|s| |s m e]; try done; simpl in Hx.
  - subst s. by exists 0.
  - destruct Hx as (-> & He & Hm). exists (hundredths m e). split; [by apply (hundredths_le ex)|done].
Qed.

(** Equal counts divide to exactly 1. *)
Lemma f64_ratio_same t :
  0 < t < 2 ^ 64 -> fmt_fixed2 (SFmul 53 1024 (SFdiv 53 1024 (f64_of t) (f64_of t)) (f64_of 100)) = percent 10000.
Proof.
  intros Ht. destruct (f64_of_spec t Ht) as (p & e & -> & Hp & He & _). unfold SFdiv, SFdiv_core_binary.
  rewrite !Z.sub_diag. change (Z.min (fexp 53 1024 0) 0) with (-53). change (0 - -53) with 53. cbv iota.
  rewrite Z.shiftl_mul_pow2 by lia. pose proof (Z_div_mod (Z.pos p * 2 ^ 53) (Z.pos p) ltac:(lia)) as Hdiv.
  destruct (Z.div_eucl (Z.pos p * 2 ^ 53) (Z.pos p)) as [m r]. destruct Hdiv as [Hdiv Hr].
  assert (m = 2 ^ 53) as -> by nia. assert (r = 0) as -> by lia.
  replace (new_location (Z.pos p) 0) with loc_Exact by (unfold new_location; by destruct (Z.even (Z.pos p))).
  vm_compute. reflexivity.
Qed.

(** C40: the hit rate is printed as a percentage between 0.00 and 100.00, in spite of the
    rounding of both counts, of the quotient, of the product and of the decimals, as
    long as the two counts do not overflow together: 0.00 when there was no hit, 100.00
    when there was no miss. *)
Theorem hit_rate_percentage m :
  is_u64_snapshot m -> cache_hits m + cache_misses m < 2 ^ 64 ->
  (exists c, 0 <= c <= 10000 /\ fmt_fixed2 (hit_rate m) = percent c) /\
  (cache_hits m = 0 -> fmt_fixed2 (hit_rate m) = percent 0) /\
  (cache_hits m <> 0 -> cache_misses m = 0 -> fmt_fixed2 (hit_rate m) = percent 10000).
Proof.
  intros (_ & _ & [Hh0 Hh1] & [Hm0 Hm1] & _) Hsum. unfold hit_rate. rewrite wrap64_small by (unfold is_usize; lia).
  set (h := cache_hits m) in *. set (t := h + cache_misses m) in *.
  destruct (Z.ltb_spec 0 t) as [Ht|Ht].
  2:{ assert (h = 0) as -> by lia. split; [by exists 0|done]. }
  destruct (decide (h = 0)) as [Hz|Hz].
  - rewrite Hz. change (f64_of 0) with (S754_zero false). destruct (f64_of_spec t ltac:(lia)) as (p & e & -> & _).
    split; [by exists 0|done].
  - split; [|split; [done|]].
    + destruct (f64_ratio_below h t ltac:(lia) ltac:(lia)) as (ex & H1 & H2 & Hr).
      destruct (percent_below ex _ H1 H2 Hr) as (ex' & H3 & Hp). exact (fmt_below ex' _ H3 Hp).
    + intros _ Hm. assert (Heq : t = h) by lia. rewrite Heq. apply f64_ratio_same. lia.
Qed.

(** ** A reader of responses *)

(** The text before the first CRLF and the text after it. *)
Fixpoint cut_crlf (s : text) : option (text * text) :=
  match s with
  | [] => None
  | c :: s' =>
      if (c =? 13) && bool_decide (head s' = Some 10) then Some ([], tail s')
      else r ← cut_crlf s'; Some (c :: r.1, r.2)
  end.

(** The lines up to the empty one and what follows it. *)
Fixpoint read_head (fuel : nat) (s : text) : option (list text * text) :=
  match fuel with
  | O => None
  | S fuel' =>
      r ← cut_crlf s;
      if decide (r.1 = []) then Some ([], r.2)
      else r' ← read_head fuel' r.2; Some (r.1 :: r'.1, r'.2)
  end.

Fixpoint strip_prefix (p s : text) : option text :=
  match p, s with
  | [], _ => Some s
  | a :: p', b :: s' => if a =? b then strip_prefix p' s' else None
  | _, [] => None
  end.

(** The first Content-Length of the header lines. *)
Fixpoint content_length (headers : list text) : option Z :=
  match headers with
  | [] => None
  | h :: hs =>
      match strip_prefix (bytes "Content-Length: ") h with
      | Some v => parse_unsigned (2 ^ 64) v
      | None => content_length hs
      end
  end.

(** A response from a connection: its status line, its body by Content-Length, and the
    bytes that come after it. *)
Definition read_response (s : text) : option (text * text * text) :=
  r ← read_head (length s) s;
  match r.1 with
  | [] => None
  | status :: headers =>
      n ← content_length headers;
      if n <=? Z.of_nat (length r.2)
      then Some (status, take (Z.to_nat n) r.2, drop (Z.to_nat n) r.2)
      else None
  end.

Definition no_cr (s : text) : Prop := Forall (fun c => c <> 13) s.

Lemma cut_crlf_app l t : no_cr l -> cut_crlf (l ++ CRLF ++ t) = Some (l, t).
Proof.
  induction 1 as [|c l Hc _ IH]; [done|]. cbn [app cut_crlf]. by rewrite (proj2 (Z.eqb_neq c 13) Hc), IH.
Qed.

Lemma read_head_line fuel l t :
  no_cr l -> l <> [] -> read_head (S fuel) (l ++ CRLF ++ t) = r ← read_head fuel t; Some (l :: r.1, r.2).
Proof.
  intros Hl Hne. cbn [read_head]. rewrite cut_crlf_app by done. cbn [mbind option_bind fst snd].
  by rewrite decide_False.
Qed.

Lemma read_head_end fuel t : read_head (S fuel) (CRLF ++ t) = Some ([], t).
Proof. done. Qed.

Lemma strip_prefix_app p s : strip_prefix p (p ++ s) = Some s.
Proof. induction p as [|a p IH]; [done|]. cbn [app strip_prefix]. by rewrite Z.eqb_refl. Qed.

Lemma dec_no_cr n : 0 <= n -> no_cr (dec n).
Proof. intros Hn. eapply Forall_impl; [by apply dec_digits|]. intros c Hc ->. done. Qed.

(** A response is read back, with the bytes that follow it untouched. *)
Lemma read_http_response status body t :
  no_cr (bytes status) -> Z.of_nat (length body) < 2 ^ 64 ->
  read_response (http_response status body ++ t) = Some (bytes "HTTP/1.1 " ++ bytes status, body, t).
Proof.
  intros Hs Hb. unfold read_response.
  assert (Hf : exists k, length (http_response status body ++ t) = S (S (S (S k)))).
  { exists (length (http_response status body ++ t) - 4)%nat. unfold http_response. rewrite <- !app_assoc, length_app.
    change (length (bytes "HTTP/1.1 ")) with 9%nat. lia. }
  destruct Hf as [k ->]. unfold http_response.
  replace (_ ++ t) with ((bytes "HTTP/1.1 " ++ bytes status) ++ CRLF ++
    bytes "Content-Type: text/plain; version=0.0.4" ++ CRLF ++
    (bytes "Content-Length: " ++ dec (Z.of_nat (length body))) ++ CRLF ++ CRLF ++ body ++ t)
    by (rewrite <- !app_assoc; done).
  rewrite read_head_line; [|apply Forall_app; split; [by repeat constructor|done]|done].
  rewrite read_head_line; [|by repeat constructor|done].
  rewrite read_head_line; [|apply Forall_app; split; [by repeat constructor|by apply dec_no_cr; lia]|done].
  rewrite read_head_end. cbn [mbind option_bind fst snd content_length].
  change (strip_prefix (bytes "Content-Length: ") (bytes "Content-Type: text/plain; version=0.0.4")) with (@None text).
  cbv iota. rewrite strip_prefix_app, parse_u64_dec by (unfold is_usize; lia). cbn [mbind option_bind fst snd].
  rewrite length_app, (proj2 (Z.leb_le _ _)) by lia. by rewrite Nat2Z.id, take_app_length, drop_app_length.
Qed.

(** ** Serving *)

(** A request line and what follows it. *)
Definition http_request (meth path version rest : text) : text :=
  meth ++ bytes " " ++ path ++ bytes " " ++ version ++ CRLF ++ rest.

(** The parts of a request line: ASCII words, and nothing in the rest that is not UTF-8. *)
Definition request_ok (meth path version rest : text) : Prop :=
  is_word meth /\ is_word path /\ is_ascii meth /\ is_ascii path /\ is_ascii version /\ one_line version /\
  is_Some (utf8_decode rest).

Lemma request_path_ok meth path version rest :
  request_ok meth path version rest -> request_path (http_request meth path version rest) = path.
Proof.
  intros (Hm & Hp & Am & Ap & Av & Lv & r & Hr). unfold request_path, http_request.
  assert (Hcr : is_ascii CRLF) by (repeat constructor; lia). assert (Hsp : is_ascii (bytes " ")) by (repeat constructor; simpl; lia).
  rewrite !utf8_ascii_app by done. rewrite Hr. cbn [fmap option_fmap option_map from_option id]. cbv zeta.
  replace (meth ++ bytes " " ++ path ++ bytes " " ++ version ++ CRLF ++ r)
    with ((meth ++ 32 :: (path ++ 32 :: version)) ++ CRLF ++ r) by (rewrite <- !app_assoc; simpl; by rewrite <- !app_assoc).
  rewrite first_line_crlf.
  - by rewrite !split_word.
  - apply Forall_app. split; [by apply word_one_line|]. apply Forall_cons. split; [done|].
    apply Forall_app. split; [by apply word_one_line|]. by apply Forall_cons.
Qed.

(** What a path is answered with: the status line and the body. *)
Definition answer (path metrics_body : text) : text * text :=
  if decide (path = bytes "/metrics") then (bytes "HTTP/1.1 200 OK", metrics_body)
  else if decide (path = bytes "/health" \/ path = bytes "/") then (bytes "HTTP/1.1 200 OK", bytes "OK" ++ LF)
  else (bytes "HTTP/1.1 404 Not Found", bytes "Not Found" ++ LF).

Lemma handle_client_path buffer m t :
  Z.of_nat (length (format_prometheus_metrics m)) < 2 ^ 64 ->
  exists resp, handle_client (Some buffer) m = Some resp /\
    read_response (resp ++ t) =
      Some ((answer (request_path buffer) (format_prometheus_metrics m)).1,
            (answer (request_path buffer) (format_prometheus_metrics m)).2, t).
Proof.
  intros Hl. eexists. split; [reflexivity|]. unfold answer.
  destruct (decide (request_path buffer = bytes "/metrics")).
  { apply read_http_response; [by repeat constructor|done]. }
  destruct (decide (request_path buffer = bytes "/health" \/ request_path buffer = bytes "/"));
    apply read_http_response; by repeat constructor.
Qed.

(** C38: to every request that is read, the standalone server sends one response, and a
    client that reads by the status line and Content-Length gets exactly the answer to
    the path of the request line and no byte of what follows: the metrics for
    [/metrics], a health message for [/health] and [/], 404 for every other path.  When
    reading fails nothing is sent; bytes that are not UTF-8 count as a request for
    [/]. *)
Theorem handle_client_correct meth path version rest m t :
  request_ok meth path version rest -> Z.of_nat (length (format_prometheus_metrics m)) < 2 ^ 64 ->
  (exists resp, handle_client (Some (http_request meth path version rest)) m = Some resp /\
    read_response (resp ++ t) =
      Some ((answer path (format_prometheus_metrics m)).1, (answer path (format_prometheus_metrics m)).2, t)) /\
  (forall buffer, utf8_decode buffer = None ->
    exists resp, handle_client (Some buffer) m = Some resp /\
      read_response (resp ++ t) = Some (bytes "HTTP/1.1 200 OK", bytes "OK" ++ LF, t)) /\
  handle_client None m = None.
Proof.
  intros Hreq Hl. split; [|split; [|done]].
  - destruct (handle_client_path (http_request meth path version rest) m t Hl) as (resp & H1 & H2).
    exists resp. split; [done|]. by rewrite (request_path_ok _ _ _ _ Hreq) in H2.
  - intros buffer Hb. destruct (handle_client_path buffer m t Hl) as (resp & H1 & H2).
    exists resp. split; [done|]. unfold request_path in H2. rewrite Hb in H2. exact H2.
Qed.

(** C39: the text served is read back by its samples as the counters it was made from,
    for all values of 64 bits, and the estimate of active blocks as their difference,
    0 when more blocks were freed than allocated; in both servers. *)
Theorem metrics_text_roundtrip m :
  is_u64_snapshot m ->
  scraped m (format_prometheus_metrics m) /\
  scraped m (metrics_text "aethalloc_cache_hit_rate" m).
Proof. intros Hm. split; (apply metrics_text_scraped; [auto|done]). Qed.

(** ** The embedded server *)

Section embedded_facts.
Context {W : Type} `{L : Loader W}.

(** The library a state of the process has, or gets when it is first needed. *)
Definition library (s : exporter W) : option Z :=
  match LIB s with Some l => l | None => (Library_new (ex_world s)).1 end.

(** The state with the library loaded. *)
Definition loaded (s : exporter W) : exporter W :=
  match LIB s with
  | Some _ => s
  | None => {| LIB := Some (Library_new (ex_world s)).1; ex_world := (Library_new (ex_world s)).2 |}
  end.

(** The metrics in that state. *)
Definition metrics_of (s : exporter W) : option MetricsSnapshot :=
  match library s with
  | Some h =>
      if has_get_metrics (ex_world (loaded s)) h then Some (aethalloc_get_metrics (ex_world (loaded s)) h) else None
  | None => None
  end.

Lemma lib_get_metrics_run s : lib_get_metrics s = Ret (metrics_of s, loaded s).
Proof.
  unfold lib_get_metrics, get_or_init, metrics_of, library, loaded. run_m.
  destruct (LIB s) as [[h|]|]; [done|done|]. by destruct (Library_new (ex_world s)) as [[h|] w].
Qed.

Definition metrics_body (s : exporter W) : text :=
  match metrics_of s with
  | Some m => metrics_text "aethalloc_cache_hit_rate" m
  | None => bytes "# ERROR: libaethalloc.so not loaded" ++ LF
  end.

Lemma format_metrics_run s : format_metrics s = Ret (metrics_body s, loaded s).
Proof.
  unfold format_metrics, mbind, M_bind. rewrite lib_get_metrics_run. unfold metrics_body. by destruct (metrics_of s).
Qed.

Lemma lib_handle_client_run buffer s :
  lib_handle_client (Some buffer) s =
    Ret (Some (http_response
           (if decide (request_path buffer = bytes "/metrics" \/ request_path buffer = bytes "/health" \/ request_path buffer = bytes "/")
            then "200 OK" else "404 Not Found")
           (answer (request_path buffer) (metrics_body s)).2),
         if decide (request_path buffer = bytes "/metrics") then loaded s else s).
Proof.
  unfold lib_handle_client, answer. cbv zeta. set (p := request_path buffer).
  destruct (decide (p = bytes "/metrics")) as [Hp|Hp].
  - unfold mbind, M_bind. rewrite format_metrics_run. cbv beta iota. rewrite decide_True by auto. done.
  - destruct (decide (p = bytes "/health" \/ p = bytes "/")) as [Hq|Hq].
    + rewrite decide_True by auto. done.
    + rewrite decide_False by tauto. done.
Qed.

(** The embedded server answers as the standalone one, with the allocator's
    counters at the time of the request; the library is opened at the first request
    for the metrics only, and when that fails every later request for them gets the
    error text, though the library could be loaded by then. *)
Theorem lib_handle_client_correct meth path version rest s t :
  request_ok meth path version rest -> Z.of_nat (length (metrics_body s)) < 2 ^ 64 ->
  exists resp s',
    lib_handle_client (Some (http_request meth path version rest)) s = Ret (Some resp, s') /\
    read_response (resp ++ t) = Some ((answer path (metrics_body s)).1, (answer path (metrics_body s)).2, t) /\
    s' = (if decide (path = bytes "/metrics") then loaded s else s) /\
    (LIB s = Some None -> LIB s' = Some None /\ metrics_body s' = bytes "# ERROR: libaethalloc.so not loaded" ++ LF).
Proof.
  intros Hreq Hl. pose proof (lib_handle_client_run (http_request meth path version rest) s) as Hrun.
  rewrite (request_path_ok _ _ _ _ Hreq) in Hrun. do 2 eexists. split; [exact Hrun|]. split; [|split; [done|]].
  - unfold answer. destruct (decide (path = bytes "/metrics")) as [Hp|Hp].
    { rewrite decide_True by auto. apply read_http_response; [by repeat constructor|done]. }
    destruct (decide (path = bytes "/health" \/ path = bytes "/")) as [Hq|Hq].
    + rewrite decide_True by auto. apply read_http_response; by repeat constructor.
    + rewrite decide_False by tauto. apply read_http_response; by repeat constructor.
  - intros Hs. assert (Hload : loaded s = s) by (unfold loaded; by rewrite Hs). destruct (decide (path = bytes "/metrics")); rewrite ?Hload;
      (split; [done|]); unfold metrics_body, metrics_of, library; by rewrite Hs.
Qed.
End embedded_facts.

(** ** The command line *)

Definition is_port_flag (f : text) : Prop := f = bytes "-p" \/ f = bytes "--port".

(** Port options: flags with their values. *)
Definition port_options (l : list (text * text)) : list text := l ≫= fun p => [p.1; p.2].

Lemma parse_args_ports port l rest :
  Forall (fun p => is_port_flag p.1) l ->
  parse_args port (port_options l ++ rest) =
    parse_args (match last l with Some p => default DEFAULT_PORT (parse_u16 p.2) | None => port end) rest.
Proof.
  intros Hl. revert port. induction Hl as [|[f v] l Hf _ IH]; intros port; [done|]. cbn [port_options mbind list_bind app].
  cbn [parse_args fst snd]. rewrite decide_True by done. fold (port_options l). rewrite IH.
  destruct l; [done|]. rewrite last_cons_cons, last_cons. by destruct (last l).
Qed.

(** The last port option decides the port, the default standing in for a value that
    is no port; without options the environment does; a port printed in decimal is read
    back.  A flag without value, a request for help or an unknown argument ends the
    program before any port is opened, with status 1, 0 and 1. *)
Theorem parse_args_correct env l arg rest :
  Forall (fun p => is_port_flag p.1) l ->
  parse_args (env_port env) (port_options l) =
    inl (match last l with Some p => default DEFAULT_PORT (parse_u16 p.2) | None => env_port env end) /\
  (forall n, 0 <= n -> parse_u16 (dec n) = if n <? 65536 then Some n else None) /\
  (is_port_flag arg -> exists out, parse_args (env_port env) (port_options l ++ [arg]) = inr (out, 1)) /\
  (arg = bytes "-h" \/ arg = bytes "--help" ->
    parse_args (env_port env) (port_options l ++ arg :: rest) = inr (print_usage, 0)) /\
  (~ is_port_flag arg -> ~ (arg = bytes "-h" \/ arg = bytes "--help") ->
    exists out, parse_args (env_port env) (port_options l ++ arg :: rest) = inr (out, 1)).
Proof.
  intros Hl. split; [|split; [|split; [|split]]].
  - rewrite <- (app_nil_r (port_options l)), parse_args_ports by done. done.
  - intros n Hn. apply (parse_unsigned_dec (2 ^ 16)); lia.
  - intros Ha. eexists. rewrite parse_args_ports by done. cbn [parse_args]. by rewrite decide_True.
  - intros Ha. rewrite parse_args_ports by done. cbn [parse_args]. rewrite decide_False, decide_True; [done|done|].
    by destruct Ha as [-> | ->]; intros [H|H].
  - intros Ha Hb. eexists. rewrite parse_args_ports by done. cbn [parse_args]. by rewrite !decide_False.
Qed.

(** ** Instances *)

Definition demo_snapshot : MetricsSnapshot :=
  {| allocs := 100; frees := 140; cache_hits := 2; cache_misses := 1; direct_allocs := 18446744073709551615 |}.

Lemma demo_snapshot_u64 : is_u64_snapshot demo_snapshot.
Proof. repeat split; vm_compute; congruence. Qed.

Definition demo_get : text := bytes "GET".
Definition demo_version : text := bytes "HTTP/1.1".

Lemma demo_request_ok : request_ok demo_get (bytes "/metrics") demo_version CRLF.
Proof. unfold request_ok, is_word. split_and!; try discriminate; try (repeat constructor; vm_compute; congruence). eexists. reflexivity. Qed.

Lemma handle_client_correct_witness :
  exists resp, handle_client (Some (http_request demo_get (bytes "/metrics") demo_version CRLF)) demo_snapshot = Some resp /\
    read_response (resp ++ LF) = Some (bytes "HTTP/1.1 200 OK", format_prometheus_metrics demo_snapshot, LF).
Proof.
  exact (proj1 (handle_client_correct demo_get (bytes "/metrics") demo_version CRLF demo_snapshot LF
    demo_request_ok ltac:(vm_compute; reflexivity))).
Defined.

Lemma metrics_text_roundtrip_witness :
  scrape "aethalloc_direct_allocs_total" (format_prometheus_metrics demo_snapshot) = Some 18446744073709551615.
Proof.
  destruct (metrics_text_roundtrip demo_snapshot demo_snapshot_u64) as [(_ & _ & _ & _ & H & _) _]. exact H.
Defined.

(** A process whose library never loads. *)
Definition no_library : Loader unit := {|
  Library_new w := (None, w);
  has_get_metrics _ _ := false;
  aethalloc_get_metrics _ _ := MetricsSnapshot_default
|}.

Lemma lib_handle_client_correct_witness :
  exists resp s',
    lib_handle_client (L := no_library) (Some (http_request demo_get (bytes "/metrics") demo_version CRLF))
      {| LIB := None; ex_world := tt |} = Ret (Some resp, s') /\
    read_response resp = Some (bytes "HTTP/1.1 200 OK", bytes "# ERROR: libaethalloc.so not loaded" ++ LF, []).
Proof.
  destruct (@lib_handle_client_correct unit no_library demo_get (bytes "/metrics") demo_version CRLF
    {| LIB := None; ex_world := tt |} [] demo_request_ok ltac:(vm_compute; reflexivity)) as (resp & s' & H1 & H2 & _).
  rewrite app_nil_r in H2. exists resp, s'. split; [exact H1|exact H2].
Defined.

Lemma parse_args_correct_witness :
  parse_args (env_port None) [bytes "-p"; bytes "80"; bytes "--port"; bytes "8080"] = inl 8080.
Proof.
  refine (proj1 (parse_args_correct None [(bytes "-p", bytes "80"); (bytes "--port", bytes "8080")] [] [] _)).
  apply List.Forall_cons; [left; reflexivity|]. apply List.Forall_cons; [right; reflexivity|]. apply List.Forall_nil.
Defined.

Lemma hit_rate_percentage_witness :
  exists c, 0 <= c <= 10000 /\ fmt_fixed2 (hit_rate demo_snapshot) = percent c.
Proof.
  exact (proj1 (hit_rate_percentage demo_snapshot demo_snapshot_u64 ltac:(vm_compute; reflexivity))).
Defined.
