(* ===== verification/Counting.v ===== *)
(** * What the counters count

    Ties the calls of a client to the counters of aethalloc-abi/src/global.rs in both
    modes of the allocator, and these to the text that aethalloc-metrics serves.
    [counts] says which events a computation records; everything but the counters'
    own code records none. *)

From Stdlib Require Import String.
From S2P Require Import Prelude SizeClass Memory Extents AllocSpec Page Magazine Metadata.
From S2P Require Import Metrics Headers AllocCore SimpleCache SimpleLists SimpleSafe SimpleAllocator.
From S2P Require Import Global GlobalInv GlobalSafe Allocator Text Exporter.

(** ** The counters of a state *)

(** The global counters and those of every thread. *)
Class CountOps (St : Type) : Type := co : St -> Metrics * list Metrics.

Class CountLaws (St : Type) {O : ModeOps St} {CO : CountOps St} : Prop := {
  co_set m (s : St) : co (md_set m s) = co s;
  co_metrics {A} t (m : M (Metrics * Metrics) A) (s : St) a s' :
    md_metrics t m s = Ret (a, s') ->
    exists c x', (co s).2 !! t = Some c /\ m ((co s).1, c) = Ret (a, x') /\
      co s' = (x'.1, <[t := x'.2]> (co s).2)
}.

(** The events [l] were added to the counters [c], which are [c'] now. *)
Definition added (l : list (nat * event)) (c c' : Metrics * list Metrics) : Prop :=
  (forall f w, (f, w) ∈ counters -> total f c'.1 c'.2 mod 2 ^ 64 = (total f c.1 c.2 + tally w l) mod 2 ^ 64) /\
  (is_u64_snapshot c.1 -> is_u64_snapshot c'.1).

Lemma added_nil c : added [] c c.
Proof. split; [|done]. intros f w _. simpl. f_equal. lia. Qed.

Lemma tally_app w l1 l2 : tally w (l1 ++ l2) = tally w l1 + tally w l2.
Proof. induction l1 as [|x l1 IH]; simpl; [lia|]. rewrite IH. lia. Qed.

Lemma added_app l1 l2 c1 c2 c3 : added l1 c1 c2 -> added l2 c2 c3 -> added (l1 ++ l2) c1 c3.
Proof.
  intros [H1 U1] [H2 U2]. split; [|by auto]. intros f w Hf. rewrite (H2 f w Hf), tally_app.
  rewrite <- Z.add_mod_idemp_l, (H1 f w Hf), Z.add_mod_idemp_l by lia. f_equal. lia.
Qed.

(** ** Computations and what they count *)

Section counts.
Context {St : Type} {CO : CountOps St}.

Definition counts {A} (P : A -> list (nat * event) -> Prop) (m : M St A) : Prop :=
  forall s a s', m s = Ret (a, s') -> exists l, P a l /\ added l (co s) (co s').

(** The counters are left alone. *)
Definition quiet {A} (m : M St A) : Prop := forall s a s', m s = Ret (a, s') -> co s' = co s.

Lemma bind_inv {A B} (m : M St A) (k : A -> M St B) s b s'' :
  (m ≫= k) s = Ret (b, s'') -> exists a s', m s = Ret (a, s') /\ k a s' = Ret (b, s'').
Proof. unfold mbind, M_bind. destruct (m s) as [[a s']| | |]; try done. eauto. Qed.

Lemma quiet_ret {A} (a : A) : quiet (mret a).
Proof. by intros s b s' [= <- <-]. Qed.

Lemma quiet_bind {A B} (m : M St A) (k : A -> M St B) : quiet m -> (forall a, quiet (k a)) -> quiet (m ≫= k).
Proof. intros Hm Hk s b s'' (a & s' & H1 & H2)%bind_inv. by rewrite (Hk a _ _ _ H2), (Hm _ _ _ H1). Qed.

Lemma quiet_getS : quiet getS.
Proof. by intros s a s' [= <- <-]. Qed.

Lemma quiet_or_fault {A} (o : option A) : quiet (or_fault o).
Proof. destruct o; [apply quiet_ret|by intros s a s']. Qed.

Lemma quiet_modify (f : St -> St) : (forall s, co (f s) = co s) -> quiet (modifyS f).
Proof. by intros Hf s a s' [= <- <-]. Qed.

Lemma quiet_zoom {T A} (get : St -> option T) put (m : M T A) :
  (forall x s, co (put x s) = co s) -> quiet (zoom get put m).
Proof.
  intros Hp s a s'. unfold zoom. destruct (get s) as [x|]; [|done].
  destruct (m x) as [[b x']| | |]; try done. by intros [= <- <-].
Qed.

Lemma counts_quiet {A} (m : M St A) : quiet m -> counts (fun _ l => l = []) m.
Proof. intros Hm s a s' Hr. exists []. rewrite (Hm _ _ _ Hr). split; [done|apply added_nil]. Qed.

Lemma counts_bind {A B} (P : A -> list (nat * event) -> Prop) (Q : B -> list (nat * event) -> Prop)
    (m : M St A) (k : A -> M St B) :
  counts P m -> (forall a l, P a l -> counts (fun b l' => Q b (l ++ l')) (k a)) -> counts Q (m ≫= k).
Proof.
  intros Hm Hk s b s'' (a & s' & H1 & H2)%bind_inv. destruct (Hm _ _ _ H1) as (l & HP & Hl).
  destruct (Hk a l HP _ _ _ H2) as (l' & HQ & Hl'). exists (l ++ l'). split; [done|by eapply added_app].
Qed.

Lemma counts_mono {A} (P Q : A -> list (nat * event) -> Prop) (m : M St A) :
  counts P m -> (forall a l, P a l -> Q a l) -> counts Q m.
Proof. intros Hm HPQ s a s' Hr. destruct (Hm _ _ _ Hr) as (l & ? & ?). eauto. Qed.

(** A quiet step before or after a counting one. *)
Lemma counts_after {A B} (Q : B -> list (nat * event) -> Prop) (m : M St A) (k : A -> M St B) :
  quiet m -> (forall a, counts Q (k a)) -> counts Q (m ≫= k).
Proof. intros Hm Hk. eapply counts_bind; [by apply counts_quiet|]. intros a l ->. apply Hk. Qed.

Lemma counts_before {A B} l (m : M St A) (k : A -> M St B) :
  counts (fun _ l' => l' = l) m -> (forall a, quiet (k a)) -> counts (fun _ l' => l' = l) (m ≫= k).
Proof.
  intros Hm Hk. eapply counts_bind; [exact Hm|]. intros a l' ->. eapply counts_mono; [by apply counts_quiet|].
  intros b l'' ->. apply app_nil_r.
Qed.
End counts.

Create HintDb counting discriminated.
#[export] Hint Constants Opaque : counting.
#[export] Hint Resolve quiet_ret quiet_bind quiet_getS quiet_or_fault : counting.

(** ** The counters' own code *)

Section metrics.
Context {St : Type} {O : ModeOps St} {CO : CountOps St} {CL : CountLaws St}.

Lemma quiet_on_mem {A} (m : M memory A) : quiet (md_on_mem m).
Proof. apply quiet_zoom. intros. apply co_set. Qed.

(** A step of one thread's counters, by what it does to each field. *)
Lemma metrics_counts {A} t (m : M (Metrics * Metrics) A) l :
  (forall g c a g' c', m (g, c) = Ret (a, (g', c')) ->
     (forall f w, (f, w) ∈ counters -> (f g' + f c') mod 2 ^ 64 = (f g + f c + tally w l) mod 2 ^ 64) /\
     (is_u64_snapshot g -> is_u64_snapshot g')) ->
  counts (fun _ l' => l' = l) (md_metrics t m).
Proof.
  intros Hm s a s' Hr. exists l. split; [done|]. destruct (co_metrics _ _ _ _ _ Hr) as (c & [g' c'] & Hc & Hx & ->).
  destruct (Hm _ _ _ _ _ Hx) as [Hf Hu]. split; [|done]. intros f w Hfw. cbn [fst snd].
  rewrite (total_insert f (co s).1 g' _ t c c' Hc). specialize (Hf f w Hfw). cbn [fst] in Hf.
  replace (total f (co s).1 (co s).2 + (f g' - f (co s).1) + (f c' - f c))
    with ((f g' + f c') + (total f (co s).1 (co s).2 - f (co s).1 - f c)) by lia.
  rewrite <- Z.add_mod_idemp_l, Hf, Z.add_mod_idemp_l by lia. f_equal. lia.
Qed.

Lemma counts_event t e : counts (fun _ l => l = [(t, e)]) (md_metrics t (modifyS (fun s => (s.1, count_event e s.2)))).
Proof.
  apply metrics_counts. intros g c a g' c' [= <- <- <-]. split; [|done]. intros f w Hf.
  rewrite <- Z.add_mod_idemp_r, (count_field f w e c Hf), Z.add_mod_idemp_r by lia. f_equal. simpl. lia.
Qed.

Lemma flush_u64 g c a g' c' :
  ThreadMetrics_maybe_flush (g, c) = Ret (a, (g', c')) -> is_u64_snapshot g -> is_u64_snapshot g'.
Proof.
  unfold ThreadMetrics_maybe_flush. run_m. destruct (_ <=? _); intros [= <- <- <-]; [|done]. intros _.
  unfold is_u64_snapshot. cbn [fst fetch_add_all allocs frees cache_hits cache_misses direct_allocs].
  auto using wrap64_range.
Qed.

Lemma counts_flush t : counts (fun _ l => l = []) (md_metrics t ThreadMetrics_maybe_flush).
Proof.
  apply metrics_counts. intros g c a g' c' Hr. split; [|by eapply flush_u64]. intros f w Hf.
  rewrite (flush_adds _ _ _ _ _ _ _ Hr Hf). simpl. f_equal. lia.
Qed.

Lemma counts_record t e : counts (fun _ l => l = [(t, e)]) (md_metrics t (record_event e)).
Proof.
  apply metrics_counts. intros g c a g' c'. unfold record_event. unfold mbind, M_bind, modifyS. cbn [fst snd].
  intros Hr. split; [|by eapply flush_u64]. intros f w Hf. rewrite (flush_adds _ _ _ _ _ _ _ Hr Hf).
  rewrite <- Z.add_mod_idemp_r, (count_field f w e c Hf), Z.add_mod_idemp_r by lia. f_equal. simpl. lia.
Qed.
End metrics.

#[export] Hint Resolve quiet_on_mem : counting.

(** The searches for quiet computations look through the code's case distinctions. *)
Ltac quiet_code :=
  repeat first
    [ progress intros
    | apply quiet_bind
    | solve [eauto 2 with counting]
    | match goal with
      | |- quiet (if ?b then _ else _) => destruct b
      | |- quiet (match ?x with _ => _ end) => destruct x
      end ].

(** ** What the two modes share *)

Section common.
Context {St : Type} {O : ModeOps St} {CO : CountOps St} {CL : CountLaws St} `{K : Kernel}.

Lemma cache_hit_counts t block size : counts (fun _ l => l = [(t, EvHit)]) (cache_hit (St := St) t block size).
Proof. apply counts_before; [apply counts_record|]. quiet_code. Qed.

Lemma miss_block_counts t base size : counts (fun _ l => l = []) (miss_block (St := St) t base size).
Proof. apply counts_after; [apply quiet_on_mem|]. intros _. apply counts_before; [apply counts_flush|]. quiet_code. Qed.

Lemma alloc_own_pages_counts t size bs : counts (fun _ l => l = []) (alloc_own_pages (St := St) t size bs).
Proof.
  apply counts_after; [apply quiet_on_mem|]. intros [base|]; [apply miss_block_counts|]. apply counts_quiet, quiet_ret.
Qed.

Lemma alloc_large_counts t size align : counts (fun _ l => l = [(t, EvDirect)]) (alloc_large (St := St) t size align).
Proof. apply counts_before; [apply counts_record|]. quiet_code. Qed.

Lemma dealloc_pages_counts t base h : counts (fun _ l => l = [(t, EvFree)]) (dealloc_pages (St := St) t base h).
Proof. apply counts_after; [apply quiet_on_mem|]. intros _. apply counts_record. Qed.

Lemma dealloc_by_page_counts t p : counts (fun _ l => l = [(t, EvFree)]) (dealloc_by_page (St := St) t p).
Proof. apply counts_after; [apply quiet_on_mem|]. intros h. apply dealloc_pages_counts. Qed.

(** A miss, whose event is counted before the pages are found. *)
Lemma miss_counts {A} t (k : M St A) :
  counts (fun _ l => l = []) k ->
  counts (fun _ l => l = [(t, EvMiss)]) (md_metrics t (modifyS (fun s => (s.1, count_event EvMiss s.2))) ;; k).
Proof.
  intros Hk. eapply counts_bind; [apply counts_event|]. intros _ l ->. eapply counts_mono; [exact Hk|]. by intros a l ->.
Qed.
End common.

(** The small requests, which the caches serve. *)
Definition cacheable (size align : Z) : bool := (size <=? MAX_CACHE_SIZE) && (align <=? 8).

(** What a call of [alloc] or [dealloc] is counted as. *)
Definition alloc_counted (t : nat) (size align : Z) (l : list (nat * event)) : Prop :=
  if size =? 0 then l = []
  else if cacheable size align then l = [(t, EvHit)] \/ l = [(t, EvMiss)]
  else l = [(t, EvDirect)].

Definition free_counted (t : nat) (p : Z) (l : list (nat * event)) : Prop :=
  if p =? 0 then l = [] else l = [(t, EvFree)].

(** The dispatch of [alloc] on the kind of request, which the modes share as well. *)
Lemma alloc_dispatch_counts {St} {O : ModeOps St} {CO : CountOps St} {CL : CountLaws St} `{K : Kernel}
    t size align (take : Z -> M St (option Z)) (miss : Z -> M St Z) :
  0 <= size ->
  (forall class, quiet (take class)) -> (forall class, counts (fun _ l => l = [(t, EvMiss)]) (miss class)) ->
  counts (fun _ => alloc_counted t size align)
    (if size =? 0 then mret 0
     else if (size <=? MAX_CACHE_SIZE) && (align <=? 8) then
       match size_to_class (Z.max (round_up_pow2 size) 16) with
       | Some class =>
           r ← take class;
           match r with Some block => cache_hit t block size | None => miss class end
       | None => alloc_large t size align
       end
     else alloc_large t size align).
Proof.
  intros Hs Htake Hmiss. unfold alloc_counted, cacheable. destruct (Z.eqb_spec size 0) as [|Hne].
  { apply counts_quiet, quiet_ret. }
  destruct ((size <=? MAX_CACHE_SIZE) && (align <=? 8)) eqn:Hc; [|apply alloc_large_counts].
  destruct (size_to_class_total size) as (c & Hcl & _); [unfold MAX_CACHE_SIZE in Hc; lia|].
  rewrite (size_to_class_rounded size c Hcl). apply counts_after; [apply Htake|]. intros [block|].
  - eapply counts_mono; [apply cache_hit_counts|]. by left.
  - eapply counts_mono; [apply Hmiss|]. by right.
Qed.

(** ** Magazine-caching mode *)

#[global] Instance state_counts : CountOps state := fun s => (st_gmetrics s, tc_metrics <$> st_caches s).

Lemma caches_metrics_same (l : list ThreadCache) t c c' :
  l !! t = Some c -> tc_metrics c' = tc_metrics c -> tc_metrics <$> <[t := c']> l = tc_metrics <$> l.
Proof. intros Hl Hc. rewrite list_fmap_insert, Hc. apply list_insert_id. by rewrite list_lookup_fmap, Hl. Qed.

#[global] Instance state_count_laws : CountLaws state.
Proof.
  split; [done|]. intros A t m s a s'. cbn [md_metrics state_mode]. unfold on_metrics, zoom, get_metrics.
  destruct (st_caches s !! t) as [c|] eqn:Hc; [|done]. cbn [mbind option_bind].
  destruct (m (st_gmetrics s, tc_metrics c)) as [[b x]| | |] eqn:Hm; try done. intros [= <- <-].
  exists (tc_metrics c), x. split; [unfold co, state_counts; cbn [snd]; by rewrite list_lookup_fmap, Hc|]. split; [done|].
  unfold put_metrics, co, state_counts. rewrite Hc. cbn [st_gmetrics st_caches snd]. by rewrite list_fmap_insert.
Qed.

Lemma co_put_alloc_mag t class m s : co (put_alloc_mag t class m s) = co s.
Proof.
  unfold put_alloc_mag. destruct (st_caches s !! t) as [c|] eqn:Hc; [|done].
  unfold co, state_counts. cbn. f_equal. by eapply caches_metrics_same.
Qed.

Lemma co_put_free_mag t class m s : co (put_free_mag t class m s) = co s.
Proof.
  unfold put_free_mag. destruct (st_caches s !! t) as [c|] eqn:Hc; [|done].
  unfold co, state_counts. cbn. f_equal. by eapply caches_metrics_same.
Qed.

Lemma quiet_alloc_mag {A} t class (m : M Magazine A) : quiet (on_alloc_mag t class m).
Proof. apply quiet_zoom. intros. apply co_put_alloc_mag. Qed.

Lemma quiet_free_mag {A} t class (m : M Magazine A) : quiet (on_free_mag t class m).
Proof. apply quiet_zoom. intros. apply co_put_free_mag. Qed.

Lemma quiet_pool {A} class (m : M pool_store A) : quiet (on_pool class m).
Proof. by apply quiet_zoom. Qed.

Lemma quiet_set_nodes n : quiet (modifyS (set_nodes n)).
Proof. by apply quiet_modify. Qed.

Lemma quiet_meta {A} (m : M (memory * MetadataAllocator) A) :
  quiet (zoom (fun s => Some (st_mem s, st_meta s)) set_meta m).
Proof. by apply quiet_zoom. Qed.

#[export] Hint Resolve quiet_alloc_mag quiet_free_mag quiet_pool quiet_set_nodes quiet_meta : counting.

Section magazine.
Context `{K : Kernel}.

Lemma take_cached_quiet t class : quiet (take_cached t class).
Proof. unfold take_cached, swap_mags, exchange_node, swap_node. quiet_code. Qed.

Lemma alloc_miss_counts t class size cs : counts (fun _ l => l = [(t, EvMiss)]) (alloc_miss t class size cs).
Proof.
  apply miss_counts. cbv zeta. destruct (1 <? _); [|apply alloc_own_pages_counts].
  apply counts_after; [apply quiet_on_mem|]. intros [base|]; [|apply alloc_own_pages_counts].
  apply counts_after; [quiet_code|]. intros _. apply miss_block_counts.
Qed.

Lemma AethAlloc_alloc_counts t size align :
  0 <= size -> counts (fun _ => alloc_counted t size align) (AethAlloc_alloc t size align).
Proof.
  intros Hs. exact (alloc_dispatch_counts t size align (take_cached t) (fun class => alloc_miss t class size _) Hs
    (take_cached_quiet t) (fun class => alloc_miss_counts t class size _)).
Qed.

Lemma AethAlloc_dealloc_counts t p : counts (fun _ => free_counted t p) (AethAlloc_dealloc t p).
Proof.
  unfold AethAlloc_dealloc, free_counted. destruct (p =? 0); [apply counts_quiet, quiet_ret|].
  apply counts_after; [apply quiet_on_mem|]. intros [base h|sp ms|base h]; try apply dealloc_pages_counts.
  destruct (size_to_class _) as [class|]; [|apply dealloc_by_page_counts]. unfold dealloc_cached.
  apply counts_after; [quiet_code|]. intros [|]; [exact (counts_record t EvFree)|].
  apply counts_after; [unfold retire_free_mag, fill_node; quiet_code|]. intros _.
  apply counts_after; [quiet_code|]. intros _. exact (counts_record t EvFree).
Qed.
End magazine.

(** ** Simple-cache mode *)

#[global] Instance sstate_counts : CountOps sstate := fun s => (ss_gmetrics s, sc_metrics <$> ss_caches s).

#[global] Instance sstate_count_laws : CountLaws sstate.
Proof.
  split; [done|]. intros A t m s a s'. cbn [md_metrics sstate_mode]. unfold on_smetrics, zoom, get_smetrics.
  destruct (ss_caches s !! t) as [c|] eqn:Hc; [|done]. cbn [mbind option_bind].
  destruct (m (ss_gmetrics s, sc_metrics c)) as [[b x]| | |] eqn:Hm; try done. intros [= <- <-].
  exists (sc_metrics c), x. split; [unfold co, sstate_counts; cbn [snd]; by rewrite list_lookup_fmap, Hc|]. split; [done|].
  unfold put_smetrics, co, sstate_counts. rewrite Hc. cbn [ss_gmetrics ss_caches snd]. by rewrite list_fmap_insert.
Qed.

Lemma quiet_class {A} t class (m : M class_store A) : quiet (on_class t class m).
Proof.
  apply quiet_zoom. intros x s. unfold put_class. destruct (ss_caches s !! t) as [c|] eqn:Hc; [|done].
  unfold co, sstate_counts. cbn. f_equal. rewrite list_fmap_insert. apply list_insert_id. by rewrite list_lookup_fmap, Hc.
Qed.

#[export] Hint Resolve quiet_class : counting.

Section simple.
Context `{K : Kernel}.

Lemma simple_miss_counts t class size cs : counts (fun _ l => l = [(t, EvMiss)]) (simple_miss t class size cs).
Proof.
  apply miss_counts. cbv zeta. destruct (1 <? _); [|apply alloc_own_pages_counts].
  apply counts_after; [apply quiet_on_mem|]. intros [base|]; [|apply alloc_own_pages_counts].
  apply counts_after; [quiet_code|]. intros _. apply miss_block_counts.
Qed.

Lemma simple_alloc_counts t size align :
  0 <= size -> counts (fun _ => alloc_counted t size align) (simple_alloc t size align).
Proof.
  intros Hs. exact (alloc_dispatch_counts t size align (fun class => on_class t class take_cached_block)
    (fun class => simple_miss t class size _) Hs (fun class => quiet_class t class _)
    (fun class => simple_miss_counts t class size _)).
Qed.

Lemma simple_dealloc_counts t p : counts (fun _ => free_counted t p) (simple_dealloc t p).
Proof.
  unfold simple_dealloc, free_counted. destruct (p =? 0); [apply counts_quiet, quiet_ret|].
  apply counts_after; [apply quiet_on_mem|]. intros [base h|sp ms|base h]; try apply dealloc_pages_counts.
  destruct (size_to_class _) as [class|]; [|apply dealloc_by_page_counts]. unfold simple_dealloc_cached.
  apply counts_after; [quiet_code|]. intros _. apply counts_before; [apply counts_record|]. quiet_code.
Qed.
End simple.

(** ** Whole programs *)

(** What the calls of a mode are counted as. *)
Class CountCalls (St : Type) {O : ModeOps St} {C : ModeCalls St} {CO : CountOps St} : Prop := {
  cc_laws :: CountLaws St;
  cc_alloc t size align : 0 <= size -> counts (fun _ => alloc_counted t size align) (mc_alloc (St := St) t size align);
  cc_dealloc t p : counts (fun _ => free_counted t p) (mc_dealloc (St := St) t p)
}.

#[global] Instance AethAlloc_count_calls `{K : Kernel} : CountCalls state.
Proof. split; [apply _|apply AethAlloc_alloc_counts|apply AethAlloc_dealloc_counts]. Qed.

#[global] Instance simple_count_calls `{K : Kernel} : CountCalls sstate.
Proof. split; [apply _|apply simple_alloc_counts|apply simple_dealloc_counts]. Qed.

(** The calls a client made, as [f] weighs them. *)
Fixpoint calls_made (f : call -> Z) (c : client) (rs : list Z) : Z :=
  match c, rs with
  | Then c k, r :: rs => f c + calls_made f (k r) rs
  | _, _ => 0
  end.

(** Calls that allocate, that free, and that allocate past the caches. *)
Definition alloc_calls (c : call) : Z := match c with CallAlloc _ size _ => if size =? 0 then 0 else 1 | _ => 0 end.

Definition free_calls (c : call) : Z := match c with CallFree _ p => if p =? 0 then 0 else 1 | _ => 0 end.

Definition direct_calls (c : call) : Z :=
  match c with
  | CallAlloc _ size align => if (size =? 0) || cacheable size align then 0 else 1
  | _ => 0
  end.

(** The events of the calls of [c], by the counters they go to. *)
Definition call_tallies (na nf nd : Z) (l : list (nat * event)) : Prop :=
  tally is_alloc l = na /\ tally is_free l = nf /\ tally is_direct l = nd /\
  tally is_hit l + tally is_miss l = na - nd.

Section clients.
Context {St : Type} {O : ModeOps St} {C : ModeCalls St} {CO : CountOps St} {CC : CountCalls St}.

(** Layouts have no negative sizes. *)
Definition sized (c : call) : Prop := match c with CallAlloc _ size _ => 0 <= size | _ => True end.

Lemma do_call_counts c :
  sized c -> counts (fun _ => call_tallies (alloc_calls c) (free_calls c) (direct_calls c)) (do_call (St := St) c).
Proof.
  intros Hc. destruct c as [t size align|t p|p|a v|a]; cbn [do_call].
  - eapply counts_mono; [by apply (cc_alloc t size align)|]. intros ? l. unfold alloc_counted, call_tallies.
    cbn [alloc_calls free_calls direct_calls]. destruct (size =? 0); cbn [orb]; [by intros ->|].
    destruct (cacheable size align); [by intros [-> | ->]|by intros ->].
  - eapply counts_bind; [apply (cc_dealloc t p)|]. intros ? l Hl. eapply counts_mono; [apply counts_quiet, quiet_ret|].
    intros ? l' ->. rewrite app_nil_r. unfold free_counted, call_tallies in *. cbn [alloc_calls free_calls direct_calls].
    destruct (p =? 0); by subst l.
  - eapply counts_mono; [apply counts_quiet; cbn [ao_size mode_alloc_ops]; apply quiet_on_mem|]. by intros ? l ->.
  - eapply counts_mono; [apply counts_quiet|by intros ? l ->]. quiet_code. apply quiet_modify. intros. apply co_set.
  - eapply counts_mono; [apply counts_quiet; quiet_code|by intros ? l ->].
Qed.

Lemma call_tallies_app a1 f1 d1 a2 f2 d2 l1 l2 :
  call_tallies a1 f1 d1 l1 -> call_tallies a2 f2 d2 l2 -> call_tallies (a1 + a2) (f1 + f2) (d1 + d2) (l1 ++ l2).
Proof. unfold call_tallies. rewrite !tally_app. lia. Qed.

(** Every layout a well-behaved client asks for is one. *)
Lemma run_client_counts n h c rs h' s s' :
  well_behaved n h c -> heap_run h c rs h' -> run_client (St := St) c s = Ret (rs, s') ->
  exists l, call_tallies (calls_made alloc_calls c rs) (calls_made free_calls c rs) (calls_made direct_calls c rs) l /\
    added l (co s) (co s').
Proof.
  revert h rs s. induction c as [|c k IH]; intros h rs s Hwb Hrun; cbn [run_client].
  { intros [= <- <-]. exists []. split; [done|apply added_nil]. }
  destruct Hwb as [Hok Hwb]. intros (r & s1 & Hr & (rs' & s2 & Hrs & [= <- <-])%bind_inv)%bind_inv.
  destruct Hrun as (h1 & Hstep & Hrun).
  assert (Hsz : sized c) by (destruct c; try done; destruct Hok as [_ Hl]; apply Hl).
  destruct (do_call_counts c Hsz _ _ _ Hr) as (l1 & Hl1 & Ha1).
  destruct (IH r h1 rs' s1 (Hwb r h1 Hstep) Hrun Hrs) as (l2 & Hl2 & Ha2).
  exists (l1 ++ l2). split; [by apply call_tallies_app|by eapply added_app].
Qed.
End clients.

(** ** What the exporter shows *)

(** A program whose allocator's library is loaded: [aethalloc_get_metrics] is the
    snapshot of the global counters. *)
Definition mode_loader {St} {CO : CountOps St} : Loader St := {|
  Library_new s := (Some 1, s);
  has_get_metrics _ _ := true;
  aethalloc_get_metrics s _ := GlobalMetrics_snapshot (co s).1
|}.

(** The text an exporter in state [s] serves has counters that, with the counts the
    threads have not flushed yet, are the numbers of calls made: allocations, frees and
    allocations past the caches; hits and misses share the rest. *)
Definition shows_calls {St} {CO : CountOps St} (s : St) (na nf nd : Z) : Prop :=
  exists shown,
    scraped shown (metrics_body (L := mode_loader) {| LIB := None; ex_world := s |}) /\
    total allocs shown (co s).2 mod 2 ^ 64 = na mod 2 ^ 64 /\
    total frees shown (co s).2 mod 2 ^ 64 = nf mod 2 ^ 64 /\
    total direct_allocs shown (co s).2 mod 2 ^ 64 = nd mod 2 ^ 64 /\
    (total cache_hits shown (co s).2 + total cache_misses shown (co s).2) mod 2 ^ 64 = (na - nd) mod 2 ^ 64.

Lemma snapshot_id g : GlobalMetrics_snapshot g = g.
Proof. by destruct g. Qed.

(** The exporter shows the global counters. *)
Lemma shown_scraped {St} {CO : CountOps St} (s : St) :
  is_u64_snapshot (co s).1 -> scraped (co s).1 (metrics_body (L := mode_loader) {| LIB := None; ex_world := s |}).
Proof.
  intros Hu. change (scraped (co s).1 (metrics_text "aethalloc_cache_hit_rate" (GlobalMetrics_snapshot (co s).1))).
  rewrite snapshot_id. apply metrics_text_scraped; [by left|done].
Qed.

Lemma added_shows {St} {CO : CountOps St} (s0 s : St) l na nf nd :
  (forall f w, (f, w) ∈ counters -> total f (co s0).1 (co s0).2 = 0) -> is_u64_snapshot (co s0).1 ->
  added l (co s0) (co s) -> call_tallies na nf nd l -> shows_calls s na nf nd.
Proof.
  intros H0 Hu [Hadd Hu'] (Ha & Hf & Hd & Hhm). exists (co s).1.
  assert (Ht : forall f w, (f, w) ∈ counters -> total f (co s).1 (co s).2 mod 2 ^ 64 = tally w l mod 2 ^ 64).
  { intros f w Hfw. by rewrite (Hadd f w Hfw), (H0 f w Hfw). }
  split; [apply shown_scraped; by apply Hu'|].
  rewrite (Ht allocs is_alloc), (Ht frees is_free), (Ht direct_allocs is_direct), Ha, Hf, Hd by (unfold counters; set_solver).
  do 3 (split; [done|]). rewrite Z.add_mod, (Ht cache_hits is_hit), (Ht cache_misses is_miss), <- Z.add_mod, Hhm
    by (done || (unfold counters; set_solver)). done.
Qed.

Lemma total_zero n f w : (f, w) ∈ counters -> total f GlobalMetrics_new (replicate n ThreadMetrics_new) = 0.
Proof.
  intros Hf. unfold total. assert (Hz : f GlobalMetrics_new = 0) by (by apply (counters_case (fun f _ => f GlobalMetrics_new = 0)) with w).
  rewrite Hz. change ThreadMetrics_new with GlobalMetrics_new. induction n as [|n IH]; simpl; lia.
Qed.

Lemma zero_u64 : is_u64_snapshot GlobalMetrics_new.
Proof. repeat split; vm_compute; congruence. Qed.

Section theorems.
Context `{K : Kernel} {KS : KernelSpec K}.

(** After any run of a well-behaved multi-threaded client, in either mode, the
    text that the exporter serves shows every call: each of its counters, together with
    what the threads have not flushed yet, is the number of calls of its kind, modulo
    2^64.  Every allocation of a positive size is counted once, as a hit or a miss when
    the caches serve its size and alignment and as direct otherwise, also when it fails;
    every free of a pointer is counted once; calls with size 0 or null are not. *)
Theorem metrics_count_calls n m c :
  well_behaved n heap_empty c ->
  (exists rs s', run_client c (state_new m n) = Ret (rs, s') /\
    shows_calls s' (calls_made alloc_calls c rs) (calls_made free_calls c rs) (calls_made direct_calls c rs)) /\
  (exists rs s', run_client c (sstate_new m n) = Ret (rs, s') /\
    shows_calls s' (calls_made alloc_calls c rs) (calls_made free_calls c rs) (calls_made direct_calls c rs)).
Proof.
  intros Hwb. split.
  - destruct (mode_client_refines (state_new m n) c (state_new_Inv m n)) as (rs & s' & h' & Hr & Hh & _);
      [by rewrite nthreads_new|]. exists rs, s'. split; [done|].
    destruct (run_client_counts n heap_empty c rs h' _ _ Hwb Hh Hr) as (l & Hl & Ha).
    apply (added_shows (state_new m n) s' l); [|exact zero_u64|done|done].
    intros f w Hf. unfold co, state_counts. cbn. rewrite fmap_replicate. by apply (total_zero n f w).
  - destruct (mode_client_refines (sstate_new m n) c (sstate_new_Inv m n)) as (rs & s' & h' & Hr & Hh & _);
      [by rewrite sthreads_new|]. exists rs, s'. split; [done|].
    destruct (run_client_counts n heap_empty c rs h' _ _ Hwb Hh Hr) as (l & Hl & Ha).
    apply (added_shows (sstate_new m n) s' l); [|exact zero_u64|done|done].
    intros f w Hf. unfold co, sstate_counts. cbn. rewrite fmap_replicate. by apply (total_zero n f w).
Qed.
End theorems.

(** Thread 1 allocates 40 bytes and a page and frees null. *)
Definition counted_client : client :=
  Then (CallAlloc 1 40 8) (fun _ => Then (CallAlloc 1 4096 64) (fun _ => Then (CallFree 1 0) (fun _ => Finished))).

Lemma counted_client_ok : well_behaved 2 heap_empty counted_client.
Proof.
  split; [split; [lia|split; [lia|split; [done|lia]]]|]. intros r1 h1 _.
  split; [split; [lia|split; [lia|split; [done|lia]]]|]. intros r2 h2 _. split; [|done]. split; [lia|by left].
Qed.

Lemma metrics_count_calls_witness :
  exists rs s', run_client counted_client (state_new (Memory [] ∅) 2) = Ret (rs, s') /\
    shows_calls s' (calls_made alloc_calls counted_client rs) (calls_made free_calls counted_client rs)
      (calls_made direct_calls counted_client rs).
Proof. exact (proj1 (metrics_count_calls 2 (Memory [] ∅) counted_client counted_client_ok)). Defined.
