(* ===== verification/Interleave.v ===== *)
(** * Programs whose steps interleave

    A call of the allocator as a program of atomic actions, for the interleaving of
    several threads inside their calls: an action is one access to shared memory or
    a piece of work on memory no other thread looks at, and a loop is a
    compare-exchange loop, which nothing bounds in general.  The file also has the
    program logic with which whole calls are verified, and its soundness: assertions
    speak of what a thread owns (its view), every action is checked against the
    invariant that all views share, and loops have invariants. *)

From S2P Require Import Prelude.

(** ** Programs *)

(** [Flip] is the spurious failure of a weak compare-exchange: the environment
    chooses.  [Enter] and [Leave] bracket a section and do nothing themselves. *)
Inductive prog (S A : Type) : Type :=
  | Done (a : A)
  | Act {B : Type} (m : M S B) (k : B -> prog S A)
  | Flip (k : bool -> prog S A)
  | Enter (k : prog S A)
  | Leave (k : prog S A)
  | Loop {X B : Type} (body : X -> prog S (X + B)) (x : X) (k : B -> prog S A).

Arguments Done {S A} a.
Arguments Act {S A B} m k.
Arguments Flip {S A} k.
Arguments Enter {S A} k.
Arguments Leave {S A} k.
Arguments Loop {S A X B} body x k.

#[global] Instance prog_ret {S} : MRet (prog S) := fun A a => Done a.

#[global] Instance prog_bind {S} : MBind (prog S) := fun A B f =>
  fix bind (p : prog S A) : prog S B :=
    match p with
    | Done a => f a
    | Act m k => Act m (fun b => bind (k b))
    | Flip k => Flip (fun b => bind (k b))
    | Enter k => Enter (bind k)
    | Leave k => Leave (bind k)
    | Loop body x k => Loop body x (fun b => bind (k b))
    end.

Definition atomic {S A} (m : M S A) : prog S A := Act m Done.

(** What follows a round of a loop. *)
Definition again {S A X B} (body : X -> prog S (X + B)) (k : B -> prog S A) (r : X + B) : prog S A :=
  match r with
  | inl x => Loop body x k
  | inr b => k b
  end.

(** One step of a program, with the choice [coin] for a [Flip]; the flag says whether
    the thread is inside a section. *)
Definition pstep {S A} (coin inside : bool) (p : prog S A) : M S (bool * prog S A) :=
  match p with
  | Done a => mret (inside, Done a)
  | Act m k => b ← m; mret (inside, k b)
  | Flip k => mret (inside, k coin)
  | Enter k => mret (true, k)
  | Leave k => mret (false, k)
  | Loop body x k => mret (inside, body x ≫= again body k)
  end.

(** The program run by one thread with nobody else moving and no spurious failure, for
    programs in which every loop then ends in its first round. *)
Fixpoint solo {S A} (p : prog S A) : M S A :=
  match p with
  | Done a => mret a
  | Act m k => b ← m; solo (k b)
  | Flip k => solo (k false)
  | Enter k | Leave k => solo k
  | Loop body x k =>
      r ← solo (body x);
      match r with
      | inl _ => fun _ => Diverge
      | inr b => solo (k b)
      end
  end.

(** ** Programs that come to an end when they run alone *)

Fixpoint loop_free {S A} (p : prog S A) : Prop :=
  match p with
  | Done _ => True
  | Act _ k => forall b, loop_free (k b)
  | Flip k => forall b, loop_free (k b)
  | Enter k | Leave k => loop_free k
  | Loop _ _ _ => False
  end.

(** A round that did not succeed leaves the loop in a state from which the next one,
    with nobody in between, does. *)
Definition second_round_ends {S X B} (body : X -> prog S (X + B)) : Prop :=
  forall x s x' s1 r s2,
  solo (body x) s = Ret (inl x', s1) -> solo (body x') s1 = Ret (r, s2) -> exists b, r = inr b.

Fixpoint settles {S A} (p : prog S A) : Prop :=
  match p with
  | Done _ => True
  | Act _ k => forall b, settles (k b)
  | Flip k => forall b, settles (k b)
  | Enter k | Leave k => settles k
  | Loop body _ k => (forall x, loop_free (body x)) /\ second_round_ends body /\ forall b, settles (k b)
  end.

(** A step with nobody else moving and without a spurious failure. *)
Definition solo_pstep {S A} (x y : (bool * prog S A) * S) : Prop :=
  pstep false x.1.1 x.1.2 x.2 = Ret y.

Lemma loop_free_settles {S A} : forall p : prog S A, loop_free p -> settles p.
Proof.
  fix IH 1. intros [a|C m k|k|k|k|X C body x k]; simpl; try done.
  - intros H b. by apply (IH (k b)).
  - intros H b. by apply (IH (k b)).
  - apply (IH k).
  - apply (IH k).
Qed.

Lemma settles_bind {S A B} (f : A -> prog S B) : forall p : prog S A,
  settles p -> (forall a, settles (f a)) -> settles (p ≫= f).
Proof.
  fix IH 1. intros [a|C m k|k|k|k|X C body x k] Hp Hf; simpl in *.
  - apply Hf.
  - intros b. by apply (IH (k b)).
  - intros b. by apply (IH (k b)).
  - by apply (IH k).
  - by apply (IH k).
  - destruct Hp as (Hl & Hr & Hk). split_and!; [done|done|]. intros b. by apply (IH (k b)).
Qed.

Lemma settles_atomic {S A} (m : M S A) : settles (atomic m).
Proof. by intros b. Qed.

(** Take a program apart. *)
Ltac settle :=
  repeat match goal with
  | H : context [settles] |- settles _ => solve [apply H]
  | |- settles (mret _) => exact I
  | |- settles (atomic _) => apply settles_atomic
  | |- settles (mbind _ _) => apply settles_bind; [|intros ?]
  | |- settles (match ?x with _ => _ end) => destruct x
  end.

Lemma pstep_settles {S A} coin i (p : prog S A) s r s' :
  settles p -> pstep coin i p s = Ret (r, s') -> settles r.2.
Proof.
  destruct p as [a|C m k|k|k|k|X C body x k]; simpl; intros Hp Hr.
  - by injection Hr as <- <-.
  - unfold mbind, M_bind in Hr. destruct (m s) as [[b s1]| | |]; try done.
    injection Hr as <- <-. apply Hp.
  - injection Hr as <- <-. apply Hp.
  - by injection Hr as <- <-.
  - by injection Hr as <- <-.
  - injection Hr as <- <-. simpl. destruct Hp as (Hl & Hr & Hk).
    apply settles_bind; [apply loop_free_settles, Hl|]. intros [x'|b]; [|apply Hk]. by split_and!.
Qed.

(** What follows a loop-free program waits for it. *)
Lemma solo_pstep_bind {S A B} (f : A -> prog S B) i (p : prog S A) s i' p' s' :
  loop_free p -> solo_pstep ((i, p), s) ((i', p'), s') ->
  rtc solo_pstep ((i, p ≫= f), s) ((i', p' ≫= f), s') /\ loop_free p'.
Proof.
  unfold solo_pstep. destruct p as [a|C m k|k|k|k|X C body x k]; simpl; intros Hl Hs; try done.
  - injection Hs as <- <- <-. done.
  - unfold mbind, M_bind in Hs. destruct (m s) as [[b s1]| | |] eqn:Hm; try done.
    injection Hs as <- <- <-. split; [|done]. apply rtc_once. unfold solo_pstep. simpl.
    unfold mbind, M_bind. by rewrite Hm.
  - injection Hs as <- <- <-. split; [by apply rtc_once|done].
  - injection Hs as <- <- <-. split; [by apply rtc_once|done].
  - injection Hs as <- <- <-. split; [by apply rtc_once|done].
Qed.

Lemma rtc_solo_bind {S A B} (f : A -> prog S B) x y :
  rtc (solo_pstep (S := S) (A := A)) x y -> loop_free x.1.2 ->
  rtc solo_pstep ((x.1.1, x.1.2 ≫= f), x.2) ((y.1.1, y.1.2 ≫= f), y.2).
Proof.
  induction 1 as [x|x y z Hs _ IH]; intros Hl; [done|].
  destruct x as [[i p] s], y as [[i' p'] s']. simpl in *.
  destruct (solo_pstep_bind f _ _ _ _ _ _ Hl Hs) as [Hs' Hl']. etransitivity; [done|]. by apply IH.
Qed.

(** ** Running alone *)

(** Computations that agree on every state. *)
Definition same_runs {S A} (m m' : M S A) : Prop := forall s, m s = m' s.

#[global] Instance same_runs_equivalence {S A} : Equivalence (@same_runs S A).
Proof.
  split; [done|by intros m m' H s; rewrite H|]. intros m1 m2 m3 H1 H2 s. by rewrite H1.
Qed.

Lemma bind_same_runs {S A B} (m m' : M S A) (k k' : A -> M S B) :
  same_runs m m' -> (forall a, same_runs (k a) (k' a)) ->
  same_runs (a ← m; k a) (a ← m'; k' a).
Proof.
  intros Hm Hk s. unfold mbind, M_bind. rewrite Hm. destruct (m' s) as [[a s1]| | |]; try done.
  apply Hk.
Qed.

Lemma bind_assoc_runs {S A B C} (m : M S A) (f : A -> M S B) (g : B -> M S C) :
  same_runs (b ← (a ← m; f a); g b) (a ← m; b ← f a; g b).
Proof. intros s. unfold mbind, M_bind. by destruct (m s) as [[a s1]| | |]. Qed.

Lemma solo_bind {S A B} (f : A -> prog S B) : forall p : prog S A,
  same_runs (solo (p ≫= f)) (r ← solo p; solo (f r)).
Proof.
  fix IH 1. intros [a|C m k|k|k|k|X C body x k].
  - done.
  - etransitivity; [|symmetry; apply bind_assoc_runs]. apply bind_same_runs; [done|].
    intros b. apply (IH (k b)).
  - apply (IH (k false)).
  - apply (IH k).
  - apply (IH k).
  - etransitivity; [|symmetry; apply bind_assoc_runs]. apply bind_same_runs; [done|].
    intros [x'|b]; [done|]. apply (IH (k b)).
Qed.

(** A loop that ends in its first round. *)
Lemma solo_loop {S A X B} (body : X -> prog S (X + B)) x (k : B -> prog S A) (m : M S B) :
  same_runs (solo (body x)) (b ← m; mret (inr b)) ->
  same_runs (solo (Loop body x k)) (b ← m; solo (k b)).
Proof.
  intros Hb s. simpl. unfold mbind, M_bind. rewrite Hb. unfold mbind, M_bind.
  by destruct (m s) as [[b s1]| | |].
Qed.

(** ** The logic *)

Section logic.
Context {S V C : Type}.

(** [valid s vs c]: in state [s] the threads have the views [vs], and the rest of the
    world is [c]; [frame c s s'] is what every action leaves as it is. *)
Context (valid : S -> list V -> C -> Prop) (frame : C -> S -> S -> Prop).

(** The view of a thread inside a section. *)
Context (v_inside : V -> bool).

(** The action [m] of thread [t]: it returns, keeps the shared invariant and takes [P]
    to [P']. *)
Definition act_ok {B} (t : nat) (P : V -> Prop) (m : M S B) (P' : B -> V -> Prop) : Prop :=
  forall s vs c v, valid s vs c -> vs !! t = Some v -> P v ->
  wp m (fun b s' => exists v', valid s' (<[t := v']> vs) c /\ P' b v' /\
                               v_inside v' = v_inside v /\ frame c s s') s.

(** No other thread is inside a section. *)
Definition alone (t : nat) (vs : list V) : Prop :=
  forall t' v', vs !! t' = Some v' -> v_inside v' = true -> t' = t.

Fixpoint ok {A} (t : nat) (P : V -> Prop) (p : prog S A) (Q : A -> V -> Prop) : Prop :=
  match p with
  | Done a => forall v, P v -> Q a v
  | Act m k => exists P', act_ok t P m P' /\ forall b, ok t (P' b) (k b) Q
  | Flip k => forall b, ok t P (k b) Q
  | Enter k => exists P',
      (forall s vs c v, valid s vs c -> vs !! t = Some v -> P v -> alone t vs ->
         exists v', valid s (<[t := v']> vs) c /\ P' v' /\ v_inside v' = true) /\ ok t P' k Q
  | Leave k => exists P',
      (forall s vs c v, valid s vs c -> vs !! t = Some v -> P v ->
         exists v', valid s (<[t := v']> vs) c /\ P' v' /\ v_inside v' = false) /\ ok t P' k Q
  | Loop body x k => exists I P',
      (forall v, P v -> I x v) /\
      (forall x, ok t (I x) (body x) (fun r => match r with inl x' => I x' | inr b => P' b end)) /\
      forall b, ok t (P' b) (k b) Q
  end.

Context (frame_refl : forall c s, frame c s s).

(** The view of a thread changes while nothing happens. *)
Definition shifts (t : nat) (P P' : V -> Prop) : Prop :=
  forall s vs c v, valid s vs c -> vs !! t = Some v -> P v ->
  exists v', valid s (<[t := v']> vs) c /\ P' v' /\ v_inside v' = v_inside v.

Lemma ok_shift {A B} t P P' (m : M S B) (k : B -> prog S A) Q :
  shifts t P P' -> ok t P' (Act m k) Q -> ok t P (Act m k) Q.
Proof.
  intros Hsh (R & Hm & Hk). exists R. split; [|done]. intros s vs c v Hv Ht HP.
  destruct (Hsh s vs c v Hv Ht HP) as (v1 & Hv1 & HP1 & Hi1).
  assert (Ht1 : <[t := v1]> vs !! t = Some v1) by (by apply list_lookup_insert_eq, lookup_lt_Some with v).
  eapply wp_mono; [by apply (Hm s (<[t := v1]> vs) c v1)|]. intros b s' (v2 & Hv2 & HR & Hi & Hf).
  rewrite list_insert_insert_eq in Hv2. exists v2. split_and!; try done. congruence.
Qed.

Lemma ok_pre {A} (t : nat) : forall (p : prog S A) (P P' : V -> Prop) Q,
  (forall v, P' v -> P v) -> ok t P p Q -> ok t P' p Q.
Proof.
  fix IH 1. intros [a|B m k|k|k|k|X B body x k] P P' Q HP; simpl.
  - auto.
  - intros (R & Hm & Hk). exists R. split; [|done]. intros s vs c v Hv Ht Hp. eauto.
  - intros Hk b. by apply (IH (k b) P).
  - intros (R & HR & Hk). exists R. split; [|done]. intros s vs c v ? ? ? ?. eauto.
  - intros (R & HR & Hk). exists R. split; [|done]. intros s vs c v ? ? ?. eauto.
  - intros (I & R & HI & Hb & Hk). exists I, R. split; [|done]. auto.
Qed.

Lemma ok_post {A} (t : nat) : forall (p : prog S A) (P : V -> Prop) (Q Q' : A -> V -> Prop),
  (forall a v, Q a v -> Q' a v) -> ok t P p Q -> ok t P p Q'.
Proof.
  fix IH 1. intros [a|B m k|k|k|k|X B body x k] P Q Q' HQ; simpl.
  - auto.
  - intros (R & Hm & Hk). exists R. split; [done|]. intros b. by apply (IH (k b) _ Q).
  - intros Hk b. by apply (IH (k b) _ Q).
  - intros (R & HR & Hk). exists R. split; [done|]. by apply (IH k _ Q).
  - intros (R & HR & Hk). exists R. split; [done|]. by apply (IH k _ Q).
  - intros (I & R & HI & Hb & Hk). exists I, R. split_and!; [done|done|].
    intros b. by apply (IH (k b) _ Q).
Qed.

Lemma ok_bind {A B} (t : nat) (f : A -> prog S B) (R : A -> V -> Prop) (Q : B -> V -> Prop) :
  (forall a, ok t (R a) (f a) Q) ->
  forall (p : prog S A) (P : V -> Prop), ok t P p R -> ok t P (p ≫= f) Q.
Proof.
  intros Hf. fix IH 1. intros [a|C' m k|k|k|k|X C' body x k] P; simpl.
  - intros HR. by eapply ok_pre.
  - intros (P' & Hm & Hk). exists P'. split; [done|]. intros b. by apply (IH (k b)).
  - intros Hk b. by apply (IH (k b)).
  - intros (P' & HP & Hk). exists P'. split; [done|]. by apply (IH k).
  - intros (P' & HP & Hk). exists P'. split; [done|]. by apply (IH k).
  - intros (I & P' & HI & Hb & Hk). exists I, P'. split_and!; [done|done|].
    intros b. by apply (IH (k b)).
Qed.

Lemma ok_atomic {A} t P (m : M S A) Q : act_ok t P m Q -> ok t P (atomic m) Q.
Proof. intros Hm. exists Q. split; [done|]. by intros b v. Qed.

(** An assertion that is an existential: the program is verified for each witness.  What
    follows an action is then the existential over the assertions that work. *)
Lemma ok_exists (t : nat) : forall (A : Type) (p : prog S A) (W : Type) (P : W -> V -> Prop) Q,
  (forall w, ok t (P w) p Q) -> ok t (fun v => exists w, P w v) p Q.
Proof.
  fix IH 2. intros A [a|B m k|k|k|k|X B body x k] W P Q HP; simpl in HP |- *.
  - intros v [w Hw]. by eapply HP.
  - exists (fun b v => exists z : { P' : B -> V -> Prop | forall b, ok t (P' b) (k b) Q }, proj1_sig z b v).
    split.
    + intros s vs c v Hv Ht [w Hw]. destruct (HP w) as (P' & Hm & Hk).
      eapply wp_mono; [by apply (Hm s vs c v)|]. intros b s' (v' & H1 & H2 & H3 & H4).
      exists v'. split_and!; [done| |done|done]. by exists (exist _ P' Hk).
    + intros b. apply (IH A (k b)). intros [P' Hk]. apply Hk.
  - intros b. by apply (IH A (k b)).
  - exists (fun v => exists z : { P' : V -> Prop | ok t P' k Q }, proj1_sig z v). split.
    + intros s vs c v Hv Ht [w Hw] Hal. destruct (HP w) as (P' & HE & Hk).
      destruct (HE s vs c v Hv Ht Hw Hal) as (v' & H1 & H2 & H3). exists v'. split_and!; [done| |done].
      by exists (exist _ P' Hk).
    + apply (IH A k). intros [P' Hk]. apply Hk.
  - exists (fun v => exists z : { P' : V -> Prop | ok t P' k Q }, proj1_sig z v). split.
    + intros s vs c v Hv Ht [w Hw]. destruct (HP w) as (P' & HE & Hk).
      destruct (HE s vs c v Hv Ht Hw) as (v' & H1 & H2 & H3). exists v'. split_and!; [done| |done].
      by exists (exist _ P' Hk).
    + apply (IH A k). intros [P' Hk]. apply Hk.
  - set (R := { z : (X -> V -> Prop) * (B -> V -> Prop) |
      (forall x, ok t (z.1 x) (body x) (fun r => match r with inl x' => z.1 x' | inr b => z.2 b end)) /\
      forall b, ok t (z.2 b) (k b) Q }).
    exists (fun x v => exists z : R, (proj1_sig z).1 x v), (fun b v => exists z : R, (proj1_sig z).2 b v).
    split_and!.
    + intros v [w Hw]. destruct (HP w) as (I & P' & HI & Hb & Hk).
      exists (exist _ (I, P') (conj Hb Hk)). by apply HI.
    + intros x'. apply (IH (X + B)%type (body x')). intros [[I P'] HR]. pose proof HR as [Hb _].
      eapply ok_post; [|apply (Hb x')]. intros [x''|b] v Hv; by exists (exist _ (I, P') HR).
    + intros b. apply (IH A (k b)). intros [[I P'] [Hb Hk]]. apply Hk.
Qed.

(** ** Soundness *)

(** A verified program whose assertion holds is finished, with its postcondition, or
    makes a step that returns, keeps the invariant and leaves a verified program; it
    may enter a section when no other thread is inside one. *)
Lemma ok_step {A} t coin (p : prog S A) P Q s vs c v :
  ok t P p Q -> valid s vs c -> vs !! t = Some v -> P v ->
  (match p with Enter _ => alone t vs | _ => True end) ->
  wp (pstep coin (v_inside v) p) (fun r s' => exists v' P',
    valid s' (<[t := v']> vs) c /\ frame c s s' /\ v_inside v' = r.1 /\ P' v' /\ ok t P' r.2 Q) s.
Proof.
  intros Hok Hv Ht HP Hen. destruct p as [a|B m k|k|k|k|X B body x k]; simpl in Hok |- *.
  - apply wp_ret. exists v, P. rewrite list_insert_id by done. by split_and!.
  - destruct Hok as (P' & Hm & Hk). apply wp_bind. eapply wp_mono; [by apply (Hm s vs c v)|].
    intros b s' (v' & Hv' & HP' & Hi & Hf). apply wp_ret. exists v', (P' b). by split_and!.
  - apply wp_ret. exists v, P. rewrite list_insert_id by done. split_and!; try done. apply Hok.
  - destruct Hok as (P' & HE & Hk). destruct (HE s vs c v Hv Ht HP Hen) as (v' & Hv' & HP' & Hi).
    apply wp_ret. exists v', P'. by split_and!.
  - destruct Hok as (P' & HE & Hk). destruct (HE s vs c v Hv Ht HP) as (v' & Hv' & HP' & Hi).
    apply wp_ret. exists v', P'. by split_and!.
  - destruct Hok as (I & P' & HI & Hb & Hk). apply wp_ret. exists v, (I x).
    rewrite list_insert_id by done. split_and!; [done|done|done|by apply HI|].
    eapply ok_bind; [|apply Hb]. intros [x'|b]; [|apply Hk]. exists I, P'. by split_and!.
Qed.

(** ** Termination *)

Lemma alone_insert t vs v : alone t vs -> alone t (<[t := v]> vs).
Proof.
  intros Hal u w [(<- & _)|[_ Hw]]%list_lookup_insert_Some Hi; [done|]. by apply (Hal u w).
Qed.

(** From an assertion that holds a program reaches its postcondition by steps of its own. *)
Definition completes {A} (t : nat) (p : prog S A) (Q : A -> V -> Prop) s vs c v (a : A) s' : Prop :=
  exists v', rtc solo_pstep ((v_inside v, p), s) ((v_inside v', Done a), s') /\
    valid s' (<[t := v']> vs) c /\ vs !! t = Some v /\ Q a v'.

Lemma completes_trans {A} t (p p1 : prog S A) Q s vs c v s1 v1 a s' :
  vs !! t = Some v -> rtc solo_pstep ((v_inside v, p), s) ((v_inside v1, p1), s1) ->
  completes t p1 Q s1 (<[t := v1]> vs) c v1 a s' -> completes t p Q s vs c v a s'.
Proof.
  intros Hv Hs (v' & Hr & Hval & _ & HQ). exists v'. rewrite list_insert_insert_eq in Hval.
  split_and!; try done. by etransitivity.
Qed.

Lemma completes_step {A} t (p : prog S A) Q s vs c v r s1 v1 a s' :
  vs !! t = Some v -> solo_pstep ((v_inside v, p), s) (r, s1) -> v_inside v1 = r.1 ->
  completes t r.2 Q s1 (<[t := v1]> vs) c v1 a s' -> completes t p Q s vs c v a s'.
Proof.
  intros Hv Hs Hi. apply completes_trans; [done|]. apply rtc_once. rewrite Hi. by destruct r.
Qed.

Lemma ok_loop_free t : forall A (p : prog S A) P Q s vs c v,
  loop_free p -> ok t P p Q -> valid s vs c -> vs !! t = Some v -> P v -> alone t vs ->
  exists a s', completes t p Q s vs c v a s' /\ solo p s = Ret (a, s').
Proof.
  fix IH 2. intros A p P Q s vs c v Hl Hok Hv Ht HP Hal.
  assert (Hstep : match p with Enter _ => alone t vs | _ => True end) by by destruct p.
  destruct (ok_step t false p P Q s vs c v Hok Hv Ht HP Hstep)
    as (r & s1 & Hr & v1 & P1 & Hv1 & _ & Hi1 & HP1 & Hok1).
  assert (Ht1 : <[t := v1]> vs !! t = Some v1) by (by apply list_lookup_insert_eq, lookup_lt_Some with v).
  pose proof (alone_insert t vs v1 Hal) as Hal1.
  destruct p as [a|B m k|k|k|k|X B body x k]; simpl in Hl; try done.
  - exists a, s. split; [|done]. exists v. rewrite list_insert_id by done. split_and!; [done|done|done|by apply Hok].
  - pose proof Hr as Hr'. simpl in Hr'. unfold mbind, M_bind in Hr'.
    destruct (m s) as [[b sb]| | |] eqn:Hm; try done. injection Hr' as <- <-.
    destruct (IH A (k b) P1 Q sb _ c v1 (Hl b) Hok1 Hv1 Ht1 HP1 Hal1) as (a & s' & Hc & Hso).
    exists a, s'. split; [by eapply completes_step|]. simpl. unfold mbind, M_bind. by rewrite Hm.
  - injection Hr as <- <-. destruct (IH A (k false) P1 Q s _ c v1 (Hl false) Hok1 Hv1 Ht1 HP1 Hal1) as (a & s' & Hc & Hso).
    exists a, s'. split; [by eapply completes_step|done].
  - injection Hr as <- <-. destruct (IH A k P1 Q s _ c v1 Hl Hok1 Hv1 Ht1 HP1 Hal1) as (a & s' & Hc & Hso).
    exists a, s'. split; [by eapply completes_step|done].
  - injection Hr as <- <-. destruct (IH A k P1 Q s _ c v1 Hl Hok1 Hv1 Ht1 HP1 Hal1) as (a & s' & Hc & Hso).
    exists a, s'. split; [by eapply completes_step|done].
Qed.

(** A round of a loop whose rounds are loop-free. *)
Lemma ok_round {A X B} t (body : X -> prog S (X + B)) x (k : B -> prog S A) P R s vs c v :
  (forall x, loop_free (body x)) -> ok t P (body x) R ->
  valid s vs c -> vs !! t = Some v -> P v -> alone t vs ->
  exists r s1 v1, rtc solo_pstep ((v_inside v, Loop body x k), s) ((v_inside v1, again body k r), s1) /\
    valid s1 (<[t := v1]> vs) c /\ R r v1 /\ solo (body x) s = Ret (r, s1).
Proof.
  intros Hl Hb Hv Ht HP Hal.
  destruct (ok_loop_free t _ (body x) P R s vs c v (Hl x) Hb Hv Ht HP Hal)
    as (r & s1 & (v1 & Hr & Hv1 & _ & HR) & Hs).
  exists r, s1, v1. split_and!; try done. eapply rtc_l; [done|].
  exact (rtc_solo_bind (again body k) _ _ Hr (Hl x)).
Qed.

(** A verified program that settles comes to its end when it runs alone. *)
Lemma ok_settles t : forall A (p : prog S A) P Q s vs c v,
  settles p -> ok t P p Q -> valid s vs c -> vs !! t = Some v -> P v -> alone t vs ->
  exists a s', completes t p Q s vs c v a s'.
Proof.
  fix IH 2. intros A p P Q s vs c v Hl Hok Hv Ht HP Hal.
  assert (Hstep : match p with Enter _ => alone t vs | _ => True end) by by destruct p.
  destruct (ok_step t false p P Q s vs c v Hok Hv Ht HP Hstep)
    as (r & s1 & Hr & v1 & P1 & Hv1 & _ & Hi1 & HP1 & Hok1).
  assert (Hin : forall w, <[t := w]> vs !! t = Some w)
    by (intros w; by apply list_lookup_insert_eq, lookup_lt_Some with v).
  pose proof (fun w => alone_insert t vs w Hal) as Hal1.
  assert (Hnext : forall p1 : prog S A, r.2 = p1 -> (exists a s', completes t p1 Q s1 (<[t := v1]> vs) c v1 a s') ->
    exists a s', completes t p Q s vs c v a s').
  { intros p1 <- (a & s' & Hc). exists a, s'. by eapply completes_step. }
  destruct p as [a|B m k|k|k|k|X B body x k]; simpl in Hl.
  - exists a, s, v. rewrite list_insert_id by done. split_and!; [done|done|done|by apply Hok].
  - simpl in Hr. unfold mbind, M_bind in Hr.
    destruct (m s) as [[b sb]| | |] eqn:Hm; try done. injection Hr as <- <-.
    apply (Hnext _ eq_refl), (IH A (k b) P1); auto.
  - injection Hr as <- <-. apply (Hnext _ eq_refl), (IH A (k false) P1); auto.
  - injection Hr as <- <-. apply (Hnext _ eq_refl), (IH A k P1); auto.
  - injection Hr as <- <-. apply (Hnext _ eq_refl), (IH A k P1); auto.
  - clear Hnext Hr Hok1 HP1 Hv1 Hi1 v1 P1 r s1. destruct Hl as (Hl & Hend & Hk), Hok as (I & P' & HI & Hb & Hok).
    destruct (ok_round t body x k _ _ s vs c v Hl (Hb x) Hv Ht (HI v HP) Hal)
      as ([x'|b] & s1 & v1 & Hr1 & Hv1 & HR1 & Hs1).
    + destruct (ok_round t body x' k _ _ s1 _ c v1 Hl (Hb x') Hv1 (Hin v1) HR1 (Hal1 v1))
        as (r2 & s2 & v2 & Hr2 & Hv2 & HR2 & Hs2).
      destruct (Hend _ _ _ _ _ _ Hs1 Hs2) as [b ->]. rewrite list_insert_insert_eq in Hv2.
      destruct (IH A (k b) _ Q s2 _ c v2 (Hk b) (Hok b) Hv2 (Hin v2) HR2 (Hal1 v2)) as (a & s' & Hc).
      exists a, s'. eapply completes_trans; [done| |exact Hc]. by etransitivity.
    + destruct (IH A (k b) _ Q s1 _ c v1 (Hk b) (Hok b) Hv1 (Hin v1) HR1 (Hal1 v1)) as (a & s' & Hc).
      exists a, s'. by eapply completes_trans.
Qed.
End logic.
