(* ===== verification/Process.v ===== *)
(** * Processes whose threads are inside calls

    What the two modes of the allocator share when their threads interleave: the parts of
    [alloc] and [dealloc] that both modes have, as programs of Interleave (the counters
    with their flush, a hit, pages for one block, large allocations, the release of
    pages); the configurations of a process whose threads are inside calls and their
    steps, for any mode that has programs ([ModeProgs]); and the equality of the common
    programs with AllocCore when one thread runs alone ([ModeLens]). *)

From S2P Require Import Prelude SizeClass Memory Extents AllocSpec Page Metrics.
From S2P Require Import Headers AllocCore Interleave.

(** A weak compare-exchange, which may fail for no reason. *)
Definition weak {S A} (cas : bool -> M S A) : prog S A := Flip (fun spurious => atomic (cas spurious)).

Section programs.
Context {St : Type} {O : ModeOps St} `{K : Kernel}.

(** ** The counters *)

(** [maybe_flush]: the counters of the thread are its own, the global ones are shared. *)
Definition flush_prog (t : nat) : prog St unit :=
  c ← atomic (md_metrics t (gets snd));
  if METRICS_FLUSH_THRESHOLD <=? allocs c +! frees c then
    atomic (md_metrics t (modifyS fetch_add_allocs)) ;;
    atomic (md_metrics t (modifyS fetch_add_frees)) ;;
    atomic (md_metrics t (modifyS fetch_add_hits)) ;;
    atomic (md_metrics t (modifyS fetch_add_misses)) ;;
    atomic (md_metrics t (modifyS fetch_add_direct)) ;;
    atomic (md_metrics t (modifyS reset_counters))
  else mret tt.

(** The thread counts an event of its own. *)
Definition count_prog (t : nat) (e : event) : prog St unit :=
  atomic (md_metrics t (modifyS (fun s => (s.1, count_event e s.2)))).

Definition record_prog (t : nat) (e : event) : prog St unit := count_prog t e ;; flush_prog t.

(** ** Parts of [alloc] and [dealloc] *)

Definition cache_hit_prog (t : nat) (block size : Z) : prog St Z :=
  record_prog t EvHit ;;
  atomic (md_on_mem (store64_at block size)) ;;
  mret (block + CACHE_HEADER_SIZE).

Definition miss_block_prog (t : nat) (base size : Z) : prog St Z :=
  atomic (md_on_mem (store64_at base size)) ;;
  flush_prog t ;;
  mret (base + CACHE_HEADER_SIZE).

Definition alloc_own_pages_prog (t : nat) (size block_size : Z) : prog St Z :=
  let pages := Z.max (div_ceil block_size PAGE_SIZE) 1 in
  r ← atomic (md_on_mem (PageAllocator_alloc pages));
  match r with
  | Some base => miss_block_prog t base size
  | None => mret 0
  end.

Definition alloc_large_prog (t : nat) (size align : Z) : prog St Z :=
  record_prog t EvDirect ;;
  let min_size := PAGE_HEADER_SIZE +! LARGE_HEADER_SIZE +! size +! align in
  let pages := Z.max (div_ceil min_size PAGE_SIZE) 1 in
  r ← atomic (md_on_mem (PageAllocator_alloc pages));
  match r with
  | Some base => atomic (md_on_mem (write_headers size align pages base))
  | None => mret 0
  end.

Definition dealloc_pages_prog (t : nat) (base : Z) (h : PageHeader) : prog St unit :=
  atomic (md_on_mem (release_pages base h)) ;;
  record_prog t EvFree.

Definition dealloc_by_page_prog (t : nat) (ptr : Z) : prog St unit :=
  let header := page_header_from_ptr ptr in
  h ← atomic (md_on_mem (read_page_header header));
  dealloc_pages_prog t header h.
End programs.

(** ** Configurations *)

(** A mode whose calls are programs; [mp_new m n] is a process of [n] threads before any
    call. *)
Class ModeProgs (St : Type) : Type := {
  mp_new : memory -> nat -> St;
  mp_alloc : nat -> Z -> Z -> prog St Z;
  mp_dealloc : nat -> Z -> prog St unit
}.

(** What a thread is doing: outside the allocator, or inside a call. *)
Inductive activity (St : Type) : Type :=
  | Idle
  | InAlloc (size align : Z) (p : prog St Z)
  | InFree (ptr : Z) (p : prog St unit).

Arguments Idle {St}.
Arguments InAlloc {St} size align p.
Arguments InFree {St} ptr p.

(** [th_inside]: between [Enter] and [Leave]. *)
Record thread (St : Type) : Type := {
  th_does : activity St;
  th_inside : bool
}.

Arguments Build_thread {St} th_does th_inside.
Arguments th_does {St} t.
Arguments th_inside {St} t.

Record process (St : Type) : Type := {
  pr_state : St;
  pr_threads : list (thread St)
}.

Arguments Build_process {St} pr_state pr_threads.
Arguments pr_state {St} p.
Arguments pr_threads {St} p.

Definition idle {St} : thread St := {| th_does := Idle; th_inside := false |}.

(** An event of the history of a process: a call, its result.  An [alloc] shows up when
    it returns, a [dealloc] when it is called. *)
Definition history_event : Type := (call * Z)%type.

Section configurations.
Context {St : Type} {O : ModeOps St}.

Definition put_thread (t : nat) (th : thread St) (s : St) (c : process St) : process St :=
  {| pr_state := s; pr_threads := <[t := th]> (pr_threads c) |}.

(** One step of a thread inside a call; the end of the call is a step of its own. *)
Definition thread_step (t : nat) (coin : bool) (th : thread St) : M St (thread St * option history_event) :=
  match th_does th with
  | Idle => mret (th, None)
  | InAlloc size align (Done p) => mret (idle, Some (CallAlloc t size align, p))
  | InFree ptr (Done _) => mret (idle, None)
  | InAlloc size align p =>
      r ← pstep coin (th_inside th) p;
      mret ({| th_does := InAlloc size align r.2; th_inside := r.1 |}, None)
  | InFree ptr p =>
      r ← pstep coin (th_inside th) p;
      mret ({| th_does := InFree ptr r.2; th_inside := r.1 |}, None)
  end.

(** The thread is about to enter a section. *)
Definition entering (th : thread St) : bool :=
  match th_does th with
  | InAlloc _ _ (Enter _) | InFree _ (Enter _) => true
  | _ => false
  end.

(** The histories of the reference heap. *)
Fixpoint heap_history (h : heap) (tr : list history_event) (h' : heap) : Prop :=
  match tr with
  | [] => h' = h
  | (c, r) :: tr => exists h1, heap_step h c r h1 /\ heap_history h1 tr h'
  end.

(** What a client may do after the history [tr]: what the reference heap allows. *)
Definition permitted (nthr : nat) (tr : list history_event) (c : call) : Prop :=
  forall h, heap_history heap_empty tr h -> allowed nthr h c.

Definition process_new {MP : ModeProgs St} (m : memory) (n : nat) : process St :=
  {| pr_state := mp_new m n; pr_threads := replicate n idle |}.

Section steps.
Context {MP : ModeProgs St}.

(** [pol c t] is the condition under which thread [t] may enter a section. *)
Context (pol : process St -> nat -> Prop).

(** One step of a process with the history [tr], with the event it adds. *)
Inductive process_step (tr : list history_event) (c : process St) : option history_event -> process St -> Prop :=
  | PStartAlloc t size align :
      pr_threads c !! t = Some idle ->
      permitted (length (pr_threads c)) tr (CallAlloc t size align) ->
      process_step tr c None
        (put_thread t {| th_does := InAlloc size align (mp_alloc t size align); th_inside := false |}
           (pr_state c) c)
  | PStartFree t ptr :
      pr_threads c !! t = Some idle ->
      permitted (length (pr_threads c)) tr (CallFree t ptr) ->
      process_step tr c (Some (CallFree t ptr, 0))
        (put_thread t {| th_does := InFree ptr (mp_dealloc t ptr); th_inside := false |}
           (pr_state c) c)
  | PThread t coin th th' o s' :
      pr_threads c !! t = Some th ->
      (entering th = true -> pol c t) ->
      thread_step t coin th (pr_state c) = Ret ((th', o), s') ->
      process_step tr c o (put_thread t th' s' c)
  | PSize p r m' :
      permitted (length (pr_threads c)) tr (CallSize p) ->
      get_alloc_size p (md_mem (pr_state c)) = Ret (r, m') ->
      process_step tr c (Some (CallSize p, r)) c
  | PStore a v m' :
      permitted (length (pr_threads c)) tr (CallStore a v) ->
      store8 (md_mem (pr_state c)) a v = Some m' ->
      process_step tr c (Some (CallStore a v, 0))
        {| pr_state := md_set m' (pr_state c); pr_threads := pr_threads c |}
  | PLoad a v :
      permitted (length (pr_threads c)) tr (CallLoad a) ->
      load8 (md_mem (pr_state c)) a = Some v ->
      process_step tr c (Some (CallLoad a, v)) c.

(** The executions of a process of [n] threads. *)
Inductive process_reach (m : memory) (n : nat) : list history_event -> process St -> Prop :=
  | process_reach_new : process_reach m n [] (process_new m n)
  | process_reach_step tr c o c' :
      process_reach m n tr c -> process_step tr c o c' ->
      process_reach m n (tr ++ option_list o) c'.
End steps.

(** No other thread is inside a section. *)
Definition exclusive (c : process St) (t : nat) : Prop :=
  forall t' th, pr_threads c !! t' = Some th -> th_inside th = true -> t' = t.

(** Is no thread but the [t]-th of [l] inside? *)
Fixpoint no_other_inside (t : nat) (l : list (thread St)) : bool :=
  match l with
  | [] => true
  | th :: l =>
      match t with
      | 0%nat => forallb (fun th => negb (th_inside th)) l
      | S t' => negb (th_inside th) && no_other_inside t' l
      end
  end.

(** A schedule: the threads that step, with the choices for spurious failures.  It
    breaks off where a thread would enter a section while another is inside one. *)
Fixpoint run_schedule (l : list (nat * bool)) (c : process St) : option (list history_event * process St) :=
  match l with
  | [] => Some ([], c)
  | (t, coin) :: l =>
      th ← pr_threads c !! t;
      if entering th && negb (no_other_inside t (pr_threads c)) then None
      else
        match thread_step t coin th (pr_state c) with
        | Ret ((th', o), s') =>
            r ← run_schedule l (put_thread t th' s' c);
            Some (option_list o ++ r.1, r.2)
        | _ => None
        end
  end.

Lemma no_other_inside_exclusive t c : no_other_inside t (pr_threads c) = true -> exclusive c t.
Proof.
  unfold exclusive. generalize (pr_threads c). intros l. revert t.
  induction l as [|th l IH]; intros t H t' th' Ht Hi; [done|]. destruct t as [|t]; simpl in H.
  - destruct t' as [|t']; [done|]. simpl in Ht. apply list_elem_of_lookup_2, list_elem_of_In in Ht.
    rewrite forallb_forall in H. specialize (H th' Ht). by rewrite Hi in H.
  - apply andb_true_iff in H as [H1 H2]. destruct t' as [|t']; simpl in Ht.
    + simplify_eq. by rewrite Hi in H1.
    + f_equal. by eapply IH.
Qed.

Lemma run_schedule_reach {MP : ModeProgs St} m n l : forall tr c tr' c',
  process_reach exclusive m n tr c -> run_schedule l c = Some (tr', c') ->
  process_reach exclusive m n (tr ++ tr') c'.
Proof.
  induction l as [|[t coin] l IH]; intros tr c tr' c' Hr; simpl.
  - intros [= <- <-]. by rewrite app_nil_r.
  - destruct (pr_threads c !! t) as [th|] eqn:Ht; [simpl|done].
    destruct (entering th && _) eqn:He; [done|].
    destruct (thread_step t coin th (pr_state c)) as [[[th' o] s']| | |] eqn:Hs; try done.
    destruct (run_schedule l _) as [[tr2 c2]|] eqn:Hl; [simpl|done]. intros [= <- <-].
    rewrite app_assoc. eapply IH; [|done]. eapply process_reach_step; [done|].
    eapply PThread; [done| |done]. intros Hen. rewrite Hen in He. simpl in He.
    apply no_other_inside_exclusive. by destruct (no_other_inside _ _).
Qed.

(** ** Runs *)

(** A thread begins a call. *)
Definition begin_alloc {MP : ModeProgs St} (t : nat) (size align : Z) (c : process St) : process St :=
  put_thread t {| th_does := InAlloc size align (mp_alloc t size align); th_inside := false |}
    (pr_state c) c.

Definition begin_free {MP : ModeProgs St} (t : nat) (ptr : Z) (c : process St) : process St :=
  put_thread t {| th_does := InFree ptr (mp_dealloc t ptr); th_inside := false |} (pr_state c) c.

Lemma begin_alloc_reach {MP : ModeProgs St} pol m n tr c t size align :
  process_reach pol m n tr c -> pr_threads c !! t = Some idle ->
  permitted (length (pr_threads c)) tr (CallAlloc t size align) ->
  process_reach pol m n tr (begin_alloc t size align c).
Proof.
  intros Hr Ht Hp. rewrite <- (app_nil_r tr). apply (process_reach_step pol m n tr c None); [done|].
  by apply PStartAlloc.
Qed.

Lemma begin_free_reach {MP : ModeProgs St} pol m n tr c t ptr :
  process_reach pol m n tr c -> pr_threads c !! t = Some idle ->
  permitted (length (pr_threads c)) tr (CallFree t ptr) ->
  process_reach pol m n (tr ++ [(CallFree t ptr, 0)]) (begin_free t ptr c).
Proof.
  intros Hr Ht Hp. apply (process_reach_step pol m n tr c (Some (CallFree t ptr, 0))); [done|].
  by apply PStartFree.
Qed.

(** The process after a schedule. *)
Definition after (l : list (nat * bool)) (c : process St) : process St :=
  default c (snd <$> run_schedule l c).

Lemma run_after l c tr :
  fst <$> run_schedule l c = Some tr -> run_schedule l c = Some (tr, after l c).
Proof. unfold after. destruct (run_schedule l c) as [[tr' c']|]; [|done]. simpl. by intros [= ->]. Qed.
End configurations.

(** Two threads take turns. *)
Definition turns (k : nat) : list (nat * bool) := concat (replicate k [(0%nat, false); (1%nat, false)]).

Lemma permitted_alloc n tr t : (t < n)%nat -> permitted n tr (CallAlloc t 100 8).
Proof. intros Ht h _. split; [done|]. split; [lia|]. split; [done|lia]. Qed.

(** After two calls of [alloc] that did not return null the first pointer may be freed. *)
Lemma permitted_free n t p size align q :
  (t < n)%nat -> p <> 0 -> q <> 0 ->
  permitted n [(CallAlloc 0 size align, p); (CallAlloc 1 size align, q)] (CallFree t p).
Proof.
  intros Ht Hp Hq h (h1 & H1 & h2 & H2 & ->). destruct H1 as [[? _]|H1]; [done|]. destruct H2 as [[? _]|H2]; [done|].
  destruct H1 as (_ & _ & _ & _ & _ & _ & ->). destruct H2 as (_ & _ & _ & _ & _ & _ & ->).
  split; [done|]. right. exists size. simpl. right. left.
Qed.

(** Two threads allocate at once; then thread 1 frees what thread 0 got, while thread 0
    allocates again. *)
Lemma hand_over_reach {St} {O : ModeOps St} {MP : ModeProgs St} m p q c0 l1 c1 l2 h2 c2 :
  process_reach exclusive m 2 [] c0 ->
  run_schedule l1 c0 = Some ([(CallAlloc 0 100 8, p); (CallAlloc 1 100 8, q)], c1) ->
  pr_threads c1 = [idle; idle] -> p <> 0 -> q <> 0 ->
  run_schedule l2 (begin_alloc 0 100 8 (begin_free 1 p c1)) = Some (h2, c2) ->
  process_reach exclusive m 2 ([(CallAlloc 0 100 8, p); (CallAlloc 1 100 8, q); (CallFree 1 p, 0)] ++ h2) c2.
Proof.
  intros R0 E1 T1 Hp Hq E2. pose proof (run_schedule_reach _ _ _ _ _ _ _ R0 E1) as R1.
  eapply run_schedule_reach; [|exact E2]. apply begin_alloc_reach.
  - apply (begin_free_reach _ _ _ [_; _]); [exact R1|by rewrite T1|]. rewrite T1. apply permitted_free; [simpl; lia|done|done].
  - simpl pr_threads. by rewrite T1.
  - simpl pr_threads. rewrite T1. apply permitted_alloc. simpl. lia.
Qed.

(** ** The common programs run alone *)

(** Work on a part of the state, cut in two. *)
Lemma zoom_bind {S T A B} (get : S -> option T) put (m : M T A) (k : A -> M T B) :
  (forall s x y, get s = Some x -> get (put y s) = Some y) ->
  (forall s x y, put y (put x s) = put y s) ->
  same_runs (a ← zoom get put m; zoom get put (k a)) (zoom get put (a ← m; k a)).
Proof.
  intros Hget Hput s. unfold zoom, mbind, M_bind. destruct (get s) as [x|] eqn:Hx; [|done].
  destruct (m x) as [[a y]| | |]; try done. rewrite (Hget _ _ _ Hx).
  destruct (k a y) as [[b z]| | |]; try done. by rewrite Hput.
Qed.

Lemma bind_ret_runs {S A} (m : M S A) : same_runs (a ← m; mret a) m.
Proof. intros s. unfold mbind, M_bind. by destruct (m s) as [[a s1]| | |]. Qed.

Lemma solo_atomic {S A} (m : M S A) : same_runs (solo (atomic m)) m.
Proof. apply bind_ret_runs. Qed.

(** Memory and counters are parts of the state of a mode. *)
Class ModeLens (St : Type) {O : ModeOps St} : Type := {
  ln_get : nat -> St -> option (Metrics * Metrics);
  ln_put : nat -> Metrics * Metrics -> St -> St;
  ln_metrics {A} t (m : M (Metrics * Metrics) A) : md_metrics t m = zoom (ln_get t) (ln_put t) m;
  ln_get_put t x y s : ln_get t s = Some x -> ln_get t (ln_put t y s) = Some y;
  ln_put_put t x y s : ln_put t y (ln_put t x s) = ln_put t y s;
  ln_put_get t x s : ln_get t s = Some x -> ln_put t x s = s;
  ln_mem_set m s : md_mem (md_set m s) = m;
  ln_set_set m m' s : md_set m' (md_set m s) = md_set m' s;
  ln_set_mem s : md_set (md_mem s) s = s
}.

Section solo.
Context {St : Type} {O : ModeOps St} {LN : ModeLens St} `{K : Kernel}.

Lemma md_on_mem_bind {A B} (m : M memory A) (k : A -> M memory B) :
  same_runs (md_on_mem (a ← m; k a)) (a ← md_on_mem m; md_on_mem (k a) : M St B).
Proof.
  symmetry. apply zoom_bind; intros s x y; [by rewrite ln_mem_set|apply ln_set_set].
Qed.

(** [maybe_flush] alone: the [fetch_add]s one after the other. *)
Lemma solo_flush t : same_runs (solo (flush_prog t)) (md_metrics t ThreadMetrics_maybe_flush : M St unit).
Proof.
  intros s. unfold flush_prog, ThreadMetrics_maybe_flush. cbn. rewrite !ln_metrics. unfold zoom.
  destruct (ln_get t s) as [[g c]|] eqn:Hx; [|by run_m; rewrite Hx].
  run_m. rewrite Hx. cbn. destruct (METRICS_FLUSH_THRESHOLD <=? allocs c +! frees c); cbn; [|done].
  run_m. by repeat (rewrite !(ln_get_put _ _ _ _ Hx), ?ln_put_put; cbn).
Qed.

Lemma solo_record t e : same_runs (solo (record_prog t e)) (md_metrics t (record_event e) : M St unit).
Proof.
  unfold record_prog, record_event. etransitivity; [apply solo_bind|]. rewrite ln_metrics.
  etransitivity; [|apply (zoom_bind (ln_get t) (ln_put t)); [intros ? ? ?; apply ln_get_put|intros ? ? ?; apply ln_put_put]].
  apply bind_same_runs; [rewrite <- ln_metrics; unfold count_prog; apply solo_atomic|]. intros _. rewrite <- ln_metrics. apply solo_flush.
Qed.

Lemma solo_alloc_large t size align : same_runs (solo (alloc_large_prog t size align)) (alloc_large t size align : M St Z).
Proof.
  unfold alloc_large_prog, alloc_large, large_alloc. cbv zeta.
  etransitivity; [apply solo_bind|]. apply bind_same_runs; [apply solo_record|]. intros _.
  etransitivity; [apply solo_bind|]. etransitivity; [|symmetry; apply md_on_mem_bind].
  apply bind_same_runs; [apply solo_atomic|]. intros [base|]; [apply solo_atomic|].
  intros s. unfold md_on_mem, zoom. simpl. by rewrite ln_set_mem.
Qed.
End solo.

(** Take a program and the computation it is compared with apart in step. *)
Ltac solo_parts :=
  repeat first
    [ reflexivity
    | assumption
    | progress cbv zeta
    | match goal with
      | |- same_runs (solo (atomic ?m)) ?m => apply solo_atomic
      | |- same_runs (solo (count_prog _ _)) _ => apply solo_atomic
      | |- same_runs (solo (record_prog _ _)) _ => apply solo_record
      | |- same_runs (solo (flush_prog _)) _ => apply solo_flush
      | |- same_runs (solo (alloc_large_prog _ _ _)) _ => apply solo_alloc_large
      | |- same_runs (solo (mbind _ _)) _ =>
          etransitivity; [apply solo_bind|apply bind_same_runs; [|intros ?]]
      | |- same_runs (solo (match ?x with _ => _ end)) _ => destruct x
      end ].

Section solo_parts.
Context {St : Type} {O : ModeOps St} {LN : ModeLens St} `{K : Kernel}.

Lemma solo_cache_hit t block size : same_runs (solo (cache_hit_prog t block size)) (cache_hit t block size : M St Z).
Proof. unfold cache_hit_prog, cache_hit. solo_parts. Qed.

Lemma solo_own_pages t size bs : same_runs (solo (alloc_own_pages_prog t size bs)) (alloc_own_pages t size bs : M St Z).
Proof. unfold alloc_own_pages_prog, alloc_own_pages, miss_block_prog, miss_block. solo_parts. Qed.

Lemma solo_dealloc_pages t base h : same_runs (solo (dealloc_pages_prog t base h)) (dealloc_pages t base h : M St unit).
Proof. unfold dealloc_pages_prog, dealloc_pages. solo_parts. Qed.

Lemma solo_dealloc_by_page t ptr : same_runs (solo (dealloc_by_page_prog t ptr)) (dealloc_by_page t ptr : M St unit).
Proof. unfold dealloc_by_page_prog, dealloc_by_page. pose proof (solo_dealloc_pages t). solo_parts. auto. Qed.
End solo_parts.
