(* ===== verification/Sharing.v ===== *)
(** * What the threads of a process share, as an interface

    [Sharing] is the invariant of a mode of the allocator whose threads are inside their
    calls, as a client sees it: threads have views, [sh_hold F Pd] being the view of one
    that holds the memory [F] and the allocations [Pd] and knows nothing else, and
    [sh_valid s vs L] says that the views [vs] and the live allocations [L] are in order in
    the state [s].  [SharingLaws] is what the invariant allows between and inside calls.
    The parts of the calls that both modes have are verified against it. *)

From S2P Require Import Prelude SizeClass Memory Extents AllocSpec Page Metrics.
From S2P Require Import Headers AllocCore Interleave Process.

(** ** The interface *)

Class Sharing (St V : Type) : Type := {
  sh_hold : list (Z * Z) -> list (Z * alloc_kind) -> V;
  sh_inside : V -> bool;
  sh_valid : St -> list V -> list (Z * alloc_kind) -> Prop
}.

(** What every action leaves as it is: the live allocations with their headers. *)
Definition keeps {St} {O : ModeOps St} (L : list (Z * alloc_kind)) (s s' : St) : Prop :=
  same_bytes (live_ext <$> L) (md_mem s) (md_mem s').

Lemma keeps_refl {St} {O : ModeOps St} L (s : St) : keeps L s s.
Proof. apply same_bytes_refl. Qed.

Lemma keeps_mem {St} {O : ModeOps St} L (s s' : St) : md_mem s' = md_mem s -> keeps L s s'.
Proof. unfold keeps. intros ->. apply same_bytes_refl. Qed.

#[export] Hint Resolve keeps_refl : aeth.

(** An action, and a program, of thread [t]. *)
Definition acts {St V} {O : ModeOps St} {SH : Sharing St V} {B} (t : nat) (P : V -> Prop) (m : M St B)
    (P' : B -> V -> Prop) : Prop :=
  act_ok sh_valid keeps sh_inside t P m P'.

Definition safe {St V} {O : ModeOps St} {SH : Sharing St V} {A} (t : nat) (P : V -> Prop) (p : prog St A)
    (Q : A -> V -> Prop) : Prop :=
  ok sh_valid keeps sh_inside t P p Q.

Class SharingLaws (St V : Type) {O : ModeOps St} {MP : ModeProgs St} {SH : Sharing St V} : Prop := {
  sl_mem_set m (s : St) : md_mem (md_set m s) = m;
  sl_new m n : sh_valid (mp_new m n) (replicate n (sh_hold [] [])) [];
  sl_perm s vs L L' : L ≡ₚ L' -> sh_valid s vs L -> sh_valid s vs L';
  sl_live s vs L : sh_valid s vs L -> exists L0 E, Live (md_mem s) (L ++ L0) E;
  sl_alone s vs L t t' v v' : sh_valid s vs L -> vs !! t = Some v -> vs !! t' = Some v' ->
    sh_inside v = true -> sh_inside v' = true -> t = t';
  sl_outside F Pd : sh_inside (sh_hold F Pd) = false;
  (** an allocation is returned to the client, or passed to [dealloc] *)
  sl_return t s vs L x : sh_valid s vs L -> vs !! t = Some (sh_hold [] [x]) ->
    sh_valid s (<[t := sh_hold [] []]> vs) (x :: L);
  sl_free t s vs L x : sh_valid s vs (x :: L) -> vs !! t = Some (sh_hold [] []) ->
    sh_valid s (<[t := sh_hold [] [x]]> vs) L;
  (** what a thread still holds at the end of a call is lost *)
  sl_drop t s vs L F : sh_valid s vs L -> vs !! t = Some (sh_hold F []) ->
    sh_valid s (<[t := sh_hold [] []]> vs) L;
  (** the client writes to its own bytes *)
  sl_write s vs L x a m' n : sh_valid s vs L -> x ∈ L -> changes_only (md_mem s) m' a n ->
    sub_ext (a, n) (user_ext x) -> sh_valid (md_set m' s) vs L;
  (** counters have no part in what threads hold *)
  sl_metrics {B} t (m : M (Metrics * Metrics) B) (P : V -> Prop) :
    (forall x, wp m (fun _ _ => True) x) -> acts t P (md_metrics t m) (fun _ v => P v);
  (** work on memory, in an arena where this thread's part is in front *)
  sl_mem {B} t (m : M memory B) F Pd (P' : B -> V -> Prop) :
    (forall mm R, arena mm (F ++ (live_ext <$> Pd) ++ R) -> Forall (live_ok mm) Pd ->
     wp m (fun b mm' => exists F' Pd', same_bytes R mm mm' /\
       arena mm' (F' ++ (live_ext <$> Pd') ++ R) /\ Forall (live_ok mm') Pd' /\
       P' b (sh_hold F' Pd')) mm) ->
    acts t (fun v => v = sh_hold F Pd) (md_on_mem m) P'
}.

(** ** Rules *)

Section rules.
Context {St V : Type} {O : ModeOps St} {SH : Sharing St V} {A : Type} (t : nat).

Lemma safe_done (a : A) (P : V -> Prop) (Q : A -> V -> Prop) :
  (forall v, P v -> Q a v) -> safe t P (mret a) Q.
Proof. done. Qed.

Lemma safe_act {B} P (m : M St B) R (k : B -> prog St A) Q :
  acts t P m R -> (forall b, safe t (R b) (k b) Q) -> safe t P (b ← atomic m; k b) Q.
Proof. intros Hm Hk. by exists R. Qed.

Lemma safe_last P (m : M St A) Q : acts t P m Q -> safe t P (atomic m) Q.
Proof. apply ok_atomic. Qed.

Lemma safe_bind {B} P (p : prog St B) R (k : B -> prog St A) Q :
  safe t P p R -> (forall b, safe t (R b) (k b) Q) -> safe t P (b ← p; k b) Q.
Proof. intros Hp Hk. by eapply ok_bind. Qed.

Lemma safe_weak {B} P (cas : bool -> M St B) R (k : B -> prog St A) Q :
  (forall spurious, acts t P (cas spurious) R) -> (forall b, safe t (R b) (k b) Q) ->
  safe t P (b ← weak cas; k b) Q.
Proof. intros Hm Hk spurious. exists R. split; [apply Hm|apply Hk]. Qed.

Lemma safe_weak_last P (cas : bool -> M St A) Q :
  (forall spurious, acts t P (cas spurious) Q) -> safe t P (weak cas) Q.
Proof. intros Hm spurious. by apply safe_last. Qed.

Lemma safe_pre P P' (p : prog St A) Q : (forall v, P' v -> P v) -> safe t P p Q -> safe t P' p Q.
Proof. apply ok_pre. Qed.

Lemma safe_exists {W} (P : W -> V -> Prop) (p : prog St A) Q :
  (forall w, safe t (P w) p Q) -> safe t (fun v => exists w, P w v) p Q.
Proof. apply ok_exists. Qed.

Lemma safe_assume (φ : Prop) P (p : prog St A) Q :
  (φ -> safe t P p Q) -> safe t (fun v => P v /\ φ) p Q.
Proof.
  intros H. apply (safe_pre (fun v => exists _ : φ, P v)); [intros v [? ?]; eauto|].
  by apply safe_exists.
Qed.

Lemma acts_exists {W B} (P : W -> V -> Prop) (m : M St B) (P' : B -> V -> Prop) :
  (forall x, acts t (P x) m P') -> acts t (fun v => exists x, P x v) m P'.
Proof. intros Hm s vs L v Hv Ht [x HP]. by apply (Hm x). Qed.

Lemma acts_post {B} P (m : M St B) (P' Q' : B -> V -> Prop) :
  acts t P m P' -> (forall b v, P' b v -> Q' b v) -> acts t P m Q'.
Proof.
  intros Hm HQ s vs L v Hv Ht HP. eapply wp_mono; [by apply (Hm s vs L v)|].
  intros b s' (v' & H1 & H2 & H3). exists v'. auto.
Qed.

Lemma acts_assume {B} (φ : Prop) P (m : M St B) (P' : B -> V -> Prop) :
  (φ -> acts t P m P') -> acts t (fun v => P v /\ φ) m P'.
Proof. intros Hm s vs L v Hv Ht [HP Hφ]. by apply Hm. Qed.
End rules.

(** ** Memory *)

Section common.
Context {St V : Type} {O : ModeOps St} {MP : ModeProgs St} {SH : Sharing St V} {SL : SharingLaws St V}.
Context `{K : Kernel} {KS : KernelSpec K}.
Context (t : nat).

(** New pages, cut into the disjoint parts [G]. *)
Lemma pages_act pages (G : Z -> list (Z * Z)) :
  0 < pages < 2 ^ 52 ->
  (forall p, p mod PAGE_SIZE = 0 -> all_disjoint (G p) /\
     Forall (fun e => sub_ext e (p, pages * PAGE_SIZE) /\ e.1 mod 16 = 0 /\ 0 <= e.2) (G p)) ->
  acts t (fun v => v = sh_hold [] []) (md_on_mem (PageAllocator_alloc pages))
    (fun r v => match r with
                | Some p => v = sh_hold (G p) [] /\ p mod PAGE_SIZE = 0 /\ 0 < p /\
                            p + pages * PAGE_SIZE <= USER_TOP
                | None => v = sh_hold [] []
                end).
Proof.
  intros Hpg HG. apply (sl_mem t _ [] []). intros mm R Har _. apply (pages_wp R); [exact Har|done|..].
  - intros _. by exists [], [].
  - intros p mm' Har' Hs Ha H0 Htop. destruct (HG p Ha) as [Hd Hf]. exists (G p), [].
    split_and!; try done. by apply (arena_refine _ (p, pages * PAGE_SIZE)).
Qed.

(** The header of a small block. *)
Lemma finish_act b size c :
  0 < size <= MAX_CACHE_SIZE -> size_to_class size = Some c ->
  acts t (fun v => v = sh_hold [(b, block_size c)] []) (md_on_mem (store64_at b size))
    (fun _ v => v = sh_hold [] [(b + CACHE_HEADER_SIZE, ASmall size)]).
Proof.
  intros Hs Hc. apply (sl_mem t _ [(b, block_size c)] []). intros mm R Har _.
  eapply finish_small_wp; [exact Har|done|done|]. intros mm' Har' Hok Hsame.
  exists [], [(b + CACHE_HEADER_SIZE, ASmall size)]. split_and!; [done|done|by constructor|done].
Qed.

Lemma write_headers_act size align pages base :
  0 < size -> layout_ok size align -> 0 < pages < 2 ^ 52 -> 32 + size + align <= pages * PAGE_SIZE ->
  acts t (fun v => v = sh_hold [(base, pages * PAGE_SIZE)] [] /\ base mod PAGE_SIZE = 0 /\ 0 < base /\
                   base + pages * PAGE_SIZE <= USER_TOP)
    (md_on_mem (write_headers size align pages base))
    (fun p v => p mod align = 0 /\ exists k, kind_size k = size /\ v = sh_hold [] [(p, k)]).
Proof.
  intros Hs0 Hlay Hpg Hfit. apply acts_assume. intros (Hal & Hb0 & Htop).
  apply (sl_mem t _ [(base, pages * PAGE_SIZE)] []). intros mm R Har _.
  eapply (write_headers_wp R); try done. intros p k mm' Hk Hpa _ Hok Har' Hsame.
  exists [], [(p, k)]. split_and!; [done|done|by constructor|done|]. by exists k.
Qed.

(** What a call of [dealloc] finds: a small block, which the thread takes over, or the
    header of pages. *)
Lemma find_small_act p size :
  acts t (fun v => v = sh_hold [] [(p, ASmall size)]) (md_on_mem (find_alloc p))
    (fun r v => r = FSmall (p - CACHE_HEADER_SIZE) size /\
                exists c, size_to_class size = Some c /\ 0 <= c <= 12 /\
                  v = sh_hold [(p - CACHE_HEADER_SIZE, block_size c)] []).
Proof.
  apply (sl_mem t _ [] [(p, ASmall size)]). intros mm R Har Hok.
  assert (HL : Live mm [(p, ASmall size)] R) by done.
  apply (find_alloc_wp _ _ _ _ HL). apply Forall_cons in Hok as [Hok _].
  destruct (small_class _ _ _ Hok) as (c & Hc & Hcr & Hle & He). simpl in Har. rewrite He in Har.
  exists [(p - CACHE_HEADER_SIZE, block_size c)], []. split_and!; [done|exact Har|done|done|]. by exists c.
Qed.

Lemma find_large_act p base pages size :
  acts t (fun v => v = sh_hold [] [(p, ALarge base pages size)]) (md_on_mem (find_alloc p))
    (fun r v => r = FLarge base {| ph_magic := MAGIC; ph_num_pages := wrap32 pages;
                                   ph_requested_size := size |} /\
                v = sh_hold [] [(p, ALarge base pages size)]).
Proof.
  apply (sl_mem t _ [] [(p, ALarge base pages size)]). intros mm R Har Hok.
  assert (HL : Live mm [(p, ALarge base pages size)] R) by done.
  apply (find_alloc_wp _ _ _ _ HL). by exists [], [(p, ALarge base pages size)].
Qed.

(** The memory outside an extent of the arena does not change. *)
Lemma same_bytes_outside e R mm mm' :
  arena mm (e :: R) -> (forall i, ~ in_ext i e -> load8 mm' i = load8 mm i) -> same_bytes R mm mm'.
Proof.
  intros Har Hout e' i He' Hi. apply Hout. intros Hi'. by apply (arena_disj _ _ _ e' Har He') with i.
Qed.

Lemma release_act p base pages size :
  acts t (fun v => v = sh_hold [] [(p, ALarge base pages size)])
    (md_on_mem (release_pages base {| ph_magic := MAGIC; ph_num_pages := wrap32 pages;
                                      ph_requested_size := size |}))
    (fun _ v => v = sh_hold [] []).
Proof.
  apply (sl_mem t _ [] [(p, ALarge base pages size)]). intros mm R Har Hok.
  apply Forall_cons in Hok as [(Hpg & Hal & _) _].
  apply release_pages_wp; [done|done|]. intros mm' Hout _.
  assert (Hs : same_bytes R mm mm') by exact (same_bytes_outside _ _ _ _ Har Hout).
  exists [], []. split_and!; [done| |done|done]. eapply same_bytes_arena; [done|].
  by apply (arena_drop _ [_]) in Har.
Qed.

(** ** The counters *)

(** They have no part in what threads hold. *)
Lemma flush_safe (P : V -> Prop) : safe t P (flush_prog t) (fun _ v => P v).
Proof.
  unfold flush_prog. eapply safe_act; [apply sl_metrics; intros x; by apply wp_gets|]. intros c.
  destruct (_ <=? _); [|by apply safe_done].
  do 5 (eapply safe_act; [apply sl_metrics; intros x; by apply wp_modify|]; intros []).
  apply safe_last, sl_metrics. intros x. by apply wp_modify.
Qed.

Lemma count_safe e (P : V -> Prop) : safe t P (count_prog t e) (fun _ v => P v).
Proof. apply safe_last, sl_metrics. auto with aeth. Qed.

Lemma record_safe e (P : V -> Prop) : safe t P (record_prog t e) (fun _ v => P v).
Proof. eapply safe_bind; [apply count_safe|]. intros []. apply flush_safe. Qed.

(** ** Parts of [alloc] and [dealloc] *)

(** What the thread holds when [alloc] returns [p]; blocks are aligned to 16 anyway. *)
Definition returns (size align p : Z) (v : V) : Prop :=
  (p = 0 /\ v = sh_hold [] []) \/
  (0 < size /\ (p mod align = 0 \/ align <= 8) /\ exists k, kind_size k = size /\ v = sh_hold [] [(p, k)]).

Section small.
Context (size align c : Z) (Hsize : 0 < size <= MAX_CACHE_SIZE) (Halign : align <= 8).
Context (Hc : size_to_class size = Some c).

Lemma small_class_range : 0 <= c <= 12.
Proof. by apply size_to_class_inv in Hc as [? _]. Qed.

Lemma small_returns b v :
  v = sh_hold [] [(b + CACHE_HEADER_SIZE, ASmall size)] -> returns size align (b + CACHE_HEADER_SIZE) v.
Proof. intros ->. right. split_and!; [lia|by right|]. by exists (ASmall size). Qed.

Lemma cache_hit_safe b :
  safe t (fun v => v = sh_hold [(b, block_size c)] []) (cache_hit_prog t b size) (returns size align).
Proof.
  eapply safe_bind; [apply record_safe|]. intros [].
  eapply safe_act; [by apply finish_act|]. intros []. apply safe_done. intros v. apply small_returns.
Qed.

Lemma miss_block_safe b :
  safe t (fun v => v = sh_hold [(b, block_size c)] []) (miss_block_prog t b size) (returns size align).
Proof.
  eapply safe_act; [by apply finish_act|]. intros [].
  eapply safe_bind; [apply flush_safe|]. intros []. apply safe_done.
  intros v. apply small_returns.
Qed.

Lemma alloc_own_pages_safe :
  safe t (fun v => v = sh_hold [] []) (alloc_own_pages_prog t size (block_size c)) (returns size align).
Proof.
  pose proof (block_size_class c small_class_range) as Hbs.
  pose proof (div_ceil_spec (block_size c) PAGE_SIZE ltac:(done)) as Hd.
  unfold alloc_own_pages_prog. cbv zeta. set (pages := Z.max (div_ceil (block_size c) PAGE_SIZE) 1).
  eapply safe_act; [apply (pages_act pages (fun p => [(p, block_size c)]))|].
  - unfold PAGE_SIZE in *. lia.
  - intros p Hp. split; [by split|]. constructor; [|done]. unfold sub_ext. cbn [fst snd].
    unfold PAGE_SIZE in *. split_and!; try lia. mlia.
  - intros [p|]; [|apply safe_done; intros v ->; by left].
    apply safe_assume. intros _. apply miss_block_safe.
Qed.
End small.

Lemma alloc_large_safe size align :
  0 < size -> layout_ok size align ->
  safe t (fun v => v = sh_hold [] []) (alloc_large_prog t size align) (returns size align).
Proof.
  intros Hs0 Hlay. unfold alloc_large_prog.
  eapply safe_bind; [apply record_safe|]. intros []. cbv zeta. fold (large_page_count size align).
  destruct (large_pages size align Hlay) as (pages & <- & Hpg & Hfit).
  eapply safe_act; [apply (pages_act pages (fun p => [(p, pages * PAGE_SIZE)])); [done|]|].
  - intros p Hp. split; [by split|]. constructor; [|done]. unfold sub_ext, PAGE_SIZE in *. simpl.
    split_and!; try lia. mlia.
  - intros [p|]; [|apply safe_done; intros v ->; by left].
    apply safe_last. eapply acts_post; [by apply write_headers_act|].
    intros q v [Hq (k & Hk & ->)]. right. split_and!; [done|by left|]. by exists k.
Qed.

(** The thread may still hold a block that did not find a place. *)
Definition leaves (v : V) : Prop := exists F, v = sh_hold F [].


(** ** The dispatch of the calls on the kind of request *)

Lemma alloc_dispatch_safe size align (take : Z -> prog St (option Z)) (miss : Z -> Z -> prog St Z)
    (R : Z -> V -> Prop) :
  layout_ok size align ->
  (forall c, 0 <= c <= 12 ->
     safe t (fun v => v = sh_hold [] []) (take c)
       (fun r v => match r with Some b => v = sh_hold [(b, block_size c)] [] | None => R c v end)) ->
  (forall c, 0 < size <= MAX_CACHE_SIZE -> align <= 8 -> size_to_class size = Some c ->
     safe t (R c) (miss c (class_size c)) (returns size align)) ->
  safe t (fun v => v = sh_hold [] [])
    (if size =? 0 then mret 0
     else if (size <=? MAX_CACHE_SIZE) && (align <=? 8) then
       let cache_size := Z.max (round_up_pow2 size) 16 in
       match size_to_class cache_size with
       | Some class =>
           r ← take class;
           match r with Some block => cache_hit_prog t block size | None => miss class cache_size end
       | None => alloc_large_prog t size align
       end
     else alloc_large_prog t size align) (returns size align).
Proof.
  intros Hlay Htake Hmiss. destruct (Z.eqb_spec size 0) as [->|H0].
  { apply safe_done. intros v ->. by left. }
  assert (Hs0 : 0 < size) by (destruct Hlay; lia).
  destruct ((size <=? MAX_CACHE_SIZE) && (align <=? 8)) eqn:Hsmall; [|by apply alloc_large_safe].
  apply andb_true_iff in Hsmall as [Hs%Z.leb_le Ha%Z.leb_le].
  destruct (size_to_class_total size) as (c & Hc & Hcr & Hround & _); [done|]. cbv zeta.
  rewrite (size_to_class_rounded _ _ Hc), Hround.
  eapply safe_bind; [by apply Htake|]. intros [b|]; [by eapply cache_hit_safe|by apply Hmiss].
Qed.

Lemma dealloc_dispatch_safe x (cached : Z -> Z -> prog St unit) :
  (forall c b, 0 <= c <= 12 -> safe t (fun v => v = sh_hold [(b, block_size c)] []) (cached c b) (fun _ => leaves)) ->
  0 < x.1 ->
  safe t (fun v => v = sh_hold [] [x])
    (if x.1 =? 0 then mret tt
     else
       r ← atomic (md_on_mem (find_alloc x.1));
       match r with
       | FLarge base h | FPage base h => dealloc_pages_prog t base h
       | FSmall size_ptr maybe_size =>
           match size_to_class (Z.max (round_up_pow2 maybe_size) 16) with
           | Some class => cached class size_ptr
           | None => dealloc_by_page_prog t x.1
           end
       end) (fun _ => leaves).
Proof.
  intros Hcached H0. destruct (Z.eqb_spec x.1 0); [lia|].
  destruct x as [p [size|base pages size]]; simpl in *.
  - eapply safe_act; [apply find_small_act|]. intros r.
    apply (safe_pre t (fun v => (exists c, v = sh_hold [(p - CACHE_HEADER_SIZE, block_size c)] [] /\
      size_to_class size = Some c /\ 0 <= c <= 12) /\ r = FSmall (p - CACHE_HEADER_SIZE) size)).
    { intros v (-> & c & Hc & Hcr & ->). split; [|done]. by exists c. }
    apply safe_assume. intros ->. apply safe_exists. intros c. apply safe_assume. intros [Hc Hcr].
    rewrite (size_to_class_rounded _ _ Hc). by apply Hcached.
  - eapply safe_act; [apply find_large_act|]. intros r.
    apply (safe_pre t (fun v => v = sh_hold [] [(p, ALarge base pages size)] /\
      r = FLarge base {| ph_magic := MAGIC; ph_num_pages := wrap32 pages; ph_requested_size := size |}));
      [intros v [? ?]; done|]. apply safe_assume. intros ->.
    eapply safe_act; [apply release_act|]. intros []. eapply safe_pre; [|apply (record_safe EvFree leaves)].
    intros v ->. by eexists.
Qed.
End common.
