(* ===== verification/ProcessSafe.v ===== *)
(** * Processes of a mode that meets the interface

    Any number of threads inside [alloc] and [dealloc] at once, with clients that load
    and store in between.  For a mode of the allocator whose shared invariant meets
    [SharingLaws] and whose two calls are verified programs ([SharedCalls]), the process
    refines the reference heap of AllocSpec, no step of a thread fails, and a thread that
    runs alone finishes its call, as long as no two threads are inside a section at the
    same time. *)

From S2P Require Import Prelude SizeClass Memory Extents AllocSpec Page Metrics.
From S2P Require Import Headers AllocCore Interleave Process Sharing.

(** The calls of a mode, verified; their loops end when nobody interferes. *)
Class SharedCalls (St V : Type) {O : ModeOps St} {MP : ModeProgs St} {SH : Sharing St V} : Prop := {
  sc_alloc t size align : layout_ok size align ->
    safe t (fun v => v = sh_hold [] []) (mp_alloc t size align) (returns size align);
  sc_dealloc t x : 0 < x.1 -> safe t (fun v => v = sh_hold [] [x]) (mp_dealloc t x.1) (fun _ => leaves);
  sc_dealloc_null t : safe t (fun v => v = sh_hold [] []) (mp_dealloc t 0) (fun _ => leaves);
  sc_alloc_settles t size align : settles (mp_alloc t size align);
  sc_dealloc_settles t ptr : settles (mp_dealloc t ptr)
}.

Lemma heap_history_snoc h tr c r h1 h2 :
  heap_history h tr h1 -> heap_step h1 c r h2 -> heap_history h (tr ++ [(c, r)]) h2.
Proof.
  revert h. induction tr as [|[c0 r0] tr IH]; intros h; simpl.
  - intros ->. by exists h2.
  - intros (h' & Hs & Hh) Hc. exists h'. auto.
Qed.

Section processes.
Context {St V : Type} {O : ModeOps St} {MP : ModeProgs St} {SH : Sharing St V}.
Context {SL : SharingLaws St V} {SC : SharedCalls St V}.

(** ** The invariant of a process *)

(** A thread inside a call runs a verified program, and its view satisfies the assertion
    where it stands. *)
Definition thread_ok (t : nat) (th : thread St) (v : V) : Prop :=
  sh_inside v = th_inside th /\
  match th_does th with
  | Idle => v = sh_hold [] [] /\ th_inside th = false
  | InAlloc size align p => layout_ok size align /\ exists P, P v /\ safe t P p (returns size align)
  | InFree ptr p => exists P, P v /\ safe t P p (fun _ => leaves)
  end.

Lemma idle_ok t : thread_ok t idle (sh_hold [] []).
Proof. split; [apply sl_outside|done]. Qed.

#[local] Hint Resolve idle_ok : core.

(** The heap [h] agrees with the process. *)
Record agrees (c : process St) (vs : list V) (L : list (Z * alloc_kind)) (h : heap) : Prop := {
  ag_valid : sh_valid (pr_state c) vs L;
  ag_views : length vs = length (pr_threads c);
  ag_threads t th v : pr_threads c !! t = Some th -> vs !! t = Some v -> thread_ok t th v;
  ag_live : h_live h ≡ₚ user_ext <$> L;
  ag_known a w : h_known h !! a = Some w -> load8 (md_mem (pr_state c)) a = Some w /\ owns h a
}.

Definition process_ok (n : nat) (tr : list history_event) (c : process St) : Prop :=
  length (pr_threads c) = n /\
  exists vs L h, heap_history heap_empty tr h /\ agrees c vs L h.

(** The bytes of live allocations survive the steps of the threads. *)
Lemma known_keeps c vs L h s' :
  agrees c vs L h -> keeps L (pr_state c) s' ->
  forall a w, h_known h !! a = Some w -> load8 (md_mem s') a = Some w /\ owns h a.
Proof.
  intros [] Hk a w Hw. destruct (ag_known0 a w Hw) as [Hld Hown]. split; [|done].
  destruct Hown as (e & He & Hi). rewrite ag_live0 in He.
  apply list_elem_of_fmap in He as (x & -> & Hx).
  destruct (sl_live _ _ _ ag_valid0) as (L0 & E & _ & Hok).
  rewrite Forall_forall in Hok. specialize (Hok x (proj2 (elem_of_app _ _ _) (or_introl Hx))).
  rewrite (Hk (live_ext x) a); [done|apply list_elem_of_fmap; eauto|].
  pose proof (user_ext_sub _ _ Hok) as [H1 H2]. unfold in_ext in *. lia.
Qed.

(** A thread changes, and nothing of the others. *)
Lemma agrees_thread c vs L h t th v s' th' v' L' h' :
  agrees c vs L h -> pr_threads c !! t = Some th -> vs !! t = Some v ->
  sh_valid s' (<[t := v']> vs) L' -> thread_ok t th' v' ->
  h_live h' ≡ₚ user_ext <$> L' ->
  (forall a w, h_known h' !! a = Some w -> load8 (md_mem s') a = Some w /\ owns h' a) ->
  agrees (put_thread t th' s' c) (<[t := v']> vs) L' h'.
Proof.
  intros [] Ht Hv Hval Hok Hl Hk. constructor; simpl; try done.
  - by rewrite !length_insert.
  - intros u thu w Hu Hw. destruct (decide (u = t)) as [->|Hne].
    + rewrite list_lookup_insert_eq in Hu by (by eapply lookup_lt_Some).
      rewrite list_lookup_insert_eq in Hw by (by eapply lookup_lt_Some). by simplify_eq.
    + rewrite list_lookup_insert_ne in Hu by done. rewrite list_lookup_insert_ne in Hw by done. eauto.
Qed.

Lemma agrees_view c vs L h t th :
  agrees c vs L h -> pr_threads c !! t = Some th -> exists v, vs !! t = Some v /\ thread_ok t th v.
Proof.
  intros [] Ht. destruct (lookup_lt_is_Some_2 vs t) as [v Hv]; [|eauto].
  rewrite ag_views0. by eapply lookup_lt_Some.
Qed.

(** No other thread is inside [alloc_node]. *)
Lemma agrees_alone c vs L h t : agrees c vs L h -> exclusive c t -> alone sh_inside t vs.
Proof.
  intros [] Hex u w Hw Hi.
  destruct (lookup_lt_is_Some_2 (pr_threads c) u) as [thu Hu]; [rewrite <- ag_views0; by eapply lookup_lt_Some|].
  destruct (ag_threads0 u thu w Hu Hw) as [Hi' _]. apply (Hex u thu Hu). congruence.
Qed.

(** ** The steps of the threads *)

(** A step inside a call. *)
Lemma agrees_pstep {A} c vs L h t th v coin (p : prog St A) P Q (th' : bool * prog St A -> thread St) :
  agrees c vs L h -> pr_threads c !! t = Some th -> vs !! t = Some v ->
  P v -> safe t P p Q -> sh_inside v = th_inside th ->
  (match p with Enter _ => exclusive c t | _ => True end) ->
  (forall r v' P', sh_inside v' = r.1 -> P' v' -> safe t P' r.2 Q -> thread_ok t (th' r) v') ->
  wp (pstep coin (th_inside th) p) (fun r s' => exists vs',
    agrees (put_thread t (th' r) s' c) vs' L h) (pr_state c).
Proof.
  intros Hag Ht Hv HP Hsafe Hin Hex Hth. pose proof Hag as [].
  assert (Hal : match p with Enter _ => alone sh_inside t vs | _ => True end)
    by (destruct p; try done; by eapply agrees_alone).
  rewrite <- Hin.
  eapply wp_mono; [by eapply (ok_step sh_valid keeps sh_inside keeps_refl t coin p P Q)|].
  intros r s' (v' & P' & Hval & Hk & Hi & HP' & Hok). exists (<[t := v']> vs).
  pose proof (known_keeps _ _ _ _ _ Hag Hk) as Hkn.
  eapply (agrees_thread c vs L h t th v); try done. by eapply Hth.
Qed.

(** The end of [alloc]. *)
Lemma agrees_return c vs L h t th v size align p :
  agrees c vs L h -> pr_threads c !! t = Some th -> vs !! t = Some v ->
  layout_ok size align -> returns size align p v ->
  exists vs' L' h', heap_step h (CallAlloc t size align) p h' /\
    agrees (put_thread t idle (pr_state c) c) vs' L' h'.
Proof.
  intros Hag Ht Hv Hlay [[-> ->]|(Hs & Hal & k & Hk & ->)]; pose proof Hag as [].
  - exists (<[t := sh_hold [] []]> vs), L, h. split; [by left|].
    eapply (agrees_thread c vs L h t th); try done. by rewrite list_insert_id.
  - pose proof (sl_return _ _ _ _ _ ag_valid0 Hv) as Hval'.
    exists (<[t := sh_hold [] []]> vs), ((p, k) :: L). destruct (sl_live _ _ _ Hval') as (L0 & E & Hlive).
    simpl in Hlive. pose proof (live_user_arena _ _ _ Hlive) as Har.
    destruct (arena_ok _ _ _ Har (list_elem_of_here _ _)) as (H0 & H16 & _ & Htop & _).
    cbn [fst snd user_ext] in *. subst size.
    eexists. split; [right; split_and!; try done|].
    + destruct Hal as [?|Hle]; [done|]. destruct Hlay as (_ & (j & Hj & ->)%is_power_of_two_iff & _).
      apply (pow2_le_inv j 3) in Hle; [|done]. apply Z.mod_divide in H16; [|done].
      apply Z.mod_divide; [pose proof (pow2_pos j Hj); lia|]. eapply Z.divide_trans; [|done].
      exists (2 ^ (4 - j)). change 16 with (2 ^ 4). rewrite Z.mul_comm. apply pow2_split. lia.
    + rewrite ag_live0. destruct Har as [[Hd _] _]. rewrite fmap_app, Forall_app in Hd. by destruct Hd.
    + eapply (agrees_thread c vs L h t th); [done|done|done|done|done| |].
      * simpl. by rewrite ag_live0.
      * simpl. intros a w [Hw Hout]%lookup_forget. destruct (ag_known0 a w Hw) as [Hld (e & He & Hi)].
        split; [done|]. exists e. split; [by right|done].
Qed.

(** Any step of a thread inside a call returns and keeps the invariant. *)
Lemma thread_step_wp n tr c t th coin :
  process_ok n tr c -> pr_threads c !! t = Some th -> (entering th = true -> exclusive c t) ->
  wp (thread_step t coin th)
    (fun r s' => process_ok n (tr ++ option_list r.2) (put_thread t r.1 s' c)) (pr_state c).
Proof.
  intros (Hn & vs & L & h & Hh & Hag) Ht Hex.
  destruct (agrees_view _ _ _ _ _ _ Hag Ht) as (v & Hv & Hin & Hok).
  assert (Hlen : forall th' s', length (pr_threads (put_thread t th' s' c)) = n)
    by (intros; simpl; by rewrite length_insert).
  assert (Hstep : forall {A} (p : prog St A) P Q (f : bool * prog St A -> thread St),
    P v -> safe t P p Q -> (match p with Enter _ => exclusive c t | _ => True end) ->
    (forall r v' P', sh_inside v' = r.1 -> P' v' -> safe t P' r.2 Q -> thread_ok t (f r) v') ->
    wp (r ← pstep coin (th_inside th) p; mret (f r, None))
      (fun r s' => process_ok n (tr ++ option_list r.2) (put_thread t r.1 s' c)) (pr_state c)).
  { intros A p P Q f HP Hs He Hf. apply wp_bind.
    eapply wp_mono; [by eapply (agrees_pstep c vs L h t th v coin p P Q f)|].
    intros r s' [vs' Hag']. apply wp_ret. simpl. rewrite app_nil_r. split; [done|]. by exists vs', L, h. }
  unfold thread_step, entering in *. destruct (th_does th) as [|size align p|ptr p] eqn:Hd.
  - apply wp_ret. simpl. rewrite app_nil_r. split; [done|]. exists vs, L, h. split; [done|].
    unfold put_thread. rewrite list_insert_id by done. by destruct c.
  - destruct Hok as (Hlay & P & HP & Hs).
    assert (Hf : forall r v' P', sh_inside v' = r.1 -> P' v' -> safe t P' r.2 (returns size align) ->
      thread_ok t {| th_does := InAlloc size align r.2; th_inside := r.1 |} v').
    { intros r v' P' ? ? ?. split; [done|]. simpl. split; [done|]. by exists P'. }
    destruct p; try (eapply Hstep; [exact HP|exact Hs|auto|exact Hf]).
    apply wp_ret. destruct (agrees_return c vs L h t th v size align a) as (vs' & L' & h' & Hst & Hag');
      [done|done|done|done|by apply Hs|]. split; [done|]. exists vs', L', h'. split; [|done].
    by eapply heap_history_snoc.
  - destruct Hok as (P & HP & Hs).
    assert (Hf : forall r v' P', sh_inside v' = r.1 -> P' v' -> safe t P' r.2 (fun _ => leaves) ->
      thread_ok t {| th_does := InFree ptr r.2; th_inside := r.1 |} v').
    { intros r v' P' ? ? ?. split; [done|]. simpl. by exists P'. }
    destruct p; try (eapply Hstep; [exact HP|exact Hs|auto|exact Hf]).
    apply wp_ret. simpl. rewrite app_nil_r. split; [done|]. destruct (Hs v HP) as [F ->].
    pose proof Hag as []. exists (<[t := sh_hold [] []]> vs), L, h. split; [done|].
    eapply (agrees_thread c vs L h t th); try done. by eapply sl_drop.
Qed.

(** The start of [alloc]. *)
Lemma start_alloc_ok n tr c t size align :
  process_ok n tr c -> pr_threads c !! t = Some idle -> permitted n tr (CallAlloc t size align) ->
  process_ok n tr (put_thread t {| th_does := InAlloc size align (mp_alloc t size align);
                                   th_inside := false |} (pr_state c) c).
Proof.
  intros (Hn & vs & L & h & Hh & Hag) Ht Hp. destruct (Hp h Hh) as [_ Hlay].
  destruct (agrees_view _ _ _ _ _ _ Hag Ht) as (v & Hv & _ & -> & _).
  split; [simpl; by rewrite length_insert|]. exists (<[t := sh_hold [] []]> vs), L, h. split; [done|].
  pose proof Hag as []. eapply (agrees_thread c vs L h t idle); try done.
  - by rewrite list_insert_id.
  - split; [apply sl_outside|]. split; [done|]. exists (fun v => v = sh_hold [] []). split; [done|]. by apply sc_alloc.
Qed.

(** A pointer of the heap is the pointer of a live allocation. *)
Lemma agrees_pointer c vs L h p m :
  agrees c vs L h -> (p, m) ∈ h_live h -> exists k L', L ≡ₚ (p, k) :: L' /\ kind_size k = m.
Proof.
  intros [] Hp. rewrite ag_live0 in Hp. apply list_elem_of_fmap in Hp as ([q k] & [= -> ->] & Hx).
  apply elem_of_Permutation in Hx as [L' HL]. by exists k, L'.
Qed.

(** The call of [dealloc]: from here on the allocation is not the client's. *)
Lemma start_free_ok n tr c t ptr :
  process_ok n tr c -> pr_threads c !! t = Some idle -> permitted n tr (CallFree t ptr) ->
  process_ok n (tr ++ [(CallFree t ptr, 0)])
    (put_thread t {| th_does := InFree ptr (mp_dealloc t ptr); th_inside := false |} (pr_state c) c).
Proof.
  intros (Hn & vs & L & h & Hh & Hag) Ht Hp. destruct (Hp h Hh) as [_ Hptr].
  destruct (agrees_view _ _ _ _ _ _ Hag Ht) as (v & Hv & _ & -> & _).
  split; [simpl; by rewrite length_insert|]. pose proof Hag as []. destruct Hptr as [->|[m Hm]].
  - exists (<[t := sh_hold [] []]> vs), L, h. split; [eapply heap_history_snoc; [done|]; split; [done|by left]|].
    eapply (agrees_thread c vs L h t idle); try done; [by rewrite list_insert_id|].
    split; [apply sl_outside|]. exists (fun v => v = sh_hold [] []). split; [done|]. apply sc_dealloc_null.
  - destruct (agrees_pointer _ _ _ _ _ _ Hag Hm) as (k & L' & HL & <-).
    pose proof (sl_perm _ _ _ _ HL ag_valid0) as Hval. destruct (sl_live _ _ _ Hval) as (L0 & E & Hlive).
    pose proof (sl_free _ _ _ _ _ Hval Hv) as Hval'. rewrite HL in ag_live0. simpl in Hlive.
    destruct (live_pos _ _ _ _ Hlive) as [H0 _].
    exists (<[t := sh_hold [] [(ptr, k)]]> vs), L',
      {| h_live := user_ext <$> L'; h_known := forget (ptr, kind_size k) (h_known h) |}.
    split; [eapply heap_history_snoc; [done|]; split; [done|right]; by eexists _, _|].
    eapply (agrees_thread c vs L h t idle); try done.
    + split; [apply sl_outside|]. exists (fun v => v = sh_hold [] [(ptr, k)]). split; [done|]. by apply (sc_dealloc t (ptr, k)).
    + simpl. intros a w [Hw Hout]%lookup_forget. destruct (ag_known0 a w Hw) as [Hld (e & He & Hi)].
      split; [done|]. exists e. split; [|done]. rewrite ag_live0 in He.
      by apply elem_of_cons in He as [->|He].
Qed.

(** The address of a byte the client owns. *)
Lemma agrees_owned c vs L h a :
  agrees c vs L h -> owns h a -> exists x, x ∈ L /\ in_ext a (user_ext x) /\
    is_Some (load8 (md_mem (pr_state c)) a).
Proof.
  intros [] (e & He & Hi). rewrite ag_live0 in He. apply list_elem_of_fmap in He as (x & -> & Hx).
  exists x. split_and!; [done|done|]. destruct (sl_live _ _ _ ag_valid0) as (L0 & E & Hlive).
  pose proof (live_user_arena _ _ _ Hlive) as Har.
  assert (Hin : user_ext x ∈ user_ext <$> L ++ L0) by (apply list_elem_of_fmap; exists x; set_solver).
  destruct (arena_ok _ _ _ Har Hin) as (_ & _ & _ & _ & Hacc). by apply Hacc.
Qed.

Lemma get_size_ok n tr c p r m' :
  process_ok n tr c -> permitted n tr (CallSize p) -> get_alloc_size p (md_mem (pr_state c)) = Ret (r, m') ->
  process_ok n (tr ++ [(CallSize p, r)]) c.
Proof.
  intros (Hn & vs & L & h & Hh & Hag) Hp Hr. split; [done|]. exists vs, L, h. split; [|done].
  eapply heap_history_snoc; [done|]. split_and!; [done| |].
  - intros ->. injection Hr as <- <-. done.
  - intros k Hk. destruct (agrees_pointer _ _ _ _ _ _ Hag Hk) as (x & L' & HL & <-).
    destruct (sl_live _ _ _ (sl_perm _ _ _ _ HL (ag_valid _ _ _ _ Hag))) as (L0 & E & Hlive).
    pose proof (get_alloc_size_live _ _ _ _ Hlive) as Hs. simpl in Hs. rewrite Hr in Hs. by injection Hs as -> _.
Qed.

Lemma store_ok n tr c a v m' :
  process_ok n tr c -> permitted n tr (CallStore a v) ->
  store8 (md_mem (pr_state c)) a v = Some m' ->
  process_ok n (tr ++ [(CallStore a v, 0)])
    {| pr_state := md_set m' (pr_state c); pr_threads := pr_threads c |}.
Proof.
  intros (Hn & vs & L & h & Hh & Hag) Hp Hst. pose proof (Hp h Hh) as Hown.
  destruct (agrees_owned _ _ _ _ _ Hag Hown) as (x & Hx & Hi & _). pose proof Hag as [].
  split; [done|]. exists vs, L, {| h_live := h_live h; h_known := <[a := v mod 256]> (h_known h) |}.
  split; [by eapply heap_history_snoc|]. constructor; simpl; try done.
  - eapply sl_write; [done|done|by eapply store8_changes|].
    unfold sub_ext, in_ext in *. simpl in *. lia.
  - intros b w Hw. rewrite sl_mem_set, (load8_store8 _ _ _ _ _ Hst).
    destruct (decide (b = a)) as [->|Hne].
    + rewrite lookup_insert_eq in Hw. by simplify_eq.
    + rewrite lookup_insert_ne in Hw by done. by apply ag_known0.
Qed.

Lemma load_ok n tr c a v :
  process_ok n tr c -> permitted n tr (CallLoad a) -> load8 (md_mem (pr_state c)) a = Some v ->
  process_ok n (tr ++ [(CallLoad a, v)]) c.
Proof.
  intros (Hn & vs & L & h & Hh & Hag) Hp Hld. split; [done|]. exists vs, L, h. split; [|done].
  eapply heap_history_snoc; [done|]. split_and!; [done|by eapply load8_byte..|].
  intros w Hw. destruct (ag_known _ _ _ _ Hag a w Hw). congruence.
Qed.

Lemma process_new_ok m n : process_ok n [] (process_new m n).
Proof.
  split; [apply length_replicate|]. exists (replicate n (sh_hold [] [])), [], heap_empty. split; [done|].
  constructor; try done; [apply sl_new|simpl; by rewrite !length_replicate|].
  intros t th v [-> _]%lookup_replicate [-> _]%lookup_replicate. done.
Qed.

(** Every execution keeps the invariant. *)
Lemma process_reach_ok m n tr c : process_reach exclusive m n tr c -> process_ok n tr c.
Proof.
  induction 1 as [|tr c o c' _ IH Hst]; [apply process_new_ok|].
  pose proof IH as [Hn _]. destruct Hst as [t size align Ht Hp|t ptr Ht Hp|t coin th th' o s' Ht Hex Hr|p r m' Hp Hm|a v m' Hp Hm|a v Hp Hl];
    simpl; rewrite ?app_nil_r; rewrite ?Hn in *.
  - by apply start_alloc_ok.
  - by apply start_free_ok.
  - destruct (thread_step_wp n tr c t th coin IH Ht Hex) as ([th1 o1] & s1 & Hr1 & Hok). rewrite Hr in Hr1. injection Hr1 as <- <- <-. exact Hok.
  - by eapply get_size_ok.
  - by apply store_ok.
  - by apply load_ok.
Qed.

(** ** What holds of every execution *)

Lemma process_refines m n tr c :
  process_reach exclusive m n tr c ->
  exists h, heap_history heap_empty tr h /\
    (forall a, owns h a -> is_Some (load8 (md_mem (pr_state c)) a)) /\
    (forall a w, h_known h !! a = Some w -> load8 (md_mem (pr_state c)) a = Some w).
Proof.
  intros (_ & vs & L & h & Hh & Hag)%process_reach_ok. exists h. split_and!; [done| |].
  - intros a Hown. by destruct (agrees_owned _ _ _ _ _ Hag Hown) as (_ & _ & _ & ?).
  - intros a w Hw. by destruct (ag_known _ _ _ _ Hag a w Hw).
Qed.

Lemma process_progress m n tr c :
  process_reach exclusive m n tr c ->
  (forall t th coin, pr_threads c !! t = Some th -> (entering th = true -> exclusive c t) ->
     exists r s', thread_step t coin th (pr_state c) = Ret (r, s')) /\
  ((exists t th, pr_threads c !! t = Some th /\ th_does th <> Idle) ->
   exists t th, pr_threads c !! t = Some th /\ th_does th <> Idle /\ (entering th = true -> exclusive c t)).
Proof.
  intros Hok%process_reach_ok. split.
  - intros t th coin Ht Hex. destruct (thread_step_wp n tr c t th coin Hok Ht Hex) as (r & s' & Hr & _). eauto.
  - intros (t & th & Ht & Hact). destruct Hok as (_ & vs & L & h & _ & Hag).
    destruct (decide (Exists (fun th => th_inside th = true) (pr_threads c))) as [Hin|Hout].
    + apply Exists_exists in Hin as (th' & [u Hu]%list_elem_of_lookup & Hi).
      exists u, th'. split; [done|]. destruct (agrees_view _ _ _ _ _ _ Hag Hu) as (v & Hv & Hvi & Hd).
      split; [intros He; rewrite He in Hd; destruct Hd; congruence|].
      intros _ u' th2 Hu' Hi'. destruct (agrees_view _ _ _ _ _ _ Hag Hu') as (v' & Hv' & Hvi' & _).
      eapply (sl_alone _ _ _ u' u v' v (ag_valid _ _ _ _ Hag)); [done|done|congruence|congruence].
    + exists t, th. split_and!; [done|done|]. intros _ u th' Hu Hi. destruct Hout.
      apply Exists_exists. exists th'. split; [by eapply list_elem_of_lookup_2|done].
Qed.

(** ** Running a thread alone *)

Definition thread_settles (th : thread St) : Prop :=
  match th_does th with
  | Idle => True
  | InAlloc _ _ p => settles p
  | InFree _ p => settles p
  end.

Lemma thread_step_settles t coin th r s s' :
  thread_settles th -> thread_step t coin th s = Ret (r, s') -> thread_settles r.1.
Proof.
  assert (Hp : forall {A} (p : prog St A) (f : bool * prog St A -> thread St),
    settles p -> (forall x, settles x.2 -> thread_settles (f x)) ->
    (x ← pstep coin (th_inside th) p; mret (f x, None)) s = Ret (r, s') -> thread_settles r.1).
  { intros A p f Hs Hf. unfold mbind, M_bind. destruct (pstep coin (th_inside th) p s) as [[x s1]| | |] eqn:Hx; try done.
    intros [= <- <-]. apply Hf. by eapply pstep_settles. }
  unfold thread_step. unfold thread_settles at 1. destruct (th_does th) as [|size align p|ptr p] eqn:Hd.
  - intros _ [= <- <-]. unfold thread_settles. simpl. by rewrite Hd.
  - intros Hs. destruct p; try (by apply Hp). by intros [= <- <-].
  - intros Hs. destruct p; try (by apply Hp). by intros [= <- <-].
Qed.

Lemma process_reach_settles pol m n tr c :
  process_reach pol m n tr c -> Forall thread_settles (pr_threads c).
Proof.
  induction 1 as [|tr c o c' _ IH Hst]; [by apply Forall_replicate|].
  destruct Hst as [t size align Ht Hp|t ptr Ht Hp|t coin th th' o s' Ht Hex Hr|p r m' Hp Hm|a v m' Hp Hm|a v Hp Hl]; simpl; try done.
  - apply Forall_insert; [done|]. apply sc_alloc_settles.
  - apply Forall_insert; [done|]. apply sc_dealloc_settles.
  - apply Forall_insert; [done|]. apply (thread_step_settles t coin th (th', o) (pr_state c) s'); [|done].
    by eapply Forall_lookup_1.
Qed.

Lemma exclusive_no_other t (c : process St) : exclusive c t -> no_other_inside t (pr_threads c) = true.
Proof.
  unfold exclusive. generalize (pr_threads c). intros l. revert t.
  induction l as [|th l IH]; intros t H; [by destruct t|]. destruct t as [|t]; simpl.
  - apply forallb_forall. intros th' [u Hu]%list_elem_of_In%list_elem_of_lookup.
    destruct (th_inside th') eqn:Hi; [|done]. by specialize (H (S u) th' Hu Hi).
  - apply andb_true_iff. split.
    + destruct (th_inside th) eqn:Hi; [|done]. by specialize (H 0%nat th eq_refl Hi).
    + apply IH. intros u th' Hu Hi. by injection (H (S u) th' Hu Hi).
Qed.

Lemma exclusive_put t th s (c : process St) : exclusive c t -> exclusive (put_thread t th s c) t.
Proof.
  intros H u th' [(<- & _)|[_ Hu]]%list_lookup_insert_Some Hi; [done|]. by eapply H.
Qed.

Lemma put_put_thread t th th' s s' (c : process St) : put_thread t th' s' (put_thread t th s c) = put_thread t th' s' c.
Proof. unfold put_thread. simpl. by rewrite list_insert_insert_eq. Qed.

(** Steps of a program are steps of the thread that runs it, up to the end of the call. *)
Lemma run_solo {A} t (f : bool * prog St A -> thread St) (ev : A -> option history_event) :
  (forall i a, thread_step t false (f (i, Done a)) = mret (idle, ev a)) ->
  (forall i p, (forall a, p <> Done a) ->
     thread_step t false (f (i, p)) = (x ← pstep false i p; mret (f x, None))) ->
  forall x y, rtc (solo_pstep (S := St) (A := A)) x y -> forall a c,
  y.1.2 = Done a -> exclusive c t -> pr_threads c !! t = Some (f x.1) -> pr_state c = x.2 ->
  exists k, run_schedule (replicate k (t, false)) c = Some (option_list (ev a), put_thread t idle y.2 c).
Proof.
  intros Hdone Hstep x y. induction 1 as [[[i p] s]|[[i p] s] [[i' p'] s'] z Hs _ IH]; intros a c Ha Hex Ht Hc;
    simpl in *.
  - subst p s. exists 1%nat. simpl. rewrite Ht. simpl. rewrite (exclusive_no_other _ _ Hex), andb_false_r, Hdone.
    simpl. by rewrite app_nil_r.
  - assert (Hd : (exists a, p = Done a) \/ forall a, p <> Done a) by (destruct p; eauto).
    destruct Hd as [[a' ->]|Hd]; [injection Hs as <- <- <-; eauto|].
    destruct (IH a (put_thread t (f (i', p')) s' c)) as [k Hk];
      [done|by apply exclusive_put|apply list_lookup_insert_eq; by eapply lookup_lt_Some|done|].
    exists (S k). simpl. rewrite Ht. simpl. rewrite (exclusive_no_other _ _ Hex), andb_false_r, (Hstep i p Hd).
    unfold solo_pstep in Hs. simpl in Hs. unfold mbind, M_bind. rewrite Hc, Hs. simpl. rewrite Hk.
    simpl. by rewrite put_put_thread.
Qed.

Lemma process_completes m n tr c t th :
  process_reach exclusive m n tr c -> pr_threads c !! t = Some th -> exclusive c t ->
  exists k tr' c', run_schedule (replicate k (t, false)) c = Some (tr', c') /\
    pr_threads c' !! t = Some idle /\
    match th_does th with
    | InAlloc size align _ => exists p, tr' = [(CallAlloc t size align, p)]
    | _ => tr' = []
    end.
Proof.
  intros Hr Ht Hex. pose proof (Forall_lookup_1 _ _ _ _ (process_reach_settles _ _ _ _ _ Hr) Ht) as Hset.
  destruct (process_reach_ok _ _ _ _ Hr) as (_ & vs & L & h & _ & Hag).
  destruct (agrees_view _ _ _ _ _ _ Hag Ht) as (v & Hv & Hin & Hok).
  pose proof (agrees_alone _ _ _ _ _ Hag Hex) as Hal. pose proof (ag_valid _ _ _ _ Hag) as Hval.
  assert (Hlast : forall s', pr_threads (put_thread t idle s' c) !! t = Some idle)
    by (intros s'; apply list_lookup_insert_eq; by eapply lookup_lt_Some).
  unfold thread_settles in Hset. destruct th as [d i]. simpl in *. destruct d as [|size align p|ptr p].
  - exists 0%nat, [], c. destruct Hok as [_ ->]. done.
  - destruct Hok as (_ & P & HP & Hs).
    destruct (ok_settles _ _ _ keeps_refl t _ p P _ _ _ _ _ Hset Hs Hval Hv HP Hal) as (a & s' & v' & Hrun & _).
    rewrite Hin in Hrun.
    destruct (run_solo t (fun x => {| th_does := InAlloc size align x.2; th_inside := x.1 |})
      (fun a => Some (CallAlloc t size align, a)) (fun i a => eq_refl)) with (2 := Hrun) (a := a) (c := c)
      as [k Hk]; [intros ? [] Hd; first [done|by edestruct Hd]|done|done|done|done|]. exists k. eexists _, _. eauto.
  - destruct Hok as (P & HP & Hs).
    destruct (ok_settles _ _ _ keeps_refl t _ p P _ _ _ _ _ Hset Hs Hval Hv HP Hal) as (a & s' & v' & Hrun & _).
    rewrite Hin in Hrun.
    destruct (run_solo t (fun x => {| th_does := InFree ptr x.2; th_inside := x.1 |})
      (fun a => None) (fun i a => eq_refl)) with (2 := Hrun) (a := a) (c := c)
      as [k Hk]; [intros ? [] Hd; first [done|by edestruct Hd]|done|done|done|done|]. exists k. eexists _, _. eauto.
Qed.
End processes.
