(* ===== verification/Threads.v ===== *)
(** * The calls of the global allocator, access by access

    [alloc] and [dealloc] of the magazine-caching mode (aethalloc-abi/src/global.rs)
    with the stacks and the node allocator of aethalloc-core/src/magazine.rs, as
    programs of Interleave: every load, store and compare-exchange of a shared atomic
    or of a [next] field, every system call and every piece of work on memory of the
    calling thread is an action of its own.  At the end, the link with Global: a program
    run by one thread alone is the call of Global. *)

From S2P Require Import Prelude SizeClass Memory Extents AllocSpec Page Magazine Metadata Metrics.
From S2P Require Import Headers AllocCore Global Interleave Process.

(** ** The stacks of the pools *)

Definition load_full (class : Z) : M state Z := on_pool class (gets (fun x => full_head x.2)).

Definition load_empty (class : Z) : M state Z := on_pool class (gets (fun x => empty_head x.2)).

(** [Err] carries the head that was found. *)
Definition cas_full (class current new : Z) (spurious : bool) : M state (Z + unit) :=
  on_pool class (
    found ← gets (fun x => full_head x.2);
    if negb spurious && (found =? current)
    then modifyS (fun x => (x.1, {| full_head := new; empty_head := empty_head x.2 |})) ;; mret (inr tt)
    else mret (inl found)).

Definition cas_empty (class current new : Z) (spurious : bool) : M state (Z + unit) :=
  on_pool class (
    found ← gets (fun x => empty_head x.2);
    if negb spurious && (found =? current)
    then modifyS (fun x => (x.1, {| full_head := full_head x.2; empty_head := new |})) ;; mret (inr tt)
    else mret (inl found)).

(** The [next] field of a node. *)
Definition read_next (node : Z) : M pool_store Z :=
  s ← getS; nd ← or_fault (s.1 !! node); mret (node_next nd).

Definition push_full_prog (class node : Z) : prog state unit :=
  current ← atomic (load_full class);
  Loop (fun current =>
    atomic (on_pool class (set_node_next node current)) ;;
    weak (cas_full class current node)) current Done.

Definition push_empty_prog (class node : Z) : prog state unit :=
  current ← atomic (load_empty class);
  Loop (fun current =>
    atomic (on_pool class (set_node_next node current)) ;;
    weak (cas_empty class current node)) current Done.

Definition pop_full_prog (class : Z) : prog state (option Z) :=
  current ← atomic (load_full class);
  Loop (fun current =>
    if current =? 0 then mret (inr None)
    else
      next ← atomic (on_pool class (read_next current));
      r ← weak (cas_full class current next);
      mret (match r with inl c => inl c | inr _ => inr (Some current) end)) current Done.

(** ** The node allocator *)

Definition set_offset (offset : Z) (s : state) : state :=
  set_meta (st_mem s, {| ma_current_page := ma_current_page (st_meta s); ma_offset := offset |}) s.

Definition set_current_page (page : Z) (s : state) : state :=
  set_meta (st_mem s, {| ma_current_page := page; ma_offset := ma_offset (st_meta s) |}) s.

Definition cas_offset (expected new : Z) (spurious : bool) : M state bool :=
  found ← gets (fun s => ma_offset (st_meta s));
  if negb spurious && (found =? expected) then modifyS (set_offset new) ;; mret true
  else mret false.

Definition cas_page (expected new : Z) (spurious : bool) : M state bool :=
  found ← gets (fun s => ma_current_page (st_meta s));
  if negb spurious && (found =? expected) then modifyS (set_current_page new) ;; mret true
  else mret false.

Section programs.
Context `{K : Kernel}.

(** The [loop] of [alloc_node]; [inl] is [continue]. *)
Definition alloc_node_round : prog state (unit + Z) :=
  offset ← atomic (gets (fun s => ma_offset (st_meta s)));
  let aligned := node_aligned offset in
  if aligned +! NODE_SIZE <=? PAGE_SIZE then
    r ← weak (cas_offset offset (aligned +! NODE_SIZE));
    if (r : bool) then
      page ← atomic (gets (fun s => ma_current_page (st_meta s)));
      mret (inr (page + aligned))
    else mret (inl tt)
  else
    new_page ← atomic (md_on_mem alloc_metadata_page);
    if new_page =? 0 then mret (inr 0)
    else
      current ← atomic (gets (fun s => ma_current_page (st_meta s)));
      r ← weak (cas_page current new_page);
      if (r : bool) then
        atomic (modifyS (set_offset NODE_SIZE)) ;;
        mret (inr new_page)
      else
        atomic (md_on_mem (dealloc_metadata_page new_page)) ;;
        mret (inl tt).

Definition alloc_node_prog : prog state Z :=
  Enter (Loop (fun _ => alloc_node_round) tt (fun node => Leave (mret node))).

(** ** [alloc] *)

Definition exchange_node_prog (t : nat) (class node : Z) : prog state unit :=
  atomic (swap_node t class node) ;; push_empty_prog class node.

Definition take_cached_prog (t : nat) (class : Z) : prog state (option Z) :=
  r ← atomic (on_alloc_mag t class Magazine_pop);
  match r with
  | Some block => mret (Some block)
  | None =>
      f ← atomic (on_free_mag t class getS);
      r ← (if Magazine_is_empty f then mret None
           else atomic (swap_mags t class) ;; atomic (on_alloc_mag t class Magazine_pop));
      match r with
      | Some block => mret (Some block)
      | None =>
          o ← pop_full_prog class;
          match o with
          | None => mret None
          | Some node =>
              exchange_node_prog t class node ;;
              atomic (on_alloc_mag t class Magazine_pop)
          end
      end
  end.

Definition alloc_miss_prog (t : nat) (class size cache_size : Z) : prog state Z :=
  count_prog t EvMiss ;;
  let block_size := cache_size +! CACHE_HEADER_SIZE in
  let blocks_per_page := PAGE_SIZE / block_size in
  if 1 <? blocks_per_page then
    r ← atomic (md_on_mem (PageAllocator_alloc 1));
    match r with
    | Some base =>
        let remaining := saturating_sub blocks_per_page 1 in
        (if 0 <? remaining
         then atomic (on_alloc_mag t class (Magazine_bulk_init (base + block_size) block_size remaining))
         else mret tt) ;;
        miss_block_prog t base size
    | None => alloc_own_pages_prog t size block_size
    end
  else alloc_own_pages_prog t size block_size.

Definition alloc_prog (t : nat) (size align : Z) : prog state Z :=
  if size =? 0 then mret 0
  else if (size <=? MAX_CACHE_SIZE) && (align <=? 8) then
    let cache_size := Z.max (round_up_pow2 size) 16 in
    match size_to_class cache_size with
    | Some class =>
        r ← take_cached_prog t class;
        match r with
        | Some block => cache_hit_prog t block size
        | None => alloc_miss_prog t class size cache_size
        end
    | None => alloc_large_prog t size align
    end
  else alloc_large_prog t size align.

(** ** [dealloc] *)

Definition retire_free_mag_prog (t : nat) (class : Z) : prog state unit :=
  node ← alloc_node_prog;
  if node =? 0 then mret tt
  else atomic (fill_node t class node) ;; push_full_prog class node.

Definition dealloc_cached_prog (t : nat) (class block : Z) : prog state unit :=
  pushed ← atomic (on_free_mag t class (Magazine_push block));
  if (pushed : bool) then record_prog t EvFree
  else
    retire_free_mag_prog t class ;;
    atomic (on_free_mag t class (Magazine_push block)) ;;
    record_prog t EvFree.

Definition dealloc_prog (t : nat) (ptr : Z) : prog state unit :=
  if ptr =? 0 then mret tt
  else
    r ← atomic (md_on_mem (find_alloc ptr));
    match r with
    | FLarge base h | FPage base h => dealloc_pages_prog t base h
    | FSmall size_ptr maybe_size =>
        match size_to_class (Z.max (round_up_pow2 maybe_size) 16) with
        | Some class => dealloc_cached_prog t class size_ptr
        | None => dealloc_by_page_prog t ptr
        end
    end.
End programs.

(** The magazine-caching mode as programs. *)
#[global] Instance state_progs `{K : Kernel} : ModeProgs state := {|
  mp_new := state_new;
  mp_alloc := alloc_prog;
  mp_dealloc := dealloc_prog
|}.

(** ** A program run alone is the call *)

Lemma get_put_pool class x y s : get_pool class s = Some x -> get_pool class (put_pool class y s) = Some y.
Proof.
  unfold get_pool, put_pool. simpl. destruct (arr_get (st_pools s) class) as [p|] eqn:Hp; [|done].
  intros _. apply arr_get_lookup in Hp as [Hc Hp]. simpl.
  assert (Hg : arr_get (<[Z.to_nat class := y.2]> (st_pools s)) class = Some y.2).
  { apply arr_get_lookup. split; [done|]. apply list_lookup_insert_eq. by eapply lookup_lt_Some. }
  rewrite Hg. by destruct y.
Qed.

Lemma put_put_pool class x y s : put_pool class y (put_pool class x s) = put_pool class y s.
Proof. unfold put_pool. simpl. by rewrite list_insert_insert_eq. Qed.

(** Running code of a pool step by step, from a pool whose contents are known. *)
Lemma on_pool_run {A} class (m : M pool_store A) s x :
  get_pool class s = Some x ->
  on_pool class m s = match m x with
                      | Ret (a, y) => Ret (a, put_pool class y s)
                      | Panic => Panic | Fault => Fault | Diverge => Diverge
                      end.
Proof. intros Hx. unfold on_pool, zoom. by rewrite Hx. Qed.

Lemma on_pool_none {A} class (m : M pool_store A) s : get_pool class s = None -> on_pool class m s = Panic.
Proof. intros Hx. unfold on_pool, zoom. by rewrite Hx. Qed.

Ltac run_pool Hx :=
  repeat (progress (rewrite ?(on_pool_run _ _ _ _ (get_put_pool _ _ _ _ Hx)), ?(on_pool_run _ _ _ _ Hx),
                            ?put_put_pool, ?Z.eqb_refl; cbn)).

Lemma solo_push_full class node :
  same_runs (solo (push_full_prog class node)) (on_pool class (push_full node)).
Proof.
  intros s. unfold push_full_prog, weak, atomic, load_full, cas_full, push_full, set_node_next.
  cbn. unfold mbind, M_bind.
  destruct (get_pool class s) as [[nodes p]|] eqn:Hx; [|by rewrite !on_pool_none].
  run_pool Hx. destruct (nodes !! node) as [nd|] eqn:Hn; cbn; [|done]. by run_pool Hx.
Qed.

Lemma solo_push_empty class node :
  same_runs (solo (push_empty_prog class node)) (on_pool class (push_empty node)).
Proof.
  intros s. unfold push_empty_prog, weak, atomic, load_empty, cas_empty, push_empty, set_node_next.
  cbn. unfold mbind, M_bind.
  destruct (get_pool class s) as [[nodes p]|] eqn:Hx; [|by rewrite !on_pool_none].
  run_pool Hx. destruct (nodes !! node) as [nd|] eqn:Hn; cbn; [|done]. by run_pool Hx.
Qed.

Lemma solo_pop_full class : same_runs (solo (pop_full_prog class)) (on_pool class pop_full).
Proof.
  intros s. unfold pop_full_prog, weak, atomic, load_full, cas_full, pop_full, read_next.
  cbn. unfold mbind, M_bind.
  destruct (get_pool class s) as [[nodes p]|] eqn:Hx; [|by rewrite !on_pool_none].
  run_pool Hx. destruct (Z.eqb_spec (full_head p) 0) as [H0|H0]; cbn; [done|].
  unfold mbind, M_bind. run_pool Hx. destruct (nodes !! full_head p) as [nd|] eqn:Hn; cbn; [|done]. by run_pool Hx.
Qed.

Lemma get_put_metrics t x y s : get_metrics t s = Some x -> get_metrics t (put_metrics t y s) = Some y.
Proof.
  unfold get_metrics, put_metrics. destruct (st_caches s !! t) as [c|] eqn:Hc; [|done].
  intros _. cbn [st_caches]. rewrite list_lookup_insert_eq by (by eapply lookup_lt_Some). by destruct y.
Qed.

Lemma put_put_metrics t x y s : put_metrics t y (put_metrics t x s) = put_metrics t y s.
Proof.
  unfold put_metrics. destruct (st_caches s !! t) as [c|] eqn:Hc; cbn [st_caches]; [|by rewrite Hc].
  rewrite list_lookup_insert_eq by (by eapply lookup_lt_Some). cbn. by rewrite list_insert_insert_eq.
Qed.

Lemma put_get_metrics t x s : get_metrics t s = Some x -> put_metrics t x s = s.
Proof.
  unfold get_metrics, put_metrics. destruct (st_caches s !! t) as [c|] eqn:Hc; [|done]. cbn. intros [= <-].
  cbn. rewrite list_insert_id by (rewrite Hc; by destruct c). by destruct s.
Qed.

#[global] Instance state_lens : ModeLens state.
Proof.
  refine {| ln_get := get_metrics; ln_put := put_metrics |}; try done.
  - apply get_put_metrics.
  - intros t x y s. apply put_put_metrics.
  - apply put_get_metrics.
  - by intros [].
Defined.

Section solo.
Context `{K : Kernel}.

Lemma solo_alloc_node :
  same_runs (solo alloc_node_prog)
    (zoom (fun s => Some (st_mem s, st_meta s)) set_meta MetadataAllocator_alloc_node).
Proof.
  intros s. unfold alloc_node_prog, alloc_node_round, weak, atomic, MetadataAllocator_alloc_node.
  unfold zoom, md_on_mem. cbn. destruct s as [m nodes pools [page offset] gm caches]. cbn.
  destruct (node_aligned offset +! NODE_SIZE <=? PAGE_SIZE) eqn:Hfit; cbn.
  - unfold cas_offset. run_m. cbn. rewrite Hfit. cbn. run_m. cbn. by rewrite Z.eqb_refl.
  - run_m. cbn. rewrite Hfit. cbn. unfold zoom, alloc_metadata_page, mbind, M_bind. cbn.
    destruct (kernel_mmap m PAGE_SIZE) as [[p m']|]; [|done]. cbn.
    destruct (Z.eqb_spec p 0); [done|]. cbn. unfold cas_page. run_m. cbn. by rewrite Z.eqb_refl.
Qed.

Lemma solo_take_cached t class : same_runs (solo (take_cached_prog t class)) (take_cached t class).
Proof.
  pose proof (solo_pop_full class). pose proof (solo_push_empty class).
  unfold take_cached_prog, take_cached, exchange_node_prog, exchange_node. solo_parts. auto.
Qed.

Lemma solo_alloc_miss t class size cache_size :
  same_runs (solo (alloc_miss_prog t class size cache_size)) (alloc_miss t class size cache_size).
Proof.
  pose proof (solo_own_pages (St := state) t).
  unfold alloc_miss_prog, alloc_miss, miss_block_prog, miss_block. solo_parts; auto.
Qed.

(** [alloc] run alone is the [alloc] of Global. *)
Lemma solo_alloc t size align :
  same_runs (solo (alloc_prog t size align)) (AethAlloc_alloc t size align).
Proof.
  pose proof (solo_cache_hit (St := state) t). pose proof (solo_take_cached t). pose proof (solo_alloc_miss t).
  unfold alloc_prog, AethAlloc_alloc. solo_parts; auto.
Qed.

Lemma solo_dealloc_cached t class block :
  same_runs (solo (dealloc_cached_prog t class block)) (dealloc_cached t class block).
Proof.
  pose proof solo_alloc_node. pose proof (solo_push_full class). pose proof (solo_record (St := state) t EvFree).
  unfold dealloc_cached_prog, dealloc_cached, retire_free_mag_prog, retire_free_mag. solo_parts; auto.
Qed.

(** [dealloc] run alone is the [dealloc] of Global. *)
Lemma solo_dealloc t ptr : same_runs (solo (dealloc_prog t ptr)) (AethAlloc_dealloc t ptr).
Proof.
  pose proof (solo_dealloc_cached t). pose proof (solo_dealloc_pages (St := state) t).
  pose proof (solo_dealloc_by_page (St := state) t). unfold dealloc_prog, AethAlloc_dealloc. solo_parts; auto.
Qed.
End solo.
