(* ===== verification/ThreadViews.v ===== *)
(** * What the threads inside calls own

    The invariant of a process whose threads are inside [alloc] and [dealloc].  A thread
    has a view: the extents and the pool node it holds between two actions, the
    allocation it has finished or begun to free, and what it knows of the stack it pops
    from and of the node allocator.  The views, the caches, the pools, the rest of the
    metadata page and the live allocations are one arena; the nodes that were ever on a
    full stack never return to one, which is why the pops are safe.

    An action of a thread is verified against [local], what the invariant says from the
    thread's point of view, and a [guarantee] to the other threads. *)

From S2P Require Import Prelude SizeClass Memory Extents AllocSpec Page Magazine Treiber Metadata.
From S2P Require Import Metrics Headers AllocCore Global GlobalInv Interleave Process Sharing Threads.

(** ** Views *)

Record view : Type := {
  (** memory held in the middle of a call *)
  v_exts : list (Z * Z);
  (** an allocation about to be returned, or just passed to [dealloc] *)
  v_pend : list (Z * alloc_kind);
  (** a node out of the pools, and whether it was never on a full stack *)
  v_node : option (Z * MagazineNode * bool);
  (** inside [pop_full]: the head that was loaded, its [next] once that is read *)
  v_pop : option (Z * option Z);
  (** inside [alloc_node]: the allocator's two fields *)
  v_meta : option MetadataAllocator
}.

(** A thread that holds the extents [F] and the allocations [Pd] and nothing else. *)
Definition hold (F : list (Z * Z)) (Pd : list (Z * alloc_kind)) : view :=
  {| v_exts := F; v_pend := Pd; v_node := None; v_pop := None; v_meta := None |}.

(** A thread that holds the extents [F] and nothing else. *)
Definition own (F : list (Z * Z)) : view :=
  {| v_exts := F; v_pend := []; v_node := None; v_pop := None; v_meta := None |}.

(** A thread that holds the allocation [x]. *)
Definition pending (x : Z * alloc_kind) : view :=
  {| v_exts := []; v_pend := [x]; v_node := None; v_pop := None; v_meta := None |}.

Definition own_node (F : list (Z * Z)) (n : Z) (nd : MagazineNode) (fresh : bool) : view :=
  {| v_exts := F; v_pend := []; v_node := Some (n, nd, fresh); v_pop := None; v_meta := None |}.

Definition popping (current : Z) (next : option Z) : view :=
  {| v_exts := []; v_pend := []; v_node := None; v_pop := Some (current, next); v_meta := None |}.

Definition in_section (F : list (Z * Z)) (ma : MetadataAllocator) : view :=
  {| v_exts := F; v_pend := []; v_node := None; v_pop := None; v_meta := Some ma |}.

Definition node_of (v : view) : list Z :=
  match v_node v with Some (n, _, _) => [n] | None => [] end.

Definition view_exts (v : view) : list (Z * Z) :=
  v_exts v ++ ((fun n => (n, NODE_SIZE)) <$> node_of v).

Definition view_inside (v : view) : bool := match v_meta v with Some _ => true | None => false end.

(** ** The invariant *)

(** The nodes on the stacks, and those that were ever on a full stack. *)
Record ghost : Type := {
  g_fulls : list (list Z);
  g_empties : list (list Z);
  g_seen : list Z
}.

Definition stack_nodes (g : ghost) : list Z := concat (g_fulls g) ++ concat (g_empties g).

(** What the allocator keeps. *)
Definition kept_exts (s : state) (g : ghost) : list (Z * Z) :=
  meta_rest (st_meta s) :: concat (cache_exts <$> st_mags s) ++
  stack_exts (st_nodes s) (g_fulls g) (g_empties g).

Record view_ok (s : state) (g : ghost) (v : view) : Prop := {
  vo_node n nd fresh : v_node v = Some (n, nd, fresh) ->
    n <> 0 /\ st_nodes s !! n = Some nd /\ Magazine_wf (node_magazine nd) /\
    (fresh = true -> n ∉ g_seen g);
  vo_pop current next : v_pop v = Some (current, next) ->
    current <> 0 /\ current ∈ g_seen g /\
    forall nx, next = Some nx -> current ∈ concat (g_fulls g) -> next_of (st_nodes s) !! current = Some nx;
  vo_meta ma : v_meta v = Some ma -> st_meta s = ma
}.

(** The invariant seen by a thread with the view [v], beside the allocations [Lr], the
    extents [Hr] and the nodes [Nr] of the others. *)
Record local (s : state) (v : view) (g : ghost) (Lr : list (Z * alloc_kind)) (Hr : list (Z * Z))
    (Nr : list Z) : Prop := {
  lo_meta : meta_wf (st_meta s);
  lo_mags : Forall (fun c => mags_wf c.1 /\ mags_wf c.2) (st_mags s);
  lo_stacks : linked_stacks (st_nodes s) (st_pools s) (g_fulls g) (g_empties g);
  lo_live : Live (st_mem s) (Lr ++ v_pend v) (Hr ++ view_exts v ++ kept_exts s g);
  lo_seen n : n ∈ concat (g_fulls g) -> n ∈ g_seen g;
  lo_nodes n : n ∈ g_seen g -> is_Some (st_nodes s !! n);
  lo_known n : is_Some (st_nodes s !! n) -> n ∈ stack_nodes g ++ node_of v ++ Nr;
  lo_others n : n ∈ Nr -> (n, NODE_SIZE) ∈ Hr;
  lo_view : view_ok s g v
}.

(** What an action of a thread with the view [v] may change for the others. *)
Record guarantee (s : state) (g : ghost) (v : view) (s' : state) (g' : ghost) (v' : view) : Prop := {
  gu_threads : length (st_caches s') = length (st_caches s);
  gu_nodes n : n ∉ node_of v -> is_Some (st_nodes s !! n) -> st_nodes s' !! n = st_nodes s !! n;
  gu_seen n : n ∈ g_seen g -> n ∈ g_seen g';
  gu_new n : n ∈ g_seen g' -> n ∈ g_seen g \/ n ∈ node_of v;
  gu_full n : n ∈ g_seen g -> n ∈ concat (g_fulls g') -> n ∈ concat (g_fulls g);
  gu_meta : st_meta s' = st_meta s \/ view_inside v = true;
  gu_inside : view_inside v' = view_inside v
}.

(** The invariant of all threads, for the live allocations [L]. *)
Record sys (s : state) (vs : list view) (L : list (Z * alloc_kind)) (g : ghost) : Prop := {
  sy_threads : length vs = length (st_caches s);
  sy_meta : meta_wf (st_meta s);
  sy_mags : Forall (fun c => mags_wf c.1 /\ mags_wf c.2) (st_mags s);
  sy_stacks : linked_stacks (st_nodes s) (st_pools s) (g_fulls g) (g_empties g);
  sy_live : Live (st_mem s) (L ++ concat (v_pend <$> vs))
              (concat (view_exts <$> vs) ++ kept_exts s g);
  sy_seen n : n ∈ concat (g_fulls g) -> n ∈ g_seen g;
  sy_nodes n : n ∈ g_seen g -> is_Some (st_nodes s !! n);
  sy_known n : is_Some (st_nodes s !! n) -> n ∈ stack_nodes g ++ concat (node_of <$> vs);
  sy_views t v : vs !! t = Some v -> view_ok s g v;
  sy_alone t t' v v' : vs !! t = Some v -> vs !! t' = Some v' ->
    view_inside v = true -> view_inside v' = true -> t = t'
}.

Definition valid (s : state) (vs : list view) (L : list (Z * alloc_kind)) : Prop :=
  exists g, sys s vs L g.

#[global] Instance state_sharing : Sharing state view := {|
  sh_hold := hold;
  sh_inside := view_inside;
  sh_valid := valid
|}.

(** ** Nodes are in one place *)

(** An extent is not twice in an arena. *)
Lemma arena_once m e l : 0 < e.2 -> arena m (e :: l) -> e ∉ l.
Proof.
  intros He Har Hin. apply (arena_disj _ _ _ _ Har Hin) with e.1; unfold in_ext; lia.
Qed.

Lemma node_view_ext v n : n ∈ node_of v -> (n, NODE_SIZE) ∈ view_exts v.
Proof. intros Hn. apply elem_of_app. right. apply list_elem_of_fmap. eauto. Qed.

Lemma node_views_ext vs n : n ∈ concat (node_of <$> vs) -> (n, NODE_SIZE) ∈ concat (view_exts <$> vs).
Proof.
  induction vs as [|v vs IH]; simpl; [by intros ?%elem_of_nil|].
  rewrite !elem_of_app. intros [Hn|Hn]; [left; by apply node_view_ext|right; auto].
Qed.

Lemma node_stack_ext s g n : n ∈ stack_nodes g -> (n, NODE_SIZE) ∈ kept_exts s g.
Proof.
  intros Hn. apply elem_of_cons. right. apply elem_of_app. right. by apply stack_exts_node.
Qed.

Lemma NODE_SIZE_pos : 0 < NODE_SIZE.
Proof. done. Qed.

Lemma arena_parts m (A B : list (Z * Z)) e : 0 < e.2 -> arena m (A ++ B) -> e ∈ A -> e ∉ B.
Proof.
  intros He Har [A' HA]%elem_of_Permutation Hin. rewrite HA in Har.
  apply (arena_once _ _ _ He Har). apply elem_of_app. by right.
Qed.

Lemma local_node_stacks s v g Lr Hr Nr n :
  local s v g Lr Hr Nr -> n ∈ node_of v -> n ∉ stack_nodes g.
Proof.
  intros Hlo Hv Hs. destruct (lo_live _ _ _ _ _ _ Hlo) as [Har _].
  apply arena_drop, arena_drop in Har.
  by apply (arena_parts _ _ _ (n, NODE_SIZE) NODE_SIZE_pos Har (node_view_ext _ _ Hv)), node_stack_ext.
Qed.

(** ** Opening and closing the invariant at a thread *)

Section focus_thread.
Context (t : nat) (s : state) (vs : list view) (L : list (Z * alloc_kind)) (g : ghost).
Context (v : view) (Hsys : sys s vs L g) (Ht : vs !! t = Some v).

(** The node of another thread is neither this thread's nor on a stack. *)
Lemma sys_node_other t' w n : vs !! t' = Some w -> t' <> t -> n ∈ node_of w -> n ∉ node_of v.
Proof.
  intros Hw Hne Hn Hv. destruct (sy_live _ _ _ _ Hsys) as [Har _].
  apply arena_drop, arena_drop_r in Har.
  destruct (concat_fmap_focus view_exts vs t v Ht) as (R & HR & HR').
  rewrite HR in Har. apply (arena_parts _ _ _ (n, NODE_SIZE) NODE_SIZE_pos Har (node_view_ext _ _ Hv)).
  specialize (HR' (own [])). simpl in HR'. rewrite <- HR'.
  apply (elem_of_concat_lookup _ t' (view_exts w)); [|by apply node_view_ext].
  rewrite list_lookup_fmap, list_lookup_insert_ne by done. by rewrite Hw.
Qed.

Lemma sys_node_unstacked n : n ∈ node_of v -> n ∉ stack_nodes g.
Proof.
  intros Hv Hn. destruct (sy_live _ _ _ _ Hsys) as [Har _]. apply arena_drop in Har.
  destruct (concat_fmap_focus view_exts vs t v Ht) as (R & HR & _).
  apply (arena_parts _ _ _ (n, NODE_SIZE) NODE_SIZE_pos Har); [|by apply node_stack_ext].
  rewrite HR. apply elem_of_app. left. by apply node_view_ext.
Qed.

(** What another thread knows stays true. *)
Lemma view_ok_other t' w s' g' v' :
  guarantee s g v s' g' v' -> vs !! t' = Some w -> t' <> t -> view_ok s' g' w.
Proof.
  intros [] Hw Hne. destruct (sy_views _ _ _ _ Hsys _ _ Hw) as [Hnode Hpop Hmeta]. constructor.
  - intros n nd fresh Hn. destruct (Hnode n nd fresh Hn) as (H0 & Hlk & Hwf & Hf).
    assert (Hnv : n ∉ node_of v).
    { apply (sys_node_other t' w n Hw Hne). unfold node_of. rewrite Hn. by left. }
    split_and!; [done|by rewrite gu_nodes0|done|]. intros Hfr Hin. by destruct (gu_new0 n Hin); [apply Hf|].
  - intros cur nx Hp. destruct (Hpop cur nx Hp) as (H0 & Hin & Hk). split_and!; [done|auto|].
    intros nx' -> Hfull. pose proof (gu_full0 _ Hin Hfull) as Hf. unfold next_of.
    rewrite lookup_fmap, gu_nodes0; [|intros Hv|by apply (sy_nodes _ _ _ _ Hsys)].
    + rewrite <- lookup_fmap. by apply Hk.
    + apply (sys_node_unstacked _ Hv), elem_of_app. by left.
  - intros ma Hma. rewrite <- (Hmeta ma Hma). destruct gu_meta0 as [?|Hi]; [done|]. exfalso.
    apply Hne, (sy_alone _ _ _ _ Hsys t' t w v); try done. unfold view_inside. by rewrite Hma.
Qed.

(** A thread's action, from its point of view, is a step of the whole process. *)
Lemma sys_open :
  exists Pr Hr Nr, local s v g (L ++ Pr) Hr Nr /\
    forall s' v' g', local s' v' g' (L ++ Pr) Hr Nr -> guarantee s g v s' g' v' ->
      sys s' (<[t := v']> vs) L g'.
Proof.
  destruct (concat_fmap_focus v_pend vs t v Ht) as (Pr & HP & HP').
  destruct (concat_fmap_focus view_exts vs t v Ht) as (Hr & HH & HH').
  destruct (concat_fmap_focus node_of vs t v Ht) as (Nr & HN & HN').
  exists Pr, Hr, Nr. pose proof Hsys as []. split.
  - constructor; try done; [| | |by eapply sy_views0].
    + rewrite HP, HH in sy_live0.
      assert (H1 : L ++ v_pend v ++ Pr ≡ₚ (L ++ Pr) ++ v_pend v) by solve_Permutation.
      rewrite H1 in sy_live0.
      assert (H2 : (view_exts v ++ Hr) ++ kept_exts s g ≡ₚ Hr ++ view_exts v ++ kept_exts s g)
        by solve_Permutation.
      by rewrite H2 in sy_live0.
    + intros n Hn. specialize (sy_known0 n Hn). by rewrite HN in sy_known0.
    + intros n. specialize (HH' (own [])). specialize (HN' (own [])). simpl in HH', HN'.
      rewrite <- HH', <- HN'. apply node_views_ext.
  - intros s' v' g' [] Hgu. pose proof Hgu as []. constructor; try done.
    + rewrite length_insert. congruence.
    + rewrite HP', HH'.
      assert (H1 : L ++ v_pend v' ++ Pr ≡ₚ (L ++ Pr) ++ v_pend v') by solve_Permutation.
      rewrite H1.
      assert (H2 : (view_exts v' ++ Hr) ++ kept_exts s' g' ≡ₚ Hr ++ view_exts v' ++ kept_exts s' g')
        by solve_Permutation.
      by rewrite H2.
    + intros n Hn. rewrite HN'. by apply lo_known0.
    + intros t' w [(<- & <- & _)|[Hne Hw]]%list_lookup_insert_Some; [done|].
      by apply (view_ok_other t' w s' g' v').
    + intros t1 t2 v1 v2 H1 H2 I1 I2.
      assert (Hold : forall u w, <[t := v']> vs !! u = Some w -> view_inside w = true ->
        exists w', vs !! u = Some w' /\ view_inside w' = true).
      { intros u w [(<- & <- & _)|[_ Hw]]%list_lookup_insert_Some Hi; [|eauto].
        exists v. split; [done|]. congruence. }
      destruct (Hold _ _ H1 I1) as (w1 & ? & ?). destruct (Hold _ _ H2 I2) as (w2 & ? & ?). eauto.
Qed.

(** The thread's view changes between two actions, and with it what counts as live. *)
Lemma sys_move v' L' X :
  v_node v' = v_node v -> view_ok s g v' ->
  (view_inside v' = true -> alone view_inside t vs) ->
  L' ++ v_pend v' ⊆ L ++ v_pend v ->
  (live_ext <$> L ++ v_pend v) ++ v_exts v ≡ₚ X ++ (live_ext <$> L' ++ v_pend v') ++ v_exts v' ->
  sys s (<[t := v']> vs) L' g.
Proof.
  intros Hnode Hok Hin Hsub Hx.
  destruct (concat_fmap_focus v_pend vs t v Ht) as (Pr & HP & HP').
  destruct (concat_fmap_focus view_exts vs t v Ht) as (Hr & HH & HH').
  assert (HN : node_of v' = node_of v) by (unfold node_of; by rewrite Hnode).
  assert (HNs : node_of <$> <[t := v']> vs = node_of <$> vs).
  { rewrite list_fmap_insert. apply list_insert_id. by rewrite list_lookup_fmap, Ht, HN. }
  pose proof Hsys as []. constructor; rewrite ?length_insert, ?HNs; try done.
  - rewrite HP, HH in sy_live0. rewrite HP', HH'. destruct sy_live0 as [Har Hl]. split.
    + apply (arena_drop _ X). eapply arena_perm; [|exact Har]. unfold view_exts. rewrite HN.
      set (NS := (fun n => (n, NODE_SIZE)) <$> node_of v).
      transitivity ((X ++ (live_ext <$> L' ++ v_pend v') ++ v_exts v') ++
        (live_ext <$> Pr) ++ NS ++ Hr ++ kept_exts s g); [rewrite !fmap_app; solve_Permutation|].
      rewrite <- Hx, !fmap_app. solve_Permutation.
    + rewrite Forall_forall in *. intros x Hxin. apply Hl. rewrite !elem_of_app in *.
      specialize (Hsub x). rewrite !elem_of_app in Hsub. tauto.
  - intros u w [(<- & <- & _)|[_ Hw]]%list_lookup_insert_Some; [done|by eapply sy_views0].
  - intros t1 t2 v1 v2 H1 H2 I1 I2.
    apply list_lookup_insert_Some in H1 as [(<- & <- & _)|[Hne1 H1]];
    apply list_lookup_insert_Some in H2 as [(<- & <- & _)|[Hne2 H2]]; [done| | |by eapply sy_alone0].
    + symmetry. by apply (Hin I1 t2 v2).
    + by apply (Hin I2 t1 v1).
Qed.
End focus_thread.

(** ** Between calls *)

(** An allocation is returned to the client. *)
Lemma sys_return t s vs L g x :
  sys s vs L g -> vs !! t = Some (pending x) -> sys s (<[t := own []]> vs) (x :: L) g.
Proof.
  intros Hsys Ht. apply (sys_move t s vs L g (pending x) Hsys Ht (own []) (x :: L) []); try done.
  - intros y. simpl. rewrite app_nil_r. rewrite elem_of_app, !elem_of_cons. tauto.
  - simpl. rewrite !app_nil_r, fmap_app. simpl. solve_Permutation.
Qed.

(** The client passes an allocation to [dealloc]. *)
Lemma sys_free t s vs L g x :
  sys s vs (x :: L) g -> vs !! t = Some (own []) -> sys s (<[t := pending x]> vs) L g.
Proof.
  intros Hsys Ht. apply (sys_move t s vs (x :: L) g (own []) Hsys Ht (pending x) L []); try done.
  - intros y. simpl. rewrite app_nil_r. rewrite elem_of_app, !elem_of_cons. rewrite elem_of_nil. tauto.
  - simpl. rewrite !app_nil_r, fmap_app. simpl. solve_Permutation.
Qed.

(** What a thread still holds at the end of a call is lost. *)
Lemma sys_drop t s vs L g F :
  sys s vs L g -> vs !! t = Some (own F) -> sys s (<[t := own []]> vs) L g.
Proof.
  intros Hsys Ht. apply (sys_move t s vs L g (own F) Hsys Ht (own []) L F); try done.
  - simpl. solve_Permutation.
Qed.

(** The client writes to its own bytes. *)
Lemma sys_write s vs L g x a m' n :
  sys s vs L g -> x ∈ L -> changes_only (st_mem s) m' a n -> sub_ext (a, n) (user_ext x) ->
  sys (set_mem m' s) vs L g.
Proof.
  intros [] [L' HL]%elem_of_Permutation Hch Hsub. constructor; try done.
  - rewrite HL in sy_live0 |- *. simpl in sy_live0 |- *.
    by destruct (live_write _ _ _ _ sy_live0 a n m' Hch Hsub) as [? _].
  - intros t v Hv. destruct (sy_views0 t v Hv). by constructor.
Qed.

(** ** Verifying an action *)

(** What an action has to establish for the thread that takes it. *)
Definition step_post {B} s v g Lr Hr Nr (P' : B -> view -> Prop) (b : B) (s' : state) : Prop :=
  exists v' g', local s' v' g' Lr Hr Nr /\ guarantee s g v s' g' v' /\ P' b v' /\ keeps Lr s s'.

Lemma act_intro {B} t P (m : M state B) (P' : B -> view -> Prop) :
  (forall s v g Lr Hr Nr, local s v g Lr Hr Nr -> P v -> (t < length (st_caches s))%nat ->
   wp m (step_post s v g Lr Hr Nr P') s) ->
  act_ok valid keeps view_inside t P m P'.
Proof.
  intros Hm s vs L v [g Hsys] Ht HP.
  destruct (sys_open t s vs L g v Hsys Ht) as (Pr & Hr & Nr & Hlo & Hclose).
  eapply wp_mono; [apply (Hm _ _ _ _ _ _ Hlo HP)|].
  - rewrite <- (sy_threads _ _ _ _ Hsys). by eapply lookup_lt_Some.
  - intros b s' (v' & g' & Hlo' & Hgu & HP' & Hk). exists v'. split_and!; [|done|by apply Hgu|].
    + exists g'. by apply Hclose.
    + unfold keeps in *. rewrite fmap_app in Hk. by apply same_bytes_app in Hk as [? _].
Qed.

(** Actions that leave nodes and the node allocator alone give the guarantee. *)
Lemma guarantee_same s g v s' v' :
  length (st_caches s') = length (st_caches s) -> st_nodes s' = st_nodes s -> st_meta s' = st_meta s ->
  view_inside v' = view_inside v -> guarantee s g v s' g v'.
Proof. intros Hc Hn Hm Hi. constructor; try done; [by rewrite Hn|by left|by left]. Qed.
