(* ===== verification/ThreadActions.v ===== *)
(** * The actions of the threads

    Each action of the programs of Threads, verified against the invariant of
    ThreadViews for the thread that takes it: it returns, it moves memory between what
    the thread holds and what the allocator keeps, and it gives the others the
    guarantee. *)

From S2P Require Import Prelude SizeClass Memory Extents AllocSpec Page Magazine Treiber Metadata.
From S2P Require Import Metrics Headers AllocCore Global GlobalInv GlobalCache Interleave Process Sharing Threads ThreadViews.

(** ** The shape of an action *)

(** A change of what a thread holds. *)
Definition set_held (F : list (Z * Z)) (Pd : list (Z * alloc_kind)) (v : view) : view :=
  {| v_exts := F; v_pend := Pd; v_node := v_node v; v_pop := v_pop v; v_meta := v_meta v |}.

(** [s'] has the nodes, the pools and the node allocator of [s]. *)
Definition same_shared (s s' : state) : Prop :=
  st_nodes s' = st_nodes s /\ st_pools s' = st_pools s /\ st_meta s' = st_meta s.

Lemma view_ok_held s g v s' F Pd :
  same_shared s s' -> view_ok s g v -> view_ok s' g (set_held F Pd v).
Proof. intros (Hn & _ & Hm) []. constructor; simpl; rewrite ?Hn, ?Hm; done. Qed.

Section actions.
Context `{K : Kernel} {KS : KernelSpec K}.
Context (t : nat).

(** Nothing but memory and the caches changes. *)
Lemma step_held {B} s v g Lr Hr Nr s' F Pd (P' : B -> view -> Prop) b :
  local s v g Lr Hr Nr -> same_shared s s' -> length (st_caches s') = length (st_caches s) ->
  Forall (fun c => mags_wf c.1 /\ mags_wf c.2) (st_mags s') ->
  Live (st_mem s') (Lr ++ Pd) (Hr ++ view_exts (set_held F Pd v) ++ kept_exts s' g) ->
  keeps Lr s s' -> P' b (set_held F Pd v) -> step_post s v g Lr Hr Nr P' b s'.
Proof.
  intros [] Hsh Hc Hmags Hlive Hk HP. pose proof Hsh as (Hn & Hp & Hm).
  exists (set_held F Pd v), g. split_and!; [|by apply guarantee_same|done|done].
  constructor; rewrite ?Hn, ?Hp, ?Hm; try done. by apply (view_ok_held s).
Qed.

(** ** The caches *)

(** The caches change, and with them what the thread holds; [X] is lost. *)
Lemma step_caches {B} s v g Lr Hr Nr s' F X (P' : B -> view -> Prop) b :
  local s v g Lr Hr Nr -> only_caches s s' ->
  Forall (fun c => mags_wf c.1 /\ mags_wf c.2) (st_mags s') ->
  v_exts v ++ concat (cache_exts <$> st_mags s) ≡ₚ X ++ F ++ concat (cache_exts <$> st_mags s') ->
  P' b (set_held F (v_pend v) v) -> step_post s v g Lr Hr Nr P' b s'.
Proof.
  intros Hlo (Hm & Hn & Hp & Hma & Hl) Hmags Hx HP. pose proof (lo_live _ _ _ _ _ _ Hlo) as [Har Hok].
  rewrite !st_mags_length in Hl.
  eapply step_held; [done|done|done|done| | |done].
  - rewrite Hm. split; [|done]. unfold kept_exts in *. rewrite Hma, Hn.
    apply (arena_drop _ X). eapply arena_perm; [|exact Har]. unfold view_exts. simpl.
    rewrite (Permutation_app_comm (v_exts v)).
    assert (Hx' : X ++ F ++ concat (cache_exts <$> st_mags s') ≡ₚ
      concat (cache_exts <$> st_mags s) ++ v_exts v) by (rewrite <- Hx; apply Permutation_app_comm).
    unfold node_of. simpl. fold (node_of v).
    transitivity ((X ++ F ++ concat (cache_exts <$> st_mags s')) ++
      (live_ext <$> Lr ++ v_pend v) ++ Hr ++ ((fun n => (n, NODE_SIZE)) <$> node_of v) ++
      meta_rest (st_meta s) :: stack_exts (st_nodes s) (g_fulls g) (g_empties g)).
    + solve_Permutation.
    + rewrite Hx'. solve_Permutation.
  - by apply keeps_mem.
Qed.

Section caches.
Context (class : Z) (Hclass : 0 <= class < NUM_SIZE_CLASSES).

Lemma local_focus s v g Lr Hr Nr :
  local s v g Lr Hr Nr -> (t < length (st_caches s))%nat ->
  exists a f R, focus t class s a f R /\ Magazine_wf a /\ Magazine_wf f.
Proof.
  intros Hlo Ht. rewrite <- st_mags_length in Ht.
  destruct (focus_intro t class s Hclass Ht (lo_mags _ _ _ _ _ _ Hlo)) as (a & f & Hf). eexists a, f, _.
  split; [done|]. by eapply focus_wf.
Qed.

(** A computation on one of the two magazines of the class. *)
Lemma alloc_mag_act {B} (m : M Magazine B) (P : view -> Prop) (P' : B -> view -> Prop) :
  (forall v a, P v -> Magazine_wf a -> wp m (fun r a' => Magazine_wf a' /\
     exists F X, v_exts v ++ mag_exts class a ≡ₚ X ++ F ++ mag_exts class a' /\
       P' r (set_held F (v_pend v) v)) a) ->
  acts t P (on_alloc_mag t class m) P'.
Proof.
  intros Hm. apply act_intro. intros s v g Lr Hr Nr Hlo HP Ht.
  destruct (local_focus _ _ _ _ _ _ Hlo Ht) as (a & f & R & Hf & Hwa & Hwf).
  eapply on_alloc_mag_wp; [done|]. eapply wp_mono; [by apply (Hm v a)|].
  intros r a' [Hwa' (F & X & Hx & HP')]. split; [done|]. intros s' Hf' Ho.
  eapply (step_caches s v g Lr Hr Nr s' F X); [done|done|by apply Hf'| |done].
  rewrite (focus_exts _ _ _ _ _ _ Hf), (focus_exts _ _ _ _ _ _ Hf'), (app_assoc (v_exts v)), Hx.
  solve_Permutation.
Qed.

Lemma free_mag_act {B} (m : M Magazine B) (P : view -> Prop) (P' : B -> view -> Prop) :
  (forall v f, P v -> Magazine_wf f -> wp m (fun r f' => Magazine_wf f' /\
     exists F X, v_exts v ++ mag_exts class f ≡ₚ X ++ F ++ mag_exts class f' /\
       P' r (set_held F (v_pend v) v)) f) ->
  acts t P (on_free_mag t class m) P'.
Proof.
  intros Hm. apply act_intro. intros s v g Lr Hr Nr Hlo HP Ht.
  destruct (local_focus _ _ _ _ _ _ Hlo Ht) as (a & f & R & Hf & Hwa & Hwf).
  eapply on_free_mag_wp; [done|]. eapply wp_mono; [by apply (Hm v f)|].
  intros r f' [Hwf' (F & X & Hx & HP')]. split; [done|]. intros s' Hf' Ho.
  eapply (step_caches s v g Lr Hr Nr s' F X); [done|done|by apply Hf'| |done].
  rewrite (focus_exts _ _ _ _ _ _ Hf), (focus_exts _ _ _ _ _ _ Hf').
  transitivity ((v_exts v ++ mag_exts class f) ++ mag_exts class a ++ R); [solve_Permutation|].
  rewrite Hx. solve_Permutation.
Qed.

Lemma pop_act F :
  acts t (fun v => v = own F) (on_alloc_mag t class Magazine_pop)
    (fun r v => v = own (match r with Some b => (b, block_size class) :: F | None => F end)).
Proof.
  apply alloc_mag_act. intros v a -> Hwa. unfold wp. pose proof Hwa as [Hl Hc].
  destruct (decide (mag_count a = 0)) as [H0|H0].
  - rewrite Magazine_pop_empty by done. eexists _, _. split; [done|]. split; [done|]. by exists F, [].
  - destruct (Magazine_pop_some a) as (b & a' & Hr & Hwf' & Hcont & _); [done|lia|].
    eexists _, _. split; [done|]. split; [done|]. exists ((b, block_size class) :: F), [].
    split; [|done]. rewrite (mag_exts_app _ _ _ _ Hcont). simpl. solve_Permutation.
Qed.

Lemma bulk_init_act F base n :
  acts t (fun v => v = own (F ++ carve base (block_size class) n))
    (on_alloc_mag t class (Magazine_bulk_init base (block_size class) (Z.of_nat n)))
    (fun _ v => v = own F).
Proof.
  apply alloc_mag_act. intros v a -> Hwa.
  destruct (Magazine_bulk_init_spec base (block_size class) (Z.of_nat n) a Hwa) as (a' & Hr & Hwa' & Ha');
    [lia|]. set (k := Z.to_nat _) in Ha'. destruct (carve_prefix base (block_size class) k n) as (l & Hk); [lia|].
  exists tt, a'. split; [done|]. split; [done|]. exists F, l. split; [|done].
  rewrite (mag_exts_app _ _ _ _ Ha'), <- list_fmap_compose.
  change (_ <$> seq 0 k) with (carve base (block_size class) k). simpl. rewrite Hk. solve_Permutation.
Qed.

Lemma look_free_act P :
  acts t P (on_free_mag t class getS) (fun f v => P v).
Proof.
  apply free_mag_act. intros v f HP Hwf. eexists _, _. split; [done|]. split; [done|].
  exists (v_exts v), []. split; [done|]. by destruct v.
Qed.

(** A block joins the free magazine, unless that is full. *)
Lemma push_act F b :
  acts t (fun v => v = own ((b, block_size class) :: F)) (on_free_mag t class (Magazine_push b))
    (fun r v => v = own (if r : bool then F else (b, block_size class) :: F)).
Proof.
  apply free_mag_act. intros v f -> Hwf. unfold wp. pose proof Hwf as [Hl Hc].
  destruct (decide (mag_count f = MAGAZINE_CAPACITY)) as [H0|H0].
  - rewrite Magazine_push_full by done. eexists _, _. split; [done|]. split; [done|].
    by exists ((b, block_size class) :: F), [].
  - destruct (Magazine_push_room b f) as (f' & Hr & Hwf' & Hcont & _); [done|lia|].
    eexists _, _. split; [done|]. split; [done|]. exists F, []. split; [|done].
    rewrite (mag_exts_app _ _ _ _ Hcont). simpl. solve_Permutation.
Qed.

(** The two magazines of the class change places. *)
Lemma swap_mags_act F : acts t (fun v => v = own F) (swap_mags t class) (fun _ v => v = own F).
Proof.
  apply act_intro. intros s v g Lr Hr Nr Hlo -> Ht.
  destruct (local_focus _ _ _ _ _ _ Hlo Ht) as (a & f & R & Hf & Hwa & Hwf). unfold swap_mags.
  apply wp_bind. eapply on_alloc_mag_wp; [done|]. apply wp_gets. split; [done|]. intros s1 Hf1 O1.
  apply wp_bind. eapply on_free_mag_wp; [done|]. apply wp_gets. split; [done|]. intros s2 Hf2 O2.
  apply wp_bind. eapply on_alloc_mag_wp; [done|]. apply wp_modify. split; [done|]. intros s3 Hf3 O3.
  eapply on_free_mag_wp; [done|]. apply wp_modify. split; [done|]. intros s4 Hf4 O4.
  eapply (step_caches s _ g Lr Hr Nr s4 F []);
    [done|eauto using only_caches_trans|by apply Hf4| |done].
  rewrite (focus_exts _ _ _ _ _ _ Hf), (focus_exts _ _ _ _ _ _ Hf4). simpl. solve_Permutation.
Qed.
End caches.

(** ** Counters *)

Lemma metrics_act {B} (m : M (Metrics * Metrics) B) (P : view -> Prop) :
  (forall x, wp m (fun _ _ => True) x) -> acts t P (on_metrics t m) (fun _ v => P v).
Proof.
  intros Hm. apply act_intro. intros s v g Lr Hr Nr Hlo HP Ht.
  apply on_metrics_wp; [done|by rewrite st_mags_length|].
  intros b s' (H1 & H2 & H3 & H4 & H5). pose proof (lo_live _ _ _ _ _ _ Hlo) as Hlive.
  eapply (step_held s v g Lr Hr Nr s' (v_exts v) (v_pend v)); [done|done| | | | |by destruct v].
  - by rewrite <- !st_mags_length, H5.
  - rewrite H5. apply Hlo.
  - unfold kept_exts. rewrite H1, H2, H4, H5. done.
  - by apply keeps_mem.
Qed.

(** ** Memory *)

(** A computation on memory, in an arena where this thread's part is in front. *)
Lemma mem_act {B} (m : M memory B) F Pd v0 (P' : B -> view -> Prop) :
  (forall mm R, arena mm (F ++ (live_ext <$> Pd) ++ R) -> Forall (live_ok mm) Pd ->
   wp m (fun b mm' => exists F' Pd', same_bytes R mm mm' /\
     arena mm' (F' ++ (live_ext <$> Pd') ++ R) /\ Forall (live_ok mm') Pd' /\
     P' b (set_held F' Pd' v0)) mm) ->
  acts t (fun v => v = set_held F Pd v0) (md_on_mem m) P'.
Proof.
  intros Hm. apply act_intro. intros s v g Lr Hr Nr Hlo -> Ht.
  pose proof (lo_live _ _ _ _ _ _ Hlo) as [Har [Hok Hpd]%Forall_app]. apply md_on_mem_wp.
  set (N0 := (fun n => (n, NODE_SIZE)) <$> node_of v0).
  eapply wp_mono; [apply (Hm _ ((live_ext <$> Lr) ++ Hr ++ N0 ++ kept_exts s g)); [|exact Hpd]|].
  { eapply arena_perm; [|exact Har]. unfold view_exts. simpl. rewrite fmap_app.
    change (node_of (set_held F Pd v0)) with (node_of v0). solve_Permutation. }
  intros b mm' (F' & Pd' & Hs & Har' & Hpd' & HP'). simpl in Hs. pose proof Hs as [Hs1 _]%same_bytes_app.
  eapply (step_held s _ g Lr Hr Nr (set_mem mm' s) F' Pd'); [done|done|done|apply Hlo| | |done].
  - split.
    + eapply arena_perm; [|exact Har']. unfold view_exts. simpl. rewrite fmap_app.
      change (node_of _) with (node_of v0). solve_Permutation.
    + apply Forall_app. split; [|done]. by eapply same_live_ok.
  - done.
Qed.

End actions.
