(* ===== verification/ThreadPools.v ===== *)
(** * The actions on the pools and on the node allocator

    The accesses of the pushes and pops of the pools' stacks and of [alloc_node], in
    the style of ThreadActions.  A pop is safe because a node that was ever on a full
    stack does not come back to one: what a thread has read of the node it saw on top
    is true for as long as that node is on top. *)

From S2P Require Import Prelude SizeClass Memory Extents AllocSpec Page Magazine Treiber Metadata.
From S2P Require Import Metrics Headers AllocCore Global GlobalInv GlobalCache Interleave Process Sharing Threads ThreadViews.
From S2P Require Import ThreadActions.

(** The thread has loaded the head of a full stack. *)
Definition seek (head : Z) : view := if head =? 0 then own [] else popping head None.

Lemma stacks_of_linked nodes pools fulls empties :
  linked_stacks nodes pools fulls empties ->
  stacks nodes pools (concat fulls ++ concat empties) (stack_exts nodes fulls empties).
Proof. intros Hls. by exists fulls, empties. Qed.

Lemma put_pool_id class p s :
  st_pools s !! Z.to_nat class = Some p -> put_pool class (st_nodes s, p) s = s.
Proof. intros Hp. unfold put_pool. simpl. rewrite list_insert_id by done. by destruct s. Qed.

(** Only the thread's knowledge changes. *)
Lemma step_view {B} s v g Lr Hr Nr v' (P' : B -> view -> Prop) b :
  local s v g Lr Hr Nr -> v_exts v' = v_exts v -> v_pend v' = v_pend v -> v_node v' = v_node v ->
  view_inside v' = view_inside v -> view_ok s g v' -> P' b v' -> step_post s v g Lr Hr Nr P' b s.
Proof.
  intros [] He Hp Hn Hi Hok HP. exists v', g. split_and!; [|by apply guarantee_same|done|apply keeps_refl].
  constructor; try done; unfold view_exts, node_of; rewrite ?He, ?Hp, ?Hn; done.
Qed.

Section pools.
Context (t : nat) (class : Z) (Hclass : 0 <= class < POOL_SIZE_CLASSES).

Lemma pool_act {B} (m : M pool_store B) P (P' : B -> view -> Prop) :
  (forall s v g Lr Hr Nr p, local s v g Lr Hr Nr -> P v -> st_pools s !! Z.to_nat class = Some p ->
   wp m (fun r x => step_post s v g Lr Hr Nr P' r (put_pool class x s)) (st_nodes s, p)) ->
  acts t P (on_pool class m) P'.
Proof.
  intros Hm. apply act_intro. intros s v g Lr Hr Nr Hlo HP Ht.
  eapply on_pool_wp; [done|by apply stacks_of_linked, Hlo|]. intros p Hp. by apply (Hm s v g Lr Hr Nr).
Qed.

(** The head of a full stack, when there is one, is a node that was pushed on it. *)
Lemma head_seen s v g Lr Hr Nr p :
  local s v g Lr Hr Nr -> st_pools s !! Z.to_nat class = Some p -> full_head p <> 0 ->
  full_head p ∈ concat (g_fulls g).
Proof.
  intros Hlo Hp H0.
  destruct (linked_class _ _ _ _ (lo_stacks _ _ _ _ _ _ Hlo) class Hclass p Hp) as (fl & el & Hfl & _ & Hch & _).
  destruct fl as [|n fl]; [done|]. destruct Hch as (-> & _).
  eapply elem_of_concat_lookup; [done|by left].
Qed.

Lemma seek_ok s v g Lr Hr Nr p :
  local s v g Lr Hr Nr -> st_pools s !! Z.to_nat class = Some p -> view_ok s g (seek (full_head p)).
Proof.
  intros Hlo Hp. unfold seek. destruct (Z.eqb_spec (full_head p) 0) as [H0|H0]; constructor; simpl; try done.
  intros cur nx [= <- <-]. split_and!; [done| |done].
  eapply lo_seen; [done|]. by eapply head_seen.
Qed.

Lemma seek_parts h :
  v_exts (seek h) = [] /\ v_pend (seek h) = [] /\ v_node (seek h) = None /\ view_inside (seek h) = false.
Proof. unfold seek. by destruct (h =? 0). Qed.

(** ** [pop_full] *)

Lemma load_pop_act : acts t (fun v => v = own []) (load_full class) (fun h v => v = seek h).
Proof.
  apply pool_act. intros s v g Lr Hr Nr p Hlo -> Hp. apply wp_gets. simpl.
  rewrite put_pool_id by done. destruct (seek_parts (full_head p)) as (? & ? & ? & ?).
  eapply (step_view s _ g Lr Hr Nr (seek (full_head p))); try done. by eapply seek_ok.
Qed.

Lemma read_next_act current :
  acts t (fun v => v = popping current None) (on_pool class (read_next current))
    (fun nx v => v = popping current (Some nx)).
Proof.
  apply pool_act. intros s v g Lr Hr Nr p Hlo -> Hp.
  destruct (vo_pop _ _ _ (lo_view _ _ _ _ _ _ Hlo) current None eq_refl) as (H0 & Hin & _).
  destruct (lo_nodes _ _ _ _ _ _ Hlo current Hin) as [nd Hnd].
  apply wp_bind, wp_gets. apply wp_bind. eapply wp_or_fault; [exact Hnd|]. apply wp_ret.
  rewrite put_pool_id by done.
  eapply (step_view s _ g Lr Hr Nr (popping current (Some (node_next nd)))); try done.
  constructor; simpl; try done. intros cur nx [= <- <-]. split_and!; [done|done|].
  intros nx' [= <-] _. unfold next_of. by rewrite lookup_fmap, Hnd.
Qed.

(** The node on top leaves its stack. *)
Lemma step_popped {B} s g Lr Hr Nr p next (P' : B -> view -> Prop) b :
  local s (popping (full_head p) (Some next)) g Lr Hr Nr -> st_pools s !! Z.to_nat class = Some p ->
  (forall nd, P' b (own_node (mag_exts class (node_magazine nd)) (full_head p) nd false)) ->
  step_post s (popping (full_head p) (Some next)) g Lr Hr Nr P' b
    (put_pool class (st_nodes s, {| full_head := next; empty_head := empty_head p |}) s).
Proof.
  intros Hlo Hp HP. pose proof (vo_pop _ _ _ (lo_view _ _ _ _ _ _ Hlo) _ _ eq_refl) as (H0 & Hin & Hnx).
  pose proof (head_seen _ _ _ _ _ _ _ Hlo Hp H0) as Hfull. specialize (Hnx next eq_refl Hfull).
  destruct (linked_pop_full _ _ _ _ (lo_stacks _ _ _ _ _ _ Hlo) class Hclass p Hp H0)
    as (nd & fl & Hfl & Hnd & Hwf & Hperm & Hx & Hls).
  unfold next_of in Hnx. rewrite lookup_fmap, Hnd in Hnx. simplify_eq/=.
  set (fulls' := <[Z.to_nat class := fl]> (g_fulls g)) in *.
  exists (own_node (mag_exts class (node_magazine nd)) (full_head p) nd false).
  exists {| g_fulls := fulls'; g_empties := g_empties g; g_seen := g_seen g |}.
  assert (Hsub : forall n, n ∈ concat fulls' -> n ∈ concat (g_fulls g)) by (intros n; rewrite Hperm; by right).
  pose proof Hlo as []. split_and!; [constructor|constructor|done|by apply keeps_mem]; simpl; try done; auto.
  - destruct lo_live as [Har Hok]. split; [|done]. eapply arena_perm; [|exact Har].
    unfold kept_exts, view_exts. simpl. rewrite Hx. change (st_mags (put_pool _ _ _)) with (st_mags s).
    solve_Permutation.
  - intros n Hn. specialize (lo_known n Hn). unfold stack_nodes in *. simpl in *. rewrite Hperm in lo_known.
    rewrite !elem_of_app, !elem_of_cons in *. tauto.
  - constructor; simpl; try done. intros n nd' fresh [= <- <- <-]. done.
Qed.

Lemma cas_pop_act current next spurious :
  acts t (fun v => v = popping current (Some next)) (cas_full class current next spurious)
    (fun r v => match r with
                | inl found => v = seek found
                | inr _ => exists nd, v = own_node (mag_exts class (node_magazine nd)) current nd false
                end).
Proof.
  apply pool_act. intros s v g Lr Hr Nr p Hlo -> Hp. apply wp_bind, wp_gets. simpl.
  destruct (negb spurious && (full_head p =? current)) eqn:He.
  - apply andb_true_iff in He as [_ <-%Z.eqb_eq]. apply wp_bind, wp_modify, wp_ret.
    apply step_popped; [done|done|]. intros nd. by exists nd.
  - apply wp_ret. rewrite put_pool_id by done. destruct (seek_parts (full_head p)) as (? & ? & ? & ?).
    eapply (step_view s _ g Lr Hr Nr (seek (full_head p))); try done. by eapply seek_ok.
Qed.

(** ** The pushes *)

Lemma load_full_act P : acts t P (load_full class) (fun _ v => P v).
Proof.
  apply pool_act. intros s v g Lr Hr Nr p Hlo HP Hp. apply wp_gets. simpl. rewrite put_pool_id by done.
  eapply (step_view s v g Lr Hr Nr v); try done. apply Hlo.
Qed.

Lemma load_empty_act P : acts t P (load_empty class) (fun _ v => P v).
Proof.
  apply pool_act. intros s v g Lr Hr Nr p Hlo HP Hp. apply wp_gets. simpl. rewrite put_pool_id by done.
  eapply (step_view s v g Lr Hr Nr v); try done. apply Hlo.
Qed.

(** The thread writes to its own node. *)
Lemma step_node {B} s g Lr Hr Nr s' F n nd nd' fresh (P' : B -> view -> Prop) b :
  local s (own_node F n nd fresh) g Lr Hr Nr -> Magazine_wf (node_magazine nd') ->
  st_nodes s' = <[n := nd']> (st_nodes s) -> st_pools s' = st_pools s -> st_meta s' = st_meta s ->
  st_mem s' = st_mem s -> st_caches s' = st_caches s ->
  P' b (own_node F n nd' fresh) -> step_post s (own_node F n nd fresh) g Lr Hr Nr P' b s'.
Proof.
  intros Hlo Hwf Hn Hp Hm Hmem Hc HP.
  pose proof (local_node_stacks _ _ _ _ _ _ n Hlo (list_elem_of_here _ _)) as Hout.
  pose proof (vo_node _ _ _ (lo_view _ _ _ _ _ _ Hlo) n nd fresh eq_refl) as (H0 & Hlk & _ & Hfr).
  destruct (linked_node_update _ _ _ _ (lo_stacks _ _ _ _ _ _ Hlo) n nd' Hout) as [Hls Hx].
  pose proof Hlo as []. exists (own_node F n nd' fresh), g.
  assert (Hmags : st_mags s' = st_mags s) by (unfold st_mags; by rewrite Hc).
  split_and!; [constructor|constructor|done|by apply keeps_mem]; rewrite ?Hn, ?Hp, ?Hm, ?Hmem, ?Hmags; try done.
  - unfold kept_exts. rewrite Hn, Hm, Hmags, Hx. done.
  - intros k Hk. rewrite lookup_insert_is_Some'. auto.
  - intros k Hk. rewrite lookup_insert_is_Some' in Hk. destruct Hk as [<-|Hk]; [|by apply lo_known].
    apply elem_of_app. right. by left.
  - constructor; simpl; try done. intros k kd f [= <- <- <-]. rewrite Hn, lookup_insert_eq. done.
  - by rewrite Hc.
  - intros k Hk _. apply lookup_insert_ne. intros ->. apply Hk. by left.
  - by left.
  - by left.
Qed.

Lemma set_next_act F n nd fresh current :
  acts t (fun v => v = own_node F n nd fresh) (on_pool class (set_node_next n current))
    (fun _ v => v = own_node F n {| node_next := current; node_magazine := node_magazine nd |} fresh).
Proof.
  apply pool_act. intros s v g Lr Hr Nr p Hlo -> Hp. unfold set_node_next.
  pose proof (vo_node _ _ _ (lo_view _ _ _ _ _ _ Hlo) n nd fresh eq_refl) as (H0 & Hlk & Hwf & _).
  apply wp_bind, wp_gets. apply wp_bind. eapply wp_or_fault; [exact Hlk|]. apply wp_modify.
  eapply step_node; [done| | | |done|done|done|done]; [done|done|]. simpl. by rewrite list_insert_id.
Qed.

(** A node that was never on a full stack joins the one of the class. *)
Lemma step_pushed {B} s g Lr Hr Nr p F n nd (P' : B -> view -> Prop) b :
  local s (own_node (mag_exts class (node_magazine nd) ++ F) n nd true) g Lr Hr Nr ->
  st_pools s !! Z.to_nat class = Some p -> node_next nd = full_head p -> P' b (own F) ->
  step_post s (own_node (mag_exts class (node_magazine nd) ++ F) n nd true) g Lr Hr Nr P' b
    (put_pool class (st_nodes s, {| full_head := n; empty_head := empty_head p |}) s).
Proof.
  intros Hlo Hp Hnx HP.
  pose proof (local_node_stacks _ _ _ _ _ _ n Hlo (list_elem_of_here _ _)) as Hout.
  pose proof (vo_node _ _ _ (lo_view _ _ _ _ _ _ Hlo) n nd true eq_refl) as (H0 & Hlk & Hwf & Hfr).
  destruct (linked_push_full _ _ _ _ (lo_stacks _ _ _ _ _ _ Hlo) class Hclass p Hp n nd Hout H0 Hlk Hwf Hnx)
    as (fulls' & Hperm & Hx & Hls).
  exists (own F), {| g_fulls := fulls'; g_empties := g_empties g; g_seen := n :: g_seen g |}.
  pose proof Hlo as []. split_and!; [constructor|constructor|done|by apply keeps_mem]; simpl; try done.
  - destruct lo_live as [Har Hok]. split; [|done]. eapply arena_perm; [|exact Har].
    unfold kept_exts, view_exts. simpl. rewrite Hx. change (st_mags (put_pool _ _ _)) with (st_mags s).
    solve_Permutation.
  - intros k. rewrite Hperm, !elem_of_cons. intros [->|Hk]; auto.
  - intros k. rewrite elem_of_cons. intros [->|Hk]; eauto.
  - intros k Hk. specialize (lo_known k Hk). unfold stack_nodes, node_of in *. simpl in *. rewrite Hperm.
    set_solver.
  - intros k Hk. by right.
  - intros k. unfold node_of. simpl. rewrite elem_of_cons. intros [->|Hk]; [right; by left|by left].
  - intros k Hk. rewrite Hperm, elem_of_cons. intros [->|?]; [|done]. by destruct Hfr.
  - by left.
Qed.

Lemma cas_push_full_act F n nd current spurious :
  node_next nd = current ->
  acts t (fun v => v = own_node (mag_exts class (node_magazine nd) ++ F) n nd true)
    (cas_full class current n spurious)
    (fun r v => v = match r with
                    | inl _ => own_node (mag_exts class (node_magazine nd) ++ F) n nd true
                    | inr _ => own F
                    end).
Proof.
  intros Hnx. apply pool_act. intros s v g Lr Hr Nr p Hlo -> Hp. apply wp_bind, wp_gets. simpl.
  destruct (negb spurious && (full_head p =? current)) eqn:He.
  - apply andb_true_iff in He as [_ <-%Z.eqb_eq]. apply wp_bind, wp_modify, wp_ret. by apply step_pushed.
  - apply wp_ret. rewrite put_pool_id by done. eapply step_view; try done. apply Hlo.
Qed.

(** A node joins the empty stack. *)
Lemma step_pushed_empty {B} s g Lr Hr Nr p F n nd fresh (P' : B -> view -> Prop) b :
  local s (own_node F n nd fresh) g Lr Hr Nr ->
  st_pools s !! Z.to_nat class = Some p -> node_next nd = empty_head p -> P' b (own F) ->
  step_post s (own_node F n nd fresh) g Lr Hr Nr P' b
    (put_pool class (st_nodes s, {| full_head := full_head p; empty_head := n |}) s).
Proof.
  intros Hlo Hp Hnx HP.
  pose proof (local_node_stacks _ _ _ _ _ _ n Hlo (list_elem_of_here _ _)) as Hout.
  pose proof (vo_node _ _ _ (lo_view _ _ _ _ _ _ Hlo) n nd fresh eq_refl) as (H0 & Hlk & Hwf & Hfr).
  destruct (linked_push_empty _ _ _ _ (lo_stacks _ _ _ _ _ _ Hlo) class Hclass p Hp n nd Hout H0 Hlk Hwf Hnx)
    as (empties' & Hperm & Hx & Hls).
  exists (own F), {| g_fulls := g_fulls g; g_empties := empties'; g_seen := g_seen g |}.
  pose proof Hlo as []. split_and!; [constructor|constructor|done|by apply keeps_mem]; simpl; try done; auto.
  - destruct lo_live as [Har Hok]. split; [|done]. eapply arena_perm; [|exact Har].
    unfold kept_exts, view_exts. simpl. rewrite Hx. change (st_mags (put_pool _ _ _)) with (st_mags s).
    solve_Permutation.
  - intros k Hk. specialize (lo_known k Hk). unfold stack_nodes, node_of in *. simpl in *. rewrite Hperm.
    set_solver.
Qed.

Lemma cas_push_empty_act F n nd fresh current spurious :
  node_next nd = current ->
  acts t (fun v => v = own_node F n nd fresh) (cas_empty class current n spurious)
    (fun r v => v = match r with inl _ => own_node F n nd fresh | inr _ => own F end).
Proof.
  intros Hnx. apply pool_act. intros s v g Lr Hr Nr p Hlo -> Hp. apply wp_bind, wp_gets. simpl.
  destruct (negb spurious && (empty_head p =? current)) eqn:He.
  - apply andb_true_iff in He as [_ <-%Z.eqb_eq]. apply wp_bind, wp_modify, wp_ret.
    by apply step_pushed_empty.
  - apply wp_ret. rewrite put_pool_id by done. eapply step_view; try done. apply Hlo.
Qed.
End pools.
