(* ===== verification/ThreadNodes.v ===== *)
(** * The actions on nodes and on the node allocator

    The two places where a node and a magazine of the thread change contents, and the
    accesses of [alloc_node], for the one thread that is inside it. *)

From S2P Require Import Prelude SizeClass Memory Extents AllocSpec Page Magazine Treiber Metadata.
From S2P Require Import Metrics Headers AllocCore Global GlobalInv GlobalCache Interleave Process Sharing Threads ThreadViews.
From S2P Require Import ThreadActions ThreadPools.

(** ** Two changes in one action *)

Lemma guarantee_trans s g v s2 g2 v2 s3 g3 v3 :
  guarantee s g v s2 g2 v2 -> guarantee s2 g2 v2 s3 g3 v3 -> node_of v2 = node_of v ->
  guarantee s g v s3 g3 v3.
Proof.
  intros [] [] Hn. constructor; rewrite ?Hn in *; try congruence.
  - intros n Hv Hs. rewrite gu_nodes0; [auto|done|]. by rewrite gu_nodes.
  - auto.
  - intros n Hs. destruct (gu_new0 n Hs); auto.
  - auto.
  - destruct gu_meta, gu_meta0; [left|right|right|right]; congruence.
Qed.

Lemma step_trans {B} s v g Lr Hr Nr s2 v2 g2 (P' : B -> view -> Prop) b s3 :
  guarantee s g v s2 g2 v2 -> keeps Lr s s2 -> node_of v2 = node_of v ->
  step_post s2 v2 g2 Lr Hr Nr P' b s3 -> step_post s v g Lr Hr Nr P' b s3.
Proof.
  intros Hg Hk Hn (v3 & g3 & Hlo & Hg3 & HP & Hk3). exists v3, g3.
  split_and!; [done|by eapply guarantee_trans|done|by eapply same_bytes_trans].
Qed.

Section nodes.
Context (t : nat) (class : Z) (Hclass : 0 <= class < NUM_SIZE_CLASSES).

(** The blocks of the popped node go to the cache; what was left in the cache's
    magazine, nothing in fact, would be lost. *)
Lemma swap_node_act n nd :
  acts t (fun v => v = own_node (mag_exts class (node_magazine nd)) n nd false) (swap_node t class n)
    (fun _ v => exists nd', v = own_node [] n nd' false).
Proof.
  apply act_intro. intros s v g Lr Hr Nr Hlo -> Ht.
  destruct (local_focus t class Hclass _ _ _ _ _ _ Hlo Ht) as (a & f & R & Hf & Hwa & Hwf).
  pose proof (vo_node _ _ _ (lo_view _ _ _ _ _ _ Hlo) n nd false eq_refl) as (H0 & Hlk & Hwn & _).
  unfold swap_node. apply wp_bind. eapply on_alloc_mag_wp; [done|]. apply wp_gets. split; [done|].
  intros s1 Hf1 O1. pose proof O1 as (_ & Hn1 & _). apply wp_bind, wp_gets. apply wp_bind.
  eapply wp_or_fault; [by rewrite Hn1|].
  apply wp_bind. eapply on_alloc_mag_wp; [done|]. apply wp_modify. split; [done|]. intros s2 Hf2 O2.
  apply wp_modify. pose proof (only_caches_trans _ _ _ O1 O2) as O. pose proof O2 as (_ & Hn2 & _).
  destruct (step_caches (B := unit) s _ g Lr Hr Nr s2 [] (mag_exts class a)
    (fun _ v => v = own_node [] n nd false) tt Hlo O) as (v2 & g2 & Hlo2 & Hgu & -> & Hk).
  - by apply Hf2.
  - rewrite (focus_exts _ _ _ _ _ _ Hf), (focus_exts _ _ _ _ _ _ Hf2). simpl. solve_Permutation.
  - done.
  - eapply step_trans; [done|done|done|].
    eapply (step_node _ _ _ _ _ _ _ _ _ {| node_next := node_next nd;
      node_magazine := {| mag_blocks := mag_blocks a; mag_count := 0 |} |}); try done.
    + destruct Hwa. split; simpl; [done|unfold MAGAZINE_CAPACITY; lia].
    + simpl. by rewrite Hn2.
    + by eexists.
Qed.

(** The thread makes a node of memory it holds. *)
Lemma step_register {B} s g Lr Hr Nr s' F n nd (P' : B -> view -> Prop) b :
  local s (own ((n, NODE_SIZE) :: F)) g Lr Hr Nr -> Magazine_wf (node_magazine nd) ->
  st_nodes s' = <[n := nd]> (st_nodes s) -> st_pools s' = st_pools s -> st_meta s' = st_meta s ->
  st_mem s' = st_mem s -> st_caches s' = st_caches s ->
  P' b (own_node F n nd true) -> step_post s (own ((n, NODE_SIZE) :: F)) g Lr Hr Nr P' b s'.
Proof.
  intros Hlo Hwf Hn Hp Hm Hmem Hc HP. pose proof Hlo as []. destruct lo_live as [Har Hok].
  assert (Har2 : arena (st_mem s) ((n, NODE_SIZE) :: F ++ (live_ext <$> Lr ++ []) ++ Hr ++ kept_exts s g)).
  { eapply arena_perm; [|exact Har]. unfold view_exts. simpl. solve_Permutation. }
  pose proof (arena_once _ (n, NODE_SIZE) _ NODE_SIZE_pos Har2) as Honce. rewrite !elem_of_app in Honce.
  destruct (arena_ok _ _ _ Har2 (list_elem_of_here _ _)) as [H0 _]. simpl in H0.
  assert (Hst : n ∉ stack_nodes g) by (intros Hin; by apply (node_stack_ext s) in Hin; tauto).
  assert (Hnew : ~ is_Some (st_nodes s !! n)).
  { intros Hin. apply lo_known in Hin. rewrite !elem_of_app in Hin.
    destruct Hin as [Hin|[Hin|Hin]]; [done|by apply elem_of_nil in Hin|].
    apply lo_others in Hin. tauto. }
  destruct (linked_node_update _ _ _ _ lo_stacks n nd Hst) as [Hls Hx].
  exists (own_node F n nd true), g.
  assert (Hmags : st_mags s' = st_mags s) by (unfold st_mags; by rewrite Hc).
  split_and!; [constructor|constructor|done|by apply keeps_mem]; rewrite ?Hn, ?Hp, ?Hm, ?Hmem, ?Hmags; try done.
  - split; [|done]. unfold kept_exts in *. rewrite Hn, Hm, Hmags, Hx.
    eapply arena_perm; [|exact Har]. unfold view_exts. simpl. solve_Permutation.
  - intros k Hk. rewrite lookup_insert_is_Some'. auto.
  - intros k Hk. rewrite lookup_insert_is_Some' in Hk. unfold node_of. simpl. rewrite !elem_of_app, !elem_of_cons.
    destruct Hk as [<-|Hk]; [tauto|]. apply lo_known in Hk. rewrite !elem_of_app in Hk.
    destruct Hk as [?|[[]%elem_of_nil|?]]; tauto.
  - constructor; simpl; try done. intros k kd f [= <- <- <-]. rewrite Hn, lookup_insert_eq.
    split_and!; [lia|done|done|]. intros _ Hin. by apply Hnew, lo_nodes.
  - by rewrite Hc.
  - intros k _ Hk. apply lookup_insert_ne. by intros ->.
  - by left.
  - by left.
Qed.

Lemma fill_node_act F n :
  acts t (fun v => v = own ((n, NODE_SIZE) :: F)) (fill_node t class n)
    (fun _ v => exists nd, v = own_node (mag_exts class (node_magazine nd) ++ F) n nd true).
Proof.
  apply act_intro. intros s v g Lr Hr Nr Hlo -> Ht.
  destruct (local_focus t class Hclass _ _ _ _ _ _ Hlo Ht) as (a & f & R & Hf & Hwa & Hwf).
  unfold fill_node. apply wp_bind. eapply on_free_mag_wp; [done|]. apply wp_gets. split; [done|].
  intros s1 Hf1 O1. apply wp_bind. eapply on_free_mag_wp; [done|]. apply wp_modify.
  split; [apply Magazine_new_wf|]. intros s2 Hf2 O2. apply wp_bind, wp_gets. apply wp_modify.
  pose proof (only_caches_trans _ _ _ O1 O2) as O.
  destruct (step_caches (B := unit) s _ g Lr Hr Nr s2 ((n, NODE_SIZE) :: mag_exts class f ++ F) []
    (fun _ v => v = own ((n, NODE_SIZE) :: mag_exts class f ++ F)) tt Hlo O)
    as (v2 & g2 & Hlo2 & Hgu & -> & Hk).
  - by apply Hf2.
  - rewrite (focus_exts _ _ _ _ _ _ Hf), (focus_exts _ _ _ _ _ _ Hf2). simpl. solve_Permutation.
  - done.
  - eapply step_trans; [done|done|done|].
    eapply (step_register _ _ _ _ _ _ _ _ {| node_next := 0; node_magazine := f |});
      [done|done|done..|]. by exists {| node_next := 0; node_magazine := f |}.
Qed.
End nodes.

(** ** [alloc_node] *)

(** The thread is inside [alloc_node], with the extents [F] beside. *)
Definition at_meta (F : list (Z * Z)) (v : view) : Prop := exists ma, v = in_section F ma.

Section alloc_node.
Context `{K : Kernel} {KS : KernelSpec K}.
Context (t : nat).

(** The two fields of the allocator change. *)
Lemma step_meta {B} s g Lr Hr Nr F ma F' ma' (P' : B -> view -> Prop) b :
  local s (in_section F ma) g Lr Hr Nr -> meta_wf ma' ->
  (forall R, arena (st_mem s) (F ++ meta_rest ma :: R) -> arena (st_mem s) (F' ++ meta_rest ma' :: R)) ->
  P' b (in_section F' ma') ->
  step_post s (in_section F ma) g Lr Hr Nr P' b (set_meta (st_mem s, ma') s).
Proof.
  intros Hlo Hwf Hx HP. pose proof (vo_meta _ _ _ (lo_view _ _ _ _ _ _ Hlo) ma eq_refl) as Hma.
  pose proof Hlo as []. exists (in_section F' ma'), g.
  split_and!; [constructor|constructor|done|by apply keeps_mem]; try done.
  - destruct lo_live as [Har Hok]. split; [|done]. unfold kept_exts, view_exts in *. simpl in *.
    rewrite Hma in Har. change (st_mags (set_meta _ s)) with (st_mags s).
    eapply arena_perm; [|apply (Hx ((live_ext <$> Lr ++ []) ++ Hr ++
      concat (cache_exts <$> st_mags s) ++ stack_exts (st_nodes s) (g_fulls g) (g_empties g)))].
    + solve_Permutation.
    + eapply arena_perm; [|exact Har]. solve_Permutation.
  - constructor; simpl; try done. by intros ? [= <-].
  - by left.
  - by right.
Qed.

Lemma local_meta s F ma g Lr Hr Nr :
  local s (in_section F ma) g Lr Hr Nr -> st_meta s = ma /\ meta_wf ma.
Proof.
  intros Hlo. pose proof (vo_meta _ _ _ (lo_view _ _ _ _ _ _ Hlo) ma eq_refl) as <-.
  split; [done|]. apply Hlo.
Qed.

(** Looking at the fields. *)
Lemma look_meta_act {B} (f : MetadataAllocator -> B) F :
  acts t (at_meta F) (gets (fun s => f (st_meta s)))
    (fun r v => exists ma, v = in_section F ma /\ r = f ma /\ meta_wf ma).
Proof.
  apply act_intro. intros s v g Lr Hr Nr Hlo [ma ->] Ht. apply wp_gets.
  destruct (local_meta _ _ _ _ _ _ _ Hlo) as [Hma Hwf].
  eapply (step_view s _ g Lr Hr Nr (in_section F ma)); try done; [apply Hlo|].
  exists ma. by rewrite Hma.
Qed.

(** A look whose result does not matter. *)
Lemma look_act {B} (f : state -> B) P : acts t P (gets f) (fun _ v => P v).
Proof.
  apply act_intro. intros s v g Lr Hr Nr Hlo HP Ht. apply wp_gets.
  eapply (step_view s _ g Lr Hr Nr v); try done. apply Hlo.
Qed.

(** The address of the node that was cut off. *)
Lemma load_page_act F aligned :
  acts t (fun v => exists ma, v = in_section ((ma_current_page ma + aligned, NODE_SIZE) :: F) ma)
    (gets (fun s => ma_current_page (st_meta s)))
    (fun page v => at_meta ((page + aligned, NODE_SIZE) :: F) v /\ 0 < page + aligned).
Proof.
  apply act_intro. intros s v g Lr Hr Nr Hlo [ma ->] Ht. apply wp_gets.
  destruct (local_meta _ _ _ _ _ _ _ Hlo) as [Hma Hwf]. rewrite Hma.
  eapply (step_view s _ g Lr Hr Nr (in_section _ ma)); try done; [apply Hlo|]. split; [by exists ma|].
  destruct (lo_live _ _ _ _ _ _ Hlo) as [Har _]. apply arena_drop, arena_drop, arena_drop_r in Har.
  by destruct (arena_ok _ _ _ Har (list_elem_of_here _ _)) as [? _].
Qed.

Lemma node_fits off :
  0 <= off <= PAGE_SIZE -> off mod 16 = 0 ->
  node_aligned off = off /\ node_aligned off +! NODE_SIZE = off + NODE_SIZE.
Proof.
  intros Ho Ha. rewrite node_aligned_eq by done. split; [done|]. unfold PAGE_SIZE in Ho.
  change NODE_SIZE with 528. apply wrap64_small. unfold is_usize. lia.
Qed.

(** A node is cut off the rest of the page. *)
Lemma cas_offset_act F off spurious :
  node_aligned off +! NODE_SIZE <= PAGE_SIZE ->
  acts t (fun v => exists ma, v = in_section F ma /\ off = ma_offset ma)
    (cas_offset off (node_aligned off +! NODE_SIZE) spurious)
    (fun r v => if r : bool
                then exists ma, v = in_section ((ma_current_page ma + node_aligned off, NODE_SIZE) :: F) ma
                else at_meta F v).
Proof.
  intros Hfit. apply act_intro. intros s v g Lr Hr Nr Hlo (ma & -> & ->) Ht.
  destruct (local_meta _ _ _ _ _ _ _ Hlo) as [Hma [Ho Ha]].
  destruct (node_fits _ Ho Ha) as [He1 He2]. rewrite He2 in Hfit |- *. rewrite He1.
  apply wp_bind, wp_gets. rewrite Hma, Z.eqb_refl. destruct spurious; simpl.
  - apply wp_ret. eapply (step_view s _ g Lr Hr Nr (in_section F ma)); try done; [apply Hlo|by exists ma].
  - apply wp_bind, wp_modify, wp_ret. unfold set_offset. rewrite Hma.
    unfold PAGE_SIZE in *. change NODE_SIZE with 528 in *.
    eapply step_meta; [done| | |by eexists]; [split; simpl; [unfold PAGE_SIZE; lia|mlia]|].
    intros R Har. eapply arena_perm; [|eapply (arena_refine _ (meta_rest ma) (F ++ R)
      [(ma_current_page ma + ma_offset ma, 528);
       meta_rest {| ma_current_page := ma_current_page ma; ma_offset := ma_offset ma + 528 |}])].
    + solve_Permutation.
    + eapply arena_perm; [|exact Har]. solve_Permutation.
    + split; [|done]. constructor; [|done]. apply ext_disj_intro. simpl. lia.
    + assert (Hal : meta_rest ma ∈ F ++ meta_rest ma :: R) by (apply elem_of_app; right; by left).
      apply (arena_ok _ _ _ Har) in Hal as (_ & H16 & _). unfold meta_rest in H16. simpl in H16.
      unfold sub_ext, meta_rest, PAGE_SIZE. simpl. repeat constructor; simpl; try lia. mlia.
Qed.

Lemma map_page_act F off :
  acts t (fun v => exists ma, v = in_section F ma /\ off = ma_offset ma)
    (md_on_mem alloc_metadata_page)
    (fun p v => exists ma, off = ma_offset ma /\
       v = in_section (if p =? 0 then F else (p, PAGE_SIZE) :: F) ma /\ p mod PAGE_SIZE = 0).
Proof.
  apply acts_exists. intros ma. apply acts_assume. intros Hoff.
  apply (mem_act t _ F [] (in_section [] ma)). intros mm R Har _. unfold alloc_metadata_page, wp.
  destruct (kernel_mmap mm PAGE_SIZE) as [[p mm']|] eqn:Hk.
  - pose proof (mmap_spec mm PAGE_SIZE p mm' ltac:(done) ltac:(done) Hk) as Hf.
    eexists _, _. split; [done|]. exists ((p, PAGE_SIZE) :: F), [].
    assert (Hs : same_bytes (F ++ R) mm mm').
    { apply (same_bytes_extends _ []); [by rewrite app_nil_r|by eapply fresh_mapping_extends]. }
    apply same_bytes_app in Hs as [_ Hs]. split_and!; [done| |done|].
    + by apply (fresh_mapping_arena mm).
    + exists ma. destruct (Z.eqb_spec p 0); [lia|]. split_and!; [done|done|apply Hf].
  - eexists _, _. split; [done|]. exists F, []. split_and!; [done|done|done|]. by exists ma.
Qed.

(** The fresh page becomes the current one; the part of it beyond the old offset counts
    as the rest. *)
Lemma cas_page_act F p off current spurious :
  PAGE_SIZE < off + NODE_SIZE -> p mod PAGE_SIZE = 0 ->
  acts t (fun v => exists ma, v = in_section ((p, PAGE_SIZE) :: F) ma /\ off = ma_offset ma)
    (cas_page current p spurious)
    (fun r v => if r : bool
                then exists ma, v = in_section ((p, off) :: F) ma /\ ma_current_page ma = p /\
                                off = ma_offset ma
                else at_meta ((p, PAGE_SIZE) :: F) v).
Proof.
  intros Hoff Hp. apply act_intro. intros s v g Lr Hr Nr Hlo (ma & -> & ->) Ht.
  destruct (local_meta _ _ _ _ _ _ _ Hlo) as [Hma [Ho Ha]].
  apply wp_bind, wp_gets. rewrite Hma. destruct (_ && _).
  - apply wp_bind, wp_modify, wp_ret. unfold set_current_page. rewrite Hma.
    unfold PAGE_SIZE in *. change NODE_SIZE with 528 in *.
    eapply step_meta; [done|by split| |by eexists]. intros R Har.
    eapply arena_perm; [|eapply (arena_refine _ (p, 4096) (F ++ R)
      [(p, ma_offset ma); meta_rest {| ma_current_page := p; ma_offset := ma_offset ma |}])].
    + solve_Permutation.
    + apply (arena_drop _ [meta_rest ma]). eapply arena_perm; [|exact Har]. solve_Permutation.
    + split; [|done]. constructor; [|done]. apply ext_disj_intro. simpl. lia.
    + unfold sub_ext, meta_rest, PAGE_SIZE. simpl. repeat constructor; simpl; try lia; mlia.
  - apply wp_ret. eapply step_view; try done; [apply Hlo|by exists ma].
Qed.

(** The offset is reset: the rest begins after the first node. *)
Lemma reset_offset_act F p off :
  PAGE_SIZE < off + NODE_SIZE ->
  acts t (fun v => exists ma, v = in_section ((p, off) :: F) ma /\ ma_current_page ma = p /\ off = ma_offset ma)
    (modifyS (set_offset NODE_SIZE)) (fun _ => at_meta ((p, NODE_SIZE) :: F)).
Proof.
  intros Hoff. apply act_intro. intros s v g Lr Hr Nr Hlo (ma & -> & Hp & ->) Ht.
  destruct (local_meta _ _ _ _ _ _ _ Hlo) as [Hma [Ho Ha]].
  apply wp_modify. unfold set_offset. rewrite Hma, Hp.
  unfold PAGE_SIZE in *. change NODE_SIZE with 528 in *.
  eapply step_meta; [done| | |by eexists]; [split; simpl; [unfold PAGE_SIZE; lia|done]|].
  intros R Har. unfold meta_rest in *. rewrite Hp in Har. unfold PAGE_SIZE in *. cbn [ma_current_page ma_offset].
  assert (Har1 : arena (st_mem s) ((p, 4096) :: F ++ R)).
  { replace 4096 with (ma_offset ma + (4096 - ma_offset ma)) by lia. apply arena_merge; [lia|lia|].
    eapply arena_perm; [|exact Har]. solve_Permutation. }
  pose proof (arena_ok _ _ _ Har1 (list_elem_of_here _ _)) as (_ & H16 & _). simpl in H16.
  eapply arena_perm; [|eapply (arena_refine _ (p, 4096) (F ++ R) [(p, 528); (p + 528, 4096 - 528)])];
    [solve_Permutation|done| |].
  - split; [|done]. constructor; [|done]. apply ext_disj_intro. simpl. lia.
  - unfold sub_ext. simpl. repeat constructor; simpl; try lia; mlia.
Qed.

(** A page that lost the race goes back. *)
Lemma unmap_page_act F p :
  p mod PAGE_SIZE = 0 ->
  acts t (at_meta ((p, PAGE_SIZE) :: F)) (md_on_mem (dealloc_metadata_page p)) (fun _ => at_meta F).
Proof.
  intros Hp. apply acts_exists. intros ma.
  apply (mem_act t _ ((p, PAGE_SIZE) :: F) [] (in_section [] ma)). intros mm R Har _.
  destruct (munmap_spec mm p PAGE_SIZE) as [Hout _]; [done|done|done|].
  apply wp_modify. pose proof (same_bytes_outside _ _ _ _ Har Hout) as Hs.
  pose proof Hs as [_ Hs2]%same_bytes_app. exists F, []. split_and!; [done| |done|by exists ma].
  eapply same_bytes_arena; [done|]. by apply (arena_drop _ [_]) in Har.
Qed.
End alloc_node.
