(* ===== verification/ThreadSafe.v ===== *)
(** * The programs of the threads are safe

    [alloc] and [dealloc] as programs, verified in the logic of Interleave: from the
    assertion that the thread holds nothing, or the allocation it frees, to the
    assertion that it holds the allocation it returns, or nothing the others could miss. *)

From S2P Require Import Prelude SizeClass Memory Extents AllocSpec Page Magazine Treiber Metadata.
From S2P Require Import Metrics Headers AllocCore Global GlobalInv GlobalCache GlobalSafe Interleave Process Sharing Threads ThreadViews.
From S2P Require Import ThreadActions ThreadPools ThreadNodes.

(** ** The invariant meets the interface *)

Lemma concat_replicate_nil {A} n : concat (replicate n (@nil A)) = [].
Proof. by induction n. Qed.

(** A process before any call. *)
Lemma valid_new m n : valid (state_new m n) (replicate n (own [])) [].
Proof.
  destruct (state_new_Inv m n) as (E & (N & Hme & Hma & P & (fulls & empties & Hls & _ & HP) & HE) & Hlive).
  exists {| g_fulls := fulls; g_empties := empties; g_seen := concat fulls |}. constructor; try done.
  - simpl. by rewrite !length_replicate.
  - rewrite !fmap_replicate. change (v_pend (own [])) with (@nil (Z * alloc_kind)).
    change (view_exts (own [])) with (@nil (Z * Z)). rewrite !concat_replicate_nil.
    rewrite HE, HP in Hlive. exact Hlive.
  - intros k Hk. destruct (ls_nodes _ _ _ _ Hls k) as (nd & Hnd & _); [set_solver|]. by exists nd.
  - intros k [nd Hk]. simpl in Hk. by rewrite lookup_empty in Hk.
  - intros t v [-> _]%lookup_replicate. by constructor.
  - intros t t' v v' [-> _]%lookup_replicate _ Hi. done.
Qed.

#[global] Instance state_sharing_laws `{K : Kernel} : SharingLaws state view.
Proof.
  split.
  - done.
  - apply valid_new.
  - intros s vs L L' HL [g []]. exists g. constructor; try done. by rewrite <- HL.
  - intros s vs L [g []]. eauto.
  - intros s vs L t t' v v' [g Hsys]. by apply (sy_alone _ _ _ _ Hsys).
  - done.
  - intros t s vs L x [g Hsys] Ht. exists g. by apply sys_return.
  - intros t s vs L x [g Hsys] Ht. exists g. by apply sys_free.
  - intros t s vs L F [g Hsys] Ht. exists g. by apply (sys_drop t s vs L g F).
  - intros s vs L x a m' n [g Hsys] Hx Hch Hsub. exists g. by eapply sys_write.
  - intros B t m P. apply metrics_act.
  - intros B t m F Pd P'. apply (mem_act t m F Pd (own [])).
Qed.

(** ** The stacks *)

Section programs.
Context `{K : Kernel} {KS : KernelSpec K}.
Context (t : nat).

Lemma pop_full_safe class :
  0 <= class < POOL_SIZE_CLASSES ->
  safe t (fun v => v = own []) (pop_full_prog class)
    (fun r v => match r with
                | None => v = own []
                | Some n => exists nd, v = own_node (mag_exts class (node_magazine nd)) n nd false
                end).
Proof.
  intros Hc. unfold pop_full_prog. eapply safe_act; [by apply load_pop_act|]. intros h.
  exists (fun h v => v = seek h), (fun r v => match r with
                | None => v = own []
                | Some n => exists nd, v = own_node (mag_exts class (node_magazine nd)) n nd false
                end). split_and!; [done| |by intros b v].
  clear h. intros h. unfold seek. destruct (Z.eqb_spec h 0) as [->|H0]; [by intros v ->|].
  eapply safe_act; [by apply read_next_act|]. intros nx.
  eapply safe_weak; [intros spurious; by apply cas_pop_act|]. intros [found|[]]; by intros v Hv.
Qed.

Lemma push_full_safe class F n :
  0 <= class < POOL_SIZE_CLASSES ->
  safe t (fun v => exists nd, v = own_node (mag_exts class (node_magazine nd) ++ F) n nd true)
    (push_full_prog class n) (fun _ v => v = own F).
Proof.
  intros Hc. unfold push_full_prog. eapply safe_act; [by apply load_full_act|]. intros h.
  exists (fun _ v => exists nd, v = own_node (mag_exts class (node_magazine nd) ++ F) n nd true),
    (fun _ v => v = own F). split_and!; [done| |by intros b v].
  clear h. intros h. apply safe_exists. intros nd.
  eapply safe_act; [by apply set_next_act|]. intros [].
  apply safe_weak_last. intros spurious. eapply acts_post; [by apply (cas_push_full_act t class Hc F n
    {| node_next := h; node_magazine := node_magazine nd |})|].
  intros [found|[]] v ->; [|done]. by exists {| node_next := h; node_magazine := node_magazine nd |}.
Qed.

Lemma push_empty_safe class F n fresh :
  0 <= class < POOL_SIZE_CLASSES ->
  safe t (fun v => exists nd, v = own_node F n nd fresh) (push_empty_prog class n) (fun _ v => v = own F).
Proof.
  intros Hc. unfold push_empty_prog. eapply safe_act; [by apply load_empty_act|]. intros h.
  exists (fun _ v => exists nd, v = own_node F n nd fresh), (fun _ v => v = own F).
  split_and!; [done| |by intros b v]. clear h. intros h. apply safe_exists. intros nd.
  eapply safe_act; [by apply set_next_act|]. intros [].
  apply safe_weak_last. intros spurious. eapply acts_post; [by apply cas_push_empty_act|].
  intros [found|[]] v ->; [|done]. by eexists.
Qed.

(** ** The node allocator *)

Lemma alloc_node_round_safe F :
  safe t (at_meta F) alloc_node_round
    (fun r v => match r with
                | inl _ => at_meta F v
                | inr n => at_meta (if n =? 0 then F else (n, NODE_SIZE) :: F) v
                end).
Proof.
  unfold alloc_node_round. eapply safe_act; [apply (look_meta_act t ma_offset)|]. intros off. cbv zeta.
  apply safe_exists. intros ma. apply safe_assume. intros [-> [Ho Ha]].
  destruct (node_fits _ Ho Ha) as [Hal Hsum].
  destruct (Z.leb_spec (node_aligned (ma_offset ma) +! NODE_SIZE) PAGE_SIZE) as [Hfit|Hfull].
  - apply (safe_pre t (fun v => exists ma', v = in_section F ma' /\ ma_offset ma = ma_offset ma'));
      [intros v ->; by exists ma|].
    eapply safe_weak; [intros spurious; by apply cas_offset_act|]. intros [|]; [|by intros v].
    eapply safe_act; [apply load_page_act|]. intros page. apply safe_done.
    intros v [Hv H0]. destruct (Z.eqb_spec (page + node_aligned (ma_offset ma)) 0); [lia|done].
  - rewrite Hsum in Hfull. set (off := ma_offset ma) in *.
    apply (safe_pre t (fun v => exists ma', v = in_section F ma' /\ off = ma_offset ma'));
      [intros v ->; by exists ma|].
    eapply safe_act; [apply map_page_act|]. intros p. apply safe_exists. intros ma1.
    apply (safe_pre t (fun v => v = in_section (if p =? 0 then F else (p, PAGE_SIZE) :: F) ma1 /\
      off = ma_offset ma1 /\ p mod PAGE_SIZE = 0)); [intros v (? & ? & ?); done|].
    apply safe_assume. intros [Hoff Hp]. destruct (Z.eqb_spec p 0) as [->|H0]; [apply safe_done; intros v ->; by exists ma1|].
    eapply safe_act; [apply look_act|]. intros current.
    apply (safe_pre t (fun v => exists ma', v = in_section ((p, PAGE_SIZE) :: F) ma' /\ off = ma_offset ma'));
      [intros v ->; by exists ma1|].
    eapply safe_weak; [intros spurious; by apply cas_page_act|]. intros [|].
    + eapply safe_act; [by apply reset_offset_act|]. intros []. apply safe_done.
      intros v Hv. by destruct (Z.eqb_spec p 0).
    + eapply safe_act; [by apply unmap_page_act|]. intros []. by apply safe_done.
Qed.

(** Outside the section the thread only has the node. *)
Lemma alloc_node_safe F :
  safe t (fun v => v = own F) alloc_node_prog
    (fun n v => v = own (if n =? 0 then F else (n, NODE_SIZE) :: F)).
Proof.
  exists (at_meta F). split.
  - intros s vs L v [g Hsys] Ht -> Hal. exists (in_section F (st_meta s)).
    split_and!; [|by eexists|done]. exists g.
    apply (sys_move t s vs L g (own F) Hsys Ht _ L []); try done. constructor; simpl; try done. by intros ? [= <-].
  - exists (fun _ => at_meta F), (fun n => at_meta (if n =? 0 then F else (n, NODE_SIZE) :: F)).
    split_and!; [done|intros []; eapply ok_post; [|apply alloc_node_round_safe]; by intros [[]|n] v|].
    intros n. exists (fun v => v = own (if n =? 0 then F else (n, NODE_SIZE) :: F)).
    split; [|by intros v]. intros s vs L v [g Hsys] Ht [ma ->].
    exists (own (if n =? 0 then F else (n, NODE_SIZE) :: F)). split_and!; [|done|done]. exists g.
    by apply (sys_move t s vs L g _ Hsys Ht _ L []).
Qed.

(** ** [alloc] *)

Lemma take_cached_safe class :
  0 <= class <= 12 ->
  safe t (fun v => v = own []) (take_cached_prog t class)
    (fun r v => v = own (match r with Some b => [(b, block_size class)] | None => [] end)).
Proof.
  intros Hc. assert (H14 : 0 <= class < NUM_SIZE_CLASSES) by (unfold NUM_SIZE_CLASSES; lia).
  assert (H13 : 0 <= class < POOL_SIZE_CLASSES) by (unfold POOL_SIZE_CLASSES; lia).
  unfold take_cached_prog. eapply safe_act; [by apply pop_act|]. intros [b|]; [by apply safe_done|].
  eapply safe_act; [by apply look_free_act|]. intros f.
  apply (safe_bind t _ _ (fun r v => v = own (match r with Some b => [(b, block_size class)] | None => [] end))).
  { destruct (Magazine_is_empty f); [by apply safe_done|].
    eapply safe_act; [by apply swap_mags_act|]. intros []. by apply safe_last, pop_act. }
  intros [b|]; [by apply safe_done|]. eapply safe_bind; [by apply pop_full_safe|].
  intros [n|]; [|by apply safe_done]. apply safe_exists. intros nd.
  apply (safe_bind t _ _ (fun _ v => v = own [])); [|intros []; by apply safe_last, pop_act].
  eapply safe_act; [by apply swap_node_act|]. intros []. by apply push_empty_safe.
Qed.

Lemma alloc_miss_safe size align c :
  0 < size <= MAX_CACHE_SIZE -> align <= 8 -> size_to_class size = Some c ->
  safe t (fun v => v = own []) (alloc_miss_prog t c size (class_size c)) (returns size align).
Proof.
  intros Hs Ha Hc. pose proof (small_class_range _ _ Hc) as Hcr. unfold alloc_miss_prog.
  eapply safe_bind; [apply count_safe|]. intros []. cbv zeta.
  rewrite block_size_eq by done.
  destruct (Z.ltb_spec 1 (PAGE_SIZE / block_size c)) as [Hbpp|Hbpp]; [|by apply (alloc_own_pages_safe (SH := state_sharing) t)].
  set (n := Z.to_nat (PAGE_SIZE / block_size c - 1)).
  eapply safe_act;
    [apply (pages_act (SH := state_sharing) t 1 (fun p => carve p (block_size c) (S n))); [lia|intros p Hp; by apply page_blocks]|].
  intros [p|]; [|by apply (alloc_own_pages_safe (SH := state_sharing) t)]. apply safe_assume. intros _. rewrite carve_S.
  replace (saturating_sub (PAGE_SIZE / block_size c) 1) with (Z.of_nat n) by (unfold saturating_sub; lia).
  destruct (Z.ltb_spec 0 (Z.of_nat n)); [|lia].
  assert (H14 : 0 <= c < NUM_SIZE_CLASSES) by (unfold NUM_SIZE_CLASSES; lia).
  eapply safe_bind; [apply safe_last, (bulk_init_act t c H14 [(p, block_size c)])|].
  intros []. by apply (miss_block_safe (SH := state_sharing) t).
Qed.

(** [alloc]: the thread ends with the allocation it returns, or with nothing and null. *)
Lemma alloc_safe size align :
  layout_ok size align ->
  safe t (fun v => v = own []) (alloc_prog t size align) (returns size align).
Proof.
  intros Hlay. apply (alloc_dispatch_safe (SH := state_sharing) t size align (take_cached_prog t)
    (fun class => alloc_miss_prog t class size) (fun _ v => v = own [])); [done| |intros c ? ? ?; by apply alloc_miss_safe].
  intros c Hc. eapply ok_post; [|by apply take_cached_safe]. by intros [b|] v.
Qed.

(** ** [dealloc] *)

Lemma push_last_safe class F b :
  0 <= class <= 12 ->
  safe t (fun v => v = own ((b, block_size class) :: F))
    (atomic (on_free_mag t class (Magazine_push b)) ;; record_prog t EvFree)
    (fun _ => leaves).
Proof.
  intros Hc. eapply safe_act; [apply push_act; unfold NUM_SIZE_CLASSES; lia|]. intros pushed.
  eapply safe_pre; [|apply (record_safe t EvFree leaves)]. intros v ->. by eexists.
Qed.

Lemma dealloc_cached_safe class b :
  0 <= class <= 12 ->
  safe t (fun v => v = own [(b, block_size class)]) (dealloc_cached_prog t class b) (fun _ => leaves).
Proof.
  intros Hc. assert (H14 : 0 <= class < NUM_SIZE_CLASSES) by (unfold NUM_SIZE_CLASSES; lia).
  unfold dealloc_cached_prog. eapply safe_act; [by apply push_act|]. intros [|].
  { eapply safe_pre; [|apply (record_safe t EvFree leaves)]. intros v ->. by eexists. }
  apply (safe_bind t _ _ (fun _ v => v = own [(b, block_size class)])); [|intros []; by apply push_last_safe].
  unfold retire_free_mag_prog. eapply safe_bind; [apply alloc_node_safe|]. intros n. cbv beta.
  destruct (Z.eqb_spec n 0); [by apply safe_done|].
  eapply safe_act; [by apply fill_node_act|]. intros []. apply push_full_safe. unfold POOL_SIZE_CLASSES. lia.
Qed.

(** [dealloc] of an allocation: the thread ends with nothing the others could miss. *)
Lemma dealloc_safe x :
  0 < x.1 -> safe t (fun v => v = pending x) (dealloc_prog t x.1) (fun _ => leaves).
Proof.
  apply (dealloc_dispatch_safe (SH := state_sharing) t x (dealloc_cached_prog t)). intros c b. apply dealloc_cached_safe.
Qed.
End programs.
