(* ===== verification/Settling.v ===== *)
(** * The loops of the magazine-caching mode settle

    The compare-exchange loops of [alloc] and [dealloc] have no bound: another thread
    may win every race.  A round of a loop that was overtaken fails, and the next one,
    with the head it found, succeeds when nobody comes in between.  With ThreadSafe this
    makes the mode an instance of [SharedCalls]. *)

From S2P Require Import Prelude SizeClass Memory Extents AllocSpec Page Magazine Metadata Metrics.
From S2P Require Import Headers AllocCore Global Interleave Process Sharing ProcessSafe Threads ThreadViews ThreadSafe.

(** ** The loops *)

(** From a state whose pool is known the round of a loop computes. *)
Ltac pool_round class s Hx :=
  cbn; unfold mbind, M_bind; destruct (get_pool class s) as [[nodes p]|] eqn:Hx;
  [run_pool Hx|by rewrite (on_pool_none _ _ _ Hx)].

Lemma push_full_ends class node :
  second_round_ends (fun current =>
    atomic (on_pool class (set_node_next node current)) ;; weak (cas_full class current node)).
Proof.
  intros x s x' s1 r s2. unfold weak, atomic, cas_full, set_node_next. pool_round class s Hx.
  destruct (nodes !! node) as [nd|] eqn:Hn; cbn; [|done]. run_pool Hx.
  destruct (full_head p =? x); cbn; [done|]. intros [= <- <-]. run_pool Hx.
  rewrite lookup_insert_eq. cbn. run_pool Hx. intros [= <- <-]. eauto.
Qed.

Lemma push_empty_ends class node :
  second_round_ends (fun current =>
    atomic (on_pool class (set_node_next node current)) ;; weak (cas_empty class current node)).
Proof.
  intros x s x' s1 r s2. unfold weak, atomic, cas_empty, set_node_next. pool_round class s Hx.
  destruct (nodes !! node) as [nd|] eqn:Hn; cbn; [|done]. run_pool Hx.
  destruct (empty_head p =? x); cbn; [done|]. intros [= <- <-]. run_pool Hx.
  rewrite lookup_insert_eq. cbn. run_pool Hx. intros [= <- <-]. eauto.
Qed.

Lemma pop_full_ends class :
  second_round_ends (fun current =>
    if current =? 0 then mret (inr None)
    else
      next ← atomic (on_pool class (read_next current));
      r ← weak (cas_full class current next);
      mret (match r with inl c => inl c | inr _ => inr (Some current) end)).
Proof.
  intros x s x' s1 r s2. unfold weak, atomic, cas_full, read_next.
  destruct (x =? 0); [done|]. pool_round class s Hx.
  destruct (nodes !! x) as [nd|] eqn:Hn; cbn; [|done]. unfold mbind, M_bind. run_pool Hx.
  destruct (full_head p =? x); cbn; [done|]. intros [= <- <-].
  destruct (full_head p =? 0); cbn; [intros [= <- <-]; eauto|]. unfold mbind, M_bind. run_pool Hx.
  destruct (nodes !! full_head p) as [nd'|]; cbn; [|done]. unfold mbind, M_bind. run_pool Hx.
  intros [= <- <-]. eauto.
Qed.

Section calls.
Context `{K : Kernel}.

Lemma alloc_node_ends : second_round_ends (fun _ : unit => alloc_node_round).
Proof.
  intros x s x' s1 r s2 H _. exfalso. revert H.
  unfold alloc_node_round, weak, atomic, cas_offset, cas_page. cbn. run_m. cbn.
  destruct (node_aligned (ma_offset (st_meta s)) +! NODE_SIZE <=? PAGE_SIZE) eqn:Hfit; cbn; run_m.
  - by rewrite Z.eqb_refl.
  - unfold md_on_mem, zoom, alloc_metadata_page, mbind, M_bind. cbn.
    destruct (kernel_mmap (st_mem s) PAGE_SIZE) as [[p m']|]; cbn; [|done].
    destruct (p =? 0); cbn; [done|]. run_m. cbn. by rewrite Z.eqb_refl.
Qed.

(** ** The programs settle *)

Lemma push_full_settles class node : settles (push_full_prog class node).
Proof.
  unfold push_full_prog. settle. split_and!; [|apply push_full_ends|done]. by intros x b coin r.
Qed.

Lemma push_empty_settles class node : settles (push_empty_prog class node).
Proof.
  unfold push_empty_prog. settle. split_and!; [|apply push_empty_ends|done]. by intros x b coin r.
Qed.

Lemma pop_full_settles class : settles (pop_full_prog class).
Proof.
  unfold pop_full_prog. settle. split_and!; [|apply pop_full_ends|done].
  intros x. destruct (x =? 0); [done|]. by intros b coin r.
Qed.

Lemma alloc_node_settles : settles alloc_node_prog.
Proof.
  unfold alloc_node_prog. simpl. split_and!; [|apply alloc_node_ends|done]. intros _.
  unfold alloc_node_round. cbn [atomic mbind prog_bind loop_free]. intros offset.
  destruct (_ <=? _); cbn [atomic weak mbind prog_bind loop_free].
  - intros b []; by cbn.
  - intros p. destruct (p =? 0); [done|]. cbn. intros page b []; by cbn.
Qed.

Lemma take_cached_settles t class : settles (take_cached_prog t class).
Proof.
  pose proof push_empty_settles. pose proof pop_full_settles.
  unfold take_cached_prog, exchange_node_prog. settle.
Qed.

(** [alloc] and [dealloc] end when they run alone. *)
Lemma alloc_settles t size align : settles (alloc_prog t size align).
Proof.
  pose proof take_cached_settles.
  unfold alloc_prog, cache_hit_prog, alloc_miss_prog, alloc_own_pages_prog, miss_block_prog, alloc_large_prog,
    record_prog, count_prog, flush_prog. settle.
Qed.

Lemma dealloc_settles t ptr : settles (dealloc_prog t ptr).
Proof.
  pose proof alloc_node_settles. pose proof push_full_settles.
  unfold dealloc_prog, dealloc_cached_prog, retire_free_mag_prog, dealloc_by_page_prog, dealloc_pages_prog,
    record_prog, count_prog, flush_prog. settle.
Qed.
End calls.

(** The mode, for processes. *)
#[global] Instance state_shared_calls `{K : Kernel} {KS : KernelSpec K} : SharedCalls state view.
Proof.
  split.
  - apply alloc_safe.
  - apply dealloc_safe.
  - intros t v ->. by exists [].
  - apply alloc_settles.
  - apply dealloc_settles.
Qed.
