(* ===== verification/Concurrent.v ===== *)
(** * Concurrent clients of the global allocator

    Any number of threads inside [alloc] and [dealloc] of the magazine-caching mode at
    once, interleaved access by access, with clients that load and store in between: the
    theorems of ProcessSafe for this mode, whose section is [alloc_node], and a run of two
    threads. *)

From S2P Require Import Prelude SizeClass Memory Extents AllocSpec Page Magazine Treiber Metadata.
From S2P Require Import Metrics Headers AllocCore Global Interleave Process Sharing ProcessSafe.
From S2P Require Import Threads ThreadViews ThreadSafe Settling.

(** ** Theorems *)

Section theorems.
Context `{K : Kernel} {KS : KernelSpec K}.

(** C1: whatever the threads of a process do, interleaved access by access inside
    [alloc] and [dealloc] and with loads and stores of their own, as long as its clients
    keep to the rules of the reference heap and no two threads are inside [alloc_node]
    at once, the history of the process is a history of the reference heap: what [alloc]
    returns is null, or aligned and disjoint from every allocation in use at that moment,
    also from those whose [alloc] returned while this one was running; and every byte
    holds what was last stored in it. *)
Theorem concurrent_refines m n tr c :
  process_reach exclusive m n tr c ->
  exists h, heap_history heap_empty tr h /\
    (forall a, owns h a -> is_Some (load8 (st_mem (pr_state c)) a)) /\
    (forall a w, h_known h !! a = Some w -> load8 (st_mem (pr_state c)) a = Some w).
Proof. exact (process_refines (V := view) m n tr c). Qed.

(** C6: in every configuration reached with threads entering [alloc_node] one at a time, the
    next access of every thread inside a call returns (no access faults, no index is out of
    bounds), with and without a spurious failure of a compare-exchange, unless it enters
    [alloc_node] while another thread is inside; and when some thread is inside a call, some
    thread inside a call may go on.  The code does not keep threads from entering
    [alloc_node] together; runs in which they do are not covered. *)
Theorem concurrent_safe m n tr c :
  process_reach exclusive m n tr c ->
  (forall t th coin, pr_threads c !! t = Some th -> (entering th = true -> exclusive c t) ->
     exists r s', thread_step t coin th (pr_state c) = Ret (r, s')) /\
  ((exists t th, pr_threads c !! t = Some th /\ th_does th <> Idle) ->
   exists t th, pr_threads c !! t = Some th /\ th_does th <> Idle /\ (entering th = true -> exclusive c t)).
Proof. exact (process_progress (V := view) m n tr c). Qed.
End theorems.

(** ** A run with both threads inside *)

(** Both threads allocate at once, then thread 1 frees what thread 0 got, while thread 0
    allocates again. *)
Definition demo_first : process state := begin_alloc 1 100 8 (begin_alloc 0 100 8 (process_new (Memory [] ∅) 2)).
Definition demo_second : process state := begin_alloc 0 100 8 (begin_free 1 65552 (after (turns 20) demo_first)).
Definition demo_last : process state := after (turns 20) demo_second.

Definition demo_history : list history_event :=
  [(CallAlloc 0 100 8, 65552); (CallAlloc 1 100 8, 69648); (CallFree 1 65552, 0);
   (CallAlloc 0 100 8, 69440)].

(** Both threads have begun to allocate. *)
Lemma demo_first_reach : process_reach exclusive (Memory [] ∅) 2 [] demo_first.
Proof.
  do 2 (apply begin_alloc_reach; [|done|apply permitted_alloc; simpl; lia]). apply process_reach_new.
Qed.

Lemma demo_process_reach : process_reach exclusive (Memory [] ∅) 2 demo_history demo_last.
Proof.
  apply (hand_over_reach _ 65552 69648 demo_first (turns 20) (after (turns 20) demo_first) (turns 20)
    (drop 3 demo_history)); [exact demo_first_reach| | |done|done|]; [apply run_after| |apply run_after]; by vm_compute.
Qed.

Lemma concurrent_refines_witness :
  process_reach exclusive (Memory [] ∅) 2 demo_history demo_last /\
  exists h, heap_history heap_empty demo_history h /\
    (forall a, owns h a -> is_Some (load8 (st_mem (pr_state demo_last)) a)) /\
    (forall a w, h_known h !! a = Some w -> load8 (st_mem (pr_state demo_last)) a = Some w).
Proof. split; [exact demo_process_reach|]. exact (concurrent_refines _ _ _ _ demo_process_reach). Defined.

Lemma concurrent_safe_witness :
  process_reach exclusive (Memory [] ∅) 2 [] demo_first /\
  (forall t th coin, pr_threads demo_first !! t = Some th -> (entering th = true -> exclusive demo_first t) ->
     exists r s', thread_step t coin th (pr_state demo_first) = Ret (r, s')) /\
  exists t th, pr_threads demo_first !! t = Some th /\ th_does th <> Idle /\
    (entering th = true -> exclusive demo_first t).
Proof.
  split; [exact demo_first_reach|].
  destruct (concurrent_safe _ _ _ _ demo_first_reach) as [Hs Hp]. split; [exact Hs|]. apply Hp.
  exists 0%nat. eexists. by split.
Defined.
