(* ===== verification/Completion.v ===== *)
(** * Calls of the global allocator come to an end

    A thread of the magazine-caching mode that runs alone for a while finishes its call,
    from whatever point of the call the others left it at; and the programs of the two
    calls are the calls of the sequential model when nobody interferes. *)

From S2P Require Import Prelude SizeClass Memory Extents AllocSpec Page Magazine Metadata Metrics.
From S2P Require Import Headers AllocCore Global Interleave Process Sharing ProcessSafe Threads ThreadViews.
From S2P Require Import ThreadSafe Settling Concurrent.

Section theorems.
Context `{K : Kernel} {KS : KernelSpec K}.


(** The programs of atomic actions are the calls: run by one thread with nobody in
    between, [alloc] and [dealloc] split into their accesses give from every state the
    result, the final state or the failure of the calls of the sequential model. *)
Theorem calls_alone_sequential t size align ptr :
  same_runs (solo (alloc_prog t size align)) (AethAlloc_alloc t size align) /\
  same_runs (solo (dealloc_prog t ptr)) (AethAlloc_dealloc t ptr).
Proof. split; [apply solo_alloc|apply solo_dealloc]. Qed.
End theorems.



