(* ===== verification/Typing.v ===== *)
(** * Types of the global allocator's state, whatever the threads do

    A typing judgement for computations and for programs of Interleave: from a
    well-typed state a run does not panic, and ends, if it ends, in a well-typed state
    with a result of its type.  The state of the allocator is well typed in every
    execution of a process, with no assumption on the kernel or on [alloc_node]: no
    index of a fixed-size array is ever out of bounds, counts of magazines and the
    machine words stay in range. *)

From S2P Require Import Prelude SizeClass Memory Page Magazine Metadata Metrics Headers AllocCore.
From S2P Require Import Global GlobalInv Interleave Process Threads Concurrent.

(** ** The judgement *)

Section judgement.
Context {S : Type} (T : S -> Prop).

Definition typed {A} (m : M S A) (R : A -> Prop) : Prop :=
  forall s, T s ->
  match m s with
  | Ret (a, s') => R a /\ T s'
  | Panic => False
  | Fault | Diverge => True
  end.

Lemma typed_ret {A} (a : A) (R : A -> Prop) : R a -> typed (mret a) R.
Proof. by intros HR s Hs. Qed.

Lemma typed_bind {A B} (m : M S A) (k : A -> M S B) R R' :
  typed m R' -> (forall a, R' a -> typed (k a) R) -> typed (m ≫= k) R.
Proof.
  intros Hm Hk s Hs. specialize (Hm s Hs). unfold mbind, M_bind.
  destruct (m s) as [[a s']| | |]; try done. destruct Hm as [Ha Hs']. by apply Hk.
Qed.

(** When the value in between does not matter. *)
Lemma typed_seq {A B} (m : M S A) (k : A -> M S B) R :
  typed m (fun _ => True) -> (forall a, typed (k a) R) -> typed (m ≫= k) R.
Proof. intros Hm Hk. eapply typed_bind; [exact Hm|]. auto. Qed.

Lemma typed_getS : typed getS T.
Proof. by intros s Hs. Qed.

Lemma typed_look : typed getS (fun _ => True).
Proof. by intros s Hs. Qed.

Lemma typed_gets {A} (f : S -> A) (R : A -> Prop) : (forall s, T s -> R (f s)) -> typed (gets f) R.
Proof. intros HR s Hs. split; auto. Qed.

Lemma typed_read {A} (f : S -> A) : typed (gets f) (fun _ => True).
Proof. by apply typed_gets. Qed.

Lemma typed_modify (f : S -> S) R : R tt -> (forall s, T s -> T (f s)) -> typed (modifyS f) R.
Proof. intros HR Hf s Hs. split; auto. Qed.

Lemma typed_fault {A} (o : option A) (R : A -> Prop) :
  (forall a, o = Some a -> R a) -> typed (or_fault o) R.
Proof. intros HR s Hs. destruct o as [a|]; [|done]. split; auto. Qed.

Lemma typed_zoom {U A} (TU : U -> Prop) get put (m : M U A) R :
  (forall s, T s -> exists x, get s = Some x /\ TU x) ->
  (forall s x x', T s -> get s = Some x -> TU x' -> T (put x' s)) ->
  (forall x, TU x -> match m x with Ret (a, x') => R a /\ TU x' | Panic => False | _ => True end) ->
  typed (zoom get put m) R.
Proof.
  intros Hget Hput Hm s Hs. destruct (Hget s Hs) as (x & Hx & HU). unfold zoom. rewrite Hx.
  specialize (Hm x HU). destruct (m x) as [[a x']| | |]; try done. destruct Hm. eauto.
Qed.

(** Programs: the values that loops carry have types too. *)
Fixpoint prog_typed {A} (p : prog S A) (R : A -> Prop) : Prop :=
  match p with
  | Done a => R a
  | Act m k => exists R', typed m R' /\ forall b, R' b -> prog_typed (k b) R
  | Flip k => forall b, prog_typed (k b) R
  | Enter k | Leave k => prog_typed k R
  | Loop body x k => exists RX RB,
      RX x /\
      (forall x, RX x -> prog_typed (body x) (fun r => match r with inl x => RX x | inr b => RB b end)) /\
      forall b, RB b -> prog_typed (k b) R
  end.

Lemma prog_typed_mono {A} (R R' : A -> Prop) :
  (forall a, R a -> R' a) -> forall p : prog S A, prog_typed p R -> prog_typed p R'.
Proof.
  intros HR. fix IH 1. intros [a|C m k|k|k|k|X C body x k]; simpl.
  - apply HR.
  - intros (R1 & Hm & Hk). exists R1. split; [done|]. intros b Hb. by apply (IH (k b)), Hk.
  - intros Hk b. by apply (IH (k b)).
  - apply (IH k).
  - apply (IH k).
  - intros (RX & RB & Hx & Hb & Hk). exists RX, RB. split_and!; [done|done|].
    intros b Hr. by apply (IH (k b)), Hk.
Qed.

Lemma prog_typed_bind {A B} (f : A -> prog S B) (R : A -> Prop) (R' : B -> Prop) :
  (forall a, R a -> prog_typed (f a) R') ->
  forall p : prog S A, prog_typed p R -> prog_typed (p ≫= f) R'.
Proof.
  intros Hf. fix IH 1. intros [a|C m k|k|k|k|X C body x k]; simpl.
  - apply Hf.
  - intros (R1 & Hm & Hk). exists R1. split; [done|]. intros b Hb. by apply (IH (k b)), Hk.
  - intros Hk b. by apply (IH (k b)).
  - apply (IH k).
  - apply (IH k).
  - intros (RX & RB & Hx & Hb & Hk). exists RX, RB. split_and!; [done|done|].
    intros b Hr. by apply (IH (k b)), Hk.
Qed.

Lemma prog_typed_atomic {A} (m : M S A) R : typed m R -> prog_typed (atomic m) R.
Proof. intros Hm. by exists R. Qed.

(** A step of a typed program does not panic and leaves a typed program. *)
Lemma pstep_typed {A} coin i (p : prog S A) R :
  prog_typed p R -> typed (pstep coin i p) (fun r => prog_typed r.2 R).
Proof.
  intros Hp. destruct p as [a|C m k|k|k|k|X C body x k]; simpl in *; try (by apply typed_ret).
  - destruct Hp as (R1 & Hm & Hk). eapply typed_bind; [exact Hm|]. intros b Hb. apply typed_ret. by apply Hk.
  - apply typed_ret. apply Hp.
  - destruct Hp as (RX & RB & Hx & Hb & Hk). apply typed_ret. simpl.
    eapply prog_typed_bind; [|by apply Hb]. intros [x'|b] Hr; [|by apply Hk]. exists RX, RB. by split_and!.
Qed.
End judgement.

(** ** Magazines, counters and memory *)

Definition metrics_typed (m : Metrics) : Prop :=
  is_usize (allocs m) /\ is_usize (frees m) /\ is_usize (cache_hits m) /\
  is_usize (cache_misses m) /\ is_usize (direct_allocs m).

Definition both_typed (x : Metrics * Metrics) : Prop := metrics_typed x.1 /\ metrics_typed x.2.

(** A run that returns is typed when its result is. *)
Lemma wp_typed {S A} (T : S -> Prop) (m : M S A) R :
  (forall s, T s -> wp m (fun a s' => R a /\ T s') s) -> typed T m R.
Proof. intros Hm s Hs. destruct (Hm s Hs) as (a & s' & -> & H). exact H. Qed.

Lemma push_typed ptr : typed Magazine_wf (Magazine_push ptr) (fun _ => True).
Proof.
  apply wp_typed. intros m Hwf. destruct (decide (mag_count m = MAGAZINE_CAPACITY)) as [Hc|Hc].
  - exists false, m. split; [by apply Magazine_push_full|done].
  - destruct (Magazine_push_room ptr m Hwf) as (m' & Hr & Hwf' & _); [destruct (wf_count m Hwf); lia|].
    by exists true, m'.
Qed.

Lemma pop_typed : typed Magazine_wf Magazine_pop (fun _ => True).
Proof.
  apply wp_typed. intros m Hwf. destruct (decide (mag_count m = 0)) as [Hc|Hc].
  - exists None, m. split; [by apply Magazine_pop_empty|done].
  - destruct (Magazine_pop_some m Hwf) as (b & m' & Hr & Hwf' & _); [destruct (wf_count m Hwf); lia|].
    by exists (Some b), m'.
Qed.

Lemma bulk_init_typed base bs n : 0 <= n -> typed Magazine_wf (Magazine_bulk_init base bs n) (fun _ => True).
Proof.
  intros Hn. apply wp_typed. intros m Hwf.
  destruct (Magazine_bulk_init_spec base bs n m Hwf Hn) as (m' & Hr & Hwf' & _). by exists tt, m'.
Qed.

Lemma zero_typed : metrics_typed ThreadMetrics_new.
Proof. unfold metrics_typed, is_usize. simpl. lia. Qed.

Lemma count_event_typed e t : metrics_typed t -> metrics_typed (count_event e t).
Proof. intros (? & ? & ? & ? & ?). destruct e; split_and!; simpl; first [done|apply wrap64_range]. Qed.

Lemma count_typed e :
  typed both_typed (modifyS (fun s => (s.1, count_event e s.2))) (fun _ => True).
Proof. apply typed_modify; [done|]. intros [g t] [Hg Ht]. split; [done|by apply count_event_typed]. Qed.

(** The [fetch_add]s of a flush, whichever field they add to. *)
Lemma fetch_add_step_typed f :
  f ∈ [fetch_add_allocs; fetch_add_frees; fetch_add_hits; fetch_add_misses; fetch_add_direct; reset_counters] ->
  typed both_typed (modifyS f) (fun _ => True).
Proof.
  intros Hf. apply typed_modify; [done|]. intros [g t] [(? & ? & ? & ? & ?) Ht]. pose proof zero_typed.
  repeat (apply elem_of_cons in Hf as [->|Hf]); [..|by apply elem_of_nil in Hf];
    split; try done; split_and!; simpl; first [done|apply wrap64_range].
Qed.

(** Code that works on the memory alone: it may fault, never panic. *)
Definition no_panic {A} (m : M memory A) : Prop := typed (fun _ => True) m (fun _ => True).

Ltac no_panic :=
  repeat match goal with
  | |- typed _ (mret _) _ => by apply typed_ret
  | |- typed _ (or_fault _) _ => by apply typed_fault
  | |- typed _ getS _ => apply typed_getS
  | |- typed _ (modifyS _) _ => by apply typed_modify
  | |- typed _ (mbind _ _) _ => apply typed_seq; [|intros ?]
  | |- typed _ (match ?x with _ => _ end) _ => destruct x
  end.

Lemma find_alloc_no_panic ptr : no_panic (find_alloc ptr).
Proof.
  unfold no_panic, find_alloc, find_by_page, read_large_header, read_page_header, load64_at, load32_at. no_panic.
Qed.

Lemma read_header_no_panic a : no_panic (read_page_header a).
Proof. unfold no_panic, read_page_header, load64_at, load32_at. no_panic. Qed.

Lemma write_headers_no_panic size align pages base : no_panic (write_headers size align pages base).
Proof.
  unfold no_panic, write_headers, write_page_header, write_large_header, store64_at, store32_at. no_panic.
Qed.

Lemma store64_no_panic a v : no_panic (store64_at a v).
Proof. unfold no_panic, store64_at. no_panic. Qed.

Section kernel_memory.
Context `{K : Kernel}.

Lemma page_alloc_no_panic pages : no_panic (PageAllocator_alloc pages).
Proof.
  unfold no_panic, PageAllocator_alloc. no_panic. intros m _. by destruct (kernel_mmap m _) as [[p m']|].
Qed.

Lemma release_no_panic base h : no_panic (release_pages base h).
Proof. unfold no_panic, release_pages, PageAllocator_dealloc. no_panic. Qed.

Lemma metadata_page_no_panic : no_panic alloc_metadata_page.
Proof. intros m _. unfold alloc_metadata_page. by destruct (kernel_mmap m _) as [[p m']|]. Qed.

Lemma metadata_unmap_no_panic p : no_panic (dealloc_metadata_page p).
Proof. unfold no_panic, dealloc_metadata_page. no_panic. Qed.
End kernel_memory.

(** ** The state *)

Definition cache_typed (c : ThreadCache) : Prop :=
  mags_wf (tc_alloc_mags c) /\ mags_wf (tc_free_mags c) /\ metrics_typed (tc_metrics c).

Definition nodes_typed (nodes : gmap Z MagazineNode) : Prop :=
  map_Forall (fun _ nd => Magazine_wf (node_magazine nd)) nodes.

(** The state of a process of [n] threads. *)
Record state_typed (n : nat) (s : state) : Prop := {
  ty_pools : length (st_pools s) = Z.to_nat POOL_SIZE_CLASSES;
  ty_nodes : nodes_typed (st_nodes s);
  ty_offset : is_usize (ma_offset (st_meta s));
  ty_gmetrics : metrics_typed (st_gmetrics s);
  ty_threads : length (st_caches s) = n;
  ty_caches : Forall cache_typed (st_caches s)
}.

Lemma state_new_typed m n : state_typed n (state_new m n).
Proof.
  assert (Hm : mags_wf (replicate (Z.to_nat NUM_SIZE_CLASSES) Magazine_new))
    by (split; [done|apply Forall_replicate, Magazine_new_wf]).
  pose proof zero_typed. constructor; simpl; try done.
  - apply length_replicate.
  - by apply Forall_replicate.
Qed.

Lemma mags_wf_get l class : mags_wf l -> 0 <= class <= 12 -> exists m, arr_get l class = Some m /\ Magazine_wf m.
Proof.
  intros [Hl Hwf] Hc. destruct (arr_get_total l class) as [m Hm]; [unfold NUM_SIZE_CLASSES in Hl; lia|].
  exists m. split; [done|]. apply arr_get_lookup in Hm as [_ Hm]. by eapply Forall_lookup_1.
Qed.

Lemma mags_wf_put l i m : mags_wf l -> Magazine_wf m -> mags_wf (<[i := m]> l).
Proof. intros [Hl Hwf] Hm. split; [by rewrite length_insert|by apply Forall_insert]. Qed.

Section actions.
Context (n : nat) (t : nat) (Ht : (t < n)%nat).

Abbreviation typed_state := (typed (state_typed n)).

Lemma typed_cache s : state_typed n s -> exists c, st_caches s !! t = Some c /\ cache_typed c.
Proof.
  intros []. destruct (lookup_lt_is_Some_2 (st_caches s) t) as [c Hc]; [by rewrite ty_threads0|].
  exists c. split; [done|]. by eapply Forall_lookup_1.
Qed.

Lemma put_cache_typed s c : state_typed n s -> cache_typed c -> state_typed n (put_cache t c s).
Proof. intros [] Hc. constructor; simpl; try done; [by rewrite length_insert|by apply Forall_insert]. Qed.

Lemma md_on_mem_typed {A} (m : M memory A) : no_panic m -> typed_state (md_on_mem m) (fun _ => True).
Proof.
  intros Hm. unfold md_on_mem. apply (typed_zoom _ (fun _ => True)); [eauto|by intros s x x' []|].
  intros x _. exact (Hm x I).
Qed.

Lemma on_metrics_typed {A} (m : M (Metrics * Metrics) A) R :
  typed both_typed m R -> typed_state (on_metrics t m) R.
Proof.
  intros Hm. apply (typed_zoom _ both_typed); [| |exact Hm].
  - intros s Hs. destruct (typed_cache s Hs) as (c & Hc & _ & _ & Hmt). unfold get_metrics.
    rewrite Hc. eexists. split; [done|]. split; [by destruct Hs|done].
  - intros s x x' Hs _ [Hg Hl]. destruct (typed_cache s Hs) as (c & Hc & Ha & Hf & _).
    unfold put_metrics. rewrite Hc. destruct Hs. constructor; simpl; try done; [by rewrite length_insert|].
    by apply Forall_insert.
Qed.

Lemma set_offset_typed o : is_usize o -> typed_state (modifyS (set_offset o)) (fun _ => True).
Proof. intros Ho. apply typed_modify; [done|]. by intros s []. Qed.

Lemma cas_offset_typed e o b : is_usize o -> typed_state (cas_offset e o b) (fun _ => True).
Proof.
  intros Ho. unfold cas_offset. apply typed_seq; [by apply typed_gets|]. intros f.
  destruct (_ && _); [|by apply typed_ret].
  apply typed_seq; [by apply set_offset_typed|]. intros _. by apply typed_ret.
Qed.

Lemma cas_page_typed e p b : typed_state (cas_page e p b) (fun _ => True).
Proof.
  unfold cas_page. apply typed_seq; [by apply typed_gets|]. intros f.
  destruct (_ && _); [|by apply typed_ret].
  apply typed_seq; [apply typed_modify; [done|]; by intros s []|].
  intros _. by apply typed_ret.
Qed.

Section class.
Context (class : Z) (Hclass : 0 <= class <= 12).

Lemma on_alloc_mag_typed {A} (m : M Magazine A) R :
  typed Magazine_wf m R -> typed_state (on_alloc_mag t class m) R.
Proof.
  intros Hm. apply (typed_zoom _ Magazine_wf); [| |exact Hm].
  - intros s Hs. destruct (typed_cache s Hs) as (c & Hc & Ha & _). unfold get_alloc_mag. rewrite Hc.
    by apply mags_wf_get.
  - intros s x x' Hs _ Hx. destruct (typed_cache s Hs) as (c & Hc & Ha & Hf & Hmt).
    unfold put_alloc_mag. rewrite Hc. apply put_cache_typed; [done|].
    split_and!; simpl; [by apply mags_wf_put|done|done].
Qed.

Lemma on_free_mag_typed {A} (m : M Magazine A) R :
  typed Magazine_wf m R -> typed_state (on_free_mag t class m) R.
Proof.
  intros Hm. apply (typed_zoom _ Magazine_wf); [| |exact Hm].
  - intros s Hs. destruct (typed_cache s Hs) as (c & Hc & _ & Hf & _). unfold get_free_mag. rewrite Hc.
    by apply mags_wf_get.
  - intros s x x' Hs _ Hx. destruct (typed_cache s Hs) as (c & Hc & Ha & Hf & Hmt).
    unfold put_free_mag. rewrite Hc. apply put_cache_typed; [done|].
    split_and!; simpl; [done|by apply mags_wf_put|done].
Qed.

Lemma write_mag_typed m : Magazine_wf m -> typed Magazine_wf (modifyS (fun _ => m)) (fun _ => True).
Proof. intros Hm. by apply typed_modify. Qed.

Lemma swap_mags_typed : typed_state (swap_mags t class) (fun _ => True).
Proof.
  unfold swap_mags. eapply typed_bind; [apply on_alloc_mag_typed, typed_getS|]. intros a Ha.
  eapply typed_bind; [apply on_free_mag_typed, typed_getS|]. intros f Hf.
  apply typed_seq; [by apply on_alloc_mag_typed, write_mag_typed|]. intros _.
  by apply on_free_mag_typed, write_mag_typed.
Qed.

Lemma set_nodes_typed nodes : nodes_typed nodes -> typed_state (modifyS (set_nodes nodes)) (fun _ => True).
Proof. intros Hn. apply typed_modify; [done|]. by intros s []. Qed.

Lemma swap_node_typed node : typed_state (swap_node t class node) (fun _ => True).
Proof.
  unfold swap_node. eapply typed_bind; [apply on_alloc_mag_typed, typed_getS|]. intros a [Ha _].
  eapply typed_bind; [apply typed_getS|]. intros s Hs.
  eapply (typed_bind _ _ _ _ (fun nd => st_nodes s !! node = Some nd)); [by apply typed_fault|]. intros nd Hnd.
  pose proof (ty_nodes _ _ Hs) as Hns.
  apply typed_seq; [by apply on_alloc_mag_typed, write_mag_typed, (Hns node)|]. intros _.
  apply set_nodes_typed, map_Forall_insert_2; [|done]. split; simpl; [done|]. unfold MAGAZINE_CAPACITY. lia.
Qed.

Lemma fill_node_typed node : typed_state (fill_node t class node) (fun _ => True).
Proof.
  unfold fill_node. eapply typed_bind; [apply on_free_mag_typed, typed_getS|]. intros f Hf.
  apply typed_seq; [apply on_free_mag_typed, write_mag_typed, Magazine_new_wf|]. intros _.
  eapply typed_bind; [apply typed_getS|]. intros s Hs.
  apply set_nodes_typed, map_Forall_insert_2; [done|by destruct Hs].
Qed.

Lemma on_pool_typed {A} (m : M pool_store A) R :
  typed (fun x => nodes_typed x.1) m R -> typed_state (on_pool class m) R.
Proof.
  intros Hm. apply (typed_zoom _ (fun x => nodes_typed x.1)); [| |exact Hm].
  - intros s Hs. destruct (arr_get_total (st_pools s) class) as [p Hp];
      [rewrite (ty_pools _ _ Hs); unfold POOL_SIZE_CLASSES; lia|].
    unfold get_pool. rewrite Hp. eexists. split; [done|]. by destruct Hs.
  - intros s x x' [] _ Hx. constructor; simpl; try done. by rewrite length_insert.
Qed.

Lemma load_full_typed : typed_state (load_full class) (fun _ => True).
Proof. by apply on_pool_typed, typed_gets. Qed.

Lemma load_empty_typed : typed_state (load_empty class) (fun _ => True).
Proof. by apply on_pool_typed, typed_gets. Qed.

Lemma cas_full_typed e v b : typed_state (cas_full class e v b) (fun _ => True).
Proof.
  apply on_pool_typed. apply typed_seq; [by apply typed_gets|]. intros f.
  destruct (_ && _); [|by apply typed_ret].
  apply typed_seq; [by apply typed_modify|]. intros _. by apply typed_ret.
Qed.

Lemma cas_empty_typed e v b : typed_state (cas_empty class e v b) (fun _ => True).
Proof.
  apply on_pool_typed. apply typed_seq; [by apply typed_gets|]. intros f.
  destruct (_ && _); [|by apply typed_ret].
  apply typed_seq; [by apply typed_modify|]. intros _. by apply typed_ret.
Qed.

Lemma set_next_typed node v : typed_state (on_pool class (set_node_next node v)) (fun _ => True).
Proof.
  apply on_pool_typed. unfold set_node_next. eapply typed_bind; [apply typed_getS|]. intros x Hx. simpl in Hx.
  eapply (typed_bind _ _ _ _ (fun nd => x.1 !! node = Some nd)); [by apply typed_fault|]. intros nd Hnd.
  apply typed_modify; [done|]. intros y Hy. simpl. apply map_Forall_insert_2; [exact (Hx node nd Hnd)|done].
Qed.

Lemma read_next_typed node : typed_state (on_pool class (read_next node)) (fun _ => True).
Proof.
  apply on_pool_typed. unfold read_next. eapply typed_bind; [apply typed_getS|]. intros x _.
  apply typed_seq; [by apply typed_fault|]. intros nd. by apply typed_ret.
Qed.
End class.
End actions.

(** ** The programs *)

Lemma size_to_class_range size c : size_to_class size = Some c -> 0 <= c <= 12.
Proof. intros H. by destruct (size_to_class_inv _ _ H). Qed.

Create HintDb typing discriminated.
#[export] Hint Resolve push_typed pop_typed count_typed : typing.
#[export] Hint Extern 1 (typed both_typed (modifyS _) _) => apply fetch_add_step_typed; set_solver : typing.
#[export] Hint Resolve find_alloc_no_panic read_header_no_panic write_headers_no_panic store64_no_panic : typing.
#[export] Hint Resolve page_alloc_no_panic release_no_panic metadata_page_no_panic metadata_unmap_no_panic : typing.
#[export] Hint Resolve md_on_mem_typed on_metrics_typed cas_offset_typed cas_page_typed set_offset_typed : typing.
#[export] Hint Resolve on_alloc_mag_typed on_free_mag_typed swap_mags_typed swap_node_typed fill_node_typed : typing.
#[export] Hint Resolve load_full_typed load_empty_typed cas_full_typed cas_empty_typed : typing.
#[export] Hint Resolve set_next_typed read_next_typed wrap64_range typed_look typed_read size_to_class_range : typing.

Section programs.
Context `{K : Kernel} (n t : nat) (Ht : (t < n)%nat).

Abbreviation typed_prog p := (prog_typed (state_typed n) p (fun _ => True)).

(** Programs whose values need no types. *)
Lemma typed_prog_bind {A B} (p : prog state A) (f : A -> prog state B) :
  typed_prog p -> (forall a, typed_prog (f a)) -> typed_prog (p ≫= f).
Proof. intros Hp Hf. eapply prog_typed_bind; [|exact Hp]. auto. Qed.

Lemma typed_prog_loop {A X B} (body : X -> prog state (X + B)) x (k : B -> prog state A) :
  (forall x, typed_prog (body x)) -> (forall b, typed_prog (k b)) -> typed_prog (Loop body x k).
Proof.
  intros Hb Hk. exists (fun _ => True), (fun _ => True). split_and!; [done| |auto].
  intros y _. eapply prog_typed_mono; [|apply Hb]. by intros [].
Qed.

Lemma typed_prog_weak {A} (cas : bool -> M state A) :
  (forall b, typed (state_typed n) (cas b) (fun _ => True)) -> typed_prog (weak cas).
Proof. intros Hc b. apply prog_typed_atomic, Hc. Qed.

Ltac prog_parts :=
  cbv zeta;
  repeat match goal with
  | H : _ |- typed_prog _ => solve [apply H; eauto with typing]
  | |- typed_prog (mret _) => exact I
  | |- typed_prog (Done _) => exact I
  | |- typed_prog (Enter ?k) => change (typed_prog k)
  | |- typed_prog (Leave ?k) => change (typed_prog k)
  | |- typed_prog (atomic _) => apply prog_typed_atomic
  | |- typed_prog (weak _) => apply typed_prog_weak; intros ?
  | |- typed_prog (Loop _ _ _) => apply typed_prog_loop; intros ?
  | |- typed_prog (mbind _ _) => apply typed_prog_bind; [|intros ?]
  | |- typed_prog (match ?x with _ => _ end) => destruct x eqn:?
  | |- typed _ (gets _) _ => by apply typed_gets
  | |- typed _ _ _ => solve [eauto 6 with typing]
  end.

Lemma alloc_node_typed : typed_prog alloc_node_prog.
Proof. unfold alloc_node_prog, alloc_node_round. prog_parts. apply set_offset_typed. split; [done|reflexivity]. Qed.

Section class.
Context (class : Z) (Hclass : 0 <= class <= 12).

Lemma push_full_typed node : typed_prog (push_full_prog class node).
Proof. unfold push_full_prog. prog_parts. Qed.

Lemma push_empty_typed node : typed_prog (push_empty_prog class node).
Proof. unfold push_empty_prog. prog_parts. Qed.

Lemma pop_full_typed : typed_prog (pop_full_prog class).
Proof. unfold pop_full_prog. prog_parts. Qed.
End class.

Lemma count_prog_typed e : typed_prog (count_prog t e).
Proof. unfold count_prog. prog_parts. Qed.

Lemma flush_prog_typed : typed_prog (flush_prog t).
Proof. unfold flush_prog. prog_parts. Qed.

Lemma record_prog_typed e : typed_prog (record_prog t e).
Proof. pose proof flush_prog_typed. pose proof count_prog_typed. unfold record_prog. prog_parts. Qed.

Lemma take_cached_typed class : 0 <= class <= 12 -> typed_prog (take_cached_prog t class).
Proof.
  intros Hc. pose proof pop_full_typed. pose proof push_empty_typed.
  unfold take_cached_prog, exchange_node_prog. prog_parts.
Qed.

Lemma alloc_miss_typed class size cache_size :
  0 <= class <= 12 -> typed_prog (alloc_miss_prog t class size cache_size).
Proof.
  intros Hc. pose proof flush_prog_typed. pose proof count_prog_typed. unfold alloc_miss_prog, alloc_own_pages_prog, miss_block_prog. prog_parts.
  apply on_alloc_mag_typed, bulk_init_typed; [done|done|]. lia.
Qed.

(** [alloc] and [dealloc] are typed, whatever the arguments. *)
Lemma alloc_typed size align : typed_prog (alloc_prog t size align).
Proof.
  pose proof take_cached_typed. pose proof alloc_miss_typed. pose proof record_prog_typed.
  unfold alloc_prog, cache_hit_prog, alloc_large_prog. prog_parts.
Qed.

Lemma dealloc_typed ptr : typed_prog (dealloc_prog t ptr).
Proof.
  pose proof alloc_node_typed. pose proof push_full_typed. pose proof record_prog_typed.
  unfold dealloc_prog, dealloc_cached_prog, retire_free_mag_prog, dealloc_by_page_prog, dealloc_pages_prog.
  prog_parts.
Qed.
End programs.

(** ** Processes *)

Definition thread_typed (n : nat) (th : thread state) : Prop :=
  match th_does th with
  | Idle => True
  | InAlloc _ _ p => prog_typed (state_typed n) p (fun _ => True)
  | InFree _ p => prog_typed (state_typed n) p (fun _ => True)
  end.

Lemma thread_step_typed n t coin th :
  thread_typed n th -> typed (state_typed n) (thread_step t coin th) (fun r => thread_typed n r.1).
Proof.
  assert (Hp : forall {A} (p : prog state A) (f : bool * prog state A -> thread state),
    prog_typed (state_typed n) p (fun _ => True) ->
    (forall x, prog_typed (state_typed n) x.2 (fun _ => True) -> thread_typed n (f x)) ->
    typed (state_typed n) (x ← pstep coin (th_inside th) p; mret (f x, None : option history_event))
      (fun r => thread_typed n r.1)).
  { intros A p f Hs Hf. eapply typed_bind; [by apply pstep_typed|]. intros x Hx. apply typed_ret. by apply Hf. }
  unfold thread_step. unfold thread_typed at 1. destruct (th_does th) as [|size align p|ptr p] eqn:Hd.
  - intros _. apply typed_ret. unfold thread_typed. simpl. by rewrite Hd.
  - intros Hs. destruct p; try (by apply Hp). by apply typed_ret.
  - intros Hs. destruct p; try (by apply Hp). by apply typed_ret.
Qed.

Definition process_typed (n : nat) (c : process state) : Prop :=
  state_typed n (pr_state c) /\ length (pr_threads c) = n /\ Forall (thread_typed n) (pr_threads c).

Lemma put_thread_typed n t th s c :
  process_typed n c -> state_typed n s -> thread_typed n th -> process_typed n (put_thread t th s c).
Proof.
  intros (_ & Hn & Hf) Hs Hth. split_and!; [done|by simpl; rewrite length_insert|by apply Forall_insert].
Qed.

Section processes.
Context `{K : Kernel} (pol : process state -> nat -> Prop).

Lemma process_step_typed n tr c o c' :
  process_typed n c -> process_step pol tr c o c' -> process_typed n c'.
Proof.
  intros Hc Hst. pose proof Hc as (Hs & Hn & Hf).
  destruct Hst as [t size align Ht Hp|t ptr Ht Hp|t coin th th' o s' Ht Hex Hr|p r m' Hp Hm|a v m' Hp Hm|a v Hp Hl];
    try done.
  - apply put_thread_typed; [done|done|]. apply alloc_typed. rewrite <- Hn. by eapply lookup_lt_Some.
  - apply put_thread_typed; [done|done|]. apply dealloc_typed. rewrite <- Hn. by eapply lookup_lt_Some.
  - pose proof (thread_step_typed n t coin th (Forall_lookup_1 _ _ _ _ Hf Ht) (pr_state c) Hs) as Hst.
    rewrite Hr in Hst. destruct Hst. by apply put_thread_typed.
  - split_and!; [by destruct Hs|done|done].
Qed.

Lemma process_reach_typed m n tr c : process_reach pol m n tr c -> process_typed n c.
Proof.
  induction 1 as [|tr c o c' _ IH Hst]; [|by eapply process_step_typed].
  split_and!; [apply state_new_typed|apply length_replicate|by apply Forall_replicate].
Qed.

(** C9: whatever kernel the process runs on and however its threads interleave, also with
    several of them inside [alloc_node] at once, the state keeps its types: thirteen
    pools, fourteen magazines of each sort per thread, each with 64 cells of which at
    most 64 count as used, magazines of pool nodes alike, counters and offset that fit
    in a machine word; and no step of a thread indexes an array out of bounds (a panic). *)
Theorem process_well_typed m n tr c :
  process_reach pol m n tr c ->
  state_typed n (pr_state c) /\
  forall t th coin, pr_threads c !! t = Some th -> thread_step t coin th (pr_state c) <> Panic.
Proof.
  intros (Hs & _ & Hf)%process_reach_typed. split; [done|]. intros t th coin Ht Hp.
  pose proof (thread_step_typed n t coin th (Forall_lookup_1 _ _ _ _ Hf Ht) _ Hs) as Hst. by rewrite Hp in Hst.
Qed.
End processes.

Lemma process_well_typed_witness :
  process_reach exclusive (Memory [] ∅) 2 demo_history demo_last /\
  state_typed 2 (pr_state demo_last) /\
  forall t th coin, pr_threads demo_last !! t = Some th -> thread_step t coin th (pr_state demo_last) <> Panic.
Proof. split; [exact demo_process_reach|]. exact (process_well_typed _ _ _ _ _ demo_process_reach). Defined.
