(* ===== verification/ProcessCounts.v ===== *)
(** * What the counters count when threads interleave

    Counting ties the calls of a client to the counters when calls come one after the
    other.  Here the threads of a process are inside their calls at once, and a flush is
    interleaved between any two of its [fetch_add]s, when the shared counters are not
    those of any number of calls.  A thread inside a call has a debt: what it has yet to
    add to the counters before it returns; in the middle of a flush the debt is negative,
    since the counts of the thread are in the global counters and in its own.  Counters
    and debts together always make up the calls begun.  All this is proved of any mode
    whose calls pay their debts ([CountProgs]). *)

From S2P Require Import Prelude SizeClass Memory Extents AllocSpec Page Metrics.
From S2P Require Import Headers AllocCore Text Exporter Counting.
From S2P Require Import Interleave Process Sharing ProcessSafe.

(** ** Measures *)

(** What is counted exactly, and the calls it counts: allocations, frees, allocations
    past the caches, and hits and misses together. *)
Definition measures : list ((Metrics -> Z) * (call -> Z)) :=
  [(allocs, alloc_calls); (frees, free_calls); (direct_allocs, direct_calls);
   (fun m => cache_hits m + cache_misses m, fun c => alloc_calls c - direct_calls c)].

Lemma measures_case (P : (Metrics -> Z) -> (call -> Z) -> Prop) :
  P allocs alloc_calls -> P frees free_calls -> P direct_allocs direct_calls ->
  P (fun m => cache_hits m + cache_misses m) (fun c => alloc_calls c - direct_calls c) ->
  forall f w, (f, w) ∈ measures -> P f w.
Proof.
  intros H1 H2 H3 H4 f w Hf. unfold measures in Hf.
  repeat (apply elem_of_cons in Hf as [[= -> ->]|Hf]; [done|]). by apply elem_of_nil in Hf.
Qed.

(** Equal as machine words. *)
Definition same_word (x y : Z) : Prop := x mod 2 ^ 64 = y mod 2 ^ 64.

#[global] Instance same_word_equivalence : Equivalence same_word.
Proof. split; [done|by intros x y|]. intros x y z. unfold same_word. congruence. Qed.

Lemma same_word_add x x' y y' : same_word x x' -> same_word y y' -> same_word (x + y) (x' + y').
Proof. unfold same_word. intros Hx Hy. by rewrite Z.add_mod, Hx, Hy, <- Z.add_mod by lia. Qed.

Lemma same_word_wrap x y : same_word (x +! y) (x + y).
Proof. unfold same_word, wrap64. by rewrite Z.mod_mod by lia. Qed.

(** What a call adds to the counters; that a small allocation is a hit is as good as a
    miss. *)
Definition debt_of (c : call) : Metrics :=
  {| allocs := alloc_calls c; frees := free_calls c; cache_hits := alloc_calls c - direct_calls c;
     cache_misses := 0; direct_allocs := direct_calls c |}.

Lemma debt_of_measure f w c : (f, w) ∈ measures -> f (debt_of c) = w c.
Proof. apply (measures_case (fun f w => f (debt_of c) = w c)); simpl; lia. Qed.

Definition minus_event (e : event) (d : Metrics) : Metrics :=
  {| allocs := allocs d - is_alloc e; frees := frees d - is_free e; cache_hits := cache_hits d - is_hit e;
     cache_misses := cache_misses d - is_miss e; direct_allocs := direct_allocs d - is_direct e |}.

Lemma same_word_intro k x y : x = y + k * 2 ^ 64 -> same_word x y.
Proof. intros ->. apply Z.mod_add. lia. Qed.

(** Equal up to at most one sum that wraps. *)
Ltac one_wrap :=
  unfold wrap64;
  match goal with
  | |- context [?x mod 2 ^ 64] =>
      pose proof (Z.div_mod x (2 ^ 64) ltac:(lia)); apply (same_word_intro (- (x / 2 ^ 64))); lia
  | _ => apply (same_word_intro 0); lia
  end.

Ltac by_measures :=
  apply measures_case;
  cbn [fst snd count_event minus_event allocs frees cache_hits cache_misses direct_allocs is_alloc is_free
       is_hit is_miss is_direct fetch_add_allocs fetch_add_frees fetch_add_hits fetch_add_misses
       fetch_add_direct ThreadMetrics_new];
  one_wrap.

Ltac still_u64 :=
  unfold is_u64_snapshot; intros (? & ? & ? & ? & ?);
  cbn [fst snd allocs frees cache_hits cache_misses direct_allocs fetch_add_allocs fetch_add_frees
       fetch_add_hits fetch_add_misses fetch_add_direct];
  split_and!; (apply wrap64_range || done).

(** ** Debts of programs *)

Section debts.
Context {St : Type} {O : ModeOps St} {CO : CountOps St} {CL : CountLaws St}.

(** Thread [t] takes its counters from [c] to [c'] and pays [d - d']. *)
Definition pays (t : nat) (s s' : St) (c c' d d' : Metrics) : Prop :=
  (co s').2 = <[t := c']> (co s).2 /\
  (forall f w, (f, w) ∈ measures ->
    same_word (f (co s').1 + f c' + f d') (f (co s).1 + f c + f d)) /\
  (is_u64_snapshot (co s).1 -> is_u64_snapshot (co s').1).

Definition settled (d : Metrics) : Prop := forall f w, (f, w) ∈ measures -> same_word (f d) 0.

(** Programs that leave the counters alone. *)
Fixpoint silent {A} (p : prog St A) : Prop :=
  match p with
  | Done _ => True
  | Act m k => quiet m /\ forall b, silent (k b)
  | Flip k => forall b, silent (k b)
  | Enter k | Leave k => silent k
  | Loop body _ k => (forall x, silent (body x)) /\ forall b, silent (k b)
  end.

(** A program of thread [t], whose counters are [c], that pays the debt [d] by its end. *)
Fixpoint pledge {A} (t : nat) (p : prog St A) (c d : Metrics) : Prop :=
  match p with
  | Done _ => settled d
  | Act m k =>
      forall s a s', (co s).2 !! t = Some c -> m s = Ret (a, s') ->
      exists c' d', pays t s s' c c' d d' /\ pledge t (k a) c' d'
  | Flip k => forall b, pledge t (k b) c d
  | Enter k | Leave k => pledge t k c d
  | Loop body _ k => (forall x, silent (body x)) /\ forall b, pledge t (k b) c d
  end.

Lemma pays_quiet t s s' c d : (co s).2 !! t = Some c -> co s' = co s -> pays t s s' c c d d.
Proof. intros Hc Hs. unfold pays. rewrite Hs. split; [by rewrite list_insert_id|done]. Qed.

Lemma silent_bind {A B} (f : A -> prog St B) : forall p : prog St A,
  silent p -> (forall a, silent (f a)) -> silent (p ≫= f).
Proof.
  fix IH 1. intros [a|C m k|k|k|k|X C body x k] Hp Hf; simpl in *.
  - apply Hf.
  - destruct Hp as [Hm Hk]. split; [done|]. intros b. by apply (IH (k b)).
  - intros b. by apply (IH (k b)).
  - by apply (IH k).
  - by apply (IH k).
  - destruct Hp as [Hb Hk]. split; [done|]. intros b. by apply (IH (k b)).
Qed.

Lemma pledge_silent {A B} t c d (f : A -> prog St B) : forall p : prog St A,
  silent p -> (forall a, pledge t (f a) c d) -> pledge t (p ≫= f) c d.
Proof.
  fix IH 1. intros [a|C m k|k|k|k|X C body x k] Hp Hf; simpl in *.
  - apply Hf.
  - destruct Hp as [Hm Hk]. intros s b s' Hc Hr. exists c, d.
    split; [by apply pays_quiet, (Hm _ _ _ Hr)|]. by apply (IH (k b)).
  - intros b. by apply (IH (k b)).
  - by apply (IH k).
  - by apply (IH k).
  - destruct Hp as [Hb Hk]. split; [done|]. intros b. by apply (IH (k b)).
Qed.

(** A step of a program pays part of its debt. *)
Lemma pstep_pledge {A} t coin i (p : prog St A) c d s r s' :
  pledge t p c d -> (co s).2 !! t = Some c -> pstep coin i p s = Ret (r, s') ->
  exists c' d', pays t s s' c c' d d' /\ pledge t r.2 c' d'.
Proof.
  intros Hp Hc. assert (Hsame : pays t s s c c d d) by by apply pays_quiet.
  destruct p as [a|C m k|k|k|k|X C body x k]; simpl in *.
  - intros [= <- <-]. eauto.
  - intros (b & s1 & Hm & [= <- <-])%bind_inv. by apply Hp.
  - intros [= <- <-]. eauto.
  - intros [= <- <-]. eauto.
  - intros [= <- <-]. eauto.
  - intros [= <- <-]. destruct Hp as [Hb Hk]. exists c, d. split; [done|]. simpl.
    apply pledge_silent; [apply Hb|]. intros [x'|b]; [by split|apply Hk].
Qed.

(** ** The counters' own programs *)

(** An action on the counters of thread [t], by what it does to them. *)
Lemma pledge_metrics {A B} t (m : M (Metrics * Metrics) B) (k : B -> prog St A) c d :
  (forall g b g' c', m (g, c) = Ret (b, (g', c')) ->
     exists d', (forall f w, (f, w) ∈ measures -> same_word (f g' + f c' + f d') (f g + f c + f d)) /\
       (is_u64_snapshot g -> is_u64_snapshot g') /\ pledge t (k b) c' d') ->
  pledge t (b ← atomic (md_metrics t m); k b) c d.
Proof.
  intros Hm s b s' Hc Hr. destruct (co_metrics t m s b s' Hr) as (c0 & [g' c'] & Hc0 & Hx & Hco).
  rewrite Hc in Hc0. injection Hc0 as <-. destruct (Hm _ _ _ _ Hx) as (d' & Hf & Hu & Hp).
  exists c', d'. split; [|exact Hp]. unfold pays. rewrite Hco. done.
Qed.

Lemma pledge_count {A} t e (q : unit -> prog St A) c d :
  (forall c', pledge t (q tt) c' (minus_event e d)) -> pledge t (count_prog t e ≫= q) c d.
Proof.
  intros Hq. apply pledge_metrics. intros g b g' c' [= <- <- <-]. exists (minus_event e d).
  split; [destruct e; by_measures|]. split; [done|apply Hq].
Qed.

(** In the middle of a flush what was added already is owed back. *)
Lemma pledge_flush {A} t (q : unit -> prog St A) c d :
  (forall c', pledge t (q tt) c' d) -> pledge t (flush_prog t ≫= q) c d.
Proof.
  intros Hq. apply pledge_metrics. intros g b g' c' [= <- <- <-]. exists d. split; [by apply measures_case|]. split; [done|].
  cbn [snd]. destruct (_ <=? _); [|apply Hq].
  destruct d as [a f h ms dr].
  apply pledge_metrics. intros g1 b g' c' [= <- <- <-].
  exists {| allocs := a - allocs c; frees := f; cache_hits := h; cache_misses := ms; direct_allocs := dr |}.
  split; [by_measures|]. split; [still_u64|]. apply pledge_metrics. intros g2 b g' c' [= <- <- <-].
  exists {| allocs := a - allocs c; frees := f - frees c; cache_hits := h; cache_misses := ms; direct_allocs := dr |}.
  split; [by_measures|]. split; [still_u64|]. apply pledge_metrics. intros g3 b g' c' [= <- <- <-].
  exists {| allocs := a - allocs c; frees := f - frees c; cache_hits := h - cache_hits c; cache_misses := ms;
            direct_allocs := dr |}.
  split; [by_measures|]. split; [still_u64|]. apply pledge_metrics. intros g4 b g' c' [= <- <- <-].
  exists {| allocs := a - allocs c; frees := f - frees c; cache_hits := h - cache_hits c;
            cache_misses := ms - cache_misses c; direct_allocs := dr |}.
  split; [by_measures|]. split; [still_u64|]. apply pledge_metrics. intros g5 b g' c' [= <- <- <-].
  exists {| allocs := a - allocs c; frees := f - frees c; cache_hits := h - cache_hits c;
            cache_misses := ms - cache_misses c; direct_allocs := dr - direct_allocs c |}.
  split; [by_measures|]. split; [still_u64|]. apply pledge_metrics. intros g6 b g' c' [= <- <- <-].
  exists {| allocs := a; frees := f; cache_hits := h; cache_misses := ms; direct_allocs := dr |}.
  split; [by_measures|]. split; [done|]. apply Hq.
Qed.

Lemma pledge_record {A} t e (q : unit -> prog St A) c d :
  (forall c', pledge t (q tt) c' (minus_event e d)) -> pledge t (record_prog t e ≫= q) c d.
Proof.
  intros Hq. change (pledge t (count_prog t e ;; (flush_prog t ≫= q)) c d).
  apply pledge_count. intros c'. by apply pledge_flush.
Qed.

Lemma pledge_tail {A} t : forall (p : prog St A) c d, pledge t (p ≫= mret) c d -> pledge t p c d.
Proof.
  fix IH 1. intros [a|C m k|k|k|k|X C body x k] c d; simpl.
  - done.
  - intros Hp s a s' Hc Hr. destruct (Hp s a s' Hc Hr) as (c' & d' & H1 & H2). exists c', d'.
    split; [done|]. apply (IH (k a)). exact H2.
  - intros Hp b. apply (IH (k b)). exact (Hp b).
  - apply (IH k).
  - apply (IH k).
  - intros [Hb Hk]. split; [done|]. intros b. apply (IH (k b)). exact (Hk b).
Qed.

Lemma pledge_record_last t e c d : settled (minus_event e d) -> pledge t (record_prog t e) c d.
Proof. intros Hs. apply pledge_tail, pledge_record. by intros c'. Qed.

(** ** Silent programs *)

Lemma quiet_gets {A} (f : St -> A) : quiet (gets f).
Proof. by intros s a s' [= <- <-]. Qed.

Lemma silent_atomic {A} (m : M St A) : quiet m -> silent (atomic m).
Proof. intros Hm. by split. Qed.

Lemma silent_weak {A} (cas : bool -> M St A) : (forall b, quiet (cas b)) -> silent (weak cas).
Proof. intros Hc b. by apply silent_atomic. Qed.

(** Nothing is owed. *)
Lemma settled_intro d :
  allocs d = 0 -> frees d = 0 -> direct_allocs d = 0 -> cache_hits d + cache_misses d = 0 -> settled d.
Proof.
  intros H1 H2 H3 H4. unfold settled. apply (measures_case (fun f _ => same_word (f d) 0));
    rewrite ?H1, ?H2, ?H3, ?H4; reflexivity.
Qed.

End debts.

Ltac hush :=
  repeat match goal with
  | |- silent (let _ := _ in _) => cbv zeta
  | H : _ |- silent _ => solve [apply H]
  | |- silent (mret _) => exact I
  | |- silent (Done _) => exact I
  | |- silent (Enter ?k) => change (silent k)
  | |- silent (Leave ?k) => change (silent k)
  | |- silent (atomic _) => apply silent_atomic
  | |- silent (weak _) => apply silent_weak; intros ?
  | |- silent (Loop _ _ _) => split; intros ?; cbv beta
  | |- silent (mbind _ _) => apply silent_bind; [|intros ?]
  | |- silent (match ?x with _ => _ end) => destruct x
  | |- quiet _ => solve [eauto 2 with counting | quiet_code]
  end.

Section parts.
Context {St : Type} {O : ModeOps St} {CO : CountOps St} {CL : CountLaws St} `{K : Kernel} (t : nat).

Lemma cache_hit_pledge block size c d :
  settled (minus_event EvHit d) -> pledge t (cache_hit_prog t block size) c d.
Proof. intros Hd. apply pledge_record. intros c'. apply pledge_silent; [hush|]. by intros a. Qed.

Lemma miss_block_pledge base size c d : settled d -> pledge t (miss_block_prog t base size) c d.
Proof. intros Hd. apply pledge_silent; [hush|]. intros a. apply pledge_flush. by intros c'. Qed.

Lemma own_pages_pledge size bs c d : settled d -> pledge t (alloc_own_pages_prog t size bs) c d.
Proof.
  intros Hd. apply pledge_silent; [hush|]. intros [base|]; [|done]. by apply miss_block_pledge.
Qed.

Lemma alloc_large_pledge size align c d :
  settled (minus_event EvDirect d) -> pledge t (alloc_large_prog t size align) c d.
Proof.
  intros Hd. apply pledge_record. intros c'. cbv zeta. apply pledge_silent; [hush|].
  intros [base|]; [|done]. apply pledge_tail, pledge_silent; [hush|]. by intros a.
Qed.

(** A miss: the blocks of a fresh page are cached by [refill]. *)
Lemma miss_pledge size cs (refill : Z -> prog St unit) c d :
  (forall base, silent (refill base)) -> settled (minus_event EvMiss d) ->
  pledge t (count_prog t EvMiss ;;
            if 1 <? PAGE_SIZE / cs then
              r ← atomic (md_on_mem (PageAllocator_alloc 1));
              match r with
              | Some base => refill base ;; miss_block_prog t base size
              | None => alloc_own_pages_prog t size cs
              end
            else alloc_own_pages_prog t size cs) c d.
Proof.
  intros Hre Hd. apply pledge_count. intros c'. destruct (1 <? _); [|by apply own_pages_pledge].
  apply pledge_silent; [hush|]. intros [base|]; [|by apply own_pages_pledge].
  apply pledge_silent; [apply Hre|]. intros _. by apply miss_block_pledge.
Qed.

Lemma pages_pledge base h c d : settled (minus_event EvFree d) -> pledge t (dealloc_pages_prog t base h) c d.
Proof. intros Hd. apply pledge_silent; [hush|]. intros _. by apply pledge_record_last. Qed.

(** The dispatch of [alloc] and [dealloc]: they pay what their calls are counted as. *)
(** Every request that goes to the cache has a class. *)
Lemma cached_class size : size <= MAX_CACHE_SIZE -> exists c, size_to_class (Z.max (round_up_pow2 size) 16) = Some c.
Proof.
  intros Hs. destruct (Z.ltb_spec 0 size) as [H0|H0].
  - destruct (size_to_class_total size) as (c & Hc & _); [unfold MAX_CACHE_SIZE in Hs; lia|]. exists c. by rewrite (size_to_class_rounded size c Hc).
  - exists 0. replace (Z.max (round_up_pow2 size) 16) with 16; [done|]. unfold round_up_pow2, leading_zeros.
    destruct (size =? 0); [done|]. destruct (is_power_of_two size); [lia|]. by destruct size as [|z|z].
Qed.

Lemma alloc_dispatch_pledge size align (take : Z -> prog St (option Z)) (miss : Z -> Z -> prog St Z) c :
  (forall class, silent (take class)) ->
  (forall class cs c d, settled (minus_event EvMiss d) -> pledge t (miss class cs) c d) ->
  pledge t
    (if size =? 0 then mret 0
     else if (size <=? MAX_CACHE_SIZE) && (align <=? 8) then
       let cache_size := Z.max (round_up_pow2 size) 16 in
       match size_to_class cache_size with
       | Some class =>
           r ← take class;
           match r with Some block => cache_hit_prog t block size | None => miss class cache_size end
       | None => alloc_large_prog t size align
       end
     else alloc_large_prog t size align) c (debt_of (CallAlloc t size align)).
Proof.
  intros Htake Hmiss. destruct (Z.eqb_spec size 0) as [->|Hne]; [by apply settled_intro|].
  assert (Hd : direct_calls (CallAlloc t size align) = if cacheable size align then 0 else 1).
  { simpl. destruct (Z.eqb_spec size 0); [done|]. simpl. done. }
  assert (Ha : alloc_calls (CallAlloc t size align) = 1) by (simpl; by destruct (Z.eqb_spec size 0)).
  unfold cacheable in Hd. destruct ((size <=? MAX_CACHE_SIZE) && (align <=? 8)) eqn:Hc.
  - destruct (cached_class size) as [cl Hcl]; [apply andb_true_iff in Hc; lia|]. cbv zeta.
    rewrite Hcl. apply pledge_silent; [apply Htake|].
    intros [block|]; [apply cache_hit_pledge|apply Hmiss]; unfold debt_of; rewrite Ha, Hd; by apply settled_intro.
  - apply alloc_large_pledge. unfold debt_of. rewrite Ha, Hd. by apply settled_intro.
Qed.

Lemma dealloc_dispatch_pledge ptr (cached : Z -> Z -> prog St unit) c :
  (forall class p c d, settled (minus_event EvFree d) -> pledge t (cached class p) c d) ->
  pledge t
    (if ptr =? 0 then mret tt
     else
       r ← atomic (md_on_mem (find_alloc ptr));
       match r with
       | FLarge base h | FPage base h => dealloc_pages_prog t base h
       | FSmall size_ptr maybe_size =>
           match size_to_class (Z.max (round_up_pow2 maybe_size) 16) with
           | Some class => cached class size_ptr
           | None => dealloc_by_page_prog t ptr
           end
       end) c (debt_of (CallFree t ptr)).
Proof.
  intros Hcached. destruct (ptr =? 0) eqn:Hp.
  { unfold debt_of. cbn [alloc_calls free_calls direct_calls]. rewrite Hp. by apply settled_intro. }
  assert (Hlast : settled (minus_event EvFree (debt_of (CallFree t ptr)))).
  { unfold debt_of. cbn [alloc_calls free_calls direct_calls]. rewrite Hp. by apply settled_intro. }
  apply pledge_silent; [hush|]. intros [base h|sp ms|base h]; try by apply pages_pledge.
  destruct (size_to_class _) as [class|]; [by apply Hcached|].
  apply pledge_silent; [hush|]. intros h. by apply pages_pledge.
Qed.
End parts.

(** ** The counters of a process *)

Definition sum_of {A} (f : A -> Z) (l : list A) : Z := foldr (fun x z => f x + z) 0 l.

Lemma sum_of_app {A} (f : A -> Z) l1 l2 : sum_of f (l1 ++ l2) = sum_of f l1 + sum_of f l2.
Proof. induction l1 as [|x l1 IH]; simpl; [done|]. rewrite IH. lia. Qed.

Lemma sum_of_insert {A} (f : A -> Z) l i x y : l !! i = Some x -> sum_of f (<[i := y]> l) = sum_of f l + f y - f x.
Proof.
  revert i. induction l as [|z l IH]; intros [|i] H; simplify_eq/=; [lia|]. rewrite (IH i H). lia.
Qed.

(** A sum of terms that are each nothing, as words. *)
Lemma sum_of_zero {A} (f : A -> Z) l : (forall x, x ∈ l -> same_word (f x) 0) -> same_word (sum_of f l) 0.
Proof.
  induction l as [|x l IH]; intros Hl; [reflexivity|]. change 0 with (0 + 0).
  apply same_word_add; [apply Hl; by left|]. apply IH. intros y Hy. apply Hl. by right.
Qed.

Lemma same_word_elim x y : same_word x y -> exists k, x = y + k * 2 ^ 64.
Proof.
  intros H. exists (x / 2 ^ 64 - y / 2 ^ 64). unfold same_word in H.
  pose proof (Z.div_mod x (2 ^ 64) ltac:(lia)). pose proof (Z.div_mod y (2 ^ 64) ltac:(lia)). lia.
Qed.

(** Calls as the history of a process shows them, and those that it does not show yet. *)
Definition calls_shown (w : call -> Z) (tr : list history_event) : Z := sum_of (fun e => w e.1) tr.

(** A mode whose calls pay what they are counted as. *)
Class CountProgs (St : Type) {O : ModeOps St} {CO : CountOps St} {MP : ModeProgs St} : Prop := {
  cp_laws :: CountLaws St;
  cp_new m n : co (mp_new m n) = (GlobalMetrics_new, replicate n ThreadMetrics_new);
  cp_alloc t size align c : pledge t (mp_alloc t size align) c (debt_of (CallAlloc t size align));
  cp_dealloc t ptr c : pledge t (mp_dealloc t ptr) c (debt_of (CallFree t ptr))
}.

Section processes.
Context {St : Type} {O : ModeOps St} {MP : ModeProgs St} {CO : CountOps St} {CP : CountProgs St}.

Definition under_way (w : call -> Z) (th : thread St) : Z :=
  match th_does th with
  | InAlloc size align _ => w (CallAlloc 0 size align)
  | _ => 0
  end.

(** A thread inside a call pays its debt by the end of it. *)
Definition thread_pledge (t : nat) (th : thread St) (s : St) (d : Metrics) : Prop :=
  exists c, (co s).2 !! t = Some c /\
    match th_does th with
    | Idle => settled d
    | InAlloc _ _ p => pledge t p c d
    | InFree _ p => pledge t p c d
    end.

(** The threads' debts are [ds]; counters and debts make up the calls begun. *)
Record counted (tr : list history_event) (c : process St) (ds : list Metrics) : Prop := {
  cd_debts : length ds = length (pr_threads c);
  cd_threads t th d : pr_threads c !! t = Some th -> ds !! t = Some d -> thread_pledge t th (pr_state c) d;
  cd_calls f w : (f, w) ∈ measures ->
    same_word (total f (co (pr_state c)).1 (co (pr_state c)).2 + sum_of f ds)
      (calls_shown w tr + sum_of (under_way w) (pr_threads c));
  cd_u64 : is_u64_snapshot (co (pr_state c)).1
}.

Lemma counted_thread tr c ds t th :
  counted tr c ds -> pr_threads c !! t = Some th ->
  exists d, ds !! t = Some d /\ thread_pledge t th (pr_state c) d.
Proof.
  intros [] Ht. destruct (lookup_lt_is_Some_2 ds t) as [d Hd]; [|eauto].
  rewrite cd_debts0. by eapply lookup_lt_Some.
Qed.

(** One thread moves: the others and their counters stay. *)
Lemma counted_move tr c ds t th d o th' s' m m' d' :
  counted tr c ds -> pr_threads c !! t = Some th -> ds !! t = Some d ->
  (co (pr_state c)).2 !! t = Some m -> (co s').2 = <[t := m']> (co (pr_state c)).2 ->
  thread_pledge t th' s' d' -> (is_u64_snapshot (co (pr_state c)).1 -> is_u64_snapshot (co s').1) ->
  (forall f w, (f, w) ∈ measures ->
     same_word (f (co s').1 + f m' + f d' + under_way w th)
       (f (co (pr_state c)).1 + f m + f d + calls_shown w (option_list o) + under_way w th')) ->
  counted (tr ++ option_list o) (put_thread t th' s' c) (<[t := d']> ds).
Proof.
  intros [] Ht Hd Hm Hm' Hth H64 Hf. constructor; cbn [put_thread pr_state pr_threads]; [| | |by apply H64].
  - by rewrite !length_insert.
  - intros u thu du Hu Hdu. destruct (decide (u = t)) as [->|Hne].
    + rewrite list_lookup_insert_eq in Hu by (by eapply lookup_lt_Some).
      rewrite list_lookup_insert_eq in Hdu by (by eapply lookup_lt_Some). by simplify_eq.
    + rewrite list_lookup_insert_ne in Hu by done. rewrite list_lookup_insert_ne in Hdu by done.
      destruct (cd_threads0 u thu du Hu Hdu) as (cu & Hcu & Hp). exists cu. split; [|done].
      by rewrite Hm', list_lookup_insert_ne.
  - intros f w Hfw. rewrite Hm', (total_insert f (co (pr_state c)).1 _ _ t m m' Hm), (sum_of_insert f _ _ _ d' Hd).
    rewrite (sum_of_insert (under_way w) _ _ _ th' Ht). unfold calls_shown. rewrite sum_of_app.
    destruct (same_word_elim _ _ (cd_calls0 f w Hfw)) as [k Hk].
    destruct (same_word_elim _ _ (Hf f w Hfw)) as [k' Hk'].
    unfold calls_shown in *. apply (same_word_intro (k + k')). lia.
Qed.

(** The weights of calls do not depend on who calls. *)
Lemma measure_caller f w t size align :
  (f, w) ∈ measures -> w (CallAlloc t size align) = w (CallAlloc 0 size align).
Proof. by apply (measures_case (fun _ w => w (CallAlloc t size align) = w (CallAlloc 0 size align))). Qed.

Lemma counted_new m n : counted [] (process_new m n) (replicate n GlobalMetrics_new).
Proof.
  constructor; cbn [process_new pr_state pr_threads]; rewrite ?cp_new; cbn [fst snd].
  - by rewrite !length_replicate.
  - intros t th d [-> Ht]%lookup_replicate [-> _]%lookup_replicate. exists ThreadMetrics_new.
    rewrite cp_new. split; [by apply lookup_replicate_2|by apply settled_intro].
  - intros f w Hf.
    assert (Hz : f GlobalMetrics_new = 0) by (by apply (measures_case (fun f _ => f GlobalMetrics_new = 0)) with w).
    assert (Hr : forall k, sum_of f (replicate k GlobalMetrics_new) = 0)
      by (intros k; induction k as [|k IH]; simpl; [done|]; rewrite IH; lia).
    assert (Hu : sum_of (under_way w) (replicate n idle) = 0) by (clear; by induction n).
    change (same_word (f GlobalMetrics_new + sum_of f (replicate n GlobalMetrics_new)
      + sum_of f (replicate n GlobalMetrics_new)) (0 + sum_of (under_way w) (replicate n idle))).
    rewrite Hz, !Hr, Hu. reflexivity.
  - exact zero_u64.
Qed.

(** A call begins with the debt of its weight. *)
Lemma counted_begin tr c ds t o th' call :
  counted tr c ds -> pr_threads c !! t = Some idle ->
  (forall m, (co (pr_state c)).2 !! t = Some m -> thread_pledge t th' (pr_state c) (debt_of call)) ->
  (forall f w, (f, w) ∈ measures -> w call = calls_shown w (option_list o) + under_way w th') ->
  exists ds', counted (tr ++ option_list o) (put_thread t th' (pr_state c) c) ds'.
Proof.
  intros Hc Ht Hth Hw. destruct (counted_thread _ _ _ _ _ Hc Ht) as (d & Hd & m & Hm & Hset).
  exists (<[t := debt_of call]> ds). eapply (counted_move tr c ds t idle d o); try done.
  - by rewrite list_insert_id.
  - by apply (Hth m).
  - intros f w Hf. rewrite (debt_of_measure f w call Hf), (Hw f w Hf). change (under_way w idle) with 0.
    destruct (same_word_elim _ _ (Hset f w Hf)) as [k Hk]. apply (same_word_intro (- k)). lia.
Qed.

(** A step inside a call. *)
Lemma counted_pstep {A} tr c ds t th coin (p : prog St A) (f : bool * prog St A -> thread St) r s' :
  counted tr c ds -> pr_threads c !! t = Some th ->
  (forall d, thread_pledge t th (pr_state c) d -> exists m, (co (pr_state c)).2 !! t = Some m /\ pledge t p m d) ->
  (forall s d m x, (co s).2 !! t = Some m -> pledge t x.2 m d -> thread_pledge t (f x) s d) ->
  (forall x w, under_way w (f x) = under_way w th) ->
  pstep coin (th_inside th) p (pr_state c) = Ret (r, s') ->
  exists ds', counted tr (put_thread t (f r) s' c) ds'.
Proof.
  intros Hc Ht Hp Hth Hw Hr. destruct (counted_thread _ _ _ _ _ Hc Ht) as (d & Hd & Hpl).
  destruct (Hp d Hpl) as (m & Hm & Hpm). destruct (pstep_pledge _ _ _ _ _ _ _ _ _ Hpm Hm Hr) as (m' & d' & (Hco & Hpay & Hu) & Hp').
  exists (<[t := d']> ds). rewrite <- (app_nil_r tr). change [] with (option_list (@None history_event)).
  eapply (counted_move tr c ds t th d None); try done.
  - apply (Hth _ _ m'); [|done]. rewrite Hco, list_lookup_insert_eq; [done|by eapply lookup_lt_Some].
  - intros g w Hg. rewrite (Hw r w). destruct (same_word_elim _ _ (Hpay g w Hg)) as [k Hk].
    apply (same_word_intro k). change (calls_shown w (option_list None)) with 0. lia.
Qed.

(** The end of a call, which owes nothing any more. *)
Lemma counted_end tr c ds t th o :
  counted tr c ds -> pr_threads c !! t = Some th ->
  (forall d, thread_pledge t th (pr_state c) d -> settled d) ->
  (forall f w, (f, w) ∈ measures -> under_way w th = calls_shown w (option_list o)) ->
  exists ds', counted (tr ++ option_list o) (put_thread t idle (pr_state c) c) ds'.
Proof.
  intros Hc Ht Hset Hw. destruct (counted_thread _ _ _ _ _ Hc Ht) as (d & Hd & Hpl).
  pose proof (Hset d Hpl) as Hs. destruct Hpl as (m & Hm & _). exists (<[t := d]> ds).
  eapply (counted_move tr c ds t th d o); try done.
  - by rewrite list_insert_id.
  - by exists m.
  - intros f w Hf. rewrite (Hw f w Hf). change (under_way w idle) with 0. apply (same_word_intro 0). lia.
Qed.

Lemma counted_thread_step tr c ds t th coin th' o s' :
  counted tr c ds -> pr_threads c !! t = Some th -> thread_step t coin th (pr_state c) = Ret ((th', o), s') ->
  exists ds', counted (tr ++ option_list o) (put_thread t th' s' c) ds'.
Proof.
  intros Hc Ht. unfold thread_step. destruct (th_does th) as [|size align p|ptr p] eqn:Hd.
  - intros [= <- <- <-]. exists ds. simpl. rewrite app_nil_r. unfold put_thread.
    rewrite list_insert_id by done. by destruct c.
  - assert (Hpl : forall d, thread_pledge t th (pr_state c) d ->
      exists m, (co (pr_state c)).2 !! t = Some m /\ pledge t p m d).
    { intros d (m & Hm & Hp). rewrite Hd in Hp. eauto. }
    assert (Hf : forall s d m x, (co s).2 !! t = Some m -> pledge t x.2 m d ->
      thread_pledge t {| th_does := InAlloc size align x.2; th_inside := x.1 |} s d) by (intros s d m x ? ?; by exists m).
    assert (Hw : forall (x : bool * prog St Z) w,
      under_way w {| th_does := InAlloc size align x.2; th_inside := x.1 |} = under_way w th)
      by (intros x w; unfold under_way; by rewrite Hd).
    destruct p as [a| | | | |];
      [|intros (r & s1 & Hr & [= <- <- <-])%bind_inv; simpl; rewrite app_nil_r;
        by eapply (counted_pstep tr c ds t th coin _ (fun r => {| th_does := InAlloc size align r.2; th_inside := r.1 |}))..].
    intros [= <- <- <-]. eapply (counted_end tr c ds t th (Some (CallAlloc t size align, a))); try done.
    + intros d Hth. by destruct (Hpl d Hth) as (m & _ & Hp).
    + intros f w Hfw. unfold under_way, calls_shown. rewrite Hd. simpl.
      rewrite <- (measure_caller f w t size align Hfw). lia.
  - assert (Hpl : forall d, thread_pledge t th (pr_state c) d ->
      exists m, (co (pr_state c)).2 !! t = Some m /\ pledge t p m d).
    { intros d (m & Hm & Hp). rewrite Hd in Hp. eauto. }
    assert (Hf : forall s d m x, (co s).2 !! t = Some m -> pledge t x.2 m d ->
      thread_pledge t {| th_does := InFree ptr x.2; th_inside := x.1 |} s d) by (intros s d m x ? ?; by exists m).
    assert (Hw : forall (x : bool * prog St unit) w,
      under_way w {| th_does := InFree ptr x.2; th_inside := x.1 |} = under_way w th)
      by (intros x w; unfold under_way; by rewrite Hd).
    destruct p as [a| | | | |];
      [|intros (r & s1 & Hr & [= <- <- <-])%bind_inv; simpl; rewrite app_nil_r;
        by eapply (counted_pstep tr c ds t th coin _ (fun r => {| th_does := InFree ptr r.2; th_inside := r.1 |}))..].
    intros [= <- <- <-]. eapply (counted_end tr c ds t th None); try done.
    + intros d Hth. by destruct (Hpl d Hth) as (m & _ & Hp).
    + intros f w Hfw. unfold under_way, calls_shown. by rewrite Hd.
Qed.

(** Steps of the client between the calls do not touch the counters. *)
Lemma counted_client_step tr c ds cl r s' :
  counted tr c ds -> co s' = co (pr_state c) ->
  (forall f w, (f, w) ∈ measures -> w cl = 0) ->
  counted (tr ++ [(cl, r)]) {| pr_state := s'; pr_threads := pr_threads c |} ds.
Proof.
  intros [] Hs Hw. constructor; cbn [pr_state pr_threads]; rewrite ?Hs; [done| | |done].
  - intros t th d Ht Hd. destruct (cd_threads0 t th d Ht Hd) as (m & Hm & Hp). exists m. by rewrite Hs.
  - intros f w Hf. unfold calls_shown. rewrite sum_of_app. cbn [sum_of foldr fst]. rewrite (Hw f w Hf), !Z.add_0_r.
    by apply cd_calls0.
Qed.

Lemma process_reach_counted pol m n tr c : process_reach pol m n tr c -> exists ds, counted tr c ds.
Proof.
  induction 1 as [|tr c o c' _ [ds Hc] Hst]; [eexists; apply counted_new|].
  destruct Hst as [t size align Ht Hp|t ptr Ht Hp|t coin th th' o s' Ht Hex Hr|p r m' Hp Hm|a v m' Hp Hm|a v Hp Hl].
  - apply (counted_begin tr c ds t None _ (CallAlloc t size align)); [done|done| |].
    + intros mt Hm. exists mt. split; [done|]. apply cp_alloc.
    + intros f w Hf. unfold under_way. simpl. by rewrite (measure_caller f w t size align Hf).
  - apply (counted_begin tr c ds t (Some (CallFree t ptr, 0)) _ (CallFree t ptr)); [done|done| |].
    + intros mt Hm. exists mt. split; [done|]. apply cp_dealloc.
    + intros f w Hf. unfold calls_shown, under_way. simpl. lia.
  - by eapply counted_thread_step.
  - exists ds. replace c with {| pr_state := pr_state c; pr_threads := pr_threads c |} by (by destruct c).
    apply counted_client_step; [done|done|]. by apply (measures_case (fun _ w => w (CallSize p) = 0)).
  - exists ds. apply counted_client_step; [done|apply co_set|]. by apply (measures_case (fun _ w => w (CallStore a v) = 0)).
  - exists ds. replace c with {| pr_state := pr_state c; pr_threads := pr_threads c |} by (by destruct c).
    apply counted_client_step; [done|done|]. by apply (measures_case (fun _ w => w (CallLoad a) = 0)).
Qed.

(** When no thread is inside a call, nothing is owed and nothing is under way. *)
Lemma counted_idle tr c ds f w :
  counted tr c ds -> Forall (fun th => th_does th = Idle) (pr_threads c) -> (f, w) ∈ measures ->
  same_word (total f (co (pr_state c)).1 (co (pr_state c)).2) (calls_shown w tr).
Proof.
  intros Hc Hidle Hf. rewrite Forall_forall in Hidle.
  assert (Hd : same_word (sum_of f ds) 0).
  { apply sum_of_zero. intros d [t Hd]%list_elem_of_lookup.
    destruct (lookup_lt_is_Some_2 (pr_threads c) t) as [th Ht];
      [rewrite <- (cd_debts _ _ _ Hc); by eapply lookup_lt_Some|].
    destruct (cd_threads _ _ _ Hc t th d Ht Hd) as (m & _ & Hset).
    rewrite (Hidle th) in Hset by (by eapply list_elem_of_lookup_2). by apply Hset with w. }
  assert (Hu : same_word (sum_of (under_way w) (pr_threads c)) 0).
  { apply sum_of_zero. intros th Hth. unfold under_way. by rewrite (Hidle th Hth). }
  pose proof (cd_calls _ _ _ Hc f w Hf) as Htot.
  destruct (same_word_elim _ _ Hd) as [k1 H1]. destruct (same_word_elim _ _ Hu) as [k2 H2].
  destruct (same_word_elim _ _ Htot) as [k3 H3]. apply (same_word_intro (k3 + k2 - k1)). lia.
Qed.

Lemma total_hits_misses g l :
  total (fun m => cache_hits m + cache_misses m) g l = total cache_hits g l + total cache_misses g l.
Proof. unfold total. induction l as [|x l IH]; simpl in *; lia. Qed.

Lemma calls_shown_minus w1 w2 tr : calls_shown (fun c => w1 c - w2 c) tr = calls_shown w1 tr - calls_shown w2 tr.
Proof. unfold calls_shown. induction tr as [|e tr IH]; simpl; [done|]. rewrite IH. lia. Qed.

(** Whenever no thread is inside a call, the exporter shows the calls of the history. *)
Lemma process_counts pol m n tr c :
  process_reach pol m n tr c -> Forall (fun th => th_does th = Idle) (pr_threads c) ->
  shows_calls (pr_state c) (calls_shown alloc_calls tr) (calls_shown free_calls tr) (calls_shown direct_calls tr).
Proof.
  intros Hr Hidle. destruct (process_reach_counted _ _ _ _ _ Hr) as [ds Hc].
  pose proof (fun f w => counted_idle tr c ds f w Hc Hidle) as Hall.
  exists (co (pr_state c)).1. split; [apply shown_scraped, (cd_u64 _ _ _ Hc)|].
  split_and!; [by apply (Hall allocs alloc_calls); left|by apply (Hall frees free_calls); right; left
    |by apply (Hall direct_allocs direct_calls); do 2 right; left|].
  rewrite <- total_hits_misses, <- calls_shown_minus. apply Hall. do 3 right. left.
Qed.
End processes.
