(* ===== verification/ThreadCounts.v ===== *)
(** * The counters of the magazine-caching mode when threads interleave

    The calls of the mode pay their debts to the counters (ProcessCounts): everything but
    the counters' own programs is silent. *)

From S2P Require Import Prelude SizeClass Memory Extents AllocSpec Page Magazine Metadata Metrics.
From S2P Require Import Headers AllocCore Global GlobalInv GlobalSafe Allocator Text Exporter Counting.
From S2P Require Import Interleave Process Sharing ProcessSafe ProcessCounts.
From S2P Require Import Threads ThreadViews ThreadSafe Settling Concurrent.

(** ** Actions that leave the counters alone *)

Lemma quiet_cas_offset e o b : quiet (cas_offset e o b).
Proof. unfold cas_offset. apply quiet_bind; [apply quiet_gets|]. intros x. destruct (_ && _); [|apply quiet_ret].
  apply quiet_bind; [by apply quiet_modify|]. intros _. apply quiet_ret. Qed.

Lemma quiet_cas_page e p b : quiet (cas_page e p b).
Proof. unfold cas_page. apply quiet_bind; [apply quiet_gets|]. intros x. destruct (_ && _); [|apply quiet_ret].
  apply quiet_bind; [by apply quiet_modify|]. intros _. apply quiet_ret. Qed.

Lemma quiet_set_offset o : quiet (modifyS (set_offset o)).
Proof. by apply quiet_modify. Qed.

Lemma quiet_stack_cas class e v b : quiet (cas_full class e v b) /\ quiet (cas_empty class e v b).
Proof. unfold cas_full, cas_empty. split; quiet_code. Qed.

Lemma quiet_cas_full class e v b : quiet (cas_full class e v b).
Proof. apply quiet_stack_cas. Qed.

Lemma quiet_cas_empty class e v b : quiet (cas_empty class e v b).
Proof. apply quiet_stack_cas. Qed.

Lemma quiet_load_full class : quiet (load_full class).
Proof. unfold load_full. quiet_code. Qed.

Lemma quiet_load_empty class : quiet (load_empty class).
Proof. unfold load_empty. quiet_code. Qed.

Lemma quiet_swap_mags t class : quiet (swap_mags t class).
Proof. unfold swap_mags. quiet_code. Qed.

Lemma quiet_swap_node t class node : quiet (swap_node t class node).
Proof. unfold swap_node. quiet_code. Qed.

Lemma quiet_fill_node t class node : quiet (fill_node t class node).
Proof. unfold fill_node. quiet_code. Qed.

Lemma quiet_memory {A} (m : M memory A) : quiet (md_on_mem m : M state A).
Proof. exact (@quiet_on_mem state state_mode state_counts state_count_laws A m). Qed.

#[local] Hint Resolve quiet_memory quiet_gets quiet_cas_offset quiet_cas_page quiet_set_offset quiet_cas_full quiet_cas_empty
  quiet_load_full quiet_load_empty quiet_swap_mags quiet_swap_node quiet_fill_node : counting.

(** ** [alloc] and [dealloc] *)

Section programs.
Context `{K : Kernel} (t : nat).

Lemma push_full_silent class node : silent (push_full_prog class node).
Proof. unfold push_full_prog. hush. Qed.

Lemma push_empty_silent class node : silent (push_empty_prog class node).
Proof. unfold push_empty_prog. hush. Qed.

Lemma pop_full_silent class : silent (pop_full_prog class).
Proof. unfold pop_full_prog. hush. Qed.

Lemma alloc_node_silent : silent alloc_node_prog.
Proof. unfold alloc_node_prog, alloc_node_round. hush. Qed.

Lemma take_cached_silent class : silent (take_cached_prog t class).
Proof.
  pose proof pop_full_silent. pose proof push_empty_silent. unfold take_cached_prog, exchange_node_prog. hush.
Qed.

Lemma retire_silent class : silent (retire_free_mag_prog t class).
Proof. pose proof alloc_node_silent. pose proof push_full_silent. unfold retire_free_mag_prog. hush. Qed.

Lemma alloc_miss_pledge class size cs c d :
  settled (minus_event EvMiss d) -> pledge t (alloc_miss_prog t class size cs) c d.
Proof.
  intros Hd. apply (miss_pledge t size _ (fun base =>
    if 0 <? saturating_sub (PAGE_SIZE / (cs +! CACHE_HEADER_SIZE)) 1
    then atomic (on_alloc_mag t class (Magazine_bulk_init (base + (cs +! CACHE_HEADER_SIZE))
      (cs +! CACHE_HEADER_SIZE) (saturating_sub (PAGE_SIZE / (cs +! CACHE_HEADER_SIZE)) 1)))
    else mret tt)); [|done]. intros base. hush.
Qed.

Lemma alloc_pledge size align c :
  pledge t (alloc_prog t size align) c (debt_of (CallAlloc t size align)).
Proof.
  exact (alloc_dispatch_pledge t size align (take_cached_prog t) (fun class => alloc_miss_prog t class size) c
    take_cached_silent (fun class => alloc_miss_pledge class size)).
Qed.

Lemma dealloc_cached_pledge class block c d :
  settled (minus_event EvFree d) -> pledge t (dealloc_cached_prog t class block) c d.
Proof.
  intros Hd. apply pledge_silent; [hush|]. intros [|]; [by apply pledge_record_last|].
  apply pledge_silent; [apply retire_silent|]. intros _. apply pledge_silent; [hush|]. intros _.
  by apply pledge_record_last.
Qed.

Lemma dealloc_pledge ptr c : pledge t (dealloc_prog t ptr) c (debt_of (CallFree t ptr)).
Proof. exact (dealloc_dispatch_pledge t ptr (dealloc_cached_prog t) c dealloc_cached_pledge). Qed.
End programs.

#[global] Instance state_count_progs `{K : Kernel} : CountProgs state.
Proof.
  split.
  - apply _.
  - intros m n. unfold co, state_counts. cbn. by rewrite fmap_replicate.
  - apply alloc_pledge.
  - apply dealloc_pledge.
Qed.

Section theorems.
Context `{K : Kernel} {KS : KernelSpec K}.

(** C19: however the threads of a process interleave, also between the counts of a call and
    its flush, between the [fetch_add]s of a flush and with several threads inside
    [alloc_node] at once, no count is lost and none is counted twice: whenever no thread is
    inside a call, the text that the exporter serves shows every call of the history.  Each
    of its counters, together with what the threads have not flushed yet, is the number of
    calls of its kind, modulo 2^64. *)
Theorem concurrent_counters pol m n tr (c : process state) :
  process_reach pol m n tr c -> Forall (fun th => th_does th = Idle) (pr_threads c) ->
  shows_calls (pr_state c) (calls_shown alloc_calls tr) (calls_shown free_calls tr) (calls_shown direct_calls tr).
Proof. exact (process_counts pol m n tr c). Qed.
End theorems.

Lemma concurrent_counters_witness :
  process_reach exclusive (Memory [] ∅) 2 demo_history demo_last /\
  shows_calls (pr_state demo_last) 3 1 0.
Proof.
  split; [exact demo_process_reach|].
  apply (concurrent_counters _ _ _ _ _ demo_process_reach).
  assert (Ht : pr_threads demo_last = [idle; idle]) by (vm_compute; reflexivity).
  rewrite Ht. by repeat constructor.
Defined.
