(* ===== verification/SimpleThreads.v ===== *)
(** * The calls of the simple-cache mode, access by access

    [alloc] and [dealloc] of aethalloc-abi/src/global.rs built without its default
    feature, as programs of Interleave.  The accesses of the global free lists are
    actions of their own: the loads and compare-exchanges of a head, the read of the link
    of the block on top in [pop], the write of the last link of a batch in [push_batch].
    The lists of the calling thread are linked through blocks nobody else reaches, so work
    on them is one action; [pop] is a section.  At the end, the link with SimpleCache: a
    program run by one thread alone is the call of SimpleCache. *)

From S2P Require Import Prelude SizeClass Memory Extents AllocSpec Page Metrics.
From S2P Require Import Headers AllocCore SimpleCache SimpleLists SimpleSafe SimpleAllocator.
From S2P Require Import Interleave Process.

(** ** The global lists *)

Definition get_list (class : Z) (s : sstate) : option Z := arr_get (ss_lists s) class.

Definition put_list (class head : Z) (s : sstate) : sstate :=
  {| ss_mem := ss_mem s; ss_lists := <[Z.to_nat class := head]> (ss_lists s);
     ss_gmetrics := ss_gmetrics s; ss_caches := ss_caches s |}.

(** [GLOBAL_FREE_LISTS[class].head]: an index out of range panics. *)
Definition on_list {A} (class : Z) (m : M Z A) : M sstate A := zoom (get_list class) (put_list class) m.

Definition load_head (class : Z) : M sstate Z := on_list class getS.

(** [Err] carries the head that was found. *)
Definition cas_head (class current new : Z) (spurious : bool) : M sstate (Z + unit) :=
  on_list class (
    found ← getS;
    if negb spurious && (found =? current) then modifyS (fun _ => new) ;; mret (inr tt)
    else mret (inl found)).

Definition push_batch_prog (class batch_head batch_tail : Z) : prog sstate unit :=
  current ← atomic (load_head class);
  Loop (fun current =>
    atomic (md_on_mem (store64_at batch_tail current)) ;;
    weak (cas_head class current batch_head)) current Done.

Definition pop_prog (class : Z) : prog sstate (option Z) :=
  Enter (
    current ← atomic (load_head class);
    Loop (fun current =>
      if current =? 0 then mret (inr None)
      else
        next ← atomic (md_on_mem (load64_at current));
        r ← weak (cas_head class current next);
        mret (match r with inl c => inl c | inr _ => inr (Some current) end))
      current (fun r => Leave (mret r))).

(** The [while] of [pop_batch], [n] rounds before [transferred] reaches [count]. *)
Fixpoint pop_batch_rounds (n t : nat) (class transferred : Z) : prog sstate Z :=
  match n with
  | O => mret transferred
  | S n' =>
      r ← pop_prog class;
      match r with
      | Some block =>
          atomic (on_class t class (push_local block)) ;;
          pop_batch_rounds n' t class (transferred +! 1)
      | None => mret transferred
      end
  end.

Definition pop_batch_prog (t : nat) (class count : Z) : prog sstate Z :=
  pop_batch_rounds (Z.to_nat count) t class 0.

(** ** [alloc] *)

(** The first block of the thread's list, if any. *)
Definition take_first : M class_store (option Z) :=
  head ← gets cs_head;
  if negb (head =? 0) then take_local head ;; mret (Some head) else mret None.

(** The first block of a list that is not empty. *)
Definition take_head : M class_store Z :=
  block ← gets cs_head; take_local block ;; mret block.

Definition take_cached_block_prog (t : nat) (class : Z) : prog sstate (option Z) :=
  r ← atomic (on_class t class take_first);
  match r with
  | Some block => mret (Some block)
  | None =>
      global ← atomic (load_head class);
      if negb (global =? 0) then
        transferred ← pop_batch_prog t class GLOBAL_FREE_BATCH;
        if 0 <? transferred then
          block ← atomic (on_class t class take_head);
          mret (Some block)
        else mret None
      else mret None
  end.

Section programs.
Context `{K : Kernel}.

Definition simple_miss_prog (t : nat) (class size cache_size : Z) : prog sstate Z :=
  count_prog t EvMiss ;;
  let block_size := cache_size +! CACHE_HEADER_SIZE in
  let blocks_per_page := PAGE_SIZE / block_size in
  if 1 <? blocks_per_page then
    r ← atomic (md_on_mem (PageAllocator_alloc 1));
    match r with
    | Some base =>
        atomic (on_class t class (refill_loop (Z.to_nat (blocks_per_page - 1)) 1 base block_size)) ;;
        miss_block_prog t base size
    | None => alloc_own_pages_prog t size block_size
    end
  else alloc_own_pages_prog t size block_size.

Definition simple_alloc_prog (t : nat) (size align : Z) : prog sstate Z :=
  if size =? 0 then mret 0
  else if (size <=? MAX_CACHE_SIZE) && (align <=? 8) then
    let cache_size := Z.max (round_up_pow2 size) 16 in
    match size_to_class cache_size with
    | Some class =>
        r ← take_cached_block_prog t class;
        match r with
        | Some block => cache_hit_prog t block size
        | None => simple_miss_prog t class size cache_size
        end
    | None => alloc_large_prog t size align
    end
  else alloc_large_prog t size align.

(** ** [dealloc] *)

(** Anti-hoarding, on the thread's side: the batch to flush is cut off. *)
Definition cut_excess : M class_store (option (Z * Z)) :=
  count ← gets cs_count;
  if MAX_FREE_LIST_LENGTH <=? count then
    let flush_count := count / 2 in
    batch_head ← gets cs_head;
    batch_tail ← walk_loop (Z.to_nat flush_count) 1 flush_count batch_head;
    if negb (batch_tail =? 0) then
      new_local_head ← cs_on_mem (load64_at batch_tail);
      cs_on_mem (store64_at batch_tail 0) ;;
      modifyS (fun x => set_cs_local new_local_head (cs_count x -! flush_count) x) ;;
      mret (Some (batch_head, batch_tail))
    else mret None
  else mret None.

Definition flush_excess_prog (t : nat) (class : Z) : prog sstate unit :=
  r ← atomic (on_class t class cut_excess);
  match r with
  | Some (batch_head, batch_tail) => push_batch_prog class batch_head batch_tail
  | None => mret tt
  end.

Definition simple_dealloc_cached_prog (t : nat) (class size_ptr : Z) : prog sstate unit :=
  atomic (on_class t class (push_local size_ptr)) ;;
  record_prog t EvFree ;;
  flush_excess_prog t class.

Definition simple_dealloc_prog (t : nat) (ptr : Z) : prog sstate unit :=
  if ptr =? 0 then mret tt
  else
    r ← atomic (md_on_mem (find_alloc ptr));
    match r with
    | FLarge base h | FPage base h => dealloc_pages_prog t base h
    | FSmall size_ptr maybe_size =>
        match size_to_class (Z.max (round_up_pow2 maybe_size) 16) with
        | Some class => simple_dealloc_cached_prog t class size_ptr
        | None => dealloc_by_page_prog t ptr
        end
    end.
End programs.

(** The simple-cache mode as programs. *)
#[global] Instance sstate_progs `{K : Kernel} : ModeProgs sstate := {|
  mp_new := sstate_new;
  mp_alloc := simple_alloc_prog;
  mp_dealloc := simple_dealloc_prog
|}.

(** ** A program run alone is the call *)

Lemma get_put_smetrics t x y s : get_smetrics t s = Some x -> get_smetrics t (put_smetrics t y s) = Some y.
Proof.
  unfold get_smetrics, put_smetrics. destruct (ss_caches s !! t) as [c|] eqn:Hc; [|done].
  intros _. cbn [ss_caches]. rewrite list_lookup_insert_eq by (by eapply lookup_lt_Some). by destruct y.
Qed.

Lemma put_put_smetrics t x y s : put_smetrics t y (put_smetrics t x s) = put_smetrics t y s.
Proof.
  unfold put_smetrics. destruct (ss_caches s !! t) as [c|] eqn:Hc; cbn [ss_caches]; [|by rewrite Hc].
  rewrite list_lookup_insert_eq by (by eapply lookup_lt_Some). cbn. by rewrite list_insert_insert_eq.
Qed.

Lemma put_get_smetrics t x s : get_smetrics t s = Some x -> put_smetrics t x s = s.
Proof.
  unfold get_smetrics, put_smetrics. destruct (ss_caches s !! t) as [c|] eqn:Hc; [|done]. cbn. intros [= <-].
  cbn. rewrite list_insert_id by (rewrite Hc; by destruct c). by destruct s.
Qed.

#[global] Instance sstate_lens : ModeLens sstate.
Proof.
  refine {| ln_get := get_smetrics; ln_put := put_smetrics |}; try done.
  - apply get_put_smetrics.
  - intros t x y s. apply put_put_smetrics.
  - apply put_get_smetrics.
  - by intros [].
Defined.

Lemma put_put_class t class x y s : put_class t class y (put_class t class x s) = put_class t class y s.
Proof.
  unfold put_class. destruct (ss_caches s !! t) as [c|] eqn:Hc; cbn [ss_caches]; [|by rewrite Hc].
  rewrite list_lookup_insert_eq by (by eapply lookup_lt_Some). cbn. by rewrite !list_insert_insert_eq.
Qed.

(** What a thread sees of a class is a part of the state. *)
Lemma get_class_parts t class s x :
  get_class t class s = Some x ->
  get_list class s = Some (cs_global x) /\ ss_mem s = cs_mem x /\
  (forall g, put_list class g s = put_class t class (set_cs_global g x) s) /\
  forall m, set_ss_mem m s = put_class t class (set_cs_mem m x) s.
Proof.
  unfold get_class, get_list, put_class. destruct (ss_caches s !! t) as [ca|] eqn:Hca; [|done]. cbn.
  destruct (arr_get (ss_lists s) class) as [g|] eqn:Hg; [|done].
  destruct (arr_get (sc_heads ca) class) as [h|] eqn:Hh; [|done].
  destruct (arr_get (sc_counts ca) class) as [n|] eqn:Hn; [|done]. cbn. intros [= <-]. cbn.
  apply arr_get_lookup in Hg as [_ Hg], Hh as [_ Hh], Hn as [_ Hn].
  rewrite (list_insert_id _ _ _ Hh), (list_insert_id _ _ _ Hn), (list_insert_id _ _ _ Hg).
  rewrite list_insert_id by (rewrite Hca; by destruct ca). done.
Qed.

Section class.
Context (t : nat) (class : Z).

Lemma on_class_run {A} (m : M class_store A) s x :
  get_class t class s = Some x ->
  on_class t class m s = match m x with
                         | Ret (a, y) => Ret (a, put_class t class y s)
                         | Panic => Panic | Fault => Fault | Diverge => Diverge
                         end.
Proof. intros Hx. unfold on_class, zoom. by rewrite Hx. Qed.

Lemma on_list_run {A} (m : M Z A) s x :
  get_class t class s = Some x ->
  on_list class m s = match m (cs_global x) with
                      | Ret (a, g) => Ret (a, put_class t class (set_cs_global g x) s)
                      | Panic => Panic | Fault => Fault | Diverge => Diverge
                      end.
Proof.
  intros (Hg & _ & Hp & _)%get_class_parts. unfold on_list, zoom. rewrite Hg.
  destruct (m (cs_global x)) as [[a g]| | |]; try done. by rewrite Hp.
Qed.

Lemma on_mem_run {A} (m : M memory A) s x :
  get_class t class s = Some x ->
  md_on_mem m s = match m (cs_mem x) with
                  | Ret (a, mm) => Ret (a, put_class t class (set_cs_mem mm x) s)
                  | Panic => Panic | Fault => Fault | Diverge => Diverge
                  end.
Proof.
  intros (_ & Hm & _ & Hp)%get_class_parts. unfold md_on_mem, zoom. cbn. rewrite Hm.
  destruct (m (cs_mem x)) as [[a mm]| | |]; try done. by rewrite Hp.
Qed.
End class.

#[local] Arguments md_on_mem : simpl never.

(** Running code of a class step by step, from lists whose contents are known. *)
Ltac run_class Hx :=
  repeat (progress (rewrite ?(on_class_run _ _ _ _ _ (get_put_class _ _ _ _ _ Hx)), ?(on_class_run _ _ _ _ _ Hx),
                            ?(on_list_run _ _ _ _ _ (get_put_class _ _ _ _ _ Hx)), ?(on_list_run _ _ _ _ _ Hx),
                            ?(on_mem_run _ _ _ _ _ (get_put_class _ _ _ _ _ Hx)), ?(on_mem_run _ _ _ _ _ Hx),
                            ?put_put_class, ?Z.eqb_refl; cbn)).

Lemma solo_pop t class s x :
  get_class t class s = Some x -> solo (pop_prog class) s = on_class t class GlobalFreeList_pop s.
Proof.
  intros Hx. unfold pop_prog, load_head, cas_head, weak, atomic, GlobalFreeList_pop, cs_on_mem, zoom.
  cbn. unfold mbind, M_bind. run_class Hx.
  destruct (Z.eqb_spec (cs_global x) 0) as [H0|H0]; cbn; [done|]. unfold mbind, M_bind. run_class Hx.
  destruct (load64_at (cs_global x) (cs_mem x)) as [[nx mm]| | |]; cbn; try done. by run_class Hx.
Qed.

Lemma solo_push_batch t class bh bt s x :
  get_class t class s = Some x ->
  solo (push_batch_prog class bh bt) s = on_class t class (GlobalFreeList_push_batch bh bt) s.
Proof.
  intros Hx. unfold push_batch_prog, load_head, cas_head, weak, atomic, GlobalFreeList_push_batch, cs_on_mem, zoom.
  cbn. unfold mbind, M_bind. run_class Hx.
  destruct (store64_at bt (cs_global x) (cs_mem x)) as [[u mm]| | |]; cbn; try done. by run_class Hx.
Qed.

Lemma on_class_bind {A B} t class (m : M class_store A) (k : A -> M class_store B) :
  same_runs (on_class t class (a ← m; k a)) (a ← on_class t class m; on_class t class (k a)).
Proof. symmetry. apply zoom_bind; intros s x y; [apply get_put_class|apply put_put_class]. Qed.

Lemma on_class_ret {A} t class (a : A) s x :
  get_class t class s = Some x -> on_class t class (mret a) s = Ret (a, s).
Proof.
  intros Hx. rewrite (on_class_run _ _ _ _ _ Hx). cbn. do 2 f_equal.
  destruct (get_class_parts _ _ _ _ Hx) as (_ & Hm & _ & Hp). specialize (Hp (cs_mem x)).
  rewrite <- Hm in Hp at 1. destruct s, x. exact (eq_sym Hp).
Qed.

(** The class is there after a computation on it. *)
Lemma on_class_stays {A} t class (m : M class_store A) s a s' :
  on_class t class m s = Ret (a, s') -> exists x, get_class t class s' = Some x.
Proof.
  unfold on_class, zoom. destruct (get_class t class s) as [x|] eqn:Hx; [|done].
  destruct (m x) as [[b y]| | |]; try done. intros [= <- <-]. exists y. by eapply get_put_class.
Qed.

Lemma bind_run {S A B} (m : M S A) (k : A -> M S B) s :
  (m ≫= k) s = match m s with
               | Ret (a, s') => k a s'
               | Panic => Panic | Fault => Fault | Diverge => Diverge
               end.
Proof. unfold mbind, M_bind. by destruct (m s) as [[a s']| | |]. Qed.

Lemma solo_pop_batch t class n : forall k s x,
  get_class t class s = Some x ->
  solo (pop_batch_rounds n t class k) s = on_class t class (pop_batch_loop n k) s.
Proof.
  induction n as [|n IH]; intros k s x Hx; cbn [pop_batch_rounds pop_batch_loop].
  { symmetry. by eapply on_class_ret. }
  rewrite (solo_bind _ _ s), (on_class_bind _ _ _ _ s), !bind_run, (solo_pop _ _ _ _ Hx).
  destruct (on_class t class GlobalFreeList_pop s) as [[[b|] s1]| | |] eqn:Hp; try done;
    destruct (on_class_stays _ _ _ _ _ _ Hp) as [x1 Hx1]; [|symmetry; by eapply on_class_ret].
  rewrite (solo_bind _ _ s1), (on_class_bind _ _ _ _ s1), !bind_run, (solo_atomic _ s1).
  destruct (on_class t class (push_local b) s1) as [[u s2]| | |] eqn:Hl; try done.
  destruct (on_class_stays _ _ _ _ _ _ Hl) as [x2 Hx2]. by eapply IH.
Qed.

(** The two ways into the thread's list, and the global list between them. *)
Lemma take_block_split t class s x :
  get_class t class s = Some x ->
  on_class t class take_cached_block s =
  (r ← on_class t class take_first;
   match r with
   | Some block => mret (Some block)
   | None =>
       global ← on_class t class (gets cs_global);
       if negb (global =? 0) then
         transferred ← on_class t class (GlobalFreeList_pop_batch GLOBAL_FREE_BATCH);
         if 0 <? transferred then block ← on_class t class take_head; mret (Some block) else mret None
       else mret None
   end) s.
Proof.
  intros Hx. assert (Hskip : forall {A} (m : M class_store A) a, m x = Ret (a, x) -> on_class t class m s = Ret (a, s)).
  { intros A m a Hm. rewrite <- (on_class_ret t class a s x Hx), !(on_class_run _ _ _ _ _ Hx). by rewrite Hm. }
  rewrite bind_run. destruct (negb (cs_head x =? 0)) eqn:Hh.
  - rewrite !(on_class_run _ _ _ _ _ Hx). unfold take_cached_block, take_first. rewrite !bind_run. cbn.
    rewrite Hh, !bind_run. by destruct (take_local (cs_head x) x) as [[u y]| | |].
  - rewrite (Hskip _ take_first None) by (unfold take_first; rewrite bind_run; cbn; by rewrite Hh).
    rewrite bind_run, (Hskip _ (gets cs_global) (cs_global x)) by done.
    destruct (negb (cs_global x =? 0)) eqn:Hg.
    + rewrite bind_run, !(on_class_run _ _ _ _ _ Hx). unfold take_cached_block. rewrite bind_run. cbn.
      rewrite Hh, bind_run. cbn. rewrite Hg, bind_run.
      destruct (GlobalFreeList_pop_batch GLOBAL_FREE_BATCH x) as [[k y]| | |]; try done.
      destruct (0 <? k); [|done]. rewrite !bind_run, (on_class_run _ _ _ _ _ (get_put_class _ _ _ y _ Hx)).
      unfold take_head. rewrite !bind_run. cbn. rewrite !bind_run.
      destruct (take_local (cs_head y) y) as [[u z]| | |]; try done. cbn. by rewrite put_put_class.
    + apply Hskip. unfold take_cached_block. rewrite bind_run. cbn. rewrite Hh, bind_run. cbn. by rewrite Hg.
Qed.

Lemma solo_take_block t class :
  same_runs (solo (take_cached_block_prog t class)) (on_class t class take_cached_block).
Proof.
  intros s. destruct (get_class t class s) as [x|] eqn:Hx.
  2:{ unfold take_cached_block_prog, on_class, zoom. cbn. unfold mbind, M_bind, on_class, zoom. by rewrite Hx. }
  rewrite (take_block_split _ _ _ _ Hx). unfold take_cached_block_prog.
  rewrite (solo_bind _ _ s), !bind_run, (solo_atomic _ s).
  destruct (on_class t class take_first s) as [[[b|] s1]| | |] eqn:H1; try done.
  destruct (on_class_stays _ _ _ _ _ _ H1) as [x1 Hx1].
  rewrite (solo_bind _ _ s1), !bind_run, (solo_atomic _ s1). unfold load_head.
  rewrite (on_list_run _ _ _ _ _ Hx1), (on_class_run _ _ _ _ _ Hx1). cbn [getS gets].
  assert (Hsame : set_cs_global (cs_global x1) x1 = x1) by by destruct x1. unfold gets, getS. cbn. rewrite Hsame.
  destruct (negb (cs_global x1 =? 0)); [|done]. set (s2 := put_class t class x1 s1).
  assert (Hx2 : get_class t class s2 = Some x1) by by eapply get_put_class.
  rewrite (solo_bind _ _ s2), !bind_run. unfold pop_batch_prog. rewrite (solo_pop_batch _ _ _ _ _ _ Hx2).
  change (pop_batch_loop (Z.to_nat GLOBAL_FREE_BATCH) 0) with (GlobalFreeList_pop_batch GLOBAL_FREE_BATCH).
  destruct (on_class t class (GlobalFreeList_pop_batch GLOBAL_FREE_BATCH) s2) as [[k s3]| | |]; try done.
  by destruct (0 <? k).
Qed.

(** A batch is cut off and pushed. *)
Lemma flush_excess_split :
  same_runs flush_excess
    (r ← cut_excess; match r with Some (h, tl) => GlobalFreeList_push_batch h tl | None => mret tt end).
Proof.
  intros x. unfold flush_excess, cut_excess. rewrite !bind_run. cbn.
  destruct (MAX_FREE_LIST_LENGTH <=? cs_count x); [|done]. rewrite !bind_run. cbn.
  rewrite !bind_run. destruct (walk_loop _ _ _ _ x) as [[tl y]| | |]; try done.
  destruct (negb (tl =? 0)); [|done]. rewrite !bind_run.
  destruct (cs_on_mem (load64_at tl) y) as [[nh z]| | |]; try done. rewrite !bind_run.
  destruct (cs_on_mem (store64_at tl 0) z) as [[u w]| | |]; try done.
Qed.

Lemma solo_flush_excess t class :
  same_runs (solo (flush_excess_prog t class)) (on_class t class flush_excess).
Proof.
  intros s. assert (Hsplit : on_class t class flush_excess s = on_class t class
    (r ← cut_excess; match r with Some (h, tl) => GlobalFreeList_push_batch h tl | None => mret tt end) s).
  { unfold on_class, zoom. destruct (get_class t class s) as [x|]; [|done]. by rewrite (flush_excess_split x). }
  rewrite Hsplit, (on_class_bind _ _ _ _ s). unfold flush_excess_prog.
  rewrite (solo_bind _ _ s), !bind_run, (solo_atomic _ s).
  destruct (on_class t class cut_excess s) as [[[[h tl]|] s1]| | |] eqn:Hc; try done;
    destruct (on_class_stays _ _ _ _ _ _ Hc) as [x1 Hx1].
  - by eapply solo_push_batch.
  - symmetry. by eapply on_class_ret.
Qed.

Section solo.
Context `{K : Kernel}.

(** [alloc] run alone is the [alloc] of SimpleCache. *)
Lemma solo_simple_alloc t size align :
  same_runs (solo (simple_alloc_prog t size align)) (simple_alloc t size align).
Proof.
  pose proof (solo_cache_hit (St := sstate) t). pose proof (solo_take_block t).
  pose proof (solo_own_pages (St := sstate) t).
  unfold simple_alloc_prog, simple_alloc, simple_miss_prog, simple_miss, miss_block_prog, miss_block.
  solo_parts; auto.
Qed.

(** [dealloc] run alone is the [dealloc] of SimpleCache. *)
Lemma solo_simple_dealloc t ptr : same_runs (solo (simple_dealloc_prog t ptr)) (simple_dealloc t ptr).
Proof.
  pose proof (solo_dealloc_pages (St := sstate) t). pose proof (solo_dealloc_by_page (St := sstate) t).
  pose proof (solo_flush_excess t).
  unfold simple_dealloc_prog, simple_dealloc, simple_dealloc_cached_prog, simple_dealloc_cached.
  solo_parts; auto.
Qed.
End solo.
