(* ===== verification/SimpleViews.v ===== *)
(** * What the threads of the simple-cache mode own inside calls

    The invariant of a process of the simple-cache mode.  Between two actions a thread may
    hold memory, a batch of blocks it has cut off its list, and the allocation it has
    finished or begun to free; inside [pop] it knows the block it has seen on top of a
    global list and, later, that block's link; and it may know the length of one of its
    own lists.  Global lists only grow at their front while another thread is inside
    [pop], so that what that thread knows stays true. *)

From S2P Require Import Prelude SizeClass Memory Extents AllocSpec Page Metrics.
From S2P Require Import Headers AllocCore SimpleCache SimpleLists SimpleSafe SimpleAllocator.
From S2P Require Import Interleave Process Sharing SimpleThreads.

(** ** Views *)

Record sview : Type := {
  (** memory held in the middle of a call *)
  sv_exts : list (Z * Z);
  (** an allocation about to be returned, or just passed to [dealloc] *)
  sv_pend : list (Z * alloc_kind);
  (** a batch: its class, its blocks, the link of the last one *)
  sv_batch : option (Z * list Z * Z);
  (** inside [pop]: the class, the block seen on top, its link once that is read *)
  sv_pop : option (Z * Z * option Z);
  (** the length of the thread's list of a class *)
  sv_len : option (Z * nat);
  (** inside [pop] *)
  sv_in : bool
}.

Definition shold (F : list (Z * Z)) (Pd : list (Z * alloc_kind)) : sview :=
  {| sv_exts := F; sv_pend := Pd; sv_batch := None; sv_pop := None; sv_len := None; sv_in := false |}.

(** The thread holds [F] and knows that its list of class [c] has [n] blocks. *)
Definition knows (F : list (Z * Z)) (c : Z) (n : nat) (inside : bool) : sview :=
  {| sv_exts := F; sv_pend := []; sv_batch := None; sv_pop := None; sv_len := Some (c, n); sv_in := inside |}.

Definition seeing (c : Z) (n : nat) (current : Z) (next : option Z) : sview :=
  {| sv_exts := []; sv_pend := []; sv_batch := None; sv_pop := Some (c, current, next);
     sv_len := Some (c, n); sv_in := true |}.

Definition batching (c : Z) (l : list Z) (e : Z) : sview :=
  {| sv_exts := []; sv_pend := []; sv_batch := Some (c, l, e); sv_pop := None; sv_len := None; sv_in := false |}.

Definition batch_exts (v : sview) : list (Z * Z) :=
  match sv_batch v with Some (c, l, _) => blocks c l | None => [] end.

Definition sview_exts (v : sview) : list (Z * Z) := sv_exts v ++ batch_exts v.

(** ** The invariant *)

(** What a thread knows is true, of the global lists [G] and its own lists [Hs]. *)
Record sview_ok (m : memory) (G Hs : list (list Z)) (v : sview) : Prop := {
  so_batch c l e : sv_batch v = Some (c, l, e) -> 0 <= c /\ l <> [] /\ seg m (hd 0 l) l e;
  so_pop c current next : sv_pop v = Some (c, current, next) ->
    sv_in v = true /\ exists g, G !! Z.to_nat c = Some g /\ current ∈ g /\
      forall nx, next = Some nx -> load64 m current = Some nx;
  so_len i l : Hs !! i = Some l ->
    match sv_len v with
    | Some (c, n) => if decide (i = Z.to_nat c) then length l = n
                     else Z.of_nat (length l) < MAX_FREE_LIST_LENGTH
    | None => Z.of_nat (length l) < MAX_FREE_LIST_LENGTH
    end
}.

(** The invariant of all threads, for the live allocations [L], the global lists [G] and
    the threads' lists [HH]. *)
Record ssys (s : sstate) (vs : list sview) (L : list (Z * alloc_kind)) (G : list (list Z))
    (HH : list (list (list Z))) : Prop := {
  yy_threads : length vs = length (ss_caches s);
  yy_linked : linked s G HH;
  yy_live : Live (ss_mem s) (L ++ concat (sv_pend <$> vs)) (concat (sview_exts <$> vs) ++ rows_exts G HH);
  yy_views t v Hs : vs !! t = Some v -> HH !! t = Some Hs -> sview_ok (ss_mem s) G Hs v;
  yy_alone t t' v v' : vs !! t = Some v -> vs !! t' = Some v' -> sv_in v = true -> sv_in v' = true -> t = t'
}.

Definition svalid (s : sstate) (vs : list sview) (L : list (Z * alloc_kind)) : Prop :=
  exists G HH, ssys s vs L G HH.

#[global] Instance sstate_sharing : Sharing sstate sview := {|
  sh_hold := shold;
  sh_inside := sv_in;
  sh_valid := svalid
|}.

(** ** Links of lists *)

Lemma seg_hd m h l : seg m h l 0 -> h = hd 0 l.
Proof. destruct l; [done|]. by intros [-> _]. Qed.

(** The links of a list are those of its blocks. *)
Lemma seg_links m m' h h' l p : seg m h l 0 -> seg m' h' l 0 -> p ∈ l -> load64 m p = load64 m' p.
Proof.
  revert h h'. induction l as [|q l IH]; intros h h'; [by intros _ _ ?%elem_of_nil|].
  intros (-> & _ & nx & Hnx & Hl) (-> & _ & nx' & Hnx' & Hl'). rewrite elem_of_cons. intros [->|Hp].
  - rewrite Hnx, Hnx'. f_equal. rewrite (seg_hd _ _ _ Hl). symmetry. by eapply seg_hd.
  - by eapply IH.
Qed.

Lemma linked_global s G HH i g : linked s G HH -> G !! i = Some g -> exists h, ss_lists s !! i = Some h /\ seg (ss_mem s) h g 0.
Proof. intros [[_ HG] _] Hg. destruct (Forall2_lookup_r _ _ _ _ _ HG Hg) as (h & Hh & Hs). eauto. Qed.

Lemma linked_threads s G HH : linked s G HH -> length HH = length (ss_caches s).
Proof. intros [_ HV]. rewrite <- (Forall2_length _ _ _ HV). apply s_views_length. Qed.

(** ** A thread's point of view *)

Record slocal (t : nat) (s : sstate) (v : sview) (G : list (list Z)) (HH : list (list (list Z)))
    (Lr : list (Z * alloc_kind)) (Hr : list (Z * Z)) : Prop := {
  so_thread : (t < length (ss_caches s))%nat;
  so_linked : linked s G HH;
  so_live : Live (ss_mem s) (Lr ++ sv_pend v) (Hr ++ sview_exts v ++ rows_exts G HH);
  so_view Hs : HH !! t = Some Hs -> sview_ok (ss_mem s) G Hs v
}.

(** What an action of thread [t] may change for the others, who hold [Hr]. *)
Record sguarantee (t : nat) (s : sstate) (v : sview) (G : list (list Z)) (HH : list (list (list Z)))
    (Hr : list (Z * Z)) (s' : sstate) (v' : sview) (G' : list (list Z)) (HH' : list (list (list Z))) : Prop := {
  gg_threads : length (ss_caches s') = length (ss_caches s);
  gg_rows u : u <> t -> HH' !! u = HH !! u;
  gg_lists : sv_in v = true \/ forall i g, G !! i = Some g -> exists l, G' !! i = Some (l ++ g);
  gg_bytes : same_bytes Hr (ss_mem s) (ss_mem s');
  gg_inside : sv_in v' = sv_in v
}.

Section focus_thread.
Context (t : nat) (s : sstate) (vs : list sview) (L : list (Z * alloc_kind)).
Context (G : list (list Z)) (HH : list (list (list Z))) (v : sview).
Context (Hsys : ssys s vs L G HH) (Ht : vs !! t = Some v).

(** What another thread knows stays true. *)
Lemma sview_ok_other u w Hs Hr s' v' G' HH' :
  (forall e, e ∈ sview_exts w -> e ∈ Hr) -> linked s' G' HH' ->
  sguarantee t s v G HH Hr s' v' G' HH' -> vs !! u = Some w -> u <> t -> HH' !! u = Some Hs ->
  sview_ok (ss_mem s') G' Hs w.
Proof.
  intros Hin Hlk [] Hw Hne HHu. rewrite gg_rows0 in HHu by done. pose proof Hsys as [].
  destruct (yy_views0 u w Hs Hw HHu) as [Hb Hp Hl]. constructor; [| |done].
  - intros c l e Hbt. destruct (Hb c l e Hbt) as (Hc & Hne' & Hseg). split_and!; [done|done|].
    eapply (seg_same c); [done| |done]. eapply same_bytes_incl; [|exact gg_bytes0].
    intros x Hx. apply Hin, elem_of_app. right. unfold batch_exts. by rewrite Hbt.
  - intros c cur nx Hpp. destruct (Hp c cur nx Hpp) as (Hi & g & Hg & Hcur & Hnx). split; [done|].
    destruct gg_lists0 as [Hv|Hgrow]; [by destruct Hne; eapply yy_alone0|].
    destruct (Hgrow _ _ Hg) as [l Hg']. exists (l ++ g). split_and!; [done|by apply elem_of_app; right|].
    intros n ->. rewrite <- (Hnx n eq_refl).
    destruct (linked_global _ _ _ _ _ yy_linked0 Hg) as (h & _ & Hs1).
    destruct (linked_global _ _ _ _ _ Hlk Hg') as (h' & _ & Hs2). apply seg_app in Hs2 as (k & _ & Hs2).
    by eapply seg_links.
Qed.

(** A thread's action, from its point of view, is a step of the whole process. *)
Lemma ssys_open :
  exists Pr Hr, slocal t s v G HH (L ++ Pr) Hr /\
    forall s' v' G' HH', slocal t s' v' G' HH' (L ++ Pr) Hr -> sguarantee t s v G HH Hr s' v' G' HH' ->
      ssys s' (<[t := v']> vs) L G' HH'.
Proof.
  destruct (concat_fmap_focus sv_pend vs t v Ht) as (Pr & HP & HP').
  destruct (concat_fmap_focus sview_exts vs t v Ht) as (Hr & HE & HE').
  exists Pr, Hr. pose proof Hsys as []. split.
  - constructor; [rewrite <- yy_threads0; by eapply lookup_lt_Some|done| |intros Hs; by apply yy_views0].
    rewrite HP, HE in yy_live0.
    assert (H1 : L ++ sv_pend v ++ Pr ≡ₚ (L ++ Pr) ++ sv_pend v) by solve_Permutation. rewrite H1 in yy_live0.
    assert (H2 : (sview_exts v ++ Hr) ++ rows_exts G HH ≡ₚ Hr ++ sview_exts v ++ rows_exts G HH)
      by solve_Permutation. by rewrite H2 in yy_live0.
  - intros s' v' G' HH' [] Hgu. pose proof Hgu as []. constructor; [rewrite length_insert; congruence|done| | |].
    + rewrite HP', HE'.
      assert (H1 : L ++ sv_pend v' ++ Pr ≡ₚ (L ++ Pr) ++ sv_pend v') by solve_Permutation. rewrite H1.
      assert (H2 : (sview_exts v' ++ Hr) ++ rows_exts G' HH' ≡ₚ Hr ++ sview_exts v' ++ rows_exts G' HH')
        by solve_Permutation. by rewrite H2.
    + intros u w Hs [(<- & <- & _)|[Hne Hw]]%list_lookup_insert_Some HHu; [by apply so_view0|].
      apply (sview_ok_other u w Hs Hr s' v' G' HH'); try done. intros e He.
      specialize (HE' (shold [] [])). simpl in HE'. rewrite <- HE'.
      apply (elem_of_concat_lookup _ u (sview_exts w)); [|done].
      rewrite list_lookup_fmap, list_lookup_insert_ne by done. by rewrite Hw.
    + intros t1 t2 v1 v2 H1 H2 I1 I2.
      assert (Hold : forall u w, <[t := v']> vs !! u = Some w -> sv_in w = true ->
        exists w', vs !! u = Some w' /\ sv_in w' = true).
      { intros u w [(<- & <- & _)|[_ Hw]]%list_lookup_insert_Some Hi; [|eauto].
        exists v. split; [done|]. congruence. }
      destruct (Hold _ _ H1 I1) as (w1 & ? & ?). destruct (Hold _ _ H2 I2) as (w2 & ? & ?). eauto.
Qed.

(** The thread's view changes between two actions, and with it what counts as live. *)
Lemma ssys_move v' L' X :
  (forall Hs, HH !! t = Some Hs -> sview_ok (ss_mem s) G Hs v') ->
  (sv_in v' = true -> alone sv_in t vs) ->
  L' ++ sv_pend v' ⊆ L ++ sv_pend v ->
  (live_ext <$> L ++ sv_pend v) ++ sview_exts v ≡ₚ X ++ (live_ext <$> L' ++ sv_pend v') ++ sview_exts v' ->
  ssys s (<[t := v']> vs) L' G HH.
Proof.
  intros Hok Hin Hsub Hx.
  destruct (concat_fmap_focus sv_pend vs t v Ht) as (Pr & HP & HP').
  destruct (concat_fmap_focus sview_exts vs t v Ht) as (Hr & HE & HE').
  pose proof Hsys as []. constructor; rewrite ?length_insert; try done.
  - rewrite HP, HE in yy_live0. rewrite HP', HE'. destruct yy_live0 as [Har Hl]. split.
    + apply (arena_drop _ X). eapply arena_perm; [|exact Har].
      transitivity ((X ++ (live_ext <$> L' ++ sv_pend v') ++ sview_exts v') ++
        (live_ext <$> Pr) ++ Hr ++ rows_exts G HH); [rewrite !fmap_app; solve_Permutation|].
      rewrite <- Hx, !fmap_app. solve_Permutation.
    + rewrite Forall_forall in *. intros x Hxin. apply Hl. rewrite !elem_of_app in *.
      specialize (Hsub x). rewrite !elem_of_app in Hsub. tauto.
  - intros u w Hs [(<- & <- & _)|[_ Hw]]%list_lookup_insert_Some; [by apply Hok|by apply yy_views0].
  - intros t1 t2 v1 v2 H1 H2 I1 I2.
    apply list_lookup_insert_Some in H1 as [(<- & <- & _)|[Hne1 H1]];
    apply list_lookup_insert_Some in H2 as [(<- & <- & _)|[Hne2 H2]]; [done| | |by eapply yy_alone0].
    + symmetry. by apply (Hin I1 t2 v2).
    + by apply (Hin I2 t1 v1).
Qed.
End focus_thread.
