(* ===== verification/SimpleActions.v ===== *)
(** * The actions of the simple-cache mode

    Each action of the programs of SimpleThreads, verified against the invariant of
    SimpleViews for the thread that takes it; and the invariant as an instance of
    [SharingLaws]. *)

From S2P Require Import Prelude SizeClass Memory Extents AllocSpec Page Metrics.
From S2P Require Import Headers AllocCore SimpleCache SimpleLists SimpleSafe SimpleAllocator.
From S2P Require Import Interleave Process Sharing SimpleThreads SimpleViews.

(** ** The shape of an action *)

(** What an action has to establish for the thread that takes it. *)
Definition sstep_post {B} t s v G HH Lr Hr (P' : B -> sview -> Prop) (b : B) (s' : sstate) : Prop :=
  exists v' G' HH', slocal t s' v' G' HH' Lr Hr /\ sguarantee t s v G HH Hr s' v' G' HH' /\
    P' b v' /\ keeps Lr s s'.

Lemma sact_intro {B} t P (m : M sstate B) (P' : B -> sview -> Prop) :
  (forall s v G HH Lr Hr, slocal t s v G HH Lr Hr -> P v -> wp m (sstep_post t s v G HH Lr Hr P') s) ->
  acts t P m P'.
Proof.
  intros Hm s vs L v (G & HH & Hsys) Ht HP.
  destruct (ssys_open t s vs L G HH v Hsys Ht) as (Pr & Hr & Hlo & Hclose).
  eapply wp_mono; [by apply (Hm _ _ _ _ _ _ Hlo HP)|].
  intros b s' (v' & G' & HH' & Hlo' & Hgu & HP' & Hk). exists v'. split_and!; [|done|by apply Hgu|].
  - exists G', HH'. by apply Hclose.
  - unfold keeps in *. rewrite fmap_app in Hk. by apply same_bytes_app in Hk as [? _].
Qed.

(** A change of what a thread holds. *)
Definition sset_held (F : list (Z * Z)) (Pd : list (Z * alloc_kind)) (v : sview) : sview :=
  {| sv_exts := F; sv_pend := Pd; sv_batch := sv_batch v; sv_pop := sv_pop v; sv_len := sv_len v; sv_in := sv_in v |}.

(** What a thread knows survives a change of memory outside its batch. *)
Lemma sview_ok_mem s s' G HH Hs v F Pd :
  linked s G HH -> linked s' G HH -> same_bytes (batch_exts v) (ss_mem s) (ss_mem s') ->
  sview_ok (ss_mem s) G Hs v -> sview_ok (ss_mem s') G Hs (sset_held F Pd v).
Proof.
  intros Hl Hl' Hsame [Hb Hp Hn]. constructor; [| |exact Hn].
  - intros c l e Hbt. destruct (Hb c l e Hbt) as (Hc & Hne & Hseg). split_and!; [done|done|].
    eapply (seg_same c); [done| |done]. unfold batch_exts in Hsame. cbn in Hbt. by rewrite Hbt in Hsame.
  - intros c cur nx Hpp. destruct (Hp c cur nx Hpp) as (Hi & g & Hg & Hcur & Hnx). split; [done|].
    exists g. split_and!; [done|done|]. intros n ->. rewrite <- (Hnx n eq_refl).
    destruct (linked_global _ _ _ _ _ Hl Hg) as (h & _ & S1).
    destruct (linked_global _ _ _ _ _ Hl' Hg) as (h' & _ & S2). by eapply seg_links.
Qed.

(** Nothing but memory and what the thread holds changes. *)
Lemma sstep_held {B} t s v G HH Lr Hr s' F Pd (P' : B -> sview -> Prop) b :
  slocal t s v G HH Lr Hr -> linked s' G HH -> length (ss_caches s') = length (ss_caches s) ->
  same_bytes Hr (ss_mem s) (ss_mem s') -> same_bytes (batch_exts v) (ss_mem s) (ss_mem s') ->
  Live (ss_mem s') (Lr ++ Pd) (Hr ++ sview_exts (sset_held F Pd v) ++ rows_exts G HH) ->
  keeps Lr s s' -> P' b (sset_held F Pd v) -> sstep_post t s v G HH Lr Hr P' b s'.
Proof.
  intros [Ht Hl Hlv Hvw] Hl' Hc HsH HsB Hlive Hk HP. exists (sset_held F Pd v), G, HH.
  split_and!; [constructor|constructor|done|done]; try done.
  - by rewrite Hc.
  - intros Hs HHt. eapply sview_ok_mem; [exact Hl|done|done|by apply Hvw].
  - right. intros i g Hg. by exists [].
Qed.

(** A computation on memory, in an arena where this thread's part is in front. *)
Lemma smem_act {B} t (m : M memory B) F Pd v0 (P' : B -> sview -> Prop) :
  (forall mm R, arena mm (F ++ (live_ext <$> Pd) ++ R) -> Forall (live_ok mm) Pd ->
   wp m (fun b mm' => exists F' Pd', same_bytes R mm mm' /\
     arena mm' (F' ++ (live_ext <$> Pd') ++ R) /\ Forall (live_ok mm') Pd' /\
     P' b (sset_held F' Pd' v0)) mm) ->
  acts t (fun v => v = sset_held F Pd v0) (md_on_mem m) P'.
Proof.
  intros Hm. apply sact_intro. intros s v G HH Lr Hr Hlo ->. pose proof Hlo as [Ht Hl [Har [Hok Hpd]%Forall_app] Hv].
  apply md_on_mem_wp. simpl in *. set (E := rows_exts G HH) in *.
  eapply wp_mono; [apply (Hm _ ((live_ext <$> Lr) ++ Hr ++ batch_exts v0 ++ E)); [|exact Hpd]|].
  { eapply arena_perm; [|exact Har]. unfold sview_exts. simpl. rewrite fmap_app.
    change (batch_exts (sset_held F Pd v0)) with (batch_exts v0). solve_Permutation. }
  intros b mm' (F' & Pd' & Hs & Har' & Hpd' & HP').
  pose proof Hs as (HsL & (HsH & [HsB HsE]%same_bytes_app)%same_bytes_app)%same_bytes_app.
  eapply (sstep_held t s _ G HH Lr Hr (set_ss_mem mm' s) F' Pd'); [done|by apply linked_same|done|done|done| |done|done].
  split.
  - eapply arena_perm; [|exact Har']. unfold sview_exts. simpl. rewrite fmap_app.
    change (batch_exts (sset_held _ _ _)) with (batch_exts v0). solve_Permutation.
  - apply Forall_app. split; [|done]. by eapply same_live_ok.
Qed.

(** The counters are no part of the lists. *)
Lemma smetrics_act {B} t (m : M (Metrics * Metrics) B) (P : sview -> Prop) :
  (forall x, wp m (fun _ _ => True) x) -> acts t P (md_metrics t m) (fun _ v => P v).
Proof.
  intros Hm. apply sact_intro. intros s v G HH Lr Hr Hlo HP. pose proof Hlo as [Ht Hlk Hlv Hvw].
  apply md_metrics_wp; [done|done|]. intros b s' (Hmm & Hl & Hv).
  assert (Hlink : linked s' G HH) by (unfold linked; by rewrite Hmm, Hl, Hv).
  eapply (sstep_held t s v G HH Lr Hr s' (sv_exts v) (sv_pend v)); [done|done| | | | | |by destruct v].
  - change (md_threads s' = md_threads s). by rewrite <- !s_views_length, Hv.
  - rewrite Hmm. apply same_bytes_refl.
  - rewrite Hmm. apply same_bytes_refl.
  - rewrite Hmm. exact Hlv.
  - by apply keeps_mem.
Qed.

(** ** The invariant meets the interface *)

Lemma svalid_new m n : svalid (sstate_new m n) (replicate n (shold [] [])) [].
Proof.
  exists (replicate 14 []), (replicate n (replicate 14 [])). constructor.
  - simpl. by rewrite !length_replicate.
  - apply linked_new.
  - rewrite !fmap_replicate, rows_new, app_nil_r. change (sv_pend (shold [] [])) with (@nil (Z * alloc_kind)).
    change (sview_exts (shold [] [])) with (@nil (Z * Z)). simpl.
    assert (Hnil : forall A k, concat (replicate k (@nil A)) = []) by (intros A k; by induction k).
    rewrite !Hnil. by split.
  - intros t v Hs [-> _]%lookup_replicate [-> _]%lookup_replicate. constructor; [done|done|].
    intros i l [-> _]%lookup_replicate. simpl. unfold MAX_FREE_LIST_LENGTH. lia.
  - intros t t' v v' [-> _]%lookup_replicate _ Hi. done.
Qed.

(** A view without batch and block on top is in order whenever its lengths are. *)
Lemma sview_ok_plain m m' G Hs v v' :
  sv_batch v' = None -> sv_pop v' = None -> sv_len v' = sv_len v ->
  sview_ok m G Hs v -> sview_ok m' G Hs v'.
Proof. intros Hb Hp Hn [_ _ Hlen]. constructor; rewrite ?Hb, ?Hp, ?Hn; done. Qed.

(** The client writes to its own bytes. *)
Lemma ssys_write s vs L G HH x a m' n :
  ssys s vs L G HH -> x ∈ L -> changes_only (ss_mem s) m' a n -> sub_ext (a, n) (user_ext x) ->
  ssys (set_ss_mem m' s) vs L G HH.
Proof.
  intros [Ht Hl Hlv Hvw Hal] [L' HL]%elem_of_Permutation Hch Hsub. rewrite HL in Hlv. simpl in Hlv.
  destruct (live_write _ _ _ _ Hlv a n m' Hch Hsub) as [Hlv' [HsV HsR]%same_bytes_app].
  pose proof (linked_same _ _ _ _ HsR Hl) as Hl'. constructor; try done; [by rewrite HL|].
  intros t v Hs Hv HHt. pose proof (Hvw t v Hs Hv HHt) as Hok.
  assert (Hb : same_bytes (batch_exts v) (ss_mem s) m').
  { eapply same_bytes_incl; [|exact HsV]. intros e He.
    apply (elem_of_concat_lookup _ t (sview_exts v)); [by rewrite list_lookup_fmap, Hv|].
    apply elem_of_app. by right. }
  pose proof (sview_ok_mem _ _ _ _ _ _ (sv_exts v) (sv_pend v) Hl Hl' Hb Hok) as H'. by destruct v.
Qed.

#[global] Instance sstate_sharing_laws `{K : Kernel} : SharingLaws sstate sview.
Proof.
  split.
  - done.
  - apply svalid_new.
  - intros s vs L L' HL (G & HH & []). exists G, HH. constructor; try done. by rewrite <- HL.
  - intros s vs L (G & HH & []). eauto.
  - intros s vs L t t' v v' (G & HH & Hsys). by apply (yy_alone _ _ _ _ _ Hsys).
  - done.
  - intros t s vs L x (G & HH & Hsys) Ht. exists G, HH. apply (ssys_move t s vs L G HH (shold [] [x]) Hsys Ht _ _ []).
    + intros Hs HHt. by eapply sview_ok_plain; [..|by apply (yy_views _ _ _ _ _ Hsys t _ Hs)].
    + done.
    + intros y. simpl. rewrite app_nil_r, elem_of_app, !elem_of_cons. tauto.
    + simpl. rewrite !app_nil_r, fmap_app. simpl. solve_Permutation.
  - intros t s vs L x (G & HH & Hsys) Ht. exists G, HH. apply (ssys_move t s vs (x :: L) G HH (shold [] []) Hsys Ht _ _ []).
    + intros Hs HHt. by eapply sview_ok_plain; [..|by apply (yy_views _ _ _ _ _ Hsys t _ Hs)].
    + done.
    + intros y. simpl. rewrite app_nil_r, elem_of_app, !elem_of_cons, elem_of_nil. tauto.
    + simpl. rewrite !app_nil_r, fmap_app. simpl. solve_Permutation.
  - intros t s vs L F (G & HH & Hsys) Ht. exists G, HH. apply (ssys_move t s vs L G HH (shold F []) Hsys Ht _ _ F).
    + intros Hs HHt. by eapply sview_ok_plain; [..|by apply (yy_views _ _ _ _ _ Hsys t _ Hs)].
    + done.
    + done.
    + unfold sview_exts. simpl. solve_Permutation.
  - intros s vs L x a m' n (G & HH & Hsys) Hx Hch Hsub. exists G, HH. by eapply ssys_write.
  - intros B t m P. apply smetrics_act.
  - intros B t m F Pd P'. apply (smem_act t m F Pd (shold [] [])).
Qed.

(** ** The lists of the thread *)

(** The thread holds [F]; when it knows the length of a list, it is that of class [c]. *)
Definition lview (F : list (Z * Z)) (c : Z) (n : option nat) (inside : bool) : sview :=
  {| sv_exts := F; sv_pend := []; sv_batch := None; sv_pop := None; sv_len := (fun k => (c, k)) <$> n;
     sv_in := inside |}.

Definition len_is (n : option nat) (h : list Z) : Prop :=
  match n with
  | Some k => length h = k
  | None => Z.of_nat (length h) < MAX_FREE_LIST_LENGTH
  end.

(** A view that follows an action on the lists of class [c], which leaves [h]. *)
Record follows (c : Z) (m : memory) (h : list Z) (inside : bool) (v : sview) : Prop := {
  fo_pend : sv_pend v = [];
  fo_pop : sv_pop v = None;
  fo_in : sv_in v = inside;
  fo_len : match sv_len v with
           | Some (c', k) => c' = c /\ length h = k
           | None => Z.of_nat (length h) < MAX_FREE_LIST_LENGTH
           end;
  fo_batch c' l e : sv_batch v = Some (c', l, e) -> 0 <= c' /\ l <> [] /\ seg m (hd 0 l) l e
}.

Lemma follows_lview c m h i F n : len_is n h -> follows c m h i (lview F c n i).
Proof. intros Hn. by destruct n; constructor. Qed.

Section class_actions.
Context (t : nat) (c : Z) (Hc : 0 <= c < NUM_SIZE_CLASSES).

Lemma class_act {B} (m : M class_store B) F n i (P' : B -> sview -> Prop) :
  (forall x g h R, holds c x g h (F ++ R) -> len_is n h ->
   wp m (fun b x' => exists h' v', holds c x' g h' (sview_exts v' ++ R) /\
     same_bytes R (cs_mem x) (cs_mem x') /\ follows c (cs_mem x') h' i v' /\ P' b v') x) ->
  acts t (fun v => v = lview F c n i) (on_class t c m) P'.
Proof.
  intros Hm. apply sact_intro. intros s v G HH Lr Hr Hlo ->. pose proof Hlo as [Ht Hl [Har Hok] Hvw].
  destruct (linked_focus t c Hc s G HH Hl Ht) as (x & Hs & g & h & R & Hx & Hmm & Hlo' & Hg & HHt & Hh & HR & Hput).
  pose proof (so_len _ _ _ _ (Hvw Hs HHt)) as Hlens.
  assert (Hn : len_is n h).
  { specialize (Hlens _ _ Hh). destruct n as [k|]; simpl in Hlens; [|done]. by rewrite decide_True in Hlens. }
  cbn [sv_pend lview] in Har, Hok. rewrite app_nil_r in Har, Hok.
  eapply wp_zoom; [exact Hx|]. eapply wp_mono; [apply (Hm x g h ((live_ext <$> Lr) ++ Hr ++ R)); [|exact Hn]|].
  { split; [lia|]. split; [done|]. rewrite Hmm. eapply arena_perm; [|exact Har]. unfold sview_exts. simpl.
    rewrite HR. solve_Permutation. }
  intros b x' (h' & v' & (_ & Hlo2 & Har2) & (HsL & [HsH HsR]%same_bytes_app)%same_bytes_app & [Hpd Hpp Hi Hln Hbt] & HP').
  rewrite Hmm in HsL, HsH, HsR. destruct (Hput x' g h' Hlo2 HsR) as (Hl2 & HR2 & Ht2 & Hm2).
  rewrite (list_insert_id G) in Hl2, HR2 by done. exists v', G, (<[t := <[Z.to_nat c := h']> Hs]> HH).
  split_and!; [constructor|constructor|done|]; rewrite ?Hm2; try done.
  - change (t < md_threads (put_class t c x' s))%nat. by rewrite Ht2.
  - rewrite Hpd, app_nil_r. split; [|by eapply same_live_ok]. eapply arena_perm; [|exact Har2].
    rewrite HR2. solve_Permutation.
  - intros Hs' HHt'. rewrite list_lookup_insert_eq in HHt' by (by eapply lookup_lt_Some). injection HHt' as <-.
    constructor; [done|by rewrite Hpp|]. intros j l [(<- & <- & _)|[Hne Hj]]%list_lookup_insert_Some.
    + destruct (sv_len v') as [[c' k]|]; [|done]. destruct Hln as [-> Hk]. by rewrite decide_True.
    + specialize (Hlens _ _ Hj). assert (Hlt : Z.of_nat (length l) < MAX_FREE_LIST_LENGTH).
      { destruct n; simpl in Hlens; [|done]. by rewrite decide_False in Hlens. }
      destruct (sv_len v') as [[c' k]|]; [|done]. destruct Hln as [-> _]. by rewrite decide_False.
  - intros u Hu. by rewrite list_lookup_insert_ne.
  - right. intros j g' Hg'. by exists [].
  - unfold keeps. change (same_bytes (live_ext <$> Lr) (ss_mem s) (ss_mem (put_class t c x' s))). by rewrite Hm2.
Qed.

(** Class actions on plain views. *)
Lemma class_act_plain {B} (m : M class_store B) F n i (P' : B -> sview -> Prop) :
  (forall x g h R, holds c x g h (F ++ R) -> len_is n h ->
   wp m (fun b x' => exists h' F' n', holds c x' g h' (F' ++ R) /\
     same_bytes R (cs_mem x) (cs_mem x') /\ len_is n' h' /\ P' b (lview F' c n' i)) x) ->
  acts t (fun v => v = lview F c n i) (on_class t c m) P'.
Proof.
  intros Hm. apply class_act. intros x g h R Hh Hn. eapply wp_mono; [by apply (Hm x g h R)|].
  intros b x' (h' & F' & n' & Hh' & Hs & Hn' & HP). exists h', (lview F' c n' i).
  split_and!; [|done|by apply follows_lview|done]. unfold sview_exts. simpl. by rewrite app_nil_r.
Qed.

(** A block joins the list. *)
Lemma push_local_act b F n i :
  Z.of_nat n < MAX_FREE_LIST_LENGTH ->
  acts t (fun v => v = lview ((b, block_size c) :: F) c (Some n) i) (on_class t c (push_local b))
    (fun _ v => v = lview F c (Some (S n)) i).
Proof.
  intros Hlt. apply class_act_plain. intros x g h R Hh Hn. simpl in Hn. subst n.
  eapply push_local_wp; [exact Hh|done|]. intros x' Hh' [_ Hs']%same_bytes_app.
  exists (b :: h), F, (Some (S (length h))). by split_and!.
Qed.

Lemma push_free_act b :
  acts t (fun v => v = shold [(b, block_size c)] []) (on_class t c (push_local b))
    (fun _ v => exists n, v = lview [] c (Some n) false /\ Z.of_nat n <= MAX_FREE_LIST_LENGTH).
Proof.
  apply (class_act_plain (push_local b) [(b, block_size c)] None false). intros x g h R Hh Hn. simpl in Hn.
  eapply push_local_wp; [exact Hh|done|]. intros x' Hh' Hs'.
  exists (b :: h), [], (Some (S (length h))). split_and!; [done|done|done|]. exists (S (length h)). split; [done|]. lia.
Qed.

(** The first block leaves the list; when there is none, the list is known to be empty. *)
Lemma take_first_act :
  acts t (fun v => v = shold [] []) (on_class t c take_first)
    (fun r v => v = match r with Some b => shold [(b, block_size c)] [] | None => lview [] c (Some 0%nat) false end).
Proof.
  apply (class_act_plain take_first [] None false). intros x g h R Hh Hn. simpl in Hn. unfold take_first.
  apply wp_bind, wp_gets. pose proof Hh as (_ & (_ & Hseg & _) & _).
  destruct (Z.eqb_spec (cs_head x) 0) as [H0|H0]; simpl negb; cbv iota.
  - apply wp_ret. rewrite H0 in Hseg. apply seg_null in Hseg as ->.
    exists [], [], (Some 0%nat). split_and!; [done|apply same_bytes_refl|done|done].
  - destruct (seg_cons _ _ _ H0 Hseg) as (h' & nx & -> & _ & _). rewrite length_cons in Hn.
    apply wp_bind. eapply take_local_wp; [exact Hh|]. intros x' Hh' Hm'. apply wp_ret.
    exists h', [(cs_head x, block_size c)], None.
    split_and!; [done|rewrite Hm'; apply same_bytes_refl|simpl; lia|done].
Qed.

Lemma take_head_act n :
  (0 < n)%nat -> Z.of_nat n <= MAX_FREE_LIST_LENGTH ->
  acts t (fun v => v = lview [] c (Some n) false) (on_class t c take_head)
    (fun b v => v = shold [(b, block_size c)] []).
Proof.
  intros H0 Hle. apply class_act_plain. intros x g h R Hh Hn. simpl in Hn. unfold take_head.
  apply wp_bind, wp_gets. destruct h as [|b h]; [simpl in Hn; lia|]. simpl in Hn.
  assert (Hb : cs_head x = b) by (destruct Hh as (_ & (_ & (? & _) & _) & _); done). rewrite Hb.
  apply wp_bind. eapply take_local_wp; [exact Hh|]. intros x' Hh' Hm'. apply wp_ret.
  exists h, [(b, block_size c)], None. split_and!; [done|rewrite Hm'; apply same_bytes_refl|simpl; lia|done].
Qed.

(** The blocks of a fresh page join the empty list. *)
Lemma refill_act p n :
  Z.of_nat n < MAX_FREE_LIST_LENGTH ->
  acts t (fun v => v = lview ((p, block_size c) :: carve (p + block_size c) (block_size c) n) c (Some 0%nat) false)
    (on_class t c (refill_loop n 1 p (block_size c))) (fun _ v => v = shold [(p, block_size c)] []).
Proof.
  intros Hlt. apply class_act_plain. intros x g h R Hh Hn. simpl in Hn. apply nil_length_inv in Hn as ->.
  eapply (refill_loop_wp c n 1 x g [] ((p, block_size c) :: R)); [|simpl; lia|].
  - eapply holds_perm; [|exact Hh]. rewrite Z.mul_1_l. solve_Permutation.
  - intros x' h' Hh' Hlen' [_ Hs']%(same_bytes_app [_]). exists h', [(p, block_size c)], None.
    split_and!; [done|done|simpl in *; lia|done].
Qed.
End class_actions.

(** ** The batch *)

(** Half of a list of the greatest length is cut off: a batch whose last link is null. *)
Lemma cut_excess_wp c x G H R (Q : option (Z * Z) -> class_store -> Prop) :
  holds c x G H R ->
  (Z.of_nat (length H) < MAX_FREE_LIST_LENGTH -> Q None x) ->
  (forall x' l1 p l2, H = l1 ++ p :: l2 -> Z.of_nat (length l2) < MAX_FREE_LIST_LENGTH ->
     holds c x' G l2 (blocks c (l1 ++ [p]) ++ R) -> seg (cs_mem x') (cs_head x) (l1 ++ [p]) 0 ->
     same_bytes R (cs_mem x) (cs_mem x') -> Q (Some (cs_head x, p)) x') ->
  wp cut_excess Q x.
Proof.
  intros (Hc & (HG & HH & Hn & Hlen) & Har) HN HS. unfold cut_excess.
  apply wp_bind, wp_gets. destruct (Z.leb_spec MAX_FREE_LIST_LENGTH (cs_count x)) as [Hge|Hlt].
  2:{ apply wp_ret, HN. lia. }
  unfold MAX_FREE_LIST_LENGTH in *. assert (Hl : length H = 4096%nat) by lia. cbv zeta.
  rewrite Hn, Hl. change (Z.of_nat 4096 / 2) with 2048. change (Z.to_nat 2048) with 2048%nat.
  destruct (split_at H 2047) as (l1 & p & l2 & -> & Hl1 & _ & _); [lia|]. rewrite length_app, length_cons in Hl.
  apply wp_bind, wp_gets, wp_bind.
  replace 2048 with (1 + Z.of_nat (length l1)) at 1 by (rewrite Hl1; done).
  eapply walk_loop_wp; [exact HH|lia|].
  apply seg_app in HH as (k & HH1 & (-> & Hp0 & nx & Hnx & HH2)).
  destruct (Z.eqb_spec p 0); [done|]. simpl negb. cbv iota. apply wp_bind. eapply cs_load_wp; [done|].
  assert (Har' : arena (cs_mem x) ((p, block_size c) :: blocks c G ++ blocks c (l1 ++ l2) ++ R)).
  { eapply arena_perm; [|exact Har]. rewrite !blocks_app, blocks_cons. solve_Permutation. }
  apply wp_bind. eapply cs_link_wp; [done|exact Har'|done|].
  intros m1 Har1 Hld1 Hch1 (SG1 & [SH1 SR1]%same_bytes_app)%same_bytes_app.
  rewrite blocks_app in SH1. apply same_bytes_app in SH1 as [SA1 SB1].
  apply wp_bind, wp_modify, wp_ret. eapply HS; [done|lia| | |done];
    cbn [cs_mem cs_global cs_head cs_count set_cs_mem set_cs_local].
  - split; [done|]. split; [split_and!|]; cbn [cs_mem cs_global cs_head cs_count set_cs_mem set_cs_local].
    + by eapply seg_same.
    + by eapply seg_same.
    + rewrite wrap64_small; unfold is_usize; lia.
    + unfold MAX_FREE_LIST_LENGTH. lia.
    + eapply arena_perm; [|exact Har1]. rewrite !blocks_app. simpl. solve_Permutation.
  - apply seg_app. exists p. split; [by eapply seg_same|]. split_and!; [done|done|]. by exists 0.
Qed.

Lemma cut_excess_act t c n :
  0 <= c < NUM_SIZE_CLASSES -> Z.of_nat n <= MAX_FREE_LIST_LENGTH ->
  acts t (fun v => v = lview [] c (Some n) false) (on_class t c cut_excess)
    (fun r v => match r with
                | Some (h, tl) => exists l1, h = hd 0 (l1 ++ [tl]) /\ v = batching c (l1 ++ [tl]) 0
                | None => v = shold [] []
                end).
Proof.
  intros Hc Hle. apply class_act; [done|]. intros x g h R Hh Hn. simpl in Hn.
  eapply (cut_excess_wp c x g h); [exact Hh|..].
  - intros Hlt. exists h, (shold [] []). split_and!; [done|apply same_bytes_refl|by constructor|done].
  - intros x' l1 p l2 -> Hlt Hh' Hseg Hs. exists l2, (batching c (l1 ++ [p]) 0).
    assert (Hhd : cs_head x = hd 0 (l1 ++ [p])) by by eapply seg_hd.
    split_and!; [done|done| |by exists l1]. constructor; simpl; try done.
    intros c' l e [= <- <- <-]. rewrite <- Hhd. split_and!; [lia|by destruct l1|done].
Qed.

(** The last link of a batch is the thread's to write. *)
Lemma link_batch_act t c l1 p e current :
  is_usize current ->
  acts t (fun v => v = batching c (l1 ++ [p]) e) (md_on_mem (store64_at p current))
    (fun _ v => v = batching c (l1 ++ [p]) current).
Proof.
  intros Hu. apply sact_intro. intros s v G HH Lr Hr Hlo ->. pose proof Hlo as [Ht Hl [Har Hok] Hvw].
  cbn [sv_pend batching] in Har, Hok. rewrite app_nil_r in Har, Hok.
  destruct (lookup_lt_is_Some_2 HH t) as [Hs HHt]; [by rewrite (linked_threads _ _ _ Hl)|].
  destruct (so_batch _ _ _ _ (Hvw Hs HHt) c (l1 ++ [p]) e eq_refl) as (Hc & Hne & Hseg).
  apply seg_app in Hseg as (k & Hseg & -> & Hp0 & nx & _ & ->).
  pose proof (block_size_ge c Hc) as Hbs.
  assert (Har' : arena (ss_mem s) ((p, block_size c) :: (live_ext <$> Lr) ++ Hr ++ blocks c l1 ++ rows_exts G HH)).
  { eapply arena_perm; [|exact Har]. unfold sview_exts, batch_exts. simpl. rewrite blocks_app. simpl. solve_Permutation. }
  destruct (arena_ok _ _ _ Har' (list_elem_of_here _ _)) as (_ & _ & _ & _ & Hacc). cbn [fst snd] in Hacc.
  apply md_on_mem_wp, store64_at_wp; [eapply accessible_sub; [done|lia|lia]|done|]. intros m' Hch Hld.
  assert (Hsame := same_bytes_changes _ _ _ _ _ _ Har' Hch). specialize (Hsame ltac:(unfold sub_ext; simpl; lia)).
  pose proof Hsame as (HsL & (HsH & [HsB HsE]%same_bytes_app)%same_bytes_app)%same_bytes_app.
  pose proof (linked_same s m' G HH HsE Hl) as Hl'. exists (batching c (l1 ++ [p]) current), G, HH.
  split_and!; [constructor|constructor|done|done]; try done.
  - simpl. rewrite app_nil_r. split; [|by eapply same_live_ok].
    eapply arena_perm; [|by eapply arena_changes]. unfold sview_exts, batch_exts. simpl. rewrite blocks_app. simpl. solve_Permutation.
  - intros Hs' HHt'. rewrite HHt in HHt'. injection HHt' as <-. destruct (Hvw Hs HHt) as [_ _ Hln].
    constructor; [|done|exact Hln]. intros c' l e' [= <- <- <-]. split_and!; [done|done|].
    apply seg_app. exists p. split; [by eapply seg_same|]. split_and!; [done|done|]. by exists current.
  - right. intros i g Hg. by exists [].
Qed.
