(* ===== verification/SimpleGlobals.v ===== *)
(** * The actions on the global lists of the simple-cache mode

    The loads and compare-exchanges of the head of a global list, and the read of the
    link of the block on top, verified against the invariant of SimpleViews.  [pop] may
    trust the link it has read because no other thread is inside [pop], so that the block
    it has seen is still in the list when the exchange succeeds. *)

From S2P Require Import Prelude SizeClass Memory Extents AllocSpec Page Metrics.
From S2P Require Import Headers AllocCore SimpleCache SimpleLists SimpleSafe SimpleAllocator.
From S2P Require Import Interleave Process Sharing SimpleThreads SimpleViews SimpleActions.

(** ** One list *)

Lemma linked_put_list s G HH c h' g' :
  linked s G HH -> seg (ss_mem s) h' g' 0 -> linked (put_list c h' s) (<[Z.to_nat c := g']> G) HH.
Proof.
  intros [[Hlen HG] HV] Hs. split; [|done]. split; [by rewrite length_insert|]. by apply Forall2_insert.
Qed.

Lemma linked_get_list s G HH c :
  0 <= c < NUM_SIZE_CLASSES -> linked s G HH ->
  exists h g, get_list c s = Some h /\ G !! Z.to_nat c = Some g /\ seg (ss_mem s) h g 0.
Proof.
  intros Hc Hl. pose proof Hl as [[Hlen _] _].
  destruct (lookup_lt_is_Some_2 G (Z.to_nat c)) as [g Hg]; [lia|].
  destruct (linked_global _ _ _ _ _ Hl Hg) as (h & Hh & Hs). exists h, g. split_and!; [|done|done].
  unfold get_list, arr_get. destruct (Z.leb_spec 0 c); [done|lia].
Qed.

(** The blocks of a global list against the rest. *)
Lemma global_exts_focus G HH c g :
  0 <= c -> G !! Z.to_nat c = Some g ->
  exists R, rows_exts G HH ≡ₚ blocks c g ++ R /\
    forall g', rows_exts (<[Z.to_nat c := g']> G) HH ≡ₚ blocks c g' ++ R.
Proof.
  intros Hc Hg. destruct (concat_imap_focus (fun i l => blocks (Z.of_nat i) l) G _ _ Hg) as (R & HR & HR').
  exists (R ++ concat (row_exts <$> HH)). rewrite Z2Nat.id in HR by done.
  split; [|intros g'; specialize (HR' g'); rewrite Z2Nat.id in HR' by done]; unfold rows_exts, row_exts at 1.
  - rewrite HR. solve_Permutation.
  - rewrite HR'. solve_Permutation.
Qed.

Section lists.
Context (t : nat) (c : Z) (Hc : 0 <= c < NUM_SIZE_CLASSES).

(** The link of a block of the list. *)
Lemma seg_link m h l e p : seg m h l e -> p ∈ l -> exists nx, load64 m p = Some nx.
Proof.
  revert h. induction l as [|q l IH]; intros h; [by intros _ ?%elem_of_nil|].
  intros (-> & _ & nx & Hnx & Hl). rewrite elem_of_cons. intros [->|Hp]; eauto.
Qed.

(** An action on the head: it moves blocks between the list and the thread. *)
Lemma list_act {B} (m : M Z B) P (P' : B -> sview -> Prop) :
  (forall mm G Hs h g v, is_usize h -> G !! Z.to_nat c = Some g -> seg mm h g 0 -> sview_ok mm G Hs v -> P v ->
   wp m (fun b h' => exists v' g', seg mm h' g' 0 /\
     sview_exts v' ++ blocks c g' ≡ₚ sview_exts v ++ blocks c g /\
     sv_pend v' = sv_pend v /\ sv_in v' = sv_in v /\ (sv_in v = true \/ exists l, g' = l ++ g) /\
     sview_ok mm (<[Z.to_nat c := g']> G) Hs v' /\ P' b v') h) ->
  acts t P (on_list c m) P'.
Proof.
  intros Hm. apply sact_intro. intros s v G HH Lr Hr Hlo HP. pose proof Hlo as [Ht Hl [Har Hok] Hvw].
  destruct (linked_get_list s G HH c Hc Hl) as (h & g & Hh & Hg & Hseg).
  destruct (lookup_lt_is_Some_2 HH t) as [Hs HHt]; [by rewrite (linked_threads _ _ _ Hl)|].
  destruct (global_exts_focus G HH c g) as (R & HR & HR'); [lia|done|].
  eapply wp_zoom; [exact Hh|].
  eapply wp_mono; [apply (Hm (ss_mem s) G Hs h g v); auto|].
  { eapply (seg_head_usize c _ _ _ ((live_ext <$> Lr ++ sv_pend v) ++ Hr ++ sview_exts v ++ R)); [exact Hseg|].
    eapply arena_perm; [|exact Har]. rewrite HR. solve_Permutation. }
  intros b h' (v' & g' & Hseg' & Hx & Hpd & Hi & Hg' & Hvw' & HP').
  exists v', (<[Z.to_nat c := g']> G), HH. split_and!; [constructor|constructor|done|by apply keeps_mem]; try done.
  - by apply linked_put_list.
  - rewrite Hpd. split; [|done]. eapply arena_perm; [|exact Har]. rewrite HR, HR'.
    assert (E1 : sview_exts v' ++ blocks c g' ++ R ≡ₚ sview_exts v ++ blocks c g ++ R)
      by (rewrite !(assoc_L (++)), Hx; done). by rewrite E1.
  - intros Hs' HHt'. rewrite HHt in HHt'. by injection HHt' as <-.
  - destruct Hg' as [?|[l ->]]; [by left|right]. intros j gj Hj.
    destruct (decide (j = Z.to_nat c)) as [->|Hne].
    + rewrite Hg in Hj. injection Hj as <-. exists l. apply list_lookup_insert_eq. by eapply lookup_lt_Some.
    + exists []. by rewrite list_lookup_insert_ne.
Qed.

(** The head is read; what the thread knows does not change. *)
Lemma load_head_act P : acts t P (load_head c) (fun h v => P v /\ is_usize h).
Proof.
  apply list_act. intros mm G Hs h g v Hu Hg Hseg Hok HP. exists h, h. split; [done|].
  exists v, g. rewrite list_insert_id by done. split_and!; try done. right. by exists [].
Qed.

(** ** Inside [pop] *)

(** The thread has read the head [h]. *)
Definition at_top (n : nat) (h : Z) : sview :=
  if h =? 0 then lview [] c (Some n) true else seeing c n h None.

Lemma at_top_exts n h : sview_exts (at_top n h) = [].
Proof. unfold at_top. by destruct (h =? 0). Qed.

Lemma at_top_ok mm G Hs h g n v :
  G !! Z.to_nat c = Some g -> seg mm h g 0 -> sv_len v = Some (c, n) -> sview_ok mm G Hs v ->
  sview_ok mm G Hs (at_top n h).
Proof.
  intros Hg Hseg Hn [_ _ Hlen]. rewrite Hn in Hlen. unfold at_top. destruct (Z.eqb_spec h 0) as [|H0].
  - by constructor.
  - constructor; [done| |done]. intros c' cur nx [= <- <- <-]. split; [done|]. exists g. split_and!; [done| |done].
    destruct (seg_cons _ _ _ H0 Hseg) as (l & nx & -> & _). apply list_elem_of_here.
Qed.

(** The head is found where the thread already is inside [pop]. *)
Lemma at_top_found mm G Hs h g n v :
  G !! Z.to_nat c = Some g -> seg mm h g 0 -> sv_len v = Some (c, n) -> sview_ok mm G Hs v ->
  sview_exts v = [] -> sv_pend v = [] -> sv_in v = true ->
  exists v' g', seg mm h g' 0 /\
     sview_exts v' ++ blocks c g' ≡ₚ sview_exts v ++ blocks c g /\
     sv_pend v' = sv_pend v /\ sv_in v' = sv_in v /\ (sv_in v = true \/ exists l, g' = l ++ g) /\
     sview_ok mm (<[Z.to_nat c := g']> G) Hs v' /\ v' = at_top n h.
Proof.
  intros Hg Hseg Hn Hok Hx Hpd Hi. exists (at_top n h), g. rewrite list_insert_id by done.
  rewrite at_top_exts, Hx, Hpd, Hi. split_and!; try done; [..|by left|by eapply at_top_ok]; unfold at_top; by destruct (h =? 0).
Qed.

Lemma load_top_act n :
  acts t (fun v => v = lview [] c (Some n) true) (load_head c) (fun h v => v = at_top n h).
Proof.
  apply list_act. intros mm G Hs h g v Hu Hg Hseg Hok ->. exists h, h. split; [done|].
  by eapply at_top_found.
Qed.

(** The link of the block on top, which is still in the list. *)
Lemma read_link_act n current :
  acts t (fun v => v = seeing c n current None) (md_on_mem (load64_at current))
    (fun nx v => v = seeing c n current (Some nx)).
Proof.
  apply sact_intro. intros s v G HH Lr Hr Hlo ->. pose proof Hlo as [Ht Hl Hlv Hvw].
  destruct (lookup_lt_is_Some_2 HH t) as [Hs HHt]; [by rewrite (linked_threads _ _ _ Hl)|].
  destruct (so_pop _ _ _ _ (Hvw Hs HHt) c current None eq_refl) as (_ & g & Hg & Hcur & _).
  destruct (linked_global _ _ _ _ _ Hl Hg) as (h & _ & Hseg). destruct (seg_link _ _ _ _ _ Hseg Hcur) as [nx Hnx].
  apply md_on_mem_wp. eapply load64_at_wp; [exact Hnx|].
  assert (Hid : md_set (md_mem s) s = s) by by destruct s. rewrite Hid.
  exists (seeing c n current (Some nx)), G, HH. split_and!; [constructor|constructor|done|by apply keeps_mem]; try done.
  - intros Hs' HHt'. destruct (Hvw Hs' HHt') as [_ _ Hlen]. constructor; [done| |exact Hlen].
    intros c' cur next [= <- <- <-]. split; [done|]. exists g. split_and!; [done|done|]. by intros ? [= <-].
  - right. intros j gj Hj. by exists [].
Qed.

(** The exchange of [pop]. *)
Lemma cas_list_pop_act n current next spurious :
  acts t (fun v => v = seeing c n current (Some next)) (cas_head c current next spurious)
    (fun r v => match r with
                | inl h => v = at_top n h
                | inr _ => v = lview [(current, block_size c)] c (Some n) true
                end).
Proof.
  apply list_act. intros mm G Hs h g v Hu Hg Hseg Hok ->. apply wp_bind. exists h, h. split; [done|].
  destruct (negb spurious && (h =? current)) eqn:Hcas.
  2:{ apply wp_ret. by eapply at_top_found. }
  apply andb_true_iff in Hcas as [_ ->%Z.eqb_eq]. apply wp_bind, wp_modify, wp_ret.
  destruct (so_pop _ _ _ _ Hok c current (Some next) eq_refl) as (_ & g0 & Hg0 & Hcur & Hnx).
  rewrite Hg in Hg0. injection Hg0 as <-. specialize (Hnx next eq_refl).
  destruct g as [|p g]; [by apply elem_of_nil in Hcur|]. destruct Hseg as (-> & Hp0 & nx & Hnx' & Hseg).
  rewrite Hnx in Hnx'. injection Hnx' as <-.
  exists (lview [(p, block_size c)] c (Some n) true), g. split_and!; try done; [by left|].
  destruct Hok as [_ _ Hlen]. by constructor.
Qed.

(** ** The exchange of [push_batch] *)

Lemma cas_list_push_act l current spurious :
  acts t (fun v => v = batching c l current) (cas_head c current (hd 0 l) spurious)
    (fun r v => match r with
                | inl h => v = batching c l current /\ is_usize h
                | inr _ => v = shold [] []
                end).
Proof.
  apply list_act. intros mm G Hs h g v Hu Hg Hseg Hok ->. apply wp_bind. exists h, h. split; [done|].
  destruct (negb spurious && (h =? current)) eqn:Hcas.
  2:{ apply wp_ret. exists (batching c l current), g. rewrite list_insert_id by done.
      split_and!; try done. right. by exists []. }
  apply andb_true_iff in Hcas as [_ ->%Z.eqb_eq]. apply wp_bind, wp_modify, wp_ret.
  destruct (so_batch _ _ _ _ Hok c l current eq_refl) as (_ & Hne & Hl).
  exists (shold [] []), (l ++ g). split_and!; try done.
  - apply seg_app. eauto.
  - unfold sview_exts, batch_exts. simpl. by rewrite blocks_app.
  - right. by exists l.
  - destruct Hok as [_ _ Hlen]. by constructor.
Qed.
End lists.
