(* ===== verification/SimpleCalls.v ===== *)
(** * The calls of the simple-cache mode are safe

    [alloc] and [dealloc] of the simple-cache mode as programs, verified in the logic of
    Interleave from the actions of SimpleActions and SimpleGlobals; their loops come to an
    end when nobody interferes; together, the mode as an instance of [SharedCalls]. *)

From S2P Require Import Prelude SizeClass Memory Extents AllocSpec Page Metrics.
From S2P Require Import Headers AllocCore SimpleCache SimpleLists SimpleSafe SimpleAllocator.
From S2P Require Import Interleave Process Sharing ProcessSafe SimpleThreads SimpleViews SimpleActions SimpleGlobals.

(** ** Views of a thread that knows the length of a list *)

(** Between actions the thread goes into and out of [pop], or stops counting. *)
Lemma lview_move t c s vs L F n n' i i' :
  svalid s vs L -> vs !! t = Some (lview F c n i) -> (i' = true -> alone sv_in t vs) ->
  (n' = n \/ n' = None /\ exists k, n = Some k /\ Z.of_nat k < MAX_FREE_LIST_LENGTH) ->
  svalid s (<[t := lview F c n' i']> vs) L.
Proof.
  intros (G & HH & Hsys) Ht Hal Hn. exists G, HH. apply (ssys_move t s vs L G HH _ Hsys Ht _ L []); try done.
  intros Hs HHt. destruct (yy_views _ _ _ _ _ Hsys _ _ _ Ht HHt) as [_ _ Hlen].
  constructor; [done|done|]. intros j l Hj. specialize (Hlen j l Hj).
  destruct Hn as [->|(-> & k & -> & Hk)]; [exact Hlen|]. simpl in *.
  destruct (decide (j = Z.to_nat c)); [|done]. by rewrite Hlen.
Qed.

Section programs.
Context `{K : Kernel} {KS : KernelSpec K}.
Context (t : nat).

(** ** The global lists *)

Lemma pop_safe c n :
  0 <= c < NUM_SIZE_CLASSES ->
  safe t (fun v => v = lview [] c (Some n) false) (pop_prog c)
    (fun r v => v = lview ((fun b => (b, block_size c)) <$> option_list r) c (Some n) false).
Proof.
  intros Hc. exists (fun v => v = lview [] c (Some n) true). split.
  { intros s vs L v Hv Ht -> Hal. exists (lview [] c (Some n) true). split_and!; [|done|done].
    eapply lview_move; [done|done|done|by left]. }
  apply safe_act with (R := fun h v => v = at_top c n h); [by apply load_top_act|]. intros h.
  set (R := fun (r : option Z) v => v = lview ((fun b => (b, block_size c)) <$> option_list r) c (Some n) true).
  exists (fun h v => v = at_top c n h), R. split_and!; [done| |].
  - clear h. intros h. unfold at_top. destruct (Z.eqb_spec h 0) as [->|H0]; [by intros v ->|].
    eapply safe_act; [by apply read_link_act|]. intros nx.
    eapply safe_weak; [intros spurious; by apply cas_list_pop_act|]. intros [found|[]]; by intros v Hv.
  - intros r. eexists. split; [|by intros v Hv; exact Hv]. intros s vs L v Hv Ht ->.
    eexists. split_and!; [|done|done]. eapply lview_move; [done|done|done|by left].
Qed.

(** The thread's list grows by what [pop_batch] returns. *)
Lemma pop_batch_safe c rounds : 0 <= c < NUM_SIZE_CLASSES -> forall n,
  Z.of_nat (n + rounds) <= MAX_FREE_LIST_LENGTH ->
  safe t (fun v => v = lview [] c (Some n) false) (pop_batch_rounds rounds t c (Z.of_nat n))
    (fun k v => exists n', k = Z.of_nat n' /\ v = lview [] c (Some n') false /\ Z.of_nat n' <= MAX_FREE_LIST_LENGTH).
Proof.
  intros Hc. induction rounds as [|rounds IH]; intros n Hn; cbn [pop_batch_rounds].
  - apply safe_done. intros v ->. exists n. split_and!; [done|done|lia].
  - eapply safe_bind; [by apply pop_safe|]. intros [b|].
    + eapply safe_act; [apply push_local_act; [done|lia]|]. intros [].
      rewrite wrap64_small by (unfold is_usize, MAX_FREE_LIST_LENGTH in *; lia).
      replace (Z.of_nat n + 1) with (Z.of_nat (S n)) by lia. apply IH. lia.
    + apply safe_done. intros v ->. exists n. split_and!; [done|done|lia].
Qed.

Lemma push_batch_safe c l1 p e :
  0 <= c < NUM_SIZE_CLASSES ->
  safe t (fun v => v = batching c (l1 ++ [p]) e) (push_batch_prog c (hd 0 (l1 ++ [p])) p)
    (fun _ v => v = shold [] []).
Proof.
  intros Hc. unfold push_batch_prog. eapply safe_act; [by apply load_head_act|]. intros h.
  exists (fun h v => exists e, v = batching c (l1 ++ [p]) e /\ is_usize h), (fun _ v => v = shold [] []).
  split_and!; [intros v [-> ?]; eauto| |by intros b v].
  clear h. intros h. apply safe_exists. intros e'. apply safe_assume. intros Hu.
  eapply safe_act; [by apply link_batch_act|]. intros [].
  apply safe_weak_last. intros spurious. eapply acts_post; [by apply cas_list_push_act|].
  intros [found|[]] v Hv; [by exists h|done].
Qed.

(** ** [alloc] *)

Lemma take_block_safe c :
  0 <= c < NUM_SIZE_CLASSES ->
  safe t (fun v => v = shold [] []) (take_cached_block_prog t c)
    (fun r v => match r with
                | Some b => v = shold [(b, block_size c)] []
                | None => v = lview [] c (Some 0%nat) false
                end).
Proof.
  intros Hc. unfold take_cached_block_prog. eapply safe_act; [by apply take_first_act|].
  intros [b|]; [by apply safe_done|].
  eapply safe_act; [by apply load_head_act|]. intros h. apply safe_assume. intros _.
  destruct (negb (h =? 0)); [|by apply safe_done].
  eapply safe_bind; [apply (pop_batch_safe c _ Hc 0); unfold MAX_FREE_LIST_LENGTH, GLOBAL_FREE_BATCH; lia|].
  intros k. apply safe_exists. intros n.
  apply (safe_pre t (fun v => v = lview [] c (Some n) false /\ k = Z.of_nat n /\ Z.of_nat n <= MAX_FREE_LIST_LENGTH));
    [intros v (? & ? & ?); done|]. apply safe_assume. intros [-> Hn].
  destruct (Z.ltb_spec 0 (Z.of_nat n)) as [H0|H0].
  - eapply safe_act; [apply take_head_act; [done|lia|done]|]. intros b. by apply safe_done.
  - replace n with 0%nat by lia. by apply safe_done.
Qed.

(** New pages, cut into the parts [G], for a thread that knows the length of a list. *)
Lemma counted_pages_act pages (G : Z -> list (Z * Z)) c n :
  0 < pages < 2 ^ 52 ->
  (forall p, p mod PAGE_SIZE = 0 -> all_disjoint (G p) /\
     Forall (fun e => sub_ext e (p, pages * PAGE_SIZE) /\ e.1 mod 16 = 0 /\ 0 <= e.2) (G p)) ->
  acts t (fun v => v = lview [] c n false) (md_on_mem (PageAllocator_alloc pages))
    (fun r v => v = lview (match r with Some p => G p | None => [] end) c n false).
Proof.
  intros Hpg HG. apply (smem_act t _ [] [] (lview [] c n false)). intros mm R Har _.
  apply (pages_wp R); [exact Har|done|..].
  - intros _. by exists [], [].
  - intros p mm' Har' Hs Ha H0 Htop. destruct (HG p Ha) as [Hd Hf]. exists (G p), [].
    split_and!; try done. by apply (arena_refine _ (p, pages * PAGE_SIZE)).
Qed.

(** A thread with an empty list takes pages for one block. *)
Lemma simple_own_pages_safe size align c :
  0 < size <= MAX_CACHE_SIZE -> align <= 8 -> size_to_class size = Some c ->
  safe t (fun v => v = lview [] c (Some 0%nat) false) (alloc_own_pages_prog t size (block_size c)) (returns size align).
Proof.
  intros Hs Ha Hc.
  apply (ok_shift sh_valid keeps sh_inside t _ (fun v => v = shold [] [])).
  - intros s vs L v Hv Ht ->. exists (lview [] c None false). split_and!; [|done|done].
    eapply lview_move; [done|done|done|]. right. split; [done|]. by exists 0%nat.
  - exact (alloc_own_pages_safe (SH := sstate_sharing) t size align c Hs Ha Hc).
Qed.

Lemma simple_miss_safe size align c :
  0 < size <= MAX_CACHE_SIZE -> align <= 8 -> size_to_class size = Some c ->
  safe t (fun v => v = lview [] c (Some 0%nat) false) (simple_miss_prog t c size (class_size c)) (returns size align).
Proof.
  intros Hs Ha Hc. pose proof (small_class_range _ _ Hc) as Hcr. unfold simple_miss_prog.
  eapply safe_bind; [apply count_safe|]. intros []. cbv zeta. rewrite block_size_eq by done.
  destruct (Z.ltb_spec 1 (PAGE_SIZE / block_size c)) as [Hbpp|Hbpp]; [|by apply simple_own_pages_safe].
  set (n := Z.to_nat (PAGE_SIZE / block_size c - 1)).
  eapply safe_act;
    [apply (counted_pages_act 1 (fun p => carve p (block_size c) (S n))); [lia|intros p Hp; by apply page_blocks]|].
  intros [p|]; [|by apply simple_own_pages_safe]. rewrite carve_S.
  assert (H14 : 0 <= c < NUM_SIZE_CLASSES) by (unfold NUM_SIZE_CLASSES; lia).
  eapply safe_act; [apply (refill_act t c H14 p n)|intros []; by apply (miss_block_safe (SH := sstate_sharing) t)].
  pose proof (block_size_class c Hcr). assert (PAGE_SIZE / block_size c <= PAGE_SIZE / 32)
    by (apply Z.div_le_compat_l; [done|lia]).
  unfold MAX_FREE_LIST_LENGTH. change (PAGE_SIZE / 32) with 128 in *. lia.
Qed.

(** [alloc]: the thread ends with the allocation it returns, or with nothing and null. *)
Lemma simple_alloc_safe size align :
  layout_ok size align ->
  safe t (fun v => v = shold [] []) (simple_alloc_prog t size align) (returns size align).
Proof.
  intros Hlay. apply (alloc_dispatch_safe (SH := sstate_sharing) t size align (take_cached_block_prog t)
    (fun class => simple_miss_prog t class size) (fun c v => v = lview [] c (Some 0%nat) false));
    [done| |intros c ? ? ?; by apply simple_miss_safe].
  intros c Hc. apply take_block_safe. unfold NUM_SIZE_CLASSES. lia.
Qed.

(** ** [dealloc] *)

Lemma simple_dealloc_cached_safe c b :
  0 <= c <= 12 ->
  safe t (fun v => v = shold [(b, block_size c)] []) (simple_dealloc_cached_prog t c b) (fun _ => leaves).
Proof.
  intros Hc. assert (H14 : 0 <= c < NUM_SIZE_CLASSES) by (unfold NUM_SIZE_CLASSES; lia).
  unfold simple_dealloc_cached_prog. eapply safe_act; [by apply push_free_act|]. intros [].
  eapply safe_bind; [apply (record_safe (SH := sstate_sharing) t)|]. intros []. cbv beta. apply safe_exists. intros n. apply safe_assume. intros Hn.
  unfold flush_excess_prog. eapply safe_act; [by apply cut_excess_act|].
  intros [[h p]|]; [|apply safe_done; intros v ->; by exists []].
  apply safe_exists. intros l1. apply (safe_pre t (fun v => v = batching c (l1 ++ [p]) 0 /\ h = hd 0 (l1 ++ [p])));
    [intros v [? ?]; done|]. apply safe_assume. intros ->.
  eapply ok_post; [|by apply push_batch_safe]. intros [] v ->. by exists [].
Qed.

(** [dealloc] of an allocation: the thread ends with nothing the others could miss. *)
Lemma simple_dealloc_safe x :
  0 < x.1 -> safe t (fun v => v = shold [] [x]) (simple_dealloc_prog t x.1) (fun _ => leaves).
Proof.
  apply (dealloc_dispatch_safe (SH := sstate_sharing) t x (simple_dealloc_cached_prog t)).
  intros c b. apply simple_dealloc_cached_safe.
Qed.
End programs.

(** ** The loops settle *)

#[local] Arguments md_on_mem : simpl never.

Lemma put_get_list c s h : get_list c s = Some h -> put_list c h s = s.
Proof. intros [_ Hh]%arr_get_lookup. unfold put_list. rewrite (list_insert_id _ _ _ Hh). by destruct s. Qed.

(** A strong compare-exchange, from a known head. *)
Lemma cas_head_run c current new s :
  cas_head c current new false s =
  match get_list c s with
  | Some h => if h =? current then Ret (inr tt, put_list c new s) else Ret (inl h, s)
  | None => Panic
  end.
Proof.
  unfold cas_head, on_list, zoom. destruct (get_list c s) as [h|] eqn:Hh; [|done].
  rewrite bind_run. cbn [getS negb andb]. destruct (h =? current); [by rewrite bind_run|].
  cbn. by rewrite (put_get_list _ _ _ Hh).
Qed.

Lemma on_mem_list {A} c (m : M memory A) (s s' : sstate) a :
  md_on_mem m s = Ret (a, s') -> get_list c s' = get_list c s.
Proof.
  unfold md_on_mem, zoom. cbn. destruct (m (ss_mem s)) as [[b mm]| | |]; try done. by intros [= _ <-].
Qed.

Lemma push_batch_ends c h p :
  second_round_ends (fun current =>
    atomic (md_on_mem (store64_at p current)) ;; weak (cas_head c current h)).
Proof.
  intros x s x' s1 r s2. unfold weak, atomic. cbn [mbind prog_bind solo]. rewrite !bind_run.
  destruct (md_on_mem (store64_at p x) s) as [[u sa]| | |]; try done. rewrite bind_run, cas_head_run.
  destruct (get_list c sa) as [g|] eqn:Hg; [|done]. destruct (g =? x); [done|]. intros [= <- <-].
  destruct (md_on_mem (store64_at p g) sa) as [[u' sb]| | |] eqn:Hm; try done.
  rewrite bind_run, cas_head_run, (on_mem_list c _ _ _ _ Hm), Hg, Z.eqb_refl. intros [= <- _]. eauto.
Qed.

Lemma pop_ends c :
  second_round_ends (fun current =>
    if current =? 0 then mret (inr None)
    else
      next ← atomic (md_on_mem (load64_at current));
      r ← weak (cas_head c current next);
      mret (match r with inl c => inl c | inr _ => inr (Some current) end)).
Proof.
  intros x s x' s1 r s2. unfold weak, atomic. cbn [mbind prog_bind solo].
  destruct (x =? 0); [done|]. cbn [mbind prog_bind solo]. rewrite !bind_run.
  destruct (md_on_mem (load64_at x) s) as [[u sa]| | |]; try done. cbn [mbind prog_bind solo].
  rewrite bind_run, cas_head_run.
  destruct (get_list c sa) as [g|] eqn:Hg; [|done]. destruct (g =? x); [done|]. intros [= <- <-].
  destruct (g =? 0); [intros [= <- _]; eauto|]. cbn [mbind prog_bind solo]. rewrite !bind_run.
  destruct (md_on_mem (load64_at g) sa) as [[u' sb]| | |] eqn:Hm; try done. cbn [mbind prog_bind solo].
  rewrite bind_run, cas_head_run, (on_mem_list c _ _ _ _ Hm), Hg, Z.eqb_refl. intros [= <- _]. eauto.
Qed.

Section settling.
Context `{K : Kernel}.

Lemma pop_settles c : settles (pop_prog c).
Proof.
  unfold pop_prog. cbn [mbind prog_bind atomic settles]. intros h.
  split_and!; [|apply pop_ends|done]. intros x. destruct (x =? 0); [done|]. by intros b coin r.
Qed.

Lemma pop_batch_settles t c rounds : forall k, settles (pop_batch_rounds rounds t c k).
Proof.
  pose proof pop_settles. induction rounds as [|rounds IH]; intros k; cbn [pop_batch_rounds]; settle.
Qed.

Lemma push_batch_settles c h p : settles (push_batch_prog c h p).
Proof.
  unfold push_batch_prog. settle. split_and!; [|apply push_batch_ends|done]. by intros x b coin r.
Qed.

Lemma take_block_settles t c : settles (take_cached_block_prog t c).
Proof. pose proof pop_batch_settles. unfold take_cached_block_prog, pop_batch_prog. settle. Qed.

(** [alloc] and [dealloc] end when they run alone. *)
Lemma simple_alloc_settles t size align : settles (simple_alloc_prog t size align).
Proof.
  pose proof take_block_settles.
  unfold simple_alloc_prog, cache_hit_prog, simple_miss_prog, alloc_own_pages_prog, miss_block_prog, alloc_large_prog,
    record_prog, count_prog, flush_prog. settle.
Qed.

Lemma simple_dealloc_settles t ptr : settles (simple_dealloc_prog t ptr).
Proof.
  pose proof push_batch_settles.
  unfold simple_dealloc_prog, simple_dealloc_cached_prog, flush_excess_prog, dealloc_by_page_prog, dealloc_pages_prog,
    record_prog, count_prog, flush_prog. settle.
Qed.
End settling.

(** The mode, for processes. *)
#[global] Instance sstate_shared_calls `{K : Kernel} {KS : KernelSpec K} : SharedCalls sstate sview.
Proof.
  split.
  - apply simple_alloc_safe.
  - apply simple_dealloc_safe.
  - intros t v ->. by exists [].
  - apply simple_alloc_settles.
  - apply simple_dealloc_settles.
Qed.
