(* ===== verification/SimpleConcurrent.v ===== *)
(** * Concurrent clients of the simple-cache mode

    The allocator built without its default feature, with any number of threads inside
    [alloc] and [dealloc] at once: the theorems of ProcessSafe for this mode, whose section
    is [GlobalFreeList::pop], and a run of two threads. *)

From S2P Require Import Prelude SizeClass Memory Extents AllocSpec Page Metrics.
From S2P Require Import Headers AllocCore SimpleCache SimpleAllocator Interleave Process Sharing ProcessSafe.
From S2P Require Import SimpleThreads SimpleViews SimpleActions SimpleCalls.

Section theorems.
Context `{K : Kernel} {KS : KernelSpec K}.

(** C11: the simple-cache mode under threads: whatever the threads of a process do,
    interleaved access by access inside [alloc] and [dealloc] (while others move batches
    of blocks in and out of the global free lists) and with loads and stores of their
    own, as long as its clients keep to the rules of the reference heap and no two threads
    are inside [GlobalFreeList::pop] at once, the history of the process is a history of
    the reference heap. *)
Theorem simple_concurrent_refines m n tr (c : process sstate) :
  process_reach exclusive m n tr c ->
  exists h, heap_history heap_empty tr h /\
    (forall a, owns h a -> is_Some (load8 (ss_mem (pr_state c)) a)) /\
    (forall a w, h_known h !! a = Some w -> load8 (ss_mem (pr_state c)) a = Some w).
Proof. exact (process_refines (V := sview) m n tr c). Qed.


(** Run by one thread with nobody in between, the programs of the simple-cache mode
    give from every state the result, the final state or the failure of the calls of its
    sequential model. *)
Theorem simple_calls_alone t size align ptr :
  same_runs (solo (simple_alloc_prog t size align)) (simple_alloc t size align) /\
  same_runs (solo (simple_dealloc_prog t ptr)) (simple_dealloc t ptr).
Proof. split; [apply solo_simple_alloc|apply solo_simple_dealloc]. Qed.
End theorems.

(** ** A run with both threads inside *)

(** Both threads allocate at once, then thread 1 frees what thread 0 got, while thread 0
    allocates again. *)
Definition simple_first : process sstate := begin_alloc 1 100 8 (begin_alloc 0 100 8 (process_new (Memory [] ∅) 2)).
Definition simple_second : process sstate := begin_alloc 0 100 8 (begin_free 1 65552 (after (turns 20) simple_first)).
Definition simple_last : process sstate := after (turns 20) simple_second.

Definition simple_history : list history_event :=
  [(CallAlloc 0 100 8, 65552); (CallAlloc 1 100 8, 69648); (CallFree 1 65552, 0);
   (CallAlloc 0 100 8, 69440)].

Lemma simple_first_reach : process_reach exclusive (Memory [] ∅) 2 [] simple_first.
Proof.
  do 2 (apply begin_alloc_reach; [|done|apply permitted_alloc; simpl; lia]). apply process_reach_new.
Qed.

Lemma simple_process_reach : process_reach exclusive (Memory [] ∅) 2 simple_history simple_last.
Proof.
  apply (hand_over_reach _ 65552 69648 simple_first (turns 20) (after (turns 20) simple_first) (turns 20)
    (drop 3 simple_history)); [exact simple_first_reach| | |done|done|]; [apply run_after| |apply run_after]; by vm_compute.
Qed.

Lemma simple_concurrent_refines_witness :
  process_reach exclusive (Memory [] ∅) 2 simple_history simple_last /\
  exists h, heap_history heap_empty simple_history h /\
    (forall a, owns h a -> is_Some (load8 (ss_mem (pr_state simple_last)) a)) /\
    (forall a w, h_known h !! a = Some w -> load8 (ss_mem (pr_state simple_last)) a = Some w).
Proof. split; [exact simple_process_reach|]. exact (simple_concurrent_refines _ _ _ _ simple_process_reach). Defined.




(** ** Two threads inside [pop] *)

(** [k] steps of a program, without spurious failures. *)
Fixpoint run_steps {A} (k : nat) (p : prog sstate A) : M sstate (prog sstate A) :=
  match k with
  | O => mret p
  | S k' => r ← pstep false false p; run_steps k' r.2
  end.

Definition finished {A} (p : prog sstate A) : option A :=
  match p with Done a => Some a | _ => None end.

Definition pop_twice (class : Z) : prog sstate (option Z * option Z) :=
  first ← pop_prog class; second ← pop_prog class; mret (first, second).

(** A thread that pops two blocks and gives the first one back. *)
Definition pop_twice_return (class : Z) : prog sstate (option Z * option Z) :=
  r ← pop_twice class;
  match r.1 with
  | Some block => push_batch_prog class block block
  | None => mret tt
  end ;;
  mret r.

(** The first thread is overtaken between the read of a link and its exchange. *)
Definition pop_race (class : Z) : M sstate (option (option Z * option Z) * option (option Z * option Z)) :=
  p ← run_steps 4 (pop_twice class);
  q ← run_steps 40 (pop_twice_return class);
  p' ← run_steps 40 p;
  mret (finished p', finished q).

(** Three blocks of class 0 in a fresh page. *)
Definition three_blocks `{K : Kernel} : M sstate Z :=
  r ← md_on_mem (PageAllocator_alloc 1);
  match r with
  | Some base =>
      solo (push_batch_prog 0 (base + 64) (base + 64)) ;;
      solo (push_batch_prog 0 (base + 32) (base + 32)) ;;
      solo (push_batch_prog 0 base base) ;;
      mret base
  | None => mret 0
  end.

(** The exclusion is needed: a thread that was overtaken inside [pop] by another one that
    took two blocks and returned the first installs a link that is out of date, and is
    given the second block, which the other thread still has. *)
Theorem global_pop_race :
  match (base ← three_blocks; r ← pop_race 0; mret (base, r)) (sstate_new (Memory [] ∅) 2) with
  | Ret ((base, (mine, theirs)), _) =>
      mine = Some (Some base, Some (base + 32)) /\ theirs = Some (Some base, Some (base + 32))
  | _ => False
  end.
Proof. vm_compute. by split. Qed.
