(* ===== verification/SimpleCounts.v ===== *)
(** * The counters of the simple-cache mode when threads interleave

    The calls of the mode pay their debts to the counters (ProcessCounts): everything but
    the counters' own programs is silent. *)

From S2P Require Import Prelude SizeClass Memory Extents AllocSpec Page Metrics.
From S2P Require Import Headers AllocCore SimpleCache SimpleAllocator Allocator Text Exporter Counting.
From S2P Require Import Interleave Process Sharing ProcessSafe ProcessCounts.
From S2P Require Import SimpleThreads SimpleViews SimpleActions SimpleCalls SimpleConcurrent.

Lemma quiet_list {A} class (m : M Z A) : quiet (on_list class m).
Proof. by apply quiet_zoom. Qed.

Lemma quiet_load_head class : quiet (load_head class).
Proof. apply quiet_list. Qed.

Lemma quiet_cas_head class e v b : quiet (cas_head class e v b).
Proof. apply quiet_list. Qed.

Lemma quiet_smemory {A} (m : M memory A) : quiet (md_on_mem m : M sstate A).
Proof. exact (@quiet_on_mem sstate sstate_mode sstate_counts sstate_count_laws A m). Qed.

#[local] Hint Resolve quiet_smemory quiet_load_head quiet_cas_head : counting.

Section programs.
Context `{K : Kernel} (t : nat).

Lemma pop_silent class : silent (pop_prog class).
Proof. unfold pop_prog. hush. Qed.

Lemma push_batch_silent class h p : silent (push_batch_prog class h p).
Proof. unfold push_batch_prog. hush. Qed.

Lemma pop_batch_silent class rounds : forall k, silent (pop_batch_rounds rounds t class k).
Proof. pose proof pop_silent. induction rounds as [|rounds IH]; intros k; cbn [pop_batch_rounds]; hush. Qed.

Lemma take_block_silent class : silent (take_cached_block_prog t class).
Proof. pose proof pop_batch_silent. unfold take_cached_block_prog, pop_batch_prog. hush. Qed.

Lemma flush_excess_silent class : silent (flush_excess_prog t class).
Proof. pose proof push_batch_silent. unfold flush_excess_prog. hush. Qed.

Lemma simple_miss_pledge class size cs c d :
  settled (minus_event EvMiss d) -> pledge t (simple_miss_prog t class size cs) c d.
Proof.
  apply (miss_pledge t size _ (fun base => atomic (on_class t class
    (refill_loop (Z.to_nat (PAGE_SIZE / (cs +! CACHE_HEADER_SIZE) - 1)) 1 base (cs +! CACHE_HEADER_SIZE))))).
  intros base. hush.
Qed.

Lemma simple_alloc_pledge size align c :
  pledge t (simple_alloc_prog t size align) c (debt_of (CallAlloc t size align)).
Proof.
  exact (alloc_dispatch_pledge t size align (take_cached_block_prog t)
    (fun class => simple_miss_prog t class size) c take_block_silent (fun class => simple_miss_pledge class size)).
Qed.

Lemma simple_dealloc_cached_pledge class block c d :
  settled (minus_event EvFree d) -> pledge t (simple_dealloc_cached_prog t class block) c d.
Proof.
  intros Hd. apply pledge_silent; [hush|]. intros _. apply pledge_record. intros c'.
  apply pledge_tail, pledge_silent; [apply flush_excess_silent|]. done.
Qed.

Lemma simple_dealloc_pledge ptr c : pledge t (simple_dealloc_prog t ptr) c (debt_of (CallFree t ptr)).
Proof. exact (dealloc_dispatch_pledge t ptr (simple_dealloc_cached_prog t) c simple_dealloc_cached_pledge). Qed.
End programs.

#[global] Instance sstate_count_progs `{K : Kernel} : CountProgs sstate.
Proof.
  split.
  - apply _.
  - intros m n. unfold co, sstate_counts. cbn. by rewrite fmap_replicate.
  - apply simple_alloc_pledge.
  - apply simple_dealloc_pledge.
Qed.

Section theorems.
Context `{K : Kernel} {KS : KernelSpec K}.

(** C20: the counters of the simple-cache mode: however the threads interleave, also with
    several of them inside [GlobalFreeList::pop] at once, the text that the exporter serves
    when no thread is inside a call shows every call of the history: with what the threads
    have not flushed yet the counters are the numbers of calls, modulo 2^64. *)
Theorem simple_concurrent_counters pol m n tr (c : process sstate) :
  process_reach pol m n tr c -> Forall (fun th => th_does th = Idle) (pr_threads c) ->
  shows_calls (pr_state c) (calls_shown alloc_calls tr) (calls_shown free_calls tr) (calls_shown direct_calls tr).
Proof. exact (process_counts pol m n tr c). Qed.
End theorems.

Lemma simple_concurrent_counters_witness :
  process_reach exclusive (Memory [] ∅) 2 simple_history simple_last /\
  shows_calls (pr_state simple_last) 3 1 0.
Proof.
  split; [exact simple_process_reach|].
  apply (simple_concurrent_counters _ _ _ _ _ simple_process_reach).
  assert (Ht : pr_threads simple_last = [idle; idle]) by (vm_compute; reflexivity).
  rewrite Ht. by repeat constructor.
Defined.
