(* ===== verification/UnitTests.v ===== *)
(** * The unit tests of the crates, run on the model

    The [#[test]] functions of the sources as computations on the model: an assertion
    that fails, an [expect] or [unwrap] that has nothing to unwrap and every access out
    of bounds or to unmapped memory ends the test.  Each runs to its end, values going
    out of scope are dropped.  This checks the model against what the authors expect of
    the code.  Kernel, processor and loaded library are the concrete ones of the other
    files. *)

From Stdlib Require Import String Floats.SpecFloat.
From S2P Require Import Prelude SizeClass Memory Page Magazine Global FreeList Slab Buddy ThreadLocal.
From S2P Require Import TagManager HardwareTags PageTable Compactor Metrics Text Exporter.

(** ** Assertions *)

Definition assert_that {S} (b : bool) : M S unit := if b then mret tt else panic.

(** [Result::unwrap]. *)
Definition unwrap_ok {S A E} (r : A + E) : M S A := match r with inl a => mret a | inr _ => panic end.

(** The test comes to its end. *)
Definition passes {S A} (test : M S A) (s : S) : bool := match test s with Ret _ => true | _ => false end.

(** A loop over a list, and one that gathers results. *)
Fixpoint for_each {S A} (l : list A) (f : A -> M S unit) : M S unit :=
  match l with
  | [] => mret tt
  | x :: l => f x ;; for_each l f
  end.

Fixpoint collect {S A} (n : nat) (f : M S A) : M S (list A) :=
  match n with
  | O => mret []
  | S n => x ← f; l ← collect n f; mret (x :: l)
  end.

(** ** size_class.rs *)

#[global] Instance SizeClass_eq_dec : EqDecision SizeClass.
Proof. solve_decision. Defined.

Definition classifies (size : Z) (c : SizeClass) : bool := bool_decide (SizeClass_classify size = c).

Definition test_classify_zero : bool := classifies 0 Tiny.

Definition test_classify_tiny : bool := forallb (fun s => classifies s Tiny) [1; 16; 64; 128].

Definition test_classify_small : bool := forallb (fun s => classifies s Small) [129; 256; 4096; 8192].

Definition test_classify_medium : bool := forallb (fun s => classifies s Medium) [8193; 16384; 262144].

Definition test_classify_large : bool := forallb (fun s => classifies s Large) [262145; 1024 * 1024].

Definition test_round_up_pow2 : bool :=
  forallb (fun x => round_up_pow2 x.1 =? x.2)
    [(0, 1); (1, 1); (2, 2); (3, 4); (4, 4); (5, 8); (1023, 1024); (1024, 1024); (1025, 2048)].

Definition test_slab_index : bool :=
  forallb (fun x => bool_decide (slab_index x.1 = x.2))
    [(16, Some 0); (32, Some 1); (64, Some 2); (128, Some 3); (256, Some 4); (512, Some 5); (1024, Some 6);
     (2048, Some 7); (4096, Some 8); (8192, Some 9); (0, None); (8, None); (16384, None)].

Definition size_class_tests : list bool :=
  [test_classify_zero; test_classify_tiny; test_classify_small; test_classify_medium; test_classify_large;
   test_round_up_pow2; test_slab_index].

(** ** page.rs *)

Definition write_volatile (a v : Z) : M memory unit :=
  m ← getS; m' ← or_fault (store8 m a v); modifyS (fun _ => m').

Definition read_volatile (a : Z) : M memory Z := m ← getS; or_fault (load8 m a).

Section kernel_tests.
Context `{K : Kernel}.

Definition expect_pages (pages : Z) : M memory Z := r ← PageAllocator_alloc pages; or_panic r.

Definition test_alloc_dealloc_single_page : M memory unit :=
  ptr ← expect_pages 1;
  assert_that (ptr mod PAGE_SIZE =? 0) ;;
  write_volatile ptr 0x42 ;;
  v ← read_volatile ptr;
  assert_that (v =? 0x42) ;;
  PageAllocator_dealloc ptr 1.

Definition test_alloc_multiple_pages : M memory unit :=
  ptr ← expect_pages 4;
  let last_byte := ptr + (4 * PAGE_SIZE - 1) in
  write_volatile last_byte 0xFF ;;
  v ← read_volatile last_byte;
  assert_that (v =? 0xFF) ;;
  PageAllocator_dealloc ptr 4.

Definition test_alloc_zero_pages : M memory unit :=
  ptr ← PageAllocator_alloc 0;
  assert_that (bool_decide (is_Some ptr)).

Definition test_memory_is_zeroed : M memory unit :=
  ptr ← expect_pages 1;
  for_each (seqZ 0 256) (fun i => v ← read_volatile (ptr + i); assert_that (v =? 0)) ;;
  PageAllocator_dealloc ptr 1.

(** ** slab.rs *)

Definition on_new_slab {A} (size : Z) (test : M (memory * Slab) A) : M memory A :=
  fun m => match (r ← test; Slab_drop ;; mret r) (m, Slab_new size) with
           | Ret (a, x) => Ret (a, x.1)
           | Panic => Panic | Fault => Fault | Diverge => Diverge
           end.

Definition expect_slot : M (memory * Slab) Z := r ← Slab_alloc; or_panic r.

Definition test_slab_alloc_dealloc : M memory unit := on_new_slab 64 (
  ptr1 ← expect_slot;
  ptr2 ← expect_slot;
  assert_that (negb (ptr1 =? ptr2)) ;;
  Slab_dealloc ptr1 ;; Slab_dealloc ptr2).

Definition test_slab_reuse_freed_slots : M memory unit := on_new_slab 64 (
  ptr1 ← expect_slot;
  Slab_dealloc ptr1 ;;
  ptr2 ← expect_slot;
  assert_that (ptr1 =? ptr2)).

Definition test_slab_multiple_pages : M memory unit := on_new_slab 64 (
  ptrs ← collect (Z.to_nat (PAGE_SIZE / 64 + 10)) expect_slot;
  for_each ptrs Slab_dealloc).

Definition test_slab_reuse_across_pages : M memory unit := on_new_slab 64 (
  ptrs ← collect (Z.to_nat (PAGE_SIZE / 64 * 2)) expect_slot;
  first_page_ptr ← or_panic (ptrs !! 0%nat);
  Slab_dealloc first_page_ptr ;;
  new_ptr ← expect_slot;
  assert_that (first_page_ptr =? new_ptr) ;;
  Slab_dealloc new_ptr ;;
  for_each (drop 1 ptrs) Slab_dealloc).

Definition test_slab_various_sizes : M memory unit :=
  for_each [16; 32; 64; 128; 256; 512; 1024; 2048; 4096] (fun size => on_new_slab size (
    ptr ← expect_slot;
    assert_that (ptr mod size =? 0) ;;
    Slab_dealloc ptr)).

(** ** buddy.rs *)

(** The lists are shorter than the fuel. *)
Definition on_new_buddy {A} (test : M buddy_state A) : M memory A :=
  fun m => match (r ← test; BuddyAllocator_drop ;; mret r) (m, BuddyAllocator_new) with
           | Ret (a, x) => Ret (a, x.1)
           | Panic => Panic | Fault => Fault | Diverge => Diverge
           end.

Definition expect_block (size : Z) : M buddy_state Z := r ← BuddyAllocator_alloc 2 size; or_panic r.

Definition test_buddy_alloc_dealloc : M memory unit := on_new_buddy (
  ptr ← expect_block (16 * 1024);
  BuddyAllocator_dealloc 20 ptr (16 * 1024)).

Definition test_buddy_various_sizes : M memory unit := on_new_buddy (
  for_each [16384; 32768; 65536; 131072; 262144] (fun size =>
    ptr ← expect_block size;
    BuddyAllocator_dealloc 20 ptr size)).

Definition test_buddy_split_and_coalesce : M memory unit := on_new_buddy (
  ptr1 ← expect_block 262144;
  BuddyAllocator_dealloc 20 ptr1 262144 ;;
  ptr2 ← expect_block 16384;
  ptr3 ← expect_block 16384;
  assert_that (negb (ptr2 =? ptr3)) ;;
  BuddyAllocator_dealloc 20 ptr2 16384 ;;
  BuddyAllocator_dealloc 20 ptr3 16384).

Definition test_buddy_invalid_sizes : M memory unit := on_new_buddy (
  r ← BuddyAllocator_alloc 2 8192;
  assert_that (bool_decide (r = None)) ;;
  r ← BuddyAllocator_alloc 2 524288;
  assert_that (bool_decide (r = None))).

(** ** thread_local.rs *)

Definition on_new_cache {A} (test : M tlc_state A) : M memory A :=
  fun m => match (r ← test; ThreadLocalCache_drop ;; mret r) (m, ThreadLocalCache_new) with
           | Ret (a, x) => Ret (a, x.1)
           | Panic => Panic | Fault => Fault | Diverge => Diverge
           end.

Definition expect_cached (size : Z) : M tlc_state Z := r ← ThreadLocalCache_alloc size; or_panic r.

Definition test_cache_alloc_dealloc : M memory unit := on_new_cache (
  ptr ← expect_cached 64;
  ThreadLocalCache_dealloc ptr 64).

Definition test_cache_reuse : M memory unit := on_new_cache (
  ptr1 ← expect_cached 64;
  ThreadLocalCache_dealloc ptr1 64 ;;
  ptr2 ← expect_cached 64;
  assert_that (ptr1 =? ptr2) ;;
  ThreadLocalCache_dealloc ptr2 64).

Definition test_cache_tiny_sizes : M memory unit := on_new_cache (
  for_each [16; 32; 64; 128] (fun size =>
    ptr ← expect_cached size;
    assert_that (ptr mod size =? 0) ;;
    ThreadLocalCache_dealloc ptr size)).

Definition test_cache_small_sizes : M memory unit := on_new_cache (
  for_each [256; 512; 1024; 2048; 4096; 8192] (fun size =>
    ptr ← expect_cached size;
    assert_that (ptr mod PAGE_SIZE =? 0) ;;
    ThreadLocalCache_dealloc ptr size)).

Definition test_cache_rejects_large_sizes : M memory unit := on_new_cache (
  r ← ThreadLocalCache_alloc 16384;
  assert_that (bool_decide (r = None)) ;;
  r ← ThreadLocalCache_alloc 262145;
  assert_that (bool_decide (r = None))).

Definition test_cache_full_frees_directly : M memory unit := on_new_cache (
  ptrs ← collect (Z.to_nat (CACHE_SIZE + 5)) (expect_cached 64);
  for_each ptrs (fun ptr => ThreadLocalCache_dealloc ptr 64)).

Definition memory_tests : list (M memory unit) :=
  [test_alloc_dealloc_single_page; test_alloc_multiple_pages; test_alloc_zero_pages; test_memory_is_zeroed;
   test_slab_alloc_dealloc; test_slab_reuse_freed_slots; test_slab_multiple_pages;
   test_slab_reuse_across_pages; test_slab_various_sizes;
   test_buddy_alloc_dealloc; test_buddy_various_sizes; test_buddy_split_and_coalesce; test_buddy_invalid_sizes;
   test_cache_alloc_dealloc; test_cache_reuse; test_cache_tiny_sizes; test_cache_small_sizes;
   test_cache_rejects_large_sizes; test_cache_full_frees_directly].
End kernel_tests.


(** ** magazine.rs *)

Definition test_magazine_push_pop : M Magazine unit :=
  mag ← getS;
  assert_that (Magazine_is_empty mag) ;;
  r ← Magazine_push 0x1000;
  assert_that r ;;
  r ← Magazine_push 0x2000;
  assert_that r ;;
  mag ← getS;
  assert_that (mag_count mag =? 2) ;;
  b ← Magazine_pop;
  assert_that (bool_decide (b = Some 0x2000)) ;;
  b ← Magazine_pop;
  assert_that (bool_decide (b = Some 0x1000)) ;;
  mag ← getS;
  assert_that (Magazine_is_empty mag).

(** [0..MAGAZINE_CAPACITY], each pushed as [i + 1]. *)
Definition fill_up : M Magazine unit :=
  for_each (seqZ 0 MAGAZINE_CAPACITY) (fun i => r ← Magazine_push (i + 1); assert_that r).

Definition test_magazine_capacity : M Magazine unit :=
  fill_up ;;
  mag ← getS;
  assert_that (Magazine_is_full mag) ;;
  r ← Magazine_push 0xFFFF;
  assert_that (negb r).

(** [Box::into_raw(Box::new(MagazineNode::new()))], with the address the heap gave. *)
Definition boxed_node (node : Z) : M pool_store unit :=
  modifyS (fun x => (<[node := MagazineNode_new]> x.1, x.2)).

(** Dropping the box. *)
Definition unbox_node (node : Z) : M pool_store unit :=
  x ← getS;
  or_fault (x.1 !! node) ;;
  modifyS (fun x => (delete node x.1, x.2)).

(** Work on the magazine of a node. *)
Definition in_node {A} (node : Z) (m : M Magazine A) : M pool_store A :=
  zoom (fun x => node_magazine <$> x.1 !! node)
    (fun mag x => (alter (fun nd => {| node_next := node_next nd; node_magazine := mag |}) node x.1, x.2)) m.

Definition test_pool_push_pop (node : Z) : M pool_store unit :=
  boxed_node node ;;
  push_full node ;;
  popped ← pop_full;
  assert_that (bool_decide (is_Some popped)) ;;
  p ← or_panic popped;
  assert_that (p =? node) ;;
  unbox_node node.

Definition test_symmetric_stacks (node : Z) : M pool_store unit :=
  boxed_node node ;;
  in_node node fill_up ;;
  push_full node ;;
  full ← pop_full;
  assert_that (bool_decide (is_Some full)) ;;
  f ← or_panic full;
  in_node f Magazine_clear ;;
  push_empty f ;;
  empty ← pop_empty;
  assert_that (bool_decide (is_Some empty)) ;;
  e ← or_panic empty;
  unbox_node e.

Definition magazine_tests : list bool :=
  [passes test_magazine_push_pop Magazine_new; passes test_magazine_capacity Magazine_new;
   passes (test_pool_push_pop 4096) (∅, GlobalMagazinePool_new);
   passes (test_symmetric_stacks 4096) (∅, GlobalMagazinePool_new)].

(** ** tag_manager.rs, mte.rs, cheri.rs and x86.rs *)

Definition test_software_tag_manager_allocate : M SoftwareTagManager unit :=
  r ← allocate_tag;
  tag ← unwrap_ok r;
  assert_that ((MIN_TAG <=? tag) && (tag <=? MAX_TAG)).

Definition test_software_tag_manager_free_reuse : M SoftwareTagManager unit :=
  r1 ← allocate_tag;
  unwrap_ok r1 ;;
  r2 ← allocate_tag;
  tag2 ← unwrap_ok r2;
  r ← free_tag tag2;
  unwrap_ok r ;;
  r3 ← allocate_tag;
  unwrap_ok r3 ;;
  mret tt.

Definition test_software_tag_manager_tag_pointer : M SoftwareTagManager unit :=
  manager ← getS;
  tagged ← unwrap_ok (tag_pointer manager 0x1000 5);
  assert_that (get_tag manager tagged =? 5).

Definition test_software_tag_manager_untag_pointer : M SoftwareTagManager unit :=
  manager ← getS;
  tagged ← unwrap_ok (tag_pointer manager 0x1000 7);
  assert_that (untag_pointer manager tagged =? 0x1000).

(** [buffer] is the address of the array on the stack. *)
Definition test_tagged_allocation (buffer : Z) : bool :=
  let alloc := TaggedAllocation_new buffer 64 3 in
  (tagged_size alloc =? 64) && (tagged_tag alloc =? 3).

Definition test_tag_out_of_range : M SoftwareTagManager unit :=
  manager ← getS;
  assert_that (match tag_pointer manager 0x1000 20 with inr _ => true | inl _ => false end).

Definition test_mte_tag_manager_creation : bool := used_tags (mte_bits MteTagManager_new) =? 0.

Definition test_mte_tag_allocate : M MteTagManager unit :=
  r ← Mte_allocate_tag;
  tag ← unwrap_ok r;
  assert_that ((MIN_TAG <=? tag) && (tag <=? MAX_TAG)).

Definition test_cheri_tag_manager_creation : bool := cheri_used_tags CheriTagManager_new =? 0.

Definition test_cheri_tag_allocate : M CheriTagManager unit :=
  r ← Cheri_allocate_tag;
  tag ← unwrap_ok r;
  assert_that ((1 <=? tag) && (tag <=? MAX_TAG)).

Definition test_cheri_tag_free : M CheriTagManager unit :=
  r ← Cheri_allocate_tag;
  tag ← unwrap_ok r;
  r ← Cheri_free_tag tag;
  unwrap_ok r.

Definition test_capability_meta : bool :=
  let meta := {| cm_base := 0x1000; cm_length := 4096; cm_offset := 0; cm_permissions := PERM_READ_WRITE;
                 cm_tag := true |} in
  (cm_base meta =? 0x1000) && (cm_length meta =? 4096).

Definition test_permissions : bool :=
  PERM_READ_WRITE =? Z.lor (Z.lor (Z.lor PERM_LOAD PERM_STORE) PERM_LOAD_CAP) PERM_STORE_CAP.

Definition test_tag_manager : M X86TagManager unit :=
  r ← X86_allocate_tag;
  tag ← unwrap_ok r;
  assert_that ((1 <=? tag) && (tag <=? 15)).

Definition tag_tests : list bool :=
  ((fun t => passes t SoftwareTagManager_new) <$>
     [test_software_tag_manager_allocate; test_software_tag_manager_free_reuse;
      test_software_tag_manager_tag_pointer; test_software_tag_manager_untag_pointer; test_tag_out_of_range]) ++
  [test_tagged_allocation 4096; test_mte_tag_manager_creation; passes test_mte_tag_allocate MteTagManager_new;
   test_cheri_tag_manager_creation; passes test_cheri_tag_allocate CheriTagManager_new;
   passes test_cheri_tag_free CheriTagManager_new; test_capability_meta; test_permissions;
   passes test_tag_manager (X86TagManager_new (C := cpuid_amd));
   passes test_tag_manager (X86TagManager_new (C := cpuid_other))].

(** ** page_table.rs and compactor.rs *)

(** The [f32] values 0.01 and 0.1. *)
Definition f32_0_01 : spec_float := S754_finite false 10737418 (-30).
Definition f32_0_1 : spec_float := S754_finite false 13421773 (-27).
Definition f32_0_25 : spec_float := S754_finite false 8388608 (-25).

(** [(x - y).abs() < 0.01]. *)
Definition close_to (x y : spec_float) : bool := SFltb (SFabs (SFsub 24 128 x y)) f32_0_01.

Definition test_pagemap_entry_present : bool :=
  let entry := PageMapEntry_new (shl64 1 63) in is_present entry && negb (is_swapped entry).

Definition test_pagemap_entry_swapped : bool :=
  let entry := PageMapEntry_new (shl64 1 62) in is_swapped entry && negb (is_present entry).

Definition test_pagemap_entry_pfn : bool := page_frame_number (PageMapEntry_new 0x1234) =? 0x1234.

Definition test_page_utilization : bool :=
  let util := {| page_addr := 0x1000; allocated_bytes := 1024; total_bytes := 4096 |} in
  close_to (utilization util) f32_0_25 && is_sparse util half_f32 && negb (is_sparse util f32_0_1).

(** [stack_var] is the address of a variable. *)
Definition test_query_stack_page {W} `{ProcFs W} (stack_var : Z) : M W unit :=
  tracker ← PageTableTracker_new true;
  entry ← query_page true tracker stack_var;
  assert_that (bool_decide (is_Some entry)) ;;
  entry ← or_panic entry;
  assert_that (is_present entry) ;;
  PageTableTracker_drop true tracker.

Definition test_compact_config_default : bool :=
  close_to (utilization_threshold CompactConfig_default) half_f32 &&
  (min_pages_to_compact CompactConfig_default =? 2) && (max_pages_per_pass CompactConfig_default =? 256).

#[global] Instance CompactError_eq_dec : EqDecision CompactError.
Proof. solve_decision. Defined.

#[global] Instance CompactResult_eq_dec : EqDecision CompactResult.
Proof. solve_decision. Defined.

Definition test_compact_result : bool :=
  bool_decide (Success = Success) && negb (bool_decide (Success = NoAction)).

Definition test_compactor_creation : bool :=
  SFeqb (utilization_threshold (config Compactor_default)) half_f32.

Definition test_make_iovec (buf : Z) : bool := iov_len (make_iovec {| sl_ptr := buf; sl_len := 4 |}) =? 4.

Definition test_try_relocate_page `{K : Kernel} `{FK : FixedKernel} : M memory unit :=
  m ← getS;
  match kernel_mmap m PAGE_SIZE with
  | None => mret tt
  | Some (ptr, m1) =>
      modifyS (fun _ => m1) ;;
      for_each (seqZ 0 PAGE_SIZE) (fun i => write_volatile (ptr + i) 0xAB) ;;
      result ← try_relocate_page ptr PAGE_SIZE;
      (if bool_decide (result = inl Success)
       then for_each (seqZ 0 PAGE_SIZE) (fun i => v ← read_volatile (ptr + i); assert_that (v =? 0xAB))
       else mret tt) ;;
      kernel_unmap ptr PAGE_SIZE ;;
      mret tt
  end.

Definition vmpc_tests : list bool :=
  [test_pagemap_entry_present; test_pagemap_entry_swapped; test_pagemap_entry_pfn; test_page_utilization;
   passes (test_query_stack_page (H := demo_procfs true) 4104) [];
   test_compact_config_default; test_compact_result; test_compactor_creation; test_make_iovec 4096;
   passes (test_try_relocate_page (FK := bump_fixed_kernel true)) (Memory [] ∅);
   passes (test_try_relocate_page (FK := bump_fixed_kernel false)) (Memory [] ∅)].

(** ** The metrics library *)

Fixpoint contains (needle s : text) : bool :=
  bool_decide (needle `prefix_of` s) || match s with [] => false | _ :: s => contains needle s end.

Definition test_format_metrics_without_library {W} `{Loader W} : M (exporter W) unit :=
  metrics ← format_metrics;
  assert_that (contains (bytes "ERROR"%string) metrics || contains (bytes "aethalloc_allocs_total"%string) metrics).

Definition exporter_tests : list bool :=
  [passes (test_format_metrics_without_library (H := no_library)) {| LIB := None; ex_world := tt |}].

Definition unit_tests : list bool :=
  size_class_tests ++ ((fun t => passes t (Memory [] ∅)) <$> memory_tests) ++ magazine_tests ++ tag_tests ++
  vmpc_tests ++ exporter_tests.

(** ** The tests pass *)

(** The unit tests of the sources hold of the model: each of the tests of
    size_class.rs, page.rs, slab.rs, buddy.rs, thread_local.rs, magazine.rs,
    tag_manager.rs, mte.rs, cheri.rs, x86.rs, page_table.rs, compactor.rs and the metrics
    library translated here runs on the model to its end with every assertion true and
    every [expect] met, no access to unmapped memory and no index out of bounds. *)
Theorem unit_tests_pass : Forall (fun passed => passed = true) unit_tests.
Proof. apply Forall_forall. intros b Hb%list_elem_of_In. revert b Hb. apply forallb_forall. vm_compute. reflexivity. Qed.
